(* ===== verification/_CoqProject ===== *)
-Q . S2P
Prelude.v
Wire.v
Parse.v
Emit.v
Codec.v
Subject.v
Trie.v
TrieSpec.v
ConnState.v
ShardInbox.v
EventFd.v
Worker.v
Dispatch.v
DispatchSpec.v
Session.v
SessionSpec.v
Broker.v
Reader.v
Pool.v
Server.v
ServerRun.v
EndToEnd.v
InboxConc.v
Topology.v
Startup.v
Bench.v
Fanout.v
BenchMain.v
TrieBench.v
MicroBench.v
Connection.v
UnitTests.v
PropTests.v
Fair.v
Threads.v
Loom.v
