(* ===== verification/Prelude.v ===== *)
(** * Aulon: a verification of the NATS-core message broker

    Aulon is a publish/subscribe broker.  A server process runs one worker
    thread per L3 cache domain (a _shard_).  A worker accepts connections,
    parses the text protocol of its clients, keeps the subscriptions of its
    own clients in a trie, and delivers every publication to the matching
    subscribers; a publication is also handed to every other shard through a
    lock-free inbox, and an eventfd wakes the peer's drain task.

    ** The parts and the files that model them

    The library follows the call graph; every file lists in its first comment
    the source file it translates.

    - [Prelude] (this file): bytes, machine integers as bounded [Z] with
      checked and wrapping operations, Rust slices, the [run] monad
      ([Done]/[Panic]: an out-of-range index, an overflow, a failed [expect]
      and undefined behaviour are all [Panic]), the tactics [simplify_run],
      [zcase], [zb], [lens] and the rewrite databases [len] and [run].
    - [Wire], [Parse], [Emit] ([crates/aulon-proto/src]: [frame.rs],
      [error.rs], [parse.rs], [emit.rs]): frames, every function of the parser
      over a byte slice, every function of the emitter over a caller-provided
      buffer (monad [emitM]).  [Codec] relates the two.
    - [Subject], [Trie] ([crates/aulon-core/src/subscription.rs]): subject
      validation and the subscription trie.  [TrieSpec] states the contract
      of the trie, a flat routing table, and the interface [RoutingTable]
      the publish path uses.
    - [ConnState] ([connection_state.rs]): the bounded outbound buffer of a
      connection, its close reason and the writer's notification.
    - [ShardInbox] ([shard_inbox.rs]): the inbox ring; [push] and [pop] are
      programs of single atomic accesses, here run alone.  [InboxConc] runs
      the same accesses under every schedule of many producers and the drain
      task, and (module [Tso]) with store buffers.
    - [Worker], [Dispatch] ([crates/aulon-server/src/main.rs]): the worker's
      state, and [handle_pub], [dispatch_local] and [drain_task].  The
      [Rc<ConnectionState>]s shared by tasks are addresses of a heap, so that
      all holders see the same cells.  [DispatchSpec] is their contract.
    - [Session] ([main.rs]): [handle_frame], the reader and writer tasks and
      the accept loop, one definition per stretch of code between two
      [await]s.  [SessionSpec] is their contract.
    - [Broker]: a shard as a state machine ([step]) in which the accept loop,
      all readers and writers, the drain task and the peers' pushes interleave
      at the [await]s, with its invariant by rule induction.  [Reader] puts the
      greeting, the rounds and the clean-up together into the whole
      [reader_task].
    - [EventFd] ([eventfd.rs]): the eventfd pair over the system calls.
    - [Pool] ([buffer_pool.rs]): the registered buffers, and the shard of
      [Broker] with the buffers its tasks take and drop ([pooled_step]).
    - [Server]: all shards side by side ([server_step]), sharing the inboxes
      and eventfds that [main] creates; each shard projects to [Broker].
      [ServerRun] is an executable form of these steps and two shards driven
      through it.  [EndToEnd] follows a publication from the publisher's
      socket to a subscriber's.
    - [Fair]: infinite executions of [Server] with the task that takes each
      step, and fair scheduling of drain tasks and writers.
    - [Threads]: the same server one atomic access at a time ([thread_step]):
      [handle_pub] cut at its pushes, the accesses of [push] and [pop], the
      drain loop; [run_orders] is an executable form of these steps.
    - [Topology] ([topology.rs] and [main]): sysfs parsing, the grouping of
      CPUs by L3 domain, and the start of the workers.
    - [Startup] ([main], [worker_main], [bind_so_reuseport]): the whole of
      [main] with its descriptors, the listener, how shards stop, and what a
      stopped shard does to the others.
    - [Connection] ([connection.rs]): the typestate wrapper.
    - [Bench], [Fanout], [BenchMain] ([crates/aulon-bench/src]: [main.rs],
      [fanout.rs]): the benchmark clients, which speak the protocol of [Parse]
      and [Emit] to the broker of [Session], and their [main] functions.
      [TrieBench] and [MicroBench] are the criterion benchmarks of the trie, of
      the parser and of the pool.
    - [UnitTests], [PropTests], [Loom]: the unit tests of every file, one
      definition per test function; the property tests and fuzz target of the
      codec; the loom tests of the inbox ([tests/loom_inbox.rs]).

    ** What is shown

    - Codec: the parser never panics, its outcomes are final (more input
      never changes an accepted frame or an error), accepted frames are well
      formed and delimit themselves; the emitter writes exactly the text of a
      frame or reports that it does not fit; the two are inverse.
    - Routing: on every sequence of calls the trie is the flat table, calls
      back exactly the matching subscriptions once each, and prunes fully.
    - Outbound buffers: under any interleaving they are byte streams; eviction
      happens exactly on overflow; a writer that waits with work pending has
      a notification stored; and a subscriber that keeps up is evicted all
      the same if its buffer is never drained empty.
    - Publish path: a publication reaches every matching subscription and one
      member of each matching queue group exactly once, locally and, through
      the inbox, on the peers; invalid subjects change nothing.
    - Connections: every frame has its documented effect; the way the input
      is cut into reads does not matter; no input makes the reader panic; the
      whole reader task returns and leaves the connection closed and out of
      the map; the writer sends exactly the pending bytes and the closing [-ERR].
    - Shards: in every reachable state the connection map, the trie and the
      readers' records agree; live subscribers receive, from the bytes on the
      publisher's socket to those on theirs; nothing is left in
      the trie once all connections have ended, if no client reuses a live
      subscription id.
    - Inbox: alone it refines a bounded FIFO queue across the wrap-around of
      its counters; under every schedule no access races or is undefined,
      values are received once and in claim order, [Full] means full, and no
      wake-up is lost as long as accesses are sequentially consistent.
      A schedule can always be completed to one where everything is received.
    - Buffers: each registered buffer is free or owned by one task, and comes
      back when its task ends; the typestate connection never loses its own.
    - Server: every shard of the running server is a shard of [Broker]; what
      crosses shards was validated and finds its drain task awake or woken;
      a publication can be followed through all inboxes to every shard, which
      serves it exactly once.  In every execution that schedules drain tasks
      and writers fairly it is delivered: dispatched on every other shard and
      sent on the sockets of its subscribers there.
    - Threads: with a drain task running between two accesses of a push and
      pushes racing for slots, every shard is still a shard of [Broker] outside
      its publications, no thread is ever stuck, and every state can come to
      rest, with everything accepted served exactly once and in order.
    - Start-up: [main] does not panic, leaks no descriptor, and returns exactly
      when its shards have stopped, each for a failure of the platform.
    - Benchmarks: time stamps survive the trip through the broker, the
      subscriber reads them all whatever the reads bring, the publisher keeps
      to its window and every run completes; both programs report exactly the
      samples their configuration asks for, the fan-out with its warm-up.
    - Tests: the model passes all unit tests of the program, for every order of
      a directory listing and every platform that behaves as documented, the
      property tests on all inputs of their generators, and the loom tests
      under every schedule and for any scripts of pushes and pops.
    - Topology: CPU lists are read back, shards partition the CPUs by domain,
      and every shard is started once.

    Twelve theorems record behaviour that departs from what the code or its
    documents mean: [sid_reuse_leaks_a_route], [oversized_publication_vanishes],
    [total_subscriptions_drifts], [emit_needed_is_a_lower_bound],
    [keeping_up_is_evicted], [queue_group_served_per_shard] (a queue group
    that spans shards receives a message once per shard),
    [ping_pong_stalls_on_the_broker], [store_buffering_loses_wakeup] (the
    orderings of the inbox allow a lost wake-up on hardware with store
    buffers), [startup_outcomes] (several shards that all failed end in
    [Ok(())]), [dead_shard_back_pressure] (one stopped shard makes publishing
    fail on all others), [dead_subscriber_hangs_the_benchmark] and
    [trie_bench_matches] (a measurement meant to hit matches nothing).

    ** Parameters, bounds and fuel

    - [tokio::sync::Notify] is the class [Notify] with the law [NotifyLaws]
      (a stored permit survives until taken); [permit_notify] is an instance.
      Likewise [Kernel] (the eventfd system calls, with [table_kernel]),
      [FixedBufPool] (the pool of [tokio_uring], with [checkout]), [FixedIo]
      (its streams and buffers, with [one_byte]) and [Histogram] with
      [HistogramOps] and [HistogramLaws] (of the [hdrhistogram] crate, with
      [sample_list] and [Samples.samples]).
      What an [await] returns (bytes read, success of a write, the value of an
      eventfd read) is an argument.
    - [usize] has 64 bits.  [Vec] growth does not fail.  Slices are at most
      [isize::MAX] long ([slice_ok]).
    - The fuel of [frames_loop] is one more than the bytes of the accumulator
      (every frame consumes at least one), of [drain_inbox] and [drop_inbox]
      one more than the elements inside, of [push] six accesses and two per
      spurious failure, of [digits_loop] the twenty digits of a [u64], of
      [find_crlf_loop] and [try_take_msg_loop] one more than the bytes (every
      turn drops one), of [subscriber_loop] one more than the messages and
      reads; running out would be [Panic], and the theorems show it does not
      happen.
    - Fairness ([Fair.fair]): from any time at which a task is ready there is a
      later one at which it runs or is no longer ready.  It is assumed of the
      drain task and the writers of the receiving shard only, of nothing else.
    - [Broker] bounds a run to fewer than 2^32 accepted connections (the
      width of the identifier) and a counter of subscriptions below 2^64;
      [InboxConc] to fewer than 2^61 actions, from any start of the counters,
      and [Threads] to fewer than 2^61 steps (coming to rest takes at most
      [10 * n + 1] accesses per publishing thread of [n]); [Loom] to fewer
      values than the requested capacity, but any number of turns.

    ** What is not modelled

    [io_uring] itself, logging and the printing of the benchmarks' reports.
    [register] and [into_uring_file] only forward to the library.  The clock of
    the criterion benchmarks and the part of loom that weakens memory orders are
    not: [Threads] and [Loom] interleave sequentially consistent accesses (the
    module [Tso] of [InboxConc] shows what store buffers add).
    The parsing of a socket address is an argument of [from_env].
    [Server] and [Fair] take a push or pop as one step; [Threads] looks inside.
    The iteration order of the reader's [HashMap] is arbitrary (an argument);
    the trie's is never iterated. *)
From Stdlib Require Import ZArith Lia Strings.Byte.
From stdpp Require Import base gmap list strings.

(* ------------------------------------------------------------------ *)
(** * Bytes *)

#[global] Instance byte_eq_dec : EqDecision byte := Byte.byte_eq_dec.
#[global] Program Instance byte_countable : Countable byte :=
  inj_countable Byte.to_N Byte.of_N _.
Next Obligation. apply Byte.of_to_N. Qed.

Abbreviation bytes := (list byte).

(** Byte-string literals: [b"PING"] of the source is [bs "PING"]. *)
Abbreviation bs s := (String.list_byte_of_string s%string) (only parsing).

Definition CR : byte := x0d.
Definition LF : byte := x0a.
Definition SP : byte := x20.
Definition TAB : byte := x09.
Definition CRLF : bytes := [CR; LF].

(** [b as u64] and [u8::try_from(n)] for a byte value. *)
Definition byte_val (b : byte) : Z := Z.of_N (Byte.to_N b).
Definition byte_of_val (n : Z) : option byte :=
  if (0 <=? n)%Z then Byte.of_N (Z.to_N n) else None.

(* ------------------------------------------------------------------ *)
(** * Machine integers of a 64-bit target, as bounded [Z] *)

Declare Scope usize_scope.
Delimit Scope usize_scope with usize.
Open Scope Z_scope.

Definition usize_max : Z := 2 ^ 64 - 1.
Definition isize_max : Z := 2 ^ 63 - 1.
Definition u64_max : Z := 2 ^ 64 - 1.
Definition u32_max : Z := 2 ^ 32 - 1.

Definition is_usize (n : Z) : Prop := 0 <= n <= usize_max.

(** [a.checked_add(b)] and [a.checked_mul(b)] at the type of maximum [max]. *)
Definition checked_add (max a b : Z) : option Z :=
  if a + b <=? max then Some (a + b) else None.
Definition checked_mul (max a b : Z) : option Z :=
  if a * b <=? max then Some (a * b) else None.
Definition saturating_add (a b : Z) : Z := Z.min (a + b) usize_max.
Definition wrap64 (n : Z) : Z := n mod 2 ^ 64.
Definition wrapping_add (a b : Z) : Z := wrap64 (a + b).
Definition wrapping_sub (a b : Z) : Z := wrap64 (a - b).
(** [n as isize]: two's complement reinterpretation of a [usize]. *)
Definition as_isize (n : Z) : Z := if n <=? isize_max then n else n - 2 ^ 64.

(* ------------------------------------------------------------------ *)
(** * Computations that may panic *)

(** [Done a] is a normal return, [Panic] an out-of-bounds index, an
    arithmetic overflow, a failed [expect] or [unreachable!]. *)
Inductive run (A : Type) : Type :=
| Done (a : A)
| Panic.
Arguments Done {A} a.
Arguments Panic {A}.

#[global] Instance run_ret : MRet run := fun A a => Done a.
#[global] Instance run_bind : MBind run := fun A B f m =>
  match m with Done a => f a | Panic => Panic end.

Inductive result (A E : Type) : Type :=
| Ok (a : A)
| Err (e : E).
Arguments Ok {A E} a.
Arguments Err {A E} e.

#[global] Instance result_eq_dec {A E} `{EqDecision A, EqDecision E} :
  EqDecision (result A E).
Proof. solve_decision. Defined.

(** The [?] operator. *)
Definition and_then {A B E} (m : result A E) (f : A -> result B E) : result B E :=
  match m with Ok a => f a | Err e => Err e end.

Declare Scope result_scope.
Delimit Scope result_scope with result.
Notation "x <-? m ; k" := (and_then m (fun x => k)) (at level 20, m at level 100, k at level 200, only parsing) : result_scope.
Lemma and_then_ok {A B E} (m : result A E) (f : A -> result B E) b :
  and_then m f = Ok b -> exists a, m = Ok a /\ f a = Ok b.
Proof. destruct m; cbn; [eauto|done]. Qed.

(** [a + b] and [a - b] on [usize] with overflow checks on. *)
Definition uadd (a b : Z) : run Z :=
  if a + b <=? usize_max then Done (a + b) else Panic.
Definition usub (a b : Z) : run Z :=
  if b <=? a then Done (a - b) else Panic.
Infix "+!" := uadd (at level 50, left associativity) : usize_scope.
Infix "-!" := usub (at level 50, left associativity) : usize_scope.

Definition assert_ (c : bool) : run unit := if c then Done tt else Panic.
Definition expect {A} (o : option A) : run A :=
  match o with Some a => Done a | None => Panic end.

(* ------------------------------------------------------------------ *)
(** * Slices *)

Definition len {A} (l : list A) : Z := Z.of_nat (length l).

(** A Rust slice never spans more than [isize::MAX] bytes. *)
Definition slice_ok {A} (l : list A) : Prop := len l <= isize_max.

(** [&s[lo..hi]], [&s[..hi]] and [&s[lo..]]. *)
Definition slice {A} (s : list A) (lo hi : Z) : run (list A) :=
  if (0 <=? lo) && (lo <=? hi) && (hi <=? len s)
  then Done (take (Z.to_nat (hi - lo)) (drop (Z.to_nat lo) s)) else Panic.
Definition slice_to {A} (s : list A) (hi : Z) : run (list A) := slice s 0 hi.
Definition slice_from {A} (s : list A) (lo : Z) : run (list A) := slice s lo (len s).

(** [s[i]]. *)
Definition index {A} (s : list A) (i : Z) : run A :=
  if 0 <=? i then expect (s !! Z.to_nat i) else Panic.
(** [s[i] = v]. *)
Definition index_set {A} (s : list A) (i : Z) (v : A) : run (list A) :=
  if (0 <=? i) && (i <? len s) then Done (<[Z.to_nat i := v]> s) else Panic.

(** [out[lo..hi].copy_from_slice(src)]. *)
Definition copy_from_slice {A} (out : list A) (lo hi : Z) (src : list A) : run (list A) :=
  if (0 <=? lo) && (lo <=? hi) && (hi <=? len out) && (len src =? hi - lo)
  then Done (take (Z.to_nat lo) out ++ src ++ drop (Z.to_nat hi) out) else Panic.

(** [s.iter().position(p)]. *)
Fixpoint position {A} (p : A -> bool) (s : list A) : option Z :=
  match s with
  | [] => None
  | a :: s' => if p a then Some 0 else Z.succ <$> position p s'
  end.

(* ------------------------------------------------------------------ *)
(** * Automation *)

Create HintDb aulon.
Create Rewrite HintDb len.
Create Rewrite HintDb run.

(** Inverts equations between computations and simplifies. *)
Ltac simplify_run :=
  repeat match goal with
  | H : Done _ = Done _ |- _ => injection H as H
  | H : Done _ = Panic |- _ => discriminate H
  | H : Panic = Done _ |- _ => discriminate H
  | H : Ok _ = Ok _ |- _ => injection H as H
  | H : Err _ = Err _ |- _ => injection H as H
  | H : Ok _ = Err _ |- _ => discriminate H
  | H : Err _ = Ok _ |- _ => discriminate H
  | H : mbind _ ?m = Done _ |- _ =>
      let E := fresh "E" in destruct m eqn:E; [| discriminate H];
      change (mbind ?f (Done ?a)) with (f a) in H; cbv beta in H
  | H : mret _ = _ |- _ => change (mret ?a) with (Done a) in H
  end; simplify_eq.

(** Splits on the boolean comparison guarding the goal. *)
Ltac zcase :=
  match goal with
  | |- context [?a <=? ?b] => destruct (Z.leb_spec a b)
  | |- context [?a <? ?b] => destruct (Z.ltb_spec a b)
  | |- context [?a =? ?b] => destruct (Z.eqb_spec a b)
  end; cbn [andb orb negb].

(* ------------------------------------------------------------------ *)
(** * Generic lemmas *)

Lemma len_nil {A} : len ([] : list A) = 0.
Proof. reflexivity. Qed.
Lemma len_cons {A} (a : A) l : len (a :: l) = len l + 1.
Proof. unfold len. cbn. lia. Qed.
Lemma len_app {A} (l k : list A) : len (l ++ k) = len l + len k.
Proof. unfold len. rewrite length_app. lia. Qed.
Lemma len_nonneg {A} (l : list A) : 0 <= len l.
Proof. unfold len. lia. Qed.
Lemma len_take {A} n (l : list A) : len (take n l) = Z.min (Z.of_nat n) (len l).
Proof. unfold len. rewrite length_take. lia. Qed.
Lemma len_drop {A} n (l : list A) : len (drop n l) = Z.max 0 (len l - Z.of_nat n).
Proof. unfold len. rewrite length_drop. lia. Qed.
Lemma len_insert {A} i (v : A) l : len (<[i := v]> l) = len l.
Proof. unfold len. by rewrite length_insert. Qed.
Lemma len_zero {A} (l : list A) : len l = 0 -> l = [].
Proof. destruct l; [done|]. rewrite len_cons. pose proof (len_nonneg l). lia. Qed.
Lemma len_rev {A} (l : list A) : len (rev l) = len l.
Proof. unfold len. by rewrite length_rev. Qed.
Lemma len_CRLF : len CRLF = 2.
Proof. reflexivity. Qed.

#[export] Hint Rewrite @len_nil @len_cons @len_app @len_take @len_drop @len_insert @len_rev len_CRLF : len.

Lemma to_nat_len {A} (l : list A) : Z.to_nat (len l) = length l.
Proof. unfold len. lia. Qed.

(** [lia] with the lengths of lists pushed to the leaves. *)
Ltac lens :=
  autorewrite with len in *;
  repeat match goal with
  | |- context [len ?l] =>
      lazymatch goal with
      | _ : 0 <= len l |- _ => fail
      | _ => pose proof (len_nonneg l)
      end
  | _ : context [len ?l] |- _ =>
      lazymatch goal with
      | _ : 0 <= len l |- _ => fail
      | _ => pose proof (len_nonneg l)
      end
  end; lia.

(** Decides boolean comparisons on [Z] that [lens] can settle. *)
Ltac zb :=
  repeat match goal with
  | |- context [?a <=? ?b] =>
      first [ rewrite (proj2 (Z.leb_le a b)) by lens
            | rewrite (proj2 (Z.leb_gt a b)) by lens ]
  | |- context [?a <? ?b] =>
      first [ rewrite (proj2 (Z.ltb_lt a b)) by lens
            | rewrite (proj2 (Z.ltb_ge a b)) by lens ]
  | |- context [?a =? ?b] =>
      first [ rewrite (proj2 (Z.eqb_eq a b)) by lens
            | rewrite (proj2 (Z.eqb_neq a b)) by lens ]
  end; cbn [andb orb negb].

Lemma fold_left_snoc {A} (l acc : list A) : fold_left (fun l a => l ++ [a]) l acc = acc ++ l.
Proof.
  revert acc. induction l as [|a l IH]; intros acc; cbn; [by rewrite app_nil_r|].
  by rewrite IH, <- app_assoc.
Qed.

Section RunLaws.
Context {A B C : Type}.

Lemma bind_ret (a : A) (f : A -> run B) : mbind f (Done a) = f a.
Proof. reflexivity. Qed.
Lemma bind_panic (f : A -> run B) : mbind f Panic = Panic.
Proof. reflexivity. Qed.
Lemma bind_assoc (m : run A) (f : A -> run B) (g : B -> run C) :
  mbind g (mbind f m) = mbind (fun a => mbind g (f a)) m.
Proof. by destruct m. Qed.
End RunLaws.

#[export] Hint Rewrite @bind_ret @bind_panic : run.

Lemma uadd_ok a b : a + b <= usize_max -> (a +! b)%usize = Done (a + b).
Proof. intros. unfold uadd. by zb. Qed.
Lemma usub_ok a b : b <= a -> (a -! b)%usize = Done (a - b).
Proof. intros. unfold usub. by zb. Qed.

Lemma checked_add_ok max a b : a + b <= max -> checked_add max a b = Some (a + b).
Proof. intros. unfold checked_add. by zb. Qed.
Lemma checked_mul_ok max a b : a * b <= max -> checked_mul max a b = Some (a * b).
Proof. intros. unfold checked_mul. by zb. Qed.
Lemma checked_add_Some max a b n :
  checked_add max a b = Some n -> n = a + b /\ a + b <= max.
Proof. unfold checked_add. zcase; [|done]. by intros [= <-]. Qed.
Lemma checked_mul_Some max a b n :
  checked_mul max a b = Some n -> n = a * b /\ a * b <= max.
Proof. unfold checked_mul. zcase; [|done]. by intros [= <-]. Qed.

Section Slices.
Context {A : Type}.
Implicit Types s t u : list A.

Lemma slice_app s t u lo hi :
  lo = len s -> hi = len s + len t -> slice (s ++ t ++ u) lo hi = Done t.
Proof.
  intros -> ->. unfold slice. zb.
  replace (len s + len t - len s) with (len t) by lia.
  by rewrite !to_nat_len, drop_app_length, take_app_length.
Qed.
Lemma slice_to_app s t hi : hi = len s -> slice_to (s ++ t) hi = Done s.
Proof. intros ->. exact (slice_app [] s t 0 (len s) eq_refl eq_refl). Qed.
Lemma slice_from_app s t lo : lo = len s -> slice_from (s ++ t) lo = Done t.
Proof.
  intros ->. unfold slice_from. rewrite len_app.
  rewrite <- (app_nil_r t) at 1. by apply slice_app.
Qed.

Lemma slice_to_full s : slice_to s (len s) = Done s.
Proof. rewrite <- (app_nil_r s) at 1. by apply slice_to_app. Qed.
Lemma slice_from_full s : slice_from s (len s) = Done [].
Proof. rewrite <- (app_nil_r s) at 1. by apply slice_from_app. Qed.

Lemma slice_inv s lo hi t :
  slice s lo hi = Done t ->
  0 <= lo <= hi /\ hi <= len s /\ len t = hi - lo /\
  exists p q, s = p ++ t ++ q /\ len p = lo.
Proof.
  unfold slice. do 3 (zcase; try discriminate). intros [= <-].
  split_and!; [lia..|lens|].
  exists (take (Z.to_nat lo) s), (drop (Z.to_nat (hi - lo)) (drop (Z.to_nat lo) s)).
  rewrite !take_drop. split; [done|]. lens.
Qed.

Lemma slice_done s lo hi :
  0 <= lo <= hi -> hi <= len s ->
  slice s lo hi = Done (take (Z.to_nat (hi - lo)) (drop (Z.to_nat lo) s)).
Proof. intros. unfold slice. by zb. Qed.
Lemma slice_to_done s hi :
  0 <= hi <= len s -> slice_to s hi = Done (take (Z.to_nat hi) s).
Proof.
  intros. unfold slice_to. rewrite slice_done by lia. by rewrite Z.sub_0_r.
Qed.
Lemma slice_from_done s lo :
  0 <= lo <= len s -> slice_from s lo = Done (drop (Z.to_nat lo) s).
Proof.
  intros. unfold slice_from. rewrite slice_done by lia.
  f_equal. apply take_ge. rewrite length_drop. unfold len. lia.
Qed.

Lemma copy_from_slice_app s t u src lo hi :
  lo = len s -> hi = len s + len t -> len src = len t ->
  copy_from_slice (s ++ t ++ u) lo hi src = Done (s ++ src ++ u).
Proof.
  intros -> -> Hl. unfold copy_from_slice. zb.
  rewrite to_nat_len, take_app_length. do 2 f_equal.
  rewrite app_assoc, <- len_app, to_nat_len. by rewrite drop_app_length.
Qed.
End Slices.

Section Position.
Context {A : Type} (p : A -> bool).

Lemma position_app s a t :
  Forall (fun x => p x = false) s -> p a = true ->
  position p (s ++ a :: t) = Some (len s).
Proof.
  intros Hs Ha. induction Hs as [|x s Hx _ IH]; cbn.
  - by rewrite Ha.
  - by rewrite Hx, IH, len_cons.
Qed.
Lemma position_None s :
  Forall (fun x => p x = false) s <-> position p s = None.
Proof.
  split; [by induction 1 as [|x s Hx _ IH]; cbn; [|rewrite Hx, IH]|].
  induction s as [|x s IH]; cbn; [done|].
  destruct (p x) eqn:E; [done|]. destruct (position p s); [done|]. auto.
Qed.
Lemma position_Some s i :
  position p s = Some i ->
  exists t a u, s = t ++ a :: u /\ len t = i /\
    Forall (fun x => p x = false) t /\ p a = true.
Proof.
  revert i. induction s as [|x s IH]; cbn; [done|]. intros i.
  destruct (p x) eqn:E; [intros [= <-]; by exists [], x, s|].
  destruct (position p s) as [j|]; [|done]. intros [= <-].
  destruct (IH j eq_refl) as (t & a & u & -> & Hl & Ht & Ha).
  exists (x :: t), a, u. split_and!; [done| |by constructor|done]. lens.
Qed.
End Position.

Lemma byte_val_range b : 0 <= byte_val b < 256.
Proof.
  unfold byte_val. pose proof (Byte.to_N_bounded b). lia.
Qed.
Lemma byte_of_val_val b : byte_of_val (byte_val b) = Some b.
Proof.
  unfold byte_of_val, byte_val. zb. by rewrite N2Z.id, Byte.of_to_N.
Qed.
Lemma byte_of_val_Some n :
  0 <= n < 256 -> exists b, byte_of_val n = Some b /\ byte_val b = n.
Proof.
  intros H. unfold byte_of_val, byte_val. zb.
  destruct (Byte.of_N (Z.to_N n)) as [b|] eqn:E.
  - exists b. split; [done|]. apply Byte.to_of_N in E. lia.
  - apply Byte.of_N_None_iff in E. lia.
Qed.
