(* ===== verification/Wire.v ===== *)
(** The data types of the wire codec, crate [aulon-proto]: frames
    (src/crates/aulon-proto/src/frame.rs), the codec's errors (error.rs)
    and the outcome of one parser call (parse.rs).  A borrowed slice
    [&'a [u8]] is the byte list it denotes. *)
From Stdlib Require Import ZArith Strings.Byte.
From stdpp Require Import base list strings.
From S2P Require Import Prelude.

Module Frame.
Inductive t : Type :=
| Connect (options : bytes)
| Pub (subject : bytes) (reply_to : option bytes) (payload : bytes)
| Sub (subject : bytes) (queue_group : option bytes) (sid : bytes)
| Unsub (sid : bytes) (max_msgs : option Z)
| Msg (subject sid : bytes) (reply_to : option bytes) (payload : bytes)
| Ping
| Pong
| Info (options : bytes)
| Ok
| Err (message : bytes).

#[global] Instance t_eq_dec : EqDecision t.
Proof. solve_decision. Defined.
End Frame.

Module ParseError.
Inductive t : Type :=
| UnknownVerb
| BadHeader
| PayloadLengthInvalid
| MaxMsgsInvalid
| MissingTrailingCrlf.

#[global] Instance t_eq_dec : EqDecision t.
Proof. solve_decision. Defined.

(** [impl fmt::Display for ParseError]. *)
Definition fmt (e : t) : bytes :=
  match e with
  | UnknownVerb => bs "unknown verb"
  | BadHeader => bs "malformed header line"
  | PayloadLengthInvalid => bs "invalid payload length"
  | MaxMsgsInvalid => bs "invalid UNSUB max_msgs"
  | MissingTrailingCrlf => bs "missing trailing CRLF after payload"
  end.
End ParseError.

Module EmitError.
Inductive t : Type :=
| BufferTooSmall (needed have_ : Z).

#[global] Instance t_eq_dec : EqDecision t.
Proof. solve_decision. Defined.
End EmitError.

Module ParseOutcome.
Inductive t : Type :=
| Frame (frame : Frame.t) (consumed : Z)
| NeedMore
| Err (e : ParseError.t).

#[global] Instance t_eq_dec : EqDecision t.
Proof. solve_decision. Defined.
End ParseOutcome.
