(* ===== verification/Parse.v ===== *)
(** The wire parser, src/crates/aulon-proto/src/parse.rs. *)
From Stdlib Require Import ZArith Lia Strings.Byte.
From stdpp Require Import base list strings.
From S2P Require Import Prelude Wire.

(* ------------------------------------------------------------------ *)
(** * Byte-level helpers *)

(** [find_crlf]: the [while i + 1 < buf.len()] scan, from index [i] on the
    suffix [buf] of the slice. *)
Fixpoint find_crlf_from (i : Z) (buf : bytes) : option Z :=
  match buf with
  | c0 :: ((c1 :: _) as rest) =>
      if bool_decide (c0 = CR) && bool_decide (c1 = LF) then Some i
      else find_crlf_from (i + 1) rest
  | _ => None
  end.
Definition find_crlf (buf : bytes) : option Z := find_crlf_from 0 buf.

Definition is_blank (c : byte) : bool := bool_decide (c = SP) || bool_decide (c = TAB).

Definition split_verb (line : bytes) : run (bytes * bytes) :=
  match position is_blank line with
  | Some idx =>
      verb ← slice_to line idx;
      idx1 ← (idx +! 1)%usize;
      rest ← slice_from line idx1;
      mret (verb, rest)
  | None => mret (line, [])
  end.

(** The [while] of [trim_leading_spaces] followed by [&s[i..]]. *)
Fixpoint trim_leading_spaces (s : bytes) : bytes :=
  match s with
  | c :: s' => if is_blank c then trim_leading_spaces s' else s
  | [] => []
  end.

Module TokenIter.
Record t : Type := mk { rest : bytes }.

Definition new (rest : bytes) : t := mk rest.

(** [Iterator::next]: the token and the advanced iterator. *)
Definition next (it : t) : run (option bytes * t) :=
  let rest := trim_leading_spaces (rest it) in
  match rest with
  | [] => mret (None, mk rest)
  | _ :: _ =>
      let end_ := default (len rest) (position is_blank rest) in
      token ← slice_to rest end_;
      rest' ← slice_from rest end_;
      mret (Some token, mk rest')
  end.
End TokenIter.

Definition is_ascii_digit (c : byte) : bool :=
  (48 <=? byte_val c) && (byte_val c <=? 57).

Fixpoint parse_usize_loop (n : Z) (s : bytes) : option Z :=
  match s with
  | [] => Some n
  | c :: s' =>
      if negb (is_ascii_digit c) then None
      else n10 ← checked_mul usize_max n 10;
           n' ← checked_add usize_max n10 (byte_val c - 48);
           parse_usize_loop n' s'
  end.
Definition parse_usize (s : bytes) : option Z :=
  match s with [] => None | _ => parse_usize_loop 0 s end.

Fixpoint parse_u64_loop (n : Z) (s : bytes) : option Z :=
  match s with
  | [] => Some n
  | c :: s' =>
      if negb (is_ascii_digit c) then None
      else n10 ← checked_mul u64_max n 10;
           n' ← checked_add u64_max n10 (byte_val c - 48);
           parse_u64_loop n' s'
  end.
Definition parse_u64 (s : bytes) : option Z :=
  match s with [] => None | _ => parse_u64_loop 0 s end.

Definition consume_payload (buf : bytes) (header_total payload_len : Z) :
    run (option (bytes * Z)) :=
  match checked_add usize_max header_total payload_len with
  | None => mret None
  | Some payload_end =>
      match checked_add usize_max payload_end (len CRLF) with
      | None => mret None
      | Some total =>
          if len buf <? total then mret None
          else
            tail ← slice buf payload_end total;
            if negb (bool_decide (tail = CRLF)) then mret None
            else
              payload ← slice buf header_total payload_end;
              mret (Some (payload, total))
      end
  end.

Definition need_more_or_missing_crlf (buf : bytes) (header_total payload_len : Z) :
    ParseOutcome.t :=
  match checked_add usize_max header_total payload_len with
  | None => ParseOutcome.Err ParseError.PayloadLengthInvalid
  | Some payload_end =>
      match checked_add usize_max payload_end (len CRLF) with
      | None => ParseOutcome.Err ParseError.PayloadLengthInvalid
      | Some total =>
          if len buf <? total then ParseOutcome.NeedMore
          else ParseOutcome.Err ParseError.MissingTrailingCrlf
      end
  end.

(* ------------------------------------------------------------------ *)
(** * Verb parsers *)

Abbreviation bad_header := (mret (ParseOutcome.Err ParseError.BadHeader)).

Definition header_only (frame : Frame.t) (rest : bytes) (header_total : Z) : ParseOutcome.t :=
  match rest with
  | _ :: _ => ParseOutcome.Err ParseError.BadHeader
  | [] => ParseOutcome.Frame frame header_total
  end.

Definition parse_err (rest : bytes) (header_total : Z) : ParseOutcome.t :=
  ParseOutcome.Frame (Frame.Err rest) header_total.

Definition parse_connect (rest : bytes) (header_total : Z) : ParseOutcome.t :=
  match rest with
  | [] => ParseOutcome.Err ParseError.BadHeader
  | _ => ParseOutcome.Frame (Frame.Connect rest) header_total
  end.

Definition parse_info (rest : bytes) (header_total : Z) : ParseOutcome.t :=
  match rest with
  | [] => ParseOutcome.Err ParseError.BadHeader
  | _ => ParseOutcome.Frame (Frame.Info rest) header_total
  end.

Definition parse_sub (rest : bytes) (header_total : Z) : run ParseOutcome.t :=
  let tokens := TokenIter.new rest in
  '(o_subject, tokens) ← TokenIter.next tokens;
  match o_subject with
  | None => bad_header
  | Some subject =>
      '(o_second, tokens) ← TokenIter.next tokens;
      match o_second with
      | None => bad_header
      | Some second =>
          '(third, tokens) ← TokenIter.next tokens;
          '(extra, _) ← TokenIter.next tokens;
          match extra with
          | Some _ => bad_header
          | None =>
              let '(queue_group, sid) :=
                match third with
                | Some sid => (Some second, sid)
                | None => (None, second)
                end in
              mret (ParseOutcome.Frame (Frame.Sub subject queue_group sid) header_total)
          end
      end
  end.

Definition parse_unsub (rest : bytes) (header_total : Z) : run ParseOutcome.t :=
  let tokens := TokenIter.new rest in
  '(o_sid, tokens) ← TokenIter.next tokens;
  match o_sid with
  | None => bad_header
  | Some sid =>
      '(o_max, tokens) ← TokenIter.next tokens;
      let max_msgs :=
        match o_max with
        | Some token =>
            match parse_u64 token with
            | Some n => Ok (Some n)
            | None => Err ParseError.MaxMsgsInvalid
            end
        | None => Ok None
        end in
      match max_msgs with
      | Err e => mret (ParseOutcome.Err e)
      | Ok max_msgs =>
          '(extra, _) ← TokenIter.next tokens;
          match extra with
          | Some _ => bad_header
          | None => mret (ParseOutcome.Frame (Frame.Unsub sid max_msgs) header_total)
          end
      end
  end.

Definition parse_pub (buf rest : bytes) (header_total : Z) : run ParseOutcome.t :=
  let tokens := TokenIter.new rest in
  '(o_subject, tokens) ← TokenIter.next tokens;
  match o_subject with
  | None => bad_header
  | Some subject =>
      '(o_second, tokens) ← TokenIter.next tokens;
      match o_second with
      | None => bad_header
      | Some second =>
          '(third, tokens) ← TokenIter.next tokens;
          '(extra, _) ← TokenIter.next tokens;
          match extra with
          | Some _ => bad_header
          | None =>
              let '(reply_to, count_token) :=
                match third with
                | Some count => (Some second, count)
                | None => (None, second)
                end in
              match parse_usize count_token with
              | None => mret (ParseOutcome.Err ParseError.PayloadLengthInvalid)
              | Some payload_len =>
                  consumed ← consume_payload buf header_total payload_len;
                  match consumed with
                  | None => mret (need_more_or_missing_crlf buf header_total payload_len)
                  | Some (payload, total) =>
                      mret (ParseOutcome.Frame (Frame.Pub subject reply_to payload) total)
                  end
              end
          end
      end
  end.

Definition parse_msg (buf rest : bytes) (header_total : Z) : run ParseOutcome.t :=
  let tokens := TokenIter.new rest in
  '(o_subject, tokens) ← TokenIter.next tokens;
  match o_subject with
  | None => bad_header
  | Some subject =>
      '(o_sid, tokens) ← TokenIter.next tokens;
      match o_sid with
      | None => bad_header
      | Some sid =>
          '(o_third, tokens) ← TokenIter.next tokens;
          match o_third with
          | None => bad_header
          | Some third =>
              '(fourth, tokens) ← TokenIter.next tokens;
              '(extra, _) ← TokenIter.next tokens;
              match extra with
              | Some _ => bad_header
              | None =>
                  let '(reply_to, count_token) :=
                    match fourth with
                    | Some count => (Some third, count)
                    | None => (None, third)
                    end in
                  match parse_usize count_token with
                  | None => mret (ParseOutcome.Err ParseError.PayloadLengthInvalid)
                  | Some payload_len =>
                      consumed ← consume_payload buf header_total payload_len;
                      match consumed with
                      | None => mret (need_more_or_missing_crlf buf header_total payload_len)
                      | Some (payload, total) =>
                          mret (ParseOutcome.Frame (Frame.Msg subject sid reply_to payload) total)
                      end
                  end
              end
          end
      end
  end.

(** The [match verb] of [parse_frame]. *)
Definition parse_verb (buf verb rest : bytes) (header_total : Z) : run ParseOutcome.t :=
  if bool_decide (verb = bs "PING") then mret (header_only Frame.Ping rest header_total)
  else if bool_decide (verb = bs "PONG") then mret (header_only Frame.Pong rest header_total)
  else if bool_decide (verb = bs "+OK") then mret (header_only Frame.Ok rest header_total)
  else if bool_decide (verb = bs "-ERR") then mret (parse_err rest header_total)
  else if bool_decide (verb = bs "CONNECT") then mret (parse_connect rest header_total)
  else if bool_decide (verb = bs "INFO") then mret (parse_info rest header_total)
  else if bool_decide (verb = bs "SUB") then parse_sub rest header_total
  else if bool_decide (verb = bs "UNSUB") then parse_unsub rest header_total
  else if bool_decide (verb = bs "PUB") then parse_pub buf rest header_total
  else if bool_decide (verb = bs "MSG") then parse_msg buf rest header_total
  else mret (ParseOutcome.Err ParseError.UnknownVerb).

Definition parse_frame (buf : bytes) : run ParseOutcome.t :=
  match find_crlf buf with
  | None => mret ParseOutcome.NeedMore
  | Some line_end =>
      header_total ← (line_end +! len CRLF)%usize;
      line ← slice_to buf line_end;
      '(verb, rest) ← split_verb line;
      parse_verb buf verb rest header_total
  end.

(* ------------------------------------------------------------------ *)
(** * Specification vocabulary *)

(** A line holds no CRLF pair. *)
Definition no_crlf (l : bytes) : Prop := find_crlf l = None.

(** A token is a non-empty run of bytes without blanks; a field is a token
    that fits in a header line. *)
Definition blank_free (l : bytes) : Prop := Forall (fun c => is_blank c = false) l.
Definition token (l : bytes) : Prop := l <> [] /\ blank_free l.
Definition field (l : bytes) : Prop := token l /\ no_crlf l.
Definition opt_field (o : option bytes) : Prop :=
  match o with Some l => field l | None => True end.

(** The frames of the protocol: what the grammar lets a frame carry. *)
Definition frame_wf (f : Frame.t) : Prop :=
  match f with
  | Frame.Ping | Frame.Pong | Frame.Ok => True
  | Frame.Err message => no_crlf message
  | Frame.Connect options | Frame.Info options => options <> [] /\ no_crlf options
  | Frame.Sub subject queue_group sid => field subject /\ opt_field queue_group /\ field sid
  | Frame.Unsub sid max_msgs =>
      field sid /\ match max_msgs with Some m => 0 <= m <= u64_max | None => True end
  | Frame.Pub subject reply_to payload =>
      field subject /\ opt_field reply_to /\ slice_ok payload
  | Frame.Msg subject sid reply_to payload =>
      field subject /\ field sid /\ opt_field reply_to /\ slice_ok payload
  end.

(** What a [PUB] or [MSG] header of [ht] bytes announcing [n] payload bytes
    yields on the bytes [body] that follow it. *)
Definition payload_outcome (mk : bytes -> Frame.t) (ht n : Z) (body : bytes) :
    ParseOutcome.t :=
  if usize_max <? ht + n + 2 then ParseOutcome.Err ParseError.PayloadLengthInvalid
  else if len body <? n + 2 then ParseOutcome.NeedMore
  else if bool_decide (take 2 (drop (Z.to_nat n) body) = CRLF)
  then ParseOutcome.Frame (mk (take (Z.to_nat n) body)) (ht + n + 2)
  else ParseOutcome.Err ParseError.MissingTrailingCrlf.

(** The shapes a verb parser [p], as a function of the bytes that follow a
    header of [ht] bytes, can have: it rejects the header, it accepts the
    header alone, or it goes on to the announced payload. *)
Inductive verb_outcome (ht : Z) (p : bytes -> run ParseOutcome.t) : Prop :=
| vo_err e (Hp : forall body, p body = Done (ParseOutcome.Err e))
| vo_line f (Hf : frame_wf f) (Hp : forall body, p body = Done (ParseOutcome.Frame f ht))
| vo_payload mk n (Hn : 0 <= n) (Hf : forall payload, slice_ok payload -> frame_wf (mk payload))
    (Hp : forall body, p body = Done (payload_outcome mk ht n body)).

Example parse_pub_example :
  parse_frame (bs "PUB foo INBOX.42 5" ++ CRLF ++ bs "hello" ++ CRLF) =
  Done (ParseOutcome.Frame (Frame.Pub (bs "foo") (Some (bs "INBOX.42")) (bs "hello")) 27).
Proof. vm_compute. reflexivity. Qed.

(* ------------------------------------------------------------------ *)
(** * The line scanner *)

Lemma find_crlf_from_cons i c0 c1 l :
  find_crlf_from i (c0 :: c1 :: l) =
  if bool_decide (c0 = CR) && bool_decide (c1 = LF) then Some i
  else find_crlf_from (i + 1) (c1 :: l).
Proof. reflexivity. Qed.

Lemma find_crlf_from_shift i j l :
  find_crlf_from i l = Z.add (i - j) <$> find_crlf_from j l.
Proof.
  revert i j. induction l as [|c0 l IH]; [done|]. intros i j.
  destruct l as [|c1 l]; [done|]. rewrite !find_crlf_from_cons.
  destruct (_ && _); [cbn; f_equal; lia|].
  rewrite (IH (i + 1) (j + 1)). by replace (i + 1 - (j + 1)) with (i - j) by lia.
Qed.

Lemma find_crlf_cons c l :
  find_crlf (c :: l) =
  if bool_decide (c = CR) && bool_decide (head l = Some LF) then Some 0
  else Z.succ <$> find_crlf l.
Proof.
  unfold find_crlf. destruct l as [|c1 l].
  { cbn. by rewrite andb_false_r. }
  rewrite find_crlf_from_cons. cbn [head].
  replace (bool_decide (Some c1 = Some LF)) with (bool_decide (c1 = LF))
    by (apply bool_decide_ext; naive_solver).
  destruct (_ && _); [done|]. rewrite (find_crlf_from_shift _ 0).
  destruct (find_crlf_from 0 (c1 :: l)); cbn; [f_equal; lia|done].
Qed.

Lemma no_crlf_cons c l :
  no_crlf (c :: l) <-> no_crlf l /\ ~ (c = CR /\ head l = Some LF).
Proof.
  unfold no_crlf. rewrite find_crlf_cons.
  destruct (decide (c = CR /\ head l = Some LF)) as [[-> Hl]|Hn].
  - rewrite !bool_decide_eq_true_2 by done. cbn. split; [done|tauto].
  - replace (_ && _) with false; [rewrite fmap_None; tauto|].
    symmetry. apply andb_false_iff. rewrite !bool_decide_eq_false.
    destruct (decide (c = CR)); tauto.
Qed.

(** The first CRLF of [line ++ CRLF ++ tail] ends a line that holds none. *)
Lemma find_crlf_line line tail :
  no_crlf line -> find_crlf (line ++ CRLF ++ tail) = Some (len line).
Proof.
  induction line as [|c line IH]; [done|].
  rewrite no_crlf_cons. intros [Hl Hc]. cbn [app]. rewrite find_crlf_cons, IH by done.
  replace (_ && _) with false; [cbn; f_equal; lens|].
  symmetry. apply andb_false_iff. rewrite !bool_decide_eq_false.
  destruct line as [|c1 line]; cbn; [naive_solver|].
  destruct (decide (c = CR)); naive_solver.
Qed.

Lemma find_crlf_Some buf i :
  find_crlf buf = Some i ->
  exists line tail, buf = line ++ CRLF ++ tail /\ len line = i /\ no_crlf line.
Proof.
  revert i. induction buf as [|c buf IH]; [done|]. intros i.
  rewrite find_crlf_cons. destruct (_ && _) eqn:E.
  - apply andb_true_iff in E as [->%bool_decide_eq_true Hb%bool_decide_eq_true].
    intros [= <-]. destruct buf as [|c1 buf]; [done|]. injection Hb as ->.
    by exists [], buf.
  - destruct (find_crlf buf) as [j|]; [|done]. intros [= <-].
    destruct (IH j eq_refl) as (line & tail & -> & Hl & Hn).
    exists (c :: line), tail. split_and!; [done|lens|].
    rewrite no_crlf_cons. split; [done|]. intros [-> Hh].
    apply andb_false_iff in E as [E|E]; apply bool_decide_eq_false in E;
      destruct line; cbn in *; congruence.
Qed.

Lemma no_crlf_app l k : no_crlf (l ++ k) -> no_crlf l /\ no_crlf k.
Proof.
  induction l as [|c l IH]; cbn [app]; [done|].
  rewrite !no_crlf_cons. intros [[Hl Hk]%IH Hc]. split_and!; [done| |done].
  intros [-> Hh]. apply Hc. by destruct l.
Qed.

(* ------------------------------------------------------------------ *)
(** * Tokens *)

Lemma trim_leading_spaces_length l : len (trim_leading_spaces l) <= len l.
Proof. induction l as [|c l IH]; cbn; [lens|]. destruct (is_blank c); lens. Qed.

Lemma trim_token t l : token t -> trim_leading_spaces (t ++ l) = t ++ l.
Proof.
  intros [Hn Ht]. destruct Ht as [|c t Hc Ht]; [done|]. cbn. by rewrite Hc.
Qed.

Lemma trim_head l c r : trim_leading_spaces l = c :: r -> is_blank c = false.
Proof.
  induction l as [|d l IH]; cbn; [done|]. destruct (is_blank d) eqn:E; [done|].
  by intros [= -> ->].
Qed.

Lemma split_verb_done line :
  slice_ok line -> exists verb rest, split_verb line = Done (verb, rest) /\ blank_free verb.
Proof.
  unfold slice_ok, isize_max. intros Hl. unfold split_verb.
  destruct (position is_blank line) as [idx|] eqn:E.
  - apply position_Some in E as (t & a & u & -> & <- & Ht & Ha).
    rewrite slice_to_app by done. rewrite bind_ret.
    rewrite uadd_ok by (unfold usize_max; lens). rewrite bind_ret.
    replace (t ++ a :: u) with ((t ++ [a]) ++ u) by by rewrite <- app_assoc.
    rewrite slice_from_app by lens. by exists t, u.
  - exists line, []. split; [done|]. by apply position_None.
Qed.

Lemma next_spec it :
  (trim_leading_spaces (TokenIter.rest it) = [] /\
   TokenIter.next it = Done (None, TokenIter.mk [])) \/
  (exists tok rest', TokenIter.next it = Done (Some tok, TokenIter.mk rest') /\
     trim_leading_spaces (TokenIter.rest it) = tok ++ rest' /\ token tok).
Proof.
  unfold TokenIter.next. destruct (trim_leading_spaces _) as [|c r] eqn:E; [by left|].
  right. apply trim_head in E as Hc. remember (c :: r) as l eqn:Hl. clear E.
  destruct (position is_blank l) as [i|] eqn:E; cbn.
  - apply position_Some in E as (t & a & u & -> & <- & Ht & Ha).
    rewrite slice_to_app, slice_from_app by done.
    exists t, (a :: u). split_and!; [done..|]. split; [|done].
    intros ->. simplify_eq/=. congruence.
  - apply position_None in E. exists l, [].
    rewrite slice_to_full, slice_from_full. split_and!; [done|by rewrite app_nil_r|].
    split; [by rewrite Hl|done].
Qed.

Lemma trim_leading_spaces_suffix l : exists p, l = p ++ trim_leading_spaces l.
Proof.
  induction l as [|c l [p IH]]; [by exists []|]. cbn.
  destruct (is_blank c); [exists (c :: p); cbn; congruence|by exists []].
Qed.

(** On a line, [next] returns a field and stays on the line. *)
Lemma next_field it :
  no_crlf (TokenIter.rest it) ->
  exists o it', TokenIter.next it = Done (o, it') /\
    no_crlf (TokenIter.rest it') /\ opt_field o.
Proof.
  intros Hn. destruct (trim_leading_spaces_suffix (TokenIter.rest it)) as [p Hp].
  destruct (next_spec it) as [[_ H]|(tok & rest' & H & Ht & Htok)]; rewrite H.
  { by exists None, (TokenIter.mk []). }
  exists (Some tok), (TokenIter.mk rest'). split; [done|].
  rewrite Hp, Ht in Hn. apply no_crlf_app in Hn as [_ [Ht' Hr]%no_crlf_app].
  by split_and!.
Qed.

(** Runs the next [TokenIter::next] call of the goal, naming its result. *)
Ltac next_step o :=
  cbv beta iota zeta delta [mbind run_bind];
  match goal with
  | H : no_crlf (TokenIter.rest ?it) |- context [TokenIter.next ?it] =>
      let it' := fresh "it" in let E := fresh "E" in let F := fresh "Hf" in
      destruct (next_field it H) as (o & it' & E & ? & F);
      rewrite E; clear H E;
      destruct o as [o|]; cbn [opt_field] in F; cbv beta iota
  end.

(* ------------------------------------------------------------------ *)
(** * Decimal fields *)

Lemma is_ascii_digit_val c : is_ascii_digit c = true <-> 48 <= byte_val c <= 57.
Proof. unfold is_ascii_digit. rewrite andb_true_iff, !Z.leb_le. lia. Qed.

Lemma parse_u64_loop_usize n s : parse_u64_loop n s = parse_usize_loop n s.
Proof. reflexivity. Qed.

Lemma parse_usize_loop_range s n m :
  0 <= n <= usize_max -> parse_usize_loop n s = Some m -> 0 <= m <= usize_max.
Proof.
  revert n. induction s as [|c s IH]; cbn; intros n Hn; [by intros [= <-]|].
  destruct (is_ascii_digit c) eqn:Hc; cbn; [|done].
  apply is_ascii_digit_val in Hc.
  destruct (checked_mul usize_max n 10) as [n10|] eqn:E1; cbn; [|done].
  destruct (checked_add usize_max n10 _) as [n'|] eqn:E2; cbn; [|done].
  apply checked_mul_Some in E1 as [-> ?]. apply checked_add_Some in E2 as [-> ?].
  apply IH. lia.
Qed.
Lemma parse_usize_range s m : parse_usize s = Some m -> 0 <= m <= usize_max.
Proof.
  unfold parse_usize. destruct s; [done|]. apply parse_usize_loop_range.
  unfold usize_max. lia.
Qed.
Lemma parse_u64_range s m : parse_u64 s = Some m -> 0 <= m <= u64_max.
Proof. exact (parse_usize_range s m). Qed.

(* ------------------------------------------------------------------ *)
(** * Payloads *)

Lemma payload_tail_eq (mk : bytes -> Frame.t) hdr body ht n :
  ht = len hdr -> 0 <= n ->
  (consumed ← consume_payload (hdr ++ body) ht n;
   match consumed with
   | None => mret (need_more_or_missing_crlf (hdr ++ body) ht n)
   | Some (payload, total) => mret (ParseOutcome.Frame (mk payload) total)
   end) = Done (payload_outcome mk ht n body).
Proof.
  intros -> Hn. unfold consume_payload, need_more_or_missing_crlf, payload_outcome.
  change (len CRLF) with 2. pose proof (len_nonneg hdr).
  unfold checked_add. destruct (Z.leb_spec (len hdr + n) usize_max); [|by zb].
  destruct (Z.leb_spec (len hdr + n + 2) usize_max); [|by zb].
  zb. rewrite len_app.
  destruct (Z.ltb_spec (len body) (n + 2)); [by zb|]. zb.
  rewrite !slice_done by lens. cbn.
  rewrite !drop_app_ge by (unfold len; lia).
  replace (Z.to_nat (len hdr + n) - length hdr)%nat with (Z.to_nat n) by (unfold len; lia).
  replace (Z.to_nat (len hdr) - length hdr)%nat with O by (unfold len; lia).
  replace (len hdr + n + 2 - (len hdr + n)) with 2 by lia.
  replace (len hdr + n - len hdr) with n by lia. cbn.
  change (Z.to_nat 2) with 2%nat. by destruct (bool_decide _).
Qed.

Lemma payload_outcome_stable mk ht n body ext :
  0 <= n -> payload_outcome mk ht n body <> ParseOutcome.NeedMore ->
  payload_outcome mk ht n (body ++ ext) = payload_outcome mk ht n body.
Proof.
  intros Hn. unfold payload_outcome. zcase; [done|]. zcase; [done|]. intros _. zb.
  rewrite drop_app_le, !take_app_le; [done|..];
    rewrite ?length_drop; unfold len in *; lia.
Qed.

Lemma payload_outcome_Frame mk ht n body f total :
  0 <= n -> payload_outcome mk ht n body = ParseOutcome.Frame f total ->
  exists payload tail, body = payload ++ CRLF ++ tail /\ len payload = n /\
    f = mk payload /\ total = ht + n + 2 /\ ht + n + 2 <= usize_max.
Proof.
  intros Hn. unfold payload_outcome. zcase; [done|]. zcase; [done|].
  case_bool_decide as Hc; [|done]. intros [= <- <-].
  exists (take (Z.to_nat n) body), (drop 2 (drop (Z.to_nat n) body)).
  rewrite <- Hc, !take_drop. split_and!; [done|lens|done|lia|lia].
Qed.
Lemma payload_outcome_complete mk ht payload tail :
  ht + len payload + 2 <= usize_max ->
  payload_outcome mk ht (len payload) (payload ++ CRLF ++ tail) =
  ParseOutcome.Frame (mk payload) (ht + len payload + 2).
Proof.
  intros H. unfold payload_outcome. zb.
  rewrite to_nat_len, drop_app_length, take_app_length. reflexivity.
Qed.

(* ------------------------------------------------------------------ *)
(** * One parser call *)

(** [parse_frame] on a buffer whose first line is [line]. *)
Lemma parse_frame_line line tail :
  no_crlf line -> slice_ok line ->
  exists verb rest, split_verb line = Done (verb, rest) /\
    parse_frame (line ++ CRLF ++ tail) =
    parse_verb ((line ++ CRLF) ++ tail) verb rest (len (line ++ CRLF)).
Proof.
  intros Hn Hok. destruct (split_verb_done line Hok) as (verb & rest & E & _).
  exists verb, rest. split; [done|]. unfold slice_ok, isize_max in Hok.
  unfold parse_frame. rewrite find_crlf_line by done.
  rewrite uadd_ok by (unfold usize_max; lens). rewrite bind_ret.
  rewrite slice_to_app by done. rewrite bind_ret, E, bind_ret, <- app_assoc. cbn beta iota.
  by rewrite len_app.
Qed.

(** Closes a branch that rejects the header. *)
Ltac reject := eapply vo_err; intros; reflexivity.

Lemma parse_sub_outcome rest ht :
  no_crlf rest -> verb_outcome ht (fun _ => parse_sub rest ht).
Proof.
  intros Hr. unfold parse_sub. change rest with (TokenIter.rest (TokenIter.new rest)) in Hr.
  next_step subject; [|reject]. next_step second; [|reject].
  next_step third; next_step extra; try reject.
  all: by eapply vo_line; [|intros; reflexivity].
Qed.

Lemma parse_unsub_outcome rest ht :
  no_crlf rest -> verb_outcome ht (fun _ => parse_unsub rest ht).
Proof.
  intros Hr. unfold parse_unsub. change rest with (TokenIter.rest (TokenIter.new rest)) in Hr.
  next_step sid; [|reject]. next_step tok.
  - destruct (parse_u64 tok) as [m|] eqn:Em; [|reject].
    next_step extra; [reject|]. eapply vo_line; [|intros; reflexivity].
    split; [done|]. by apply parse_u64_range in Em.
  - next_step extra; [reject|]. by eapply vo_line; [|intros; reflexivity].
Qed.

(** The payload of a header whose count is [count], for any frame shape. *)
Lemma payload_tail_outcome mk hdr count :
  (forall payload, slice_ok payload -> frame_wf (mk payload)) ->
  verb_outcome (len hdr) (fun body =>
    match parse_usize count with
    | None => mret (ParseOutcome.Err ParseError.PayloadLengthInvalid)
    | Some n =>
        consumed ← consume_payload (hdr ++ body) (len hdr) n;
        match consumed with
        | None => mret (need_more_or_missing_crlf (hdr ++ body) (len hdr) n)
        | Some (payload, total) => mret (ParseOutcome.Frame (mk payload) total)
        end
    end).
Proof.
  intros Hf. destruct (parse_usize count) as [n|] eqn:En; [|reject].
  apply parse_usize_range in En as [? _].
  apply (vo_payload _ _ mk n); [done..|]. intros. by apply payload_tail_eq.
Qed.

Lemma parse_pub_outcome hdr rest :
  no_crlf rest -> verb_outcome (len hdr) (fun body => parse_pub (hdr ++ body) rest (len hdr)).
Proof.
  intros Hr. unfold parse_pub. change rest with (TokenIter.rest (TokenIter.new rest)) in Hr.
  next_step subject; [|reject]. next_step second; [|reject].
  next_step third; next_step extra; try reject.
  all: apply (payload_tail_outcome (Frame.Pub _ _)); cbn; tauto.
Qed.

Lemma parse_msg_outcome hdr rest :
  no_crlf rest -> verb_outcome (len hdr) (fun body => parse_msg (hdr ++ body) rest (len hdr)).
Proof.
  intros Hr. unfold parse_msg. change rest with (TokenIter.rest (TokenIter.new rest)) in Hr.
  next_step subject; [|reject]. next_step sid; [|reject]. next_step third; [|reject].
  next_step fourth; next_step extra; try reject.
  all: apply (payload_tail_outcome (Frame.Msg _ _ _)); cbn; tauto.
Qed.

Lemma parse_verb_outcome hdr verb rest :
  no_crlf rest ->
  verb_outcome (len hdr) (fun body => parse_verb (hdr ++ body) verb rest (len hdr)).
Proof.
  intros Hr. unfold parse_verb.
  repeat (destruct (bool_decide _)).
  all: try by (destruct rest; [by eapply vo_line; [|intros; reflexivity]|reject]).
  all: try by (destruct rest; [reject|by eapply vo_line; [|intros; reflexivity]]).
  all: try by (eapply vo_line; [|intros; reflexivity]).
  all: try reject.
  - by apply parse_sub_outcome.
  - by apply parse_unsub_outcome.
  - by apply parse_pub_outcome.
  - by apply parse_msg_outcome.
Qed.

Lemma split_verb_no_crlf line verb rest :
  no_crlf line -> split_verb line = Done (verb, rest) -> no_crlf rest.
Proof.
  unfold split_verb. intros Hn. destruct (position is_blank line) as [i|] eqn:E.
  - apply position_Some in E as (t & a & u & -> & <- & _ & _).
    rewrite slice_to_app by done. rewrite bind_ret.
    unfold uadd. zcase; [|done]. rewrite bind_ret.
    replace (t ++ a :: u) with ((t ++ [a]) ++ u) in * by by rewrite <- app_assoc.
    rewrite slice_from_app by lens. intros [= <- <-]. by destruct (no_crlf_app _ _ Hn).
  - by intros [= <- <-].
Qed.

(** What one call of the parser does on any buffer: it waits for the end of
    the line, or behaves as its verb's parser on the bytes after it. *)
Lemma parse_frame_cases buf :
  slice_ok buf ->
  (find_crlf buf = None /\ parse_frame buf = Done ParseOutcome.NeedMore) \/
  exists hdr body p, buf = hdr ++ body /\ 2 <= len hdr /\ verb_outcome (len hdr) p /\
    forall body', parse_frame (hdr ++ body') = p body'.
Proof.
  intros Hok. unfold parse_frame at 1.
  destruct (find_crlf buf) as [i|] eqn:E; [right|by left].
  apply find_crlf_Some in E as (line & tail & -> & _ & Hn).
  assert (Hl : slice_ok line) by (unfold slice_ok in *; lens).
  destruct (split_verb_done line Hl) as (verb & rest & Ev & _).
  exists (line ++ CRLF), tail, (fun b => parse_verb ((line ++ CRLF) ++ b) verb rest (len (line ++ CRLF))).
  split_and!; [by rewrite <- app_assoc|lens|..].
  - by apply parse_verb_outcome, (split_verb_no_crlf line verb).
  - intros b. rewrite <- app_assoc.
    destruct (parse_frame_line line b Hn Hl) as (v & r & Ev' & ->).
    rewrite Ev in Ev'. injection Ev' as -> ->. by rewrite <- !app_assoc.
Qed.

(* ------------------------------------------------------------------ *)
(** * Correctness of the parser *)

(** An accepted frame is well formed and spans the first [consumed] bytes,
    which determine it. *)
Lemma parse_frame_inv buf f consumed :
  slice_ok buf -> parse_frame buf = Done (ParseOutcome.Frame f consumed) ->
  frame_wf f /\
  exists text tail, buf = text ++ tail /\ len text = consumed /\ 2 <= consumed /\
    forall tail', parse_frame (text ++ tail') = Done (ParseOutcome.Frame f consumed).
Proof.
  intros Hok Hp. destruct (parse_frame_cases buf Hok)
    as [[_ H]|(h & b & p & -> & Hh & Ho & H)]; [congruence|].
  rewrite H in Hp. destruct Ho as [e He|f' Hf He|mk n Hn Hf He]; rewrite He in Hp; simplify_run.
  - split; [done|]. exists h, b. split_and!; [done..|]. intros. by rewrite H, He.
  - destruct (payload_outcome_Frame _ _ _ _ _ _ Hn Hp) as (pl & tl & -> & <- & -> & -> & Hle).
    split; [apply Hf; unfold slice_ok in *; lens|].
    exists (h ++ pl ++ CRLF), tl. rewrite <- !app_assoc. split_and!; [done|lens|lens|].
    intros tail'. by rewrite <- !app_assoc, H, He, payload_outcome_complete.
Qed.

Lemma parse_frame_done buf : slice_ok buf -> exists o, parse_frame buf = Done o.
Proof.
  intros Hok.
  destruct (parse_frame_cases buf Hok) as [[_ H]|(h & b & p & -> & _ & [] & H)];
    rewrite ?H, ?Hp; eauto.
Qed.
Lemma parse_frame_final buf ext o :
  slice_ok buf -> parse_frame buf = Done o -> o <> ParseOutcome.NeedMore ->
  parse_frame (buf ++ ext) = Done o.
Proof.
  intros Hok Hp Ho.
  destruct (parse_frame_cases buf Hok)
    as [[_ H]|(h & b & p & -> & Hh & Hv & H)]; [congruence|].
  rewrite <- app_assoc, H. rewrite H in Hp.
  destruct Hv as [e He|f' _ He|mk n Hn _ He]; rewrite He in *; simplify_run; try done.
  by rewrite payload_outcome_stable.
Qed.

(** The parser never panics: on every byte slice, however malformed,
    no index, slice or addition of [parse_frame] is out of range, and the
    call returns an outcome. *)
Theorem parse_frame_total (buf : bytes) (Hok : slice_ok buf) :
  exists o, parse_frame buf = Done o.
Proof. by apply parse_frame_done. Qed.
Lemma parse_frame_total_witness :
  exists o, parse_frame (bs "PUB a 99999999999999999999999" ++ CRLF) = Done o.
Proof. apply parse_frame_total. vm_compute. discriminate. Defined.

(** A frame is self-delimiting: when the parser accepts a frame of
    [consumed] bytes, these are the first [consumed >= 2] bytes of the
    buffer, they hold the whole frame, and the same frame is parsed whatever
    follows them; the caller can drop exactly [consumed] bytes. *)
Theorem parse_frame_self_delimiting (buf : bytes) f consumed
    (Hok : slice_ok buf) (Hp : parse_frame buf = Done (ParseOutcome.Frame f consumed)) :
  exists text tail, buf = text ++ tail /\ len text = consumed /\ 2 <= consumed /\
    forall tail', parse_frame (text ++ tail') = Done (ParseOutcome.Frame f consumed).
Proof. by apply parse_frame_inv. Qed.
Lemma parse_frame_self_delimiting_witness :
  exists text tail, bs "PING" ++ CRLF ++ bs "PO" = text ++ tail /\ len text = 6 /\ 2 <= 6 /\
    forall tail', parse_frame (text ++ tail') = Done (ParseOutcome.Frame Frame.Ping 6).
Proof.
  apply (parse_frame_self_delimiting (bs "PING" ++ CRLF ++ bs "PO")); vm_compute; [discriminate|done].
Defined.

(** C17: outcomes other than [NeedMore] are final: appending bytes to the
    buffer changes neither an accepted frame nor an error, so acting on an
    outcome as soon as it appears is the same as waiting for more input. *)
Theorem parse_frame_stable (buf ext : bytes) o
    (Hok : slice_ok buf) (Hp : parse_frame buf = Done o) (Ho : o <> ParseOutcome.NeedMore) :
  parse_frame (buf ++ ext) = Done o.
Proof. by apply parse_frame_final. Qed.
Lemma parse_frame_stable_witness :
  parse_frame ((bs "WAT" ++ CRLF) ++ bs "PING" ++ CRLF) =
  Done (ParseOutcome.Err ParseError.UnknownVerb).
Proof. apply parse_frame_stable; vm_compute; done. Defined.

(** C36: every frame the parser accepts is well formed: its tokens are
    non-empty, free of blanks and of CRLF, JSON bodies are non-empty lines,
    payloads are slices and [max_msgs] is a [u64]. *)
Theorem parse_frame_wf (buf : bytes) f consumed
    (Hok : slice_ok buf) (Hp : parse_frame buf = Done (ParseOutcome.Frame f consumed)) :
  frame_wf f.
Proof. by apply (parse_frame_inv buf f consumed). Qed.
Lemma parse_frame_wf_witness :
  frame_wf (Frame.Unsub (bs "7") (Some 12)).
Proof. apply (parse_frame_wf (bs "UNSUB 7 12" ++ CRLF) _ 12); vm_compute; done. Defined.
