(* ===== verification/Emit.v ===== *)
(** The wire emitter, src/crates/aulon-proto/src/emit.rs.  Every [emit_*]
    function writes into a caller-provided [&mut [u8]]: it is a computation
    in the [emitM] monad, which threads the output buffer, stops at the
    first [Err] (the [?] operator) and may panic. *)
From Stdlib Require Import ZArith Lia Strings.Byte.
From stdpp Require Import base list strings.
From S2P Require Import Prelude Wire Parse.

(** The output buffer after the call and the [Result] it returns. *)
Definition emitM (A : Type) : Type := bytes -> run (bytes * result A EmitError.t).

#[global] Instance emit_ret : MRet emitM := fun A a out => Done (out, Ok a).
#[global] Instance emit_bind : MBind emitM := fun A B f m out =>
  match m out with
  | Done (out', Ok a) => f a out'
  | Done (out', Err e) => Done (out', Err e)
  | Panic => Panic
  end.

(** Maximum bytes a [u64] decimal expansion can occupy. *)
Definition U64_DIGITS_MAX : nat := 20.

(* ------------------------------------------------------------------ *)
(** * Byte-level helpers *)

Definition write_all (pos : Z) (src : bytes) : emitM Z := fun out =>
  match checked_add usize_max pos (len src) with
  | None => Done (out, Err (EmitError.BufferTooSmall usize_max (len out)))
  | Some end_ =>
      if len out <? end_
      then Done (out, Err (EmitError.BufferTooSmall end_ (len out)))
      else out' ← copy_from_slice out pos end_ src;
           Done (out', Ok end_)
  end.

Definition write_byte (pos : Z) (c : byte) : emitM Z := fun out =>
  if len out <=? pos
  then needed ← (pos +! 1)%usize;
       Done (out, Err (EmitError.BufferTooSmall needed (len out)))
  else out' ← index_set out pos c;
       pos' ← (pos +! 1)%usize;
       Done (out', Ok pos').

(** [b'0' + u8::try_from(value % 10).expect("0..=9 fits in u8")]. *)
Definition digit (value : Z) : run byte :=
  d ← expect (byte_of_val (value mod 10));
  expect (byte_of_val (48 + byte_val d)).

(** The [while value > 0] loop; [fuel] exceeds the number of slots of [tmp],
    so that an iteration past the fuel has already panicked on [tmp[len]]. *)
Fixpoint digits_loop (fuel : nat) (tmp : bytes) (ln value : Z) : run (bytes * Z) :=
  match fuel with
  | O => Panic
  | S fuel =>
      if 0 <? value then
        c ← digit value;
        tmp' ← index_set tmp ln c;
        ln' ← (ln +! 1)%usize;
        digits_loop fuel tmp' ln' (value / 10)
      else Done (tmp, ln)
  end.

(** The [for i in 0..len] loop, with [k] iterations left. *)
Fixpoint copy_digits (k : nat) (i : Z) (tmp : bytes) (ln pos : Z) (out : bytes) : run bytes :=
  match k with
  | O => Done out
  | S k =>
      p ← (pos +! i)%usize;
      last ← (ln -! 1)%usize;
      j ← (last -! i)%usize;
      d ← index tmp j;
      out' ← index_set out p d;
      copy_digits k (i + 1) tmp ln pos out'
  end.

Definition write_decimal_u64 (pos value : Z) : emitM Z := fun out =>
  let tmp := replicate U64_DIGITS_MAX x00 in
  '(tmp, ln) ←
    (if value =? 0
     then tmp' ← index_set tmp 0 x30; Done (tmp', 1)
     else digits_loop (S U64_DIGITS_MAX) tmp 0 value);
  match checked_add usize_max pos ln with
  | None => Done (out, Err (EmitError.BufferTooSmall usize_max (len out)))
  | Some end_ =>
      if len out <? end_
      then Done (out, Err (EmitError.BufferTooSmall end_ (len out)))
      else out' ← copy_digits (Z.to_nat ln) 0 tmp ln pos out;
           Done (out', Ok end_)
  end.

(* ------------------------------------------------------------------ *)
(** * Emitters *)

Definition emit_ping : emitM Z := write_all 0 (bs "PING" ++ CRLF).
Definition emit_pong : emitM Z := write_all 0 (bs "PONG" ++ CRLF).
Definition emit_ok : emitM Z := write_all 0 (bs "+OK" ++ CRLF).

Definition emit_err (message : bytes) : emitM Z :=
  n ← write_all 0 (bs "-ERR ");
  n ← write_all n message;
  n ← write_all n CRLF;
  mret n.

Definition emit_info (options : bytes) : emitM Z :=
  n ← write_all 0 (bs "INFO ");
  n ← write_all n options;
  n ← write_all n CRLF;
  mret n.

Definition emit_connect (options : bytes) : emitM Z :=
  n ← write_all 0 (bs "CONNECT ");
  n ← write_all n options;
  n ← write_all n CRLF;
  mret n.

(** [if let Some(f) = o { n = write_all(out, n, f)?; n = write_byte(out, n, SP)?; }]. *)
Definition write_opt_field (n : Z) (o : option bytes) : emitM Z :=
  match o with
  | Some f => n ← write_all n f; write_byte n SP
  | None => mret n
  end.

Definition emit_sub (subject : bytes) (queue_group : option bytes) (sid : bytes) : emitM Z :=
  n ← write_all 0 (bs "SUB ");
  n ← write_all n subject;
  n ← write_byte n SP;
  n ← write_opt_field n queue_group;
  n ← write_all n sid;
  n ← write_all n CRLF;
  mret n.

Definition emit_unsub (sid : bytes) (max_msgs : option Z) : emitM Z :=
  n ← write_all 0 (bs "UNSUB ");
  n ← write_all n sid;
  n ← match max_msgs with
      | Some m => n ← write_byte n SP; write_decimal_u64 n m
      | None => mret n
      end;
  n ← write_all n CRLF;
  mret n.

Definition emit_pub (subject : bytes) (reply_to : option bytes) (payload : bytes) : emitM Z :=
  n ← write_all 0 (bs "PUB ");
  n ← write_all n subject;
  n ← write_byte n SP;
  n ← write_opt_field n reply_to;
  n ← write_decimal_u64 n (len payload);
  n ← write_all n CRLF;
  n ← write_all n payload;
  n ← write_all n CRLF;
  mret n.

Definition emit_msg (subject sid : bytes) (reply_to : option bytes) (payload : bytes) : emitM Z :=
  n ← write_all 0 (bs "MSG ");
  n ← write_all n subject;
  n ← write_byte n SP;
  n ← write_all n sid;
  n ← write_byte n SP;
  n ← write_opt_field n reply_to;
  n ← write_decimal_u64 n (len payload);
  n ← write_all n CRLF;
  n ← write_all n payload;
  n ← write_all n CRLF;
  mret n.

Definition emit_frame (frame : Frame.t) : emitM Z :=
  match frame with
  | Frame.Ping => emit_ping
  | Frame.Pong => emit_pong
  | Frame.Ok => emit_ok
  | Frame.Err message => emit_err message
  | Frame.Info options => emit_info options
  | Frame.Connect options => emit_connect options
  | Frame.Sub subject queue_group sid => emit_sub subject queue_group sid
  | Frame.Unsub sid max_msgs => emit_unsub sid max_msgs
  | Frame.Pub subject reply_to payload => emit_pub subject reply_to payload
  | Frame.Msg subject sid reply_to payload => emit_msg subject sid reply_to payload
  end.

(* ------------------------------------------------------------------ *)
(** * Specification vocabulary *)

(** The decimal expansion of [n], least significant digit first, of at most
    [fuel] digits. *)
Fixpoint rev_digits (fuel : nat) (n : Z) : bytes :=
  match fuel with
  | O => []
  | S fuel =>
      if 0 <? n
      then match digit n with Done c => c :: rev_digits fuel (n / 10) | Panic => [] end
      else []
  end.
Definition decimal (n : Z) : bytes :=
  if n =? 0 then [x30] else rev (rev_digits U64_DIGITS_MAX n).

(** [impl fmt::Display for EmitError]. *)
Definition emit_error_fmt (e : EmitError.t) : bytes :=
  match e with
  | EmitError.BufferTooSmall needed have_ =>
      bs "buffer too small: needed " ++ decimal needed ++ bs ", have " ++ decimal have_
  end.

Definition opt_text (o : option bytes) : bytes :=
  match o with Some f => f ++ [SP] | None => [] end.

(** The text of a frame on the wire. *)
Definition encode (f : Frame.t) : bytes :=
  match f with
  | Frame.Ping => bs "PING" ++ CRLF
  | Frame.Pong => bs "PONG" ++ CRLF
  | Frame.Ok => bs "+OK" ++ CRLF
  | Frame.Err message => bs "-ERR " ++ message ++ CRLF
  | Frame.Info options => bs "INFO " ++ options ++ CRLF
  | Frame.Connect options => bs "CONNECT " ++ options ++ CRLF
  | Frame.Sub subject queue_group sid =>
      bs "SUB " ++ subject ++ [SP] ++ opt_text queue_group ++ sid ++ CRLF
  | Frame.Unsub sid max_msgs =>
      bs "UNSUB " ++ sid ++
      match max_msgs with Some m => [SP] ++ decimal m | None => [] end ++ CRLF
  | Frame.Pub subject reply_to payload =>
      bs "PUB " ++ subject ++ [SP] ++ opt_text reply_to ++ decimal (len payload) ++
      CRLF ++ payload ++ CRLF
  | Frame.Msg subject sid reply_to payload =>
      bs "MSG " ++ subject ++ [SP] ++ sid ++ [SP] ++ opt_text reply_to ++
      decimal (len payload) ++ CRLF ++ payload ++ CRLF
  end.

(** The numbers of a frame fit their Rust types. *)
Definition frame_nums_ok (f : Frame.t) : Prop :=
  match f with
  | Frame.Unsub _ (Some m) => 0 <= m <= u64_max
  | Frame.Pub _ _ payload | Frame.Msg _ _ _ payload => slice_ok payload
  | _ => True
  end.

(** [out] with [w] written over it from position [pos]. *)
Definition patch (pos : Z) (w out : bytes) : bytes :=
  take (Z.to_nat pos) out ++ w ++ drop (Z.to_nat (pos + len w)) out.

(** [m], started at position [pos], writes [w] there or reports that the
    buffer is too small; it never touches the bytes before [pos]. *)
Definition appends (m : Z -> emitM Z) (w : bytes) : Prop :=
  forall out pos, slice_ok out -> 0 <= pos <= len out ->
  (pos + len w <= len out /\
   m pos out = Done (patch pos w out, Ok (pos + len w))) \/
  (len out < pos + len w /\
   exists out' needed,
     m pos out = Done (out', Err (EmitError.BufferTooSmall needed (len out))) /\
     len out < needed <= pos + len w /\ len out' = len out /\
     take (Z.to_nat pos) out' = take (Z.to_nat pos) out).

Example emit_unsub_example :
  emit_frame (Frame.Unsub (bs "7") (Some 120)) (replicate 14 x00) =
  Done (bs "UNSUB 7 120" ++ CRLF ++ [x00], Ok 13).
Proof. vm_compute. reflexivity. Qed.

(* ------------------------------------------------------------------ *)
(** * Writing pieces *)

Lemma len_patch pos w out :
  0 <= pos -> pos + len w <= len out -> len (patch pos w out) = len out.
Proof. intros. unfold patch. lens. Qed.

(** [patch] on a buffer cut at the written region. *)
Lemma patch_app a b c w pos :
  pos = len a -> len b = len w -> patch pos w (a ++ b ++ c) = a ++ w ++ c.
Proof.
  intros -> Hw. unfold patch. rewrite <- Hw, to_nat_len, take_app_length.
  by rewrite <- len_app, to_nat_len, (app_assoc a b c), drop_app_length.
Qed.

(** Cuts a buffer at a region of [n] bytes from [pos]. *)
Lemma cut_buffer {A} (out : list A) pos n :
  0 <= pos -> 0 <= n -> pos + n <= len out ->
  exists a b c, out = a ++ b ++ c /\ len a = pos /\ len b = n.
Proof.
  intros. exists (take (Z.to_nat pos) out), (take (Z.to_nat n) (drop (Z.to_nat pos) out)),
    (drop (Z.to_nat n) (drop (Z.to_nat pos) out)).
  rewrite !take_drop. split_and!; lens || done.
Qed.

Lemma patch_patch pos w1 w2 out :
  0 <= pos -> pos + len w1 + len w2 <= len out ->
  patch (pos + len w1) w2 (patch pos w1 out) = patch pos (w1 ++ w2) out.
Proof.
  intros Hp Hl. pose proof (len_nonneg w1). pose proof (len_nonneg w2).
  destruct (cut_buffer out pos (len w1 + len w2)) as (a & b & c & -> & Ha & Hb); [lia..|].
  destruct (cut_buffer b (len w1) (len w2)) as (b1 & b2 & b3 & -> & Hb1 & Hb2); [lia..|].
  assert (b3 = []) as -> by (apply len_zero; lens). rewrite app_nil_r in *.
  rewrite (patch_app a (b1 ++ b2) c (w1 ++ w2)) by lens.
  rewrite <- (app_assoc b1), (patch_app a b1) by done.
  rewrite (app_assoc a w1), (patch_app (a ++ w1) b2) by lens.
  by rewrite <- !app_assoc.
Qed.

Lemma take_patch pos w out :
  0 <= pos -> pos + len w <= len out ->
  take (Z.to_nat pos) (patch pos w out) = take (Z.to_nat pos) out.
Proof.
  intros Hp Hl. pose proof (len_nonneg w).
  destruct (cut_buffer out pos (len w)) as (a & b & c & -> & <- & Hb); [lia..|].
  rewrite patch_app by done. by rewrite !to_nat_len, !take_app_length.
Qed.

Lemma patch_nil pos out : patch pos [] out = out.
Proof. unfold patch. rewrite len_nil, Z.add_0_r. apply take_drop. Qed.

Lemma appends_ret : appends (fun pos => mret pos) [].
Proof.
  intros out pos Hok Hpos. left. rewrite len_nil, Z.add_0_r. split; [lia|].
  by rewrite patch_nil.
Qed.

Lemma appends_bind m1 m2 w1 w2 :
  appends m1 w1 -> appends m2 w2 -> appends (fun pos => n ← m1 pos; m2 n) (w1 ++ w2).
Proof.
  intros H1 H2 out pos Hok Hpos. rewrite len_app, Z.add_assoc.
  pose proof (len_nonneg w1). pose proof (len_nonneg w2).
  unfold mbind, emit_bind.
  destruct (H1 out pos Hok Hpos) as [[Hl ->]|(Hl & out' & nd & -> & Hnd & Ho)].
  2: { right. split; [lia|]. exists out', nd. destruct Ho. by split_and!; [|lia..| |]. }
  pose proof (len_patch pos w1 out) as Hlp.
  destruct (H2 (patch pos w1 out) (pos + len w1)) as [[Hl2 ->]|(Hl2 & out' & nd & -> & Hnd & Ho)].
  - unfold slice_ok in *. lia.
  - lia.
  - left. split; [lia|]. rewrite patch_patch by lia. done.
  - right. split; [lia|]. exists out', nd. rewrite Hlp in * by lia.
    destruct Ho as [Ho1 Ho2]. split_and!; [done|lia..|].
    apply (f_equal (take (Z.to_nat pos))) in Ho2. rewrite !take_take in Ho2.
    rewrite Nat.min_l in Ho2 by lia. by rewrite Ho2, take_patch by lia.
Qed.

Lemma appends_proper m w w' : w = w' -> appends m w -> appends m w'.
Proof. by intros ->. Qed.

Lemma write_all_appends src : appends (fun pos => write_all pos src) src.
Proof.
  intros out pos Hok Hpos. unfold slice_ok, isize_max in Hok.
  pose proof (len_nonneg src). unfold write_all, checked_add.
  destruct (Z.leb_spec (pos + len src) usize_max); unfold usize_max in *; cycle 1.
  { right. split; [lia|]. eexists _, _. split; [done|]. split_and!; [lia..|done|done]. }
  zcase.
  { right. split; [lia|]. eexists _, _. split; [done|]. split_and!; [lia..|done|done]. }
  left. split; [lia|].
  destruct (cut_buffer out pos (len src)) as (a & b & c & -> & <- & Hb); [lia..|].
  rewrite copy_from_slice_app, patch_app by lens. done.
Qed.

Lemma write_byte_appends c : appends (fun pos => write_byte pos c) [c].
Proof.
  intros out pos Hok Hpos. unfold slice_ok, isize_max in Hok.
  unfold write_byte. change (len [c]) with 1. zcase.
  { right. split; [lia|]. rewrite uadd_ok by (unfold usize_max; lia).
    eexists _, _. split; [done|]. split_and!; [lia..|done|done]. }
  left. split; [lia|]. unfold index_set. zb. rewrite bind_ret.
  rewrite uadd_ok by (unfold usize_max; lia). rewrite bind_ret. do 2 f_equal.
  unfold patch. change (len [c]) with 1. rewrite insert_take_drop by (unfold len in *; lia).
  by replace (Z.to_nat (pos + 1)) with (S (Z.to_nat pos)) by lia.
Qed.

(* ------------------------------------------------------------------ *)
(** * Decimal numbers *)

Lemma digit_done v : exists c, digit v = Done c /\ byte_val c = 48 + v mod 10.
Proof.
  pose proof (Z.mod_pos_bound v 10 ltac:(lia)). unfold digit.
  destruct (byte_of_val_Some (v mod 10)) as (d & -> & Hd); [lia|]. cbn.
  destruct (byte_of_val_Some (48 + byte_val d)) as (c & -> & Hc); [lia|].
  exists c. split; [done|lia].
Qed.

Lemma index_set_patch out pos c :
  0 <= pos < len out -> index_set out pos c = Done (patch pos [c] out).
Proof.
  intros H. unfold index_set. zb. f_equal. unfold patch. change (len [c]) with 1.
  rewrite insert_take_drop by (unfold len in *; lia).
  by replace (Z.to_nat (pos + 1)) with (S (Z.to_nat pos)) by lia.
Qed.

Lemma rev_digits_le fuel v : len (rev_digits fuel v) <= Z.of_nat fuel.
Proof.
  revert v. induction fuel as [|fuel IH]; intros v; cbn [rev_digits]; [done|].
  zcase; [|lens]. destruct (digit_done v) as (c & -> & _). specialize (IH (v / 10)). lens.
Qed.

Lemma pow10_div v k : 0 <= v -> v < 10 ^ Z.of_nat (S k) -> 0 <= v / 10 < 10 ^ Z.of_nat k.
Proof.
  intros Hv Hk. replace (Z.of_nat (S k)) with (Z.succ (Z.of_nat k)) in Hk by lia.
  rewrite Z.pow_succ_r in Hk by lia.
  split; [apply Z.div_pos; lia|]. apply Z.div_lt_upper_bound; lia.
Qed.

Lemma digits_loop_done k tmp ln v :
  0 <= v < 10 ^ Z.of_nat k -> 0 <= ln -> ln + Z.of_nat k <= len tmp -> len tmp <= isize_max ->
  digits_loop (S k) tmp ln v =
  Done (patch ln (rev_digits k v) tmp, ln + len (rev_digits k v)).
Proof.
  revert tmp ln v. induction k as [|k IH]; intros tmp ln v Hv Hln Hk Hok.
  { assert (v = 0) as -> by (cbn in Hv; lia). cbn [rev_digits].
    rewrite patch_nil. cbn. by rewrite Z.add_0_r. }
  change (digits_loop (S (S k)) tmp ln v) with
    (if 0 <? v then
       c ← digit v; tmp' ← index_set tmp ln c; ln' ← (ln +! 1)%usize;
       digits_loop (S k) tmp' ln' (v / 10)
     else Done (tmp, ln)).
  cbn [rev_digits]. zcase; cycle 1.
  { by rewrite patch_nil, len_nil, Z.add_0_r. }
  destruct (digit_done v) as (c & -> & _). rewrite bind_ret, index_set_patch by lia.
  unfold isize_max in Hok. rewrite bind_ret, uadd_ok by (unfold usize_max; lia). rewrite bind_ret.
  pose proof (rev_digits_le k (v / 10)). pose proof (len_nonneg (rev_digits k (v / 10))).
  pose proof (len_patch ln [c] tmp) as Hl. change (len [c]) with 1 in Hl.
  pose proof (pow10_div v k ltac:(lia) ltac:(lia)).
  rewrite IH by (unfold isize_max; lia). do 2 f_equal; [|lens].
  rewrite (patch_patch ln [c]) by (change (len [c]) with 1; lia). done.
Qed.

Lemma copy_digits_done k i tmp ln pos out ds junk :
  tmp = ds ++ junk -> len ds = ln -> i + Z.of_nat k = ln -> 0 <= i ->
  0 <= pos -> pos + ln <= len out -> slice_ok out ->
  copy_digits k i tmp ln pos out = Done (patch (pos + i) (rev (take k ds)) out).
Proof.
  intros -> Hds. revert i out. induction k as [|k IH]; intros i out Hi Hi0 Hp Hl Hok.
  { cbn [copy_digits take rev]. by rewrite patch_nil. }
  unfold slice_ok, isize_max in Hok. cbn [copy_digits].
  rewrite uadd_ok by (unfold usize_max; lia). rewrite bind_ret.
  rewrite !usub_ok, !bind_ret, usub_ok, bind_ret by lia.
  destruct (lookup_lt_is_Some_2 ds k) as [d Hd]; [unfold len in Hds; lia|].
  assert (index (ds ++ junk) (ln - 1 - i) = Done d) as ->.
  { unfold index. zb. replace (Z.to_nat (ln - 1 - i)) with k by lia.
    by rewrite lookup_app_l, Hd by (unfold len in Hds; lia). }
  rewrite bind_ret, index_set_patch, bind_ret by lia.
  pose proof (len_patch (pos + i) [d] out) as Hlp. change (len [d]) with 1 in Hlp.
  rewrite IH by (unfold slice_ok, isize_max; lia).
  rewrite (take_S_r ds k d), rev_app_distr by done. cbn [rev app].
  replace (pos + (i + 1)) with (pos + i + len [d]) by (change (len [d]) with 1; lia).
  rewrite patch_patch; [done|lia|].
  change (len [d]) with 1. unfold len at 1. rewrite length_rev, length_take. lia.
Qed.

Lemma decimal_len n : len (decimal n) <= 20.
Proof.
  unfold decimal. zcase; [done|]. unfold len. rewrite length_rev.
  pose proof (rev_digits_le U64_DIGITS_MAX n) as H. unfold len, U64_DIGITS_MAX in *. lia.
Qed.

(** The buffer [tmp] after the digits of [value] are stored, reversed. *)
Lemma decimal_tmp value :
  0 <= value <= u64_max ->
  exists junk, 
  (if value =? 0
   then tmp' ← index_set (replicate U64_DIGITS_MAX x00) 0 x30; Done (tmp', 1)
   else digits_loop (S U64_DIGITS_MAX) (replicate U64_DIGITS_MAX x00) 0 value)
  = Done (rev (decimal value) ++ junk, len (decimal value)).
Proof.
  intros Hv. unfold decimal. zcase.
  { exists (replicate 19 x00). done. }
  set (ds := rev_digits U64_DIGITS_MAX value).
  pose proof (rev_digits_le U64_DIGITS_MAX value) as Hle. fold ds in Hle.
  exists (drop (Z.to_nat (0 + len ds)) (replicate U64_DIGITS_MAX x00)).
  assert (10 ^ Z.of_nat U64_DIGITS_MAX = 100000000000000000000) as H10 by reflexivity.
  rewrite digits_loop_done; [|unfold u64_max in *; lia|lia|done|done].
  fold ds. unfold patch. rewrite rev_involutive. cbn [Z.to_nat take app].
  do 2 f_equal. unfold len. rewrite length_rev. lia.
Qed.

Lemma write_decimal_appends value :
  0 <= value <= u64_max -> appends (fun pos => write_decimal_u64 pos value) (decimal value).
Proof.
  intros Hv out pos Hok Hpos. destruct (decimal_tmp value Hv) as [junk Hj].
  unfold write_decimal_u64. rewrite Hj, bind_ret. cbv beta iota.
  pose proof (decimal_len value). pose proof (len_nonneg (decimal value)).
  assert (len out <= isize_max) by done. unfold isize_max in *.
  rewrite checked_add_ok by (unfold usize_max; lia). zcase.
  { right. split; [lia|]. eexists _, _. split; [done|]. split_and!; [lia..|done|done]. }
  left. split; [lia|].
  rewrite (copy_digits_done _ 0 _ _ pos out (rev (decimal value)) junk) by (done || lens).
  rewrite bind_ret, Z.add_0_r, to_nat_len, take_ge by (rewrite length_rev; lia).
  by rewrite rev_involutive.
Qed.

(* ------------------------------------------------------------------ *)
(** * Whole frames *)

Lemma write_opt_field_appends o : appends (fun pos => write_opt_field pos o) (opt_text o).
Proof.
  destruct o as [f|]; cbn [write_opt_field opt_text]; [|apply appends_ret].
  apply appends_bind; [apply write_all_appends|apply write_byte_appends].
Qed.

Lemma appends_last m w : appends m w -> appends (fun pos => n ← m pos; mret n) w.
Proof.
  intros H. rewrite <- (app_nil_r w). apply appends_bind; [done|apply appends_ret].
Qed.

Lemma write_max_msgs_appends max_msgs :
  match max_msgs with Some m => 0 <= m <= u64_max | None => True end ->
  appends (fun pos => match max_msgs with
                      | Some m => n ← write_byte pos SP; write_decimal_u64 n m
                      | None => mret pos
                      end)
    (match max_msgs with Some m => [SP] ++ decimal m | None => [] end).
Proof.
  destruct max_msgs as [m|]; intros Hm; [|apply appends_ret].
  apply appends_bind; [apply write_byte_appends|by apply write_decimal_appends].
Qed.

Create HintDb emit.
#[export] Hint Resolve write_all_appends write_byte_appends write_decimal_appends
  write_opt_field_appends write_max_msgs_appends : emit.

(** [emit_frame f] is the initial position 0 given to a computation that
    writes the pieces of [encode f] in order. *)
Lemma emit_frame_appends f :
  frame_nums_ok f -> exists m, appends m (encode f) /\ emit_frame f = m 0.
Proof.
  intros Hf.
  assert (Hp : forall p : bytes, slice_ok p -> 0 <= len p <= u64_max).
  { unfold slice_ok, isize_max, u64_max. intros. lens. }
  destruct f as [o|s r p|s q i|i m|s i r p| | |o| |m]; cbn [encode emit_frame].
  all: unfold emit_connect, emit_pub, emit_sub, emit_unsub, emit_msg, emit_ping, emit_pong,
         emit_info, emit_ok, emit_err.
  all: try (eexists; split; [apply write_all_appends|reflexivity]).
  all: match goal with
       | |- context [mbind ?k (write_all 0 ?v)] =>
           exists (fun pos => mbind k (write_all pos v)); split; [|reflexivity]
       end.
  all: repeat first [apply appends_last | apply appends_bind]; auto with emit.
Qed.

Lemma frame_wf_nums_ok f : frame_wf f -> frame_nums_ok f.
Proof. destruct f as [o|s r p|s q i|i [m|]|s i r p| | |o| |m]; cbn; tauto. Qed.

Lemma emit_frame_done out f :
  slice_ok out -> frame_nums_ok f ->
  (len (encode f) <= len out /\
   emit_frame f out =
     Done (encode f ++ drop (Z.to_nat (len (encode f))) out, Ok (len (encode f)))) \/
  (len out < len (encode f) /\ exists out' needed,
     emit_frame f out = Done (out', Err (EmitError.BufferTooSmall needed (len out))) /\
     len out < needed <= len (encode f) /\ len out' = len out).
Proof.
  intros Hok Hf. destruct (emit_frame_appends f Hf) as (m & Hm & ->).
  pose proof (len_nonneg out).
  destruct (Hm out 0 Hok) as [[Hl ->]|(Hl & out' & nd & -> & Hnd & Ho & _)]; [lia|..].
  - left. done.
  - right. split; [done|]. by exists out', nd.
Qed.

(** [emit_frame] refines the wire text [encode]: it never panics; when
    the encoded frame fits the buffer it writes exactly [encode f] at the
    front, leaves the rest alone and returns its length; otherwise it
    returns [BufferTooSmall] with the buffer's length and a [needed] that
    exceeds it but never the true size. *)
Theorem emit_frame_spec (out : bytes) f
    (Hok : slice_ok out) (Hf : frame_nums_ok f) :
  if len (encode f) <=? len out
  then emit_frame f out =
       Done (encode f ++ drop (Z.to_nat (len (encode f))) out, Ok (len (encode f)))
  else exists out' needed,
       emit_frame f out = Done (out', Err (EmitError.BufferTooSmall needed (len out))) /\
       len out < needed <= len (encode f) /\ len out' = len out.
Proof.
  destruct (emit_frame_done out f Hok Hf) as [[Hl H]|(Hl & out' & nd & H & Hnd & Ho)]; zb.
  - exact H.
  - by exists out', nd.
Qed.
Lemma emit_frame_spec_witness :
  exists out' needed,
    emit_frame (Frame.Err (bs "slow consumer")) (replicate 7 x00) =
      Done (out', Err (EmitError.BufferTooSmall needed 7)) /\
    7 < needed <= 20 /\ len out' = 7.
Proof.
  exact (emit_frame_spec (replicate 7 x00) (Frame.Err (bs "slow consumer"))
           ltac:(vm_compute; discriminate) I).
Defined.

(** The [needed] of [BufferTooSmall] is the end of the first piece that
    does not fit, not the size of the frame: a caller that grows its buffer
    to [needed] may be refused again. *)
Theorem emit_needed_is_a_lower_bound :
  exists f out out' needed, frame_wf f /\ frame_nums_ok f /\
    emit_frame f out = Done (out', Err (EmitError.BufferTooSmall needed (len out))) /\
    needed < len (encode f).
Proof.
  exists (Frame.Err (bs "slow consumer")), (replicate 2 x00), (replicate 2 x00), 5.
  by vm_compute.
Qed.
