(* ===== verification/Codec.v ===== *)
(** The codec's contract: the emitter (Emit) and the parser (Parse) are
    inverse to each other on the well-formed frames. *)
From Stdlib Require Import ZArith Lia Strings.Byte.
From stdpp Require Import base list strings.
From S2P Require Import Prelude Wire Parse Emit.

(* ------------------------------------------------------------------ *)
(** * Lines and tokens of encoded frames *)

Lemma no_crlf_cons_ok c l : c <> CR -> no_crlf l -> no_crlf (c :: l).
Proof. intros Hc Hl. rewrite no_crlf_cons. by split; [|intros [-> _]]. Qed.

(** A byte that is neither CR nor LF separates lines safely. *)
Lemma no_crlf_sep l c k :
  no_crlf l -> no_crlf k -> c <> CR -> c <> LF -> no_crlf (l ++ c :: k).
Proof.
  intros Hl Hk Hcr Hlf. induction l as [|a l IH]; cbn [app].
  - by apply no_crlf_cons_ok.
  - rewrite no_crlf_cons in *. destruct Hl as [Hl Ha]. split; [by apply IH|].
    intros [-> Hh]. apply Ha. split; [done|].
    destruct l; cbn in *; [by simplify_eq|done].
Qed.

Lemma no_crlf_nil : no_crlf [].
Proof. done. Qed.

Lemma digit_not_special c :
  is_ascii_digit c = true -> is_blank c = false /\ c <> CR /\ c <> LF.
Proof.
  intros H%is_ascii_digit_val. unfold is_blank.
  split_and!; [|intros ->; cbn in H; lia..].
  apply orb_false_iff. rewrite !bool_decide_eq_false. split; intros ->; cbn in H; lia.
Qed.

Lemma digits_field l :
  l <> [] -> Forall (fun c => is_ascii_digit c = true) l -> field l.
Proof.
  intros Hn Hl. split; [split; [done|]|].
  - eapply Forall_impl; [done|]. intros c Hc. by apply digit_not_special.
  - clear Hn. induction Hl as [|c l Hc _ IH]; [done|].
    apply no_crlf_cons_ok; [|done]. by apply digit_not_special in Hc as (_ & ? & _).
Qed.

Lemma rev_digits_digits fuel n : Forall (fun c => is_ascii_digit c = true) (rev_digits fuel n).
Proof.
  revert n. induction fuel as [|fuel IH]; intros n; cbn [rev_digits]; [done|].
  zcase; [|done]. destruct (digit_done n) as (c & -> & Hc).
  constructor; [|done]. apply is_ascii_digit_val.
  pose proof (Z.mod_pos_bound n 10 ltac:(lia)). lia.
Qed.

Lemma decimal_field n : 0 <= n -> field (decimal n).
Proof.
  intros Hn. unfold decimal. zcase; [by apply digits_field; [|repeat constructor]|].
  apply digits_field.
  - unfold U64_DIGITS_MAX. cbn [rev_digits]. zb.
    destruct (digit_done n) as (c & -> & _). cbn. by destruct (rev _).
  - apply Forall_rev, rev_digits_digits.
Qed.

(* ------------------------------------------------------------------ *)
(** * Decimal numbers are read back *)

Lemma parse_usize_loop_snoc n l c :
  parse_usize_loop n (l ++ [c]) =
  (m ← parse_usize_loop n l;
   if negb (is_ascii_digit c) then None
   else m10 ← checked_mul usize_max m 10; checked_add usize_max m10 (byte_val c - 48)).
Proof.
  revert n. induction l as [|a l IH]; intros n; cbn.
  - destruct (is_ascii_digit c); cbn; [|done].
    destruct (checked_mul usize_max n 10); cbn; [|done].
    by destruct (checked_add usize_max _ _).
  - destruct (is_ascii_digit a); cbn; [|done].
    destruct (checked_mul usize_max n 10); cbn; [|done].
    destruct (checked_add usize_max _ _); cbn; [|done]. apply IH.
Qed.

Lemma parse_rev_digits fuel n :
  0 <= n < 10 ^ Z.of_nat fuel -> n <= usize_max ->
  parse_usize_loop 0 (rev (rev_digits fuel n)) = Some n.
Proof.
  revert n. induction fuel as [|fuel IH]; intros n Hn Hm.
  { cbn in *. f_equal. lia. }
  cbn [rev_digits]. zcase; [|cbn; f_equal; lia].
  pose proof (pow10_div n fuel ltac:(lia) ltac:(lia)).
  pose proof (Z.mod_pos_bound n 10 ltac:(lia)). pose proof (Z.div_mod n 10 ltac:(lia)).
  destruct (digit_done n) as (c & -> & Hc). cbn [rev].
  rewrite parse_usize_loop_snoc, IH by lia. cbn.
  rewrite (proj2 (is_ascii_digit_val c)) by lia. cbn.
  rewrite checked_mul_ok by lia. cbn. rewrite checked_add_ok by lia. f_equal. lia.
Qed.

(** The decimal expansion [write_decimal_u64] produces is read back as the
    same number by [parse_usize] and [parse_u64]. *)
Lemma parse_usize_decimal n : 0 <= n <= u64_max -> parse_usize (decimal n) = Some n.
Proof.
  intros Hn. destruct (decimal_field n) as [[Hne _] _]; [lia|].
  unfold parse_usize. destruct (decimal n) as [|c l] eqn:E; [done|]. rewrite <- E. clear Hne E.
  unfold decimal. destruct (Z.eqb_spec n 0) as [->|]; [done|].
  assert (10 ^ Z.of_nat U64_DIGITS_MAX = 100000000000000000000) by reflexivity.
  apply parse_rev_digits; unfold u64_max, usize_max in *; lia.
Qed.
Lemma parse_u64_decimal n : 0 <= n <= u64_max -> parse_u64 (decimal n) = Some n.
Proof. exact (parse_usize_decimal n). Qed.

(* ------------------------------------------------------------------ *)
(** * The token iterator on encoded lines *)

Lemma next_last tok :
  token tok -> TokenIter.next (TokenIter.mk tok) = Done (Some tok, TokenIter.mk []).
Proof.
  intros Ht. unfold TokenIter.next. cbn [TokenIter.rest].
  pose proof (trim_token tok [] Ht) as E. rewrite app_nil_r in E. rewrite E.
  destruct Ht as [Hn Hb]. apply position_None in Hb. rewrite Hb. cbn.
  destruct tok as [|c tok]; [done|]. by rewrite slice_to_full, slice_from_full.
Qed.

Lemma next_sep tok l :
  token tok ->
  TokenIter.next (TokenIter.mk (tok ++ SP :: l)) = Done (Some tok, TokenIter.mk (SP :: l)).
Proof.
  intros Ht. unfold TokenIter.next. cbn [TokenIter.rest].
  rewrite trim_token by done. destruct Ht as [Hn Hb].
  rewrite position_app by done. cbn [default from_option].
  destruct (tok ++ SP :: l) as [|c k] eqn:E; [by destruct tok|]. rewrite <- E.
  by rewrite slice_to_app, slice_from_app.
Qed.

Lemma next_skip l : TokenIter.next (TokenIter.mk (SP :: l)) = TokenIter.next (TokenIter.mk l).
Proof. reflexivity. Qed.
Lemma next_nil : TokenIter.next (TokenIter.mk []) = Done (None, TokenIter.mk []).
Proof. reflexivity. Qed.
Lemma next_new l : TokenIter.new l = TokenIter.mk l.
Proof. reflexivity. Qed.

Create Rewrite HintDb token.
#[export] Hint Rewrite next_new next_skip next_nil @bind_ret : token.

(** Evaluates the calls to the iterator on fields known to be tokens. *)
Ltac run_tokens :=
  repeat first
    [ progress autorewrite with token
    | rewrite next_sep by assumption
    | rewrite next_last by assumption ]; cbv beta iota zeta.

Lemma split_verb_app verb rest :
  blank_free verb -> slice_ok (verb ++ SP :: rest) ->
  split_verb (verb ++ SP :: rest) = Done (verb, rest).
Proof.
  unfold slice_ok, isize_max. intros Hv Hl. unfold split_verb.
  rewrite position_app by done. rewrite slice_to_app by done. rewrite bind_ret.
  rewrite uadd_ok by (unfold usize_max; lens). rewrite bind_ret.
  replace (verb ++ SP :: rest) with ((verb ++ [SP]) ++ rest) by by rewrite <- app_assoc.
  by rewrite slice_from_app by lens.
Qed.

(** [parse_frame] on a line made of a verb and its arguments. *)
Lemma parse_frame_verb verb rest tail :
  blank_free verb -> no_crlf verb -> no_crlf rest ->
  let hdr := verb ++ SP :: rest ++ CRLF in
  slice_ok hdr -> parse_frame (hdr ++ tail) = parse_verb (hdr ++ tail) verb rest (len hdr).
Proof.
  intros Hv Hnv Hnr hdr Hok.
  assert (Hh : hdr = (verb ++ SP :: rest) ++ CRLF) by by (unfold hdr; rewrite <- app_assoc).
  assert (Hl : slice_ok (verb ++ SP :: rest)) by (unfold slice_ok in *; rewrite Hh in Hok; lens).
  destruct (parse_frame_line (verb ++ SP :: rest) tail) as (v & r & Es & Hp);
    [by apply no_crlf_sep|done|].
  rewrite split_verb_app in Es by done. injection Es as <- <-.
  rewrite Hh. by rewrite <- (app_assoc _ CRLF) at 1.
Qed.

(** A frame that is one line, and a frame with a payload. *)
Lemma parse_line_frame verb rest f tail :
  blank_free verb -> no_crlf verb -> no_crlf rest ->
  (forall buf ht, parse_verb buf verb rest ht = Done (ParseOutcome.Frame f ht)) ->
  let text := verb ++ SP :: rest ++ CRLF in
  slice_ok text -> parse_frame (text ++ tail) = Done (ParseOutcome.Frame f (len text)).
Proof. intros ??? Hp text Hok. unfold text in *. by rewrite parse_frame_verb, Hp. Qed.

Lemma parse_payload_frame verb rest (mk : bytes -> Frame.t) payload tail :
  blank_free verb -> no_crlf verb -> no_crlf rest -> slice_ok payload ->
  (forall buf ht, parse_verb buf verb rest ht =
     match parse_usize (decimal (len payload)) with
     | None => mret (ParseOutcome.Err ParseError.PayloadLengthInvalid)
     | Some n =>
         consumed ← consume_payload buf ht n;
         match consumed with
         | None => mret (need_more_or_missing_crlf buf ht n)
         | Some (payload, total) => mret (ParseOutcome.Frame (mk payload) total)
         end
     end) ->
  let text := verb ++ SP :: rest ++ CRLF ++ payload ++ CRLF in
  slice_ok text -> parse_frame (text ++ tail) = Done (ParseOutcome.Frame (mk payload) (len text)).
Proof.
  intros Hv Hnv Hnr Hpl Hp text Hok.
  set (hdr := verb ++ SP :: rest ++ CRLF).
  assert (Ht : text = hdr ++ payload ++ CRLF).
  { unfold text, hdr. rewrite <- (app_assoc verb). cbn [app]. by rewrite <- !app_assoc. }
  rewrite Ht in *. clear Ht text. assert (Hh : slice_ok hdr) by (unfold slice_ok in *; lens).
  rewrite <- !app_assoc. unfold hdr in *. rewrite parse_frame_verb, Hp by done. fold hdr in Hh |- *.
  unfold slice_ok, isize_max in *. pose proof (len_nonneg payload).
  rewrite parse_usize_decimal by (unfold u64_max; lia).
  rewrite payload_tail_eq by done.
  rewrite payload_outcome_complete by (unfold usize_max; lens). do 2 f_equal. lens.
Qed.

Lemma opt_text_app o l : opt_text o ++ l = match o with Some f => f ++ SP :: l | None => l end.
Proof. destruct o; cbn; [by rewrite <- app_assoc|done]. Qed.

Lemma no_crlf_opt_text o l : opt_field o -> no_crlf l -> no_crlf (opt_text o ++ l).
Proof.
  rewrite opt_text_app. destruct o as [f|]; cbn; [|done].
  intros [_ Hf] Hl. by apply no_crlf_sep.
Qed.

(* ------------------------------------------------------------------ *)
(** * Encoded frames are parsed back *)

Lemma parse_encode_line f verb rest tail :
  encode f = verb ++ SP :: rest ++ CRLF ->
  blank_free verb -> no_crlf verb -> no_crlf rest ->
  (forall buf ht, parse_verb buf verb rest ht = Done (ParseOutcome.Frame f ht)) ->
  slice_ok (encode f) ->
  parse_frame (encode f ++ tail) = Done (ParseOutcome.Frame f (len (encode f))).
Proof. intros ->. apply parse_line_frame. Qed.

(** Right-nests concatenations before comparing two texts. *)
Ltac app_norm := repeat first [progress rewrite <- !app_assoc | progress cbn [app]].

Section Encoded.
Variable tail : bytes.
Let parses (f : Frame.t) : Prop :=
  parse_frame (encode f ++ tail) = Done (ParseOutcome.Frame f (len (encode f))).

Lemma parse_encode_sub subject queue_group sid :
  let f := Frame.Sub subject queue_group sid in frame_wf f -> slice_ok (encode f) -> parses f.
Proof.
  intros f (Hs & Hq & Hi) Hok.
  apply (parse_encode_line f (bs "SUB") (subject ++ SP :: opt_text queue_group ++ sid)).
  - unfold f. cbn [encode]. app_norm. reflexivity.
  - repeat constructor.
  - done.
  - apply no_crlf_sep; [apply Hs|by apply no_crlf_opt_text; [|apply Hi]|done|done].
  - intros buf ht. change (parse_sub (subject ++ SP :: opt_text queue_group ++ sid) ht
      = Done (ParseOutcome.Frame f ht)).
    unfold parse_sub. rewrite opt_text_app. destruct Hs as [Hs _], Hi as [Hi _].
    destruct queue_group as [q|]; [destruct Hq as [Hq _]|]; run_tokens; reflexivity.
  - done.
Qed.

Lemma parse_encode_unsub sid max_msgs :
  let f := Frame.Unsub sid max_msgs in frame_wf f -> slice_ok (encode f) -> parses f.
Proof.
  intros f (Hi & Hm) Hok. set (args := sid ++ match max_msgs with Some m => SP :: decimal m | None => [] end).
  apply (parse_encode_line f (bs "UNSUB") args).
  - unfold f, args. cbn [encode]. app_norm. by destruct max_msgs.
  - repeat constructor.
  - done.
  - unfold args. destruct max_msgs as [m|]; [|rewrite app_nil_r; apply Hi].
    apply no_crlf_sep; [apply Hi|apply decimal_field; lia|done|done].
  - intros buf ht. change (parse_unsub args ht = Done (ParseOutcome.Frame f ht)).
    unfold parse_unsub, args. destruct Hi as [Hi _]. destruct max_msgs as [m|].
    + destruct (decimal_field m) as [Hd _]; [lia|]. run_tokens.
      rewrite parse_u64_decimal by done. run_tokens. reflexivity.
    + rewrite app_nil_r. run_tokens. reflexivity.
  - done.
Qed.

Lemma parse_encode_pub subject reply_to payload :
  let f := Frame.Pub subject reply_to payload in
  frame_wf f -> slice_ok (encode f) -> parses f.
Proof.
  intros f (Hs & Hr & Hp) Hok. destruct (decimal_field (len payload)) as [Hd Hdn]; [lens|].
  set (args := subject ++ SP :: opt_text reply_to ++ decimal (len payload)).
  assert (He : encode f = bs "PUB" ++ SP :: args ++ CRLF ++ payload ++ CRLF).
  { unfold f, args. cbn [encode]. app_norm. reflexivity. }
  unfold parses. rewrite He in *. apply (parse_payload_frame _ _ (Frame.Pub subject reply_to)).
  - repeat constructor.
  - done.
  - apply no_crlf_sep; [apply Hs|by apply no_crlf_opt_text|done|done].
  - done.
  - intros buf ht. change (parse_verb buf (bs "PUB") args ht) with (parse_pub buf args ht).
    unfold parse_pub, args. rewrite opt_text_app. destruct Hs as [Hs _].
    destruct reply_to as [r|]; [destruct Hr as [Hr _]|]; run_tokens; reflexivity.
  - done.
Qed.

Lemma parse_encode_msg subject sid reply_to payload :
  let f := Frame.Msg subject sid reply_to payload in
  frame_wf f -> slice_ok (encode f) -> parses f.
Proof.
  intros f (Hs & Hi & Hr & Hp) Hok. destruct (decimal_field (len payload)) as [Hd Hdn]; [lens|].
  set (args := subject ++ SP :: sid ++ SP :: opt_text reply_to ++ decimal (len payload)).
  assert (He : encode f = bs "MSG" ++ SP :: args ++ CRLF ++ payload ++ CRLF).
  { unfold f, args. cbn [encode]. app_norm. reflexivity. }
  unfold parses. rewrite He in *. apply (parse_payload_frame _ _ (Frame.Msg subject sid reply_to)).
  - repeat constructor.
  - done.
  - apply no_crlf_sep; [apply Hs| |done|done].
    apply no_crlf_sep; [apply Hi|by apply no_crlf_opt_text|done|done].
  - done.
  - intros buf ht. change (parse_verb buf (bs "MSG") args ht) with (parse_msg buf args ht).
    unfold parse_msg, args. rewrite opt_text_app. destruct Hs as [Hs _], Hi as [Hi _].
    destruct reply_to as [r|]; [destruct Hr as [Hr _]|]; run_tokens; reflexivity.
  - done.
Qed.

Lemma parse_encode_bare f verb :
  encode f = verb ++ CRLF -> no_crlf verb -> slice_ok verb -> split_verb verb = Done (verb, []) ->
  (forall buf ht, parse_verb buf verb [] ht = Done (ParseOutcome.Frame f ht)) -> parses f.
Proof.
  intros He Hn Hl Hs Hp. unfold parses. rewrite He, <- app_assoc.
  destruct (parse_frame_line verb tail Hn Hl) as (v & r & Es & ->).
  rewrite Hs in Es. injection Es as <- <-. apply Hp.
Qed.

(** Every well-formed frame is parsed back from its text, whatever follows. *)
Lemma parse_encode f : frame_wf f -> slice_ok (encode f) -> parses f.
Proof.
  intros Hf Hok. destruct f as [o|s r p|s q i|i m|s i r p| | |o| |m].
  - destruct Hf as [Hne Hc]. apply (parse_encode_line _ (bs "CONNECT") o); try done;
      [by repeat constructor|by destruct o].
  - by apply parse_encode_pub.
  - by apply parse_encode_sub.
  - by apply parse_encode_unsub.
  - by apply parse_encode_msg.
  - by apply (parse_encode_bare _ (bs "PING")).
  - by apply (parse_encode_bare _ (bs "PONG")).
  - destruct Hf as [Hne Hc]. apply (parse_encode_line _ (bs "INFO") o); try done;
      [by repeat constructor|by destruct o].
  - by apply (parse_encode_bare _ (bs "+OK")).
  - apply (parse_encode_line _ (bs "-ERR") m); try done. by repeat constructor.
Qed.
End Encoded.

(* ------------------------------------------------------------------ *)
(** * The codec's contract *)

Lemma emit_parse_back (out out' tail : bytes) f n :
  frame_wf f -> slice_ok out -> emit_frame f out = Done (out', Ok n) ->
  parse_frame (take (Z.to_nat n) out' ++ tail) = Done (ParseOutcome.Frame f n).
Proof.
  intros Hf Hok He. pose proof (frame_wf_nums_ok f Hf) as Hn.
  destruct (emit_frame_done out f Hok Hn) as [[Hl Hs]|(_ & o & nd & Hs & _)]; [|congruence].
  rewrite Hs in He. injection He as <- <-. rewrite to_nat_len, take_app_length.
  apply parse_encode; [done|]. unfold slice_ok in *. lia.
Qed.

(** C16: [parse(emit(frame)) == frame]: when [emit_frame] writes a
    well-formed frame and returns [n], the first [n] bytes of the buffer
    parse back to the same frame and the parser consumes all of them,
    whatever the rest of the stream is. *)
Theorem emit_parse_roundtrip (out out' tail : bytes) f n
    (Hf : frame_wf f) (Hok : slice_ok out) (He : emit_frame f out = Done (out', Ok n)) :
  parse_frame (take (Z.to_nat n) out' ++ tail) = Done (ParseOutcome.Frame f n).
Proof. by apply (emit_parse_back out). Qed.
Lemma emit_parse_roundtrip_witness :
  parse_frame (bs "MSG a.b 7 INBOX.1 2" ++ CRLF ++ bs "hi" ++ CRLF ++ bs "PI") =
  Done (ParseOutcome.Frame (Frame.Msg (bs "a.b") (bs "7") (Some (bs "INBOX.1")) (bs "hi")) 25).
Proof.
  refine (emit_parse_roundtrip (replicate 26 x00)
            (bs "MSG a.b 7 INBOX.1 2" ++ CRLF ++ bs "hi" ++ CRLF ++ [x00]) (bs "PI")
            (Frame.Msg (bs "a.b") (bs "7") (Some (bs "INBOX.1")) (bs "hi")) 25 _ _ _).
  - repeat split; repeat constructor; discriminate.
  - vm_compute. discriminate.
  - vm_compute. reflexivity.
Defined.

(** Re-emitting a parsed frame loses nothing: a frame parsed from any
    buffer and emitted again parses to itself, so the text is put in
    canonical form (single blanks, canonical decimal counts) without a
    change of meaning. *)
Theorem parse_emit_canonical (buf out out' : bytes) f consumed n
    (Hok : slice_ok buf) (Hout : slice_ok out)
    (Hp : parse_frame buf = Done (ParseOutcome.Frame f consumed))
    (He : emit_frame f out = Done (out', Ok n)) :
  parse_frame (take (Z.to_nat n) out') = Done (ParseOutcome.Frame f n).
Proof.
  apply parse_frame_inv in Hp as [Hf _]; [|done].
  rewrite <- (app_nil_r (take _ _)). by apply (emit_parse_back out).
Qed.
Lemma parse_emit_canonical_witness :
  parse_frame (bs "UNSUB 7 12" ++ CRLF) =
  Done (ParseOutcome.Frame (Frame.Unsub (bs "7") (Some 12)) 12).
Proof.
  refine (parse_emit_canonical (bs "UNSUB   7 " ++ [TAB] ++ bs "0012 " ++ CRLF) (replicate 12 x00)
            (bs "UNSUB 7 12" ++ CRLF) (Frame.Unsub (bs "7") (Some 12)) 18 12 _ _ _ _);
    vm_compute; done.
Defined.
