(* ===== verification/Subject.v ===== *)
(** Subjects and subscriptions, the data half of
    src/crates/aulon-core/src/subscription.rs: connection identifiers,
    subscriptions, subject tokens and the two subject validators. *)
From Stdlib Require Import ZArith Lia Strings.Byte.
From stdpp Require Import base list strings countable sets.
From S2P Require Import Prelude.

(** [struct ConnectionId(u32)]. *)
Module ConnectionId.
Record t : Type := mk { raw : Z }.
Definition new (raw : Z) : t := mk raw.
Definition get (id : t) : Z := raw id.
#[global] Instance t_eq_dec : EqDecision t.
Proof. solve_decision. Defined.
#[global] Program Instance t_countable : Countable t := inj_countable' raw mk _.
Next Obligation. by intros []. Qed.
End ConnectionId.

Record Sub : Type := mkSub {
  conn_id : ConnectionId.t;
  sid : bytes;
  queue_group : option bytes;
}.
#[global] Instance Sub_eq_dec : EqDecision Sub.
Proof. solve_decision. Defined.

Module SubjectError.
Inductive t : Type := Empty | EmptyToken | WildcardInPublish | InvalidGreaterPosition.
#[global] Instance t_eq_dec : EqDecision t.
Proof. solve_decision. Defined.
End SubjectError.

Inductive Token : Type :=
| Literal (b : bytes)
| Star
| Greater.
#[global] Instance Token_eq_dec : EqDecision Token.
Proof. solve_decision. Defined.

Definition DOT : byte := x2e.
Definition STAR : bytes := bs "*".
Definition GREATER : bytes := bs ">".

(** [s.split(|&b| b == b'.')]: always at least one piece. *)
Fixpoint split_dot (s : bytes) : list bytes :=
  match s with
  | [] => [[]]
  | c :: s' =>
      if bool_decide (c = DOT) then [] :: split_dot s'
      else match split_dot s' with
           | tok :: toks => (c :: tok) :: toks
           | [] => [[c]]
           end
  end.

(** The [match tok] that classifies one piece of a subscriber subject. *)
Definition classify (tok : bytes) : Token :=
  if bool_decide (tok = STAR) then Star
  else if bool_decide (tok = GREATER) then Greater
  else Literal tok.

(** The first loop of [parse_subscriber_subject], with its early return. *)
Fixpoint subscriber_loop (pieces : list bytes) (tokens : list Token) :
    result (list Token) SubjectError.t :=
  match pieces with
  | [] => Ok tokens
  | tok :: pieces =>
      match tok with
      | [] => Err SubjectError.EmptyToken
      | _ => subscriber_loop pieces (tokens ++ [classify tok])
      end
  end.

(** The second loop: [>] only at index [last]. *)
Fixpoint greater_loop (i last : Z) (tokens : list Token) : bool :=
  match tokens with
  | [] => true
  | t :: tokens =>
      if bool_decide (t = Greater) && negb (i =? last) then false
      else greater_loop (i + 1) last tokens
  end.

Definition parse_subscriber_subject (s : bytes) : run (result (list Token) SubjectError.t) :=
  match s with
  | [] => mret (Err SubjectError.Empty)
  | _ =>
      match subscriber_loop (split_dot s) [] with
      | Err e => mret (Err e)
      | Ok tokens =>
          last ← (len tokens -! 1)%usize;
          if greater_loop 0 last tokens then mret (Ok tokens)
          else mret (Err SubjectError.InvalidGreaterPosition)
      end
  end.

(** The loop of [parse_publisher_subject], with its early returns. *)
Fixpoint publisher_loop (pieces tokens : list bytes) : result (list bytes) SubjectError.t :=
  match pieces with
  | [] => Ok tokens
  | tok :: pieces =>
      match tok with
      | [] => Err SubjectError.EmptyToken
      | _ =>
          if bool_decide (tok = STAR) || bool_decide (tok = GREATER)
          then Err SubjectError.WildcardInPublish
          else publisher_loop pieces (tokens ++ [tok])
      end
  end.

Definition parse_publisher_subject (s : bytes) : result (list bytes) SubjectError.t :=
  match s with
  | [] => Err SubjectError.Empty
  | _ => publisher_loop (split_dot s) []
  end.

(* ------------------------------------------------------------------ *)
(** * Specification vocabulary *)

(** The text of a token and of a dotted subject. *)
Definition token_text (t : Token) : bytes :=
  match t with Literal b => b | Star => STAR | Greater => GREATER end.
Fixpoint dotted (toks : list bytes) : bytes :=
  match toks with
  | [] => []
  | [t] => t
  | t :: toks => t ++ DOT :: dotted toks
  end.

(** A literal token: not empty, no dot, not a wildcard. *)
Definition literal_ok (t : bytes) : Prop := t <> [] /\ (DOT ∉ t) /\ t <> STAR /\ t <> GREATER.
Definition token_ok (t : Token) : Prop :=
  match t with Literal b => literal_ok b | _ => True end.

(** [>] is last if it occurs at all. *)
Fixpoint greater_last (p : list Token) : Prop :=
  match p with
  | [] => True
  | t :: p' => (t = Greater -> p' = []) /\ greater_last p'
  end.
Definition pattern_ok (p : list Token) : Prop :=
  p <> [] /\ Forall token_ok p /\ greater_last p.
Definition subject_ok (s : list bytes) : Prop := s <> [] /\ Forall literal_ok s.

(** NATS matching of a subscription pattern against a concrete subject. *)
Fixpoint pattern_matches (p : list Token) (s : list bytes) : bool :=
  match p, s with
  | [], [] => true
  | [Greater], _ :: _ => true
  | Star :: p', _ :: s' => pattern_matches p' s'
  | Literal b :: p', t :: s' => bool_decide (b = t) && pattern_matches p' s'
  | _, _ => false
  end.

Example parse_sub_example :
  parse_subscriber_subject (bs "foo.*.b>.>") =
  Done (Ok [Literal (bs "foo"); Star; Literal (bs "b>"); Greater]).
Proof. vm_compute. reflexivity. Qed.

(* ------------------------------------------------------------------ *)
(** * Splitting and joining *)

Lemma split_dot_cons s : exists t ts, split_dot s = t :: ts.
Proof.
  induction s as [|c s (t & ts & IH)]; cbn; [by exists [], []|].
  case_bool_decide; [by exists [], (split_dot s)|]. rewrite IH. by exists (c :: t), ts.
Qed.

Lemma split_dot_free s : Forall (fun t => DOT ∉ t) (split_dot s).
Proof.
  induction s as [|c s IH]; cbn; [repeat constructor; set_solver|].
  case_bool_decide as Hc; [constructor; [set_solver|done]|].
  destruct IH as [|t ts Ht Hts]; [repeat constructor; set_solver|].
  constructor; [set_solver|done].
Qed.

Lemma dotted_split s : dotted (split_dot s) = s.
Proof.
  induction s as [|c s IH]; [done|]. cbn [split_dot].
  destruct (split_dot_cons s) as (t & ts & Hs). rewrite Hs in *.
  case_bool_decide as Hc.
  - subst c. cbn [dotted] in *. destruct ts; by rewrite IH.
  - destruct ts; cbn [dotted app] in *; congruence.
Qed.

Lemma split_dot_token t : DOT ∉ t -> split_dot t = [t].
Proof.
  induction t as [|c t IH]; [done|]. intros Hn. cbn.
  rewrite bool_decide_eq_false_2 by set_solver. rewrite IH by set_solver. done.
Qed.
Lemma split_dot_app t s : DOT ∉ t -> split_dot (t ++ DOT :: s) = t :: split_dot s.
Proof.
  induction t as [|c t IH]; intros Hn; [done|]. cbn.
  rewrite bool_decide_eq_false_2 by set_solver. rewrite IH by set_solver. done.
Qed.
Lemma split_dotted toks :
  toks <> [] -> Forall (fun t => DOT ∉ t) toks -> split_dot (dotted toks) = toks.
Proof.
  intros Hne Hf. induction Hf as [|t toks Ht Hf IH]; [done|].
  destruct toks as [|t' toks]; [by apply split_dot_token|].
  cbn [dotted]. rewrite split_dot_app by done. f_equal. by apply IH.
Qed.

Lemma dotted_nil toks : Forall (fun t => t <> []) toks -> dotted toks = [] -> toks = [].
Proof.
  destruct 1 as [|t toks Ht _]; [done|]. destruct toks; cbn; [done|]. by destruct t.
Qed.

(* ------------------------------------------------------------------ *)
(** * The validators *)

Lemma token_text_classify b : token_text (classify b) = b.
Proof. unfold classify. by repeat case_bool_decide; subst. Qed.
Lemma classify_token_text t : token_ok t -> classify (token_text t) = t.
Proof.
  destruct t as [b| |]; [|done..]. intros (_ & _ & ? & ?). cbn. unfold classify.
  by rewrite !bool_decide_eq_false_2.
Qed.
Lemma classify_ok b : b <> [] -> DOT ∉ b -> token_ok (classify b).
Proof. intros. unfold classify. by repeat case_bool_decide. Qed.

Lemma subscriber_loop_spec pieces acc :
  subscriber_loop pieces acc =
  if bool_decide ([] ∈ pieces) then Err SubjectError.EmptyToken
  else Ok (acc ++ map classify pieces).
Proof.
  revert acc. induction pieces as [|tok pieces IH]; intros acc; cbn.
  { by rewrite app_nil_r. }
  destruct tok as [|c tok]; [by rewrite bool_decide_eq_true_2 by set_solver|].
  rewrite IH, <- app_assoc. cbn [app].
  erewrite bool_decide_ext; [reflexivity|]. set_solver.
Qed.

Lemma publisher_loop_spec pieces acc toks :
  publisher_loop pieces acc = Ok toks <->
  toks = acc ++ pieces /\ Forall (fun t => t <> [] /\ t <> STAR /\ t <> GREATER) pieces.
Proof.
  revert acc. induction pieces as [|tok pieces IH]; intros acc; cbn.
  { rewrite app_nil_r. split; [by intros [= ->]|by intros [-> _]]. }
  rewrite Forall_cons. destruct tok as [|c tok]; [naive_solver|].
  destruct (decide (c :: tok = STAR)) as [->|H1]; [cbn; naive_solver|].
  destruct (decide (c :: tok = GREATER)) as [->|H2]; [cbn; naive_solver|].
  rewrite !bool_decide_eq_false_2 by done. cbn [orb].
  rewrite IH, <- app_assoc. cbn [app]. naive_solver.
Qed.

Lemma greater_loop_spec i last toks :
  last = i + len toks - 1 -> greater_loop i last toks = true <-> greater_last toks.
Proof.
  revert i. induction toks as [|t toks IH]; intros i Hl; cbn; [done|].
  rewrite len_cons in Hl. pose proof (len_nonneg toks).
  case_bool_decide as Ht; cbn [andb].
  - zcase; [|split; [done|]]; cycle 1.
    { intros [Hg _]. rewrite Hg, len_nil in * by done. lia. }
    assert (toks = []) as -> by (apply len_zero; lia). done.
  - rewrite IH by lia. naive_solver.
Qed.

Lemma pattern_pieces p :
  pattern_ok p -> split_dot (dotted (map token_text p)) = map token_text p /\
    ([] ∉ map token_text p) /\ map classify (map token_text p) = p.
Proof.
  intros (Hne & Hf & _). split_and!.
  - apply split_dotted; [by destruct p|]. apply Forall_fmap.
    eapply Forall_impl; [done|]. intros [b| |]; cbn; [by intros (_ & ? & _)|..];
      intros _; unfold STAR, GREATER; cbn; set_solver.
  - rewrite list_elem_of_fmap. intros (t & Ht & Hin). rewrite Forall_forall in Hf.
    specialize (Hf t Hin). destruct t; cbn in *; [|done..]. by destruct Hf.
  - rewrite map_map. rewrite <- (map_id p) at 2. apply map_ext_in. intros t Hin.
    apply classify_token_text. rewrite Forall_forall in Hf. apply Hf. by apply list_elem_of_In.
Qed.

#[global] Instance greater_last_dec p : Decision (greater_last p).
Proof. induction p as [|t p IH]; cbn; apply _. Defined.

(** The patterns a subject can denote. *)
Lemma pattern_text_iff s p :
  pattern_ok p /\ dotted (map token_text p) = s <->
  s <> [] /\ ([] ∉ split_dot s) /\ p = map classify (split_dot s) /\ greater_last p.
Proof.
  split.
  - intros [Hp <-]. destruct (pattern_pieces p Hp) as (-> & Hn & ->).
    split_and!; [|done|done|by destruct Hp as (_ & _ & ?)].
    intros Hd. apply dotted_nil in Hd; [by destruct Hp as (Hne & _); destruct p|].
    rewrite Forall_forall. by intros t Ht ->.
  - intros (Hne & Hn & -> & Hg).
    assert (Ht : map token_text (map classify (split_dot s)) = split_dot s).
    { by rewrite map_map, (map_ext _ id), map_id by apply token_text_classify. }
    rewrite Ht. split; [|apply dotted_split]. split_and!; [|apply Forall_fmap|done].
    { destruct (split_dot_cons s) as (t & ts & ->). done. }
    pose proof (split_dot_free s) as Hf. rewrite Forall_forall in *.
    intros b Hb. apply classify_ok; [by intros ->|by apply Hf].
Qed.

Lemma parse_subscriber_eq s :
  parse_subscriber_subject s =
  Done (match s with
        | [] => Err SubjectError.Empty
        | _ => if bool_decide ([] ∈ split_dot s) then Err SubjectError.EmptyToken
               else let p := map classify (split_dot s) in
                    if bool_decide (greater_last p) then Ok p
                    else Err SubjectError.InvalidGreaterPosition
        end).
Proof.
  destruct s as [|c s]; [done|]. unfold parse_subscriber_subject.
  rewrite subscriber_loop_spec. case_bool_decide; [done|]. cbn [app].
  set (p := map classify (split_dot (c :: s))).
  assert (1 <= len p).
  { unfold p. destruct (split_dot_cons (c :: s)) as (t & ts & ->). cbn [map]. lens. }
  rewrite usub_ok, bind_ret by lia.
  pose proof (greater_loop_spec 0 (len p - 1) p ltac:(lia)) as Hg.
  case_bool_decide as Hl; [by rewrite (proj2 Hg Hl)|].
  destruct (greater_loop 0 (len p - 1) p); [by destruct (Hl (proj1 Hg eq_refl))|done].
Qed.

Lemma parse_subscriber_done s : exists r, parse_subscriber_subject s = Done r.
Proof. rewrite parse_subscriber_eq. by eexists. Qed.

Lemma parse_subscriber_Ok s p :
  parse_subscriber_subject s = Done (Ok p) <-> pattern_ok p /\ dotted (map token_text p) = s.
Proof.
  rewrite pattern_text_iff, parse_subscriber_eq. cbv zeta. destruct s as [|c s].
  { split; [done|]. by intros (? & _). }
  case_bool_decide; [split; [done|]; by intros (_ & ? & _)|].
  case_bool_decide; (split; [|intros (_ & _ & -> & ?)]); try done. by intros [= <-].
Qed.

(** [parse_subscriber_subject] never panics and accepts exactly the
    NATS subscription subjects: it returns [Ok p] precisely for the
    well-formed patterns [p] (no empty token, wildcards as whole tokens, [>]
    only last) whose dotted text is the input, so parsing is the inverse of
    printing; every other subject is refused with the documented error. *)
Theorem parse_subscriber_subject_spec (s : bytes) :
  exists r, parse_subscriber_subject s = Done r /\
    (forall p, r = Ok p <-> pattern_ok p /\ dotted (map token_text p) = s) /\
    (r = Err SubjectError.Empty <-> s = []) /\
    (r = Err SubjectError.EmptyToken <-> s <> [] /\ [] ∈ split_dot s) /\
    r <> Err SubjectError.WildcardInPublish.
Proof.
  rewrite parse_subscriber_eq. eexists. split; [reflexivity|]. split; [intros p|].
  - rewrite <- parse_subscriber_Ok, parse_subscriber_eq. split; congruence.
  - cbv zeta. destruct s as [|c s]; [naive_solver|]. repeat case_bool_decide; naive_solver.
Qed.

Lemma parse_publisher_Ok s toks :
  parse_publisher_subject s = Ok toks <-> subject_ok toks /\ dotted toks = s.
Proof.
  unfold subject_ok. destruct s as [|c s'].
  { split; [done|]. intros [[Hne Hf] Hd]. apply dotted_nil in Hd; [done|].
    eapply Forall_impl; [done|]. by intros t [? _]. }
  set (s := c :: s').
  change (publisher_loop (split_dot s) [] = Ok toks <-> subject_ok toks /\ dotted toks = s).
  rewrite publisher_loop_spec. cbn [app]. destruct (split_dot_cons s) as (t & ts & Hs).
  split.
  - intros [-> Hf]. split; [split; [by rewrite Hs|]|apply dotted_split].
    pose proof (split_dot_free s) as Hd. rewrite Forall_forall in *.
    intros x Hx. specialize (Hf x Hx). specialize (Hd x Hx). unfold literal_ok. tauto.
  - intros [[Hne Hf] <-]. rewrite split_dotted; [split; [done|]|done|].
    all: eapply Forall_impl; [done|]; intros x (?&?&?&?); tauto.
Qed.

(** [parse_publisher_subject] accepts exactly the concrete subjects:
    it returns [Ok toks] precisely when [toks] are literal tokens whose
    dotted text is the input. *)
Theorem parse_publisher_subject_spec (s : bytes) (toks : list bytes) :
  parse_publisher_subject s = Ok toks <-> subject_ok toks /\ dotted toks = s.
Proof. apply parse_publisher_Ok. Qed.
