(* ===== verification/Trie.v ===== *)
(** The subscription trie of src/crates/aulon-core/src/subscription.rs.

    A [Node] is the source's struct; its [HashMap] is only probed, filled
    and emptied by key, never iterated, so it is a finite map.  A mutable
    walk down the trie is a function that returns the rebuilt node. *)
From Stdlib Require Import ZArith Lia Strings.Byte.
From stdpp Require Import base gmap list strings.
From S2P Require Import Prelude Subject.

#[warnings="-register-all"]
Inductive Node : Type := mkNode {
  exact : list Sub;
  rest : list Sub;
  children : gmap bytes Node;
  star : option Node;
}.

Module node.
(** [Box::default()]. *)
Definition default : Node := mkNode [] [] ∅ None.

Definition is_empty (n : Node) : bool :=
  bool_decide (exact n = []) && bool_decide (rest n = []) &&
  Nat.eqb (size (children n)) 0 &&
  match star n with None => true | Some _ => false end.

Definition push_exact (n : Node) (sub : Sub) : Node :=
  mkNode (exact n ++ [sub]) (rest n) (children n) (star n).
Definition push_rest (n : Node) (sub : Sub) : Node :=
  mkNode (exact n) (rest n ++ [sub]) (children n) (star n).
Definition set_child (n : Node) (b : bytes) (c : Node) : Node :=
  mkNode (exact n) (rest n) (<[b := c]> (children n)) (star n).
Definition set_star (n : Node) (c : option Node) : Node :=
  mkNode (exact n) (rest n) (children n) c.
Definition remove_child (n : Node) (b : bytes) : Node :=
  mkNode (exact n) (rest n) (delete b (children n)) (star n).
End node.

Record SubscriptionTrie : Type := mkTrie {
  root : Node;
  total_subscriptions : Z;
}.

Definition new : SubscriptionTrie := mkTrie node.default 0.

(* ------------------------------------------------------------------ *)
(** * subscribe *)

(** The [for (i, tok) in tokens.iter().enumerate()] loop of [subscribe],
    from [node] on the tokens left; [i == last_idx] is [toks = []]. *)
Fixpoint subscribe_walk (node : Node) (tokens : list Token) (sub : Sub) : run Node :=
  match tokens with
  | [] => Panic
  | tok :: toks =>
      match tok with
      | Greater =>
          _ ← assert_ (bool_decide (toks = []));
          mret (node.push_rest node sub)
      | Star =>
          let child := match star node with Some c => c | None => node.default end in
          child' ← match toks with
                   | [] => mret (node.push_exact child sub)
                   | _ => subscribe_walk child toks sub
                   end;
          mret (node.set_star node (Some child'))
      | Literal b =>
          let child := match children node !! b with Some c => c | None => node.default end in
          child' ← match toks with
                   | [] => mret (node.push_exact child sub)
                   | _ => subscribe_walk child toks sub
                   end;
          mret (node.set_child node b child')
      end
  end.

Definition subscribe (t : SubscriptionTrie) (subject : bytes) (sub : Sub) :
    run (SubscriptionTrie * result unit SubjectError.t) :=
  r ← parse_subscriber_subject subject;
  match r with
  | Err e => mret (t, Err e)
  | Ok tokens =>
      root' ← subscribe_walk (root t) tokens sub;
      total' ← (total_subscriptions t +! 1)%usize;
      mret (mkTrie root' total', Ok tt)
  end.

(* ------------------------------------------------------------------ *)
(** * unsubscribe *)

(** The [retain] predicate's complement: [s.conn_id == conn_id && s.sid == sid]. *)
Definition is_sub (conn : ConnectionId.t) (id : bytes) (s : Sub) : bool :=
  bool_decide (conn_id s = conn) && bool_decide (sid s = id).

Definition retain (conn : ConnectionId.t) (id : bytes) (l : list Sub) : list Sub :=
  filter (fun s => is_sub conn id s = false) l.

(** [let before = len; retain; let removed = len != before;
    if removed { *total -= 1; }] on one bucket. *)
Definition remove_from (conn : ConnectionId.t) (id : bytes) (l : list Sub) (total : Z) :
    run (list Sub * Z * bool) :=
  let l' := retain conn id l in
  let removed := negb (len l' =? len l) in
  total' ← if removed then (total -! 1)%usize else mret total;
  mret (l', total', removed).

(** [step_or_remove]; [walk] is the recursive [unsubscribe_walk] call. *)
Definition step_or_remove (walk : Node -> Z -> run (Node * Z * bool)) (at_last : bool)
    (child : Node) (conn : ConnectionId.t) (id : bytes) (total : Z) : run (Node * Z * bool) :=
  if at_last then
    '(exact', total', removed) ← remove_from conn id (exact child) total;
    mret (mkNode exact' (rest child) (children child) (star child), total', removed)
  else walk child total.

Fixpoint unsubscribe_walk (tokens : list Token) (conn : ConnectionId.t) (id : bytes)
    (node : Node) (total : Z) : run (Node * Z * bool) :=
  match tokens with
  | [] => Panic
  | tok :: toks =>
      match tok with
      | Greater =>
          '(rest', total', removed) ← remove_from conn id (rest node) total;
          mret (mkNode (exact node) rest' (children node) (star node), total', removed)
      | Literal b =>
          match children node !! b with
          | None => mret (node, total, false)
          | Some child =>
              '(child', total', removed) ←
                step_or_remove (unsubscribe_walk toks conn id) (bool_decide (toks = []))
                  child conn id total;
              let node' := if node.is_empty child' then node.remove_child node b
                           else node.set_child node b child' in
              mret (node', total', removed)
          end
      | Star =>
          match star node with
          | None => mret (node, total, false)
          | Some child =>
              '(child', total', removed) ←
                step_or_remove (unsubscribe_walk toks conn id) (bool_decide (toks = []))
                  child conn id total;
              let node' := if node.is_empty child' then node.set_star node None
                           else node.set_star node (Some child') in
              mret (node', total', removed)
          end
      end
  end.

Definition unsubscribe (t : SubscriptionTrie) (subject : bytes) (conn : ConnectionId.t)
    (id : bytes) : run (SubscriptionTrie * bool) :=
  r ← parse_subscriber_subject subject;
  match r with
  | Err _ => mret (t, false)
  | Ok tokens =>
      '(root', total', removed) ←
        unsubscribe_walk tokens conn id (root t) (total_subscriptions t);
      mret (mkTrie root' total', removed)
  end.

(* ------------------------------------------------------------------ *)
(** * for_each_match *)

Section Match.
(** The [FnMut(&Sub)] callback, as a step on the state it captures. *)
Context {S : Type} (f : S -> Sub -> S).

Fixpoint walk_match (tokens : list bytes) (node : Node) (st : S) : S :=
  match tokens with
  | [] => fold_left f (exact node) st
  | t :: toks =>
      let st := fold_left f (rest node) st in
      let st := match children node !! t with
                | Some child => walk_match toks child st
                | None => st
                end in
      match star node with
      | Some child => walk_match toks child st
      | None => st
      end
  end.

Definition for_each_match (t : SubscriptionTrie) (subject : bytes) (st : S) :
    result S SubjectError.t :=
  match parse_publisher_subject subject with
  | Err e => Err e
  | Ok tokens => Ok (walk_match tokens (root t) st)
  end.
End Match.

(* ------------------------------------------------------------------ *)
(** * Specification vocabulary *)

(** The bucket of the subscriptions made under a pattern. *)
Fixpoint subs_at (p : list Token) (node : Node) : list Sub :=
  match p with
  | [] => exact node
  | Greater :: p' => match p' with [] => rest node | _ => [] end
  | Literal b :: p' =>
      match children node !! b with Some c => subs_at p' c | None => [] end
  | Star :: p' => match star node with Some c => subs_at p' c | None => [] end
  end.

(** The patterns that match a concrete subject, in the order of the walk. *)
Fixpoint covering (s : list bytes) : list (list Token) :=
  match s with
  | [] => [[]]
  | t :: s' =>
      [Greater] :: map (cons (Literal t)) (covering s') ++ map (cons Star) (covering s')
  end.

(** Sum over the values of a finite map. *)
Definition map_sum {K A} `{Countable K} (f : A -> nat) (m : gmap K A) : nat :=
  map_fold (fun _ a acc => (f a + acc)%nat) O m.

(** Number of subscriptions stored in a subtree. *)
Fixpoint stored (node : Node) : nat :=
  (length (exact node) + length (rest node) + map_sum stored (children node) +
   match star node with Some c => stored c | None => O end)%nat.

(** No node below the root is empty: pruning is complete. *)
Inductive pruned : Node -> Prop :=
| Pruned e r ch st :
    (forall b c, ch !! b = Some c -> pruned c) ->
    (forall b c, ch !! b = Some c -> node.is_empty c = false) ->
    (forall c, st = Some c -> pruned c) ->
    (forall c, st = Some c -> node.is_empty c = false) ->
    pruned (mkNode e r ch st).

Example trie_example :
  let s1 := mkSub (ConnectionId.new 1) (bs "7") None in
  let s2 := mkSub (ConnectionId.new 2) (bs "8") None in
  (r1 ← subscribe new (bs "foo.*") s1; 
   r2 ← subscribe r1.1 (bs "foo.>") s2;
   mret (for_each_match (fun l s => l ++ [s]) r2.1 (bs "foo.bar") []))
  = Done (Ok [s2; s1]).
Proof. vm_compute. reflexivity. Qed.

(* ------------------------------------------------------------------ *)
(** * Nodes *)

Lemma is_empty_spec n : node.is_empty n = true <-> n = node.default.
Proof.
  unfold node.is_empty. rewrite !andb_true_iff, !bool_decide_eq_true, Nat.eqb_eq.
  rewrite map_size_empty_iff. destruct n as [e r c [st|]]; cbn.
  - split; [by intros [_ ?]|done].
  - split; [by intros [[[-> ->] ->] _]|by intros [= -> -> ->]].
Qed.

Section MapSum.
Context {K A : Type} `{Countable K} (f : A -> nat).
Implicit Types m : gmap K A.

Lemma map_sum_empty : map_sum f (∅ : gmap K A) = O.
Proof. apply map_fold_empty. Qed.

Lemma map_sum_delete m k a :
  m !! k = Some a -> map_sum f m = (f a + map_sum f (delete k m))%nat.
Proof.
  intros Hk. unfold map_sum.
  rewrite (map_fold_delete_L (fun _ a acc => (f a + acc)%nat) O k a m); [done| |done].
  intros; lia.
Qed.

Lemma map_sum_delete_None m k : m !! k = None -> map_sum f (delete k m) = map_sum f m.
Proof. intros Hk. by rewrite delete_id. Qed.

Lemma map_sum_insert m k a :
  map_sum f (<[k := a]> m) = (f a + map_sum f (delete k m))%nat.
Proof.
  rewrite (map_sum_delete (<[k := a]> m) k a) by by rewrite lookup_insert_eq.
  by rewrite delete_insert_eq.
Qed.

Lemma map_sum_zero m : map_sum f m = O -> forall k a, m !! k = Some a -> f a = O.
Proof. intros Hs k a Hk. rewrite (map_sum_delete m k a Hk) in Hs. lia. Qed.
End MapSum.

Lemma stored_unfold e r ch st :
  stored (mkNode e r ch st) =
  (length e + length r + map_sum stored ch + match st with Some c => stored c | None => O end)%nat.
Proof. reflexivity. Qed.
Lemma stored_default : stored node.default = O.
Proof. reflexivity. Qed.

Lemma subs_at_default p : subs_at p node.default = [].
Proof. destruct p as [|[b| |] [|]]; try done; cbn; by rewrite lookup_empty. Qed.

(** The child a walk goes to under a token, created on demand. *)
Definition child_at (t : Token) (n : Node) : Node :=
  match t with
  | Literal b => default node.default (children n !! b)
  | Star => default node.default (star n)
  | Greater => node.default
  end.
Definition put_child (t : Token) (c : Node) (n : Node) : Node :=
  match t with
  | Literal b => node.set_child n b c
  | Star => node.set_star n (Some c)
  | Greater => n
  end.
Definition drop_child (t : Token) (n : Node) : Node :=
  match t with
  | Literal b => node.remove_child n b
  | Star => node.set_star n None
  | Greater => n
  end.

Lemma subs_at_cons t p n : t <> Greater -> subs_at (t :: p) n = subs_at p (child_at t n).
Proof.
  destruct t as [b| |]; intros Ht; [|..|done]; cbn.
  - destruct (children n !! b); cbn; [done|]. by rewrite subs_at_default.
  - destruct (star n); cbn; [done|]. by rewrite subs_at_default.
Qed.

Lemma subs_at_put t c n q :
  t <> Greater ->
  subs_at q (put_child t c n) =
  match q with
  | t' :: q' => if decide (t' = t) then subs_at q' c else subs_at q n
  | [] => exact n
  end.
Proof.
  intros Ht. destruct q as [|t' q]; [by destruct t|].
  destruct (decide (t' = t)) as [->|Hne].
  - rewrite subs_at_cons by done. f_equal. destruct t; cbn; [|done..].
    by rewrite lookup_insert_eq.
  - destruct t as [b| |], t' as [b'| |]; cbn; try done.
    rewrite lookup_insert_ne by congruence. done.
Qed.

Lemma subs_at_drop t n q :
  t <> Greater ->
  subs_at q (drop_child t n) =
  match q with
  | t' :: q' => if decide (t' = t) then [] else subs_at q n
  | [] => exact n
  end.
Proof.
  intros Ht. destruct q as [|t' q]; [by destruct t|].
  destruct (decide (t' = t)) as [->|Hne].
  - destruct t; cbn; [|done..]. by rewrite lookup_delete_eq.
  - destruct t as [b| |], t' as [b'| |]; cbn; try done.
    rewrite lookup_delete_ne by congruence. done.
Qed.

Lemma stored_put t c n :
  t <> Greater ->
  (stored (put_child t c n) + stored (child_at t n) = stored n + stored c)%nat.
Proof.
  intros Ht. destruct n as [e r ch st]. destruct t as [b| |]; [|..|done].
  - unfold put_child, child_at, node.set_child. cbn [children exact rest star]. rewrite !stored_unfold.
    rewrite map_sum_insert. destruct (ch !! b) as [c0|] eqn:E; cbn [from_option id].
    + rewrite (map_sum_delete stored ch b c0) by done. lia.
    + rewrite map_sum_delete_None by done. change (stored node.default) with O. lia.
  - unfold put_child, child_at, node.set_star. cbn [children exact rest star]. rewrite !stored_unfold.
    destruct st; cbn [from_option id]; [lia|]. change (stored node.default) with O. lia.
Qed.

Lemma stored_drop t n :
  t <> Greater -> (stored (drop_child t n) + stored (child_at t n) = stored n)%nat.
Proof.
  intros Ht. destruct n as [e r ch st]. destruct t as [b| |]; [|..|done].
  - unfold drop_child, child_at, node.remove_child. cbn [children exact rest star]. rewrite !stored_unfold.
    destruct (ch !! b) as [c0|] eqn:E; cbn [from_option id].
    + rewrite (map_sum_delete stored ch b c0) by done. lia.
    + rewrite map_sum_delete_None by done. change (stored node.default) with O. lia.
  - unfold drop_child, child_at, node.set_star. cbn [children exact rest star]. rewrite !stored_unfold.
    destruct st; cbn [from_option id]; [lia|]. change (stored node.default) with O. lia.
Qed.

Lemma stored_not_empty n : stored n <> O -> node.is_empty n = false.
Proof.
  intros Hs. destruct (node.is_empty n) eqn:E; [|done].
  apply is_empty_spec in E as ->. by destruct Hs.
Qed.

Lemma pruned_default : pruned node.default.
Proof. constructor; [intros b c; by rewrite lookup_empty..|done|done]. Qed.

Lemma pruned_child t n : pruned n -> pruned (child_at t n).
Proof.
  intros []. destruct t as [b| |]; cbn.
  - destruct (ch !! b) eqn:E; cbn; [eauto|apply pruned_default].
  - destruct st; cbn; [eauto|apply pruned_default].
  - apply pruned_default.
Qed.

Lemma pruned_put t c n :
  pruned n -> pruned c -> node.is_empty c = false -> pruned (put_child t c n).
Proof.
  intros [] Hc He. destruct t as [b| |]; cbn; [| |by constructor].
  - constructor; [intros b' c'..|done|done];
      rewrite lookup_insert; case_decide; naive_solver.
  - by constructor; [..|intros ? [= <-]|intros ? [= <-]].
Qed.

Lemma pruned_drop t n : pruned n -> pruned (drop_child t n).
Proof.
  intros []. destruct t as [b| |]; cbn; [| |by constructor].
  - constructor; [intros b' c'..|done|done];
      rewrite lookup_delete; case_decide; naive_solver.
  - by constructor.
Qed.

(** In a pruned trie that stores nothing there is nothing. *)
Lemma pruned_stored_zero n : pruned n -> stored n = O -> n = node.default.
Proof.
  induction 1 as [e r ch st _ IHc Hc _ IHs Hs]. rewrite stored_unfold. intros H0.
  assert (ch = ∅) as ->.
  { apply map_empty. intros b. destruct (ch !! b) as [c|] eqn:E; [|done]. exfalso.
    assert (stored c = O) as Hz by (eapply (map_sum_zero stored ch); [lia|done]).
    specialize (Hc b c E). rewrite (IHc b c E Hz) in Hc. done. }
  destruct st as [c|].
  - exfalso. specialize (Hs c eq_refl). rewrite (IHs c eq_refl) in Hs by lia. done.
  - destruct e, r; cbn in H0; try lia. done.
Qed.

(* ------------------------------------------------------------------ *)
(** * subscribe adds one entry *)

Definition subscribe_in (toks : list Token) (sub : Sub) (child : Node) : run Node :=
  match toks with
  | [] => mret (node.push_exact child sub)
  | _ => subscribe_walk child toks sub
  end.

Lemma subscribe_walk_cons t toks n sub :
  t <> Greater ->
  subscribe_walk n (t :: toks) sub =
  (c ← subscribe_in toks sub (child_at t n); mret (put_child t c n)).
Proof.
  intros Ht. destruct t as [b| |]; [| |done]; cbn.
  - by destruct (children n !! b).
  - by destruct (star n).
Qed.

(** [n'] is [n] with [sub] appended to the bucket of [p]. *)
Record added (p : list Token) (sub : Sub) (n n' : Node) : Prop := {
  added_at : forall q, subs_at q n' = subs_at q n ++ (if decide (q = p) then [sub] else []);
  added_stored : stored n' = S (stored n);
  added_pruned : pruned n -> pruned n';
}.

Lemma added_put t p sub n c' :
  t <> Greater -> added p sub (child_at t n) c' -> added (t :: p) sub n (put_child t c' n).
Proof.
  intros Ht [Ha Hs Hp]. split.
  - intros q. rewrite subs_at_put by done. destruct q as [|t' q]; [by rewrite app_nil_r|].
    destruct (decide (t' = t)) as [->|Hne].
    + rewrite Ha, subs_at_cons by done. f_equal. by repeat case_decide; simplify_eq.
    + rewrite decide_False by congruence. by rewrite app_nil_r.
  - pose proof (stored_put t c' n Ht). lia.
  - intros Hn. apply pruned_put; [done|by apply Hp, pruned_child|].
    apply stored_not_empty. lia.
Qed.

Lemma added_push_exact sub n : added [] sub n (node.push_exact n sub).
Proof.
  destruct n as [e r ch st]. split.
  - intros [|[b| |] q]; cbn; [done|by rewrite app_nil_r..].
  - unfold node.push_exact. rewrite !stored_unfold. cbn [exact rest children star].
    rewrite length_app. cbn. lia.
  - intros H. inversion H. by constructor.
Qed.

Lemma added_push_rest sub n : added [Greater] sub n (node.push_rest n sub).
Proof.
  destruct n as [e r ch st]. split.
  - intros [|[b| |] q]; cbn; try by rewrite app_nil_r. by destruct q.
  - unfold node.push_rest. rewrite !stored_unfold. cbn [exact rest children star].
    rewrite length_app. cbn. lia.
  - intros H. inversion H. by constructor.
Qed.

Lemma subscribe_in_added toks sub n :
  greater_last toks -> exists n', subscribe_in toks sub n = Done n' /\ added toks sub n n'.
Proof.
  revert n. induction toks as [|t toks IH]; intros n Hg.
  { eexists. split; [done|]. apply added_push_exact. }
  destruct Hg as [Hlast Hg]. cbn [subscribe_in].
  destruct (decide (t = Greater)) as [->|Ht].
  { rewrite (Hlast eq_refl). eexists. split; [done|]. apply added_push_rest. }
  rewrite subscribe_walk_cons by done.
  destruct (IH (child_at t n) Hg) as (c' & -> & Hc). eexists. split; [done|]. by apply added_put.
Qed.

Lemma subscribe_walk_added p sub n :
  pattern_ok p -> exists n', subscribe_walk n p sub = Done n' /\ added p sub n n'.
Proof. intros (Hne & _ & Hg). destruct p as [|t p]; [done|]. by apply (subscribe_in_added (t :: p)). Qed.

(* ------------------------------------------------------------------ *)
(** * unsubscribe removes the entries of one subscription *)

(** How many entries of a bucket belong to [(conn, id)]. *)
Definition matching (conn : ConnectionId.t) (id : bytes) (l : list Sub) : nat :=
  length (filter (fun s => is_sub conn id s = true) l).

Lemma length_retain conn id l : (length (retain conn id l) + matching conn id l = length l)%nat.
Proof.
  unfold retain, matching. induction l as [|s l IH]; [done|].
  rewrite !filter_cons. destruct (is_sub conn id s); cbn; repeat case_decide; cbn; try done; lia.
Qed.

Lemma subs_at_stored p n : (length (subs_at p n) <= stored n)%nat.
Proof.
  revert n. induction p as [|t p IH]; intros n.
  { destruct n. rewrite stored_unfold. cbn. lia. }
  destruct (decide (t = Greater)) as [->|Ht].
  { destruct n. rewrite stored_unfold. cbn. destruct p; cbn; lia. }
  rewrite subs_at_cons by done. pose proof (stored_drop t n Ht). specialize (IH (child_at t n)). lia.
Qed.

(** [(n', total', removed)] is the outcome of removing [(conn, id)] from the
    bucket of [p]: the whole bucket is filtered, but [total] drops by one. *)
Record removes (p : list Token) conn id n (total : Z) n' (total' : Z) (removed : bool) : Prop := {
  removes_at : forall q, subs_at q n' =
    if decide (q = p) then retain conn id (subs_at q n) else subs_at q n;
  removes_stored : (stored n' + matching conn id (subs_at p n) = stored n)%nat;
  removes_removed : removed = bool_decide (matching conn id (subs_at p n) <> O);
  removes_total : total' = if removed then total - 1 else total;
  removes_pruned : pruned n -> pruned n';
}.

Lemma remove_from_done conn id l total :
  Z.of_nat (matching conn id l) <= total ->
  remove_from conn id l total =
  Done (retain conn id l,
        if bool_decide (matching conn id l <> O) then total - 1 else total,
        bool_decide (matching conn id l <> O)).
Proof.
  intros Ht. pose proof (length_retain conn id l) as Hl. unfold remove_from, len.
  replace (negb (_ =? _)) with (bool_decide (matching conn id l <> O)).
  - case_bool_decide; [|done]. by rewrite usub_ok by lia.
  - case_bool_decide; [by zb|]. rewrite (proj2 (Z.eqb_eq _ _)) by lia. done.
Qed.

Lemma step_or_remove_last walk conn id n total :
  Z.of_nat (stored n) <= total ->
  exists n' total' removed, step_or_remove walk true n conn id total = Done (n', total', removed) /\
    removes [] conn id n total n' total' removed.
Proof.
  intros Ht. unfold step_or_remove. pose proof (subs_at_stored [] n) as Hs. cbn in Hs.
  pose proof (length_retain conn id (exact n)) as Hl.
  rewrite remove_from_done by lia. eexists _, _, _. split; [reflexivity|].
  destruct n as [e r ch st]. cbn [exact rest children star] in *. split; [| |done|done|].
  - intros [|[b| |] q]; done.
  - rewrite !stored_unfold. cbn [subs_at exact]. lia.
  - intros H. inversion H. by constructor.
Qed.

Lemma unsubscribe_walk_greater toks conn id n total :
  toks = [] -> Z.of_nat (stored n) <= total ->
  exists n' total' removed, unsubscribe_walk (Greater :: toks) conn id n total = Done (n', total', removed) /\
    removes [Greater] conn id n total n' total' removed.
Proof.
  intros -> Ht. cbn [unsubscribe_walk]. pose proof (subs_at_stored [Greater] n) as Hs. cbn in Hs.
  pose proof (length_retain conn id (rest n)) as Hl.
  rewrite remove_from_done by lia. eexists _, _, _. split; [reflexivity|].
  destruct n as [e r ch st]. cbn [exact rest children star] in *. split; [| |done|done|].
  - intros [|[b| |] q]; try done. by destruct q.
  - rewrite !stored_unfold. cbn [subs_at rest]. lia.
  - intros H. inversion H. by constructor.
Qed.

(** Whether the walk finds a child under a token. *)
Definition has_child (t : Token) (n : Node) : bool :=
  match t with
  | Literal b => match children n !! b with Some _ => true | None => false end
  | Star => match star n with Some _ => true | None => false end
  | Greater => false
  end.

Lemma has_child_false t n : has_child t n = false -> child_at t n = node.default.
Proof. destruct t as [b| |]; cbn; [destruct (children n !! b)|destruct (star n)|]; done. Qed.

Lemma unsubscribe_walk_cons t toks conn id n total :
  t <> Greater ->
  unsubscribe_walk (t :: toks) conn id n total =
  if has_child t n then
    '(c, total', removed) ←
      step_or_remove (unsubscribe_walk toks conn id) (bool_decide (toks = [])) (child_at t n) conn id total;
    mret (if node.is_empty c then drop_child t n else put_child t c n, total', removed)
  else mret (n, total, false).
Proof.
  intros Ht. destruct t as [b| |]; [| |done]; cbn [unsubscribe_walk has_child child_at].
  - by destruct (children n !! b).
  - by destruct (star n).
Qed.

Lemma removes_child t p conn id n total c' total' removed :
  t <> Greater -> removes p conn id (child_at t n) total c' total' removed ->
  removes (t :: p) conn id n total
    (if node.is_empty c' then drop_child t n else put_child t c' n) total' removed.
Proof.
  intros Ht [Ha Hs Hr Hto Hp].
  assert (Hsub : subs_at (t :: p) n = subs_at p (child_at t n)) by by apply subs_at_cons.
  split; [| |by rewrite Hsub|done|].
  - intros q. destruct (node.is_empty c') eqn:E.
    + apply is_empty_spec in E. rewrite subs_at_drop by done.
      destruct q as [|t' q]; [done|]. destruct (decide (t' = t)) as [->|].
      * specialize (Ha q). rewrite E, subs_at_default in Ha. rewrite subs_at_cons, Ha by done.
        by repeat case_decide; simplify_eq.
      * by rewrite decide_False by congruence.
    + rewrite subs_at_put by done.
      destruct q as [|t' q]; [done|]. destruct (decide (t' = t)) as [->|].
      * rewrite Ha, subs_at_cons by done. by repeat case_decide; simplify_eq.
      * by rewrite decide_False by congruence.
  - rewrite Hsub. destruct (node.is_empty c') eqn:E.
    + apply is_empty_spec in E. pose proof (stored_drop t n Ht). rewrite E, stored_default in Hs. lia.
    + pose proof (stored_put t c' n Ht). lia.
  - intros Hn. destruct (node.is_empty c') eqn:E; [by apply pruned_drop|].
    apply pruned_put; [done|by apply Hp, pruned_child|done].
Qed.

Lemma removes_none p conn id n total :
  subs_at p n = [] -> removes p conn id n total n total false.
Proof.
  intros H. split; rewrite ?H; try done.
  intros q. case_decide; [|done]. subst q. by rewrite H.
Qed.

Lemma unsubscribe_walk_removes p conn id n total :
  p <> [] -> greater_last p -> Z.of_nat (stored n) <= total ->
  exists n' total' removed, unsubscribe_walk p conn id n total = Done (n', total', removed) /\
    removes p conn id n total n' total' removed.
Proof.
  revert n. induction p as [|t p IH]; intros n Hne Hgl Ht; [done|].
  destruct Hgl as [Hlast Hg].
  destruct (decide (t = Greater)) as [->|Htn].
  { rewrite (Hlast eq_refl). by apply unsubscribe_walk_greater. }
  rewrite unsubscribe_walk_cons by done. destruct (has_child t n) eqn:Hc.
  2: { eexists _, _, _. split; [done|]. apply removes_none.
       rewrite subs_at_cons, has_child_false, subs_at_default by done. done. }
  pose proof (stored_drop t n Htn).
  assert (Hr : exists c' total' removed,
    step_or_remove (unsubscribe_walk p conn id) (bool_decide (p = [])) (child_at t n) conn id total
      = Done (c', total', removed) /\ removes p conn id (child_at t n) total c' total' removed).
  { case_bool_decide as Hp; [subst p; apply step_or_remove_last; lia|]. apply IH; try done. lia. }
  destruct Hr as (c' & total' & removed & -> & Hr).
  eexists _, _, _. split; [reflexivity|]. by apply removes_child.
Qed.

(* ------------------------------------------------------------------ *)
(** * Matching visits the buckets of the matching patterns *)

(** The subscriptions a walk visits, in order. *)
Definition matches (toks : list bytes) (n : Node) : list Sub :=
  concat (map (fun p => subs_at p n) (covering toks)).

Lemma matches_default toks : matches toks node.default = [].
Proof.
  unfold matches. induction (covering toks) as [|p ps IH]; [done|].
  cbn [map concat]. by rewrite subs_at_default, IH.
Qed.

Lemma matches_cons t toks n :
  matches (t :: toks) n =
  rest n ++ matches toks (child_at (Literal t) n) ++ matches toks (child_at Star n).
Proof.
  unfold matches. cbn [covering map concat]. f_equal.
  rewrite map_app, concat_app, !map_map. do 2 f_equal; apply map_ext; intros p;
    by apply subs_at_cons.
Qed.

Lemma walk_match_matches {S} (f : S -> Sub -> S) toks n st :
  walk_match f toks n st = fold_left f (matches toks n) st.
Proof.
  revert n st. induction toks as [|t toks IH]; intros n st.
  { unfold matches. cbn. by rewrite app_nil_r. }
  rewrite matches_cons, !fold_left_app. cbn [walk_match child_at].
  set (st1 := fold_left f (rest n) st).
  replace (match children n !! t with Some child => walk_match f toks child st1 | None => st1 end)
    with (fold_left f (matches toks (default node.default (children n !! t))) st1).
  - destruct (star n); cbn [from_option id]; [apply IH|by rewrite matches_default].
  - destruct (children n !! t); cbn [from_option id]; [by rewrite IH|by rewrite matches_default].
Qed.

Lemma covering_spec toks p : p ∈ covering toks <-> pattern_matches p toks = true.
Proof.
  revert p. induction toks as [|t toks IH]; intros p.
  { cbn. rewrite list_elem_of_singleton. destruct p as [|[b| |] [|]]; cbn; naive_solver. }
  cbn [covering]. rewrite elem_of_cons, elem_of_app, !list_elem_of_fmap.
  destruct p as [|[b| |] p]; cbn.
  - split; [|done]. intros [?|[(?&?&?)|(?&?&?)]]; done.
  - rewrite andb_true_iff, bool_decide_eq_true, <- IH. naive_solver.
  - rewrite <- IH. naive_solver.
  - destruct p as [|t' p]; [by split; [|left]|].
    split; [|done]. intros [?|[(?&?&?)|(?&?&?)]]; done.
Qed.

Lemma covering_NoDup toks : NoDup (covering toks).
Proof.
  induction toks as [|t toks IH]; cbn; [apply NoDup_singleton|].
  constructor.
  - rewrite elem_of_app, !list_elem_of_fmap. intros [(?&?&?)|(?&?&?)]; done.
  - apply NoDup_app. split_and!.
    + apply NoDup_fmap; [by intros ?? [=]|done].
    + intros p. rewrite !list_elem_of_fmap. by intros (?&->&?) (?&?&?).
    + apply NoDup_fmap; [by intros ?? [=]|done].
Qed.
