(* ===== verification/TrieSpec.v ===== *)
(** The contract of the subscription trie: it implements a flat routing
    table, the list of (pattern, subscription) entries in the order they
    were made, searched entry by entry.  [RoutingTable] is the interface the
    publish path relies on; the trie is an instance of it. *)
From Stdlib Require Import ZArith Lia Strings.Byte.
From stdpp Require Import base gmap list strings.
From S2P Require Import Prelude Subject Trie.

(* ------------------------------------------------------------------ *)
(** * The flat table *)

Abbreviation table := (list (list Token * Sub)).

Definition table_subscribe (p : list Token) (sub : Sub) (tb : table) : table := tb ++ [(p, sub)].

Definition table_unsubscribe (p : list Token) (conn : ConnectionId.t) (id : bytes) (tb : table) :
    table := filter (fun e => ~ (e.1 = p /\ is_sub conn id e.2 = true)) tb.

(** The subscriptions a publication on [toks] is for: a linear scan. *)
Definition table_match (toks : list bytes) (tb : table) : list Sub :=
  map snd (filter (fun e => pattern_matches e.1 toks = true) tb).

(** Is a subscription of [conn] with id [id] under [p] in the table? *)
Definition table_has (p : list Token) (conn : ConnectionId.t) (id : bytes) (tb : table) : bool :=
  existsb (fun e => bool_decide (e.1 = p) && is_sub conn id e.2) tb.

(** One mutation of the trie, and a sequence of them. *)
Inductive op : Type :=
| OpSub (subject : bytes) (sub : Sub)
| OpUnsub (subject : bytes) (conn : ConnectionId.t) (id : bytes).

Definition run_op (t : SubscriptionTrie) (o : op) : run SubscriptionTrie :=
  match o with
  | OpSub subject sub => r ← subscribe t subject sub; mret r.1
  | OpUnsub subject conn id => r ← unsubscribe t subject conn id; mret r.1
  end.
Fixpoint run_ops (t : SubscriptionTrie) (ops : list op) : run SubscriptionTrie :=
  match ops with
  | [] => mret t
  | o :: ops => t' ← run_op t o; run_ops t' ops
  end.

Definition table_op (tb : table) (o : op) : table :=
  match o with
  | OpSub subject sub =>
      match parse_subscriber_subject subject with
      | Done (Ok p) => table_subscribe p sub tb
      | _ => tb
      end
  | OpUnsub subject conn id =>
      match parse_subscriber_subject subject with
      | Done (Ok p) => table_unsubscribe p conn id tb
      | _ => tb
      end
  end.
Definition table_ops (tb : table) (ops : list op) : table := fold_left table_op ops tb.

(** No [SUB] of the sequence repeats a live (subject, connection, sid). *)
Definition op_fresh (tb : table) (o : op) : Prop :=
  match o with
  | OpSub subject sub =>
      match parse_subscriber_subject subject with
      | Done (Ok p) => table_has p (conn_id sub) (sid sub) tb = false
      | _ => True
      end
  | OpUnsub _ _ _ => True
  end.
Fixpoint ops_fresh (tb : table) (ops : list op) : Prop :=
  match ops with
  | [] => True
  | o :: ops => op_fresh tb o /\ ops_fresh (table_op tb o) ops
  end.

(** The bucket of a pattern. *)
Definition bucket (p : list Token) (tb : table) : list Sub :=
  map snd (filter (fun e => e.1 = p) tb).

(** The trie [t] stores exactly the entries of [tb]. *)
Record refines (t : SubscriptionTrie) (tb : table) : Prop := {
  refines_at : forall p, subs_at p (root t) = bucket p tb;
  refines_stored : stored (root t) = length tb;
  refines_total : len tb <= total_subscriptions t;
  refines_pruned : pruned (root t);
}.

(* ------------------------------------------------------------------ *)
(** * The interface of the publish path *)

(** What a routing table [T] promises the dispatcher: the publisher's
    validation, and one callback per matching entry of the table it stands
    for, in some order. *)
Class RoutingTable (T : Type) := {
  rt_for_each_match : forall {S}, (S -> Sub -> S) -> T -> bytes -> S -> result S SubjectError.t;
  rt_stands_for : T -> table -> Prop;
  rt_match_err : forall S (f : S -> Sub -> S) t subject st e,
    parse_publisher_subject subject = Err e ->
    rt_for_each_match f t subject st = Err e;
  rt_match_ok : forall t tb subject toks,
    rt_stands_for t tb -> parse_publisher_subject subject = Ok toks ->
    exists l, l ≡ₚ table_match toks tb /\
      forall S (f : S -> Sub -> S) st, rt_for_each_match f t subject st = Ok (fold_left f l st);
}.

(* ------------------------------------------------------------------ *)
(** * Buckets *)

Lemma bucket_subscribe q p sub tb :
  bucket q (table_subscribe p sub tb) = bucket q tb ++ (if decide (q = p) then [sub] else []).
Proof.
  unfold bucket, table_subscribe. rewrite filter_app, map_app. f_equal.
  rewrite filter_cons, filter_nil. cbn. by repeat case_decide; simplify_eq.
Qed.

Lemma bucket_unsubscribe q p conn id tb :
  bucket q (table_unsubscribe p conn id tb) =
  if decide (q = p) then retain conn id (bucket q tb) else bucket q tb.
Proof.
  unfold bucket, table_unsubscribe, retain. induction tb as [|[p' s] tb IH]; [by case_decide|].
  rewrite !filter_cons. cbn [fst snd].
  destruct (decide (p' = p /\ is_sub conn id s = true)) as [[-> E]|Hn].
  - rewrite decide_False by tauto. rewrite IH. destruct (decide (q = p)) as [->|Hqp].
    + rewrite decide_True by done. cbn [map snd]. rewrite filter_cons, decide_False by congruence. done.
    + by rewrite decide_False by congruence.
  - rewrite decide_True, filter_cons by tauto. cbn [fst].
    destruct (decide (p' = q)) as [->|Hne]; [|done]. cbn [map snd]. rewrite IH.
    destruct (decide (q = p)) as [->|Hqp]; [|done].
    rewrite filter_cons, decide_True; [done|]. destruct (is_sub conn id s); tauto || done.
Qed.

Lemma length_table_unsubscribe p conn id tb :
  (length (table_unsubscribe p conn id tb) + matching conn id (bucket p tb) = length tb)%nat.
Proof.
  unfold bucket, table_unsubscribe, matching. induction tb as [|[p' s] tb IH]; [done|].
  rewrite !filter_cons. cbn [fst snd].
  destruct (decide (p' = p)) as [->|Hne].
  - cbn [map snd]. rewrite filter_cons. destruct (is_sub conn id s) eqn:E.
    + rewrite decide_False, decide_True by tauto. cbn. lia.
    + rewrite decide_True, decide_False by (intuition congruence). cbn. lia.
  - rewrite decide_True by tauto. cbn. lia.
Qed.

Lemma table_has_matching p conn id tb :
  table_has p conn id tb = bool_decide (matching conn id (bucket p tb) <> O).
Proof.
  unfold table_has, bucket, matching. induction tb as [|[p' s] tb IH]; [done|].
  rewrite filter_cons. cbn [existsb fst snd]. destruct (decide (p' = p)) as [->|Hne].
  - rewrite bool_decide_eq_true_2 by done. cbn [andb map snd]. rewrite filter_cons.
    destruct (is_sub conn id s); cbn [orb]; [by rewrite bool_decide_eq_true_2|].
    by rewrite decide_False by done.
  - rewrite bool_decide_eq_false_2 by done. exact IH.
Qed.

(** The buckets of distinct patterns, together, are the entries of these
    patterns. *)
Lemma buckets_permutation ps tb :
  NoDup ps ->
  concat (map (fun p => bucket p tb) ps) ≡ₚ map snd (filter (fun e => e.1 ∈ ps) tb).
Proof.
  induction 1 as [|p ps Hp Hnd IH]; cbn.
  { induction tb as [|e tb IHt]; [done|]. rewrite filter_cons, decide_False; [done|set_solver]. }
  rewrite IH. clear IH Hnd. unfold bucket. induction tb as [|[q s] tb IH]; [done|].
  rewrite !filter_cons. cbn [fst]. destruct (decide (q = p)) as [->|Hne].
  - rewrite decide_False by done. rewrite decide_True by set_solver. cbn. by rewrite IH.
  - destruct (decide (q ∈ ps)) as [Hq|Hq].
    + rewrite decide_True by set_solver. cbn [map snd]. rewrite <- IH. by rewrite Permutation_middle.
    + rewrite decide_False by set_solver. exact IH.
Qed.

Lemma refines_matches t tb toks :
  refines t tb -> matches toks (root t) ≡ₚ table_match toks tb.
Proof.
  intros Hr. unfold matches, table_match.
  rewrite (map_ext _ (fun p => bucket p tb)) by apply Hr.
  rewrite buckets_permutation by apply covering_NoDup.
  rewrite (list_filter_iff _ (fun e => pattern_matches e.1 toks = true)); [done|].
  intros e. apply covering_spec.
Qed.

(* ------------------------------------------------------------------ *)
(** * The operations refine the table's *)

Lemma refines_new : refines new [].
Proof.
  split; [|done..|apply pruned_default]. intros p. apply subs_at_default.
Qed.

Lemma subscribe_refines t tb subject p sub :
  refines t tb -> total_subscriptions t < usize_max ->
  parse_subscriber_subject subject = Done (Ok p) ->
  exists t', subscribe t subject sub = Done (t', Ok tt) /\
    refines t' (table_subscribe p sub tb) /\
    total_subscriptions t' = total_subscriptions t + 1.
Proof.
  intros [Hat Hst Hto Hpr] Hmax Hp. apply parse_subscriber_Ok in Hp as Hok.
  destruct (subscribe_walk_added p sub (root t)) as (n' & Hw & [Ha Hs Hpn]); [apply Hok|].
  unfold subscribe. rewrite Hp, bind_ret, Hw, bind_ret, uadd_ok, bind_ret by lia.
  eexists. split; [reflexivity|]. split; [|done]. split; cbn [root total_subscriptions].
  - intros q. by rewrite Ha, Hat, bucket_subscribe.
  - rewrite Hs, Hst. unfold table_subscribe. rewrite length_app. cbn. lia.
  - unfold table_subscribe. lens.
  - auto.
Qed.

Lemma unsubscribe_refines t tb subject p conn id :
  refines t tb -> parse_subscriber_subject subject = Done (Ok p) ->
  exists t', unsubscribe t subject conn id = Done (t', table_has p conn id tb) /\
    refines t' (table_unsubscribe p conn id tb) /\
    total_subscriptions t' =
      (if table_has p conn id tb then total_subscriptions t - 1 else total_subscriptions t).
Proof.
  intros [Hat Hst Hto Hpr] Hp. apply parse_subscriber_Ok in Hp as Hok.
  destruct Hok as [(Hne & _ & Hg) _].
  destruct (unsubscribe_walk_removes p conn id (root t) (total_subscriptions t))
    as (n' & total' & removed & Hw & [Ha Hs Hr Ht Hpn]); [done|done|unfold len in Hto; lia|].
  unfold unsubscribe. rewrite Hp, bind_ret, Hw, bind_ret. rewrite Hat in *.
  rewrite <- table_has_matching in Hr. subst removed.
  eexists. split; [reflexivity|]. split; [|done].
  pose proof (length_table_unsubscribe p conn id tb) as Hl.
  split; cbn [root total_subscriptions].
  - intros q. by rewrite Ha, Hat, bucket_unsubscribe.
  - lia.
  - subst total'. rewrite table_has_matching. unfold len in *. case_bool_decide; lia.
  - auto.
Qed.

#[global] Instance trie_routing : RoutingTable SubscriptionTrie.
Proof.
  refine {| rt_for_each_match := @for_each_match; rt_stands_for := refines |}.
  - intros S f t subject st e He. unfold for_each_match. by rewrite He.
  - intros t tb subject toks Hr Ht. exists (matches toks (root t)).
    split; [by apply refines_matches|]. intros S f st. unfold for_each_match.
    by rewrite Ht, walk_match_matches.
Defined.

(* ------------------------------------------------------------------ *)
(** * Sequences of operations *)

(** At most one entry per (pattern, connection, sid): then a removal drops
    one entry and the counter stays exact. *)
Definition distinct (tb : table) : Prop :=
  forall p conn id, (matching conn id (bucket p tb) <= 1)%nat.

Lemma matching_app conn id l k : matching conn id (l ++ k) = (matching conn id l + matching conn id k)%nat.
Proof. unfold matching. by rewrite filter_app, length_app. Qed.

Lemma matching_retain conn id conn' id' l :
  (matching conn id (retain conn' id' l) <= matching conn id l)%nat.
Proof.
  unfold matching, retain. induction l as [|s l IH]; [done|].
  rewrite !filter_cons. repeat case_decide; rewrite ?filter_cons; repeat case_decide;
    cbn; try done; lia.
Qed.

Lemma is_sub_iff conn id s : is_sub conn id s = true <-> conn_id s = conn /\ sid s = id.
Proof. unfold is_sub. by rewrite andb_true_iff, !bool_decide_eq_true. Qed.

Lemma matching_singleton conn id s : (matching conn id [s] <= 1)%nat.
Proof. unfold matching. rewrite filter_cons, filter_nil. case_decide; cbn; lia. Qed.

Lemma distinct_subscribe p sub tb :
  distinct tb -> table_has p (conn_id sub) (sid sub) tb = false ->
  distinct (table_subscribe p sub tb).
Proof.
  intros Hd Hh q conn id. rewrite bucket_subscribe, matching_app. specialize (Hd q conn id).
  case_decide as Hq; cycle 1; [cbn; lia|]. subst q. pose proof (matching_singleton conn id sub).
  destruct (decide (is_sub conn id sub = true)) as [E|E].
  - apply is_sub_iff in E as [<- <-]. rewrite table_has_matching in Hh.
    apply bool_decide_eq_false in Hh. lia.
  - replace (matching conn id [sub]) with O; [lia|]. unfold matching.
    by rewrite filter_cons, decide_False, filter_nil by done.
Qed.

Lemma distinct_unsubscribe p conn id tb : distinct tb -> distinct (table_unsubscribe p conn id tb).
Proof.
  intros Hd q conn' id'. specialize (Hd q conn' id'). rewrite bucket_unsubscribe.
  case_decide; [|done]. pose proof (matching_retain conn' id' conn id (bucket q tb)). lia.
Qed.

(** The counter of [t] counts the entries of [tb]. *)
Definition exact_count (t : SubscriptionTrie) (tb : table) : Prop :=
  distinct tb /\ total_subscriptions t = len tb.

Lemma run_op_refines t tb o :
  refines t tb -> total_subscriptions t < usize_max ->
  exists t', run_op t o = Done t' /\ refines t' (table_op tb o) /\
    total_subscriptions t' <= total_subscriptions t + 1 /\
    (op_fresh tb o -> exact_count t tb -> exact_count t' (table_op tb o)).
Proof.
  intros Hr Hmax.
  destruct o as [subject sub|subject conn id]; unfold run_op, table_op, op_fresh.
  all: destruct (parse_subscriber_done subject) as [[p|e] Hp]; rewrite ?Hp.
  - destruct (subscribe_refines t tb subject p sub) as (t' & -> & Hr' & Ht); [done..|].
    exists t'. split_and!; [done|done|lia|]. intros Hf [Hd Hc].
    split; [by apply distinct_subscribe|]. rewrite Ht, Hc. unfold table_subscribe. lens.
  - exists t. unfold subscribe. rewrite Hp. split_and!; [done|done|lia|done].
  - destruct (unsubscribe_refines t tb subject p conn id) as (t' & -> & Hr' & Ht); [done..|].
    exists t'. split_and!; [done|done|destruct (table_has _ _ _ _); lia|]. intros _ [Hd Hc].
    split; [by apply distinct_unsubscribe|]. rewrite Ht, Hc, table_has_matching.
    pose proof (length_table_unsubscribe p conn id tb). specialize (Hd p conn id).
    unfold len. case_bool_decide; lia.
  - exists t. unfold unsubscribe. rewrite Hp. split_and!; [done|done|lia|done].
Qed.

Lemma run_ops_refines ops t tb :
  refines t tb -> total_subscriptions t + len ops <= usize_max ->
  exists t', run_ops t ops = Done t' /\ refines t' (table_ops tb ops) /\
    (ops_fresh tb ops -> exact_count t tb -> exact_count t' (table_ops tb ops)).
Proof.
  revert t tb. induction ops as [|o ops IH]; intros t tb Hr Hm.
  { exists t. by split_and!. }
  rewrite len_cons in Hm. pose proof (len_nonneg ops).
  destruct (run_op_refines t tb o Hr) as (t1 & H1 & Hr1 & Hm1 & Hc1); [lia|].
  destruct (IH t1 (table_op tb o) Hr1) as (t2 & H2 & Hr2 & Hc2); [lia|].
  exists t2. cbn [run_ops ops_fresh]. rewrite H1, bind_ret. split_and!; [done|done|].
  intros [Hf Hfs] Hc. by apply Hc2; [|apply Hc1].
Qed.

(** C9: the trie refines the flat routing table.  From the empty trie, any
    sequence of subscribe and unsubscribe calls runs without a panic (no
    counter overflow or underflow, no failed [expect], no [unreachable!])
    and leaves a trie that stores exactly the entries of the flat table
    driven by the same calls, bucket by bucket and in order. *)
Theorem trie_refines_table (ops : list op) (Hlen : len ops <= usize_max) :
  exists t, run_ops new ops = Done t /\ refines t (table_ops [] ops).
Proof.
  destruct (run_ops_refines ops new []) as (t & H & Hr & _); [apply refines_new|done|].
  by exists t.
Qed.
Lemma trie_refines_table_witness :
  exists t,
    run_ops new [OpSub (bs "a.*") (mkSub (ConnectionId.new 1) (bs "7") None);
                 OpSub (bs "a.>") (mkSub (ConnectionId.new 2) (bs "8") None);
                 OpUnsub (bs "a.*") (ConnectionId.new 1) (bs "7")] = Done t /\
    refines t (table_ops [] [OpSub (bs "a.*") (mkSub (ConnectionId.new 1) (bs "7") None);
                 OpSub (bs "a.>") (mkSub (ConnectionId.new 2) (bs "8") None);
                 OpUnsub (bs "a.*") (ConnectionId.new 1) (bs "7")]).
Proof. apply trie_refines_table. vm_compute. discriminate. Defined.

(** C10: matching is correct and complete.  On the trie reached by any
    sequence of calls, [for_each_match] refuses the subjects the publisher's
    validation refuses, and otherwise calls back once for each live
    subscription whose pattern matches the subject by the NATS rules
    ([*] one token, [>] one or more trailing tokens) and for no other:
    the callbacks are a permutation of a linear scan of the flat table. *)
Theorem for_each_match_correct (ops : list op) (subject : bytes) (t : SubscriptionTrie)
    (Hlen : len ops <= usize_max) (Hrun : run_ops new ops = Done t) :
  match parse_publisher_subject subject with
  | Err e => for_each_match (fun l s => l ++ [s]) t subject [] = Err e
  | Ok toks => exists l, for_each_match (fun l s => l ++ [s]) t subject [] = Ok l /\
      l ≡ₚ table_match toks (table_ops [] ops)
  end.
Proof.
  destruct (run_ops_refines ops new []) as (t' & H & Hr & _); [apply refines_new|done|].
  rewrite H in Hrun. injection Hrun as ->.
  destruct (parse_publisher_subject subject) as [toks|e] eqn:Ep.
  - destruct (rt_match_ok (RoutingTable := trie_routing) t _ subject toks Hr Ep) as (l & Hl & Hf).
    exists l. split; [|done]. etransitivity; [apply Hf|]. by rewrite fold_left_snoc.
  - by apply (rt_match_err (RoutingTable := trie_routing)).
Qed.
Lemma for_each_match_correct_witness :
  exists t l,
    for_each_match (fun l s => l ++ [s]) t (bs "a.b") [] = Ok l /\
    l ≡ₚ [mkSub (ConnectionId.new 1) (bs "7") None; mkSub (ConnectionId.new 2) (bs "8") None].
Proof.
  eexists. refine (for_each_match_correct
    [OpSub (bs "a.*") (mkSub (ConnectionId.new 1) (bs "7") None);
     OpSub (bs "b.>") (mkSub (ConnectionId.new 2) (bs "9") None);
     OpSub (bs "a.>") (mkSub (ConnectionId.new 2) (bs "8") None)] (bs "a.b") _ _ _).
  - vm_compute. discriminate.
  - vm_compute. reflexivity.
Defined.

(** Unsubscribing reclaims everything: when the calls leave no live
    subscription, the trie is the empty node again, whatever was added and
    removed before; no dead branch is kept. *)
Theorem trie_fully_pruned (ops : list op) (t : SubscriptionTrie)
    (Hlen : len ops <= usize_max) (Hrun : run_ops new ops = Done t)
    (Hnone : table_ops [] ops = []) :
  root t = node.default /\ node.is_empty (root t) = true.
Proof.
  destruct (run_ops_refines ops new []) as (t' & H & [_ Hs _ Hp] & _); [apply refines_new|done|].
  rewrite H in Hrun. injection Hrun as ->. rewrite Hnone in Hs.
  apply pruned_stored_zero in Hp as Hd; [|done]. split; [done|]. by apply is_empty_spec.
Qed.
Lemma trie_fully_pruned_witness :
  exists t, root t = node.default /\ node.is_empty (root t) = true.
Proof.
  eexists. refine (trie_fully_pruned
    [OpSub (bs "a.*.c") (mkSub (ConnectionId.new 1) (bs "7") None);
     OpUnsub (bs "a.*.c") (ConnectionId.new 1) (bs "7")] _ _ _ _).
  - vm_compute. discriminate.
  - vm_compute. reflexivity.
  - vm_compute. reflexivity.
Defined.

(** [total_subscriptions] is exact as long as no connection subscribes
    twice with the same sid to the same subject. *)
Theorem total_subscriptions_exact (ops : list op) (t : SubscriptionTrie)
    (Hlen : len ops <= usize_max) (Hrun : run_ops new ops = Done t) (Hf : ops_fresh [] ops) :
  total_subscriptions t = len (table_ops [] ops).
Proof.
  destruct (run_ops_refines ops new []) as (t' & H & _ & Hc); [apply refines_new|done|].
  rewrite H in Hrun. injection Hrun as ->. apply Hc; [done|].
  split; [|done]. intros p conn id. cbn. lia.
Qed.
Lemma total_subscriptions_exact_witness :
  exists t, total_subscriptions t = 1.
Proof.
  eexists. refine (total_subscriptions_exact
    [OpSub (bs "a") (mkSub (ConnectionId.new 1) (bs "7") None);
     OpSub (bs "a") (mkSub (ConnectionId.new 1) (bs "8") None);
     OpUnsub (bs "a") (ConnectionId.new 1) (bs "7")] _ _ _ _).
  - vm_compute. discriminate.
  - vm_compute. reflexivity.
  - vm_compute. tauto.
Defined.

(** The counter drifts otherwise: [retain] removes every entry of the
    subscription but [total] is decremented once, so after a repeated [SUB]
    and one [UNSUB] the trie is empty and [total_subscriptions] is 1. *)
Theorem total_subscriptions_drifts :
  exists ops t, run_ops new ops = Done t /\ table_ops [] ops = [] /\
    root t = node.default /\ total_subscriptions t = 1.
Proof.
  exists [OpSub (bs "a") (mkSub (ConnectionId.new 1) (bs "7") None);
          OpSub (bs "a") (mkSub (ConnectionId.new 1) (bs "7") None);
          OpUnsub (bs "a") (ConnectionId.new 1) (bs "7")], (mkTrie node.default 1).
  by vm_compute.
Qed.
