(* ===== verification/ConnState.v ===== *)
(** The outbound side of a connection ([aulon-core/src/connection_state.rs]):
    the byte buffer publishers fill and the writer task drains, the close
    reason, and the notification that wakes the writer.

    [tokio::sync::Notify] is not part of the repository; it is the class
    [Notify], with the one fact of its documentation the code relies on in
    [NotifyLaws]. *)
From Stdlib Require Import ZArith Lia Strings.Byte.
From stdpp Require Import base gmap list strings.
From S2P Require Import Prelude Subject.

Module CloseReason.
Inductive t : Type := SlowConsumer | ProtocolError | PeerClosed.
#[global] Instance t_eq_dec : EqDecision t.
Proof. solve_decision. Defined.

Definition err_text (r : t) : option bytes :=
  match r with
  | SlowConsumer => Some (bs "slow consumer")
  | ProtocolError => Some (bs "protocol error")
  | PeerClosed => None
  end.
End CloseReason.

Module EnqueueOutcome.
Inductive t : Type := Ok | SlowConsumerClosed | AlreadyClosing.
#[global] Instance t_eq_dec : EqDecision t.
Proof. solve_decision. Defined.
End EnqueueOutcome.

(** [notify_one] stores a wake-up, [notified] is one poll of
    [Notify::notified]: [None] when the task stays parked, the state left
    when it is woken. *)
Class Notify := {
  notify : Type;
  notify_new : notify;
  notify_one : notify -> notify;
  notified : notify -> option notify;
}.

Definition woken `{Notify} (n : notify) : bool := bool_decide (is_Some (notified n)).

(** A wake-up that nobody waits for is kept for the next waiter. *)
Class NotifyLaws (N : Notify) := {
  notified_after_one : forall n : notify, woken (notify_one n) = true;
}.

(** A [Notify] with a single permit. *)
Definition permit_notify : Notify := {|
  notify := bool;
  notify_new := false;
  notify_one := fun _ => true;
  notified := fun p => if p then Some false else None;
|}.
Lemma permit_laws : NotifyLaws permit_notify.
Proof. constructor. by intros. Defined.

Section ConnectionState.
Context `{N : Notify}.

Record ConnectionState : Type := mkState {
  id : ConnectionId.t;
  outbound_data : bytes;
  outbound_head : Z;
  outbound_tail : Z;
  notify_ : notify;
  close_with : option CloseReason.t;
}.

Definition set_data (st : ConnectionState) (d : bytes) : ConnectionState :=
  mkState (id st) d (outbound_head st) (outbound_tail st) (notify_ st) (close_with st).
Definition set_head (st : ConnectionState) (h : Z) : ConnectionState :=
  mkState (id st) (outbound_data st) h (outbound_tail st) (notify_ st) (close_with st).
Definition set_tail (st : ConnectionState) (t : Z) : ConnectionState :=
  mkState (id st) (outbound_data st) (outbound_head st) t (notify_ st) (close_with st).
Definition set_notify (st : ConnectionState) (n : notify) : ConnectionState :=
  mkState (id st) (outbound_data st) (outbound_head st) (outbound_tail st) n (close_with st).
Definition set_close (st : ConnectionState) (c : option CloseReason.t) : ConnectionState :=
  mkState (id st) (outbound_data st) (outbound_head st) (outbound_tail st) (notify_ st) c.

Definition new (id : ConnectionId.t) (outbound_capacity : Z) : ConnectionState :=
  mkState id (replicate (Z.to_nat outbound_capacity) x00) 0 0 notify_new None.

Definition outbound_capacity (st : ConnectionState) : Z := len (outbound_data st).
Definition pending_bytes (st : ConnectionState) : run Z :=
  (outbound_tail st -! outbound_head st)%usize.

(** [for (i, &b) in bytes.iter().enumerate() { self.outbound_data[tail + i].set(b); }] *)
Fixpoint write_cells (data : bytes) (tail i : Z) (bytes_ : bytes) : run bytes :=
  match bytes_ with
  | [] => mret data
  | b :: rest =>
      at_ ← (tail +! i)%usize;
      data' ← index_set data at_ b;
      write_cells data' tail (i + 1) rest
  end.

Definition enqueue (st : ConnectionState) (bytes_ : bytes) :
    run (ConnectionState * EnqueueOutcome.t) :=
  match close_with st with
  | Some _ => mret (st, EnqueueOutcome.AlreadyClosing)
  | None =>
      let tail := outbound_tail st in
      let needed := len bytes_ in
      if len (outbound_data st) <? saturating_add tail needed then
        let st1 := set_close st (Some CloseReason.SlowConsumer) in
        mret (set_notify st1 (notify_one (notify_ st1)), EnqueueOutcome.SlowConsumerClosed)
      else
        data ← write_cells (outbound_data st) tail 0 bytes_;
        tail' ← (tail +! needed)%usize;
        let st1 := set_tail (set_data st data) tail' in
        mret (set_notify st1 (notify_one (notify_ st1)), EnqueueOutcome.Ok)
  end.

Definition mark_close (st : ConnectionState) (reason : CloseReason.t) : ConnectionState :=
  let st1 := match close_with st with
             | None => set_close st (Some reason)
             | Some _ => st
             end in
  set_notify st1 (notify_one (notify_ st1)).

Definition close_reason (st : ConnectionState) : option CloseReason.t := close_with st.

(** One poll of the future: [None] while the writer stays parked. *)
Definition wait_for_event (st : ConnectionState) : option ConnectionState :=
  set_notify st <$> notified (notify_ st).

(** The copy loop of [drain_into], [k] slots of [dst] to go. *)
Fixpoint read_cells (k : nat) (i : Z) (data : bytes) (head : Z) (dst : bytes) : run bytes :=
  match k with
  | O => mret dst
  | S k =>
      at_ ← (head +! i)%usize;
      b ← index data at_;
      dst' ← index_set dst i b;
      read_cells k (i + 1) data head dst'
  end.

Definition drain_into (st : ConnectionState) (dst : bytes) : run (ConnectionState * bytes * Z) :=
  let head := outbound_head st in
  let tail := outbound_tail st in
  pending ← (tail -! head)%usize;
  let n := Z.min pending (len dst) in
  dst' ← read_cells (Z.to_nat n) 0 (outbound_data st) head dst;
  new_head ← (head +! n)%usize;
  if new_head =? tail
  then mret (set_tail (set_head st 0) 0, dst', n)
  else mret (set_head st new_head, dst', n).

(* ------------------------------------------------------------------ *)
(** * Specification *)

(** The bytes waiting to be sent. *)
Definition pending (st : ConnectionState) : bytes :=
  take (Z.to_nat (outbound_tail st - outbound_head st))
       (drop (Z.to_nat (outbound_head st)) (outbound_data st)).

Record wf (st : ConnectionState) : Prop := {
  wf_head : 0 <= outbound_head st <= outbound_tail st;
  wf_tail : outbound_tail st <= len (outbound_data st);
  wf_cap : slice_ok (outbound_data st);
  wf_reset : outbound_head st = outbound_tail st -> outbound_tail st = 0;
}.

(** Whenever there is something for the writer to do, it will be woken. *)
Definition wakes (st : ConnectionState) : Prop :=
  pending st <> [] \/ close_with st <> None -> woken (notify_ st) = true.

(** What the reader, the publishers and the writer do to a connection. *)
Inductive act : Type :=
| Enqueue (b : bytes)
| MarkClose (r : CloseReason.t)
| Drain (dst : bytes).

(** The state after the actions, the bytes they accepted and those they
    handed to the writer. *)
Fixpoint acts (st : ConnectionState) (l : list act) : run (ConnectionState * bytes * bytes) :=
  match l with
  | [] => mret (st, [], [])
  | Enqueue b :: l =>
      r ← enqueue st b;
      let '(st1, o) := r in
      rest ← acts st1 l;
      let '(st2, acc, out) := rest in
      mret (st2, (if decide (o = EnqueueOutcome.Ok) then b else []) ++ acc, out)
  | MarkClose r :: l => acts (mark_close st r) l
  | Drain dst :: l =>
      r ← drain_into st dst;
      let '(st1, dst', n) := r in
      sent ← slice_to dst' n;
      rest ← acts st1 l;
      let '(st2, acc, out) := rest in
      mret (st2, acc, sent ++ out)
  end.

(* ------------------------------------------------------------------ *)
(** * The buffer *)

Lemma index_set_app (s u : bytes) (c b : byte) i :
  i = len s -> index_set (s ++ c :: u) i b = Done (s ++ b :: u).
Proof.
  intros ->. unfold index_set. zb. rewrite to_nat_len.
  by rewrite insert_app_r_alt, Nat.sub_diag by done.
Qed.
Lemma index_app (s u : bytes) (c : byte) i : i = len s -> index (s ++ c :: u) i = Done c.
Proof.
  intros ->. unfold index. zb. rewrite to_nat_len.
  by rewrite lookup_app_r, Nat.sub_diag by done.
Qed.

Lemma write_cells_app (b s t u : bytes) tail i :
  tail + i = len s -> len t = len b -> len s + len b <= usize_max ->
  write_cells (s ++ t ++ u) tail i b = Done (s ++ b ++ u).
Proof.
  revert s t i. induction b as [|c b IH]; intros s t i Hs Ht Hm; cbn [write_cells].
  - apply len_zero in Ht as ->. done.
  - destruct t as [|c' t]; [lens|]. rewrite uadd_ok by lens. cbn [app].
    rewrite bind_ret, index_set_app by done. rewrite bind_ret.
    replace (s ++ c :: t ++ u) with ((s ++ [c]) ++ t ++ u) by by rewrite <- app_assoc.
    rewrite IH by lens. by rewrite <- app_assoc.
Qed.

Lemma read_cells_app (b s u d t v : bytes) head i :
  head + i = len s -> i = len d -> len t = len b -> len s + len b <= usize_max ->
  read_cells (length b) i (s ++ b ++ u) head (d ++ t ++ v) = Done (d ++ b ++ v).
Proof.
  revert s d t i. induction b as [|c b IH]; intros s d t i Hs Hi Ht Hm; cbn [read_cells length].
  - apply len_zero in Ht as ->. done.
  - destruct t as [|c' t]; [lens|]. rewrite uadd_ok by lens. cbn [app].
    rewrite bind_ret, index_app by done. rewrite bind_ret, index_set_app by done. rewrite bind_ret.
    replace (s ++ c :: b ++ u) with ((s ++ [c]) ++ b ++ u) by by rewrite <- app_assoc.
    replace (d ++ c :: t ++ v) with ((d ++ [c]) ++ t ++ v) by by rewrite <- app_assoc.
    rewrite IH by lens. by rewrite <- app_assoc.
Qed.

(** A well-formed buffer is a consumed part, the pending bytes and room. *)
Lemma wf_split st :
  wf st ->
  exists u v, outbound_data st = u ++ pending st ++ v /\ len u = outbound_head st /\
    len u + len (pending st) = outbound_tail st.
Proof.
  intros [H1 H2 _ _].
  exists (take (Z.to_nat (outbound_head st)) (outbound_data st)),
    (drop (Z.to_nat (outbound_tail st - outbound_head st))
       (drop (Z.to_nat (outbound_head st)) (outbound_data st))).
  unfold pending. rewrite !take_drop. split; [done|]. split; lens.
Qed.
Lemma pending_eq st u p v :
  outbound_data st = u ++ p ++ v -> len u = outbound_head st ->
  len u + len p = outbound_tail st -> pending st = p.
Proof.
  intros Hd Hu Ht. unfold pending. rewrite Hd, <- Hu, <- Ht.
  replace (len u + len p - len u) with (len p) by lia.
  by rewrite !to_nat_len, drop_app_length, take_app_length.
Qed.

Lemma wf_new i cap : 0 <= cap <= isize_max -> wf (new i cap).
Proof.
  intros H. unfold new. constructor; cbn; [lia| |unfold slice_ok|done];
    unfold len; rewrite length_replicate; lia.
Qed.
Lemma new_pending i cap : pending (new i cap) = [].
Proof. reflexivity. Qed.
Lemma new_capacity i cap : 0 <= cap -> outbound_capacity (new i cap) = cap.
Proof. intros. unfold outbound_capacity, new, len. cbn. rewrite length_replicate. lia. Qed.

Lemma enqueue_closing st b r :
  close_with st = Some r -> enqueue st b = Done (st, EnqueueOutcome.AlreadyClosing).
Proof. unfold enqueue. by intros ->. Qed.

Lemma saturating_room st n :
  wf st -> (len (outbound_data st) <? saturating_add (outbound_tail st) n)%Z =
           (len (outbound_data st) <? (outbound_tail st + n))%Z.
Proof.
  intros [_ _ Hc _]. unfold slice_ok in Hc. unfold saturating_add.
  assert (isize_max < usize_max) by done.
  repeat zcase; lia.
Qed.

Definition closed_slow (st : ConnectionState) : ConnectionState :=
  set_notify (set_close st (Some CloseReason.SlowConsumer)) (notify_one (notify_ st)).

Lemma enqueue_slow st b :
  wf st -> close_with st = None -> len (outbound_data st) < outbound_tail st + len b ->
  enqueue st b = Done (closed_slow st, EnqueueOutcome.SlowConsumerClosed).
Proof.
  intros Hwf Hc Hl. unfold enqueue. rewrite Hc, saturating_room by done. by zb.
Qed.

(** [st'] is [st] after [b] was appended and the writer notified. *)
Record appended (b : bytes) (st st' : ConnectionState) : Prop := {
  app_wf : wf st';
  app_pending : pending st' = pending st ++ b;
  app_id : id st' = id st;
  app_cap : len (outbound_data st') = len (outbound_data st);
  app_tail : outbound_tail st' = outbound_tail st + len b;
  app_close : close_with st' = None;
  app_notify : notify_ st' = notify_one (notify_ st);
}.

Lemma enqueue_room st b :
  wf st -> close_with st = None -> outbound_tail st + len b <= len (outbound_data st) ->
  exists st', enqueue st b = Done (st', EnqueueOutcome.Ok) /\ appended b st st'.
Proof.
  intros Hwf Hc Hl. destruct (wf_split st Hwf) as (u & v & Hd & Hu & Ht).
  pose proof Hwf as [H1 H2 H3 H4]. assert (isize_max < usize_max) by done.
  unfold slice_ok in H3.
  set (t := take (length b) v). assert (len t = len b) as Hlt.
  { unfold t. rewrite Hd in Hl. unfold len in *. rewrite !length_app in Hl. rewrite length_take. lia. }
  assert (outbound_data st = (u ++ pending st) ++ t ++ drop (length b) v) as Hd'.
  { unfold t. by rewrite take_drop, <- app_assoc. }
  eexists. split.
  - unfold enqueue. rewrite Hc, saturating_room by done. zb.
    rewrite Hd' at 1. rewrite write_cells_app by lens. rewrite bind_ret, uadd_ok by lia.
    rewrite bind_ret. reflexivity.
  - assert (len ((u ++ pending st) ++ b ++ drop (length b) v) = len (outbound_data st)) as Hlen
      by (rewrite Hd'; lens).
    constructor; cbn [pending id outbound_data outbound_head outbound_tail notify_ close_with
      set_notify set_tail set_data]; try done.
    + constructor; cbn; unfold slice_ok; rewrite ?Hlen; lens.
    + eapply pending_eq with (u := u) (v := drop (length b) v); cbn; [|done|lens].
      by rewrite <- !app_assoc.
Qed.

Lemma enqueue_cases st b :
  wf st ->
  exists st' o, enqueue st b = Done (st', o) /\ wf st' /\
    match o with
    | EnqueueOutcome.Ok => close_with st = None /\
        outbound_tail st + len b <= len (outbound_data st) /\ appended b st st'
    | EnqueueOutcome.SlowConsumerClosed => close_with st = None /\
        len (outbound_data st) < outbound_tail st + len b /\ st' = closed_slow st
    | EnqueueOutcome.AlreadyClosing => close_with st <> None /\ st' = st
    end.
Proof.
  intros Hwf. destruct (close_with st) as [r|] eqn:Hc.
  { eexists _, _. split; [by eapply enqueue_closing|]. done. }
  destruct (Z.le_gt_cases (outbound_tail st + len b) (len (outbound_data st))) as [H|H].
  - destruct (enqueue_room st b Hwf Hc H) as (st' & E & Ha).
    exists st', EnqueueOutcome.Ok. pose proof (app_wf _ _ _ Ha). done.
  - eexists _, _. split; [by apply enqueue_slow|]. split; [|done].
    destruct Hwf. by constructor.
Qed.

Lemma drain_into_spec st dst :
  wf st -> slice_ok dst ->
  let n := Z.min (len (pending st)) (len dst) in
  exists st', drain_into st dst =
      Done (st', take (Z.to_nat n) (pending st) ++ drop (Z.to_nat n) dst, n) /\
    wf st' /\ pending st' = drop (Z.to_nat n) (pending st) /\ id st' = id st /\
    outbound_data st' = outbound_data st /\
    close_with st' = close_with st /\ notify_ st' = notify_ st.
Proof.
  intros Hwf Hdst n. destruct (wf_split st Hwf) as (u & v & Hd & Hu & Ht).
  pose proof Hwf as [H1 H2 H3 H4]. assert (isize_max < usize_max) by done.
  unfold slice_ok in *. set (p := pending st) in *.
  set (k := Z.to_nat n). assert (n = len (take k p)) as Hn by (unfold k; lens).
  assert (Hr : read_cells k 0 (outbound_data st) (outbound_head st) dst = Done (take k p ++ drop k dst)).
  { pose proof (read_cells_app (take k p) u (drop k p ++ v) [] (take k dst) (drop k dst)
      (outbound_head st) 0) as HR.
    rewrite Hd. rewrite <- (take_drop k p) at 1. rewrite <- app_assoc.
    replace k with (length (take k p)) at 1 by (unfold len in *; lia).
    cbn [app] in HR. rewrite take_drop in HR. apply HR; lens. }
  unfold drain_into. rewrite usub_ok by lia. rewrite bind_ret.
  replace (outbound_tail st - outbound_head st) with (len p) by lia. fold n k. rewrite Hr.
  rewrite bind_ret, uadd_ok by lia. rewrite bind_ret.
  assert (0 <= n <= len p) by lens.
  zcase; eexists; (split; [reflexivity|]).
  - split_and!; try done.
    + constructor; cbn; try done; lens.
    + rewrite drop_ge by (unfold len in *; lia). reflexivity.
  - split_and!; try done.
    + constructor; cbn; try done; lens.
    + eapply pending_eq with (u := u ++ take k p) (v := v); cbn; [|lens..].
      by rewrite Hd, <- app_assoc, (app_assoc (take k p)), take_drop.
Qed.

Lemma mark_close_spec st r :
  mark_close st r =
    set_notify (set_close st (Some (default r (close_with st)))) (notify_one (notify_ st)).
Proof. unfold mark_close. destruct st as [? ? ? ? ? []]; reflexivity. Qed.
Lemma mark_close_wf st r : wf st -> wf (mark_close st r).
Proof. rewrite mark_close_spec. intros []. by constructor. Qed.

Definition act_ok (a : act) : Prop := match a with Drain dst => slice_ok dst | _ => True end.

(** What every sequence of actions guarantees. *)
Record acts_ok (st st' : ConnectionState) (acc out : bytes) : Prop := {
  acts_wf : wf st';
  acts_stream : pending st ++ acc = out ++ pending st';
  acts_id : id st' = id st;
  acts_cap : outbound_capacity st' = outbound_capacity st;
  acts_close : forall r, close_with st = Some r -> close_with st' = Some r /\ acc = [];
  acts_wakes : NotifyLaws N -> wakes st -> wakes st';
}.

Lemma acts_spec l st :
  wf st -> Forall act_ok l -> exists st' acc out, acts st l = Done (st', acc, out) /\ acts_ok st st' acc out.
Proof.
  revert st. induction l as [|a l IH]; intros st Hwf Hl; cbn [acts].
  { eexists _, _, _. split; [reflexivity|]. constructor; try done. by rewrite app_nil_r. }
  apply Forall_cons in Hl as [Ha Hl]. destruct a as [b|r|dst].
  - destruct (enqueue_cases st b Hwf) as (st1 & o & E & Hwf1 & Ho).
    destruct (IH st1 Hwf1 Hl) as (st2 & acc & out & E2 & [? Hs Hi Hcap Hc Hw]).
    rewrite E, bind_ret, E2, bind_ret. eexists _, _, _. split; [reflexivity|].
    destruct o; case_decide; try done.
    + destruct Ho as (Hn & _ & [_ Hp ? ? ? ? Hnt]). constructor; try congruence.
      * by rewrite app_assoc, <- Hp.
      * unfold outbound_capacity in *. congruence.
      * intros NL _. apply Hw; [done|]. intros _. rewrite Hnt. apply notified_after_one.
    + destruct Ho as (Hn & _ & ->). constructor; try done.
      * congruence.
      * intros NL _. apply Hw; [done|]. intros _. apply notified_after_one.
    + destruct Ho as (Hn & ->). by constructor.
  - destruct (IH (mark_close st r) (mark_close_wf st r Hwf) Hl)
      as (st2 & acc & out & E2 & [? Hs Hi Hcap Hc Hw]).
    rewrite E2. eexists _, _, _. split; [reflexivity|].
    rewrite mark_close_spec in *. constructor; try done.
    + intros r' E. rewrite E in Hc. by apply Hc.
    + intros NL _. apply Hw; [done|]. intros _. apply notified_after_one.
  - destruct (drain_into_spec st dst Hwf Ha) as (st1 & E & Hwf1 & Hp & Hi1 & Hd1 & Hc1 & Hn1).
    destruct (IH st1 Hwf1 Hl) as (st2 & acc & out & E2 & [? Hs Hi Hcap Hc Hw]).
    set (n := Z.min _ _) in *. set (k := Z.to_nat n) in *.
    rewrite E, bind_ret, slice_to_app, bind_ret, E2, bind_ret by (unfold k, n; lens).
    eexists _, _, _. split; [reflexivity|]. constructor; try congruence.
    + rewrite <- app_assoc, <- Hs, Hp, app_assoc, take_drop. done.
    + unfold outbound_capacity in *. congruence.
    + intros r Hr. apply Hc. congruence.
    + intros NL Hwk. apply Hw; [done|]. intros H. rewrite Hn1. apply Hwk.
      destruct H as [H|H]; [left|right; congruence].
      rewrite Hp in H. intros Hn. rewrite Hn in H. by rewrite drop_nil in H.
Qed.

Lemma acts_ok_refl st : wf st -> acts_ok st st [] [].
Proof. intros Hwf. by constructor; rewrite ?app_nil_r. Qed.
Lemma acts_ok_trans st st1 st2 acc1 acc2 :
  acts_ok st st1 acc1 [] -> acts_ok st1 st2 acc2 [] -> acts_ok st st2 (acc1 ++ acc2) [].
Proof.
  intros [? S1 ? ? C1 ?] [? S2 ? ? C2 ?]. constructor; try congruence; [|auto|auto].
  - rewrite app_assoc, S1. exact S2.
  - intros r Hr. destruct (C1 r Hr) as [Hr1 ->]. by destruct (C2 r Hr1) as [? ->].
Qed.

(* ------------------------------------------------------------------ *)
(** * Reset on drain *)

(** A drain that leaves something moves the head only. *)
Lemma drain_partial st dst :
  wf st -> slice_ok dst -> len dst < len (pending st) ->
  exists dst', drain_into st dst = Done (set_head st (outbound_head st + len dst), dst', len dst) /\
    len dst' = len dst /\ wf (set_head st (outbound_head st + len dst)).
Proof.
  intros Hwf Hd Hl. destruct (drain_into_spec st dst Hwf Hd) as (st' & E & Hwf' & Hp & _).
  rewrite Z.min_r in E, Hp by lia. eexists. assert (st' = set_head st (outbound_head st + len dst)) as Hst.
  { assert (pending st' <> []) as Hne.
    { intros H. rewrite H in Hp. apply (f_equal len) in Hp. lens. }
    unfold drain_into in E. simplify_run. unfold usub, uadd in *.
    destruct (outbound_head st <=? outbound_tail st); [|done]. simplify_run.
    destruct (Z.eqb_spec a1 (outbound_tail st)); simplify_run; [by destruct Hne..|].
    destruct (_ <=? usize_max); [|done]. simplify_run. congruence. }
  rewrite <- Hst. split_and!; [exact E|lens|done].
Qed.

(** A subscriber that is sent [d] bytes and takes [d] bytes, over and over,
    with one byte always on the way. *)
Fixpoint keeping_up (d : nat) (rounds : nat) : list act :=
  match rounds with
  | O => [Enqueue [x00]]
  | S rounds => keeping_up d rounds ++ [Enqueue (replicate d x00); Drain (replicate d x00)]
  end.

Lemma acts_app l1 l2 st st1 acc1 out1 st2 acc2 out2 :
  acts st l1 = Done (st1, acc1, out1) -> acts st1 l2 = Done (st2, acc2, out2) ->
  acts st (l1 ++ l2) = Done (st2, acc1 ++ acc2, out1 ++ out2).
Proof.
  revert st acc1 out1. induction l1 as [|a l1 IH]; intros st acc1 out1 E1 E2.
  { injection E1 as <- <- <-. exact E2. }
  destruct a as [b|r|dst]; cbn [app acts] in *.
  - destruct (enqueue st b) as [[sta o]|]; [|done]. cbn in E1 |- *.
    destruct (acts sta l1) as [[[stb accb] outb]|] eqn:Eb; [|done]. cbn in E1. injection E1 as <- <- <-.
    rewrite (IH sta accb outb Eb E2). cbn. by rewrite app_assoc.
  - by apply IH.
  - destruct (drain_into st dst) as [[[sta dst'] n]|]; [|done]. cbn in E1 |- *.
    destruct (slice_to dst' n) as [sent|]; [|done]. cbn in E1 |- *.
    destruct (acts sta l1) as [[[stb accb] outb]|] eqn:Eb; [|done]. cbn in E1. injection E1 as <- <- <-.
    rewrite (IH sta accb outb Eb E2). cbn. by rewrite app_assoc.
Qed.

(** The state after some rounds: one byte is pending, at the end of what was
    ever written. *)
Record creeping (cap tail : Z) (st : ConnectionState) : Prop := {
  cr_wf : wf st;
  cr_open : close_with st = None;
  cr_cap : len (outbound_data st) = cap;
  cr_tail : outbound_tail st = tail;
  cr_one : len (pending st) = 1;
}.

Lemma creeping_round cap tail st d :
  creeping cap tail st -> 0 < Z.of_nat d -> tail + Z.of_nat d <= cap ->
  exists st' acc out, acts st [Enqueue (replicate d x00); Drain (replicate d x00)] = Done (st', acc, out) /\
    creeping cap (tail + Z.of_nat d) st'.
Proof.
  intros [Hwf Hc Hcap Ht H1] Hd Hroom. assert (len (replicate d x00) = Z.of_nat d) as Hlen
    by (unfold len; by rewrite length_replicate).
  destruct (enqueue_room st (replicate d x00) Hwf Hc) as (st1 & E1 & Ha); [lia|].
  pose proof (wf_cap _ Hwf) as Hok. unfold slice_ok in Hok.
  destruct (drain_partial st1 (replicate d x00)) as (dst' & E2 & Hl' & Hwf2).
  { by destruct Ha. }
  { pose proof (wf_tail _ Hwf). pose proof (wf_head _ Hwf). unfold slice_ok. lia. }
  { rewrite (app_pending _ _ _ Ha). lens. }
  assert (slice_to dst' (len (replicate d x00)) = Done dst') as Es by (rewrite <- Hl'; apply slice_to_full).
  eexists _, _, _. split.
  { cbn [acts]. rewrite E1, bind_ret, E2, bind_ret, Es, bind_ret. reflexivity. }
  destruct Ha as [Hw1 Hp1 _ Hc1 Ht1 Ho1 _]. constructor; cbn; [done|done|congruence|congruence|].
  assert (len (pending st1) = 1 + Z.of_nat d) as Hp by (rewrite Hp1; lens).
  unfold pending in Hp |- *. cbn. pose proof (wf_head _ Hw1). pose proof (wf_tail _ Hw1).
  rewrite !len_take, !len_drop in *. lia.
Qed.

Lemma creeping_rounds i cap d k :
  0 < Z.of_nat d -> 1 + Z.of_nat k * Z.of_nat d <= cap <= isize_max ->
  exists st acc out, acts (new i cap) (keeping_up d k) = Done (st, acc, out) /\
    creeping cap (1 + Z.of_nat k * Z.of_nat d) st.
Proof.
  intros Hd. induction k as [|k IH]; intros Hk.
  - assert (0 <= cap <= isize_max) as Hc by lia. pose proof (wf_new i cap Hc) as Hwf.
    destruct (enqueue_room (new i cap) [x00] Hwf eq_refl) as (st & E & []).
    { unfold len. cbn. rewrite length_replicate. lia. }
    eexists st, _, _. split; [cbn [keeping_up acts]; rewrite E; reflexivity|].
    constructor; [done|done| |done|].
    + rewrite app_cap0. cbn. unfold len. rewrite length_replicate. lia.
    + by rewrite app_pending0, new_pending.
  - destruct IH as (st & acc & out & E & Hcr); [lia|].
    destruct (creeping_round cap _ st d Hcr Hd) as (st' & acc' & out' & E' & Hcr'); [lia|].
    exists st', (acc ++ acc'), (out ++ out'). split; [by eapply acts_app|].
    by replace (1 + Z.of_nat (S k) * Z.of_nat d) with (1 + Z.of_nat k * Z.of_nat d + Z.of_nat d) by lia.
Qed.

(* ------------------------------------------------------------------ *)
(** * Properties *)

(** C27.  The outbound buffer is a byte stream: whatever interleaving of
    enqueues, closes and drains runs, no index or arithmetic panics, the
    buffer stays well-formed, and the bytes pending before followed by the
    bytes the enqueues accepted are exactly the bytes drained followed by
    the bytes pending after: nothing is lost, duplicated or reordered.  A
    close reason once set never changes, and nothing is accepted after it. *)
Theorem outbound_is_a_stream st l :
  wf st -> Forall act_ok l ->
  exists st' acc out, acts st l = Done (st', acc, out) /\ wf st' /\
    pending st ++ acc = out ++ pending st' /\
    (forall r, close_with st = Some r -> close_with st' = Some r /\ acc = []).
Proof.
  intros Hwf Hl. destruct (acts_spec l st Hwf Hl) as (st' & acc & out & E & []). eauto 10.
Qed.

(** [enqueue] is all or nothing, and evicts exactly on overflow: on a
    closing connection it changes nothing; when the bytes do not fit after
    the tail it closes the connection as a slow consumer, the pending bytes
    kept; otherwise it appends all of them.  On a connection whose buffer was
    drained it evicts only for a message longer than the whole buffer. *)
Theorem enqueue_evicts_exactly_on_overflow st b :
  wf st ->
  exists st' o, enqueue st b = Done (st', o) /\
    match o with
    | EnqueueOutcome.Ok => close_with st = None /\
        outbound_tail st + len b <= outbound_capacity st /\
        pending st' = pending st ++ b /\ close_with st' = None
    | EnqueueOutcome.SlowConsumerClosed => close_with st = None /\
        outbound_capacity st < outbound_tail st + len b /\
        (pending st = [] -> outbound_capacity st < len b) /\
        pending st' = pending st /\ close_with st' = Some CloseReason.SlowConsumer
    | EnqueueOutcome.AlreadyClosing => close_with st <> None /\ st' = st
    end.
Proof.
  intros Hwf. destruct (enqueue_cases st b Hwf) as (st' & o & E & _ & Ho).
  exists st', o. split; [done|]. destruct o; [|destruct Ho as (? & ? & ->)|done].
  - destruct Ho as (? & ? & []). done.
  - split_and!; try done. intros Hp. destruct (wf_split st Hwf) as (u & v & _ & Hu & Ht).
    rewrite Hp in Ht. destruct Hwf as [_ _ _ Hr]. unfold outbound_capacity.
    assert (outbound_tail st = 0) by (apply Hr; lens). lia.
Qed.

(** C28.  The buffer is reset only when it is drained empty, so a subscriber
    that keeps up is evicted all the same.  For any capacity and any message
    length [d], a subscriber that takes [d] bytes for every [d] bytes it is
    sent, with one byte always outstanding, has one byte pending after every
    round until the tail has crept to the end of the buffer; the next message
    then closes it as a slow consumer. *)
Theorem keeping_up_is_evicted i cap d :
  0 < Z.of_nat d -> 1 + Z.of_nat d <= cap <= isize_max ->
  let rounds := Z.to_nat ((cap - 1) / Z.of_nat d) in
  (forall k, (k <= rounds)%nat -> exists st acc out,
    acts (new i cap) (keeping_up d k) = Done (st, acc, out) /\ close_with st = None /\ len (pending st) = 1) /\
  exists st acc out, acts (new i cap) (keeping_up d rounds ++ [Enqueue (replicate d x00)]) = Done (st, acc, out) /\
    close_with st = Some CloseReason.SlowConsumer /\ len (pending st) = 1.
Proof.
  intros Hd Hc rounds. assert (Z.of_nat rounds = (cap - 1) / Z.of_nat d) as Hr.
  { unfold rounds. rewrite Z2Nat.id; [done|]. apply Z.div_pos; lia. }
  pose proof (Z.div_mod (cap - 1) (Z.of_nat d) ltac:(lia)) as Hdm.
  pose proof (Z.mod_pos_bound (cap - 1) (Z.of_nat d) ltac:(lia)) as Hm. rewrite <- Hr in Hdm. split.
  - intros k Hk. destruct (creeping_rounds i cap d k) as (st & acc & out & E & []); [done|nia|]. eauto 10.
  - destruct (creeping_rounds i cap d rounds) as (st & acc & out & E & [Hwf Ho Hcap Ht H1]); [done|lia|].
    eexists _, _, _. split.
    + eapply acts_app; [exact E|]. cbn [acts]. rewrite enqueue_slow; [reflexivity|done..|].
      unfold len at 2. rewrite length_replicate. lia.
    + by split.
Qed.

(** No wake-up is lost on the sender's side: if a connection that has
    work for its writer (pending bytes or a close reason) has a notification
    stored, it still has after any sequence of enqueues, closes and drains;
    the initial state qualifies since it has no work. *)
Theorem writer_notified_while_work_pending st l st' acc out :
  NotifyLaws N -> wf st -> Forall act_ok l -> wakes st ->
  acts st l = Done (st', acc, out) ->
  (pending st' <> [] \/ close_with st' <> None) -> is_Some (wait_for_event st').
Proof.
  intros NL Hwf Hl Hw E H. destruct (acts_spec l st Hwf Hl) as (? & ? & ? & E' & []).
  rewrite E in E'. simplify_run. specialize (acts_wakes0 NL Hw H).
  unfold woken in *. apply bool_decide_eq_true in acts_wakes0 as [n Hn].
  unfold wait_for_event. rewrite Hn. by eexists.
Qed.
End ConnectionState.
Arguments ConnectionState N : clear implicits.

Definition ex_conn : ConnectionState permit_notify := new (ConnectionId.new 7) 8.
Definition ex_acts : list act :=
  [Enqueue (bs "hello"); Drain (bs "..."); Enqueue (bs "abc"); Enqueue (bs "x"); Drain (bs ".")].

Lemma outbound_is_a_stream_witness :
  exists st' acc out, acts ex_conn ex_acts = Done (st', acc, out) /\ wf st' /\
    pending ex_conn ++ acc = out ++ pending st' /\
    (forall r, close_with ex_conn = Some r -> close_with st' = Some r /\ acc = []).
Proof.
  apply (outbound_is_a_stream ex_conn ex_acts).
  - apply wf_new. by vm_compute.
  - repeat constructor; by vm_compute.
Defined.

Lemma enqueue_evicts_exactly_on_overflow_witness :
  exists st' o, enqueue ex_conn (bs "ninebytes") = Done (st', o) /\
    match o with
    | EnqueueOutcome.Ok => close_with ex_conn = None /\
        outbound_tail ex_conn + len (bs "ninebytes") <= outbound_capacity ex_conn /\
        pending st' = pending ex_conn ++ bs "ninebytes" /\ close_with st' = None
    | EnqueueOutcome.SlowConsumerClosed => close_with ex_conn = None /\
        outbound_capacity ex_conn < outbound_tail ex_conn + len (bs "ninebytes") /\
        (pending ex_conn = [] -> outbound_capacity ex_conn < len (bs "ninebytes")) /\
        pending st' = pending ex_conn /\ close_with st' = Some CloseReason.SlowConsumer
    | EnqueueOutcome.AlreadyClosing => close_with ex_conn <> None /\ st' = ex_conn
    end.
Proof. apply (enqueue_evicts_exactly_on_overflow ex_conn). apply wf_new. by vm_compute. Defined.

Lemma keeping_up_is_evicted_witness :
  (forall k, (k <= 2)%nat -> exists st acc out,
    acts ex_conn (keeping_up 3 k) = Done (st, acc, out) /\ close_with st = None /\ len (pending st) = 1) /\
  exists st acc out, acts ex_conn (keeping_up 3 2 ++ [Enqueue (replicate 3 x00)]) = Done (st, acc, out) /\
    close_with st = Some CloseReason.SlowConsumer /\ len (pending st) = 1.
Proof. apply (keeping_up_is_evicted (N := permit_notify) (ConnectionId.new 7) 8 3); [done|by vm_compute]. Defined.

Lemma writer_notified_while_work_pending_witness :
  exists st', acts ex_conn ex_acts = Done (st', bs "helloabc", bs "hell") /\
    is_Some (wait_for_event st').
Proof.
  eexists. split; [vm_compute; reflexivity|].
  apply (writer_notified_while_work_pending ex_conn ex_acts _ (bs "helloabc") (bs "hell")
    permit_laws).
  - apply wf_new. by vm_compute.
  - repeat constructor; by vm_compute.
  - intros [H|H]; by destruct H.
  - vm_compute. reflexivity.
  - left. by vm_compute.
Defined.
