(* ===== verification/ShardInbox.v ===== *)
(** The cross-shard inbox ([aulon-core/src/shard_inbox.rs]): a bounded ring
    with one sequence number per slot and 64-bit counters that wrap.

    [push] and [pop] are programs of single atomic accesses ([push_step],
    [pop_step]); here they run alone and are shown to implement a bounded
    FIFO queue across the wrap-around of the counters.  [InboxConc] interleaves
    the same steps. *)
From Stdlib Require Import ZArith Lia Strings.Byte.
From stdpp Require Import base gmap list strings.
From S2P Require Import Prelude.

(** A publication on its way to a peer shard. *)
Record PublishedFrame : Type := mkPublished {
  subject : bytes;
  reply_to : option bytes;
  payload : bytes;
}.

Section Inbox.
Context {T : Type}.

(** [val] is [None] while the cell is uninitialised (never written, or moved
    out by [slot_read]). *)
Record Slot : Type := mkSlot { seq : Z; val : option T }.

Record ShardInbox : Type := mkInbox {
  mask : Z;
  cells : list Slot;
  tail : Z;
  head : Z;
}.

Definition set_cells (m : ShardInbox) (c : list Slot) : ShardInbox :=
  mkInbox (mask m) c (tail m) (head m).
Definition set_tail (m : ShardInbox) (t : Z) : ShardInbox :=
  mkInbox (mask m) (cells m) t (head m).
Definition set_head (m : ShardInbox) (h : Z) : ShardInbox :=
  mkInbox (mask m) (cells m) (tail m) h.

(** [usize::next_power_of_two]: panics when the result does not fit. *)
Definition next_power_of_two (n : Z) : run Z :=
  let p := 2 ^ Z.log2_up n in if p <=? usize_max then Done p else Panic.

Definition with_capacity (requested_capacity : Z) : run ShardInbox :=
  cap ← next_power_of_two (Z.max requested_capacity 2);
  let cells := map (fun i => mkSlot (Z.of_nat i) None) (List.seq 0 (Z.to_nat cap)) in
  mask ← (cap -! 1)%usize;
  mret (mkInbox mask cells 0 0).

Definition capacity (m : ShardInbox) : Z := len (cells m).

(** [&self.cells[c & self.mask]] *)
Definition slot_index (m : ShardInbox) (c : Z) : Z := Z.land c (mask m).
Definition slot_at (m : ShardInbox) (c : Z) : run Slot := index (cells m) (slot_index m c).

(** [slot.seq.store(s)] on the slot of counter [c]. *)
Definition store_seq (m : ShardInbox) (c s : Z) : run ShardInbox :=
  slot ← slot_at m c;
  cs ← index_set (cells m) (slot_index m c) (mkSlot s (val slot));
  mret (set_cells m cs).

Definition slot_write (m : ShardInbox) (c : Z) (v : T) : run ShardInbox :=
  slot ← slot_at m c;
  cs ← index_set (cells m) (slot_index m c) (mkSlot (seq slot) (Some v));
  mret (set_cells m cs).

(** [assume_init_read]: moves the value out; undefined (here [Panic]) on an
    uninitialised cell. *)
Definition slot_read (m : ShardInbox) (c : Z) : run (ShardInbox * T) :=
  slot ← slot_at m c;
  v ← expect (val slot);
  cs ← index_set (cells m) (slot_index m c) (mkSlot (seq slot) None);
  mret (set_cells m cs, v).

(** Where a producer is in [push]: about to perform the named access. *)
Inductive push_pc : Type :=
| PLoadTail
| PLoadSeq (tail : Z)
| PCas (tail : Z)
| PWrite (tail : Z)
| PStoreSeq (tail : Z)
| PLoadHead (tail : Z)
| PReturn (r : result bool T).

(** One atomic access of [push value]; [spurious] is whether a
    [compare_exchange_weak] performed now fails for no reason. *)
Definition push_step (spurious : bool) (value : T) (m : ShardInbox) (pc : push_pc) :
    run (ShardInbox * push_pc) :=
  match pc with
  | PLoadTail => mret (m, PLoadSeq (tail m))
  | PLoadSeq t =>
      slot ← slot_at m t;
      let diff := as_isize (wrapping_sub (seq slot) t) in
      match diff ?= 0 with
      | Eq => mret (m, PCas t)
      | Lt => mret (m, PReturn (Err value))
      | Gt => mret (m, PLoadTail)
      end
  | PCas t =>
      if (tail m =? t) && negb spurious
      then mret (set_tail m (wrapping_add t 1), PWrite t)
      else mret (m, PLoadSeq (tail m))
  | PWrite t =>
      m' ← slot_write m t value;
      mret (m', PStoreSeq t)
  | PStoreSeq t =>
      m' ← store_seq m t (wrapping_add t 1);
      mret (m', PLoadHead t)
  | PLoadHead t => mret (m, PReturn (Ok (head m =? t)))
  | PReturn r => mret (m, PReturn r)
  end.

(** Where the consumer is in [pop]. *)
Inductive pop_pc : Type :=
| CLoadHead
| CLoadSeq (head : Z)
| CRead (head : Z)
| CStoreSeq (head : Z) (v : T)
| CStoreHead (head : Z) (v : T)
| CReturn (r : option T).

Definition pop_step (m : ShardInbox) (pc : pop_pc) : run (ShardInbox * pop_pc) :=
  match pc with
  | CLoadHead => mret (m, CLoadSeq (head m))
  | CLoadSeq h =>
      slot ← slot_at m h;
      let diff := as_isize (wrapping_sub (seq slot) (wrapping_add h 1)) in
      if diff =? 0 then mret (m, CRead h) else mret (m, CReturn None)
  | CRead h =>
      r ← slot_read m h;
      mret (r.1, CStoreSeq h r.2)
  | CStoreSeq h v =>
      n ← (mask m +! 1)%usize;
      m' ← store_seq m h (wrapping_add h n);
      mret (m', CStoreHead h v)
  | CStoreHead h v => mret (set_head m (wrapping_add h 1), CReturn (Some v))
  | CReturn r => mret (m, CReturn r)
  end.

(** A push running alone: [weak] tells which of its [compare_exchange_weak]s
    fail spuriously (none after the list ends). *)
Fixpoint push_from (fuel : nat) (weak : list bool) (value : T) (m : ShardInbox) (pc : push_pc) :
    run (ShardInbox * result bool T) :=
  match pc, fuel with
  | PReturn r, _ => mret (m, r)
  | _, O => Panic
  | PCas t, S fuel =>
      s ← push_step (hd false weak) value m pc;
      push_from fuel (tl weak) value s.1 s.2
  | _, S fuel =>
      s ← push_step false value m pc;
      push_from fuel weak value s.1 s.2
  end.
(** Six accesses, and two more for every spurious failure. *)
Definition push (weak : list bool) (m : ShardInbox) (value : T) :
    run (ShardInbox * result bool T) :=
  push_from (6 + 2 * length weak) weak value m PLoadTail.

Fixpoint pop_from (fuel : nat) (m : ShardInbox) (pc : pop_pc) : run (ShardInbox * option T) :=
  match pc, fuel with
  | CReturn r, _ => mret (m, r)
  | _, O => Panic
  | _, S fuel => s ← pop_step m pc; pop_from fuel s.1 s.2
  end.
Definition pop (m : ShardInbox) : run (ShardInbox * option T) := pop_from 5 m CLoadHead.

Definition is_empty (m : ShardInbox) : run bool :=
  let h := head m in
  slot ← slot_at m h;
  mret (negb (seq slot =? wrapping_add h 1)).

(** [Drop]: pops until the inbox is empty, returning what is dropped.
    [fuel] bounds the pops. *)
Fixpoint drop_inbox (fuel : nat) (m : ShardInbox) : run (ShardInbox * list T) :=
  match fuel with
  | O => Panic
  | S fuel =>
      r ← pop m;
      match r.2 with
      | None => mret (r.1, [])
      | Some v => rest ← drop_inbox fuel r.1; mret (rest.1, v :: rest.2)
      end
  end.

(* ------------------------------------------------------------------ *)
(** * Specification *)

(** The ring holds [q], its oldest element at logical position [h]; the
    counters are the positions modulo 2^64. *)
Definition slot_for (q : list T) (h j : Z) : Slot :=
  match q !! Z.to_nat (j - h) with
  | Some v => mkSlot (wrap64 (j + 1)) (Some v)
  | None => mkSlot (wrap64 j) None
  end.

Record holds (m : ShardInbox) (k : Z) (h : Z) (q : list T) : Prop := {
  h_k : 1 <= k <= 62;
  h_pos : 0 <= h;
  h_mask : mask m = 2 ^ k - 1;
  h_len : len (cells m) = 2 ^ k;
  h_head : head m = wrap64 h;
  h_tail : tail m = wrap64 (h + len q);
  h_room : len q <= 2 ^ k;
  h_slots : forall j, h <= j < h + 2 ^ k ->
    cells m !! Z.to_nat (j mod 2 ^ k) = Some (slot_for q h j);
}.

(* ------------------------------------------------------------------ *)
(** * Wrapping counters *)

Lemma wrap64_add a b : wrapping_add (wrap64 a) b = wrap64 (a + b).
Proof. unfold wrapping_add, wrap64. by rewrite Zplus_mod_idemp_l. Qed.
Lemma wrap64_sub a b : wrapping_sub (wrap64 a) (wrap64 b) = wrap64 (a - b).
Proof. unfold wrapping_sub, wrap64. by rewrite Zminus_mod_idemp_l, Zminus_mod_idemp_r. Qed.

(** The signed reading of a wrapped difference is the difference. *)
Lemma as_isize_wrap d : - 2 ^ 63 <= d < 2 ^ 63 -> as_isize (wrap64 d) = d.
Proof.
  intros H. unfold as_isize, wrap64, isize_max. destruct (Z.lt_ge_cases d 0) as [Hd|Hd].
  - replace (d mod 2 ^ 64) with (d + 2 ^ 64).
    + rewrite (proj2 (Z.leb_gt _ _)) by lia. lia.
    + apply (Z.mod_unique d (2 ^ 64) (-1)); lia.
  - rewrite Z.mod_small by lia. rewrite (proj2 (Z.leb_le _ _)) by lia. done.
Qed.
Lemma mod_inj_window p a b : 0 < p -> a mod p = b mod p -> - p < a - b < p -> a = b.
Proof.
  intros Hp E H. assert (p <> 0) as Hn by lia.
  pose proof (Z.div_mod a p Hn). pose proof (Z.div_mod b p Hn).
  assert (a / p = b / p) by nia. nia.
Qed.
Lemma wrap64_inj a b : - 2 ^ 64 < a - b < 2 ^ 64 -> wrap64 a = wrap64 b -> a = b.
Proof.
  intros H E. by apply (mod_inj_window (2 ^ 64)).
Qed.
Lemma wrap64_eqb a b : - 2 ^ 64 < a - b < 2 ^ 64 -> (wrap64 a =? wrap64 b)%Z = (a =? b)%Z.
Proof.
  intros H. destruct (Z.eqb_spec a b) as [->|Hn]; [apply Z.eqb_refl|].
  apply Z.eqb_neq. intros E. by apply Hn, wrap64_inj.
Qed.

(* ------------------------------------------------------------------ *)
(** * The ring *)

Record ring (m : ShardInbox) (k : Z) : Prop := {
  ring_k : 1 <= k <= 62;
  ring_mask : mask m = 2 ^ k - 1;
  ring_len : len (cells m) = 2 ^ k;
}.

(** The cell of logical position [j]. *)
Definition pos (k j : Z) : nat := Z.to_nat (j mod 2 ^ k).
Definition set_slot (m : ShardInbox) (k j : Z) (s : Slot) : ShardInbox :=
  set_cells m (<[pos k j := s]> (cells m)).

Lemma pow_bounds k : 1 <= k <= 62 -> 2 <= 2 ^ k <= 2 ^ 62.
Proof.
  intros H. split; [apply (Z.pow_le_mono_r 2 1 k)|apply Z.pow_le_mono_r]; lia.
Qed.

Lemma slot_index_wrap m k j : ring m k -> slot_index m (wrap64 j) = j mod 2 ^ k.
Proof.
  intros [Hk Hm _]. unfold slot_index. rewrite Hm.
  replace (2 ^ k - 1) with (Z.ones k) by (rewrite Z.ones_equiv; lia).
  rewrite Z.land_ones by lia. unfold wrap64. apply Z.mod_mod_divide.
  exists (2 ^ (64 - k)). rewrite <- Z.pow_add_r by lia. f_equal. lia.
Qed.

Lemma pos_lt m k j : ring m k -> (pos k j < length (cells m))%nat.
Proof.
  intros [Hk _ Hl]. pose proof (pow_bounds k Hk). unfold len in Hl. unfold pos.
  pose proof (Z.mod_pos_bound j (2 ^ k)). lia.
Qed.

Lemma slot_at_wrap m k j s :
  ring m k -> cells m !! pos k j = Some s -> slot_at m (wrap64 j) = Done s.
Proof.
  intros Hr Hs. unfold slot_at, index. rewrite (slot_index_wrap m k) by done.
  pose proof (pow_bounds k (ring_k m k Hr)).
  rewrite (proj2 (Z.leb_le _ _)) by (apply Z.mod_pos_bound; lia).
  unfold pos in Hs. by rewrite Hs.
Qed.

Lemma index_set_wrap m k j s :
  ring m k ->
  index_set (cells m) (slot_index m (wrap64 j)) s = Done (<[pos k j := s]> (cells m)).
Proof.
  intros Hr. unfold index_set. rewrite (slot_index_wrap m k) by done.
  pose proof (pow_bounds k (ring_k m k Hr)). pose proof (Z.mod_pos_bound j (2 ^ k)).
  rewrite (ring_len m k Hr). by zb.
Qed.

Lemma store_seq_wrap m k j s x :
  ring m k -> cells m !! pos k j = Some s ->
  store_seq m (wrap64 j) x = Done (set_slot m k j (mkSlot x (val s))).
Proof.
  intros Hr Hs. unfold store_seq. rewrite (slot_at_wrap m k j s) by done.
  rewrite bind_ret, (index_set_wrap m k) by done. done.
Qed.
Lemma slot_write_wrap m k j s v :
  ring m k -> cells m !! pos k j = Some s ->
  slot_write m (wrap64 j) v = Done (set_slot m k j (mkSlot (seq s) (Some v))).
Proof.
  intros Hr Hs. unfold slot_write. rewrite (slot_at_wrap m k j s) by done.
  rewrite bind_ret, (index_set_wrap m k) by done. done.
Qed.
Lemma slot_read_wrap m k j s v :
  ring m k -> cells m !! pos k j = Some s -> val s = Some v ->
  slot_read m (wrap64 j) = Done (set_slot m k j (mkSlot (seq s) None), v).
Proof.
  intros Hr Hs Hv. unfold slot_read. rewrite (slot_at_wrap m k j s) by done.
  rewrite bind_ret, Hv. cbn [expect]. rewrite bind_ret, (index_set_wrap m k) by done. done.
Qed.

Lemma ring_set_slot m k j s : ring m k -> ring (set_slot m k j s) k.
Proof. intros []. constructor; cbn; [done..|]. by rewrite len_insert. Qed.
Lemma cells_set_slot m k j s :
  ring m k -> cells (set_slot m k j s) !! pos k j = Some s.
Proof. intros Hr. cbn. apply list_lookup_insert_eq. by apply pos_lt. Qed.
Lemma cells_set_slot_ne m k i j s :
  1 <= k -> - 2 ^ k < i - j < 2 ^ k -> i <> j ->
  cells (set_slot m k j s) !! pos k i = cells m !! pos k i.
Proof.
  intros Hk Hw Hn. cbn. apply list_lookup_insert_ne. unfold pos. intros E. apply Hn.
  assert (0 < 2 ^ k) by (apply Z.pow_pos_nonneg; lia).
  pose proof (Z.mod_pos_bound i (2 ^ k)). pose proof (Z.mod_pos_bound j (2 ^ k)).
  apply (mod_inj_window (2 ^ k)); lia.
Qed.
Lemma set_slot_twice m k j s s' : set_slot (set_slot m k j s) k j s' = set_slot m k j s'.
Proof. unfold set_slot, set_cells. cbn. f_equal. apply list_insert_insert_eq. Qed.

(* ------------------------------------------------------------------ *)
(** * The inbox alone is a bounded queue *)

Lemma holds_ring m k h q : holds m k h q -> ring m k.
Proof. intros []. by constructor. Qed.
#[local] Hint Resolve holds_ring : core.

Lemma slot_for_in q h j v :
  h <= j -> q !! Z.to_nat (j - h) = Some v -> slot_for q h j = mkSlot (wrap64 (j + 1)) (Some v).
Proof. intros _ E. unfold slot_for. by rewrite E. Qed.
Lemma slot_for_free q h j : h + len q <= j -> slot_for q h j = mkSlot (wrap64 j) None.
Proof.
  intros H. unfold slot_for. rewrite lookup_ge_None_2; [done|]. unfold len in H. lia.
Qed.
Lemma slot_for_snoc q h j v :
  h <= j -> j <> h + len q -> slot_for (q ++ [v]) h j = slot_for q h j.
Proof.
  intros Hj Hn. unfold slot_for. destruct (Z.lt_ge_cases j (h + len q)) as [H|H].
  - rewrite lookup_app_l; [done|]. unfold len in H. lia.
  - rewrite !lookup_ge_None_2; [done|..]; rewrite ?length_app; cbn; unfold len in *; lia.
Qed.
Lemma slot_for_tail v q h j :
  h + 1 <= j -> slot_for q (h + 1) j = slot_for (v :: q) h j.
Proof.
  intros H. unfold slot_for. replace (Z.to_nat (j - h)) with (S (Z.to_nat (j - (h + 1)))) by lia.
  done.
Qed.

Definition pushed (m : ShardInbox) (k h : Z) (q : list T) (v : T) : ShardInbox :=
  set_slot (set_tail m (wrap64 (h + len q + 1))) k (h + len q)
    (mkSlot (wrap64 (h + len q + 1)) (Some v)).

Lemma holds_pushed m k h q v :
  holds m k h q -> len q < 2 ^ k -> holds (pushed m k h q v) k h (q ++ [v]).
Proof.
  intros Hm Hl. pose proof (holds_ring _ _ _ _ Hm) as Hr. destruct Hm.
  unfold pushed. constructor; cbn; try done.
  - by rewrite len_insert.
  - f_equal. lens.
  - lens.
  - intros j Hj. fold (pos k j). destruct (Z.eq_dec j (h + len q)) as [->|Hn].
    + rewrite list_lookup_insert_eq by by apply pos_lt.
      rewrite (slot_for_in _ _ _ v); [done|lens|].
      replace (Z.to_nat _) with (length q) by (unfold len; lia).
      by rewrite lookup_app_r, Nat.sub_diag by done.
    + pose proof (cells_set_slot_ne m k j (h + len q)) as Hne. cbn in Hne.
      rewrite Hne, slot_for_snoc by lens. by apply h_slots0.
Qed.

(** The accesses of [push] at a logical position. *)
Lemma push_load_seq b v m k j d s :
  ring m k -> cells m !! pos k j = Some s -> seq s = wrap64 (j + d) -> - 2 ^ 63 <= d < 2 ^ 63 ->
  push_step b v m (PLoadSeq (wrap64 j)) =
    Done (m, match d ?= 0 with Eq => PCas (wrap64 j) | Lt => PReturn (Err v) | Gt => PLoadTail end).
Proof.
  intros Hr Hs Hq Hd. cbn [push_step]. rewrite (slot_at_wrap m k j s Hr Hs), bind_ret, Hq, wrap64_sub.
  replace (j + d - j) with d by lia. rewrite as_isize_wrap by done. by destruct (d ?= 0).
Qed.
Lemma push_write b v m k j s :
  ring m k -> cells m !! pos k j = Some s ->
  push_step b v m (PWrite (wrap64 j)) =
    Done (set_slot m k j (mkSlot (seq s) (Some v)), PStoreSeq (wrap64 j)).
Proof. intros Hr Hs. cbn [push_step]. by rewrite (slot_write_wrap m k j s v Hr Hs). Qed.
Lemma push_store_seq b v m k j s :
  ring m k -> cells m !! pos k j = Some s ->
  push_step b v m (PStoreSeq (wrap64 j)) =
    Done (set_slot m k j (mkSlot (wrap64 (j + 1)) (val s)), PLoadHead (wrap64 j)).
Proof.
  intros Hr Hs. cbn [push_step]. by rewrite wrap64_add, (store_seq_wrap m k j s _ Hr Hs).
Qed.
Lemma push_load_head b v m h j :
  head m = wrap64 h -> - 2 ^ 64 < h - j < 2 ^ 64 ->
  push_step b v m (PLoadHead (wrap64 j)) = Done (m, PReturn (Ok (h =? j)%Z)).
Proof. intros Hh Hd. cbn [push_step]. by rewrite Hh, wrap64_eqb. Qed.

Lemma push_from_step fuel weak v m pc m' pc' :
  (forall r, pc <> PReturn r) -> (forall t, pc <> PCas t) ->
  push_step false v m pc = Done (m', pc') ->
  push_from (S fuel) weak v m pc = push_from fuel weak v m' pc'.
Proof. intros Hr Hc E. destruct pc; cbn [push_from]; try (by rewrite E); naive_solver. Qed.
Lemma push_from_cas fuel weak v m t m' pc' :
  push_step (hd false weak) v m (PCas t) = Done (m', pc') ->
  push_from (S fuel) weak v m (PCas t) = push_from fuel (tl weak) v m' pc'.
Proof. intros E. cbn [push_from]. by rewrite E. Qed.
Lemma push_from_return fuel weak v m r : push_from fuel weak v m (PReturn r) = Done (m, r).
Proof. by destruct fuel. Qed.

(** From a claimed slot on, three accesses finish the push. *)
Lemma push_finish fuel weak v m k h j s :
  ring m k -> cells m !! pos k j = Some s -> head m = wrap64 h -> - 2 ^ 64 < h - j < 2 ^ 64 ->
  push_from (3 + fuel) weak v m (PWrite (wrap64 j)) =
    Done (set_slot m k j (mkSlot (wrap64 (j + 1)) (Some v)), Ok (h =? j)%Z).
Proof.
  intros Hr Hs Hh Hd. change (3 + fuel)%nat with (S (S (S fuel))).
  erewrite push_from_step; [|done..|by eapply push_write].
  erewrite push_from_step;
    [|done..|eapply push_store_seq; [by apply ring_set_slot|by apply cells_set_slot]].
  erewrite push_from_step; [|done..|by eapply push_load_head].
  by rewrite push_from_return, set_slot_twice.
Qed.

Lemma push_steps m k h q v weak fuel :
  holds m k h q -> len q < 2 ^ k ->
  push_from (5 + 2 * length weak + fuel) weak v m (PLoadSeq (wrap64 (h + len q))) =
    Done (pushed m k h q v, Ok (len q =? 0)%Z).
Proof.
  intros Hm Hl. pose proof (holds_ring _ _ _ _ Hm) as Hr. pose proof Hm as [].
  pose proof (pow_bounds k h_k0).
  assert (cells m !! pos k (h + len q) = Some (mkSlot (wrap64 (h + len q)) None)) as Hs.
  { unfold pos. rewrite h_slots0 by lens. by rewrite slot_for_free by done. }
  assert (forall x, push_step x v m (PLoadSeq (wrap64 (h + len q))) = Done (m, PCas (wrap64 (h + len q))))
    as Hload.
  { intros x. eapply (push_load_seq x v m k _ 0); [done..| |done]. by rewrite Z.add_0_r. }
  revert fuel. induction weak as [|w weak IH]; intros fuel.
  all: change (5 + 2 * length ?l + fuel)%nat with (S (4 + 2 * length l + fuel))%nat.
  all: erewrite push_from_step; [|done..|apply Hload].
  2: destruct w.
  2: { replace (4 + _ + _)%nat with (S (5 + 2 * length weak + fuel))%nat by (cbn; lia).
       erewrite push_from_cas; [apply IH|].
       cbn [push_step hd negb]. by rewrite andb_false_r, h_tail0. }
  1: replace (4 + _ + _)%nat with (S (3 + fuel))%nat by (cbn; lia).
  2: replace (4 + _ + _)%nat with (S (3 + (2 + 2 * length weak + fuel)))%nat by (cbn; lia).
  all: erewrite push_from_cas; [|cbn [push_step hd negb]; by rewrite h_tail0, Z.eqb_refl].
  all: rewrite wrap64_add; erewrite (push_finish _ _ v _ k h);
    [|by destruct Hr; constructor|done|done|lens].
  all: unfold pushed; do 3 f_equal; zcase; zcase; lens.
Qed.

Lemma push_spec weak m k h q v :
  holds m k h q -> len q < 2 ^ k ->
  push weak m v = Done (pushed m k h q v, Ok (len q =? 0)%Z).
Proof.
  intros Hm Hl. unfold push. change (6 + ?n)%nat with (S (5 + n)).
  erewrite push_from_step; [|done..|reflexivity]. rewrite (h_tail _ _ _ _ Hm).
  rewrite <- (Nat.add_0_r (5 + _)). by apply push_steps.
Qed.

Lemma push_full weak m k h q v :
  holds m k h q -> len q = 2 ^ k -> push weak m v = Done (m, Err v).
Proof.
  intros Hm Hl. pose proof (holds_ring _ _ _ _ Hm) as Hr. pose proof Hm as [].
  pose proof (pow_bounds k h_k0).
  destruct q as [|a q]; [lens|].
  assert (cells m !! pos k (h + 2 ^ k) = Some (mkSlot (wrap64 (h + 1)) (Some a))) as Hs.
  { unfold pos. replace (h + 2 ^ k) with (h + 1 * 2 ^ k) by lia. rewrite Z.mod_add by lia.
    rewrite h_slots0 by lia. by rewrite (slot_for_in _ _ _ a); [|lia|rewrite Z.sub_diag]. }
  unfold push. change (6 + ?n)%nat with (S (S (4 + n))).
  erewrite push_from_step; [|done..|reflexivity]. rewrite h_tail0, Hl.
  erewrite push_from_step; [|done..|eapply (push_load_seq _ _ _ _ _ (1 - 2 ^ k)); [done..| |]].
  - rewrite (proj2 (Z.compare_lt_iff _ _)) by lia. by rewrite push_from_return.
  - cbn [seq]. f_equal. lia.
  - lia.
Qed.

(** The accesses of [pop] at a logical position. *)
Lemma pop_load_seq m k j d s :
  ring m k -> cells m !! pos k j = Some s -> seq s = wrap64 (j + 1 + d) -> - 2 ^ 63 <= d < 2 ^ 63 ->
  pop_step m (CLoadSeq (wrap64 j)) =
    Done (m, if d =? 0 then CRead (wrap64 j) else CReturn None).
Proof.
  intros Hr Hs Hq Hd. cbn [pop_step]. rewrite (slot_at_wrap m k j s Hr Hs), bind_ret, Hq.
  rewrite wrap64_add, wrap64_sub. replace (j + 1 + d - (j + 1)) with d by lia.
  rewrite as_isize_wrap by done. by destruct (d =? 0).
Qed.
Lemma pop_read m k j s v :
  ring m k -> cells m !! pos k j = Some s -> val s = Some v ->
  pop_step m (CRead (wrap64 j)) =
    Done (set_slot m k j (mkSlot (seq s) None), CStoreSeq (wrap64 j) v).
Proof. intros Hr Hs Hv. cbn [pop_step]. by rewrite (slot_read_wrap m k j s v Hr Hs Hv). Qed.
Lemma pop_store_seq m k j s v :
  ring m k -> cells m !! pos k j = Some s ->
  pop_step m (CStoreSeq (wrap64 j) v) =
    Done (set_slot m k j (mkSlot (wrap64 (j + 2 ^ k)) (val s)), CStoreHead (wrap64 j) v).
Proof.
  intros Hr Hs. cbn [pop_step]. pose proof Hr as [Hk Hm _]. pose proof (pow_bounds k Hk).
  rewrite Hm, uadd_ok by (unfold usize_max; lia). rewrite bind_ret, wrap64_add.
  rewrite (store_seq_wrap m k j s _ Hr Hs), bind_ret. do 5 f_equal. lia.
Qed.
Lemma pop_store_head m h v :
  pop_step m (CStoreHead (wrap64 h) v) = Done (set_head m (wrap64 (h + 1)), CReturn (Some v)).
Proof. cbn [pop_step]. by rewrite wrap64_add. Qed.

Lemma pop_from_step fuel m pc m' pc' :
  (forall r, pc <> CReturn r) -> pop_step m pc = Done (m', pc') ->
  pop_from (S fuel) m pc = pop_from fuel m' pc'.
Proof. intros Hr E. destruct pc; cbn [pop_from]; try (by rewrite E); naive_solver. Qed.

Definition popped (m : ShardInbox) (k h : Z) : ShardInbox :=
  set_head (set_slot m k h (mkSlot (wrap64 (h + 2 ^ k)) None)) (wrap64 (h + 1)).

Lemma holds_popped m k h v q : holds m k h (v :: q) -> holds (popped m k h) k (h + 1) q.
Proof.
  intros Hm. pose proof (holds_ring _ _ _ _ Hm) as Hr. destruct Hm. pose proof (pow_bounds k h_k0).
  unfold popped. constructor; cbn; try done; try lens.
  - rewrite h_tail0. f_equal. lens.
  - intros j Hj. fold (pos k j). destruct (Z.eq_dec j (h + 2 ^ k)) as [->|Hn].
    + replace (pos k (h + 2 ^ k)) with (pos k h).
      2:{ unfold pos. replace (h + 2 ^ k) with (h + 1 * 2 ^ k) by lia. by rewrite Z.mod_add by lia. }
      rewrite list_lookup_insert_eq by by apply pos_lt. rewrite slot_for_free by lens. done.
    + pose proof (cells_set_slot_ne m k j h) as Hne. cbn in Hne.
      rewrite Hne, (slot_for_tail v) by lia. apply h_slots0. lia.
Qed.

Lemma pop_spec m k h v q : holds m k h (v :: q) -> pop m = Done (popped m k h, Some v).
Proof.
  intros Hm. pose proof (holds_ring _ _ _ _ Hm) as Hr. pose proof Hm as [].
  pose proof (pow_bounds k h_k0).
  assert (cells m !! pos k h = Some (mkSlot (wrap64 (h + 1)) (Some v))) as Hs.
  { unfold pos. rewrite h_slots0 by lia. by rewrite (slot_for_in _ _ _ v); [|lia|rewrite Z.sub_diag]. }
  unfold pop. erewrite pop_from_step; [|done|reflexivity]. rewrite h_head0.
  erewrite pop_from_step; [|done|eapply (pop_load_seq _ _ _ 0); [done..| |done]].
  2: { cbn [seq]. f_equal. lia. }
  cbn [Z.eqb]. erewrite pop_from_step; [|done|by eapply pop_read].
  erewrite pop_from_step; [|done|eapply pop_store_seq; [by apply ring_set_slot|by apply cells_set_slot]].
  erewrite pop_from_step; [|done|apply pop_store_head]. by rewrite set_slot_twice.
Qed.

Lemma empty_slot m k h : holds m k h [] -> cells m !! pos k h = Some (mkSlot (wrap64 h) None).
Proof.
  intros []. pose proof (pow_bounds k h_k0).
  unfold pos. rewrite h_slots0 by lia. by rewrite slot_for_free by lens.
Qed.
Lemma pop_empty m k h : holds m k h [] -> pop m = Done (m, None).
Proof.
  intros Hm. pose proof (holds_ring _ _ _ _ Hm) as Hr.
  unfold pop. erewrite pop_from_step; [|done|reflexivity]. rewrite (h_head _ _ _ _ Hm).
  erewrite pop_from_step;
    [|done|eapply (pop_load_seq _ _ _ (-1)); [done|by apply empty_slot| |done]]; [done|].
  cbn [seq]. f_equal. lia.
Qed.

Lemma inbox_is_empty_spec m k h q : holds m k h q -> is_empty m = Done (bool_decide (q = [])).
Proof.
  intros Hm. pose proof (holds_ring _ _ _ _ Hm) as Hr. pose proof Hm as [].
  pose proof (pow_bounds k h_k0). unfold is_empty. rewrite h_head0.
  assert (cells m !! pos k h = Some (slot_for q h h)) as Hs by (unfold pos; apply h_slots0; lia).
  rewrite (slot_at_wrap m k h _ Hr Hs), bind_ret, wrap64_add. destruct q as [|v q].
  - rewrite slot_for_free by lens. cbn [seq]. rewrite wrap64_eqb by lia. by zb.
  - rewrite (slot_for_in _ _ _ v) by (rewrite ?Z.sub_diag; done || lia). cbn [seq].
    by rewrite Z.eqb_refl.
Qed.

Lemma with_capacity_spec n :
  0 <= n <= 2 ^ 62 ->
  exists k m, with_capacity n = Done m /\ holds m k 0 [] /\
    n <= 2 ^ k /\ (2 < n -> 2 ^ k < 2 * n) /\ (n <= 2 -> 2 ^ k = 2).
Proof.
  intros Hn. unfold with_capacity, next_power_of_two. set (r := Z.max n 2).
  pose proof (Z.log2_up_spec r ltac:(lia)) as [Hlo Hhi]. set (k := Z.log2_up r) in *.
  assert (1 <= k <= 62) as Hk.
  { split; [change 1 with (Z.log2_up 2)|change 62 with (Z.log2_up (2 ^ 62))];
      apply Z.log2_up_le_mono; lia. }
  pose proof (pow_bounds k Hk). zb. rewrite (proj2 (Z.leb_le _ _)) by (unfold usize_max; lia).
  rewrite bind_ret, usub_ok by lia. rewrite bind_ret. exists k. eexists. split; [reflexivity|].
  assert (2 ^ k = 2 * 2 ^ Z.pred k) by (rewrite <- Z.pow_succ_r by lia; f_equal; lia).
  split_and!; [|lia..|].
  - constructor; cbn [mask cells head tail]; try done; try lens.
    + unfold len. rewrite length_map, length_seq. lia.
    + intros j Hj. rewrite Z.mod_small by lia. rewrite list_lookup_fmap.
      rewrite slot_for_free by lens. rewrite lookup_seq_lt by lia. cbn.
      rewrite Z2Nat.id by lia. unfold wrap64. by rewrite Z.mod_small by lia.
  - intros H2. unfold k, r. by rewrite Z.max_r by lia.
Qed.

Lemma drop_inbox_spec q m k h fuel :
  holds m k h q -> (length q < fuel)%nat ->
  exists m', drop_inbox fuel m = Done (m', q) /\ holds m' k (h + len q) [].
Proof.
  revert m h fuel. induction q as [|v q IH]; intros m h [|fuel] Hm Hf; try (cbn in Hf; lia);
    cbn [drop_inbox].
  - rewrite (pop_empty m k h Hm), bind_ret. exists m. split; [done|].
    replace (h + len []) with h by lens. done.
  - rewrite (pop_spec m k h v q Hm), bind_ret. cbn [fst snd].
    destruct (IH _ (h + 1) fuel (holds_popped m k h v q Hm)) as (m' & E & Hm').
    { cbn in Hf. lia. }
    rewrite E, bind_ret. exists m'. split; [done|].
    by replace (h + len (v :: q)) with (h + 1 + len q) by lens.
Qed.

(** Requests to an inbox, and the replies of the ring and of a bounded
    queue to a sequence of them. *)
Inductive request : Type :=
| Push (v : T) (weak : list bool)
| Pop.
Inductive reply : Type :=
| Pushed (was_empty : bool)
| Full (v : T)
| Popped (v : option T).

Definition serve (m : ShardInbox) (r : request) : run (ShardInbox * reply) :=
  match r with
  | Push v weak => x ← push weak m v;
      mret (x.1, match x.2 with Ok e => Pushed e | Err v => Full v end)
  | Pop => x ← pop m; mret (x.1, Popped x.2)
  end.
Fixpoint serve_all (m : ShardInbox) (l : list request) : run (ShardInbox * list reply) :=
  match l with
  | [] => mret (m, [])
  | r :: l => x ← serve m r; y ← serve_all x.1 l; mret (y.1, x.2 :: y.2)
  end.

Definition queue_serve (cap : Z) (q : list T) (r : request) : list T * reply :=
  match r with
  | Push v _ => if len q <? cap then (q ++ [v], Pushed (bool_decide (q = []))) else (q, Full v)
  | Pop => match q with [] => ([], Popped None) | v :: q => (q, Popped (Some v)) end
  end.
Fixpoint queue_serve_all (cap : Z) (q : list T) (l : list request) : list T * list reply :=
  match l with
  | [] => (q, [])
  | r :: l => let x := queue_serve cap q r in
              let y := queue_serve_all cap x.1 l in (y.1, x.2 :: y.2)
  end.

Lemma serve_refines m k h q r :
  holds m k h q ->
  exists m' h', serve m r = Done (m', (queue_serve (2 ^ k) q r).2) /\
    holds m' k h' (queue_serve (2 ^ k) q r).1.
Proof.
  intros Hm. destruct r as [v weak|]; cbn [serve queue_serve].
  - destruct (Z.ltb_spec (len q) (2 ^ k)) as [Hl|Hl].
    + rewrite (push_spec weak m k h q v Hm Hl), bind_ret. cbn [fst snd]. eexists _, h.
      split; [|by apply holds_pushed]. do 3 f_equal. destruct q; [done|].
      rewrite bool_decide_eq_false_2 by done. by zb.
    + rewrite (push_full weak m k h q v Hm), bind_ret by (pose proof (h_room _ _ _ _ Hm); lia).
      by exists m, h.
  - destruct q as [|v q].
    + rewrite (pop_empty m k h Hm), bind_ret. by exists m, h.
    + rewrite (pop_spec m k h v q Hm), bind_ret. eexists _, (h + 1).
      split; [done|]. by eapply holds_popped.
Qed.
Lemma serve_all_refines l m k h q :
  holds m k h q ->
  exists m' h', serve_all m l = Done (m', (queue_serve_all (2 ^ k) q l).2) /\
    holds m' k h' (queue_serve_all (2 ^ k) q l).1.
Proof.
  revert m h q. induction l as [|r l IH]; intros m h q Hm; cbn [serve_all queue_serve_all].
  - by exists m, h.
  - destruct (serve_refines m k h q r Hm) as (m1 & h1 & E1 & Hm1).
    destruct (IH m1 h1 _ Hm1) as (m2 & h2 & E2 & Hm2).
    rewrite E1, bind_ret. cbn [fst snd]. rewrite E2, bind_ret. cbn [fst snd]. by exists m2, h2.
Qed.

(* ------------------------------------------------------------------ *)
(** * Properties *)

(** C19.  The ring implements a bounded FIFO queue: from any state of the
    ring, wherever its 64-bit counters stand and wherever they wrap, every
    sequence of pushes (with any pattern of spurious compare-exchange
    failures) and pops returns, without an out-of-bounds access or a read of
    an uninitialised cell, exactly what a queue of [capacity] elements
    replies: the values in order, [Full] exactly at capacity, and the
    was-empty flag exactly when the queue was empty. *)
Theorem inbox_refines_bounded_queue m k h q l :
  holds m k h q ->
  exists m' h', serve_all m l = Done (m', (queue_serve_all (capacity m) q l).2) /\
    holds m' k h' (queue_serve_all (capacity m) q l).1.
Proof.
  intros Hm. unfold capacity. rewrite (h_len _ _ _ _ Hm). by apply (serve_all_refines l m k h).
Qed.

(** [with_capacity n] builds an empty ring whose capacity is the least
    power of two that is at least [max n 2]; filling it from there accepts
    exactly that many elements, and dropping it hands out every element still
    inside, in order, once. *)
Theorem with_capacity_fill_and_drop n vs :
  0 <= n <= 2 ^ 62 ->
  exists k m m' m'', with_capacity n = Done m /\ 1 <= k <= 62 /\ capacity m = 2 ^ k /\
    Z.max n 2 <= 2 ^ k < 2 * Z.max n 2 /\
    let l := map (fun v => Push v []) vs in
    serve_all m l = Done (m', (queue_serve_all (2 ^ k) [] l).2) /\
    let kept := (queue_serve_all (2 ^ k) [] l).1 in
    drop_inbox (S (length kept)) m' = Done (m'', kept) /\ is_empty m'' = Done true.
Proof.
  intros Hn. destruct (with_capacity_spec n Hn) as (k & m & E & Hm & H1 & H2 & H3).
  pose proof Hm as [Hk _ _ Hlen _ _ _ _]. pose proof (pow_bounds k Hk).
  destruct (serve_all_refines (map (fun v => Push v []) vs) m k 0 [] Hm) as (m' & h' & Es & Hm').
  destruct (drop_inbox_spec _ m' k h' _ Hm' (Nat.lt_succ_diag_r _)) as (m'' & Ed & Hm'').
  exists k, m, m', m''. split_and!; try done; try lia.
  by rewrite (inbox_is_empty_spec m'' _ _ _ Hm'').
Qed.
End Inbox.
Arguments Slot T : clear implicits.
Arguments ShardInbox T : clear implicits.
Arguments push_pc T : clear implicits.
Arguments pop_pc T : clear implicits.

(** Two cells, both counters one step before the wrap-around. *)
Definition ex_wrapping : ShardInbox bytes :=
  mkInbox 1 [mkSlot 0 None; mkSlot (2 ^ 64 - 1) None] (2 ^ 64 - 1) (2 ^ 64 - 1).
Definition ex_requests : list (request (T := bytes)) :=
  [Push (bs "a") [true; true]; Push (bs "b") []; Push (bs "c") []; Pop; Push (bs "d") [true];
   Pop; Pop; Pop].

Lemma ex_wrapping_holds : holds ex_wrapping 1 (2 ^ 64 - 1) [].
Proof.
  constructor; try done. intros j Hj.
  assert (j = 2 ^ 64 - 1 \/ j = 2 ^ 64) as [-> | ->] by lia; reflexivity.
Defined.

Lemma inbox_refines_bounded_queue_witness :
  holds ex_wrapping 1 (2 ^ 64 - 1) [] /\
  (queue_serve_all 2 [] ex_requests).2 =
    [Pushed true; Pushed false; Full (bs "c"); Popped (Some (bs "a")); Pushed false;
     Popped (Some (bs "b")); Popped (Some (bs "d")); Popped None] /\
  exists m' h', serve_all ex_wrapping ex_requests =
      Done (m', (queue_serve_all (capacity ex_wrapping) [] ex_requests).2) /\
    holds m' 1 h' (queue_serve_all (capacity ex_wrapping) [] ex_requests).1.
Proof.
  split; [exact ex_wrapping_holds|]. split; [reflexivity|].
  apply (inbox_refines_bounded_queue ex_wrapping 1 (2 ^ 64 - 1) [] ex_requests).
  exact ex_wrapping_holds.
Defined.

Lemma with_capacity_fill_and_drop_witness :
  exists k m m' m'', with_capacity 3 = Done m /\ 1 <= k <= 62 /\ capacity m = 2 ^ k /\
    Z.max 3 2 <= 2 ^ k < 2 * Z.max 3 2 /\
    let l := map (fun v => Push v []) [10; 20; 30; 40; 50] in
    serve_all m l = Done (m', (queue_serve_all (2 ^ k) [] l).2) /\
    let kept := (queue_serve_all (2 ^ k) [] l).1 in
    drop_inbox (S (length kept)) m' = Done (m'', kept) /\ is_empty m'' = Done true.
Proof. apply (with_capacity_fill_and_drop 3 [10; 20; 30; 40; 50]). lia. Defined.
