(* ===== verification/EventFd.v ===== *)
(** The cross-thread wake primitive ([aulon-core/src/eventfd.rs]): a pair of
    descriptors on one kernel eventfd.

    The system calls are those of a class [Kernel]; [KernelLaws] states what
    eventfd(2), dup(2), close(2), read(2) and write(2) document and the code
    relies on. *)
From Stdlib Require Import ZArith Lia.
From stdpp Require Import base gmap list.
From S2P Require Import Prelude.

(** A file descriptor; a negative value is a failed system call. *)
Abbreviation fd := Z (only parsing).

(** The counter after a write of 1 that the kernel accepts or, at the maximum,
    refuses with [EAGAIN]. *)
Definition counter_max : Z := 2 ^ 64 - 2.
Definition wake_counter (n : Z) : Z := if n <? counter_max then n + 1 else n.

Class Kernel (K : Type) : Type := {
  sys_eventfd : K -> K * fd;
  sys_dup : fd -> K -> K * fd;
  sys_close : fd -> K -> K;
  (** 8 bytes holding 1, and 8 bytes read: the counter. *)
  sys_write : fd -> K -> K * Z;
  sys_read : fd -> K -> K * result Z Z;
  last_os_error : K -> Z;
  (** Open descriptors with the object each refers to, and the counters. *)
  descriptors : K -> gmap fd nat;
  counter : K -> nat -> Z;
}.

Class KernelLaws (K : Type) `{Kernel K} : Prop := {
  eventfd_err k : (sys_eventfd k).2 < 0 -> descriptors (sys_eventfd k).1 = descriptors k;
  eventfd_ok k : 0 <= (sys_eventfd k).2 ->
    descriptors k !! (sys_eventfd k).2 = None /\
    exists o, (forall f, descriptors k !! f <> Some o) /\
      descriptors (sys_eventfd k).1 = <[(sys_eventfd k).2 := o]> (descriptors k) /\
      counter (sys_eventfd k).1 o = 0;
  dup_err f k : (sys_dup f k).2 < 0 -> descriptors (sys_dup f k).1 = descriptors k;
  dup_ok f o k : descriptors k !! f = Some o -> 0 <= (sys_dup f k).2 ->
    descriptors k !! (sys_dup f k).2 = None /\
    descriptors (sys_dup f k).1 = <[(sys_dup f k).2 := o]> (descriptors k) /\
    counter (sys_dup f k).1 o = counter k o;
  close_ok f k : descriptors (sys_close f k) = delete f (descriptors k);
  write_ok f o k : descriptors k !! f = Some o ->
    descriptors (sys_write f k).1 = descriptors k /\
    counter (sys_write f k).1 o = wake_counter (counter k o) /\
    ((sys_write f k).2 < 0 <-> counter_max <= counter k o);
  read_ok f o k : descriptors k !! f = Some o ->
    descriptors (sys_read f k).1 = descriptors k /\
    counter (sys_read f k).1 o = 0 /\
    if 0 <? counter k o then (sys_read f k).2 = Ok (counter k o)
    else exists e, (sys_read f k).2 = Err e;
}.

Record EventfdReader : Type := mkReader { file : fd }.
Record EventfdWaker : Type := mkWaker { waker_fd : fd }.

Section EventFd.
Context {K : Type} `{Kernel K}.

Definition wake (w : EventfdWaker) (k : K) : K * result unit Z :=
  let '(k, n) := sys_write (waker_fd w) k in
  if n <? 0 then (k, Err (last_os_error k)) else (k, Ok tt).

Definition eventfd_pair (k : K) : K * result (EventfdReader * EventfdWaker) Z :=
  let '(k, fd) := sys_eventfd k in
  if fd <? 0 then (k, Err (last_os_error k)) else
  let '(k, dup) := sys_dup fd k in
  if dup <? 0 then
    let err := last_os_error k in
    (sys_close fd k, Err err)
  else (k, Ok (mkReader fd, mkWaker dup)).

(** Calls to [wake] in a row, results ignored as the publisher does. *)
Fixpoint wakes (n : nat) (w : EventfdWaker) (k : K) : K :=
  match n with O => k | S n => wakes n w (wake w k).1 end.

(* ------------------------------------------------------------------ *)
(** * Correctness *)

Context `{!KernelLaws K}.

Lemma wake_counts w o k :
  descriptors k !! waker_fd w = Some o ->
  descriptors (wake w k).1 = descriptors k /\ counter (wake w k).1 o = wake_counter (counter k o) /\
  ((wake w k).2 = Ok tt <-> counter k o < counter_max).
Proof.
  intros Ho. destruct (write_ok (waker_fd w) o k Ho) as (Hd & Hc & Hn). unfold wake.
  destruct (sys_write (waker_fd w) k) as [k' n]. cbn in *.
  destruct (Z.ltb_spec n 0); cbn; split_and!; try done; split; try done; lia.
Qed.

Lemma wakes_count n w o k :
  descriptors k !! waker_fd w = Some o -> 0 <= counter k o -> counter k o + Z.of_nat n <= counter_max ->
  descriptors (wakes n w k) = descriptors k /\ counter (wakes n w k) o = counter k o + Z.of_nat n.
Proof.
  revert k. induction n as [|n IH]; intros k Ho H0 Hn; cbn [wakes]; [split; [done|lia]|].
  destruct (wake_counts w o k Ho) as (Hd & Hc & _). unfold wake_counter in Hc.
  rewrite (proj2 (Z.ltb_lt _ _)) in Hc by lia.
  destruct (IH (wake w k).1) as [Hd' Hc']; [by rewrite Hd|lia..|]. rewrite Hd', Hc', Hd. split; [done|lia].
Qed.

(** A pair that cannot be made opens nothing; the two ends of a new pair are
    new descriptors, open on one eventfd that counts zero. *)
Lemma eventfd_pair_open k :
  match eventfd_pair k with
  | (k', Err _) => descriptors k' = descriptors k
  | (k', Ok (r, w)) => exists o, descriptors k' !! file r = Some o /\ descriptors k' !! waker_fd w = Some o /\
      counter k' o = 0 /\ file r <> waker_fd w /\ descriptors k !! file r = None /\ descriptors k !! waker_fd w = None /\
      forall f, f <> file r -> f <> waker_fd w -> descriptors k' !! f = descriptors k !! f
  end.
Proof.
  unfold eventfd_pair. pose proof (eventfd_ok k) as Ho. pose proof (eventfd_err k) as He.
  destruct (sys_eventfd k) as [k1 f]. cbn in Ho, He.
  destruct (Z.ltb_spec f 0) as [|Hf]; [auto|]. destruct (Ho Hf) as (Hn & o & _ & Hd & Hc). clear Ho He.
  assert (descriptors k1 !! f = Some o) as Hf1 by by rewrite Hd, lookup_insert_eq.
  pose proof (dup_ok f o k1 Hf1) as Ho. pose proof (dup_err f k1) as He.
  destruct (sys_dup f k1) as [k2 g]. cbn in Ho, He.
  destruct (Z.ltb_spec g 0) as [Hg|Hg]; [rewrite close_ok, He, Hd by done; by rewrite delete_insert_id|].
  destruct (Ho Hg) as (Hnew & Hd2 & Hc2). exists o. cbn. assert (g <> f) as Hgf by congruence.
  rewrite Hd in Hnew. rewrite lookup_insert_ne in Hnew by done.
  rewrite Hd2, lookup_insert_eq, Hc2, Hc, lookup_insert_ne by done. split_and!; try done.
  intros x Hx Hx'. by rewrite Hd, !lookup_insert_ne.
Qed.
End EventFd.

(** [eventfd_pair] leaks no descriptor and pairs its two ends.  If
    either system call fails, the process has exactly the descriptors it had.
    Otherwise two new descriptors refer to one new eventfd; wake-ups from the
    waker accumulate: after any [n] of them (below the kernel's maximum) one
    read returns [n], and the next one fails. *)
Theorem eventfd_pair_paired {K} `{KernelLaws K} (k : K) :
  match eventfd_pair k with
  | (k', Err _) => descriptors k' = descriptors k
  | (k', Ok (r, w)) =>
      descriptors k !! file r = None /\ descriptors k !! waker_fd w = None /\ file r <> waker_fd w /\
      exists o, (forall f, descriptors k !! f <> Some o) /\
      descriptors k' = <[waker_fd w := o]> (<[file r := o]> (descriptors k)) /\
      forall n, 0 < Z.of_nat n <= counter_max ->
      let '(k1, got) := sys_read (file r) (wakes n w k') in
      got = Ok (Z.of_nat n) /\ exists e, (sys_read (file r) k1).2 = Err e
  end.
Proof.
  unfold eventfd_pair. pose proof (eventfd_err k) as He. pose proof (eventfd_ok k) as Ho.
  destruct (sys_eventfd k) as [k1 f]. cbn in He, Ho. destruct (Z.ltb_spec f 0) as [|Hf]; [auto|].
  destruct (Ho Hf) as (Hnew & o & Hfresh & Hd1 & Hc1). clear He Ho.
  assert (descriptors k1 !! f = Some o) as Hf1 by by rewrite Hd1, lookup_insert_eq.
  pose proof (dup_err f k1) as He. pose proof (dup_ok f o k1 Hf1) as Ho.
  destruct (sys_dup f k1) as [k2 g]. cbn in He, Ho. destruct (Z.ltb_spec g 0) as [Hg|Hg].
  - rewrite close_ok, He, Hd1 by done. by rewrite delete_insert_id.
  - destruct (Ho Hg) as (Hnew' & Hd2 & Hc2). cbn [file waker_fd].
    rewrite Hd1 in Hnew'. apply lookup_insert_None in Hnew' as [Hg0 Hfg].
    split_and!; [done..|]. exists o. split_and!; [done|by rewrite Hd2, Hd1|]. intros n Hn.
    destruct (wakes_count n (mkWaker g) o k2) as [Hdn Hcn].
    { by rewrite Hd2, lookup_insert_eq. } { lia. } { lia. }
    assert (descriptors (wakes n (mkWaker g) k2) !! f = Some o) as Hfn.
    { rewrite Hdn, Hd2, lookup_insert_ne; done. }
    destruct (read_ok f o _ Hfn) as (Hdr & Hcr & Hgot).
    rewrite (proj2 (Z.ltb_lt _ _)) in Hgot by lia.
    destruct (sys_read f (wakes n (mkWaker g) k2)) as [k3 got]. cbn in *.
    split; [rewrite Hgot; f_equal; lia|].
    destruct (read_ok f o k3) as (_ & _ & Hgot'); [by rewrite Hdr|]. by rewrite Hcr in Hgot'.
Qed.

(* ------------------------------------------------------------------ *)
(** * A kernel *)

(** Descriptors and counters in maps; a process may have [tk_limit]
    descriptors open. *)
Record table_kernel : Type := mkTable {
  tk_fds : gmap fd nat;
  tk_counts : nat -> Z;
  tk_limit : nat;
}.
Definition tk_set (k : table_kernel) (m : gmap fd nat) : table_kernel :=
  mkTable m (tk_counts k) (tk_limit k).
Definition tk_count (k : table_kernel) (o : nat) (n : Z) : table_kernel :=
  mkTable (tk_fds k) (fun o' => if decide (o' = o) then n else tk_counts k o') (tk_limit k).

Definition new_fd (m : gmap fd nat) : fd := map_fold (fun f _ n => Z.max (f + 1) n) 0 m.
Definition new_object (m : gmap fd nat) : nat := map_fold (fun _ o n => S (o `max` n))%nat 0%nat m.

Lemma new_fd_above m : 0 <= new_fd m /\ forall f o, m !! f = Some o -> f < new_fd m.
Proof.
  unfold new_fd. apply (map_fold_weak_ind (fun n m => 0 <= n /\ forall f o, m !! f = Some o -> f < n)).
  - split; [done|]. intros f o. by rewrite lookup_empty.
  - intros f o m' n _ [Hn H]. split; [lia|]. intros f' o'.
    rewrite lookup_insert_Some. intros [[<- _]|[_ E]]; [lia|]. apply H in E. lia.
Qed.
Lemma new_object_above m f o : m !! f = Some o -> (o < new_object m)%nat.
Proof.
  revert f o. unfold new_object.
  apply (map_fold_weak_ind (fun n m => forall f o, m !! f = Some o -> (o < n)%nat)).
  - intros f o. by rewrite lookup_empty.
  - intros f o m' n _ H f' o'. rewrite lookup_insert_Some. intros [[_ <-]|[_ E]]; [lia|]. apply H in E. lia.
Qed.

Definition tk_open (k : table_kernel) (o : nat) : table_kernel * fd :=
  if decide (size (tk_fds k) < tk_limit k)%nat
  then (tk_set k (<[new_fd (tk_fds k) := o]> (tk_fds k)), new_fd (tk_fds k)) else (k, -1).

#[global] Instance table_kernel_calls : Kernel table_kernel := {|
  sys_eventfd k := tk_open (tk_count k (new_object (tk_fds k)) 0) (new_object (tk_fds k));
  sys_dup f k := match tk_fds k !! f with Some o => tk_open k o | None => (k, -1) end;
  sys_close f k := tk_set k (delete f (tk_fds k));
  sys_write f k :=
    match tk_fds k !! f with
    | Some o => (tk_count k o (wake_counter (tk_counts k o)),
                 if counter_max <=? tk_counts k o then -1 else 8)
    | None => (k, -1)
    end;
  sys_read f k :=
    match tk_fds k !! f with
    | Some o => (tk_count k o 0, if 0 <? tk_counts k o then Ok (tk_counts k o) else Err 11)
    | None => (k, Err 9)
    end;
  last_os_error _ := 11;
  descriptors := tk_fds;
  counter := tk_counts;
|}.

Lemma tk_open_err k o : (tk_open k o).2 < 0 -> tk_fds (tk_open k o).1 = tk_fds k.
Proof.
  unfold tk_open. case_decide; [|done]. cbn. pose proof (new_fd_above (tk_fds k)). lia.
Qed.
Lemma tk_open_ok k o :
  0 <= (tk_open k o).2 -> tk_fds k !! (tk_open k o).2 = None /\
  tk_fds (tk_open k o).1 = <[(tk_open k o).2 := o]> (tk_fds k) /\
  tk_counts (tk_open k o).1 = tk_counts k.
Proof.
  unfold tk_open. case_decide; cbn; [|lia]. intros _. split_and!; try done.
  destruct (new_fd_above (tk_fds k)) as [_ Hn]. apply eq_None_not_Some. intros [o' E]. apply Hn in E. lia.
Qed.

#[global] Instance table_kernel_laws : KernelLaws table_kernel.
Proof.
  constructor; cbn.
  - intros k H. by rewrite tk_open_err.
  - intros k H. destruct (tk_open_ok _ _ H) as (Hn & Hd & Hc). split; [done|].
    exists (new_object (tk_fds k)). rewrite Hc, Hd. split_and!; [|done|cbn; by rewrite decide_True].
    intros f E. apply new_object_above in E. lia.
  - intros f k H. destruct (tk_fds k !! f); [by apply tk_open_err|done].
  - intros f o k E. rewrite E. intros H. destruct (tk_open_ok _ _ H) as (Hn & Hd & Hc). by rewrite Hc.
  - done.
  - intros f o k E. rewrite E. cbn. rewrite decide_True by done. split_and!; [done..|].
    destruct (Z.leb_spec counter_max (tk_counts k o)); lia.
  - intros f o k E. rewrite E. cbn. rewrite decide_True by done. split_and!; [done..|].
    destruct (0 <? tk_counts k o); [done|by eexists].
Qed.

(** A process that may open two descriptors, and one that may open one. *)
Definition ex_kernel (limit : nat) : table_kernel := mkTable ∅ (fun _ => 0) limit.

Lemma eventfd_pair_paired_witness :
  KernelLaws table_kernel /\
  (eventfd_pair (ex_kernel 2)).2 = Ok (mkReader 0, mkWaker 1) /\
  (let '(k, _) := eventfd_pair (ex_kernel 1) in tk_fds k = ∅) /\
  match eventfd_pair (ex_kernel 2) with
  | (k', Err _) => descriptors k' = descriptors (ex_kernel 2)
  | (k', Ok (r, w)) =>
      descriptors (ex_kernel 2) !! file r = None /\ descriptors (ex_kernel 2) !! waker_fd w = None /\
      file r <> waker_fd w /\
      exists o, (forall f, descriptors (ex_kernel 2) !! f <> Some o) /\
      descriptors k' = <[waker_fd w := o]> (<[file r := o]> (descriptors (ex_kernel 2))) /\
      forall n, 0 < Z.of_nat n <= counter_max ->
      let '(k1, got) := sys_read (file r) (wakes n w k') in
      got = Ok (Z.of_nat n) /\ exists e, (sys_read (file r) k1).2 = Err e
  end.
Proof.
  split; [exact table_kernel_laws|]. split; [reflexivity|]. split; [reflexivity|].
  exact (eventfd_pair_paired (ex_kernel 2)).
Defined.
