(* ===== verification/Worker.v ===== *)
(** A worker (one shard) of the server ([aulon-server/src/main.rs]): its
    state and the small operations on it.

    The source shares [Rc<ConnectionState>] between the connection map, the
    reader task and the writer task, and mutates it through [Cell]s: here an
    [Rc] is an address of [heap], so every holder sees the same state.  A
    handler is a computation in [M], which threads the worker and may panic. *)
From Stdlib Require Import ZArith Lia Strings.Byte.
From stdpp Require Import base gmap list strings.
From S2P Require Import Prelude Subject Trie ConnState ShardInbox Wire Emit.

(* ------------------------------------------------------------------ *)
(** * Constants *)

Definition MAX_PAYLOAD_BYTES : Z := 1024 * 1024.
Definition MAX_FRAME_SIZE : Z := MAX_PAYLOAD_BYTES * 2.
Definition EMIT_SCRATCH_CAPACITY : Z := MAX_PAYLOAD_BYTES + 4096.
Definition SHARD_INBOX_CAPACITY : Z := 4096.
Definition SHORT_FRAME_BUF : Z := 4096.
Definition DEFAULT_OUTBOUND_CAPACITY : Z := 2 * 1024 * 1024.
Definition DEFAULT_BUFFER_SIZE : Z := 4096.

(** [vec![0u8; n]] and [[0u8; n]]. *)
Definition zeroed (n : Z) : bytes := replicate (Z.to_nat n) x00.

Lemma len_zeroed n : 0 <= n -> len (zeroed n) = n.
Proof. intros. unfold len, zeroed. rewrite length_replicate. lia. Qed.

(* ------------------------------------------------------------------ *)
(** * State *)

(** The address of an [Rc<ConnectionState>]. *)
Abbreviation Rc := nat.

(* ------------------------------------------------------------------ *)
(** * The generator *)

(** One xorshift64 step on a [u64]. *)
Definition xorshift64 (s : Z) : Z :=
  let s := Z.lxor s (wrap64 (Z.shiftl s 13)) in
  let s := Z.lxor s (Z.shiftr s 7) in
  Z.lxor s (wrap64 (Z.shiftl s 17)).

Definition seed (shard_id : Z) : Z :=
  Z.lxor 0x123456789abcdef0 (wrap64 (shard_id * 0x9E3779B9)).

Lemma lxor_u64 a b : 0 <= a < 2 ^ 64 -> 0 <= b < 2 ^ 64 -> 0 <= Z.lxor a b < 2 ^ 64.
Proof.
  intros Ha Hb. assert (0 <= Z.lxor a b) by (apply Z.lxor_nonneg; lia). split; [done|].
  destruct (Z.eq_dec (Z.lxor a b) 0) as [->|Hn]; [done|]. apply Z.log2_lt_pow2; [lia|].
  eapply Z.le_lt_trans; [apply Z.log2_lxor; lia|].
  assert (forall x, 0 <= x < 2 ^ 64 -> Z.log2 x < 64) as Hlog.
  { intros x Hx. destruct (Z.eq_dec x 0) as [->|]; [done|]. apply Z.log2_lt_pow2; lia. }
  apply Hlog in Ha, Hb. lia.
Qed.
Lemma wrap64_range n : 0 <= wrap64 n < 2 ^ 64.
Proof. by apply Z.mod_pos_bound. Qed.

(** A [u64] that equals its own left shift is zero. *)
Lemma shl_fixpoint s k : 0 <= s < 2 ^ 64 -> 0 < k -> s = wrap64 (Z.shiftl s k) -> s = 0.
Proof.
  intros Hs Hk E. apply Z.bits_inj_0. intros n.
  destruct (Z.lt_ge_cases n 0) as [Hn|Hn]; [by apply Z.testbit_neg_r|].
  revert n Hn. apply (Zlt_0_ind (fun n => Z.testbit s n = false)). intros n IH Hn.
  rewrite E. unfold wrap64. destruct (Z.lt_ge_cases n 64) as [Hn64|Hn64].
  - rewrite Z.mod_pow2_bits_low, Z.shiftl_spec by lia.
    destruct (Z.lt_ge_cases (n - k) 0); [by apply Z.testbit_neg_r|]. apply IH; lia.
  - apply Z.mod_pow2_bits_high. lia.
Qed.

Lemma xorshift64_range s : 0 < s < 2 ^ 64 -> 0 < xorshift64 s < 2 ^ 64.
Proof.
  intros Hs. unfold xorshift64.
  set (a := Z.lxor s _). assert (0 <= a < 2 ^ 64 /\ a <> 0) as [Ha Ha0].
  { split; [apply lxor_u64; [lia|apply wrap64_range]|]. intros E. apply Z.lxor_eq in E.
    apply (shl_fixpoint s 13) in E; lia. }
  set (b := Z.lxor a _). assert (0 <= b < 2 ^ 64 /\ b <> 0) as [Hb Hb0].
  { assert (0 <= Z.shiftr a 7 < a) as Hsh.
    { rewrite Z.shiftr_div_pow2 by lia. split; [apply Z.div_pos|apply Z.div_lt]; lia. }
    split; [apply lxor_u64; [done|lia]|]. intros E. apply Z.lxor_eq in E. lia. }
  set (c := Z.lxor b _). assert (0 <= c < 2 ^ 64 /\ c <> 0) as [Hc Hc0]; [|lia].
  split; [apply lxor_u64; [lia|apply wrap64_range]|]. intros E. apply Z.lxor_eq in E.
  apply (shl_fixpoint b 17) in E; lia.
Qed.

(** No shard's seed is the generator's fixed point: the constant is not a
    multiple of the multiplier. *)
Lemma seed_range shard : 0 <= shard <= u32_max -> 0 < seed shard < 2 ^ 64.
Proof.
  intros Hs. unfold seed. assert (0 <= shard * 0x9E3779B9 < 2 ^ 64) as Hm by (unfold u32_max in Hs; lia).
  unfold wrap64. rewrite Z.mod_small by done.
  assert (0 <= Z.lxor 0x123456789abcdef0 (shard * 0x9E3779B9) < 2 ^ 64) as Hr by (by apply lxor_u64).
  assert (Z.lxor 0x123456789abcdef0 (shard * 0x9E3779B9) <> 0); [|lia].
  intros E. apply Z.lxor_eq in E.
  assert (0x123456789abcdef0 mod 0x9E3779B9 = 0); [|done]. rewrite E. by apply Z.mod_mul.
Qed.

Section Worker.
Context `{N : Notify}.

(** [peer_wakers] is how many wakers there are; [kicks] logs the shards whose
    waker was written to, latest last. *)
Record Worker : Type := mkWorker {
  shard_id : Z;
  table : SubscriptionTrie;
  connections : gmap ConnectionId.t Rc;
  next_conn_id : Z;
  emit_scratch : bytes;
  rng : Z;
  peer_inboxes : list (ShardInbox PublishedFrame);
  peer_wakers : nat;
  kicks : list nat;
  heap : gmap Rc (ConnectionState N);
}.

Definition set_table (w : Worker) x : Worker := mkWorker (shard_id w) x (connections w)
  (next_conn_id w) (emit_scratch w) (rng w) (peer_inboxes w) (peer_wakers w) (kicks w) (heap w).
Definition set_connections (w : Worker) x : Worker := mkWorker (shard_id w) (table w) x
  (next_conn_id w) (emit_scratch w) (rng w) (peer_inboxes w) (peer_wakers w) (kicks w) (heap w).
Definition set_next_conn_id (w : Worker) x : Worker := mkWorker (shard_id w) (table w)
  (connections w) x (emit_scratch w) (rng w) (peer_inboxes w) (peer_wakers w) (kicks w) (heap w).
Definition set_emit_scratch (w : Worker) x : Worker := mkWorker (shard_id w) (table w)
  (connections w) (next_conn_id w) x (rng w) (peer_inboxes w) (peer_wakers w) (kicks w) (heap w).
Definition set_rng (w : Worker) x : Worker := mkWorker (shard_id w) (table w) (connections w)
  (next_conn_id w) (emit_scratch w) x (peer_inboxes w) (peer_wakers w) (kicks w) (heap w).
Definition set_peer_inboxes (w : Worker) x : Worker := mkWorker (shard_id w) (table w)
  (connections w) (next_conn_id w) (emit_scratch w) (rng w) x (peer_wakers w) (kicks w) (heap w).
Definition set_kicks (w : Worker) x : Worker := mkWorker (shard_id w) (table w) (connections w)
  (next_conn_id w) (emit_scratch w) (rng w) (peer_inboxes w) (peer_wakers w) x (heap w).
Definition set_heap (w : Worker) x : Worker := mkWorker (shard_id w) (table w) (connections w)
  (next_conn_id w) (emit_scratch w) (rng w) (peer_inboxes w) (peer_wakers w) (kicks w) x.

(* ------------------------------------------------------------------ *)
(** * The state monad *)

Definition M (A : Type) : Type := Worker -> run (Worker * A).
#[global] Instance M_ret : MRet M := fun A a w => Done (w, a).
#[global] Instance M_bind : MBind M := fun A B f m w =>
  match m w with Done (w', a) => f a w' | Panic => Panic end.

Definition gets {A} (f : Worker -> A) : M A := fun w => Done (w, f w).
Definition modify (f : Worker -> Worker) : M unit := fun w => Done (f w, tt).
Definition lift {A} (r : run A) : M A := fun w => a ← r; Done (w, a).

(** Dereferencing an [Rc], and writing through its [Cell]s. *)
Definition deref (rc : Rc) : M (ConnectionState N) := fun w =>
  st ← expect (heap w !! rc); Done (w, st).
Definition assign (rc : Rc) (st : ConnectionState N) : M unit :=
  modify (fun w => set_heap w (<[rc := st]> (heap w))).

(** [state.enqueue(bytes)] and [state.mark_close(reason)] through an [Rc]. *)
Definition enqueue_rc (rc : Rc) (b : bytes) : M EnqueueOutcome.t :=
  st ← deref rc;
  r ← lift (enqueue st b);
  let '(st', o) := r in
  _ ← assign rc st';
  mret o.
Definition mark_close_rc (rc : Rc) (reason : CloseReason.t) : M unit :=
  st ← deref rc;
  assign rc (mark_close st reason).

(* ------------------------------------------------------------------ *)
(** * [impl Worker] *)

(** The scratch size is an argument so that examples can run; the program
    passes [EMIT_SCRATCH_CAPACITY]. *)
Definition Worker_new (scratch_capacity : Z) (shard_id : Z)
    (peer_inboxes : list (ShardInbox PublishedFrame)) (peer_wakers : nat) : Worker :=
  mkWorker shard_id Trie.new ∅ 0 (zeroed scratch_capacity) (seed shard_id) peer_inboxes
    peer_wakers [] ∅.

Definition shard_count (w : Worker) : Z := len (peer_inboxes w).

Definition next_id : M ConnectionId.t :=
  id ← gets next_conn_id;
  _ ← modify (fun w => set_next_conn_id w ((id + 1) mod 2 ^ 32));
  mret (ConnectionId.new id).

Definition lookup_conn (id : ConnectionId.t) : M (option Rc) :=
  gets (fun w => connections w !! id).

Definition pick_index (n : Z) : M Z :=
  _ ← lift (assert_ (0 <? n));
  s ← gets (fun w => xorshift64 (rng w));
  _ ← modify (fun w => set_rng w s);
  mret (s mod n).

(** [emit_*(&mut buf)] on a fresh buffer of [n] bytes; on success
    [&buf[..n]] is enqueued. *)
Definition emit_to (rc : Rc) (n : Z) (emit : emitM Z) : M unit :=
  r ← lift (emit (zeroed n));
  let '(buf, res) := r in
  match res with
  | Ok k =>
      b ← lift (slice_to buf k);
      _ ← enqueue_rc rc b;
      mret tt
  | Err _ => mret tt
  end.

Definition emit_err_to (rc : Rc) (msg : bytes) : M unit :=
  emit_to rc SHORT_FRAME_BUF (emit_err msg).

Definition subject_error_text (e : SubjectError.t) : bytes :=
  match e with
  | SubjectError.Empty => bs "empty subject"
  | SubjectError.EmptyToken => bs "empty token in subject"
  | SubjectError.WildcardInPublish => bs "wildcard not allowed in publish subject"
  | SubjectError.InvalidGreaterPosition => bs "`>` must be the last token"
  end.

(* ------------------------------------------------------------------ *)
(** * Specification *)

(** The invariant of a worker's own state. *)
Record good (w : Worker) : Prop := {
  good_heap : forall rc st, heap w !! rc = Some st -> ConnState.wf st;
  good_conns : forall c rc, connections w !! c = Some rc ->
    exists st, heap w !! rc = Some st /\ ConnState.id st = c;
  good_scratch : slice_ok (emit_scratch w);
  good_rng : 0 < rng w < 2 ^ 64;
}.

(** The effect of a handler that only writes to connections, the scratch and
    the generator. *)
Record only_io (w w' : Worker) : Prop := {
  oio_shard : shard_id w' = shard_id w;
  oio_table : table w' = table w;
  oio_conns : connections w' = connections w;
  oio_next : next_conn_id w' = next_conn_id w;
  oio_scratch : len (emit_scratch w') = len (emit_scratch w);
  oio_inboxes : peer_inboxes w' = peer_inboxes w;
  oio_wakers : peer_wakers w' = peer_wakers w;
  oio_kicks : kicks w' = kicks w;
}.

(** The effect of a handler that moreover pushes to inboxes. *)
Record keeps (w w' : Worker) : Prop := {
  kp_shard : shard_id w' = shard_id w;
  kp_table : table w' = table w;
  kp_conns : connections w' = connections w;
  kp_next : next_conn_id w' = next_conn_id w;
  kp_scratch : len (emit_scratch w') = len (emit_scratch w);
  kp_inboxes : length (peer_inboxes w') = length (peer_inboxes w);
  kp_wakers : peer_wakers w' = peer_wakers w;
}.

(** Every cell is still there and only got bytes or a close reason. *)
Definition grows (w w' : Worker) : Prop :=
  forall rc, match heap w !! rc with
  | Some st => exists st' acc, heap w' !! rc = Some st' /\ acts_ok st st' acc []
  | None => heap w' !! rc = None
  end.

(** [enqueue]s in a row, outcomes ignored. *)
Definition enqueue_state (st : ConnectionState N) (b : bytes) : ConnectionState N :=
  match enqueue st b with Done (st', _) => st' | Panic => st end.
Definition enqueue_all (st : ConnectionState N) (l : list bytes) : ConnectionState N :=
  fold_left enqueue_state l st.

(* ------------------------------------------------------------------ *)
(** * Lemmas *)

Lemma M_bind_done {A B} (m : M A) (f : A -> M B) w w' a :
  m w = Done (w', a) -> mbind f m w = f a w'.
Proof. intros E. unfold mbind, M_bind. by rewrite E. Qed.
Lemma M_bind_assoc {A B C} (m : M A) (f : A -> M B) (g : B -> M C) w :
  mbind g (mbind f m) w = mbind (fun a => mbind g (f a)) m w.
Proof. unfold mbind, M_bind. by destruct (m w) as [[]|]. Qed.

End Worker.
Arguments Worker N : clear implicits.

(** Runs the first command of a sequence, whose equation [tac] proves. *)
Ltac mstep tac := erewrite M_bind_done; [|tac]; cbn beta iota.

(** Projects the fields of an updated worker. *)
Ltac wsimpl := cbn [shard_id table connections next_conn_id emit_scratch rng peer_inboxes
  peer_wakers kicks heap set_table set_connections set_next_conn_id set_emit_scratch set_rng
  set_peer_inboxes set_kicks set_heap].

Section Lemmas.
Context `{N : Notify}.

#[global] Instance only_io_preorder : PreOrder (only_io (N := N)).
Proof.
  split; [by constructor|]. intros a b c [] []. constructor; congruence.
Qed.

#[global] Instance keeps_preorder : PreOrder (keeps (N := N)).
Proof.
  split; [by constructor|]. intros a b c [] []. constructor; congruence.
Qed.
Lemma only_io_keeps (w w' : Worker N) : only_io w w' -> keeps w w'.
Proof. intros []. constructor; congruence. Qed.

Lemma grows_refl (w : Worker N) : good w -> grows w w.
Proof.
  intros Hg rc. destruct (heap w !! rc) as [st|] eqn:Hst; [|done].
  exists st, []. split; [done|]. by apply acts_ok_refl, (good_heap w Hg rc).
Qed.
Lemma grows_trans (w w1 w2 : Worker N) : grows w w1 -> grows w1 w2 -> grows w w2.
Proof.
  intros H1 H2 rc. specialize (H1 rc). specialize (H2 rc). destruct (heap w !! rc) as [st|].
  - destruct H1 as (st1 & acc1 & E1 & A1). rewrite E1 in H2. destruct H2 as (st2 & acc2 & E2 & A2).
    exists st2, (acc1 ++ acc2). split; [done|]. by eapply acts_ok_trans.
  - by rewrite H1 in H2.
Qed.
Lemma grows_heap (w w1 w2 : Worker N) : heap w1 = heap w2 -> grows w w1 -> grows w w2.
Proof. unfold grows. by intros ->. Qed.

Lemma enqueue_state_ok (st : ConnectionState N) b :
  wf st -> exists acc, acts_ok st (enqueue_state st b) acc [].
Proof.
  intros Hwf. destruct (acts_spec [Enqueue b] st Hwf) as (st' & acc & out & E & Ha).
  { by repeat constructor. }
  cbn in E. unfold enqueue_state. destruct (enqueue st b) as [[st1 o]|]; [|done].
  rewrite bind_ret in E. simplify_run. eauto.
Qed.
Lemma enqueue_all_ok l (st : ConnectionState N) :
  wf st -> exists acc, acts_ok st (enqueue_all st l) acc [].
Proof.
  revert st. induction l as [|b l IH]; intros st Hwf; [eexists; by apply acts_ok_refl|].
  destruct (enqueue_state_ok st b Hwf) as (acc1 & A1).
  destruct (IH _ (acts_wf _ _ _ _ A1)) as (acc2 & A2). eexists. by eapply acts_ok_trans.
Qed.

Lemma enqueue_state_cases st b :
  wf st -> exists o, enqueue st b = Done (enqueue_state st b, o) /\ wf (enqueue_state st b) /\
    id (enqueue_state st b) = id st.
Proof.
  intros Hwf. destruct (enqueue_cases st b Hwf) as (st' & o & E & Hwf' & Ho).
  exists o. unfold enqueue_state. rewrite E. split_and!; [done..|].
  destruct o; destruct Ho as (? & Ho); [|by destruct Ho as (_ & ->)|by subst].
  by destruct Ho as (_ & []).
Qed.
Lemma enqueue_all_wf l st : wf st -> wf (enqueue_all st l) /\ id (enqueue_all st l) = id st.
Proof.
  revert st. induction l as [|b l IH]; intros st Hwf; [done|]. cbn.
  destruct (enqueue_state_cases st b Hwf) as (o & _ & Hwf' & Hid).
  destruct (IH _ Hwf') as [? Hi]. split; [done|]. etransitivity; [apply Hi|done].
Qed.

(** Messages that fit are all appended, in order. *)
Lemma enqueue_all_room l st :
  wf st -> close_with st = None ->
  outbound_tail st + len (concat l) <= outbound_capacity st ->
  pending (enqueue_all st l) = pending st ++ concat l /\
  close_with (enqueue_all st l) = None.
Proof.
  revert st. induction l as [|b l IH]; intros st Hwf Hc Hr.
  { by rewrite app_nil_r. }
  cbn [enqueue_all fold_left concat].
  change (fold_left enqueue_state l ?x) with (enqueue_all x l).
  unfold outbound_capacity in *. cbn [concat] in Hr. rewrite len_app in Hr.
  pose proof (len_nonneg (concat l)).
  destruct (enqueue_room st b Hwf Hc) as (st' & E & [Hwf' Hp _ Hcap Ht Hc' _]); [lia|].
  assert (enqueue_state st b = st') as -> by (unfold enqueue_state; by rewrite E).
  destruct (IH st' Hwf' Hc') as [-> ->]; [unfold outbound_capacity; lia|].
  split; [|done]. by rewrite Hp, <- app_assoc.
Qed.

(** A closing connection takes nothing. *)
Lemma enqueue_all_closing l st r : close_with st = Some r -> enqueue_all st l = st.
Proof.
  intros Hc. induction l as [|b l IH]; [done|]. unfold enqueue_all. cbn.
  assert (enqueue_state st b = st) as -> by
    (unfold enqueue_state; by rewrite (enqueue_closing st b r Hc)).
  done.
Qed.

Lemma good_update w rc st st' :
  good w -> heap w !! rc = Some st -> wf st' -> id st' = id st ->
  good (set_heap w (<[rc := st']> (heap w))).
Proof.
  intros [Hh Hc Hs Hr] Hrc Hwf Hid. constructor; cbn; try done.
  - intros rc' st''. destruct (decide (rc = rc')) as [<-|Hn].
    + rewrite lookup_insert_eq. by intros [= <-].
    + rewrite lookup_insert_ne by done. apply Hh.
  - intros c rc' E. destruct (Hc c rc' E) as (st0 & E0 & Hi).
    destruct (decide (rc = rc')) as [<-|Hn].
    + exists st'. rewrite lookup_insert_eq. split; [done|]. congruence.
    + exists st0. by rewrite lookup_insert_ne.
Qed.

Lemma enqueue_rc_spec w rc st b :
  good w -> heap w !! rc = Some st ->
  exists o, enqueue_rc rc b w =
    Done (set_heap w (<[rc := enqueue_state st b]> (heap w)), o).
Proof.
  intros Hg Hrc. destruct (enqueue_state_cases st b) as (o & E & _ & _); [by apply Hg in Hrc|].
  exists o. unfold enqueue_rc. mstep ltac:(unfold deref; by rewrite Hrc).
  by mstep ltac:(unfold lift; by rewrite E).
Qed.

(** An [emit_*] of frame [f] into a short buffer that it fits. *)
Lemma emit_to_spec w rc st n f :
  good w -> heap w !! rc = Some st -> 0 <= n <= isize_max -> frame_nums_ok f ->
  len (encode f) <= n ->
  emit_to rc n (emit_frame f) w =
    Done (set_heap w (<[rc := enqueue_state st (encode f)]> (heap w)), tt).
Proof.
  intros Hg Hrc Hn Hf Hl. unfold emit_to.
  destruct (emit_frame_done (zeroed n) f) as [[_ E]|[Hlt _]]; [|done|..].
  - unfold slice_ok. rewrite len_zeroed; lia.
  - mstep ltac:(unfold lift; by rewrite E).
    mstep ltac:(unfold lift; by rewrite slice_to_app).
    destruct (enqueue_rc_spec w rc st (encode f) Hg Hrc) as (o & Eo).
    by mstep ltac:(exact Eo).
  - rewrite len_zeroed in Hlt by lia. lia.
Qed.

(** The worker after cell [rc] was enqueued [b]. *)
Definition told (w : Worker N) (rc : Rc) (b : bytes) : Worker N :=
  set_heap w (alter (fun st => enqueue_state st b) rc (heap w)).

Lemma told_insert w rc st b :
  heap w !! rc = Some st -> told w rc b = set_heap w (<[rc := enqueue_state st b]> (heap w)).
Proof.
  intros Hst. unfold told. f_equal. apply map_eq. intros i.
  destruct (decide (i = rc)) as [->|Hn].
  - by rewrite lookup_alter_eq, Hst, lookup_insert_eq.
  - by rewrite lookup_alter_ne, lookup_insert_ne by done.
Qed.
Lemma told_good w rc b : good w -> good (told w rc b).
Proof.
  intros Hg. destruct (heap w !! rc) as [st|] eqn:Hst.
  - rewrite (told_insert w rc st b Hst).
    destruct (enqueue_state_cases st b) as (_ & _ & Hwf & Hid); [by apply Hg in Hst|].
    by eapply good_update.
  - unfold told. replace (alter _ _ _) with (heap w); [by destruct Hg|].
    apply map_eq. intros i. destruct (decide (i = rc)) as [->|Hn].
    + by rewrite lookup_alter_eq, Hst.
    + by rewrite lookup_alter_ne.
Qed.
Lemma told_io w rc b : only_io w (told w rc b).
Proof. by constructor. Qed.

Lemma told_grows w rc b : good w -> grows w (told w rc b).
Proof.
  intros Hg rc'. unfold told. wsimpl. destruct (decide (rc' = rc)) as [->|Hn].
  - rewrite lookup_alter_eq. destruct (heap w !! rc) as [st|] eqn:Hst; [|done]. cbn.
    destruct (enqueue_state_ok st b) as [acc Ha]; [by eapply good_heap|]. eauto.
  - rewrite lookup_alter_ne by done. apply (grows_refl w Hg).
Qed.

Lemma emit_to_told w rc n f :
  good w -> is_Some (heap w !! rc) -> 0 <= n <= isize_max -> frame_nums_ok f ->
  len (encode f) <= n -> emit_to rc n (emit_frame f) w = Done (told w rc (encode f), tt).
Proof.
  intros Hg [st Hst] Hn Hf Hl. rewrite (told_insert w rc st) by done. by apply emit_to_spec.
Qed.
Lemma emit_err_to_told w rc text :
  good w -> is_Some (heap w !! rc) -> len text <= 4000 ->
  emit_err_to rc text w = Done (told w rc (encode (Frame.Err text)), tt).
Proof.
  intros Hg Hst Hl. apply (emit_to_told w rc SHORT_FRAME_BUF (Frame.Err text)); try done.
  assert (len (encode (Frame.Err text)) = len text + 7) as ->.
  { unfold encode. rewrite !len_app, len_CRLF. change (len (bs "-ERR ")) with 5. lia. }
  change SHORT_FRAME_BUF with 4096. lia.
Qed.
End Lemmas.
