(* ===== verification/Dispatch.v ===== *)
(** The publish path ([aulon-server/src/main.rs]): matching a publication
    against the shard's subscriptions, the queue-group choice, delivery to
    the subscribers' outbound buffers, and the hand-off to peer shards. *)
From Stdlib Require Import ZArith Lia Strings.Byte.
From stdpp Require Import base gmap list strings.
From S2P Require Import Prelude Subject Trie TrieSpec ConnState ShardInbox Wire Emit Worker.

Abbreviation Snapshot := (ConnectionId.t * bytes)%type.
Abbreviation GroupBucket := (bytes * list Snapshot)%type.

(** [groups.iter_mut().find(..)]: pushes to the first bucket of the group,
    or appends a new bucket. *)
Fixpoint add_to_group (qg : bytes) (entry : Snapshot) (groups : list GroupBucket) :
    list GroupBucket :=
  match groups with
  | [] => [(qg, [entry])]
  | (k, members) :: groups =>
      if bool_decide (k = qg) then (k, members ++ [entry]) :: groups
      else (k, members) :: add_to_group qg entry groups
  end.

(** The [for_each_match] callback of [dispatch_local]. *)
Definition collect (st : list Snapshot * list GroupBucket) (sub : Sub) :
    list Snapshot * list GroupBucket :=
  let entry := (conn_id sub, sid sub) in
  match queue_group sub with
  | Some qg => (st.1, add_to_group qg entry st.2)
  | None => (st.1 ++ [entry], st.2)
  end.

(** The first block of [dispatch_local], for any routing table. *)
Definition route {T} `{RoutingTable T} (t : T) (subject : bytes) :
    result (list Snapshot * list GroupBucket) SubjectError.t :=
  rt_for_each_match collect t subject ([], []).

Section Dispatch.
Context `{N : Notify}.

Section Publication.
Variables (subject : bytes) (reply_to : option bytes) (payload : bytes).

(** Encodes the [MSG] into the worker's scratch and enqueues it on its
    connection, if it fits and the connection is still known. *)
Definition deliver (to : Snapshot) : M unit :=
  scratch ← gets emit_scratch;
  r ← lift (emit_msg subject to.2 reply_to payload scratch);
  let '(scratch', res) := r in
  _ ← modify (fun w => set_emit_scratch w scratch');
  match res with
  | Err _ => mret tt
  | Ok n =>
      target ← lookup_conn to.1;
      match target with
      | None => mret tt
      | Some rc =>
          b ← lift (slice_to scratch' n);
          _ ← enqueue_rc rc b;
          mret tt
      end
  end.

Fixpoint deliver_plain (plain : list Snapshot) : M unit :=
  match plain with
  | [] => mret tt
  | to :: plain => _ ← deliver to; deliver_plain plain
  end.

Fixpoint deliver_groups (groups : list GroupBucket) : M unit :=
  match groups with
  | [] => mret tt
  | (_, members) :: groups =>
      pick ← pick_index (len members);
      to ← lift (index members pick);
      _ ← deliver to;
      deliver_groups groups
  end.

Definition dispatch_local : M (result unit SubjectError.t) :=
  t ← gets table;
  match route t subject with
  | Err e => mret (Err e)
  | Ok (plain, groups) =>
      _ ← deliver_plain plain;
      _ ← deliver_groups groups;
      mret (Ok tt)
  end.

(** Which compare-exchanges of the push to peer [i] fail spuriously. *)
Variable weak : nat -> list bool.

(** The loop over the peers' inboxes; returns [back_pressure_seen]. *)
Fixpoint push_peers (frame : PublishedFrame) (peers : list nat) (back_pressure_seen : bool) : M bool :=
  match peers with
  | [] => mret back_pressure_seen
  | i :: peers =>
      our_idx ← gets shard_id;
      if Z.of_nat i =? our_idx then push_peers frame peers back_pressure_seen else
      inboxes ← gets peer_inboxes;
      inbox ← lift (expect (inboxes !! i));
      r ← lift (push (weak i) inbox frame);
      _ ← modify (fun w => set_peer_inboxes w (<[i := r.1]> (peer_inboxes w)));
      match r.2 with
      | Ok was_empty =>
          _ ← modify (fun w => if was_empty && (i <? peer_wakers w)%nat
                               then set_kicks w (kicks w ++ [i]) else w);
          push_peers frame peers back_pressure_seen
      | Err _ => push_peers frame peers true
      end
  end.

Definition handle_pub (state : Rc) : M unit :=
  r ← dispatch_local;
  match r with
  | Err e => emit_err_to state (subject_error_text e)
  | Ok _ =>
      count ← gets shard_count;
      if 1 <? count then
        let frame := mkPublished subject reply_to payload in
        back_pressure_seen ← push_peers frame (List.seq 0 (Z.to_nat count)) false;
        if back_pressure_seen : bool then emit_err_to state (bs "shard back-pressure") else mret tt
      else mret tt
  end.
End Publication.

(** The [while let Some(frame) = inbox.pop()] loop of [drain_task]; [fuel]
    bounds the frames of one wake-up. *)
Fixpoint drain_inbox (fuel : nat) : M unit :=
  match fuel with
  | O => lift Panic
  | S fuel =>
      our_idx ← gets shard_id;
      inboxes ← gets peer_inboxes;
      inbox ← lift (index inboxes our_idx);
      r ← lift (pop inbox);
      _ ← modify (fun w => set_peer_inboxes w (<[Z.to_nat our_idx := r.1]> (peer_inboxes w)));
      match r.2 with
      | None => mret tt
      | Some frame =>
          _ ← dispatch_local (ShardInbox.subject frame) (ShardInbox.reply_to frame)
                (ShardInbox.payload frame);
          drain_inbox fuel
      end
  end.

(** One round of [drain_task] on the result of the eventfd read: whether the
    task goes on. *)
Definition drain_round (fuel : nat) (read : option Z) : M bool :=
  match read with
  | Some n => if n =? 8 then _ ← drain_inbox fuel; mret true else mret false
  | None => mret false
  end.
End Dispatch.
