(* ===== verification/DispatchSpec.v ===== *)
(** Correctness of the publish path: which subscriptions a publication
    reaches, that every queue group is served once, and what each connection
    receives. *)
From Stdlib Require Import ZArith Lia Strings.Byte.
From stdpp Require Import base gmap list strings.
From S2P Require Import Prelude Subject Trie TrieSpec ConnState ShardInbox Wire Emit Worker Dispatch.

(* ------------------------------------------------------------------ *)
(** * Who gets a publication *)

(** The ungrouped subscriptions of a list, and the members of group [qg]. *)
Definition plain_of (l : list Sub) : list Snapshot :=
  omap (fun s => match queue_group s with None => Some (conn_id s, sid s) | Some _ => None end) l.
Definition members_of (qg : bytes) (l : list Sub) : list Snapshot :=
  omap (fun s => if bool_decide (queue_group s = Some qg) then Some (conn_id s, sid s) else None) l.
Definition groups_of (l : list Sub) : list bytes := omap queue_group l.

(** [picks] names each queue group of [l] once, with one of its members. *)
Record choice (l : list Sub) (picks : list (bytes * Snapshot)) : Prop := {
  choice_once : NoDup picks.*1;
  choice_groups : forall qg, qg ∈ picks.*1 <-> qg ∈ groups_of l;
  choice_member : forall qg s, (qg, s) ∈ picks -> s ∈ members_of qg l;
}.

(** The buckets [dispatch_local] builds from the matches [l]. *)
Record buckets_ok (l : list Sub) (gs : list GroupBucket) : Prop := {
  bo_once : NoDup gs.*1;
  bo_members : forall qg ms, (qg, ms) ∈ gs -> ms = members_of qg l /\ ms <> [];
  bo_all : forall qg, qg ∈ gs.*1 <-> qg ∈ groups_of l;
}.

Lemma plain_of_app l k : plain_of (l ++ k) = plain_of l ++ plain_of k.
Proof. apply omap_app. Qed.
Lemma members_of_app qg l k : members_of qg (l ++ k) = members_of qg l ++ members_of qg k.
Proof. apply omap_app. Qed.
Lemma groups_of_app l k : groups_of (l ++ k) = groups_of l ++ groups_of k.
Proof. apply omap_app. Qed.

Lemma members_of_nil qg l : qg ∉ groups_of l -> members_of qg l = [].
Proof.
  induction l as [|s l IH]; [done|]. unfold groups_of, members_of. cbn.
  destruct (queue_group s) as [g|].
  - rewrite not_elem_of_cons. intros [Hn Hl]. rewrite bool_decide_eq_false_2 by congruence. auto.
  - intros Hl. rewrite bool_decide_eq_false_2 by done. auto.
Qed.
Lemma members_of_in qg l : qg ∈ groups_of l -> members_of qg l <> [].
Proof.
  unfold groups_of. rewrite list_elem_of_omap. intros (s & Hs & Hq) Hn.
  assert ((conn_id s, sid s) ∈ members_of qg l) as Hin.
  { unfold members_of. apply list_elem_of_omap. exists s. split; [done|].
    by rewrite bool_decide_eq_true_2. }
  rewrite Hn in Hin. by apply not_elem_of_nil in Hin.
Qed.

Section AddToGroup.
Context (qg : bytes) (e : Snapshot).

Lemma add_to_group_keys gs g :
  g ∈ (add_to_group qg e gs).*1 <-> g = qg \/ g ∈ gs.*1.
Proof.
  induction gs as [|[k ms] gs IH]; cbn; [set_solver|].
  case_bool_decide; subst; cbn; rewrite !elem_of_cons, ?IH; naive_solver.
Qed.
Lemma add_to_group_once gs : NoDup gs.*1 -> NoDup (add_to_group qg e gs).*1.
Proof.
  induction gs as [|[k ms] gs IH]; cbn; [constructor; [set_solver|constructor]|].
  intros Hn. apply NoDup_cons in Hn as [Hk Hn]. case_bool_decide; cbn.
  - by apply NoDup_cons.
  - apply NoDup_cons. split; [|auto]. rewrite add_to_group_keys. naive_solver.
Qed.
Lemma add_to_group_members gs g ms :
  NoDup gs.*1 -> (g, ms) ∈ add_to_group qg e gs ->
  (g <> qg /\ (g, ms) ∈ gs) \/
  (g = qg /\ (((qg ∉ gs.*1) /\ ms = [e]) \/ exists ms0, (qg, ms0) ∈ gs /\ ms = ms0 ++ [e])).
Proof.
  induction gs as [|[k ks] gs IH]; cbn.
  { intros _ H%list_elem_of_singleton. simplify_eq. right. split; [done|]. left. set_solver. }
  intros Hn. apply NoDup_cons in Hn as [Hk Hn]. case_bool_decide as Hkq.
  - subst k. rewrite elem_of_cons. intros [H|H]; simplify_eq.
    + right. split; [done|]. right. exists ks. set_solver.
    + left. split; [|set_solver]. intros ->. apply Hk. by apply (list_elem_of_fmap_2 fst _ _ H).
  - rewrite elem_of_cons. intros [H|H]; simplify_eq; [left; set_solver|].
    destruct (IH Hn H) as [[? ?]|[-> [[? ?]|(ms0 & ? & ?)]]]; [left; set_solver|..]; right;
      (split; [done|]); [left; set_solver|right; exists ms0; set_solver].
Qed.
End AddToGroup.

Lemma collect_fold l :
  exists gs, fold_left collect l ([], []) = (plain_of l, gs) /\ buckets_ok l gs.
Proof.
  induction l as [|s l IH] using rev_ind.
  { exists []. split; [done|]. constructor; [constructor|set_solver|done]. }
  destruct IH as (gs & E & [Hn Hm Ha]).
  rewrite fold_left_app, E, plain_of_app. cbn [fold_left]. unfold collect. cbn [fst snd].
  assert (plain_of [s] = match queue_group s with None => [(conn_id s, sid s)] | Some _ => [] end)
    as Hpl by (unfold plain_of; cbn; by destruct (queue_group s)).
  rewrite Hpl. destruct (queue_group s) as [g|] eqn:Hq.
  - eexists. rewrite app_nil_r. split; [reflexivity|].
    assert (forall qg, members_of qg (l ++ [s]) =
      members_of qg l ++ if decide (qg = g) then [(conn_id s, sid s)] else []) as Hms.
    { intros qg. rewrite members_of_app. f_equal. unfold members_of. cbn. rewrite Hq.
      case_decide; [subst; by rewrite bool_decide_eq_true_2|by rewrite bool_decide_eq_false_2 by congruence]. }
    constructor.
    + by apply add_to_group_once.
    + intros qg ms H. rewrite Hms. destruct (add_to_group_members _ _ _ _ _ Hn H)
        as [[Hg Hi]|[-> [[Hni ->]|(ms0 & Hi & ->)]]].
      * rewrite decide_False by done. rewrite app_nil_r. by apply Hm.
      * rewrite decide_True by done. rewrite members_of_nil by by rewrite <- Ha. done.
      * rewrite decide_True by done. apply Hm in Hi as [-> _]. split; [done|]. by destruct (members_of g l).
    + intros qg. rewrite add_to_group_keys, Ha, groups_of_app, elem_of_app.
      unfold groups_of at 3. cbn. rewrite Hq, list_elem_of_singleton. naive_solver.
  - exists gs. split; [done|].
    assert (forall qg, members_of qg (l ++ [s]) = members_of qg l) as Hms.
    { intros qg. rewrite members_of_app. unfold members_of at 2. cbn. rewrite Hq.
      rewrite bool_decide_eq_false_2 by done. by rewrite app_nil_r. }
    constructor; [done| |].
    + intros qg ms H. rewrite Hms. by apply Hm.
    + intros qg. rewrite Ha, groups_of_app, elem_of_app. unfold groups_of at 3. cbn. rewrite Hq.
      set_solver.
Qed.

Lemma choice_perm l l' picks : l ≡ₚ l' -> choice l picks -> choice l' picks.
Proof.
  intros Hl [Ho Hg Hm]. constructor; [done|..].
  - intros qg. rewrite Hg. unfold groups_of. by rewrite Hl.
  - intros qg s Hs. apply Hm in Hs. unfold members_of in *. by rewrite <- Hl.
Qed.

Lemma buckets_choice l gs ss :
  buckets_ok l gs -> Forall2 (fun g s => s ∈ g.2) gs ss -> choice l (zip gs.*1 ss).
Proof.
  intros [Hn Hm Ha] Hf. apply Forall2_length in Hf as Hlen.
  assert ((zip gs.*1 ss).*1 = gs.*1) as Hk by (apply fst_zip; by rewrite length_fmap, Hlen).
  constructor; rewrite ?Hk; [done|done|].
  intros qg s Hs. apply list_elem_of_lookup in Hs as [i Hi].
  apply lookup_zip_Some in Hi as [Hi1 Hi2].
  rewrite list_lookup_fmap in Hi1. apply fmap_Some in Hi1 as ([g ms] & Hi1 & ->).
  pose proof (Forall2_lookup_lr _ _ _ _ _ _ Hf Hi1 Hi2) as Hin. cbn in *.
  destruct (Hm g ms) as [<- _]; [by eapply list_elem_of_lookup_2|done].
Qed.

(** What the interface of the routing table gives the dispatcher. *)
Lemma route_spec {T} `{RoutingTable T} (t : T) tb subject toks :
  rt_stands_for t tb -> parse_publisher_subject subject = Ok toks ->
  exists l gs, l ≡ₚ table_match toks tb /\ route t subject = Ok (plain_of l, gs) /\ buckets_ok l gs.
Proof.
  intros Ht Hs. destruct (rt_match_ok t tb subject toks Ht Hs) as (l & Hl & Hf).
  destruct (collect_fold l) as (gs & E & Hgs). exists l, gs. split_and!; [done| |done].
  unfold route. by rewrite Hf, E.
Qed.

(* ------------------------------------------------------------------ *)
(** * What each connection receives *)

Section Publication.
Context `{N : Notify}.
Variables (subject : bytes) (reply_to : option bytes) (payload : bytes).
Hypothesis Hpayload : slice_ok payload.

(** The [MSG] a subscription with id [sid] is sent. *)
Definition msg (sid : bytes) : bytes := encode (Frame.Msg subject sid reply_to payload).

#[local] Arguments msg _ : simpl never.

(** The messages for connection [c] among the deliveries [D]; one that does
    not fit the scratch of [n] bytes is not sent. *)
Definition letters (n : Z) (c : ConnectionId.t) (D : list Snapshot) : list bytes :=
  omap (fun s => if bool_decide (s.1 = c) && (len (msg s.2) <=? n) then Some (msg s.2) else None) D.

(** The messages the cell [rc] of a connection with id [c] gets: none unless
    it is the one the worker knows under [c]. *)
Definition mail (w : Worker N) (rc : Rc) (c : ConnectionId.t) (D : list Snapshot) : list bytes :=
  if bool_decide (connections w !! c = Some rc) then letters (len (emit_scratch w)) c D else [].

(** Every connection known to the worker is enqueued its messages in order;
    other cells are left alone. *)
Definition delivered (w w' : Worker N) (D : list Snapshot) : Prop :=
  forall rc, heap w' !! rc = (fun st => enqueue_all st (mail w rc (id st) D)) <$> heap w !! rc.

Record posted (w : Worker N) (D : list Snapshot) (w' : Worker N) : Prop := {
  po_good : good w';
  po_io : only_io w w';
  po_heap : delivered w w' D;
}.

Lemma letters_one n c c' s :
  letters n c [(c', s)] = if bool_decide (c' = c) && (len (msg s) <=? n) then [msg s] else [].
Proof. unfold letters. cbn. by destruct (_ && _). Qed.
Lemma letters_app n c D E : letters n c (D ++ E) = letters n c D ++ letters n c E.
Proof. apply omap_app. Qed.
Lemma enqueue_all_app st k l : enqueue_all st (k ++ l) = enqueue_all (enqueue_all st k) l.
Proof. apply fold_left_app. Qed.

Lemma posted_nil w : good w -> posted w [] w.
Proof.
  intros Hg. constructor; [done..|]. intros rc. destruct (heap w !! rc); [|done]. cbn.
  unfold mail. by case_bool_decide.
Qed.
Lemma posted_app w D w1 E w2 : good w -> posted w D w1 -> posted w1 E w2 -> posted w (D ++ E) w2.
Proof.
  intros Hg [Hg1 Hi1 Hh1] [Hg2 Hi2 Hh2]. constructor; [done|by etransitivity|].
  intros rc. rewrite Hh2, Hh1. destruct (heap w !! rc) as [st|] eqn:Hst; [|done]. cbn. f_equal.
  apply Hg in Hst. rewrite (proj2 (enqueue_all_wf _ st Hst)). unfold mail.
  rewrite (oio_conns _ _ Hi1), (oio_scratch _ _ Hi1).
  rewrite <- enqueue_all_app. f_equal. case_bool_decide; [|done].
  by rewrite letters_app.
Qed.
Lemma posted_rng w D w' r : 0 < r < 2 ^ 64 -> posted (set_rng w r) D w' -> posted w D w'.
Proof.
  intros Hr [Hg [] Hh]. constructor; [done|by constructor|]. exact Hh.
Qed.

Lemma emit_msg_frame sid : emit_msg subject sid reply_to payload = emit_frame (Frame.Msg subject sid reply_to payload).
Proof. reflexivity. Qed.

Lemma deliver_posts w to :
  good w -> exists w', deliver subject reply_to payload to w = Done (w', tt) /\
    posted w [to] w' /\ rng w' = rng w.
Proof.
  intros Hg. destruct to as [c s]. unfold deliver. cbn [fst snd].
  mstep ltac:(reflexivity). rewrite emit_msg_frame.
  destruct (emit_frame_done (emit_scratch w) (Frame.Msg subject s reply_to payload))
    as [[Hl E]|(Hl & out & nd & E & _ & Ho)]; [apply Hg|done|..].
  - mstep ltac:(unfold lift; rewrite E; reflexivity). mstep ltac:(reflexivity). fold (msg s) in *.
    set (w1 := set_emit_scratch w _).
    assert (good w1) as Hg1.
    { destruct Hg. constructor; unfold w1; wsimpl; try done. unfold slice_ok in *. lens. }
    assert (only_io w w1) as Hi1 by (constructor; unfold w1; wsimpl; try done; lens).
    mstep ltac:(reflexivity). change (connections w1) with (connections w).
    destruct (connections w !! c) as [rc|] eqn:Hc.
    + mstep ltac:(unfold lift; rewrite slice_to_app by done; reflexivity).
      destruct (good_conns w Hg c rc Hc) as (st & Hst & Hid).
      destruct (enqueue_rc_spec w1 rc st (msg s) Hg1 Hst) as (o & Eo).
      mstep ltac:(exact Eo). eexists. split; [reflexivity|]. split; [|done].
      destruct (enqueue_state_cases st (msg s)) as (_ & _ & Hwf' & Hid'); [by apply Hg in Hst|].
      constructor; [by apply good_update with (st := st)|by destruct Hi1; constructor|].
      intros rc'. cbn. destruct (decide (rc = rc')) as [<-|Hn].
      * rewrite lookup_insert_eq, Hst. cbn. unfold mail. rewrite Hid, bool_decide_eq_true_2 by done.
        rewrite letters_one, bool_decide_eq_true_2 by done. by zb.
      * rewrite lookup_insert_ne by done. destruct (heap w !! rc') as [st'|] eqn:Hst'; [|done].
        cbn. unfold mail. case_bool_decide as Hc'; [|done]. rewrite letters_one.
        rewrite bool_decide_eq_false_2; [done|]. congruence.
    + eexists. split; [reflexivity|]. split; [|done]. constructor; [done..|].
      intros rc'. cbn. destruct (heap w !! rc') as [st'|] eqn:Hst'; [|done].
      cbn. unfold mail. case_bool_decide as Hc'; [|done]. rewrite letters_one.
      rewrite bool_decide_eq_false_2; [done|]. congruence.
  - mstep ltac:(unfold lift; rewrite E; reflexivity). mstep ltac:(reflexivity). fold (msg s) in *.
    eexists. split; [reflexivity|]. split; [|done]. constructor.
    + destruct Hg. constructor; cbn; try done. unfold slice_ok in *. lia.
    + by constructor.
    + intros rc'. cbn. destruct (heap w !! rc') as [st'|] eqn:Hst'; [|done].
      cbn. unfold mail. case_bool_decide as Hc'; [|done].
      rewrite letters_one. zb. by rewrite andb_false_r.
Qed.

Lemma deliver_plain_posts D w :
  good w -> exists w', deliver_plain subject reply_to payload D w = Done (w', tt) /\ posted w D w' /\
    rng w' = rng w.
Proof.
  revert w. induction D as [|to D IH]; intros w Hg; cbn [deliver_plain].
  { exists w. split_and!; [done| |done]. by apply posted_nil. }
  destruct (deliver_posts w to Hg) as (w1 & E1 & Hp1 & Hr1).
  destruct (IH w1 (po_good _ _ _ Hp1)) as (w2 & E2 & Hp2 & Hr2).
  mstep ltac:(exact E1). exists w2. split_and!; [done| |congruence].
  by apply (posted_app w [to] w1 D w2).
Qed.

Lemma pick_index_spec w n :
  good w -> 0 < n ->
  pick_index n w = Done (set_rng w (xorshift64 (rng w)), xorshift64 (rng w) mod n) /\
  good (set_rng w (xorshift64 (rng w))).
Proof.
  intros [? ? ? Hr] Hn. split.
  - unfold pick_index. mstep ltac:(unfold lift, assert_; zb; reflexivity). reflexivity.
  - constructor; cbn; try done. by apply xorshift64_range.
Qed.

Lemma deliver_groups_posts gs w :
  good w -> Forall (fun g => g.2 <> []) gs ->
  exists w' picks, deliver_groups subject reply_to payload gs w = Done (w', tt) /\
    posted w picks w' /\ Forall2 (fun g s => s ∈ g.2) gs picks.
Proof.
  revert w. induction gs as [|[qg ms] gs IH]; intros w Hg Hgs; cbn [deliver_groups].
  { exists w, []. split_and!; [done| |done]. by apply posted_nil. }
  apply Forall_cons in Hgs as [Hms Hgs]. cbn in Hms.
  assert (0 < len ms) by (destruct ms; [done|lens]).
  destruct (pick_index_spec w (len ms) Hg) as [Ep Hgp]; [done|].
  mstep ltac:(exact Ep). set (i := _ mod len ms) in *.
  assert (0 <= i < len ms) as Hi by (by apply Z.mod_pos_bound).
  destruct (lookup_lt_is_Some_2 ms (Z.to_nat i)) as [s Hs]; [unfold len in Hi; lia|].
  mstep ltac:(unfold lift, index; zb; rewrite Hs; reflexivity).
  destruct (deliver_posts _ s Hgp) as (w1 & E1 & Hp1 & _).
  mstep ltac:(exact E1).
  destruct (IH w1 (po_good _ _ _ Hp1) Hgs) as (w2 & picks & E2 & Hp2 & Hf).
  exists w2, (s :: picks). split_and!; [done| |].
  - eapply posted_rng; [apply (good_rng _ Hgp)|]. by apply (posted_app _ [s] w1 picks w2).
  - constructor; [|done]. cbn. by eapply list_elem_of_lookup_2.
Qed.

Lemma dispatch_local_err w e :
  parse_publisher_subject subject = Err e ->
  dispatch_local subject reply_to payload w = Done (w, Err e).
Proof.
  intros He. unfold dispatch_local. mstep ltac:(reflexivity).
  unfold route. by rewrite (rt_match_err _ _ _ _ _ e).
Qed.

Lemma dispatch_local_ok w tb toks :
  good w -> refines (table w) tb -> parse_publisher_subject subject = Ok toks ->
  exists w' plain picks, dispatch_local subject reply_to payload w = Done (w', Ok tt) /\
    plain ≡ₚ plain_of (table_match toks tb) /\ choice (table_match toks tb) picks /\
    posted w (plain ++ picks.*2) w'.
Proof.
  intros Hg Ht Hs.
  destruct (route_spec (H := trie_routing) (table w) tb subject toks Ht Hs) as (l & gs & Hl & Er & Hgs).
  destruct (deliver_plain_posts (plain_of l) w Hg) as (w1 & E1 & Hp1 & _).
  destruct (deliver_groups_posts gs w1 (po_good _ _ _ Hp1)) as (w2 & ss & E2 & Hp2 & Hf).
  { apply Forall_forall. intros [qg ms] Hin. by apply (bo_members _ _ Hgs) in Hin as [_ ?]. }
  exists w2, (plain_of l), (zip gs.*1 ss). apply Forall2_length in Hf as Hlen.
  split_and!.
  - unfold dispatch_local. mstep ltac:(reflexivity). rewrite Er.
    mstep ltac:(exact E1). by mstep ltac:(exact E2).
  - unfold plain_of. by rewrite Hl.
  - eapply choice_perm; [exact Hl|]. by apply buckets_choice.
  - rewrite snd_zip by (rewrite length_fmap, Hlen; done). by eapply posted_app.
Qed.
End Publication.

(* ------------------------------------------------------------------ *)
(** * The hand-off to peer shards *)

Section HandOff.
Context `{N : Notify}.

(** Inbox [i] is a ring of [2 ^ ks i] cells that holds [qs i]. *)
Definition all_hold (w : Worker N) (ks hs : nat -> Z) (qs : nat -> list PublishedFrame) : Prop :=
  forall i m, peer_inboxes w !! i = Some m -> holds m (ks i) (hs i) (qs i).

(** A bounded queue after a frame was offered to it. *)
Definition offer (frame : PublishedFrame) (k : Z) (q : list PublishedFrame) : list PublishedFrame :=
  if len q <? 2 ^ k then q ++ [frame] else q.
Definition offers (frame : PublishedFrame) (our : Z) (peers : list nat) (ks : nat -> Z)
    (qs : nat -> list PublishedFrame) (i : nat) : list PublishedFrame :=
  if bool_decide (i ∈ peers /\ Z.of_nat i <> our) then offer frame (ks i) (qs i) else qs i.

(** The shards to kick, and whether some peer refuses the frame. *)
Definition to_kick (our : Z) (wakers : nat) (qs : nat -> list PublishedFrame) (peers : list nat) :
    list nat :=
  filter (fun i => Z.of_nat i <> our /\ qs i = [] /\ (i < wakers)%nat) peers.
Definition refused (our : Z) (ks : nat -> Z) (qs : nat -> list PublishedFrame) (peers : list nat) :
    bool := existsb (fun i => negb (Z.of_nat i =? our) && (2 ^ ks i <=? len (qs i))) peers.

(** Only inboxes and kicks changed. *)
Definition pushes_only (w w' : Worker N) : Prop :=
  exists boxes ks, w' = set_kicks (set_peer_inboxes w boxes) ks /\ length boxes = length (peer_inboxes w).

Lemma all_hold_ext w ks hs qs qs' :
  (forall i, qs i = qs' i) -> all_hold w ks hs qs -> all_hold w ks hs qs'.
Proof. intros E H i m Hi. rewrite <- E. by apply H. Qed.
Lemma to_kick_ext our wakers qs qs' peers :
  (forall i, i ∈ peers -> qs i = qs' i) -> to_kick our wakers qs peers = to_kick our wakers qs' peers.
Proof.
  intros E. unfold to_kick. induction peers as [|i peers IH]; [done|]. rewrite !filter_cons.
  rewrite IH by set_solver. rewrite (E i) by set_solver. done.
Qed.
Lemma refused_ext our ks qs qs' peers :
  (forall i, i ∈ peers -> qs i = qs' i) -> refused our ks qs peers = refused our ks qs' peers.
Proof.
  intros E. unfold refused. induction peers as [|i peers IH]; [done|]. cbn.
  rewrite E by set_solver. f_equal. apply IH. set_solver.
Qed.
Lemma pushes_only_trans w w1 w2 : pushes_only w w1 -> pushes_only w1 w2 -> pushes_only w w2.
Proof.
  intros (b1 & k1 & -> & H1) (b2 & k2 & -> & H2). exists b2, k2. split; [done|].
  etransitivity; [exact H2|exact H1].
Qed.

Section Push.
Variables (weak : nat -> list bool) (frame : PublishedFrame).

Lemma push_one w i m ks hs qs :
  all_hold w ks hs qs -> peer_inboxes w !! i = Some m ->
  exists m' r, push (weak i) m frame = Done (m', r) /\
    all_hold (set_peer_inboxes w (<[i := m']> (peer_inboxes w))) ks hs
      (fun j => if decide (j = i) then offer frame (ks i) (qs i) else qs j) /\
    r = (if len (qs i) <? 2 ^ ks i then Ok (len (qs i) =? 0) else Err frame).
Proof.
  intros Hw Hi. pose proof (Hw i m Hi) as Hm.
  assert (exists m' r, push (weak i) m frame = Done (m', r) /\
    holds m' (ks i) (hs i) (offer frame (ks i) (qs i)) /\
    r = (if len (qs i) <? 2 ^ ks i then Ok (len (qs i) =? 0) else Err frame)) as (m' & r & E & Hm' & Hr).
  { unfold offer. destruct (Z.ltb_spec (len (qs i)) (2 ^ ks i)).
    - eexists _, _. split; [by apply push_spec|]. split; [by apply holds_pushed|done].
    - eexists _, _. split; [apply (push_full _ _ _ _ _ _ Hm)|done].
      pose proof (h_room _ _ _ _ Hm). lia. }
  exists m', r. split_and!; [done| |done].
  intros j mj. wsimpl. destruct (decide (j = i)) as [->|Hn].
  - rewrite list_lookup_insert_eq by by eapply lookup_lt_Some. by intros [= <-].
  - rewrite list_lookup_insert_ne by done. apply Hw.
Qed.

Lemma push_peers_cons i peers bp w ks hs qs :
  all_hold w ks hs qs -> (i < length (peer_inboxes w))%nat -> Z.of_nat i <> shard_id w ->
  exists w1, push_peers weak frame (i :: peers) bp w =
      push_peers weak frame peers (bp || (2 ^ ks i <=? len (qs i))) w1 /\
    pushes_only w w1 /\
    all_hold w1 ks hs (fun j => if decide (j = i) then offer frame (ks i) (qs i) else qs j) /\
    kicks w1 = kicks w ++ (if decide (qs i = [] /\ (i < peer_wakers w)%nat) then [i] else []).
Proof.
  intros Hw Hil Ho. destruct (lookup_lt_is_Some_2 _ _ Hil) as [m Hm].
  destruct (push_one w i m ks hs qs Hw Hm) as (m' & r & Ep & Hw1 & ->).
  cbn [push_peers]. mstep ltac:(reflexivity). rewrite (proj2 (Z.eqb_neq _ _)) by done.
  mstep ltac:(reflexivity). mstep ltac:(unfold lift; rewrite Hm; reflexivity).
  mstep ltac:(unfold lift; rewrite Ep; reflexivity). mstep ltac:(reflexivity). cbn [fst snd].
  set (w1 := set_peer_inboxes w _) in *.
  assert (forall ks', pushes_only w (set_kicks w1 ks')) as Hpo.
  { intros ks'. exists (<[i := m']> (peer_inboxes w)), ks'. split; [done|]. by rewrite length_insert. }
  pose proof (h_room _ _ _ _ (Hw i m Hm)). pose proof (h_k _ _ _ _ (Hw i m Hm)) as Hk.
  pose proof (pow_bounds _ Hk). destruct (Z.ltb_spec (len (qs i)) (2 ^ ks i)).
  - eexists. split; [mstep ltac:(reflexivity); zb; by rewrite orb_false_r|].
    case_decide as Hd.
    + destruct Hd as [Hq Hlt]. replace (len (qs i) =? 0) with true by by rewrite Hq.
      rewrite (proj2 (Nat.ltb_lt _ _)) by done. split_and!; [exact (Hpo _)|exact Hw1|done].
    + rewrite app_nil_r. replace ((len (qs i) =? 0) && (i <? peer_wakers w1)%nat) with false.
      * split_and!; [|done..]. exact (Hpo (kicks w)).
      * symmetry. apply andb_false_iff. destruct (decide (qs i = [])) as [Hq|Hq].
        -- right. apply Nat.ltb_ge. change (peer_wakers w1) with (peer_wakers w). 
           apply not_and_l in Hd as [?|?]; [done|lia].
        -- left. apply Z.eqb_neq. intros Hl. by apply len_zero in Hl.
  - eexists. split; [zb; by rewrite orb_true_r|]. rewrite decide_False.
    + rewrite app_nil_r. split_and!; [|done..]. exact (Hpo (kicks w)).
    + intros [Hq _]. rewrite Hq in *. lens.
Qed.

Lemma push_peers_spec peers bp w ks hs qs :
  NoDup peers -> Forall (fun i => i < length (peer_inboxes w))%nat peers ->
  all_hold w ks hs qs ->
  exists w', push_peers weak frame peers bp w =
      Done (w', bp || refused (shard_id w) ks qs peers) /\
    pushes_only w w' /\
    all_hold w' ks hs (offers frame (shard_id w) peers ks qs) /\
    kicks w' = kicks w ++ to_kick (shard_id w) (peer_wakers w) qs peers.
Proof.
  revert bp w qs. induction peers as [|i peers IH]; intros bp w qs Hnd Hlt Hw.
  { exists w. split_and!; [by rewrite orb_false_r| | |by rewrite app_nil_r].
    - exists (peer_inboxes w), (kicks w). split; [by destruct w|done].
    - eapply all_hold_ext; [|exact Hw]. intros j. unfold offers.
      rewrite bool_decide_eq_false_2; [done|set_solver]. }
  apply NoDup_cons in Hnd as [Hi Hnd]. apply Forall_cons in Hlt as [Hil Hlt].
  unfold to_kick. rewrite filter_cons. fold (to_kick (shard_id w) (peer_wakers w) qs peers).
  unfold refused. cbn [existsb]. fold (refused (shard_id w) ks qs peers).
  destruct (Z.eqb_spec (Z.of_nat i) (shard_id w)) as [Ho|Ho]; cbn [negb andb orb].
  - destruct (IH bp w qs Hnd Hlt Hw) as (w' & E & Hp & Ha & Hk). exists w'. split_and!; [|done|..].
    + cbn [push_peers]. mstep ltac:(reflexivity). by rewrite (proj2 (Z.eqb_eq _ _)).
    + eapply all_hold_ext; [|exact Ha]. intros j. unfold offers.
      erewrite bool_decide_ext; [done|]. set_solver.
    + rewrite decide_False by naive_solver. done.
  - destruct (push_peers_cons i peers bp w ks hs qs Hw Hil Ho) as (w1 & E1 & Hp1 & Hw1 & Hk1).
    set (qs1 := fun j => if decide (j = i) then _ else qs j) in *.
    assert (forall j, j ∈ peers -> qs1 j = qs j) as Hqs.
    { intros j Hj. unfold qs1. rewrite decide_False; [done|]. intros ->. done. }
    pose proof Hp1 as (b1 & k1 & Ew & Hlb).
    destruct (IH (bp || (2 ^ ks i <=? len (qs i))) w1 qs1 Hnd) as (w' & E & Hp & Ha & Hk); [|done|].
    { subst w1. wsimpl. by rewrite Hlb. }
    rewrite (refused_ext _ _ _ qs) in E by done. rewrite (to_kick_ext _ _ _ qs) in Hk by done.
    replace (shard_id w1) with (shard_id w) in * by by subst w1.
    replace (peer_wakers w1) with (peer_wakers w) in * by by subst w1.
    exists w'. split_and!.
    + by rewrite E1, E, orb_assoc.
    + by eapply pushes_only_trans.
    + eapply all_hold_ext; [|exact Ha]. intros j. unfold offers. case_bool_decide as Hj.
      * rewrite bool_decide_eq_true_2 by set_solver. rewrite Hqs by naive_solver. done.
      * unfold qs1. destruct (decide (j = i)) as [->|Hji]; [rewrite bool_decide_eq_true_2; [done|set_solver]|].
        rewrite bool_decide_eq_false_2; [done|]. set_solver.
    + rewrite Hk, Hk1, <- app_assoc. f_equal. repeat case_decide; naive_solver.
Qed.
End Push.
End HandOff.

(* ------------------------------------------------------------------ *)
(** * A publication, end to end *)

Section Publish.
Context `{N : Notify}.
Variables (subject : bytes) (reply_to : option bytes) (payload : bytes).
Hypothesis Hpayload : slice_ok payload.
Variable weak : nat -> list bool.

Let frame := mkPublished subject reply_to payload.

Lemma subject_error_short e : len (subject_error_text e) <= 4000.
Proof. by destruct e. Qed.

Lemma handle_pub_err w rc e :
  good w -> is_Some (heap w !! rc) -> parse_publisher_subject subject = Err e ->
  handle_pub subject reply_to payload weak rc w =
    Done (told w rc (encode (Frame.Err (subject_error_text e))), tt).
Proof.
  intros Hg Hrc He. unfold handle_pub. mstep ltac:(by apply dispatch_local_err).
  apply emit_err_to_told; [done..|]. apply subject_error_short.
Qed.

Lemma posted_is_some w D w' rc :
  posted subject reply_to payload w D w' -> is_Some (heap w !! rc) -> is_Some (heap w' !! rc).
Proof. intros [_ _ Hh] Hrc. rewrite (Hh rc). by apply fmap_is_Some. Qed.
Lemma pushes_only_good w w' : pushes_only w w' -> good w -> good w' /\ heap w' = heap w.
Proof. intros (b & k & -> & _) Hg. split; [|done]. by destruct Hg. Qed.

Lemma posted_grows w D w' : good w -> posted subject reply_to payload w D w' -> grows w w'.
Proof.
  intros Hg [_ _ Hh] rc. rewrite (Hh rc). destruct (heap w !! rc) as [st|] eqn:Hst; [|done]. cbn.
  destruct (enqueue_all_ok (mail subject reply_to payload w rc (id st) D) st) as [acc Ha];
    [by eapply good_heap|]. eauto.
Qed.
Lemma pushes_only_keeps w w' : pushes_only w w' -> keeps w w'.
Proof. intros (b & k & -> & Hl). by constructor. Qed.

Definition peers (w : Worker N) : list nat := List.seq 0 (length (peer_inboxes w)).

Lemma handle_pub_ok w rc tb toks ks hs qs :
  good w -> is_Some (heap w !! rc) -> refines (table w) tb ->
  parse_publisher_subject subject = Ok toks -> all_hold w ks hs qs ->
  exists w1 plain picks w',
    plain ≡ₚ plain_of (table_match toks tb) /\ choice (table_match toks tb) picks /\
    posted subject reply_to payload w (plain ++ picks.*2) w1 /\
    handle_pub subject reply_to payload weak rc w = Done (w', tt) /\
    (shard_count w <= 1 -> w' = w1) /\
    (1 < shard_count w ->
      all_hold w' ks hs (offers frame (shard_id w) (peers w) ks qs) /\
      kicks w' = kicks w ++ to_kick (shard_id w) (peer_wakers w) qs (peers w) /\
      heap w' = heap (if refused (shard_id w) ks qs (peers w)
                      then told w1 rc (encode (Frame.Err (bs "shard back-pressure"))) else w1) /\
      length (peer_inboxes w') = length (peer_inboxes w)) /\
    good w' /\ keeps w w' /\ grows w w'.
Proof.
  intros Hg Hrc Ht Hs Hw.
  destruct (dispatch_local_ok subject reply_to payload Hpayload w tb toks Hg Ht Hs)
    as (w1 & plain & picks & E & Hpl & Hpi & Hp).
  exists w1, plain, picks. pose proof (po_io _ _ _ _ _ _ Hp) as Hio.
  unfold handle_pub. mstep ltac:(exact E). mstep ltac:(reflexivity).
  assert (shard_count w1 = shard_count w) as -> by (unfold shard_count; by rewrite (oio_inboxes _ _ Hio)).
  destruct (Z.ltb_spec 1 (shard_count w)) as [Hc|Hc]; [|exists w1; split_and!; try done; try lia].
  2: by destruct Hp.
  2: by apply only_io_keeps.
  2: by eapply posted_grows.
  destruct (push_peers_spec weak frame (peers w) false w1 ks hs qs) as (w2 & E2 & Hpo & Ha & Hk).
  { apply NoDup_ListNoDup, List.seq_NoDup. }
  { apply Forall_forall. intros i Hi. unfold peers in Hi. apply elem_of_seq in Hi.
    rewrite (oio_inboxes _ _ Hio). lia. }
  { intros i m. rewrite (oio_inboxes _ _ Hio). apply Hw. }
  rewrite (oio_shard _ _ Hio) in *. rewrite (oio_wakers _ _ Hio), (oio_kicks _ _ Hio) in Hk.
  unfold shard_count. rewrite to_nat_len. fold (peers w). mstep ltac:(exact E2).
  destruct (pushes_only_good w1 w2 Hpo (po_good _ _ _ _ _ _ Hp)) as [Hg2 Hh2]. cbn [orb].
  assert (keeps w w2) as Hkp by (etransitivity; [by apply only_io_keeps|by apply pushes_only_keeps]).
  assert (grows w w2) as Hgr by (by eapply (grows_heap w w1), posted_grows).
  pose proof (kp_inboxes _ _ Hkp) as Hlen.
  destruct (refused _ _ _ _) eqn:Hr.
  - exists (told w2 rc (encode (Frame.Err (bs "shard back-pressure")))). split_and!; try done.
    + apply emit_err_to_told; [done| |done]. rewrite Hh2. by eapply posted_is_some.
    + unfold shard_count in Hc. lia.
    + intros _. split_and!; try done. unfold told. wsimpl. by rewrite Hh2.
    + by apply told_good.
    + etransitivity; [exact Hkp|]. by apply only_io_keeps, told_io.
    + eapply grows_trans; [exact Hgr|]. by apply told_grows.
  - exists w2. split_and!; try done. unfold shard_count in Hc. lia.
Qed.

(** One frame waiting in the shard's inbox is dispatched and the inbox is
    empty again. *)
Lemma drain_one w m k h tb toks fuel :
  good w -> refines (table w) tb -> parse_publisher_subject subject = Ok toks ->
  0 <= shard_id w -> peer_inboxes w !! Z.to_nat (shard_id w) = Some m -> holds m k h [frame] ->
  (2 <= fuel)%nat ->
  exists w' plain picks, drain_round fuel (Some 8) w = Done (w', true) /\
    plain ≡ₚ plain_of (table_match toks tb) /\ choice (table_match toks tb) picks /\
    delivered subject reply_to payload w w' (plain ++ picks.*2) /\ good w' /\
    exists m' , peer_inboxes w' !! Z.to_nat (shard_id w) = Some m' /\ holds m' k (h + 1) [].
Proof.
  intros Hg Ht Hs Hid Hm Hh Hf. destruct fuel as [|[|fuel]]; [lia..|].
  set (w0 := set_peer_inboxes w (<[Z.to_nat (shard_id w) := popped m k h]> (peer_inboxes w))).
  assert (good w0) as Hg0 by by destruct Hg.
  destruct (dispatch_local_ok subject reply_to payload Hpayload w0 tb toks Hg0 Ht Hs)
    as (w1 & plain & picks & E & Hpl & Hpi & [Hg1 Hio Hd]).
  assert (peer_inboxes w1 !! Z.to_nat (shard_id w) = Some (popped m k h)) as Hm1.
  { rewrite (oio_inboxes _ _ Hio). wsimpl. unfold w0. wsimpl. apply list_lookup_insert_eq.
    by eapply lookup_lt_Some. }
  assert (holds (popped m k h) k (h + 1) []) as Hh1 by by eapply holds_popped.
  set (w2 := set_peer_inboxes w1 (<[Z.to_nat (shard_id w) := popped m k h]> (peer_inboxes w1))).
  exists w2, plain, picks. split_and!; try done.
  - unfold drain_round. cbn [Z.eqb Pos.eqb]. erewrite M_bind_done; [reflexivity|].
    cbn [drain_inbox]. mstep ltac:(reflexivity). mstep ltac:(reflexivity).
    mstep ltac:(unfold lift, index; zb; rewrite Hm; reflexivity).
    mstep ltac:(unfold lift; rewrite (pop_spec m k h frame [] Hh); reflexivity).
    mstep ltac:(reflexivity). cbn [fst snd]. fold w0. mstep ltac:(exact E).
    mstep ltac:(reflexivity). mstep ltac:(reflexivity).
    mstep ltac:(rewrite (oio_shard _ _ Hio); unfold lift, index; change (shard_id w0) with (shard_id w);
      zb; rewrite Hm1; reflexivity).
    mstep ltac:(unfold lift; rewrite (pop_empty _ _ _ Hh1); reflexivity).
    mstep ltac:(reflexivity). cbn [fst snd]. by rewrite (oio_shard _ _ Hio).
  - by destruct Hg1.
  - exists (popped m k h). split; [|done]. unfold w2. wsimpl. apply list_lookup_insert_eq.
    by eapply lookup_lt_Some.
Qed.
End Publish.

(* ------------------------------------------------------------------ *)
(** * Properties *)

(** C7.  Fan-out is exact.  A publication on a valid subject reaches, on its
    shard, every matching ungrouped subscription once and one member of every
    queue group with a match once, nobody else; and every connection with
    room has exactly its [MSG] frames appended, in order, while a closing
    connection is left alone.  Subscriptions, connections and inboxes do not
    change. *)
Theorem fanout_exact `{N : Notify} (w : Worker N) tb subject toks reply_to payload :
  good w -> refines (table w) tb -> parse_publisher_subject subject = Ok toks ->
  slice_ok payload ->
  exists w' plain picks,
    dispatch_local subject reply_to payload w = Done (w', Ok tt) /\
    plain ≡ₚ plain_of (table_match toks tb) /\ choice (table_match toks tb) picks /\
    good w' /\ only_io w w' /\
    (forall rc st, heap w !! rc = Some st ->
      exists st', heap w' !! rc = Some st' /\
      let L := mail subject reply_to payload w rc (id st) (plain ++ picks.*2) in
      (close_with st = None -> outbound_tail st + len (concat L) <= outbound_capacity st ->
        pending st' = pending st ++ concat L /\ close_with st' = None) /\
      (close_with st <> None -> st' = st)).
Proof.
  intros Hg Ht Hs Hp.
  destruct (dispatch_local_ok subject reply_to payload Hp w tb toks Hg Ht Hs)
    as (w' & plain & picks & E & Hpl & Hpi & [Hg' Hio Hd]).
  exists w', plain, picks. split_and!; try done. intros rc st Hst.
  eexists. split; [rewrite (Hd rc), Hst; reflexivity|]. cbn zeta. split.
  - intros Hc Hr. apply enqueue_all_room; [by apply Hg in Hst|done..].
  - destruct (close_with st) as [r|] eqn:Hc; [|done]. intros _. by eapply enqueue_all_closing.
Qed.

(** A publication on an invalid subject (empty, an empty token, a
    wildcard) delivers nothing and crosses no shard: the only effect is the
    [-ERR] with the reason on the publisher's own connection. *)
Theorem invalid_publication_rejected `{N : Notify} (w : Worker N) rc subject reply_to payload weak e :
  good w -> is_Some (heap w !! rc) -> parse_publisher_subject subject = Err e ->
  handle_pub subject reply_to payload weak rc w =
    Done (told w rc (encode (Frame.Err (subject_error_text e))), tt).
Proof. apply handle_pub_err. Qed.

(** A publication crosses shards: when shard [b]'s inbox is empty as the
    publishing shard handles the [PUB], that shard is kicked, and its drain
    task, woken on the state the publisher left in the inboxes, delivers the
    publication to [b]'s own subscribers as if it had been published there,
    leaving the inbox empty. *)
Theorem cross_shard_delivery `{N : Notify} (wa wb : Worker N) rc tba tbb subject toks reply_to payload
    weak ks hs qs (b : nat) (fuel : nat) :
  good wa -> is_Some (heap wa !! rc) -> refines (table wa) tba -> good wb -> refines (table wb) tbb ->
  parse_publisher_subject subject = Ok toks -> slice_ok payload ->
  all_hold wa ks hs qs -> qs b = [] -> (b < length (peer_inboxes wa))%nat ->
  (b < peer_wakers wa)%nat -> 1 < shard_count wa ->
  shard_id wb = Z.of_nat b -> shard_id wa <> Z.of_nat b -> (2 <= fuel)%nat ->
  exists wa' wb' plain picks,
    handle_pub subject reply_to payload weak rc wa = Done (wa', tt) /\
    b ∈ kicks wa' /\
    drain_round fuel (Some 8) (set_peer_inboxes wb (peer_inboxes wa')) = Done (wb', true) /\
    plain ≡ₚ plain_of (table_match toks tbb) /\ choice (table_match toks tbb) picks /\
    delivered subject reply_to payload wb wb' (plain ++ picks.*2) /\
    exists m', peer_inboxes wb' !! b = Some m' /\ is_empty m' = Done true.
Proof.
  intros Hga Hrc Hta Hgb Htb Hs Hp Hw Hq Hb Hbw Hc Hidb Hida Hf.
  destruct (handle_pub_ok subject reply_to payload Hp weak wa rc tba toks ks hs qs Hga Hrc Hta Hs Hw)
    as (w1 & _ & _ & wa' & _ & _ & _ & E & _ & Hn & _). destruct (Hn Hc) as (Ha & Hk & _ & Hlen).
  destruct (lookup_lt_is_Some_2 (peer_inboxes wa') b) as [m Hm]; [by rewrite Hlen|].
  pose proof (Ha b m Hm) as Hh. pose proof (pow_bounds _ (h_k _ _ _ _ Hh)).
  assert (b ∈ peers wa) as Hbp by (unfold peers; apply elem_of_seq; lia).
  unfold offers, offer in Hh. rewrite Hq, bool_decide_eq_true_2 in Hh by done.
  rewrite (proj2 (Z.ltb_lt _ _)) in Hh by lens. cbn [app] in Hh.
  destruct (drain_one subject reply_to payload Hp (set_peer_inboxes wb (peer_inboxes wa')) m
    (ks b) (hs b) tbb toks fuel) as (wb' & plain & picks & Ed & Hpl & Hpi & Hd & _ & m' & Hm' & Hh');
    [by destruct Hgb|done|done|wsimpl; lia| |done|done|].
  { wsimpl. by rewrite Hidb, Nat2Z.id. }
  exists wa', wb', plain, picks. split_and!; try done.
  - rewrite Hk. apply elem_of_app. right. unfold to_kick. apply list_elem_of_filter. split; [|done].
    split; [congruence|done].
  - exists m'. split; [|by rewrite (inbox_is_empty_spec _ _ _ _ Hh')].
    revert Hm'. wsimpl. by rewrite Hidb, Nat2Z.id.
Qed.

(** The queue-group choice is always a valid member index, and the
    xorshift64 state never degenerates: from the seed of any shard, after any
    number of draws, it is a non-zero [u64]. *)
Theorem pick_index_sound `{N : Notify} (w : Worker N) draws n :
  0 <= shard_id w <= u32_max -> 0 < n -> rng w = Nat.iter draws xorshift64 (seed (shard_id w)) ->
  exists w' i, pick_index n w = Done (w', i) /\ 0 <= i < n /\
    rng w' = Nat.iter (S draws) xorshift64 (seed (shard_id w)) /\ 0 < rng w' < 2 ^ 64.
Proof.
  intros Hid Hn Hr.
  assert (0 < rng w < 2 ^ 64) as Hg.
  { rewrite Hr. clear Hr. induction draws as [|d IH]; [by apply seed_range|]. by apply xorshift64_range. }
  eexists _, _. split.
  - unfold pick_index. mstep ltac:(unfold lift, assert_; zb; reflexivity). reflexivity.
  - split; [by apply Z.mod_pos_bound|]. wsimpl. split; [by rewrite Hr|by apply xorshift64_range].
Qed.


(* ------------------------------------------------------------------ *)
(** * Examples *)

Module Ex.
Definition c1 : ConnectionId.t := ConnectionId.new 1.
Definition c2 : ConnectionId.t := ConnectionId.new 2.
Definition ops : list op :=
  [OpSub (bs "a.*") (mkSub c1 (bs "7") None);
   OpSub (bs "a.>") (mkSub c2 (bs "8") (Some (bs "g")));
   OpSub (bs "a.b") (mkSub c1 (bs "9") (Some (bs "g")))].
Definition trie : SubscriptionTrie :=
  match run_ops Trie.new ops with Done t => t | Panic => Trie.new end.
Definition inbox : ShardInbox PublishedFrame :=
  match with_capacity 2 with Done m => m | Panic => mkInbox 0 [] 0 0 end.

(** Two shards; this one has two connections and a scratch of 64 bytes. *)
Definition worker (shard : Z) : Worker permit_notify :=
  let w := Worker_new (N := permit_notify) 64 shard [inbox; inbox] 2 in
  let w := set_table w trie in
  let w := set_connections w {[c1 := 0%nat; c2 := 1%nat]} in
  set_heap w {[0%nat := ConnState.new c1 128; 1%nat := ConnState.new c2 128]}.

Lemma trie_refines : refines trie (table_ops [] ops).
Proof.
  destruct (run_ops_refines ops Trie.new []) as (t & E & H & _); [apply refines_new|by vm_compute|].
  unfold trie. by rewrite E.
Defined.
Lemma inbox_holds : holds inbox 1 0 [].
Proof.
  constructor; try done. intros j Hj.
  assert (j = 0 \/ j = 1) as [-> | ->] by lia; reflexivity.
Defined.
Lemma worker_good shard : 0 <= shard <= 1 -> good (worker shard).
Proof.
  intros Hs. constructor.
  - intros rc st. cbn. destruct rc as [|[|rc]]; intros E; simplify_map_eq; by apply wf_new.
  - intros c rc. cbn. rewrite !lookup_insert_Some, lookup_empty.
    intros [[<- <-]|[_ [[<- <-]|[_ ?]]]]; [..|done]; eexists; by simplify_map_eq.
  - by vm_compute.
  - apply seed_range. unfold u32_max. cbn. lia.
Defined.
Lemma worker_hold shard : all_hold (worker shard) (fun _ => 1) (fun _ => 0) (fun _ => []).
Proof. intros [|[|i]] m; cbn; intros E; simplify_eq; exact inbox_holds. Defined.
End Ex.

Lemma fanout_exact_witness :
  exists w' plain picks,
    dispatch_local (bs "a.b") None (bs "hi") (Ex.worker 0) = Done (w', Ok tt) /\
    plain ≡ₚ plain_of (table_match [bs "a"; bs "b"] (table_ops [] Ex.ops)) /\
    choice (table_match [bs "a"; bs "b"] (table_ops [] Ex.ops)) picks /\
    good w' /\ only_io (Ex.worker 0) w' /\
    (forall rc st, heap (Ex.worker 0) !! rc = Some st ->
      exists st', heap w' !! rc = Some st' /\
      let L := mail (bs "a.b") None (bs "hi") (Ex.worker 0) rc (id st) (plain ++ picks.*2) in
      (close_with st = None -> outbound_tail st + len (concat L) <= outbound_capacity st ->
        pending st' = pending st ++ concat L /\ close_with st' = None) /\
      (close_with st <> None -> st' = st)).
Proof.
  apply (fanout_exact (Ex.worker 0) (table_ops [] Ex.ops) (bs "a.b") [bs "a"; bs "b"] None (bs "hi")).
  - by apply Ex.worker_good.
  - exact Ex.trie_refines.
  - reflexivity.
  - by vm_compute.
Defined.

Lemma invalid_publication_rejected_witness :
  handle_pub (bs "a.*") None (bs "hi") (fun _ => []) 0%nat (Ex.worker 0) =
    Done (told (Ex.worker 0) 0%nat
      (encode (Frame.Err (bs "wildcard not allowed in publish subject"))), tt).
Proof.
  apply (invalid_publication_rejected (Ex.worker 0) 0%nat (bs "a.*") None (bs "hi") (fun _ => [])
    SubjectError.WildcardInPublish).
  - by apply Ex.worker_good.
  - by eexists.
  - reflexivity.
Defined.

Lemma cross_shard_delivery_witness :
  exists wa' wb' plain picks,
    handle_pub (bs "a.b") None (bs "hi") (fun _ => []) 0%nat (Ex.worker 0) = Done (wa', tt) /\
    1%nat ∈ kicks wa' /\
    drain_round 2 (Some 8) (set_peer_inboxes (Ex.worker 1) (peer_inboxes wa')) = Done (wb', true) /\
    plain ≡ₚ plain_of (table_match [bs "a"; bs "b"] (table_ops [] Ex.ops)) /\
    choice (table_match [bs "a"; bs "b"] (table_ops [] Ex.ops)) picks /\
    delivered (bs "a.b") None (bs "hi") (Ex.worker 1) wb' (plain ++ picks.*2) /\
    exists m', peer_inboxes wb' !! 1%nat = Some m' /\ is_empty m' = Done true.
Proof.
  apply (cross_shard_delivery (Ex.worker 0) (Ex.worker 1) 0%nat (table_ops [] Ex.ops)
    (table_ops [] Ex.ops) (bs "a.b") [bs "a"; bs "b"] None (bs "hi") (fun _ => [])
    (fun _ => 1) (fun _ => 0) (fun _ => []) 1%nat 2%nat); try done.
  - by apply Ex.worker_good.
  - exact Ex.trie_refines.
  - by apply Ex.worker_good.
  - exact Ex.trie_refines.
  - apply Ex.worker_hold.
  - cbn. lia.
  - cbn. lia.
Defined.

Lemma pick_index_sound_witness :
  exists w' i, pick_index 3 (Ex.worker 1) = Done (w', i) /\ 0 <= i < 3 /\
    rng w' = Nat.iter 1 xorshift64 (seed 1) /\ 0 < rng w' < 2 ^ 64.
Proof. apply (pick_index_sound (Ex.worker 1) 0 3); done. Defined.

