(* ===== verification/Session.v ===== *)
(** The tasks of one connection ([aulon-server/src/main.rs]): the reader
    (greeting, framing, [handle_frame], clean-up), the writer, and the part of
    the accept loop that creates them.

    Every definition is one stretch of code between two [await] points; what
    an [await] returns (the bytes read, whether a write succeeded) is an
    argument. *)
From Stdlib Require Import ZArith Lia Strings.Byte.
From stdpp Require Import base gmap list strings.
From S2P Require Import Prelude Subject Trie TrieSpec ConnState ShardInbox Wire Parse Emit Worker Dispatch.

Definition SERVER_INFO_JSON : bytes :=
  let q := [x22] in
  let field k v := q ++ k ++ q ++ bs ":" ++ v in
  let str v := q ++ v ++ q in
  bs "{" ++ field (bs "server_id") (str (bs "aulon")) ++ bs "," ++
  field (bs "server_name") (str (bs "aulon")) ++ bs "," ++
  field (bs "version") (str (bs "0.0.1")) ++ bs "," ++
  field (bs "host") (str (bs "127.0.0.1")) ++ bs "," ++
  field (bs "port") (bs "4222") ++ bs "," ++
  field (bs "max_payload") (bs "1048576") ++ bs "," ++
  field (bs "proto") (bs "1") ++ bs "," ++
  field (bs "headers") (bs "false") ++ bs "," ++
  field (bs "jetstream") (bs "false") ++ bs "}".

(** The reader's [subscriptions]: sid to subject. *)
Abbreviation Subscriptions := (gmap bytes bytes).

Section Session.
Context `{N : Notify}.
Variable weak : nat -> list bool.

(* ------------------------------------------------------------------ *)
(** * Frames *)

Definition handle_frame (frame : Frame.t) (state : Rc) (subscriptions : Subscriptions) :
    M Subscriptions :=
  match frame with
  | Frame.Connect _ | Frame.Pong => mret subscriptions
  | Frame.Ping =>
      _ ← emit_to state 8 emit_pong;
      mret subscriptions
  | Frame.Sub subject queue_group sid =>
      st ← deref state;
      t ← gets table;
      r ← lift (subscribe t subject (mkSub (id st) sid queue_group));
      _ ← modify (fun w => set_table w r.1);
      match r.2 with
      | Err e => _ ← emit_err_to state (subject_error_text e); mret subscriptions
      | Ok _ => mret (<[sid := subject]> subscriptions)
      end
  | Frame.Unsub sid (Some _) =>
      _ ← emit_err_to state (bs "UNSUB max_msgs not supported in v1");
      mret subscriptions
  | Frame.Unsub sid None =>
      match subscriptions !! sid with
      | Some subject =>
          st ← deref state;
          t ← gets table;
          r ← lift (unsubscribe t subject (id st) sid);
          _ ← modify (fun w => set_table w r.1);
          mret (delete sid subscriptions)
      | None => mret subscriptions
      end
  | Frame.Pub subject reply_to payload =>
      if MAX_PAYLOAD_BYTES <? len payload then
        _ ← emit_err_to state (bs "maximum payload exceeded");
        mret subscriptions
      else
        _ ← handle_pub subject reply_to payload weak state;
        mret subscriptions
  | Frame.Msg _ _ _ _ | Frame.Info _ | Frame.Ok | Frame.Err _ =>
      _ ← emit_err_to state (bs "unexpected verb");
      mret subscriptions
  end.

(* ------------------------------------------------------------------ *)
(** * The reader task *)

(** The greeting; [false] when the task returns right away. *)
Definition reader_greet (state : Rc) : M bool :=
  r ← lift (emit_info SERVER_INFO_JSON (zeroed SHORT_FRAME_BUF));
  let '(buf, res) := r in
  match res with
  | Err _ => _ ← mark_close_rc state CloseReason.ProtocolError; mret false
  | Ok n =>
      b ← lift (slice_to buf n);
      _ ← enqueue_rc state b;
      mret true
  end.

(** The inner loop over the frames of the accumulator; returns
    [consumed_total].  [fuel] bounds the frames. *)
Fixpoint frames_loop (fuel : nat) (state : Rc) (accum : bytes) (consumed_total : Z)
    (subscriptions : Subscriptions) : M (Z * Subscriptions) :=
  match fuel with
  | O => lift Panic
  | S fuel =>
      rest ← lift (slice_from accum consumed_total);
      outcome ← lift (parse_frame rest);
      match outcome with
      | ParseOutcome.Frame frame consumed =>
          subs ← handle_frame frame state subscriptions;
          total ← lift (consumed_total +! consumed)%usize;
          st ← deref state;
          match close_reason st with
          | Some _ => mret (total, subs)
          | None => frames_loop fuel state accum total subs
          end
      | ParseOutcome.NeedMore => mret (consumed_total, subscriptions)
      | ParseOutcome.Err _ =>
          _ ← mark_close_rc state CloseReason.ProtocolError;
          mret (consumed_total, subscriptions)
      end
  end.

(** One iteration of the outer loop on the bytes [read] (empty at end of
    stream or on a read error): the accumulator and subscriptions it leaves,
    and whether the loop goes on. *)
Definition reader_round (state : Rc) (read : bytes) (accum : bytes) (subscriptions : Subscriptions) :
    M (bytes * Subscriptions * bool) :=
  match read with
  | [] => mret (accum, subscriptions, false)
  | _ =>
      let accum := accum ++ read in
      if MAX_FRAME_SIZE <? len accum then
        _ ← mark_close_rc state CloseReason.ProtocolError;
        mret (accum, subscriptions, false)
      else
        r ← frames_loop (S (length accum)) state accum 0 subscriptions;
        let '(consumed_total, subs) := r in
        accum' ← lift (if 0 <? consumed_total then slice_from accum consumed_total else Done accum);
        st ← deref state;
        mret (accum', subs, bool_decide (close_reason st = None))
  end.

(** The clean-up; [order] is the order in which the map is iterated. *)
Fixpoint unsubscribe_all (conn : ConnectionId.t) (order : list (bytes * bytes)) : M unit :=
  match order with
  | [] => mret tt
  | (sid, subject) :: order =>
      t ← gets table;
      r ← lift (unsubscribe t subject conn sid);
      _ ← modify (fun w => set_table w r.1);
      unsubscribe_all conn order
  end.
Definition reader_cleanup (state : Rc) (order : list (bytes * bytes)) : M unit :=
  st ← deref state;
  _ ← unsubscribe_all (id st) order;
  _ ← modify (fun w => set_connections w (delete (id st) (connections w)));
  mark_close_rc state CloseReason.PeerClosed.

(* ------------------------------------------------------------------ *)
(** * The writer task *)

Inductive writer_pc : Type := WWait | WDrain | WExit.

(** From one [await] to the next: the new position, the write buffer and the
    bytes handed to the socket.  [ok] is the result of the write. *)
Definition writer_step (state : Rc) (ok : bool) (pc : writer_pc) (buf : bytes) :
    M (writer_pc * bytes * bytes) :=
  match pc with
  | WWait =>
      st ← deref state;
      match wait_for_event st with
      | None => mret (WWait, buf, [])
      | Some st' => _ ← assign state st'; mret (WDrain, buf, [])
      end
  | WDrain =>
      st ← deref state;
      r ← lift (drain_into st buf);
      let '(st', buf', n) := r in
      _ ← assign state st';
      if n =? 0 then
        match close_reason st' with
        | None => mret (WWait, buf', [])
        | Some reason =>
            match CloseReason.err_text reason with
            | None => mret (WExit, buf', [])
            | Some text =>
                e ← lift (emit_err text buf');
                let '(buf'', res) := e in
                match res with
                | Err _ => mret (WExit, buf'', [])
                | Ok k => sent ← lift (slice_to buf'' k); mret (WExit, buf'', sent)
                end
            end
        end
      else
        sent ← lift (slice_to buf' n);
        mret (if ok then WDrain else WExit, buf', sent)
  | WExit => mret (WExit, buf, [])
  end.

(* ------------------------------------------------------------------ *)
(** * The accept loop *)

(** One accepted stream; [read_buf] and [write_buf] say whether the pool had
    a buffer, [rc] is the address of the new [Rc].  The result is the state
    shared by the two tasks spawned, if any. *)
Definition accept (outbound_capacity : Z) (read_buf write_buf : bool) (rc : Rc) : M (option Rc) :=
  id ← next_id;
  if negb read_buf then mret None else
  if negb write_buf then mret None else
  _ ← assign rc (ConnState.new id outbound_capacity);
  _ ← modify (fun w => set_connections w (<[id := rc]> (connections w)));
  mret (Some rc).
End Session.
