(* ===== verification/SessionSpec.v ===== *)
(** Correctness of a connection's tasks: every frame's effect, the framing
    loop, the clean-up and the writer. *)
From Stdlib Require Import ZArith Lia Strings.Byte.
From stdpp Require Import base gmap list strings.
From S2P Require Import Prelude Subject Trie TrieSpec ConnState ShardInbox Wire Parse Emit Worker Dispatch DispatchSpec Session.

(* ------------------------------------------------------------------ *)
(** * What a frame means *)

(** The change of the routing table, of the reader's subscriptions, and the
    reply a client frame other than [PUB] calls for. *)
Definition frame_op (conn : ConnectionId.t) (subs : Subscriptions) (f : Frame.t) : option op :=
  match f with
  | Frame.Sub subject qg sid => Some (OpSub subject (mkSub conn sid qg))
  | Frame.Unsub sid None => (fun subject => OpUnsub subject conn sid) <$> subs !! sid
  | _ => None
  end.
Definition frame_subs (subs : Subscriptions) (f : Frame.t) : Subscriptions :=
  match f with
  | Frame.Sub subject _ sid =>
      match parse_subscriber_subject subject with
      | Done (Ok _) => <[sid := subject]> subs
      | _ => subs
      end
  | Frame.Unsub sid None => delete sid subs
  | _ => subs
  end.
Definition frame_reply (f : Frame.t) : option Frame.t :=
  match f with
  | Frame.Connect _ | Frame.Pong | Frame.Unsub _ None | Frame.Pub _ _ _ => None
  | Frame.Ping => Some Frame.Pong
  | Frame.Sub subject _ _ =>
      match parse_subscriber_subject subject with
      | Done (Err e) => Some (Frame.Err (subject_error_text e))
      | _ => None
      end
  | Frame.Unsub _ (Some _) => Some (Frame.Err (bs "UNSUB max_msgs not supported in v1"))
  | Frame.Msg _ _ _ _ | Frame.Info _ | Frame.Ok | Frame.Err _ =>
      Some (Frame.Err (bs "unexpected verb"))
  end.
Definition is_pub (f : Frame.t) : bool :=
  match f with Frame.Pub _ _ _ => true | _ => false end.

Definition table_after (tb : TrieSpec.table) (o : option op) : TrieSpec.table :=
  match o with Some o => table_op tb o | None => tb end.

Section Session.
Context `{N : Notify}.
Variable weak : nat -> list bool.

Definition replied (w : Worker N) (rc : Rc) (r : option Frame.t) : Worker N :=
  match r with Some f => told w rc (encode f) | None => w end.

Definition inboxes_ok (w : Worker N) : Prop :=
  Forall (fun m => exists k h q, holds m k h q) (peer_inboxes w).

(** What the handlers rely on: the worker is good, its trie stands for [tb],
    its inboxes are rings, the cell exists. *)
Record ready (w : Worker N) (rc : Rc) (tb : TrieSpec.table) : Prop := {
  rd_good : good w;
  rd_cell : is_Some (heap w !! rc);
  rd_table : refines (table w) tb;
  rd_inboxes : inboxes_ok w;
}.

Lemma inboxes_all_hold w : inboxes_ok w -> exists ks hs qs, all_hold w ks hs qs.
Proof.
  unfold inboxes_ok, all_hold. induction (peer_inboxes w) as [|m l IH]; intros Hl.
  { by exists (fun _ => 0), (fun _ => 0), (fun _ => []). }
  apply Forall_cons in Hl as [(k & h & q & Hm) Hl]. destruct (IH Hl) as (ks & hs & qs & H).
  exists (fun i => match i with O => k | S i => ks i end),
    (fun i => match i with O => h | S i => hs i end),
    (fun i => match i with O => q | S i => qs i end).
  intros [|i] m'; cbn; [by intros [= <-]|apply H].
Qed.
Lemma all_hold_ok w ks hs qs : all_hold w ks hs qs -> inboxes_ok w.
Proof.
  intros H. apply Forall_lookup_2. intros i m Hi. exists (ks i), (hs i), (qs i). by apply H.
Qed.

Lemma replied_good w rc r : good w -> good (replied w rc r).
Proof. destruct r; [apply told_good|done]. Qed.
Lemma replied_io w rc r : only_io w (replied w rc r).
Proof. destruct r; [apply told_io|done]. Qed.

Lemma good_set_table w t : good w -> good (set_table w t).
Proof. by intros []. Qed.

(** Every frame but [PUB]: exact effect. *)
Lemma handle_frame_control f w rc st tb subs :
  good w -> heap w !! rc = Some st -> refines (table w) tb ->
  total_subscriptions (table w) < usize_max -> is_pub f = false ->
  exists t', handle_frame weak f rc subs w =
      Done (set_table (replied w rc (frame_reply f)) t', frame_subs subs f) /\
    refines t' (table_after tb (frame_op (id st) subs f)) /\
    total_subscriptions t' <= total_subscriptions (table w) + 1.
Proof.
  intros Hg Hst Hr Hm Hp.
  assert (set_table w (table w) = w) as Hsame by by destruct w.
  assert (forall text, len text <= 4000 ->
    emit_err_to rc text w = Done (told w rc (encode (Frame.Err text)), tt)) as Herr
    by (intros; by apply emit_err_to_told).
  destruct f as [o|s r p|subject qg i|i [m|]|s i r p| | |o| |m]; try discriminate Hp;
    cbn [handle_frame frame_reply frame_subs frame_op replied table_after].
  all: try (exists (table w); rewrite ?Hsame; split_and!; [|done|lia]; try done;
    mstep ltac:(by apply Herr); reflexivity).
  - mstep ltac:(unfold deref; rewrite Hst; reflexivity). mstep ltac:(reflexivity).
    destruct (parse_subscriber_done subject) as [[p|e] Ep]; rewrite Ep.
    + destruct (subscribe_refines (table w) tb subject p (mkSub (id st) i qg) Hr Hm Ep)
        as (t' & E & Hr' & Ht'). exists t'. split_and!; [|unfold table_op; by rewrite Ep|lia].
      mstep ltac:(unfold lift; rewrite E; reflexivity). mstep ltac:(reflexivity). done.
    + exists (table w). unfold table_op. rewrite Ep. split_and!; [|done|lia].
      mstep ltac:(unfold lift, subscribe; rewrite Ep; reflexivity). mstep ltac:(reflexivity).
      cbn [fst snd]. rewrite Hsame. mstep ltac:(apply Herr, subject_error_short). done.
  - destruct (subs !! i) as [subject|] eqn:Es; cbn [fmap option_fmap option_map].
    + mstep ltac:(unfold deref; rewrite Hst; reflexivity). mstep ltac:(reflexivity).
      destruct (run_op_refines (table w) tb (OpUnsub subject (id st) i) Hr Hm) as (t' & E & Hr' & Ht' & _).
      exists t'. split_and!; [|done|lia]. cbn [run_op] in E.
      destruct (unsubscribe (table w) subject (id st) i) as [[t b]|] eqn:Eu; [|discriminate E].
      rewrite bind_ret in E. simplify_run. mstep ltac:(reflexivity). mstep ltac:(reflexivity). done.
    + exists (table w). rewrite Hsame, delete_id by done. split_and!; [done|done|lia].
  - exists (table w). split_and!; [|done|lia].
    mstep ltac:(apply (emit_to_told w rc 8 Frame.Pong); done). done.
Qed.

Lemma grows_cell w w' rc st :
  grows w w' -> heap w !! rc = Some st ->
  exists st' acc, heap w' !! rc = Some st' /\ acts_ok st st' acc [].
Proof. intros H Hst. specialize (H rc). by rewrite Hst in H. Qed.

(** No frame panics the handler; all keep the worker ready. *)
Lemma handle_frame_ready f w rc st tb subs :
  ready w rc tb -> heap w !! rc = Some st -> total_subscriptions (table w) < usize_max -> frame_wf f ->
  exists w', handle_frame weak f rc subs w = Done (w', frame_subs subs f) /\
    ready w' rc (table_after tb (frame_op (id st) subs f)) /\ grows w w' /\
    keeps (set_table w (table w')) w' /\
    total_subscriptions (table w') <= total_subscriptions (table w) + 1.
Proof.
  intros [Hg Hc Hr Hi] Hst Hm Hf. destruct (is_pub f) eqn:Hp.
  - destruct f as [|subject reply payload| | | | | | | |]; try discriminate Hp.
    cbn [handle_frame frame_subs frame_op table_after]. destruct Hf as (_ & _ & Hsl).
    destruct (inboxes_all_hold w Hi) as (ks & hs & qs & Ha).
    assert (forall w' : Worker N, good w' -> keeps w w' -> grows w w' -> inboxes_ok w' ->
      ready w' rc tb /\ grows w w' /\ keeps (set_table w (table w')) w' /\
      total_subscriptions (table w') <= total_subscriptions (table w) + 1) as Hdone.
    { intros w' Hg' Hk Hgr Hi'. destruct (grows_cell _ _ _ _ Hgr Hst) as (st' & _ & Hst' & _).
      pose proof (kp_table _ _ Hk) as ->. split_and!; [|done| |lia].
      - constructor; [done|by eexists|by rewrite (kp_table _ _ Hk)|done].
      - by destruct w. }
    destruct (MAX_PAYLOAD_BYTES <? len payload).
    + eexists. split; [mstep ltac:(by apply emit_err_to_told); reflexivity|]. apply Hdone.
      * by apply told_good.
      * apply only_io_keeps, told_io.
      * by apply told_grows.
      * done.
    + destruct (parse_publisher_subject subject) as [toks|e] eqn:Es.
      * destruct (handle_pub_ok subject reply payload Hsl weak w rc tb toks ks hs qs Hg Hc Hr Es Ha)
          as (w1 & plain & picks & w' & _ & _ & Hpo & E & Hone & Hmany & Hg' & Hk & Hgr).
        exists w'. split; [by mstep ltac:(exact E)|]. apply Hdone; try done.
        destruct (Z.le_gt_cases (shard_count w) 1) as [Hs|Hs].
        -- rewrite (Hone Hs). unfold inboxes_ok. by rewrite (oio_inboxes _ _ (po_io _ _ _ _ _ _ Hpo)).
        -- destruct (Hmany ltac:(lia)) as (Hah & _). by eapply all_hold_ok.
      * eexists. split; [mstep ltac:(by eapply handle_pub_err); reflexivity|]. apply Hdone.
        -- by apply told_good.
        -- apply only_io_keeps, told_io.
        -- by apply told_grows.
        -- done.
  - destruct (handle_frame_control f w rc st tb subs Hg Hst Hr Hm Hp) as (t' & E & Hr' & Ht').
    eexists. split; [exact E|].
    assert (grows w (replied w rc (frame_reply f))) as Hgr.
    { destruct (frame_reply f); [by apply told_grows|by apply grows_refl]. }
    split_and!.
    + constructor; [by apply good_set_table, replied_good| |done|].
      * destruct (grows_cell _ _ _ _ Hgr Hst) as (st' & _ & Hst' & _). by eexists.
      * unfold inboxes_ok. wsimpl. by rewrite (oio_inboxes _ _ (replied_io w rc (frame_reply f))).
    + exact Hgr.
    + pose proof (replied_io w rc (frame_reply f)) as []. constructor; wsimpl; congruence.
    + wsimpl. lia.
Qed.

(* ------------------------------------------------------------------ *)
(** * The reader's loops *)

(** What the reader does to the worker between two [await]s: handle a frame,
    or mark the connection closed. *)
Inductive session (rc : Rc) : Worker N * Subscriptions -> Worker N * Subscriptions -> Prop :=
| session_frame f w subs w' subs' :
    frame_wf f -> total_subscriptions (table w) < usize_max ->
    handle_frame weak f rc subs w = Done (w', subs') ->
    session rc (w, subs) (w', subs')
| session_close w subs w' :
    mark_close_rc rc CloseReason.ProtocolError w = Done (w', tt) -> session rc (w, subs) (w', subs).

Lemma mark_close_rc_done w rc st r :
  heap w !! rc = Some st ->
  mark_close_rc rc r w = Done (set_heap w (<[rc := mark_close st r]> (heap w)), tt).
Proof. intros Hst. unfold mark_close_rc. by mstep ltac:(unfold deref; rewrite Hst; reflexivity). Qed.

Lemma mark_close_ok st r : wf st -> acts_ok st (mark_close st r) [] [].
Proof.
  intros Hwf. destruct (acts_spec [MarkClose r] st Hwf) as (st' & acc & out & E & Ha).
  { by repeat constructor. }
  cbn in E. simplify_run. done.
Qed.

Lemma mark_close_ready w rc st tb r :
  ready w rc tb -> heap w !! rc = Some st ->
  let w' := set_heap w (<[rc := mark_close st r]> (heap w)) in
  ready w' rc tb /\ grows w w' /\ keeps w w'.
Proof.
  intros [Hg Hc Hr Hi] Hst w'.
  pose proof (mark_close_ok st r (good_heap w Hg rc st Hst)) as Ha. split_and!.
  - constructor; [|unfold w'; wsimpl; rewrite lookup_insert_eq; by eexists|done|done].
    eapply good_update; [done..|by apply Ha|by apply Ha].
  - intros rc'. unfold w'. wsimpl. destruct (decide (rc' = rc)) as [->|Hn].
    + rewrite Hst, lookup_insert_eq. eauto.
    + rewrite lookup_insert_ne by done. apply (grows_refl w Hg).
  - by constructor.
Qed.

(** The cell is open. *)
Definition open (w : Worker N) (rc : Rc) : Prop :=
  exists st, heap w !! rc = Some st /\ close_with st = None.

Lemma frames_loop_done fuel rc accum n subs w tb :
  ready w rc tb -> slice_ok accum -> 0 <= n <= len accum -> len accum - n < Z.of_nat fuel ->
  total_subscriptions (table w) + Z.of_nat fuel <= usize_max ->
  exists w' n' subs' tb', frames_loop weak fuel rc accum n subs w = Done (w', (n', subs')) /\
    rtc (session rc) (w, subs) (w', subs') /\ ready w' rc tb' /\ n <= n' <= len accum /\
    total_subscriptions (table w') <= total_subscriptions (table w) + Z.of_nat fuel /\
    (open w' rc -> parse_frame (drop (Z.to_nat n') accum) = Done ParseOutcome.NeedMore).
Proof.
  revert n subs w tb. induction fuel as [|fuel IH]; intros n subs w tb Hrd Hok Hn Hf Ht; [lia|].
  cbn [frames_loop]. mstep ltac:(unfold lift; rewrite slice_from_done by lia; reflexivity).
  set (rest := drop (Z.to_nat n) accum). pose proof Hrd as [Hg [st Hst] _ _].
  assert (slice_ok rest) as Hrok by (unfold rest, slice_ok in *; lens).
  destruct (parse_frame_done rest Hrok) as [[f c| |e] Ep];
    mstep ltac:(unfold lift; rewrite Ep; reflexivity).
  - destruct (parse_frame_inv rest f c Hrok Ep) as (Hf' & text & tl & Hrest & Hlt & Hc2 & _).
    assert (n + c <= len accum).
    { assert (len rest = len accum - n) by (unfold rest; lens). rewrite Hrest in *. lens. }
    destruct (handle_frame_ready f w rc st tb subs Hrd Hst ltac:(lia) Hf')
      as (w1 & E1 & Hrd1 & Hgr1 & _ & Ht1).
    mstep ltac:(exact E1).
    mstep ltac:(unfold lift; rewrite uadd_ok by (unfold slice_ok, isize_max, usize_max in *; lia);
      reflexivity).
    destruct (rd_cell _ _ _ Hrd1) as [st1 Hst1].
    mstep ltac:(unfold deref; rewrite Hst1; reflexivity).
    unfold close_reason. destruct (close_with st1) as [r|] eqn:Hc1.
    + eexists _, _, _, _. split; [reflexivity|]. split_and!; [|done|lia..|].
      * apply rtc_once, (session_frame rc f); [done|lia|done].
      * intros (st2 & Hst2 & Hc). congruence.
    + destruct (IH (n + c) (frame_subs subs f) w1 _ Hrd1 Hok ltac:(lia) ltac:(lia) ltac:(lia))
        as (w2 & n2 & subs2 & tb2 & E2 & Hs2 & Hrd2 & Hn2 & Ht2 & Ho2).
      exists w2, n2, subs2, tb2. split_and!; [done| |done|lia..|done].
      eapply rtc_l; [|exact Hs2]. apply (session_frame rc f); [done|lia|done].
  - eexists _, _, _, _. split; [reflexivity|]. split_and!; [done|done|lia..|done].
  - mstep ltac:(by apply mark_close_rc_done).
    destruct (mark_close_ready w rc st tb CloseReason.ProtocolError Hrd Hst) as (Hrd' & _ & Hk).
    eexists _, _, _, _. split; [reflexivity|]. split_and!; [|done|lia..|wsimpl; lia|].
    + apply rtc_once. eapply session_close. by apply mark_close_rc_done.
    + intros (st2 & Hst2 & Hc). revert Hst2. wsimpl. rewrite lookup_insert_eq. intros [= <-].
      rewrite mark_close_spec in Hc. done.
Qed.

(** A frame of the input survives any continuation of it. *)
Lemma reader_round_done rc read accum subs w tb :
  ready w rc tb -> len accum <= MAX_FRAME_SIZE -> slice_ok read ->
  total_subscriptions (table w) + MAX_FRAME_SIZE + 1 <= usize_max ->
  exists w' accum' subs' go tb',
    reader_round weak rc read accum subs w = Done (w', (accum', subs', go)) /\
    rtc (session rc) (w, subs) (w', subs') /\ ready w' rc tb' /\
    (go = true -> len accum' <= MAX_FRAME_SIZE /\ open w' rc) /\
    total_subscriptions (table w') <= total_subscriptions (table w) + MAX_FRAME_SIZE + 1.
Proof.
  intros Hrd Ha Hr Ht. destruct read as [|b read].
  { eexists _, _, _, _, _. split; [reflexivity|]. assert (0 <= MAX_FRAME_SIZE) by done. split_and!; try done. lia. }
  cbn [reader_round]. set (acc := accum ++ b :: read).
  destruct (Z.ltb_spec MAX_FRAME_SIZE (len acc)) as [Hl|Hl].
  - destruct (rd_cell _ _ _ Hrd) as [st Hst]. mstep ltac:(by apply mark_close_rc_done).
    destruct (mark_close_ready w rc st tb CloseReason.ProtocolError Hrd Hst) as (Hrd' & _ & _).
    assert (0 <= MAX_FRAME_SIZE) by done.
    eexists _, _, _, _, _. split; [reflexivity|]. split_and!; [|done|done|wsimpl; lia].
    apply rtc_once. eapply session_close. by apply mark_close_rc_done.
  - assert (MAX_FRAME_SIZE <= isize_max) by done. pose proof (len_nonneg acc).
    destruct (frames_loop_done (S (length acc)) rc acc 0 subs w tb)
      as (w1 & n1 & subs1 & tb1 & E1 & Hs1 & Hrd1 & Hn1 & Hto & _); try done; try (unfold len in *; lia).
    { unfold slice_ok. lia. }
    mstep ltac:(exact E1).
    destruct (rd_cell _ _ _ Hrd1) as [st1 Hst1].
    assert (exists accum', (if 0 <? n1 then slice_from acc n1 else Done acc) = Done accum' /\
      len accum' <= len acc) as (accum' & Ea & Hla).
    { destruct (Z.ltb_spec 0 n1); [|by exists acc].
      eexists. split; [apply slice_from_done; lia|]. lens. }
    mstep ltac:(unfold lift; rewrite Ea; reflexivity).
    mstep ltac:(unfold deref; rewrite Hst1; reflexivity).
    eexists _, _, _, _, _. split; [reflexivity|]. split_and!; [done|done| |unfold len in *; lia].
    intros Hgo. apply bool_decide_eq_true in Hgo. split; [lia|]. by exists st1.
Qed.

(* ------------------------------------------------------------------ *)
(** * The framing does not depend on the reads *)

Lemma M_bind_inv {A B} (m : M A) (f : A -> M B) (w w' : Worker N) b :
  mbind f m w = Done (w', b) -> exists w1 a, m w = Done (w1, a) /\ f a w1 = Done (w', b).
Proof. unfold mbind, M_bind. destruct (m w) as [[w1 a]|]; [eauto|done]. Qed.
Lemma lift_inv {A} (r : run A) (w w' : Worker N) a : lift r w = Done (w', a) -> r = Done a /\ w' = w.
Proof. unfold lift. destruct r; cbn; [by intros [= -> ->]|done]. Qed.
Lemma deref_inv rc (w w' : Worker N) st : deref rc w = Done (w', st) -> heap w !! rc = Some st /\ w' = w.
Proof. unfold deref. destruct (heap w !! rc); cbn; [by intros [= -> ->]|done]. Qed.

(** One iteration of the loop that returned. *)
Lemma frames_loop_inv fuel rc accum n subs w r :
  frames_loop weak (S fuel) rc accum n subs w = Done r ->
  exists rest o, slice_from accum n = Done rest /\ parse_frame rest = Done o /\
  match o with
  | ParseOutcome.Frame f c => exists w1 subs1 total st, handle_frame weak f rc subs w = Done (w1, subs1) /\
      (n +! c)%usize = Done total /\ heap w1 !! rc = Some st /\
      match close_with st with
      | Some _ => r = (w1, (total, subs1))
      | None => frames_loop weak fuel rc accum total subs1 w1 = Done r
      end
  | ParseOutcome.NeedMore => r = (w, (n, subs))
  | ParseOutcome.Err _ => exists w1, mark_close_rc rc CloseReason.ProtocolError w = Done (w1, tt) /\
      r = (w1, (n, subs))
  end.
Proof.
  destruct r as [w' [n' subs']]. cbn [frames_loop]. intros H.
  apply M_bind_inv in H as (w1 & rest & H1 & H). apply lift_inv in H1 as [H1 ->].
  apply M_bind_inv in H as (w1 & o & H2 & H). apply lift_inv in H2 as [H2 ->].
  exists rest, o. split_and!; [done..|]. destruct o as [f c| |e].
  - apply M_bind_inv in H as (w1 & subs1 & E1 & H).
    apply M_bind_inv in H as (w2 & total & E2 & H). apply lift_inv in E2 as [E2 ->].
    apply M_bind_inv in H as (w2 & st & E3 & H). apply deref_inv in E3 as [E3 ->].
    exists w1, subs1, total, st. split_and!; [done..|]. unfold close_reason in H.
    destruct (close_with st); [|done]. injection H as -> -> ->. done.
  - by injection H as -> -> ->.
  - apply M_bind_inv in H as (w1 & [] & E1 & H). injection H as -> -> ->. eauto.
Qed.
Lemma frames_loop_step fuel rc accum n subs w r rest o :
  slice_from accum n = Done rest -> parse_frame rest = Done o ->
  match o with
  | ParseOutcome.Frame f c => exists w1 subs1 total st, handle_frame weak f rc subs w = Done (w1, subs1) /\
      (n +! c)%usize = Done total /\ heap w1 !! rc = Some st /\
      match close_with st with
      | Some _ => r = (w1, (total, subs1))
      | None => frames_loop weak fuel rc accum total subs1 w1 = Done r
      end
  | ParseOutcome.NeedMore => r = (w, (n, subs))
  | ParseOutcome.Err _ => exists w1, mark_close_rc rc CloseReason.ProtocolError w = Done (w1, tt) /\
      r = (w1, (n, subs))
  end ->
  frames_loop weak (S fuel) rc accum n subs w = Done r.
Proof.
  intros H1 H2 H. cbn [frames_loop]. mstep ltac:(unfold lift; rewrite H1; reflexivity).
  mstep ltac:(unfold lift; rewrite H2; reflexivity). destruct o as [f c| |e].
  - destruct H as (w1 & subs1 & total & st & E1 & E2 & E3 & H). mstep ltac:(exact E1).
    mstep ltac:(unfold lift; rewrite E2; reflexivity).
    mstep ltac:(unfold deref; rewrite E3; reflexivity). unfold close_reason.
    destruct (close_with st); [by subst|done].
  - by subst.
  - destruct H as (w1 & E1 & ->). by mstep ltac:(exact E1).
Qed.

Lemma frames_loop_more fuel fuel' rc accum n subs w r :
  frames_loop weak fuel rc accum n subs w = Done r -> (fuel <= fuel')%nat ->
  frames_loop weak fuel' rc accum n subs w = Done r.
Proof.
  revert fuel' n subs w. induction fuel as [|fuel IH]; intros fuel' n subs w H Hf; [done|].
  destruct fuel' as [|fuel']; [lia|]. apply frames_loop_inv in H as (rest & o & H1 & H2 & H).
  eapply frames_loop_step; [done..|]. destruct o as [f c| |e]; [|done..].
  destruct H as (w1 & subs1 & total & st & E1 & E2 & E3 & H).
  exists w1, subs1, total, st. split_and!; [done..|]. destruct (close_with st); [done|].
  apply IH; [done|lia].
Qed.

(** The loop on [a] that stopped for more input, then the loop on the rest. *)
Lemma frames_loop_resume f1 f2 rc a b n subs w w1 n1 subs1 r :
  slice_ok (a ++ b) -> 0 <= n ->
  frames_loop weak f1 rc a n subs w = Done (w1, (n1, subs1)) -> open w1 rc ->
  frames_loop weak f2 rc (a ++ b) n1 subs1 w1 = Done r ->
  frames_loop weak (f1 + f2) rc (a ++ b) n subs w = Done r.
Proof.
  intros Hok. revert n subs w. induction f1 as [|f1 IH]; intros n subs w Hn H1 Ho H2; [done|].
  apply frames_loop_inv in H1 as (rest & o & Es & Ep & H).
  destruct (slice_inv _ _ _ _ Es) as (_ & Hnl & Hlr & p & q & Ea & Hlp).
  assert (q = []) as -> by (apply len_zero; rewrite Ea in Hlr; lens). rewrite app_nil_r in Ea.
  assert (slice_from (a ++ b) n = Done (rest ++ b)) as Es'.
  { rewrite Ea, <- app_assoc. by apply slice_from_app. }
  assert (slice_ok rest) as Hrok by (unfold slice_ok in *; subst a; lens).
  destruct o as [f c| |e].
  - destruct H as (w' & subs' & total & st & E1 & E2 & E3 & H).
    eapply frames_loop_step; [exact Es'|by apply parse_frame_final|].
    exists w', subs', total, st. split_and!; [done..|].
    destruct (close_with st) eqn:Hc.
    + destruct Ho as (st' & Hst' & Hc'). simplify_eq.
    + apply IH; try done. unfold uadd in E2. destruct (parse_frame_inv _ _ _ Hrok Ep) as (_ & ? & ? & _ & _ & ? & _).
      destruct (_ <=? _) in E2; simplify_run; lia.
  - simplify_eq. eapply frames_loop_more; [eassumption|lia].
  - destruct H as (w' & E1 & H). simplify_eq. destruct Ho as (st' & Hst' & Hc').
    unfold mark_close_rc in E1. apply M_bind_inv in E1 as (w0 & st & E0 & E1).
    apply deref_inv in E0 as [E0 ->]. injection E1 as <-. revert Hst'. wsimpl.
    rewrite lookup_insert_eq. intros [= <-]. by rewrite mark_close_spec in Hc'.
Qed.

(** Dropping consumed bytes shifts the loop. *)
Lemma frames_loop_shift fuel rc p a n subs w w1 n1 subs1 :
  slice_ok (p ++ a) -> 0 <= n ->
  frames_loop weak fuel rc a n subs w = Done (w1, (n1, subs1)) ->
  frames_loop weak fuel rc (p ++ a) (len p + n) subs w = Done (w1, (len p + n1, subs1)).
Proof.
  intros Hok. revert n subs w. induction fuel as [|fuel IH]; intros n subs w Hn H; [done|].
  apply frames_loop_inv in H as (rest & o & Es & Ep & H).
  destruct (slice_inv _ _ _ _ Es) as (_ & Hnl & Hlr & p' & q & Ea & Hlp).
  assert (q = []) as -> by (apply len_zero; rewrite Ea in Hlr; lens). rewrite app_nil_r in Ea.
  assert (slice_from (p ++ a) (len p + n) = Done rest) as Es'.
  { rewrite Ea, app_assoc. apply slice_from_app. lens. }
  assert (slice_ok rest) as Hrok by (unfold slice_ok in *; subst a; lens).
  eapply frames_loop_step; [exact Es'|exact Ep|]. destruct o as [f c| |e].
  - destruct H as (w' & subs' & total & st & E1 & E2 & E3 & H).
    destruct (parse_frame_inv _ _ _ Hrok Ep) as (_ & text & tl & Hr & Ht & Hc2 & _).
    assert (n + c <= len a) by (subst a rest; lens).
    assert (isize_max < usize_max) by done. unfold slice_ok in Hok. rewrite len_app in Hok.
    pose proof (len_nonneg p). rewrite uadd_ok in E2 by lia. injection E2 as <-.
    exists w', subs', (len p + n + c), st. rewrite uadd_ok by lia. split_and!; [done..|].
    destruct (close_with st).
    + simplify_eq. by rewrite Z.add_assoc.
    + rewrite <- Z.add_assoc. apply IH; [lia|done].
  - by simplify_eq.
  - destruct H as (w' & E1 & H). simplify_eq. eauto.
Qed.

Lemma frames_loop_bounds fuel rc a n subs w w1 n1 subs1 :
  slice_ok a -> 0 <= n -> frames_loop weak fuel rc a n subs w = Done (w1, (n1, subs1)) ->
  n <= n1 <= len a.
Proof.
  intros Hok. revert n subs w. induction fuel as [|fuel IH]; intros n subs w Hn H; [done|].
  apply frames_loop_inv in H as (rest & o & Es & Ep & H).
  destruct (slice_inv _ _ _ _ Es) as (Hnl & _ & Hlr & p & q & Ea & Hlp).
  assert (slice_ok rest) as Hrok by (unfold slice_ok in *; lens).
  destruct o as [f c| |e].
  - destruct H as (w' & subs' & total & st & _ & E2 & _ & H).
    destruct (parse_frame_inv _ _ _ Hrok Ep) as (_ & text & tl & Hr & Ht & Hc2 & _).
    assert (isize_max < usize_max) by done. unfold slice_ok in Hok.
    assert (n + c <= len a) by (rewrite Hr in Hlr; lens).
    rewrite uadd_ok in E2 by lia. injection E2 as <-.
    destruct (close_with st); [injection H as -> -> ->; lia|]. apply IH in H; lia.
  - injection H as -> -> ->. lia.
  - destruct H as (w' & _ & H). injection H as -> -> ->. lia.
Qed.

(** Fuel for every remaining byte is always enough. *)
Lemma frames_loop_enough fuel fuel' rc a n subs w r :
  slice_ok a -> 0 <= n -> len a - n < Z.of_nat fuel' -> n <= len a ->
  frames_loop weak fuel rc a n subs w = Done r -> frames_loop weak fuel' rc a n subs w = Done r.
Proof.
  intros Hok. revert fuel' n subs w. induction fuel as [|fuel IH]; intros fuel' n subs w Hn Hf Hl H; [done|].
  destruct fuel' as [|fuel']; [lia|].
  apply frames_loop_inv in H as (rest & o & Es & Ep & H). eapply frames_loop_step; [done..|].
  destruct (slice_inv _ _ _ _ Es) as (_ & _ & Hlr & _).
  assert (slice_ok rest) as Hrok by (unfold slice_ok in *; lens).
  destruct o as [f c| |e]; [|done..].
  destruct H as (w' & subs' & total & st & E1 & E2 & E3 & H).
  destruct (parse_frame_inv _ _ _ Hrok Ep) as (_ & text & tl & Hr & Ht & Hc2 & _).
  assert (isize_max < usize_max) by done. unfold slice_ok in Hok.
  assert (n + c <= len a) by (rewrite Hr in Hlr; lens).
  exists w', subs', total, st. split_and!; [done..|].
  rewrite uadd_ok in E2 by lia. injection E2 as <-.
  destruct (close_with st); [done|]. apply IH; lia || done.
Qed.

Lemma reader_round_inv rc read accum subs w w' a' s' go :
  read <> [] -> len (accum ++ read) <= MAX_FRAME_SIZE ->
  reader_round weak rc read accum subs w = Done (w', (a', s', go)) ->
  exists n st, frames_loop weak (S (length (accum ++ read))) rc (accum ++ read) 0 subs w =
      Done (w', (n, s')) /\ 0 <= n <= len (accum ++ read) /\
    a' = drop (Z.to_nat n) (accum ++ read) /\ heap w' !! rc = Some st /\
    go = bool_decide (close_with st = None).
Proof.
  intros Hne Hl H. destruct read as [|b read]; [done|]. cbn [reader_round] in H.
  set (acc := accum ++ b :: read) in *. rewrite (proj2 (Z.ltb_ge _ _)) in H by lia.
  apply M_bind_inv in H as (w1 & [n s1] & E1 & H).
  assert (MAX_FRAME_SIZE <= isize_max) by done.
  assert (0 <= n <= len acc) as Hn by (eapply frames_loop_bounds; [|done|exact E1]; unfold slice_ok; lia).
  apply M_bind_inv in H as (w2 & a1 & E2 & H). apply lift_inv in E2 as [E2 ->].
  apply M_bind_inv in H as (w2 & st & E3 & H). apply deref_inv in E3 as [E3 ->].
  injection H as <- <- <- <-. exists n, st. split_and!; [done|lia|lia| |done|done].
  destruct (Z.ltb_spec 0 n).
  - rewrite slice_from_done in E2 by lia. by injection E2 as <-.
  - injection E2 as <-. by replace n with 0 by lia.
Qed.

Lemma reader_round_intro rc read accum subs w w' n s' st fuel :
  read <> [] -> len (accum ++ read) <= MAX_FRAME_SIZE ->
  frames_loop weak fuel rc (accum ++ read) 0 subs w = Done (w', (n, s')) ->
  heap w' !! rc = Some st ->
  reader_round weak rc read accum subs w =
    Done (w', (drop (Z.to_nat n) (accum ++ read), s', bool_decide (close_with st = None))).
Proof.
  intros Hne Hl H Hst. destruct read as [|b read]; [done|]. cbn [reader_round].
  set (acc := accum ++ b :: read) in *. rewrite (proj2 (Z.ltb_ge _ _)) by lia.
  assert (MAX_FRAME_SIZE <= isize_max) by done.
  assert (0 <= n <= len acc) as Hn by (eapply frames_loop_bounds; [|done|exact H]; unfold slice_ok; lia).
  mstep ltac:(eapply frames_loop_enough, H; unfold slice_ok, len in *; lia).
  assert ((if 0 <? n then slice_from acc n else Done acc) = Done (drop (Z.to_nat n) acc)) as E.
  { destruct (Z.ltb_spec 0 n); [by apply slice_from_done|]. by replace n with 0 by lia. }
  mstep ltac:(unfold lift; rewrite E; reflexivity).
  by mstep ltac:(unfold deref; rewrite Hst; reflexivity).
Qed.

(** Two reads in a row are one read of the two chunks. *)
Lemma reader_round_app rc c1 c2 accum subs w w1 a1 s1 w2 a2 s2 go :
  c1 <> [] -> c2 <> [] -> len (accum ++ c1 ++ c2) <= MAX_FRAME_SIZE ->
  reader_round weak rc c1 accum subs w = Done (w1, (a1, s1, true)) ->
  reader_round weak rc c2 a1 s1 w1 = Done (w2, (a2, s2, go)) ->
  reader_round weak rc (c1 ++ c2) accum subs w = Done (w2, (a2, s2, go)).
Proof.
  intros H1 H2 Hl R1 R2. assert (MAX_FRAME_SIZE <= isize_max) by done.
  apply reader_round_inv in R1 as (n1 & st1 & L1 & Hn1 & Ea1 & Hst1 & Hgo1); [|done|lens].
  apply reader_round_inv in R2 as (n2 & st2 & L2 & Hn2 & Ea2 & Hst2 & ->); [|done|subst a1; lens].
  set (a := accum ++ c1) in *. set (p := take (Z.to_nat n1) a).
  assert (accum ++ c1 ++ c2 = a ++ c2) as Ha by (unfold a; by rewrite <- app_assoc).
  assert (a ++ c2 = p ++ a1 ++ c2) as Hp by (unfold p; by rewrite app_assoc, Ea1, take_drop).
  assert (len p = n1) as Hlp by (unfold p; lens).
  assert (slice_ok (p ++ a1 ++ c2)) as Hok by (rewrite <- Hp, <- Ha; unfold slice_ok; lia).
  apply (frames_loop_shift _ _ p) in L2; [|done|lia].
  rewrite <- Hp, Z.add_0_r, Hlp in L2. rewrite <- Hp in Hok.
  pose proof (frames_loop_resume _ _ _ _ _ _ _ _ _ _ _ _ Hok (Z.le_refl 0) L1
    ltac:(exists st1; split; [done|by eapply bool_decide_eq_true]) L2) as L.
  rewrite <- Ha in L. erewrite reader_round_intro; [|by destruct c1|done|exact L|done].
  do 4 f_equal. rewrite Ha, Hp, Ea2, <- Hlp.
  rewrite drop_app_ge by (unfold len in *; lia). f_equal. unfold len in *. lia.
Qed.

(* ------------------------------------------------------------------ *)
(** * The writer *)

(** A writer that waits will be woken if there is work. *)
Definition writer_ok (pc : writer_pc) (st : ConnectionState N) : Prop :=
  match pc with WWait => wakes st | _ => True end.

(** The goodbye of a closing connection. *)
Definition farewell (c : option CloseReason.t) : bytes :=
  match c ≫= CloseReason.err_text with Some text => encode (Frame.Err text) | None => [] end.

Definition put_cell (w : Worker N) (rc : Rc) (st : ConnectionState N) : Worker N :=
  set_heap w (<[rc := st]> (heap w)).

Lemma writer_wait w rc st ok buf :
  heap w !! rc = Some st ->
  writer_step rc ok WWait buf w =
    Done (match wait_for_event st with
          | None => (w, (WWait, buf, [])) | Some st' => (put_cell w rc st', (WDrain, buf, [])) end).
Proof.
  intros Hst. cbn [writer_step]. mstep ltac:(unfold deref; rewrite Hst; reflexivity).
  by destruct (wait_for_event st).
Qed.

(** A drain that finds bytes hands them to the socket. *)
Lemma writer_drain_some w rc st ok buf :
  wf st -> heap w !! rc = Some st -> slice_ok buf -> buf <> [] -> pending st <> [] ->
  exists st' buf' sent, writer_step rc ok WDrain buf w =
      Done (put_cell w rc st', (if ok then WDrain else WExit, buf', sent)) /\
    wf st' /\ id st' = id st /\ close_with st' = close_with st /\ notify_ st' = notify_ st /\
    sent <> [] /\ pending st = sent ++ pending st' /\ len buf' = len buf.
Proof.
  intros Hwf Hst Hb Hbn Hp.
  destruct (drain_into_spec st buf Hwf Hb) as (st' & E & Hwf' & Hp' & Hid & _ & Hc & Hn).
  set (n := Z.min (len (pending st)) (len buf)) in *.
  assert (0 < len (pending st)) by (destruct (pending st); [done|lens]).
  assert (0 < len buf) by (destruct buf; [done|lens]).
  assert (0 < n) as Hn0 by lia.
  exists st'. eexists _, _. split; [|split_and!; [done..| | |]].
  - cbn [writer_step]. mstep ltac:(unfold deref; rewrite Hst; reflexivity).
    mstep ltac:(unfold lift; rewrite E; reflexivity). mstep ltac:(reflexivity). zb.
    mstep ltac:(unfold lift; rewrite slice_to_app by lens; reflexivity). reflexivity.
  - intros Ht. apply (f_equal len) in Ht. revert Ht. lens.
  - by rewrite Hp', take_drop.
  - lens.
Qed.

(** A drain that finds none ends the round. *)
Lemma writer_drain_none w rc st ok buf :
  wf st -> heap w !! rc = Some st -> slice_ok buf -> 64 <= len buf -> pending st = [] ->
  exists st' buf', writer_step rc ok WDrain buf w =
      Done (put_cell w rc st', (if decide (close_with st = None) then WWait else WExit, buf',
        farewell (close_with st))) /\
    wf st' /\ id st' = id st /\ close_with st' = close_with st /\ notify_ st' = notify_ st /\
    pending st' = [] /\ len buf' = len buf.
Proof.
  intros Hwf Hst Hb Hbn Hp.
  destruct (drain_into_spec st buf Hwf Hb) as (st' & E & Hwf' & Hp' & Hid & _ & Hc & Hn).
  rewrite Hp in *. rewrite drop_nil in Hp'.
  assert (Z.min (len (@nil byte)) (len buf) = 0) as H0 by lens.
  rewrite H0 in E. change (take (Z.to_nat 0) [] ++ drop (Z.to_nat 0) buf) with buf in E.
  assert (exists buf', writer_step rc ok WDrain buf w =
      Done (put_cell w rc st', (if decide (close_with st = None) then WWait else WExit, buf',
        farewell (close_with st))) /\ len buf' = len buf) as (buf' & Ew & Hl).
  { cbn [writer_step]. setoid_rewrite M_bind_done; [|unfold deref; rewrite Hst; reflexivity].
    setoid_rewrite M_bind_done; [|unfold lift; rewrite E; reflexivity]. cbn beta iota.
    setoid_rewrite M_bind_done; [|reflexivity]. cbn [Z.eqb]. unfold close_reason. rewrite Hc.
    destruct (close_with st) as [r|]; [|by exists buf]. rewrite decide_False by done.
    unfold farewell. cbn [mbind option_bind]. destruct (CloseReason.err_text r) as [text|] eqn:Et; [|by exists buf].
    assert (len text <= 16) by (destruct r; cbn in Et; simplify_eq; by vm_compute).
    assert (len (encode (Frame.Err text)) = len text + 7) as Hle.
    { unfold encode. rewrite !len_app, len_CRLF. change (len (bs "-ERR ")) with 5. lia. }
    destruct (emit_frame_done buf (Frame.Err text) Hb I) as [[_ Ee]|[Hlt _]]; [|lia].
    change (emit_frame (Frame.Err text)) with (emit_err text) in Ee.
    eexists. split.
    - mstep ltac:(unfold lift; rewrite Ee; reflexivity).
      mstep ltac:(unfold lift; rewrite slice_to_app by done; reflexivity). reflexivity.
    - lens. }
  exists st', buf'. by split_and!.
Qed.

(** The writer left to itself until its next wait or exit, every write
    succeeding: where it stops and what it sent. *)
Fixpoint writer_round (fuel : nat) (rc : Rc) (buf : bytes) : M (writer_pc * bytes) :=
  match fuel with
  | O => lift Panic
  | S fuel =>
      r ← writer_step rc true WDrain buf;
      let '(pc, buf', sent) := r in
      match pc with
      | WDrain => rest ← writer_round fuel rc buf'; mret (rest.1, sent ++ rest.2)
      | _ => mret (pc, sent)
      end
  end.

Lemma put_cell_twice w rc st st' : put_cell (put_cell w rc st) rc st' = put_cell w rc st'.
Proof. unfold put_cell, set_heap. wsimpl. by rewrite insert_insert_eq. Qed.

Lemma writer_round_spec fuel w rc st buf :
  wf st -> heap w !! rc = Some st -> slice_ok buf -> 64 <= len buf ->
  (length (pending st) < fuel)%nat ->
  exists st', writer_round fuel rc buf w =
      Done (put_cell w rc st', (if decide (close_with st = None) then WWait else WExit,
        pending st ++ farewell (close_with st))) /\
    wf st' /\ id st' = id st /\ close_with st' = close_with st /\ pending st' = [] /\
    notify_ st' = notify_ st.
Proof.
  revert w st buf. induction fuel as [|fuel IH]; intros w st buf Hwf Hst Hb Hl Hf; [lia|].
  cbn [writer_round]. destruct (decide (pending st = [])) as [Hp|Hp].
  - destruct (writer_drain_none w rc st true buf Hwf Hst Hb Hl Hp) as (st' & buf' & E & ? & ? & ? & ? & ? & _).
    exists st'. split_and!; [|done..]. mstep ltac:(exact E). rewrite Hp. by destruct (decide _).
  - assert (buf <> []) as Hbn by (intros ->; by cbn in Hl).
    destruct (writer_drain_some w rc st true buf Hwf Hst Hb Hbn Hp)
      as (st1 & buf1 & sent & E & Hwf1 & Hid1 & Hc1 & Hn1 & Hs & Hp1 & Hl1).
    destruct (IH (put_cell w rc st1) st1 buf1 Hwf1) as (st2 & E2 & Hwf2 & Hid2 & Hc2 & Hp2 & Hn2).
    + unfold put_cell. wsimpl. by rewrite lookup_insert_eq.
    + unfold slice_ok in *. lia.
    + lia.
    + rewrite Hp1, length_app in Hf. destruct sent; [done|]. cbn in Hf. lia.
    + exists st2. split_and!; try congruence. mstep ltac:(exact E). mstep ltac:(exact E2).
      cbn [fst snd]. by rewrite put_cell_twice, Hc1, Hp1, app_assoc.
Qed.

(** Every step of the writer keeps its cell well formed and leaves it waiting
    only if it will be woken. *)
Lemma writer_step_ok w rc st ok pc buf :
  wf st -> heap w !! rc = Some st -> slice_ok buf -> 64 <= len buf -> writer_ok pc st ->
  exists st' pc' buf' sent w', writer_step rc ok pc buf w = Done (w', (pc', buf', sent)) /\
    (w' = w /\ st' = st \/ w' = put_cell w rc st') /\
    wf st' /\ id st' = id st /\ writer_ok pc' st' /\ len buf' = len buf /\ close_with st' = close_with st.
Proof.
  intros Hwf Hst Hb Hl Ho. assert (buf <> []) as Hbn by (intros ->; by cbn in Hl). destruct pc.
  - rewrite (writer_wait w rc st ok buf Hst). unfold wait_for_event.
    destruct (notified (notify_ st)) as [n|]; cbn [fmap option_fmap option_map].
    + eexists (set_notify st n), _, _, _, _. split; [reflexivity|]. split; [by right|].
      split_and!; try done. by destruct Hwf.
    + eexists st, _, _, _, _. split; [reflexivity|]. split; [by left|]. by split_and!.
  - destruct (decide (pending st = [])) as [Hp|Hp].
    + destruct (writer_drain_none w rc st ok buf Hwf Hst Hb Hl Hp)
        as (st' & buf' & E & Hwf' & Hid & Hc & Hn & Hp' & Hl').
      eexists st', _, _, _, _. split; [exact E|]. split; [by right|]. split_and!; try done.
      destruct (decide (close_with st = None)) as [Hcl|Hcl]; [|done]. intros [H|H]; congruence.
    + destruct (writer_drain_some w rc st ok buf Hwf Hst Hb Hbn Hp)
        as (st' & buf' & sent & E & Hwf' & Hid & Hc & _ & _ & _ & Hl').
      eexists st', _, _, _, _. split; [exact E|]. split; [by right|]. split_and!; try done.
      by destruct ok.
  - eexists st, _, _, _, _. split; [reflexivity|]. split; [by left|]. by split_and!.
Qed.

(** The greeting always fits. *)
Lemma reader_greet_done w rc :
  good w -> is_Some (heap w !! rc) ->
  reader_greet rc w = Done (told w rc (encode (Frame.Info SERVER_INFO_JSON)), true).
Proof.
  intros Hg [st Hst]. unfold reader_greet.
  assert (SHORT_FRAME_BUF = 4096) as HS by done.
  assert (len (encode (Frame.Info SERVER_INFO_JSON)) = 165) as Hl by by vm_compute.
  destruct (emit_frame_done (zeroed SHORT_FRAME_BUF) (Frame.Info SERVER_INFO_JSON)) as [[_ E]|[Hlt _]];
    [|done| |rewrite len_zeroed in Hlt; lia].
  { unfold slice_ok. rewrite len_zeroed; [by rewrite HS|lia]. }
  change (emit_frame (Frame.Info SERVER_INFO_JSON)) with (emit_info SERVER_INFO_JSON) in E.
  mstep ltac:(unfold lift; rewrite E; reflexivity).
  mstep ltac:(unfold lift; rewrite slice_to_app by done; reflexivity).
  destruct (enqueue_rc_spec w rc st (encode (Frame.Info SERVER_INFO_JSON)) Hg Hst) as (o & Eo).
  mstep ltac:(exact Eo). by rewrite (told_insert w rc st).
Qed.
End Session.

(* ------------------------------------------------------------------ *)
(** * Properties *)

(** C26.  Every client frame other than [PUB] has exactly its documented
    effect: [SUB] adds its route and records its sid, or sends the reason its
    subject is refused; [UNSUB] removes the routes of a recorded sid; [PING] is
    answered [PONG]; [UNSUB] with a limit and server-side verbs are answered
    [-ERR]; [CONNECT] and [PONG] do nothing.  The trie keeps standing for the
    flat table. *)
Theorem handle_frame_effect `{N : Notify} weak f (w : Worker N) rc st tb subs :
  good w -> heap w !! rc = Some st -> refines (table w) tb ->
  total_subscriptions (table w) < usize_max -> is_pub f = false ->
  exists t', handle_frame weak f rc subs w =
      Done (set_table (replied w rc (frame_reply f)) t', frame_subs subs f) /\
    refines t' (table_after tb (frame_op (id st) subs f)).
Proof.
  intros Hg Hst Hr Hm Hp.
  destruct (handle_frame_control weak f w rc st tb subs Hg Hst Hr Hm Hp) as (t' & E & Hr' & _). eauto.
Qed.
Lemma handle_frame_effect_witness :
  exists t', handle_frame (fun _ => []) (Frame.Sub (bs "x.>") None (bs "4")) 0%nat ∅ (Ex.worker 0) =
      Done (set_table (Ex.worker 0) t', {[bs "4" := bs "x.>"]}) /\
    refines t' (table_ops [] Ex.ops ++ [([Literal (bs "x"); Greater], mkSub Ex.c1 (bs "4") None)]).
Proof.
  apply (handle_frame_effect (fun _ => []) (Frame.Sub (bs "x.>") None (bs "4")) (Ex.worker 0) 0%nat
    (ConnState.new Ex.c1 128) (table_ops [] Ex.ops) ∅); try done.
  - by apply Ex.worker_good.
  - exact Ex.trie_refines.
Defined.

(** C13.  The reader is immune to its input: whatever bytes arrive, in
    whatever state of the accumulator, a round of the reader returns without
    a panic (no slice out of range, no overflow, the framing loop terminates
    within one iteration per byte), its effect is a sequence of whole
    well-formed frames and closes, the worker's invariant is kept, and the
    loop goes on only with an open connection and at most [MAX_FRAME_SIZE]
    buffered bytes. *)
Theorem reader_round_safe `{N : Notify} weak rc read accum subs (w : Worker N) tb :
  ready w rc tb -> len accum <= MAX_FRAME_SIZE -> slice_ok read ->
  total_subscriptions (table w) + MAX_FRAME_SIZE + 1 <= usize_max ->
  exists w' accum' subs' go tb',
    reader_round weak rc read accum subs w = Done (w', (accum', subs', go)) /\
    rtc (session weak rc) (w, subs) (w', subs') /\ ready w' rc tb' /\
    (go = true -> len accum' <= MAX_FRAME_SIZE /\ open w' rc).
Proof.
  intros Hrd Ha Hr Ht. destruct (reader_round_done weak rc read accum subs w tb Hrd Ha Hr Ht)
    as (w' & a' & s' & go & tb' & ? & ? & ? & ? & _). by exists w', a', s', go, tb'.
Qed.
Lemma reader_round_safe_witness :
  exists w' accum' subs' go tb',
    reader_round (fun _ => []) 0%nat (bs "NG" ++ CRLF ++ bs "WAT" ++ CRLF) (bs "PI") ∅ (Ex.worker 0) =
      Done (w', (accum', subs', go)) /\
    rtc (session (fun _ => []) 0%nat) (Ex.worker 0, ∅) (w', subs') /\ ready w' 0%nat tb' /\
    (go = true -> len accum' <= MAX_FRAME_SIZE /\ open w' 0%nat).
Proof.
  apply (reader_round_safe (fun _ => []) 0%nat _ (bs "PI") ∅ (Ex.worker 0) (table_ops [] Ex.ops)).
  - constructor; [by apply Ex.worker_good|by eexists|exact Ex.trie_refines|].
    exact (all_hold_ok _ _ _ _ (Ex.worker_hold 0)).
  - by vm_compute.
  - by vm_compute.
  - by vm_compute.
Defined.


(** The writer delivers: once woken, with writes succeeding, it sends
    exactly the bytes that were pending, in order, followed on a closing
    connection by the [-ERR] of the close reason (none when the peer is gone),
    then exits if the connection is closing and otherwise waits with nothing
    pending. *)
Theorem writer_flushes `{N : Notify} (w : Worker N) rc st st1 buf fuel :
  good w -> heap w !! rc = Some st -> wait_for_event st = Some st1 ->
  slice_ok buf -> 64 <= len buf -> (length (pending st) < fuel)%nat ->
  exists st', writer_step rc true WWait buf w = Done (put_cell w rc st1, (WDrain, buf, [])) /\
    writer_round fuel rc buf (put_cell w rc st1) =
      Done (put_cell w rc st', (if decide (close_with st = None) then WWait else WExit,
        pending st ++ farewell (close_with st))) /\
    pending st' = [] /\ close_with st' = close_with st.
Proof.
  intros Hg Hst He Hb Hl Hf. assert (wf st1 /\ pending st1 = pending st /\ close_with st1 = close_with st)
    as (Hwf1 & Hp1 & Hc1).
  { apply Hg in Hst as []. unfold wait_for_event in He. apply fmap_Some in He as (n & _ & ->). done. }
  destruct (writer_round_spec fuel (put_cell w rc st1) rc st1 buf Hwf1) as (st' & E & _ & _ & Hc & Hp & _);
    [unfold put_cell; wsimpl; by rewrite lookup_insert_eq|done|done|by rewrite Hp1|].
  exists st'. rewrite (writer_wait w rc st true buf Hst), He.
  rewrite E, put_cell_twice, Hp1, Hc1. split_and!; try done. congruence.
Qed.
Lemma writer_flushes_witness :
  let st := mark_close (enqueue_state (N := permit_notify) (ConnState.new Ex.c1 128) (bs "hello"))
              CloseReason.SlowConsumer in
  let w := set_heap (Ex.worker 0) {[0%nat := st; 1%nat := ConnState.new Ex.c2 128]} in
  exists st1 st', writer_step 0%nat true WWait (replicate 64 x00) w =
      Done (put_cell w 0%nat st1, (WDrain, replicate 64 x00, [])) /\
    writer_round 6 0%nat (replicate 64 x00) (put_cell w 0%nat st1) =
      Done (put_cell w 0%nat st', (WExit, bs "hello-ERR slow consumer" ++ CRLF)) /\
    pending st' = [] /\ close_with st' = Some CloseReason.SlowConsumer.
Proof.
  intros st w. eexists. eapply (writer_flushes w 0%nat st _ (replicate 64 x00) 6).
  - constructor; [|..|by vm_compute|].
    + intros rc st'. unfold w. wsimpl. intros H.
      apply lookup_insert_Some in H as [[<- <-]|[_ H]]; [|apply lookup_singleton_Some in H as [<- <-]].
      * apply mark_close_wf. destruct (enqueue_state_cases (N := permit_notify) (ConnState.new Ex.c1 128) (bs "hello"))
          as (_ & _ & Hwf & _); [by apply wf_new|done].
      * by apply wf_new.
    + intros c rc. unfold w. cbn. rewrite !lookup_insert_Some, lookup_empty.
      intros [[<- <-]|[_ [[<- <-]|[_ ?]]]]; [..|done]; eexists; by simplify_map_eq.
    + by apply seed_range.
  - reflexivity.
  - reflexivity.
  - by vm_compute.
  - by vm_compute.
  - vm_compute. lia.
Defined.
