(* ===== verification/Broker.v ===== *)
(** A shard as a state machine: the accept loop, every connection's reader and
    writer, the drain task and the peers' pushes, interleaved in any order.

    A step is one stretch of code between two [await]s, except that the reader
    takes one step per frame ([reader_round_steps] shows that a round of the
    reader is such a sequence), so that clients may send any frames at all.
    Two guards bound the model: fewer than 2^32 connections are accepted and
    the trie counts fewer than 2^64 subscriptions. *)
From Stdlib Require Import ZArith Lia Strings.Byte.
From stdpp Require Import base gmap list strings relations.
From S2P Require Import Prelude Subject Trie TrieSpec ConnState ShardInbox Wire Parse Emit Worker Dispatch DispatchSpec Session SessionSpec.

Inductive reader_state : Type :=
| RGreet
| RLoop (subscriptions : Subscriptions).

Section Broker.
Context `{N : Notify}.

Record Shard : Type := mkShard {
  worker : Worker N;
  readers : gmap Rc reader_state;
  writers : gmap Rc (writer_pc * bytes);
}.

(** The sizes of outbound and write buffers: the program passes
    [DEFAULT_OUTBOUND_CAPACITY] and [DEFAULT_BUFFER_SIZE]. *)
Variables (capacity buffer_size : Z).
(** Which frames clients send, given their subscriptions. *)
Variable allowed : Subscriptions -> Frame.t -> Prop.

(** A step of one of the shard's own tasks. *)
Inductive task : Shard -> Shard -> Prop :=
| task_accept w rs ws rc buf w' :
    heap w !! rc = None -> next_conn_id w < u32_max -> len buf = buffer_size ->
    accept capacity true true rc w = Done (w', Some rc) ->
    task (mkShard w rs ws) (mkShard w' (<[rc := RGreet]> rs) (<[rc := (WWait, buf)]> ws))
| task_refuse w rs ws rb wb rc w' :
    next_conn_id w < u32_max -> accept capacity rb wb rc w = Done (w', None) ->
    task (mkShard w rs ws) (mkShard w' rs ws)
| task_greet w rs ws rc w' go :
    rs !! rc = Some RGreet -> reader_greet rc w = Done (w', go) ->
    task (mkShard w rs ws)
      (mkShard w' (if go : bool then <[rc := RLoop ∅]> rs else delete rc rs) ws)
| task_frame w rs ws rc subs f weak w' subs' :
    rs !! rc = Some (RLoop subs) -> frame_wf f -> allowed subs f ->
    total_subscriptions (table w) < usize_max ->
    handle_frame weak f rc subs w = Done (w', subs') ->
    task (mkShard w rs ws) (mkShard w' (<[rc := RLoop subs']> rs) ws)
| task_close w rs ws rc subs w' :
    rs !! rc = Some (RLoop subs) -> mark_close_rc rc CloseReason.ProtocolError w = Done (w', tt) ->
    task (mkShard w rs ws) (mkShard w' rs ws)
| task_exit w rs ws rc subs order w' :
    rs !! rc = Some (RLoop subs) -> order ≡ₚ map_to_list subs ->
    reader_cleanup rc order w = Done (w', tt) ->
    task (mkShard w rs ws) (mkShard w' (delete rc rs) ws)
| task_write w rs ws rc pc buf ok w' pc' buf' sent :
    ws !! rc = Some (pc, buf) -> writer_step rc ok pc buf w = Done (w', (pc', buf', sent)) ->
    task (mkShard w rs ws) (mkShard w' rs (<[rc := (pc', buf')]> ws)).

(** What happens on the inboxes: the other shards push (the log of kicks may be
    emptied then), and the drain task takes one turn of its
    [while let Some(frame) = inbox.pop()] loop. *)
Inductive exchange : Shard -> Shard -> Prop :=
| exchange_peers w rs ws boxes ks :
    inboxes_ok (set_peer_inboxes w boxes) -> length boxes = length (peer_inboxes w) ->
    exchange (mkShard w rs ws) (mkShard (set_kicks (set_peer_inboxes w boxes) ks) rs ws)
| exchange_drain w rs ws f m k h q m' w' res :
    peer_inboxes w !! Z.to_nat (shard_id w) = Some m -> holds m k h (f :: q) ->
    pop m = Done (m', Some f) -> slice_ok (ShardInbox.payload f) ->
    dispatch_local (ShardInbox.subject f) (ShardInbox.reply_to f) (ShardInbox.payload f)
      (set_peer_inboxes w (<[Z.to_nat (shard_id w) := m']> (peer_inboxes w))) = Done (w', res) ->
    exchange (mkShard w rs ws) (mkShard w' rs ws).

(** A step of the shard. *)
Inductive step : Shard -> Shard -> Prop :=
| step_task s s' : task s s' -> step s s'
| step_exchange s s' : exchange s s' -> step s s'.

(** The shard at start-up. *)
Definition initial (scratch : Z) (shard : Z) (boxes : list (ShardInbox PublishedFrame)) : Shard :=
  mkShard (Worker_new scratch shard boxes (length boxes)) ∅ ∅.

(* ------------------------------------------------------------------ *)
(** * Invariants *)

Record base (s : Shard) : Prop := {
  b_good : good (worker s);
  b_inboxes : inboxes_ok (worker s);
  b_next : 0 <= next_conn_id (worker s) <= u32_max;
  b_ids : forall rc st, heap (worker s) !! rc = Some st ->
    0 <= ConnectionId.get (id st) < next_conn_id (worker s);
  b_uniq : forall rc rc' st st', heap (worker s) !! rc = Some st ->
    heap (worker s) !! rc' = Some st' -> id st = id st' -> rc = rc';
  b_readers : forall rc, is_Some (readers s !! rc) -> exists st,
    heap (worker s) !! rc = Some st /\ connections (worker s) !! id st = Some rc;
  b_conns : forall c rc, connections (worker s) !! c = Some rc -> is_Some (readers s !! rc);
  b_writers : forall rc pc buf, writers s !! rc = Some (pc, buf) ->
    slice_ok buf /\ 64 <= len buf /\
    exists st, heap (worker s) !! rc = Some st /\ writer_ok pc st;
}.

(** Every recorded subscription of a live connection has its route in [tb]. *)
Definition routed (tb : TrieSpec.table) (s : Shard) : Prop :=
  forall rc st subs sid subject, readers s !! rc = Some (RLoop subs) ->
  heap (worker s) !! rc = Some st -> subs !! sid = Some subject ->
  exists p qg, parse_subscriber_subject subject = Done (Ok p) /\ (p, mkSub (id st) sid qg) ∈ tb.

(** Every route of [tb] is a recorded subscription of a live connection. *)
Definition owned (tb : TrieSpec.table) (s : Shard) : Prop :=
  forall p sub, (p, sub) ∈ tb -> exists rc subs subject,
  connections (worker s) !! conn_id sub = Some rc /\ readers s !! rc = Some (RLoop subs) /\
  subs !! sid sub = Some subject /\ parse_subscriber_subject subject = Done (Ok p).

(** Every route of [tb] has an id that was given out. *)
Definition known (tb : TrieSpec.table) (s : Shard) : Prop :=
  forall p sub, (p, sub) ∈ tb -> 0 <= ConnectionId.get (conn_id sub) < next_conn_id (worker s).

Record inv (s : Shard) (tb : TrieSpec.table) : Prop := {
  i_base : base s;
  i_table : refines (table (worker s)) tb;
  i_routed : routed tb s;
  i_known : known tb s;
}.

Hypothesis Hcap : 0 <= capacity <= isize_max.
Hypothesis Hbuf : 64 <= buffer_size <= isize_max.
Context `{NL : !NotifyLaws N}.

Ltac bsimpl := cbn [worker readers writers]; wsimpl.

(** Cells before and after a handler that only grows them. *)
Lemma grows_back (w w' : Worker N) rc st' :
  grows w w' -> heap w' !! rc = Some st' ->
  exists st acc, heap w !! rc = Some st /\ acts_ok st st' acc [].
Proof.
  intros H Hst'. specialize (H rc). destruct (heap w !! rc) as [st|]; [|congruence].
  destruct H as (st1 & acc & E & Ha). exists st, acc. split; [done|]. congruence.
Qed.

Definition same_readers (rs rs' : gmap Rc reader_state) : Prop :=
  forall rc, is_Some (rs' !! rc) <-> is_Some (rs !! rc).

Lemma same_readers_refl rs : same_readers rs rs.
Proof. by intros rc. Qed.
Lemma same_readers_insert rs rc x y :
  rs !! rc = Some x -> same_readers rs (<[rc := y]> rs).
Proof.
  intros Hx rc'. destruct (decide (rc = rc')) as [<-|Hn].
  - rewrite lookup_insert_eq, Hx. by split; eexists.
  - by rewrite lookup_insert_ne.
Qed.

Lemma base_grow w rs ws w' rs' :
  base (mkShard w rs ws) -> good w' -> inboxes_ok w' -> grows w w' ->
  connections w' = connections w -> next_conn_id w' = next_conn_id w -> same_readers rs rs' ->
  base (mkShard w' rs' ws).
Proof.
  intros [Hg Hi Hn Hid Hu Hr Hc Hw] Hg' Hi' Hgr Hco Hne Hrs. cbn in *.
  constructor; cbn; rewrite ?Hne, ?Hco; try done.
  - intros rc st' Hst'. destruct (grows_back _ _ _ _ Hgr Hst') as (st & acc & Hst & []).
    rewrite acts_id. by eapply Hid.
  - intros rc rc' st st' H1 H2. destruct (grows_back _ _ _ _ Hgr H1) as (st1 & a1 & E1 & []).
    destruct (grows_back _ _ _ _ Hgr H2) as (st2 & a2 & E2 & []). intros E. apply (Hu rc rc' st1 st2 E1 E2). congruence.
  - intros rc Hrc. apply Hrs in Hrc. destruct (Hr rc Hrc) as (st & Hst & Hcst).
    destruct (grows_cell _ _ _ _ Hgr Hst) as (st' & acc & Hst' & []). exists st'. split; [done|]. congruence.
  - intros c rc H. apply Hrs. by eapply Hc.
  - intros rc pc buf H. destruct (Hw rc pc buf H) as (? & ? & st & Hst & Ho). split_and!; [done..|].
    destruct (grows_cell _ _ _ _ Hgr Hst) as (st' & acc & Hst' & []). exists st'. split; [done|].
    destruct pc; [|done..]. cbn in *. by apply acts_wakes.
Qed.

Lemma base_accept w rs ws rc buf w' :
  base (mkShard w rs ws) -> heap w !! rc = None -> next_conn_id w < u32_max -> len buf = buffer_size ->
  accept capacity true true rc w = Done (w', Some rc) ->
  base (mkShard w' (<[rc := RGreet]> rs) (<[rc := (WWait, buf)]> ws)) /\
  table w' = table w /\ next_conn_id w' = next_conn_id w + 1 /\
  heap w' = <[rc := ConnState.new (ConnectionId.new (next_conn_id w)) capacity]> (heap w) /\
  connections w' = <[ConnectionId.new (next_conn_id w) := rc]> (connections w).
Proof.
  intros [Hg Hi Hn Hid Hu Hr Hc Hw] Hrc Hlt Hlen E. cbn in *. injection E as <-. unfold u32_max in *.
  rewrite Z.mod_small by lia. set (c := ConnectionId.new (next_conn_id w)).
  assert (connections w !! c = None) as Hfresh.
  { destruct (connections w !! c) as [rc'|] eqn:E; [|done].
    destruct (good_conns w Hg c rc' E) as (st & Hst & Hi'). apply Hid in Hst.
    rewrite Hi' in Hst. cbn in Hst. lia. }
  assert (forall rc' st, heap w !! rc' = Some st -> id st <> c) as Hidc.
  { intros rc' st Hst E. apply Hid in Hst. rewrite E in Hst. cbn in Hst. lia. }
  split_and!; try done. constructor; bsimpl.
  - destruct Hg as [Gh Gc Gs Gr]. constructor; bsimpl; try done.
    + intros rc' st. destruct (decide (rc = rc')) as [<-|Hne].
      * rewrite lookup_insert_eq. intros [= <-]. by apply wf_new.
      * rewrite lookup_insert_ne by done. apply Gh.
    + intros c' rc'. rewrite lookup_insert_Some. intros [[<- <-]|[Hne E]].
      * eexists. by rewrite lookup_insert_eq.
      * destruct (Gc c' rc' E) as (st & Hst & Hi'). exists st. rewrite lookup_insert_ne; [done|congruence].
  - done.
  - unfold u32_max. lia.
  - intros rc' st. rewrite lookup_insert_Some. intros [[<- <-]|[_ H]]; [cbn; lia|].
    apply Hid in H. lia.
  - intros r1 r2 st1 st2. rewrite !lookup_insert_Some.
    intros [[<- <-]|[_ H1]] [[<- <-]|[_ H2]]; [done|..|eauto]; intros E.
    + by apply Hidc in H2.
    + by apply Hidc in H1.
  - intros rc' H. cbn in H. rewrite lookup_insert_is_Some in H. destruct (decide (rc = rc')) as [<-|Hne].
    + exists (ConnState.new c capacity). rewrite lookup_insert_eq. split; [done|].
      change (id (ConnState.new c capacity)) with c. by rewrite lookup_insert_eq.
    + destruct H as [|[_ H]]; [done|]. destruct (Hr rc' H) as (st & Hst & Hcs). exists st.
      rewrite lookup_insert_ne by done. split; [done|].
      rewrite lookup_insert_ne; [done|]. intros E. by eapply Hidc.
  - intros c' rc'. cbn. rewrite lookup_insert_Some, lookup_insert_is_Some'. intros [[_ <-]|[_ E]]; eauto.
  - intros rc' pc buf'. cbn. rewrite lookup_insert_Some. intros [[<- [= <- <-]]|[Hne H]].
    + unfold slice_ok. rewrite Hlen. split_and!; [lia..|].
      eexists. rewrite lookup_insert_eq. split; [done|]. intros [H|H]; by destruct H.
    + destruct (Hw rc' pc buf' H) as (? & ? & st & Hst & Ho). split_and!; [done..|].
      exists st. by rewrite lookup_insert_ne.
Qed.

Lemma base_write w rs ws rc pc buf ok w' pc' buf' sent :
  base (mkShard w rs ws) -> ws !! rc = Some (pc, buf) ->
  writer_step rc ok pc buf w = Done (w', (pc', buf', sent)) ->
  base (mkShard w' rs (<[rc := (pc', buf')]> ws)) /\ table w' = table w /\
  next_conn_id w' = next_conn_id w /\
  (forall rc' st', heap w' !! rc' = Some st' -> exists st, heap w !! rc' = Some st /\ id st' = id st) /\
  connections w' = connections w.
Proof.
  intros Hb Hws E. pose proof Hb as [Hg Hi Hn Hid Hu Hr Hc Hw]. cbn in *.
  destruct (Hw rc pc buf Hws) as (Hbo & Hbl & st & Hst & Ho).
  destruct (writer_step_ok w rc st ok pc buf (good_heap w Hg rc st Hst) Hst Hbo Hbl Ho)
    as (st' & pc1 & buf1 & sent1 & w1 & E1 & Hw1 & Hwf & Hids & Ho1 & Hl1 & _).
  rewrite E in E1. injection E1 as <- <- <- <-.
  assert (heap w' = <[rc := st']> (heap w) /\ w' = set_heap w (heap w')) as [Hh Hsame].
  { destruct Hw1 as [[-> ->]| ->]; [|done]. split; [by rewrite insert_id|by destruct w]. }
  assert (forall rc' st1, heap w' !! rc' = Some st1 ->
    exists st0, heap w !! rc' = Some st0 /\ id st1 = id st0) as Hback.
  { intros rc' st1. rewrite Hh, lookup_insert_Some. intros [[<- <-]|[_ H]]; eauto. }
  assert (good w') as Hg'.
  { rewrite Hsame, Hh. by eapply good_update. }
  rewrite Hsame. wsimpl. split_and!; try done.
  constructor; cbn; try done.
  - by rewrite <- Hsame.
  - intros rc' st1 H1. destruct (Hback _ _ H1) as (st0 & H0 & ->). by eapply Hid.
  - intros r1 r2 s1 s2 H1 H2. destruct (Hback _ _ H1) as (? & ? & ->).
    destruct (Hback _ _ H2) as (? & ? & ->). by eapply Hu.
  - intros rc' H. destruct (Hr rc' H) as (s0 & H0 & Hc0). rewrite Hh.
    destruct (decide (rc = rc')) as [<-|Hne]; [exists st'; rewrite lookup_insert_eq; split; congruence|].
    exists s0. by rewrite lookup_insert_ne.
  - intros rc' pc1 buf1. rewrite Hh. destruct (decide (rc = rc')) as [<-|Hne].
    + rewrite lookup_insert_eq. intros [= <- <-]. unfold slice_ok in *. rewrite Hl1.
      split_and!; [done..|]. exists st'. by rewrite lookup_insert_eq.
    + rewrite !lookup_insert_ne by done. apply Hw.
Qed.

(* ------------------------------------------------------------------ *)
(** * The end of a connection *)

Lemma unsubscribe_any t tb subject conn sid :
  refines t tb -> exists t' b, unsubscribe t subject conn sid = Done (t', b) /\
    refines t' (table_op tb (OpUnsub subject conn sid)).
Proof.
  intros Hr. cbn. destruct (parse_subscriber_done subject) as [[p|e] Ep]; rewrite ?Ep.
  - destruct (unsubscribe_refines t tb subject p conn sid Hr Ep) as (t' & E & Hr' & _). eauto.
  - exists t, false. unfold unsubscribe. by rewrite Ep.
Qed.

(** The routes left after the clean-up of [conn]. *)
Definition cleaned (conn : ConnectionId.t) (order : list (bytes * bytes)) (tb : TrieSpec.table) :
    TrieSpec.table := table_ops tb (map (fun e => OpUnsub e.2 conn e.1) order).

Lemma unsubscribe_all_done order conn w tb :
  refines (table w) tb ->
  exists t', unsubscribe_all conn order w = Done (set_table w t', tt) /\ refines t' (cleaned conn order tb).
Proof.
  revert w tb. induction order as [|[sid subject] order IH]; intros w tb Hr; cbn [unsubscribe_all].
  { exists (table w). split; [by destruct w|done]. }
  destruct (unsubscribe_any (table w) tb subject conn sid Hr) as (t1 & b & E1 & Hr1).
  destruct (IH (set_table w t1) _ Hr1) as (t2 & E2 & Hr2).
  exists t2. split; [|exact Hr2]. mstep ltac:(reflexivity).
  mstep ltac:(unfold lift; rewrite E1; reflexivity). mstep ltac:(reflexivity).
  cbn [fst]. rewrite E2. done.
Qed.

Lemma elem_of_unsub tb subject conn sid' p sub :
  (p, sub) ∈ table_op tb (OpUnsub subject conn sid') <->
  (p, sub) ∈ tb /\ ~ (parse_subscriber_subject subject = Done (Ok p) /\ is_sub conn sid' sub = true).
Proof.
  cbn. destruct (parse_subscriber_done subject) as [[q|e] Ep]; rewrite Ep.
  - unfold table_unsubscribe. rewrite list_elem_of_filter. cbn. naive_solver.
  - naive_solver.
Qed.
Lemma elem_of_cleaned order conn tb p sub :
  (p, sub) ∈ cleaned conn order tb <->
  (p, sub) ∈ tb /\ ~ exists sid' subject, (sid', subject) ∈ order /\
    parse_subscriber_subject subject = Done (Ok p) /\ is_sub conn sid' sub = true.
Proof.
  unfold cleaned, table_ops. revert tb. induction order as [|[i subject] order IH]; intros tb.
  { cbn. set_solver. }
  cbn [map fold_left fst snd]. rewrite IH, elem_of_unsub. set_solver.
Qed.

Lemma base_remove w rs ws rc st :
  base (mkShard w rs ws) -> heap w !! rc = Some st ->
  base (mkShard (set_connections w (delete (id st) (connections w))) (delete rc rs) ws).
Proof.
  intros [Hg Hi Hn Hid Hu Hrd Hc Hw] Hst. cbn in *. constructor; bsimpl; try done.
  - destruct Hg as [Gh Gc Gs Gr]. constructor; bsimpl; try done.
    intros c rc'. rewrite lookup_delete_Some. intros [_ H]. by apply Gc.
  - intros rc' H. rewrite lookup_delete_is_Some in H. destruct H as [Hne H].
    destruct (Hrd rc' H) as (st' & Hst' & Hc'). exists st'. split; [done|].
    rewrite lookup_delete_ne; [done|]. intros E. apply Hne. by eapply Hu.
  - intros c rc'. rewrite lookup_delete_Some, lookup_delete_is_Some. intros [Hne H].
    split; [|by eapply Hc]. intros ->. destruct (good_conns w Hg c rc' H) as (st' & Hst' & Hi').
    congruence.
Qed.

Lemma base_exit w rs ws rc subs order w' tb :
  base (mkShard w rs ws) -> refines (table w) tb -> rs !! rc = Some (RLoop subs) ->
  reader_cleanup rc order w = Done (w', tt) ->
  exists st, heap w !! rc = Some st /\ connections w !! id st = Some rc /\
    base (mkShard w' (delete rc rs) ws) /\ refines (table w') (cleaned (id st) order tb) /\
    connections w' = delete (id st) (connections w) /\ next_conn_id w' = next_conn_id w /\
    grows w w'.
Proof.
  intros Hb Hr Hrs E. destruct (b_readers _ Hb rc) as (st & Hst & Hcs); [by eexists|]. cbn in *. exists st.
  destruct (unsubscribe_all_done order (id st) w tb Hr) as (t' & Eu & Hr').
  unfold reader_cleanup in E. erewrite M_bind_done in E; [|unfold deref; rewrite Hst; reflexivity].
  erewrite M_bind_done in E; [|exact Eu]. erewrite M_bind_done in E; [|reflexivity].
  rewrite (mark_close_rc_done _ rc st) in E by done. injection E as <-.
  destruct (mark_close_ready w rc st tb CloseReason.PeerClosed) as (Hrd & Hgr & Hk); [|done|].
  { constructor; [apply Hb|by eexists|done|apply Hb]. }
  set (st' := mark_close st CloseReason.PeerClosed) in *.
  set (w1 := set_table (set_heap w (<[rc := st']> (heap w))) t').
  assert (base (mkShard w1 rs ws)) as Hb1.
  { eapply base_grow; [exact Hb|by apply good_set_table; destruct Hrd|by destruct Hrd|exact Hgr|done|done|].
    apply same_readers_refl. }
  assert (id st' = id st) as Hid by (unfold st'; by rewrite mark_close_spec).
  split_and!; try done.
  rewrite <- Hid. apply (base_remove w1 rs ws rc st' Hb1). unfold w1. wsimpl. by rewrite lookup_insert_eq.
Qed.

(* ------------------------------------------------------------------ *)
(** * Every step keeps the invariant *)

Lemma elem_of_table_op tb o p sub :
  (p, sub) ∈ table_op tb o ->
  (p, sub) ∈ tb \/ exists subject, o = OpSub subject sub /\ parse_subscriber_subject subject = Done (Ok p).
Proof.
  destruct o as [subject s|subject conn i]; [|rewrite elem_of_unsub; naive_solver].
  cbn. destruct (parse_subscriber_done subject) as [[q|e] Ep]; rewrite Ep; [|naive_solver].
  unfold table_subscribe. rewrite elem_of_app, list_elem_of_singleton. intros [?|[= -> ->]]; eauto.
Qed.
Lemma table_op_sub tb subject s p :
  parse_subscriber_subject subject = Done (Ok p) -> (p, s) ∈ table_op tb (OpSub subject s).
Proof.
  intros Ep. cbn. rewrite Ep. unfold table_subscribe. rewrite elem_of_app, list_elem_of_singleton. by right.
Qed.
Lemma table_op_keeps tb o p sub :
  (p, sub) ∈ tb -> (forall subject c i, o = OpUnsub subject c i -> is_sub c i sub = false) ->
  (p, sub) ∈ table_op tb o.
Proof.
  intros Hin Hn. destruct o as [subject s|subject c i].
  - cbn. destruct (parse_subscriber_done subject) as [[q|e] Ep]; rewrite Ep; [|done].
    unfold table_subscribe. rewrite elem_of_app. by left.
  - rewrite elem_of_unsub. split; [done|]. intros [_ H]. by rewrite (Hn subject c i) in H.
Qed.
Lemma is_sub_other conn i conn' i' qg :
  conn <> conn' \/ i <> i' -> is_sub conn i (mkSub conn' i' qg) = false.
Proof.
  intros H. apply not_true_is_false. intros E. apply is_sub_iff in E as [? ?]. cbn in *. naive_solver.
Qed.

(** The routes after a frame, and the subscriptions that record them. *)
Lemma frame_op_unsub conn subs f subject c i :
  frame_op conn subs f = Some (OpUnsub subject c i) ->
  f = Frame.Unsub i None /\ c = conn /\ subs !! i = Some subject.
Proof.
  destruct f as [| | |j [m|]| | | | | |]; cbn; try done.
  intros H. apply fmap_Some in H as (s & Hs & [= -> -> ->]). done.
Qed.
Lemma frame_op_sub conn subs f subject sub :
  frame_op conn subs f = Some (OpSub subject sub) ->
  exists qg, f = Frame.Sub subject qg (sid sub) /\ sub = mkSub conn (sid sub) qg.
Proof.
  destruct f as [| | |j [m|]| | | | | |]; cbn; try done.
  - intros [= -> <-]. cbn. eauto.
  - intros H. by apply fmap_Some in H as (s & Hs & ?).
Qed.

(** A subscription recorded after the frame is a new one or was recorded and
    is not the one removed. *)
Lemma frame_subs_lookup subs f i subject :
  frame_subs subs f !! i = Some subject ->
  (exists qg p, f = Frame.Sub subject qg i /\ parse_subscriber_subject subject = Done (Ok p)) \/
  (subs !! i = Some subject /\ f <> Frame.Unsub i None).
Proof.
  destruct f as [| |s qg j|j [m|]| | | | | |]; cbn; try (intros H; right; split; [exact H|discriminate]).
  - destruct (parse_subscriber_done s) as [[p|e] Ep]; rewrite Ep.
    + rewrite lookup_insert_Some. intros [[-> ->]|[_ H]]; [left; eauto|right; by split].
    + intros H. right. by split.
  - rewrite lookup_delete_Some. intros [Hn H]. right. split; [done|]. congruence.
Qed.

Lemma routed_frame w rs ws rc st subs f w' tb :
  base (mkShard w rs ws) -> routed tb (mkShard w rs ws) -> rs !! rc = Some (RLoop subs) ->
  heap w !! rc = Some st -> grows w w' ->
  routed (table_after tb (frame_op (id st) subs f))
    (mkShard w' (<[rc := RLoop (frame_subs subs f)]> rs) ws).
Proof.
  intros Hb Hr Hrs Hst Hgr rc' st1 subs1 i subject Hrs1 Hst1 Hi. cbn in *.
  destruct (grows_back _ _ _ _ Hgr Hst1) as (st0 & acc & Hst0 & [_ _ Hid0 _ _ _]). rewrite Hid0.
  assert (forall p qg, (p, mkSub (id st0) i qg) ∈ tb ->
    (id st0 = id st -> f <> Frame.Unsub i None) ->
    (p, mkSub (id st0) i qg) ∈ table_after tb (frame_op (id st) subs f)) as Hkeep.
  { intros p qg Hin Hne. destruct (frame_op _ _ _) as [o|] eqn:Eo; [|done].
    apply table_op_keeps; [done|]. intros s c j ->. apply frame_op_unsub in Eo as (-> & -> & _).
    apply is_sub_other. destruct (decide (id st0 = id st)) as [E|E]; [|by left].
    right. intros ->. by apply (Hne E). }
  apply lookup_insert_Some in Hrs1 as [[<- [= <-]]|[Hne Hrs1]].
  - rewrite Hst in Hst0. injection Hst0 as <-.
    destruct (frame_subs_lookup _ _ _ _ Hi) as [(qg & p & -> & Ep)|[Hi0 Hf]].
    + exists p, qg. split; [done|]. by apply table_op_sub.
    + destruct (Hr rc st subs i subject Hrs Hst Hi0) as (p & qg & Ep & Hin). eauto.
  - destruct (Hr rc' st0 subs1 i subject Hrs1 Hst0 Hi) as (p & qg & Ep & Hin). exists p, qg.
    split; [done|]. apply Hkeep; [done|]. intros E. exfalso. apply Hne.
    by apply (b_uniq _ Hb rc rc' st st0).
Qed.

Lemma known_frame w rs ws rc st subs f w' rs' tb :
  base (mkShard w rs ws) -> known tb (mkShard w rs ws) -> heap w !! rc = Some st ->
  next_conn_id w' = next_conn_id w ->
  known (table_after tb (frame_op (id st) subs f)) (mkShard w' rs' ws).
Proof.
  intros Hb Hk Hst Hn p sub. cbn. rewrite Hn. destruct (frame_op _ _ _) as [o|] eqn:Eo; [|apply Hk].
  intros H. apply elem_of_table_op in H as [H|(subject & -> & _)]; [by apply (Hk p)|].
  apply frame_op_sub in Eo as (qg & _ & ->). by apply (b_ids _ Hb rc).
Qed.

(** Clients that never reuse the sid of a live subscription. *)
Definition sid_fresh (subs : Subscriptions) (f : Frame.t) : Prop :=
  match f with Frame.Sub _ _ i => subs !! i = None | _ => True end.

Lemma owned_frame w rs ws rc st subs f w' tb :
  base (mkShard w rs ws) -> owned tb (mkShard w rs ws) -> rs !! rc = Some (RLoop subs) ->
  heap w !! rc = Some st -> connections w' = connections w -> sid_fresh subs f ->
  owned (table_after tb (frame_op (id st) subs f))
    (mkShard w' (<[rc := RLoop (frame_subs subs f)]> rs) ws).
Proof.
  intros Hb Ho Hrs Hst Hco Hf p sub Hin. cbn. rewrite Hco.
  destruct (b_readers _ Hb rc) as (st' & Hst' & Hcs); [by eexists|]. cbn in *.
  rewrite Hst in Hst'. injection Hst' as <-.
  assert ((p, sub) ∈ tb \/ exists subject, frame_op (id st) subs f = Some (OpSub subject sub) /\
    parse_subscriber_subject subject = Done (Ok p)) as [Hold|(subject & Eo & Ep)].
  { destruct (frame_op _ _ _) as [o|]; [|by left]. apply elem_of_table_op in Hin as [H|(s & -> & H)]; eauto. }
  - destruct (Ho p sub Hold) as (rc0 & subs0 & subject & Hc0 & Hr0 & Hi0 & Ep). cbn in *.
    destruct (decide (rc = rc0)) as [<-|Hne].
    + rewrite Hrs in Hr0. injection Hr0 as <-. exists rc, (frame_subs subs f), subject.
      rewrite lookup_insert_eq. split_and!; try done.
      destruct f as [| |s qg j|j [m|]| | | | | |]; cbn in *; try done.
      * destruct (parse_subscriber_done s) as [[q|e] Eq]; rewrite Eq; [|done].
        rewrite lookup_insert_ne; [done|]. congruence.
      * rewrite lookup_delete_ne; [done|]. intros ->. rewrite Hi0 in Hin.
        apply elem_of_unsub in Hin as [_ Hn]. apply Hn. split; [done|]. apply is_sub_iff. split; [|done].
        destruct (good_conns w (b_good _ Hb) _ _ Hc0) as (st' & Hst' & <-). congruence.
    + exists rc0, subs0, subject. rewrite lookup_insert_ne by done. done.
  - apply frame_op_sub in Eo as (qg & -> & ->). cbn in *.
    exists rc, (<[sid sub := subject]> subs), subject.
    rewrite Ep, !lookup_insert_eq. done.
Qed.

(** Routes do not change when only cells grow. *)
Lemma routes_same w rs ws w' rs' ws' tb :
  grows w w' -> connections w' = connections w -> next_conn_id w' = next_conn_id w ->
  (forall rc subs, rs' !! rc = Some (RLoop subs) <-> rs !! rc = Some (RLoop subs) \/
     rs !! rc = Some RGreet /\ rs' !! rc = Some (RLoop ∅) /\ subs = ∅) ->
  (routed tb (mkShard w rs ws) -> routed tb (mkShard w' rs' ws')) /\
  (known tb (mkShard w rs ws) -> known tb (mkShard w' rs' ws')) /\
  (owned tb (mkShard w rs ws) -> owned tb (mkShard w' rs' ws')).
Proof.
  intros Hgr Hco Hne Hrs. split_and!.
  - intros Hr rc st' subs i subject H1 H2 H3. cbn in *.
    destruct (grows_back _ _ _ _ Hgr H2) as (st & acc & Hst & []). rewrite acts_id.
    apply Hrs in H1 as [H1|(_ & _ & ->)]; [by eapply Hr|]. by rewrite lookup_empty in H3.
  - intros Hk p sub H. cbn in *. rewrite Hne. by apply (Hk p).
  - intros Ho p sub H. destruct (Ho p sub H) as (rc & subs & subject & H1 & H2 & H3). cbn in *.
    exists rc, subs, subject. rewrite Hco, Hrs. split_and!; try tauto.
Qed.

Lemma inv_grow w rs ws w' rs' tb :
  inv (mkShard w rs ws) tb -> good w' -> inboxes_ok w' -> grows w w' -> keeps w w' ->
  same_readers rs rs' ->
  (forall rc subs, rs' !! rc = Some (RLoop subs) <-> rs !! rc = Some (RLoop subs) \/
     rs !! rc = Some RGreet /\ rs' !! rc = Some (RLoop ∅) /\ subs = ∅) ->
  inv (mkShard w' rs' ws) tb /\ (owned tb (mkShard w rs ws) -> owned tb (mkShard w' rs' ws)).
Proof.
  intros [Hb Ht Hr Hk] Hg Hi Hgr [] Hrs Hrs'.
  destruct (routes_same w rs ws w' rs' ws tb Hgr) as (R1 & R2 & R3); [done..|].
  split; [|done]. constructor; [by eapply base_grow|cbn in *; congruence|auto..].
Qed.

Lemma loops_refl (rs : gmap Rc reader_state) rc subs :
  rs !! rc = Some (RLoop subs) <-> rs !! rc = Some (RLoop subs) \/
     rs !! rc = Some RGreet /\ rs !! rc = Some (RLoop ∅) /\ subs = ∅.
Proof. naive_solver. Qed.

Lemma inv_accept w rs ws rc buf w' tb :
  inv (mkShard w rs ws) tb -> heap w !! rc = None -> next_conn_id w < u32_max -> len buf = buffer_size ->
  accept capacity true true rc w = Done (w', Some rc) ->
  let s' := mkShard w' (<[rc := RGreet]> rs) (<[rc := (WWait, buf)]> ws) in
  inv s' tb /\ (owned tb (mkShard w rs ws) -> owned tb s').
Proof.
  intros [Hb Ht Hr Hk] Hrc Hlt Hlen E s'.
  destruct (base_accept w rs ws rc buf w' Hb Hrc Hlt Hlen E) as (Hb' & Hta & Hne & Hh & Hco).
  assert (rs !! rc = None) as Hrs.
  { destruct (rs !! rc) eqn:Er; [|done]. destruct (b_readers _ Hb rc) as (st & Hst & _); [by eexists|].
    cbn in *. congruence. }
  split; [constructor; [done|cbn; by rewrite Hta|..]|].
  - intros rc' st subs i subject H1 H2 H3. cbn in *. rewrite Hh in H2.
    rewrite lookup_insert_Some in H1. destruct H1 as [[_ ?]|[Hn H1]]; [done|].
    rewrite lookup_insert_ne in H2 by done. by eapply Hr.
  - intros p sub H. apply Hk in H. cbn in *. lia.
  - intros Ho p sub H. destruct (Ho p sub H) as (rc0 & subs & subject & H1 & H2 & H3). cbn in *.
    exists rc0, subs, subject. apply Hk in H. cbn in *. rewrite Hco.
    rewrite !lookup_insert_ne; [done|congruence|]. intros E'. rewrite <- E' in H. cbn in H. lia.
Qed.

Lemma inv_exit w rs ws rc subs order w' tb :
  inv (mkShard w rs ws) tb -> rs !! rc = Some (RLoop subs) -> order ≡ₚ map_to_list subs ->
  reader_cleanup rc order w = Done (w', tt) ->
  exists tb', inv (mkShard w' (delete rc rs) ws) tb' /\
    (owned tb (mkShard w rs ws) -> owned tb' (mkShard w' (delete rc rs) ws)).
Proof.
  intros [Hb Ht Hr Hk] Hrs Hord E.
  destruct (base_exit w rs ws rc subs order w' tb Hb Ht Hrs E)
    as (st & Hst & Hcs & Hb' & Ht' & Hco & Hne & Hgr).
  exists (cleaned (id st) order tb). split; [constructor; [done..| |]|].
  - intros rc' st1 subs1 i subject H1 H2 H3. cbn in *. apply lookup_delete_Some in H1 as [Hn H1].
    destruct (grows_back _ _ _ _ Hgr H2) as (st0 & acc & Hst0 & []). rewrite acts_id.
    destruct (Hr rc' st0 subs1 i subject H1 Hst0 H3) as (p & qg & Ep & Hin). exists p, qg.
    split; [done|]. apply elem_of_cleaned. split; [done|]. intros (i' & s & _ & _ & Hs).
    apply is_sub_iff in Hs as [Hs _]. cbn in Hs. apply Hn. by apply (b_uniq _ Hb rc rc' st st0).
  - intros p sub H. apply elem_of_cleaned in H as [H _]. apply Hk in H. cbn in *. by rewrite Hne.
  - intros Ho p sub H. apply elem_of_cleaned in H as [H Hnot].
    destruct (Ho p sub H) as (rc0 & subs0 & subject & H1 & H2 & H3 & H4). cbn in *.
    destruct (good_conns w (b_good _ Hb) _ _ H1) as (st0 & Hst0 & Hid0).
    assert (rc0 <> rc) as Hn.
    { intros ->. rewrite Hrs in H2. injection H2 as <-. apply Hnot. exists (sid sub), subject.
      split_and!; [|done|apply is_sub_iff; split; congruence].
      rewrite Hord. by apply elem_of_map_to_list. }
    exists rc0, subs0, subject. rewrite Hco, lookup_delete_ne, lookup_delete_ne; [done|done|].
    intros E'. congruence.
Qed.

Lemma inv_refuse w rs ws rb wb rc w' tb :
  inv (mkShard w rs ws) tb -> next_conn_id w < u32_max -> accept capacity rb wb rc w = Done (w', None) ->
  inv (mkShard w' rs ws) tb /\
  ((forall subs f, allowed subs f -> sid_fresh subs f) ->
    owned tb (mkShard w rs ws) -> owned tb (mkShard w' rs ws)).
Proof.
  intros [[Hg Hi Hn Hid Hu Hrd Hc Hw] Ht Hr Hk] Hlt E. cbn in *. unfold u32_max in *.
  assert (w' = set_next_conn_id w (next_conn_id w + 1)) as ->.
  { rewrite <- (Z.mod_small (next_conn_id w + 1) (2 ^ 32)) by lia.
    destruct rb, wb; cbn in E; try discriminate E; by injection E as <-. }
  split; [constructor; [constructor; bsimpl|..]|]; try done.
  - by destruct Hg.
  - unfold u32_max. lia.
  - intros rc' st Hst. apply Hid in Hst. lia.
  - intros p sub H. apply Hk in H. cbn in *. lia.
Qed.

Lemma inv_write w rs ws rc pc buf ok w' pc' buf' sent tb :
  inv (mkShard w rs ws) tb -> ws !! rc = Some (pc, buf) ->
  writer_step rc ok pc buf w = Done (w', (pc', buf', sent)) ->
  let s' := mkShard w' rs (<[rc := (pc', buf')]> ws) in
  inv s' tb /\ ((forall subs f, allowed subs f -> sid_fresh subs f) ->
    owned tb (mkShard w rs ws) -> owned tb s').
Proof.
  intros [Hb Ht Hr Hk] Hws E s'.
  destruct (base_write w rs ws rc pc buf ok w' pc' buf' sent Hb Hws E) as (Hb' & Hta & Hne & Hback & Hco).
  split; [constructor; cbn|]; [done|by rewrite Hta|..].
  - intros rc' st subs i subject H1 H2 H3. cbn in *. destruct (Hback _ _ H2) as (st0 & Hst0 & ->).
    by eapply Hr.
  - intros p sub H. apply Hk in H. cbn in *. by rewrite Hne.
  - intros _ Ho p sub H. destruct (Ho p sub H) as (rc0 & subs0 & subject & H1 & H2). cbn in *.
    exists rc0, subs0, subject. by rewrite Hco.
Qed.

Lemma dispatch_any w tb s r p :
  good w -> refines (table w) tb -> slice_ok p ->
  exists w' res, dispatch_local s r p w = Done (w', res) /\ good w' /\ only_io w w' /\ grows w w'.
Proof.
  intros Hg Ht Hp. destruct (parse_publisher_subject s) as [toks|e] eqn:Es.
  - destruct (dispatch_local_ok s r p Hp w tb toks Hg Ht Es) as (w' & pl & pk & E & _ & _ & Hpo).
    exists w', (Ok tt). split_and!; [done|by destruct Hpo..|by eapply posted_grows].
  - exists w, (Err e). split_and!; [by apply dispatch_local_err|done|done|by apply grows_refl].
Qed.

Lemma inv_task s s' tb :
  inv s tb -> task s s' ->
  exists tb', inv s' tb' /\
    ((forall subs f, allowed subs f -> sid_fresh subs f) -> owned tb s -> owned tb' s').
Proof.
  intros Hinv Hstep. pose proof Hinv as [Hb Ht Hr Hk]. pose proof Hb as [Hg Hi _ _ _ Hrd _ _].
  destruct Hstep as [w rs ws rc buf w' Hrc Hlt Hlen E|w rs ws rb wb rc w' Hlt E|w rs ws rc w' go Hrs E
    |w rs ws rc subs f weak w' subs' Hrs Hf Hal Htot E|w rs ws rc subs w' Hrs E
    |w rs ws rc subs order w' Hrs Hord E|w rs ws rc pc buf ok w' pc' buf' sent Hws E];
    cbn [worker readers writers] in *.
  - exists tb. destruct (inv_accept w rs ws rc buf w' tb) as [? ?]; eauto.
  - exists tb. by apply (inv_refuse w rs ws rb wb rc).
  - destruct (Hrd rc) as (st & Hst & _); [by eexists|]. exists tb.
    rewrite reader_greet_done in E by eauto. injection E as <- <-.
    destruct (inv_grow w rs ws (told w rc (encode (Frame.Info SERVER_INFO_JSON))) (<[rc := RLoop ∅]> rs) tb)
      as [? ?]; eauto using told_good, told_grows, only_io_keeps, told_io, same_readers_insert.
    intros rc' subs. rewrite lookup_insert_Some. split.
    + intros [[<- [= <-]]|[_ ?]]; [|by left]. right. by rewrite lookup_insert_eq.
    + intros [H|(H & H' & ->)]; [right; split; congruence|]. by apply lookup_insert_Some in H'.
  - destruct (Hrd rc) as (st & Hst & _); [by eexists|].
    destruct (handle_frame_ready weak f w rc st tb subs)
      as (w1 & E1 & [Hg1 Hc1 Ht1 Hi1] & Hgr & Hkp & _); try done.
    rewrite E in E1. injection E1 as <- ->. pose proof (kp_conns _ _ Hkp). pose proof (kp_next _ _ Hkp).
    exists (table_after tb (frame_op (id st) subs f)). split; [constructor; try done|].
    + eapply base_grow; eauto. by eapply same_readers_insert.
    + by apply routed_frame with (w := w).
    + by apply known_frame with (w := w) (rs := rs) (rc := rc).
    + intros Hall Ho. apply owned_frame with (w := w); auto.
  - destruct (Hrd rc) as (st & Hst & _); [by eexists|].
    rewrite (mark_close_rc_done w rc st) in E by done. injection E as <-.
    destruct (mark_close_ready w rc st tb CloseReason.ProtocolError) as ([Hg1 _ _ Hi1] & Hgr & Hkp); [done..|].
    exists tb. destruct (inv_grow w rs ws _ rs tb Hinv Hg1 Hi1 Hgr Hkp) as [? ?];
      eauto using same_readers_refl, loops_refl.
  - destruct (inv_exit w rs ws rc subs order w' tb) as (tb' & ? & ?); eauto.
  - exists tb. by apply (inv_write w rs ws rc pc buf ok w' pc' buf' sent).
Qed.

Lemma inv_step s s' tb :
  inv s tb -> step s s' ->
  exists tb', inv s' tb' /\
    ((forall subs f, allowed subs f -> sid_fresh subs f) -> owned tb s -> owned tb' s').
Proof.
  intros Hinv Hstep. pose proof Hinv as [Hb Ht Hr Hk]. pose proof Hb as [Hg Hi _ _ _ Hrd _ _].
  destruct Hstep as [s s' Htask|s s' Hex]; [by eapply inv_task|].
  destruct Hex as [w rs ws boxes ks Hbx Hlen|w rs ws f m k h q m' w' res Hm Hh Hp Hsl E];
    cbn [worker readers writers] in *.
  - exists tb. destruct (inv_grow w rs ws (set_kicks (set_peer_inboxes w boxes) ks) rs tb) as [? ?];
      eauto using same_readers_refl, loops_refl.
    + by destruct Hg.
    + by apply (grows_heap w w), grows_refl.
    + by constructor.
  - exists tb. rewrite (pop_spec m k h f q Hh) in Hp. injection Hp as <-.
    set (w0 := set_peer_inboxes w _) in *. assert (good w0) as Hg0 by by destruct Hg.
    destruct (dispatch_any w0 tb (ShardInbox.subject f) (ShardInbox.reply_to f) (ShardInbox.payload f))
      as (w1 & r & E1 & Hg1 & Hio & Hgr); [done..|]. rewrite E in E1. injection E1 as <- <-.
    destruct (inv_grow w rs ws w' rs tb) as [? ?]; eauto using same_readers_refl, loops_refl.
    + unfold inboxes_ok. rewrite (oio_inboxes _ _ Hio). unfold w0. wsimpl.
      apply Forall_insert; [done|]. exists k, (h + 1), q. by eapply holds_popped.
    + etransitivity; [|by apply only_io_keeps]. constructor; try done. unfold w0. wsimpl.
      by rewrite length_insert.
Qed.

(* ------------------------------------------------------------------ *)
(** * Reachable states *)

Lemma inv_initial scratch shard boxes :
  0 <= scratch <= isize_max -> 0 <= shard <= u32_max ->
  Forall (fun m => exists k h q, holds m k h q) boxes ->
  inv (initial scratch shard boxes) [] /\ owned [] (initial scratch shard boxes).
Proof.
  intros Hs Hid Hb. split; [|intros p sub H; by apply not_elem_of_nil in H].
  unfold initial, Worker_new. constructor; [constructor; bsimpl|bsimpl; apply refines_new|..]; try done.
  - constructor; bsimpl; try done.
    + unfold slice_ok. rewrite len_zeroed; lia.
    + by apply seed_range.
  - intros rc [? H]. by rewrite lookup_empty in H.
  - intros p sub H. by apply not_elem_of_nil in H.
Qed.

Lemma inv_reachable s s' tb :
  inv s tb -> rtc step s s' ->
  exists tb', inv s' tb' /\
    ((forall subs f, allowed subs f -> sid_fresh subs f) -> owned tb s -> owned tb' s').
Proof.
  intros Hi Hs. revert tb Hi. induction Hs as [s|s1 s2 s3 H12 _ IH]; intros tb Hi; [eauto|].
  destruct (inv_step s1 s2 tb Hi H12) as (tb2 & Hi2 & Ho2).
  destruct (IH tb2 Hi2) as (tb3 & Hi3 & Ho3). exists tb3. split; [done|]. auto.
Qed.

(** A round of the reader is a sequence of steps. *)
Lemma session_steps rs ws weak rc w subs w' subs' :
  (forall subs f, allowed subs f) -> rs !! rc = Some (RLoop subs) ->
  rtc (session weak rc) (w, subs) (w', subs') ->
  rtc step (mkShard w rs ws) (mkShard w' (<[rc := RLoop subs']> rs) ws).
Proof.
  intros Hal. set (a := (w, subs)) at 1. set (b := (w', subs')).
  change w with (a.1). change w' with (b.1). change (rs !! rc = Some (RLoop (a.2)) -> rtc (session weak rc) a b ->
    rtc step (mkShard a.1 rs ws) (mkShard b.1 (<[rc := RLoop b.2]> rs) ws)).
  generalize a b. clear a b w subs w' subs'. intros a b Hrs Hs.
  revert rs Hrs. induction Hs as [a|a1 a2 a3 H12 _ IH]; intros rs Hrs.
  { by rewrite insert_id. }
  destruct H12 as [f w subs w' subs' Hf Ht E|w subs w' E]; cbn in *.
  - eapply rtc_l; [by eapply step_task, task_frame|].
    specialize (IH (<[rc := RLoop subs']> rs)). rewrite insert_insert_eq in IH. apply IH.
    by rewrite lookup_insert_eq.
  - eapply rtc_l; [by eapply step_task, task_close|]. by apply IH.
Qed.
End Broker.
Arguments Shard N : clear implicits.

(* ------------------------------------------------------------------ *)
(** * Properties *)

Section Properties.
Context `{N : Notify} `{NL : !NotifyLaws N}.
Variables (capacity buffer_size scratch shard : Z) (boxes : list (ShardInbox PublishedFrame)).
Variable allowed : Subscriptions -> Frame.t -> Prop.
Hypothesis Hcap : 0 <= capacity <= isize_max.
Hypothesis Hbuf : 64 <= buffer_size <= isize_max.
Hypothesis Hscratch : 0 <= scratch <= isize_max.
Hypothesis Hshard : 0 <= shard <= u32_max.
Hypothesis Hboxes : Forall (fun m => exists k h q, holds m k h q) boxes.

Lemma reachable_inv (s : Shard N) :
  rtc (step capacity buffer_size allowed) (initial scratch shard boxes) s ->
  exists tb, inv s tb /\ ((forall subs f, allowed subs f -> sid_fresh subs f) -> owned tb s).
Proof.
  intros Hs. destruct (inv_initial scratch shard boxes) as [Hi Ho]; [done..|].
  destruct (inv_reachable capacity buffer_size allowed Hcap Hbuf _ s [] Hi Hs) as (tb & Hi' & Ho').
  eauto.
Qed.

(** C1.  Whatever clients send and however the tasks of a shard interleave,
    in every reachable state: the worker's invariant holds; the connection map
    names exactly the connections whose reader is alive, each by its own id;
    and every subscription a live connection has recorded has its route in
    the trie. *)
Theorem broker_invariant (s : Shard N) :
  rtc (step capacity buffer_size allowed) (initial scratch shard boxes) s ->
  good (worker s) /\
  (forall c rc, connections (worker s) !! c = Some rc <->
     is_Some (readers s !! rc) /\ exists st, heap (worker s) !! rc = Some st /\ id st = c) /\
  exists tb, refines (table (worker s)) tb /\ routed tb s.
Proof.
  intros Hs. destruct (reachable_inv s Hs) as (tb & [[] ? ? ?] & _).
  split_and!; [done| |eauto]. intros c rc. split.
  - intros H. split; [eauto|]. by apply good_conns.
  - intros [H (st & Hst & <-)]. destruct (b_readers0 rc H) as (st' & Hst' & Hc). congruence.
Qed.

(** C22.  No writer sleeps on work: in every reachable state, a writer that
    waits while its connection has bytes to send or a close to act on has a
    notification waiting for it. *)
Theorem no_lost_wakeup (s : Shard N) rc buf st :
  rtc (step capacity buffer_size allowed) (initial scratch shard boxes) s ->
  writers s !! rc = Some (WWait, buf) -> heap (worker s) !! rc = Some st ->
  pending st <> [] \/ close_with st <> None -> is_Some (wait_for_event st).
Proof.
  intros Hs Hw Hst Hwork. destruct (reachable_inv s Hs) as (tb & [[] ? ? ?] & _).
  destruct (b_writers0 rc WWait buf Hw) as (_ & _ & st' & Hst' & Ho). simplify_eq.
  specialize (Ho Hwork). unfold woken in Ho. apply bool_decide_eq_true in Ho as [n Hn].
  unfold wait_for_event. rewrite Hn. by eexists.
Qed.

(** C21.  No ghost routes: if clients never reuse the sid of one of their live
    subscriptions, every route in the trie belongs to a live connection that
    recorded it; and when every connection has ended, the trie is empty. *)
Theorem no_ghost_routes (s : Shard N) :
  (forall subs f, allowed subs f -> sid_fresh subs f) ->
  rtc (step capacity buffer_size allowed) (initial scratch shard boxes) s ->
  exists tb, refines (table (worker s)) tb /\ owned tb s /\
    (readers s = ∅ -> root (table (worker s)) = node.default).
Proof.
  intros Hal Hs. destruct (reachable_inv s Hs) as (tb & [Hb Ht _ _] & Ho).
  exists tb. split_and!; [done|auto|]. intros Hr. destruct Ht as [_ Hst _ Hpr].
  apply pruned_stored_zero; [done|]. rewrite Hst. destruct tb as [|[p sub] tb]; [done|].
  destruct (Ho Hal p sub) as (rc & subs & subject & _ & H & _); [by left|].
  by rewrite Hr, lookup_empty in H.
Qed.

(** A subscription of a live connection that a dispatch lists is among the
    messages for that connection. *)
Lemma listed_in_mail (s : Shard N) subject reply_to payload D rc st i :
  base s -> is_Some (readers s !! rc) -> heap (worker s) !! rc = Some st -> (id st, i) ∈ D ->
  len (msg subject reply_to payload i) <= len (emit_scratch (worker s)) ->
  msg subject reply_to payload i ∈ mail subject reply_to payload (worker s) rc (id st) D.
Proof.
  intros Hb Hr Hst Hin Hl. destruct (b_readers _ Hb rc Hr) as (st' & Hst' & Hc). simplify_eq.
  unfold mail. rewrite bool_decide_eq_true_2 by done. unfold letters.
  apply list_elem_of_omap. exists (id st, i). split; [done|].
  cbn [fst snd]. by rewrite bool_decide_eq_true_2, (proj2 (Z.leb_le _ _)) by done.
Qed.

(** In particular a matching ungrouped subscription. *)
Lemma live_in_mail (s : Shard N) tb subject toks reply_to payload plain picks rc st p i :
  base s -> is_Some (readers s !! rc) -> heap (worker s) !! rc = Some st ->
  plain ≡ₚ plain_of (table_match toks tb) -> (p, mkSub (id st) i None) ∈ tb ->
  pattern_matches p toks = true -> len (msg subject reply_to payload i) <= len (emit_scratch (worker s)) ->
  msg subject reply_to payload i ∈ mail subject reply_to payload (worker s) rc (id st) (plain ++ picks).
Proof.
  intros Hb Hr Hst Hpl Hin Hm Hl. apply listed_in_mail; try done.
  apply elem_of_app. left. rewrite Hpl. unfold plain_of. apply list_elem_of_omap.
  exists (mkSub (id st) i None). split; [|done]. unfold table_match.
  apply (list_elem_of_fmap_2 snd _ (p, mkSub (id st) i None)). by apply list_elem_of_filter.
Qed.

(** A live subscriber gets the message: in every reachable state, when a
    publication on a valid subject is dispatched, every ungrouped subscription
    of a live connection whose pattern matches has its [MSG] among those
    appended to that connection, provided the connection is open with room and
    the message fits the scratch. *)
Theorem live_subscribers_receive (s : Shard N) subject toks reply_to payload :
  rtc (step capacity buffer_size allowed) (initial scratch shard boxes) s ->
  parse_publisher_subject subject = Ok toks -> slice_ok payload ->
  exists w' D tb, dispatch_local subject reply_to payload (worker s) = Done (w', Ok tt) /\
    refines (table (worker s)) tb /\
    forall rc st p i, is_Some (readers s !! rc) -> heap (worker s) !! rc = Some st ->
    (p, mkSub (id st) i None) ∈ tb -> pattern_matches p toks = true ->
    len (msg subject reply_to payload i) <= len (emit_scratch (worker s)) ->
    let L := mail subject reply_to payload (worker s) rc (id st) D in
    msg subject reply_to payload i ∈ L /\
    (close_with st = None -> outbound_tail st + len (concat L) <= outbound_capacity st ->
      exists st', heap w' !! rc = Some st' /\ pending st' = pending st ++ concat L).
Proof.
  intros Hs Hp Hsl. destruct (reachable_inv s Hs) as (tb & [[] ? ? ?] & _).
  destruct (dispatch_local_ok subject reply_to payload Hsl (worker s) tb toks)
    as (w' & plain & picks & E & Hpl & _ & [_ _ Hd]); [done..|].
  exists w', (plain ++ picks.*2), tb. split_and!; [done..|].
  intros rc st p i Hr Hst Hin Hm Hl L. split; [by eapply live_in_mail|].
  intros Hc Hroom. eexists. split; [by rewrite (Hd rc), Hst|].
  by apply enqueue_all_room; [eapply good_heap|..].
Qed.
End Properties.

(* ------------------------------------------------------------------ *)
(** * A run: one client connects, subscribes, and leaves *)

Module Run.
#[local] Existing Instance permit_notify.
Definition any (_ : Subscriptions) (_ : Frame.t) : Prop := True.
Definition result_of {A} (d : Worker permit_notify) (r : run (Worker permit_notify * A)) :
    Worker permit_notify := match r with Done (w, _) => w | Panic => d end.
Definition no_weak : nat -> list bool := fun _ => [].

Definition w0 : Worker permit_notify := Worker_new 64 0 [] 0.
Definition w1 := result_of w0 (accept 256 true true 0 w0).
Definition w2 := told w1 0 (encode (Frame.Info SERVER_INFO_JSON)).
Definition sub_a : Frame.t := Frame.Sub (bs "a") None (bs "1").
Definition sub_b : Frame.t := Frame.Sub (bs "b") None (bs "1").
Definition w3 := result_of w2 (handle_frame no_weak sub_a 0 ∅ w2).
Definition w4 := result_of w3 (handle_frame no_weak sub_b 0 {[bs "1" := bs "a"]} w3).
Definition w5 := result_of w4 (reader_cleanup 0 [(bs "1", bs "b")] w4).

(** The connection once greeted. *)
Definition st2 : ConnectionState permit_notify :=
  enqueue_state (ConnState.new (ConnectionId.new 0) 256) (encode (Frame.Info SERVER_INFO_JSON)).
Definition writer0 : gmap Rc (writer_pc * bytes) := {[0%nat := (WWait, zeroed 64)]}.
Definition s0 : Shard permit_notify := initial 64 0 [].
Definition s2 : Shard permit_notify := mkShard w2 (<[0%nat := RLoop ∅]> ∅) writer0.
Definition s3 : Shard permit_notify := mkShard w3 (<[0%nat := RLoop {[bs "1" := bs "a"]}]> ∅) writer0.
Definition s4 : Shard permit_notify := mkShard w4 (<[0%nat := RLoop {[bs "1" := bs "b"]}]> ∅) writer0.
Definition s5 : Shard permit_notify := mkShard w5 ∅ writer0.

Lemma w1_good : good w1.
Proof.
  destruct (inv_initial (N := permit_notify) 64 0 []) as [Hi _]; [done..|].
  destruct (inv_accept 256 64 ltac:(done) ltac:(done) w0 ∅ ∅ 0 (zeroed 64) w1 [] Hi) as [[[]] _]; done.
Qed.

Lemma sub_a_wf : frame_wf sub_a.
Proof. by apply (parse_frame_inv (bs "SUB a 1" ++ CRLF) sub_a 9); vm_compute. Qed.
Lemma sub_b_wf : frame_wf sub_b.
Proof. by apply (parse_frame_inv (bs "SUB b 1" ++ CRLF) sub_b 9); vm_compute. Qed.

Lemma frame_runs f w tb subs :
  ready w 0 tb -> total_subscriptions (table w) < usize_max -> frame_wf f ->
  let w' := result_of w (handle_frame no_weak f 0 subs w) in
  handle_frame no_weak f 0 subs w = Done (w', frame_subs subs f) /\ exists tb', ready w' 0 tb'.
Proof.
  intros Hr Ht Hf w'. destruct (rd_cell _ _ _ Hr) as [st Hst].
  destruct (handle_frame_ready no_weak f w 0 st tb subs Hr Hst Ht Hf) as (w1' & E & Hr1 & _).
  unfold w'. rewrite E. eauto.
Qed.

Lemma w2_ready : exists tb, ready w2 0 tb.
Proof.
  exists []. constructor; [apply told_good, w1_good|by eexists|apply refines_new|constructor].
Qed.
Lemma frame_a :
  handle_frame no_weak sub_a 0 ∅ w2 = Done (w3, {[bs "1" := bs "a"]}) /\ exists tb, ready w3 0 tb.
Proof.
  destruct w2_ready as [tb Hr]. exact (frame_runs sub_a w2 tb ∅ Hr eq_refl sub_a_wf).
Qed.
Lemma frame_b :
  handle_frame no_weak sub_b 0 {[bs "1" := bs "a"]} w3 = Done (w4, {[bs "1" := bs "b"]}) /\
  exists tb, ready w4 0 tb.
Proof.
  destruct frame_a as [_ [tb Hr]].
  assert (total_subscriptions (table w3) < usize_max) as Ht by by vm_compute.
  destruct (frame_runs sub_b w3 tb {[bs "1" := bs "a"]} Hr Ht sub_b_wf) as [E Hr'].
  split; [|exact Hr']. etransitivity; [exact E|].
  apply (f_equal (fun m => Done (w4, m)) (insert_insert_eq ∅ (bs "1") (bs "b") (bs "a"))).
Qed.

Section Allowed.
Variable allowed : Subscriptions -> Frame.t -> Prop.

Lemma greeted : rtc (step 256 64 allowed) s0 s2.
Proof.
  eapply rtc_l; [by eapply step_task, (task_accept 256 64 allowed w0 ∅ ∅ 0 (zeroed 64) w1)|].
  eapply rtc_l; [eapply step_task, (task_greet 256 64 allowed w1 _ _ 0)|].
  - by rewrite lookup_insert_eq.
  - apply reader_greet_done; [exact w1_good|]. by eexists.
  - rewrite insert_insert_eq. apply rtc_refl.
Qed.
Lemma subscribed : allowed ∅ sub_a -> rtc (step 256 64 allowed) s0 s3.
Proof.
  intros Ha. eapply rtc_r; [exact greeted|]. unfold s3.
  rewrite <- (insert_insert_eq ∅ 0%nat _ (RLoop ∅)).
  eapply step_task, (task_frame 256 64 allowed w2 _ writer0 0 ∅ sub_a no_weak).
  - by rewrite lookup_insert_eq.
  - exact sub_a_wf.
  - exact Ha.
  - by vm_compute.
  - apply frame_a.
Qed.
End Allowed.

Lemma left_behind : rtc (step 256 64 any) s0 s5.
Proof.
  eapply rtc_r; [eapply rtc_r; [by apply subscribed|]|].
  - instantiate (1 := s4). unfold s4. rewrite <- (insert_insert_eq ∅ 0%nat _ (RLoop {[bs "1" := bs "a"]})).
    eapply step_task, (task_frame 256 64 any w3 _ writer0 0 {[bs "1" := bs "a"]} sub_b no_weak).
    + by rewrite lookup_insert_eq.
    + exact sub_b_wf.
    + done.
    + by vm_compute.
    + apply frame_b.
  - unfold s5. rewrite <- (delete_insert_id ∅ 0%nat (RLoop {[bs "1" := bs "b"]})) by done.
    eapply step_task, (task_exit 256 64 any w4 _ writer0 0 {[bs "1" := bs "b"]} [(bs "1", bs "b")]).
    + by rewrite lookup_insert_eq.
    + by rewrite map_to_list_singleton.
    + by vm_compute.
Qed.
End Run.

Lemma broker_invariant_witness :
  good (worker Run.s3) /\
  (forall c rc, connections (worker Run.s3) !! c = Some rc <->
     is_Some (readers Run.s3 !! rc) /\ exists st, heap (worker Run.s3) !! rc = Some st /\ id st = c) /\
  exists tb, refines (table (worker Run.s3)) tb /\ routed tb Run.s3.
Proof.
  apply (broker_invariant (NL := permit_laws) 256 64 64 0 [] Run.any); try done.
  by apply Run.subscribed.
Defined.

Lemma no_lost_wakeup_witness :
  heap (worker Run.s2) !! 0%nat = Some Run.st2 /\ pending Run.st2 <> [] /\
  is_Some (wait_for_event Run.st2).
Proof.
  split; [by vm_compute|]. split; [by vm_compute|].
  apply (no_lost_wakeup (NL := permit_laws) 256 64 64 0 [] Run.any ltac:(done) ltac:(done) ltac:(done)
    ltac:(done) (List.Forall_nil _) Run.s2 0%nat (zeroed 64) Run.st2 (Run.greeted Run.any)).
  - by vm_compute.
  - by vm_compute.
  - left. by vm_compute.
Defined.

Lemma no_ghost_routes_witness :
  exists tb, refines (table (worker Run.s3)) tb /\ owned tb Run.s3 /\
    (readers Run.s3 = ∅ -> root (table (worker Run.s3)) = node.default).
Proof.
  apply (no_ghost_routes (NL := permit_laws) 256 64 64 0 [] sid_fresh); try done.
  by apply Run.subscribed.
Defined.

Lemma live_subscribers_receive_witness :
  exists w' D tb, dispatch_local (bs "a") None (bs "hi") (worker Run.s3) = Done (w', Ok tt) /\
    refines (table (worker Run.s3)) tb /\
    forall rc st p i, is_Some (readers Run.s3 !! rc) -> heap (worker Run.s3) !! rc = Some st ->
    (p, mkSub (id st) i None) ∈ tb -> pattern_matches p [bs "a"] = true ->
    len (msg (bs "a") None (bs "hi") i) <= len (emit_scratch (worker Run.s3)) ->
    let L := mail (bs "a") None (bs "hi") (worker Run.s3) rc (id st) D in
    msg (bs "a") None (bs "hi") i ∈ L /\
    (close_with st = None -> outbound_tail st + len (concat L) <= outbound_capacity st ->
      exists st', heap w' !! rc = Some st' /\ pending st' = pending st ++ concat L).
Proof.
  apply (live_subscribers_receive (NL := permit_laws) 256 64 64 0 [] Run.any); try done.
  by apply Run.subscribed.
Defined.


(** A round of the reader on arbitrary input is a sequence of steps of
    the state machine: the frame-by-frame steps over-approximate the code. *)
Theorem reader_round_is_steps `{N : Notify} capacity buffer_size weak rc read accum subs (w : Worker N) tb rs ws :
  rs !! rc = Some (RLoop subs) -> ready w rc tb -> len accum <= MAX_FRAME_SIZE -> slice_ok read ->
  total_subscriptions (table w) + MAX_FRAME_SIZE + 1 <= usize_max ->
  exists w' accum' subs' go,
    reader_round weak rc read accum subs w = Done (w', (accum', subs', go)) /\
    rtc (step capacity buffer_size (fun _ _ => True)) (mkShard w rs ws)
      (mkShard w' (<[rc := RLoop subs']> rs) ws).
Proof.
  intros Hrs Hrd Ha Hr Ht.
  destruct (reader_round_done weak rc read accum subs w tb Hrd Ha Hr Ht)
    as (w' & accum' & subs' & go & tb' & E & Hs & _).
  exists w', accum', subs', go. split; [done|]. by eapply session_steps.
Qed.
Lemma reader_round_is_steps_witness :
  exists w' accum' subs' go,
    reader_round (fun _ => []) 0%nat (bs "PING" ++ CRLF) [] ∅ (Ex.worker 0) = Done (w', (accum', subs', go)) /\
    rtc (step 256 64 (fun _ _ => True)) (mkShard (Ex.worker 0) {[0%nat := RLoop ∅]} ∅)
      (mkShard w' (<[0%nat := RLoop subs']> {[0%nat := RLoop ∅]}) ∅).
Proof.
  apply (reader_round_is_steps 256 64 (fun _ => []) 0%nat (bs "PING" ++ CRLF) [] ∅ (Ex.worker 0)
    (table_ops [] Ex.ops) {[0%nat := RLoop ∅]} ∅).
  - by rewrite lookup_singleton_eq.
  - constructor; [by apply Ex.worker_good|by eexists|exact Ex.trie_refines|].
    exact (all_hold_ok _ _ _ _ (Ex.worker_hold 0)).
  - by vm_compute.
  - by vm_compute.
  - by vm_compute.
Defined.
