(* ===== verification/Reader.v ===== *)
(** The whole reader task ([reader_task] of [main.rs]): the greeting, the loop
    over the reads, the clean-up, put together; it always returns, and its run is
    one of the shard's ([Broker]). *)
From Stdlib Require Import ZArith Lia Strings.Byte.
From stdpp Require Import base gmap list strings relations.
From S2P Require Import Prelude Subject Trie TrieSpec ConnState ShardInbox Wire Parse Emit Worker Dispatch DispatchSpec Session SessionSpec Broker.

Section Reader.
Context `{N : Notify}.
Variable weak : nat -> list bool.

(** [loop { let (read_res, returned) = stream.read_fixed(..).await; .. }] on
    what the reads return; the stream ends, or a read fails, where the list
    does. *)
Fixpoint reader_loop (reads : list bytes) (state : Rc) (accum : bytes) (subscriptions : Subscriptions) :
    M Subscriptions :=
  match reads with
  | [] => mret subscriptions
  | read :: reads =>
      r ← reader_round weak state read accum subscriptions;
      let '(accum, subscriptions, go) := r in
      if go : bool then reader_loop reads state accum subscriptions else mret subscriptions
  end.

(** [order] is the order in which the map of subscriptions is iterated. *)
Definition reader_task (order : Subscriptions -> list (bytes * bytes)) (reads : list bytes) (state : Rc) : M unit :=
  go ← reader_greet state;
  if go : bool then
    subscriptions ← reader_loop reads state [] ∅;
    reader_cleanup state (order subscriptions)
  else mret tt.

Variables (capacity buffer_size : Z).
Abbreviation steps := (rtc (step capacity buffer_size (fun _ _ => True))).

(** The loop ends, whatever is read. *)
Lemma reader_loop_done reads state accum subs (w : Worker N) tb rs ws :
  rs !! state = Some (RLoop subs) -> ready w state tb -> len accum <= MAX_FRAME_SIZE -> Forall slice_ok reads ->
  total_subscriptions (table w) + len reads * (MAX_FRAME_SIZE + 1) <= usize_max ->
  exists w' subs' tb', reader_loop reads state accum subs w = Done (w', subs') /\ ready w' state tb' /\
    steps (mkShard w rs ws) (mkShard w' (<[state := RLoop subs']> rs) ws).
Proof.
  revert accum subs w tb rs. induction reads as [|read reads IH]; intros accum subs w tb rs Hrs Hrd Ha Hok Ht; cbn [reader_loop].
  { exists w, subs, tb. rewrite insert_id by done. by split_and!. }
  apply Forall_cons_1 in Hok as [Hr Hok]. assert (0 <= MAX_FRAME_SIZE) as HM by done.
  rewrite len_cons in Ht. pose proof (len_nonneg reads) as Hl.
  destruct (reader_round_done weak state read accum subs w tb Hrd Ha Hr ltac:(nia))
    as (w1 & accum1 & subs1 & go & tb1 & E1 & Hs1 & Hrd1 & Hgo & Ht1).
  assert (steps (mkShard w rs ws) (mkShard w1 (<[state := RLoop subs1]> rs) ws)) as Hst
    by by eapply session_steps.
  mstep ltac:(exact E1). destruct go; [|by exists w1, subs1, tb1].
  destruct (IH accum1 subs1 w1 tb1 (<[state := RLoop subs1]> rs)) as (w2 & subs2 & tb2 & E2 & Hrd2 & Hst2);
    [by rewrite lookup_insert_eq|done|by apply Hgo|done|nia|].
  rewrite insert_insert_eq in Hst2. exists w2, subs2, tb2. split_and!; [done..|by etrans].
Qed.

Lemma reader_cleanup_done state order (w : Worker N) tb :
  ready w state tb -> exists w' st, reader_cleanup state order w = Done (w', tt) /\
    heap w' !! state = Some st /\ close_with st <> None /\ connections w' !! id st = None.
Proof.
  intros [Hg [st Hst] Ht _]. destruct (unsubscribe_all_done order (id st) w tb Ht) as (t' & E & _).
  unfold reader_cleanup. mstep ltac:(unfold deref; rewrite Hst; reflexivity). mstep ltac:(exact E).
  mstep ltac:(reflexivity). eexists _, (mark_close st CloseReason.PeerClosed).
  split; [by apply mark_close_rc_done|]. wsimpl. rewrite lookup_insert_eq. split_and!; [done|..].
  - unfold mark_close. by destruct (close_with st) eqn:Hc; cbn; rewrite ?Hc.
  - unfold mark_close. destruct (close_with st); cbn; apply lookup_delete_eq.
Qed.
End Reader.

Section ReaderTask.
Context `{N : Notify} `{NL : !NotifyLaws N}.
Variables (capacity buffer_size scratch shard : Z) (boxes : list (ShardInbox PublishedFrame)).
Hypothesis Hcap : 0 <= capacity <= isize_max.
Hypothesis Hbuf : 64 <= buffer_size <= isize_max.
Hypothesis Hscratch : 0 <= scratch <= isize_max.
Hypothesis Hshard : 0 <= shard <= u32_max.
Hypothesis Hboxes : Forall (fun m => exists k h q, holds m k h q) boxes.
Abbreviation steps := (rtc (step capacity buffer_size (fun _ _ => True))).

(** C14.  A session always ends, and cleanly: in every reachable state of a shard,
    the reader task of a newly accepted connection, fed any bytes cut into reads
    in any way, returns (no panic, every loop ends), its run is a run of the
    shard, and afterwards the reader is gone, the connection is out of the
    connection map, and its close reason is set, which makes the writer flush
    and exit. *)
Theorem reader_task_returns weak order reads rc (s : Shard N) :
  steps (initial scratch shard boxes) s -> readers s !! rc = Some RGreet ->
  (forall subs, order subs ≡ₚ map_to_list subs) -> Forall slice_ok reads ->
  total_subscriptions (table (worker s)) + len reads * (MAX_FRAME_SIZE + 1) <= usize_max ->
  exists w' st, reader_task weak order reads rc (worker s) = Done (w', tt) /\
    steps s (mkShard w' (delete rc (readers s)) (writers s)) /\
    heap w' !! rc = Some st /\ close_with st <> None /\ connections w' !! id st = None.
Proof.
  intros Hs Hrs Hord Hok Ht.
  destruct (reachable_inv capacity buffer_size scratch shard boxes _ Hcap Hbuf Hscratch Hshard Hboxes s Hs)
    as (tb & [[Hg Hi _ _ _ Hre _ _] Htb _ _] & _).
  destruct (Hre rc) as (st & Hst & _); [by eexists|]. destruct s as [w rs ws]. cbn [worker readers writers] in *.
  pose proof (reader_greet_done w rc Hg ltac:(by eexists)) as Eg.
  set (w1 := told w rc (encode (Frame.Info SERVER_INFO_JSON))) in *.
  assert (ready w1 rc tb) as Hrd.
  { constructor; [by apply told_good| |done|done]. unfold w1, told. wsimpl. rewrite lookup_alter_eq, Hst. by eexists. }
  destruct (reader_loop_done weak capacity buffer_size reads rc [] ∅ w1 tb (<[rc := RLoop ∅]> rs) ws)
    as (w2 & subs & tb2 & E2 & Hrd2 & Hst2); [by rewrite lookup_insert_eq|done|done|done|exact Ht|].
  rewrite insert_insert_eq in Hst2.
  destruct (reader_cleanup_done rc (order subs) w2 tb2 Hrd2) as (w3 & st3 & E3 & Hst3 & Hc & Hco).
  exists w3, st3. split_and!; try done.
  - unfold reader_task. mstep ltac:(exact Eg). by mstep ltac:(exact E2).
  - eapply rtc_l; [by eapply step_task, (task_greet capacity buffer_size _ w rs ws rc w1 true)|].
    eapply rtc_r; [exact Hst2|]. apply step_task. rewrite <- (delete_insert_eq rs rc (RLoop subs)).
    eapply task_exit; [by rewrite lookup_insert_eq|by apply Hord|done].
Qed.
End ReaderTask.

(** A client that subscribes, sends half a frame, then the other half, and
    leaves. *)
Lemma accepted_only :
  rtc (step 256 64 (fun _ _ => True)) (initial 64 0 []) (mkShard Run.w1 (<[0%nat := RGreet]> ∅) Run.writer0).
Proof.
  apply rtc_once. by eapply step_task, (task_accept 256 64 _ Run.w0 ∅ ∅ 0 (zeroed 64) Run.w1).
Qed.
Lemma reader_task_returns_witness :
  exists w' st, reader_task (fun _ => []) map_to_list [bs "SUB a 1" ++ CRLF ++ bs "PI"; bs "NG" ++ CRLF] 0 Run.w1 = Done (w', tt) /\
    rtc (step 256 64 (fun _ _ => True)) (mkShard Run.w1 (<[0%nat := RGreet]> ∅) Run.writer0)
      (mkShard w' (delete 0%nat (<[0%nat := RGreet]> ∅)) Run.writer0) /\
    heap w' !! 0%nat = Some st /\ close_with st <> None /\ connections w' !! id st = None.
Proof.
  apply (reader_task_returns (N := permit_notify) (NL := permit_laws) 256 64 64 0 [] ltac:(done) ltac:(done) ltac:(done)
    ltac:(done) (List.Forall_nil _) (fun _ => []) map_to_list _ 0%nat _ accepted_only).
  - by vm_compute.
  - done.
  - by repeat constructor.
  - by vm_compute.
Defined.
