(* ===== verification/Pool.v ===== *)
(** The registered buffer pool ([aulon-core/src/buffer_pool.rs]) and the
    buffers of a shard's connections: [worker_main] takes two per connection,
    the reader and the writer give theirs back when they end.

    [tokio_uring]'s [FixedBufPool] is the class [FixedBufPool] with the laws
    its documentation states; [checkout] is an instance. *)
From Stdlib Require Import ZArith Lia Strings.Byte.
From stdpp Require Import base gmap list strings relations.
From S2P Require Import Prelude Subject Trie TrieSpec ConnState ShardInbox Wire Parse Emit Worker Dispatch DispatchSpec Session SessionSpec Broker.

Definition DEFAULT_POOL_CAPACITY : Z := 256.

(* ------------------------------------------------------------------ *)
(** * The pool *)

(** A buffer handed out: its index in the pool and its bytes. *)
Abbreviation FixedBuf := (nat * bytes)%type.

(** [poll_next] is a poll of the future that [next] returns; [give_back] is the
    [Drop] of a [FixedBuf]. *)
Class FixedBufPool : Type := {
  fixed_pool : Type;
  pool_of : list bytes -> fixed_pool;
  try_next : fixed_pool -> Z -> option (FixedBuf * fixed_pool);
  poll_next : fixed_pool -> Z -> option (FixedBuf * fixed_pool);
  give_back : fixed_pool -> FixedBuf -> fixed_pool;
}.

(** The free buffers of a pool, by index.  [try_next] hands out a free buffer
    of the capacity asked for if there is one; [next] resolves to such a buffer
    as soon as there is one; a dropped buffer is free again. *)
Class FixedBufPoolLaws (F : FixedBufPool) : Type := {
  free : fixed_pool -> gmap nat bytes;
  free_pool_of bufs : free (pool_of bufs) = map_seq 0 bufs;
  try_next_Some p cap i b p' : try_next p cap = Some ((i, b), p') ->
    free p !! i = Some b /\ len b = cap /\ free p' = delete i (free p);
  try_next_None p cap i b : try_next p cap = None -> free p !! i = Some b -> len b <> cap;
  poll_next_Some p cap i b p' : poll_next p cap = Some ((i, b), p') ->
    free p !! i = Some b /\ len b = cap /\ free p' = delete i (free p);
  poll_next_None p cap i b : poll_next p cap = None -> free p !! i = Some b -> len b <> cap;
  free_give_back p i b : free (give_back p (i, b)) = <[i := b]> (free p);
}.

Section BufferPool.
Context {F : FixedBufPool}.

Record BufferPool : Type := mkPool {
  inner : fixed_pool;
  buffer_size : Z;
  capacity : Z;
}.

Definition new (capacity buffer_size : Z) : BufferPool :=
  let bufs := replicate (Z.to_nat capacity) (zeroed buffer_size) in
  mkPool (pool_of bufs) buffer_size capacity.

Definition acquire (self : BufferPool) : option (FixedBuf * BufferPool) :=
  match try_next (inner self) (buffer_size self) with
  | Some (buf, inner') => Some (buf, mkPool inner' (buffer_size self) (capacity self))
  | None => None
  end.

(** A poll of [acquire_async]; [None] while the task stays suspended. *)
Definition acquire_async (self : BufferPool) : option (FixedBuf * BufferPool) :=
  match poll_next (inner self) (buffer_size self) with
  | Some (buf, inner') => Some (buf, mkPool inner' (buffer_size self) (capacity self))
  | None => None
  end.

Definition release (self : BufferPool) (buf : FixedBuf) : BufferPool :=
  mkPool (give_back (inner self) buf) (buffer_size self) (capacity self).
End BufferPool.

(** A pool of two buffers hands out both, then none, then one that came back. *)
Lemma two_buffers {F : FixedBufPool} {FL : FixedBufPoolLaws F} b :
  exists i j p1 p2, try_next (pool_of [b; b]) (len b) = Some ((i, b), p1) /\
    try_next p1 (len b) = Some ((j, b), p2) /\ i <> j /\ try_next p2 (len b) = None /\
    is_Some (try_next (give_back p2 (i, b)) (len b)).
Proof.
  assert (free (pool_of [b; b]) = <[0%nat := b]> (<[1%nat := b]> ∅)) as Hf by apply free_pool_of.
  assert (forall k c, free (pool_of [b; b]) !! k = Some c -> (k = 0 \/ k = 1)%nat /\ c = b) as Hall.
  { intros k c. rewrite Hf, !lookup_insert_Some, lookup_empty. naive_solver. }
  destruct (try_next (pool_of [b; b]) (len b)) as [[[i b1] p1]|] eqn:E1.
  2: { destruct (try_next_None _ _ 0%nat b E1); [|done]. by rewrite Hf, lookup_insert_eq. }
  destruct (try_next_Some _ _ _ _ _ E1) as (Hi & _ & Hf1). destruct (Hall i b1 Hi) as [Hi01 ->].
  destruct (try_next p1 (len b)) as [[[j b2] p2]|] eqn:E2.
  2: { destruct (try_next_None _ _ (1 - i)%nat b E2); [|done].
       rewrite Hf1, lookup_delete_ne, Hf by lia. rewrite !lookup_insert_Some. destruct Hi01; subst; naive_solver lia. }
  destruct (try_next_Some _ _ _ _ _ E2) as (Hj & _ & Hf2). rewrite Hf1 in Hj.
  apply lookup_delete_Some in Hj as [Hij Hj]. destruct (Hall j b2 Hj) as [Hj01 ->].
  exists i, j, p1, p2. split_and!; [done..| |].
  - destruct (try_next p2 (len b)) as [[[k b3] p3]|] eqn:E3; [|done].
    destruct (try_next_Some _ _ _ _ _ E3) as (Hk & _ & _). rewrite Hf2, Hf1, !lookup_delete_Some in Hk.
    destruct Hk as (? & ? & Hk). apply Hall in Hk. lia.
  - destruct (try_next (give_back p2 (i, b)) (len b)) as [x|] eqn:E3; [by eexists|].
    destruct (try_next_None _ _ i b E3); [|done]. by rewrite free_give_back, lookup_insert_eq.
Qed.

(* ------------------------------------------------------------------ *)
(** * A shard with its pool *)

Section Pooled.
Context `{N : Notify} {F : FixedBufPool}.
Variable outbound : Z.
Variable allowed : Subscriptions -> Frame.t -> Prop.

(** The buffers the readers and the writers own.  A write buffer's bytes are
    in [writers]. *)
Record Pooled : Type := mkPooled {
  shard : Shard N;
  pool : BufferPool;
  read_bufs : gmap Rc nat;
  write_bufs : gmap Rc nat;
}.

(** The tasks of [Broker.task], with the buffers they take and drop. *)
Inductive pooled_task : Pooled -> Pooled -> Prop :=
| pooled_accept w rs ws p rb wb rc i b p1 j buf p2 w' :
    heap w !! rc = None -> next_conn_id w < u32_max ->
    acquire p = Some ((i, b), p1) -> acquire p1 = Some ((j, buf), p2) ->
    accept outbound true true rc w = Done (w', Some rc) ->
    pooled_task (mkPooled (mkShard w rs ws) p rb wb)
      (mkPooled (mkShard w' (<[rc := RGreet]> rs) (<[rc := (WWait, buf)]> ws)) p2
        (<[rc := i]> rb) (<[rc := j]> wb))
| pooled_refuse_read w rs ws p rb wb rc w' :
    next_conn_id w < u32_max -> acquire p = None ->
    accept outbound false false rc w = Done (w', None) ->
    pooled_task (mkPooled (mkShard w rs ws) p rb wb) (mkPooled (mkShard w' rs ws) p rb wb)
| pooled_refuse_write w rs ws p rb wb rc read_buf p1 w' :
    next_conn_id w < u32_max -> acquire p = Some (read_buf, p1) -> acquire p1 = None ->
    accept outbound true false rc w = Done (w', None) ->
    pooled_task (mkPooled (mkShard w rs ws) p rb wb) (mkPooled (mkShard w' rs ws) (release p1 read_buf) rb wb)
| pooled_greet w rs ws p rb wb rc w' :
    rs !! rc = Some RGreet -> reader_greet rc w = Done (w', true) ->
    pooled_task (mkPooled (mkShard w rs ws) p rb wb)
      (mkPooled (mkShard w' (<[rc := RLoop ∅]> rs) ws) p rb wb)
| pooled_greet_fail w rs ws p rb wb rc w' i b :
    rs !! rc = Some RGreet -> reader_greet rc w = Done (w', false) ->
    rb !! rc = Some i -> len b = buffer_size p ->
    pooled_task (mkPooled (mkShard w rs ws) p rb wb)
      (mkPooled (mkShard w' (delete rc rs) ws) (release p (i, b)) (delete rc rb) wb)
| pooled_frame w rs ws p rb wb rc subs f weak w' subs' :
    rs !! rc = Some (RLoop subs) -> frame_wf f -> allowed subs f ->
    total_subscriptions (table w) < usize_max -> handle_frame weak f rc subs w = Done (w', subs') ->
    pooled_task (mkPooled (mkShard w rs ws) p rb wb)
      (mkPooled (mkShard w' (<[rc := RLoop subs']> rs) ws) p rb wb)
| pooled_close w rs ws p rb wb rc subs w' :
    rs !! rc = Some (RLoop subs) -> mark_close_rc rc CloseReason.ProtocolError w = Done (w', tt) ->
    pooled_task (mkPooled (mkShard w rs ws) p rb wb) (mkPooled (mkShard w' rs ws) p rb wb)
| pooled_exit w rs ws p rb wb rc subs order w' i b :
    rs !! rc = Some (RLoop subs) -> order ≡ₚ map_to_list subs ->
    reader_cleanup rc order w = Done (w', tt) -> rb !! rc = Some i -> len b = buffer_size p ->
    pooled_task (mkPooled (mkShard w rs ws) p rb wb)
      (mkPooled (mkShard w' (delete rc rs) ws) (release p (i, b)) (delete rc rb) wb)
| pooled_write w rs ws p rb wb rc pc buf ok w' pc' buf' sent :
    ws !! rc = Some (pc, buf) -> writer_step rc ok pc buf w = Done (w', (pc', buf', sent)) ->
    pc' <> WExit ->
    pooled_task (mkPooled (mkShard w rs ws) p rb wb)
      (mkPooled (mkShard w' rs (<[rc := (pc', buf')]> ws)) p rb wb)
| pooled_write_end w rs ws p rb wb rc pc buf ok w' buf' sent j :
    ws !! rc = Some (pc, buf) -> pc <> WExit -> writer_step rc ok pc buf w = Done (w', (WExit, buf', sent)) ->
    wb !! rc = Some j ->
    pooled_task (mkPooled (mkShard w rs ws) p rb wb)
      (mkPooled (mkShard w' rs (<[rc := (WExit, buf')]> ws)) (release p (j, buf')) rb (delete rc wb)).

(** What happens on the inboxes leaves the buffers alone. *)
Inductive pooled_step : Pooled -> Pooled -> Prop :=
| pooled_own s s' : pooled_task s s' -> pooled_step s s'
| pooled_exchange s s' p rb wb :
    exchange s s' -> pooled_step (mkPooled s p rb wb) (mkPooled s' p rb wb).

Definition pooled_initial (pool_capacity size scratch our : Z) (boxes : list (ShardInbox PublishedFrame)) : Pooled :=
  mkPooled (initial scratch our boxes) (new pool_capacity size) ∅ ∅.
End Pooled.
Arguments Pooled N F : clear implicits.

(* ------------------------------------------------------------------ *)
(** * Accounting *)

(** The indices of the free buffers and of those the tasks own. *)
Definition all_bufs (fr : gmap nat bytes) (rb wb : gmap Rc nat) : list nat :=
  (map_to_list fr).*1 ++ (map_to_list rb).*2 ++ (map_to_list wb).*2.

Section AllBufs.
Implicit Types (fr : gmap nat bytes) (rb wb : gmap Rc nat).

Lemma free_out fr i b : fr !! i = Some b -> (map_to_list fr).*1 ≡ₚ i :: (map_to_list (delete i fr)).*1.
Proof. intros Hi. by rewrite <- (map_to_list_delete fr i b) by done. Qed.
Lemma free_in fr i b : fr !! i = None -> (map_to_list (<[i := b]> fr)).*1 ≡ₚ i :: (map_to_list fr).*1.
Proof. intros Hi. by rewrite map_to_list_insert by done. Qed.
Lemma owned_in rb rc i : rb !! rc = None -> (map_to_list (<[rc := i]> rb)).*2 ≡ₚ i :: (map_to_list rb).*2.
Proof. intros Hi. by rewrite map_to_list_insert by done. Qed.
Lemma owned_out rb rc i : rb !! rc = Some i -> (map_to_list rb).*2 ≡ₚ i :: (map_to_list (delete rc rb)).*2.
Proof. intros Hi. by rewrite <- (map_to_list_delete rb rc i) by done. Qed.

Lemma take_read fr rb wb i b rc :
  fr !! i = Some b -> rb !! rc = None -> all_bufs (delete i fr) (<[rc := i]> rb) wb ≡ₚ all_bufs fr rb wb.
Proof. intros Hi Hr. unfold all_bufs. rewrite (free_out fr i b Hi), owned_in by done. solve_Permutation. Qed.
Lemma take_write fr rb wb i b rc :
  fr !! i = Some b -> wb !! rc = None -> all_bufs (delete i fr) rb (<[rc := i]> wb) ≡ₚ all_bufs fr rb wb.
Proof. intros Hi Hr. unfold all_bufs. rewrite (free_out fr i b Hi), owned_in by done. solve_Permutation. Qed.
Lemma give_read fr rb wb i b rc :
  fr !! i = None -> rb !! rc = Some i -> all_bufs (<[i := b]> fr) (delete rc rb) wb ≡ₚ all_bufs fr rb wb.
Proof. intros Hi Hr. unfold all_bufs. rewrite free_in, (owned_out rb rc i Hr) by done. solve_Permutation. Qed.
Lemma give_write fr rb wb i b rc :
  fr !! i = None -> wb !! rc = Some i -> all_bufs (<[i := b]> fr) rb (delete rc wb) ≡ₚ all_bufs fr rb wb.
Proof. intros Hi Hr. unfold all_bufs. rewrite free_in, (owned_out wb rc i Hr) by done. solve_Permutation. Qed.

(** A buffer some task owns is not free. *)
Lemma owned_not_free fr rb wb i :
  NoDup (all_bufs fr rb wb) -> i ∈ (map_to_list rb).*2 ++ (map_to_list wb).*2 -> fr !! i = None.
Proof.
  unfold all_bufs. intros (_ & Hd & _)%NoDup_app Hi. destruct (fr !! i) as [b|] eqn:E; [|done].
  destruct (Hd i); [|done]. apply list_elem_of_fmap. exists (i, b). split; [done|]. by apply elem_of_map_to_list.
Qed.
Lemma owned_elem rb rc i : rb !! rc = Some i -> i ∈ (map_to_list rb).*2.
Proof. intros Hi. apply list_elem_of_fmap. exists (rc, i). split; [done|]. by apply elem_of_map_to_list. Qed.

Lemma all_bufs_length fr rb wb : length (all_bufs fr rb wb) = (size fr + size rb + size wb)%nat.
Proof. unfold all_bufs. rewrite !length_app, !length_fmap, !length_map_to_list. lia. Qed.
End AllBufs.

Section Accounting.
Context `{N : Notify} `{NL : !NotifyLaws N} {F : FixedBufPool} {FL : FixedBufPoolLaws F}.
Variables (outbound buf_size pool_capacity scratch our : Z) (boxes : list (ShardInbox PublishedFrame)).
Variable allowed : Subscriptions -> Frame.t -> Prop.
Hypothesis Hout : 0 <= outbound <= isize_max.
Hypothesis Hbuf : 64 <= buf_size <= isize_max.
Hypothesis Hscratch : 0 <= scratch <= isize_max.
Hypothesis Hour : 0 <= our <= u32_max.
Hypothesis Hboxes : Forall (fun m => exists k h q, holds m k h q) boxes.

Abbreviation free_bufs s := (free (inner (pool s))).
Abbreviation reaches s := (rtc (step outbound buf_size allowed) (initial scratch our boxes) s).

Lemma acquire_Some p i b p' :
  acquire p = Some ((i, b), p') ->
  free (inner p) !! i = Some b /\ len b = buffer_size p /\ free (inner p') = delete i (free (inner p)) /\
  buffer_size p' = buffer_size p.
Proof.
  unfold acquire. destruct (try_next _ _) as [[[i' b'] q]|] eqn:E; [|done]. intros [= -> -> <-].
  destruct (try_next_Some _ _ _ _ _ E) as (? & ? & ?). done.
Qed.
Lemma acquire_None p :
  acquire p = None -> (forall i b, free (inner p) !! i = Some b -> len b = buffer_size p) -> free (inner p) = ∅.
Proof.
  unfold acquire. destruct (try_next _ _) as [[? ?]|] eqn:E; [done|]. intros _ Hl. apply map_empty. intros i.
  destruct (free (inner p) !! i) as [b|] eqn:Hi; [|done]. by destruct (try_next_None _ _ _ _ E Hi (Hl i b Hi)).
Qed.

(** [acquire_async] suspends exactly where [acquire] says the pool is empty, and
    what it resolves to is a free buffer. *)
Lemma acquire_async_suspends p : acquire_async p = None <-> acquire p = None.
Proof.
  unfold acquire, acquire_async. split.
  - destruct (poll_next _ _) as [[? ?]|] eqn:E; [done|]. intros _.
    destruct (try_next _ _) as [[[i b] q]|] eqn:E'; [|done]. destruct (try_next_Some _ _ _ _ _ E') as (Hi & Hl & _).
    by destruct (poll_next_None _ _ _ _ E Hi).
  - destruct (try_next _ _) as [[? ?]|] eqn:E; [done|]. intros _.
    destruct (poll_next _ _) as [[[i b] q]|] eqn:E'; [|done]. destruct (poll_next_Some _ _ _ _ _ E') as (Hi & Hl & _).
    by destruct (try_next_None _ _ _ _ E Hi).
Qed.

Record accounted (s : Pooled N F) : Prop := {
  ac_all : all_bufs (free_bufs s) (read_bufs s) (write_bufs s) ≡ₚ List.seq 0 (Z.to_nat pool_capacity);
  ac_size : buffer_size (pool s) = buf_size;
  ac_len : forall i b, free_bufs s !! i = Some b -> len b = buf_size;
  ac_readers : forall rc, is_Some (read_bufs s !! rc) <-> is_Some (readers (shard s) !! rc);
  ac_writers : forall rc, is_Some (write_bufs s !! rc) <->
    exists pc buf, writers (shard s) !! rc = Some (pc, buf) /\ pc <> WExit;
  ac_wlen : forall rc pc buf, writers (shard s) !! rc = Some (pc, buf) -> len buf = buf_size;
  ac_reach : reaches (shard s);
}.

Lemma accounted_nodup s : accounted s -> NoDup (all_bufs (free_bufs s) (read_bufs s) (write_bufs s)).
Proof. intros H. rewrite (ac_all s H). apply NoDup_ListNoDup, List.seq_NoDup. Qed.

Lemma accounted_inv s : accounted s -> exists tb, inv (shard s) tb.
Proof.
  intros H. destruct (reachable_inv outbound buf_size scratch our boxes allowed Hout Hbuf Hscratch Hour Hboxes
    (shard s) (ac_reach s H)) as (tb & Hi & _). by exists tb.
Qed.

(** A step that neither takes nor drops a buffer. *)
Lemma accounted_same s p rb wb s' :
  accounted (mkPooled s p rb wb) -> step outbound buf_size allowed s s' ->
  (forall rc, is_Some (readers s' !! rc) <-> is_Some (readers s !! rc)) ->
  (forall rc, (exists pc buf, writers s' !! rc = Some (pc, buf) /\ pc <> WExit) <->
     exists pc buf, writers s !! rc = Some (pc, buf) /\ pc <> WExit) ->
  (forall rc pc buf, writers s' !! rc = Some (pc, buf) -> len buf = buf_size) ->
  accounted (mkPooled s' p rb wb).
Proof.
  intros [Ha Hs Hl Hr Hw Hwl Hre] Hstep Hr' Hw' Hwl'. cbn in *. constructor; cbn; try done.
  - intros rc. by rewrite Hr'.
  - intros rc. by rewrite Hw'.
  - by eapply rtc_r.
Qed.

(** A reader ends and its buffer is free again. *)
Lemma accounted_reader_end s p rb wb s' rc i b :
  accounted (mkPooled s p rb wb) -> step outbound buf_size allowed s s' -> rb !! rc = Some i ->
  len b = buffer_size p -> readers s' = delete rc (readers s) -> writers s' = writers s ->
  accounted (mkPooled s' (release p (i, b)) (delete rc rb) wb).
Proof.
  intros Hac Hstep Hi Hb Hr' Hw'. pose proof (accounted_nodup _ Hac) as Hnd.
  destruct Hac as [Ha Hs Hl Hr Hw Hwl Hre]. cbn in *.
  assert (free (inner p) !! i = None) as Hf.
  { eapply owned_not_free; [exact Hnd|]. apply elem_of_app. left. by eapply owned_elem. }
  constructor; cbn; rewrite ?Hw', ?free_give_back; try done.
  - by rewrite give_read.
  - intros j c. rewrite lookup_insert_Some. intros [[_ <-]|[_ H]]; [congruence|eauto].
  - intros rc'. rewrite Hr'. destruct (decide (rc = rc')) as [<-|Hne].
    + by rewrite !lookup_delete_eq.
    + by rewrite !lookup_delete_ne.
  - by eapply rtc_r.
Qed.

(** The writer's turn: the buffer keeps its length. *)
Lemma writer_len s p rb wb rc pc buf ok w' pc' buf' sent :
  accounted (mkPooled s p rb wb) -> writers s !! rc = Some (pc, buf) ->
  writer_step rc ok pc buf (worker s) = Done (w', (pc', buf', sent)) -> len buf' = buf_size.
Proof.
  intros Hac Hws E. destruct (accounted_inv _ Hac) as (tb & [[Hg _ _ _ _ _ _ Hwr] _ _ _]). cbn in *.
  destruct (Hwr rc pc buf Hws) as (Hbo & Hbl & st & Hst & Ho).
  destruct (writer_step_ok (worker s) rc st ok pc buf (good_heap _ Hg rc st Hst) Hst Hbo Hbl Ho)
    as (st' & pc1 & buf1 & sent1 & w1 & E1 & _ & _ & _ & _ & Hl & _).
  rewrite E in E1. injection E1 as _ _ <- _. rewrite Hl. by apply (ac_wlen _ Hac rc pc).
Qed.
Lemma writer_exited rc ok buf (w : Worker N) w' pc' buf' sent :
  writer_step rc ok WExit buf w = Done (w', (pc', buf', sent)) -> pc' = WExit.
Proof. cbn. by intros [= _ <-]. Qed.

Lemma accounted_write w rs ws p rb wb rc pc buf ok w' pc' buf' sent :
  accounted (mkPooled (mkShard w rs ws) p rb wb) -> ws !! rc = Some (pc, buf) ->
  writer_step rc ok pc buf w = Done (w', (pc', buf', sent)) -> pc' <> WExit ->
  accounted (mkPooled (mkShard w' rs (<[rc := (pc', buf')]> ws)) p rb wb).
Proof.
  intros Hac Hws E Hpc. pose proof (writer_len _ _ _ _ _ _ _ _ _ _ _ _ Hac Hws E) as Hl.
  assert (pc <> WExit) as Hpc0 by (intros ->; by apply writer_exited in E).
  eapply accounted_same; [exact Hac|by eapply step_task, task_write|done| |]; cbn.
  - intros rc'. destruct (decide (rc = rc')) as [<-|Hne]; [|by rewrite lookup_insert_ne].
    rewrite lookup_insert_eq. split; intros _; eauto.
  - intros rc' pc1 buf1. rewrite lookup_insert_Some. intros [[_ [= _ <-]]|[_ H]]; [done|].
    by apply (ac_wlen _ Hac rc' pc1).
Qed.

Lemma accounted_write_end w rs ws p rb wb rc pc buf ok w' buf' sent j :
  accounted (mkPooled (mkShard w rs ws) p rb wb) -> ws !! rc = Some (pc, buf) -> pc <> WExit ->
  writer_step rc ok pc buf w = Done (w', (WExit, buf', sent)) -> wb !! rc = Some j ->
  accounted (mkPooled (mkShard w' rs (<[rc := (WExit, buf')]> ws)) (release p (j, buf')) rb (delete rc wb)).
Proof.
  intros Hac Hws Hpc E Hj. pose proof (writer_len _ _ _ _ _ _ _ _ _ _ _ _ Hac Hws E) as Hl'.
  pose proof (accounted_nodup _ Hac) as Hnd. destruct Hac as [Ha Hs Hl Hr Hw Hwl Hre]. cbn in *.
  assert (free (inner p) !! j = None) as Hf.
  { eapply owned_not_free; [exact Hnd|]. apply elem_of_app. right. by eapply owned_elem. }
  constructor; cbn; rewrite ?free_give_back; try done.
  - by rewrite give_write.
  - intros i c. rewrite lookup_insert_Some. intros [[_ <-]|[_ H]]; [done|eauto].
  - intros rc'. destruct (decide (rc = rc')) as [<-|Hne].
    + rewrite lookup_delete_eq, lookup_insert_eq. split; [by intros [? ?]|].
      intros (pc1 & buf1 & [= <- <-] & ?). done.
    + by rewrite lookup_delete_ne, lookup_insert_ne.
  - intros rc' pc1 buf1. rewrite lookup_insert_Some. intros [[_ [= _ <-]]|[_ H]]; [done|eauto].
  - eapply rtc_r; [exact Hre|]. by eapply step_task, task_write.
Qed.

Lemma accounted_accept w rs ws p rb wb rc i b p1 j buf p2 w' :
  accounted (mkPooled (mkShard w rs ws) p rb wb) -> heap w !! rc = None -> next_conn_id w < u32_max ->
  acquire p = Some ((i, b), p1) -> acquire p1 = Some ((j, buf), p2) ->
  accept outbound true true rc w = Done (w', Some rc) ->
  accounted (mkPooled (mkShard w' (<[rc := RGreet]> rs) (<[rc := (WWait, buf)]> ws)) p2
    (<[rc := i]> rb) (<[rc := j]> wb)).
Proof.
  intros Hac Hrc Hlt (Hi & Hbl & Ef1 & Es1)%acquire_Some (Hj & Hbufl & Ef2 & Es2)%acquire_Some E.
  destruct (accounted_inv _ Hac) as (tb & [[Hg _ _ _ _ Hrd _ Hwr] _ _ _]).
  destruct Hac as [Ha Hs Hl Hr Hw Hwl Hre]. cbn in *.
  assert (rb !! rc = None) as Hrb.
  { destruct (rb !! rc) as [k|] eqn:Ek; [|done]. destruct (Hrd rc) as (st & Hst & _); [|congruence].
    apply Hr. by eexists. }
  assert (wb !! rc = None) as Hwb.
  { destruct (wb !! rc) as [k|] eqn:Ek; [|done]. destruct (proj1 (Hw rc)) as (pc & bf & Hws & _); [by eexists|].
    destruct (Hwr rc pc bf Hws) as (_ & _ & st & Hst & _). congruence. }
  constructor; cbn; rewrite ?Ef2, ?Ef1.
  - rewrite Ef1 in Hj. rewrite take_write by done. by rewrite take_read.
  - congruence.
  - intros k c [_ [_ H]%lookup_delete_Some]%lookup_delete_Some. eauto.
  - intros rc'. rewrite !lookup_insert_is_Some'. by rewrite Hr.
  - intros rc'. rewrite lookup_insert_is_Some', Hw. destruct (decide (rc = rc')) as [<-|Hne].
    + rewrite lookup_insert_eq. split; [intros _; by eexists _, _|by left].
    + rewrite lookup_insert_ne by done. split; [by intros [?|?]|by right].
  - intros rc' pc1 buf1. rewrite lookup_insert_Some. intros [[_ [= _ <-]]|[_ H]]; [congruence|eauto].
  - eapply rtc_r; [exact Hre|]. apply step_task, task_accept; [done..|congruence|done].
Qed.

Lemma accounted_refuse_write w rs ws p rb wb rc i b p1 w' :
  accounted (mkPooled (mkShard w rs ws) p rb wb) -> next_conn_id w < u32_max ->
  acquire p = Some ((i, b), p1) -> accept outbound true false rc w = Done (w', None) ->
  accounted (mkPooled (mkShard w' rs ws) (release p1 (i, b)) rb wb).
Proof.
  intros [Ha Hs Hl Hr Hw Hwl Hre] Hlt (Hi & Hbl & Ef1 & Es1)%acquire_Some E. cbn in *.
  assert (<[i := b]> (delete i (free (inner p))) = free (inner p)) as Hf
    by (rewrite insert_delete_eq; by apply insert_id).
  constructor; cbn; rewrite ?free_give_back, ?Ef1, ?Hf; try done; [congruence|].
  eapply rtc_r; [exact Hre|]. by apply step_task, (task_refuse _ _ _ w rs ws true false rc).
Qed.

Lemma accounted_step s s' : accounted s -> pooled_step outbound allowed s s' -> accounted s'.
Proof.
  intros Hac Hstep. destruct Hstep as [s s' Htask|s s' p rb wb Hex].
  2: { assert (readers s' = readers s /\ writers s' = writers s) as [Er Ew] by by destruct Hex.
       eapply accounted_same; [exact Hac|by apply step_exchange|by rewrite Er|by rewrite Ew|].
       rewrite Ew. apply (ac_wlen _ Hac). }
  destruct Htask.
  - by eapply accounted_accept.
  - eapply accounted_same; [exact Hac|by apply step_task, (task_refuse _ _ _ w rs ws false false rc)|done..|].
    apply (ac_wlen _ Hac).
  - destruct read_buf as [i b]. by eapply accounted_refuse_write.
  - eapply accounted_same; [exact Hac|by eapply step_task, (task_greet _ _ _ w rs ws rc w' true)| |done|apply (ac_wlen _ Hac)].
    intros rc'. cbn. rewrite lookup_insert_is_Some'. split; [intros [<-|?]; [by eexists|done]|by right].
  - eapply accounted_reader_end; try done. by apply step_task, (task_greet _ _ _ w rs ws rc w' false).
  - eapply accounted_same; [exact Hac|by eapply step_task, task_frame| |done|apply (ac_wlen _ Hac)].
    intros rc'. cbn. rewrite lookup_insert_is_Some'. split; [intros [<-|?]; [by eexists|done]|by right].
  - eapply accounted_same; [exact Hac|by eapply step_task, task_close|done..|apply (ac_wlen _ Hac)].
  - eapply accounted_reader_end; try done. by eapply step_task, task_exit.
  - by eapply accounted_write.
  - by eapply accounted_write_end.
Qed.

Lemma map_seq_keys (l : list bytes) :
  (map_to_list (map_seq 0 l : gmap nat bytes)).*1 ≡ₚ List.seq 0 (length l).
Proof.
  apply NoDup_Permutation; [apply NoDup_fst_map_to_list|apply NoDup_ListNoDup, List.seq_NoDup|].
  intros i. rewrite elem_of_seq, list_elem_of_fmap. split.
  - intros ([j b] & -> & Hb%elem_of_map_to_list). rewrite lookup_map_seq_0 in Hb.
    apply lookup_lt_Some in Hb. cbn. lia.
  - intros [_ Hi]. destruct (lookup_lt_is_Some_2 l i) as [b Hb]; [lia|]. exists (i, b). split; [done|].
    apply elem_of_map_to_list. by rewrite lookup_map_seq_0.
Qed.

Lemma accounted_initial : accounted (pooled_initial pool_capacity buf_size scratch our boxes).
Proof.
  constructor; cbn; rewrite ?free_pool_of; try done.
  - unfold all_bufs. rewrite map_seq_keys, length_replicate, !map_to_list_empty. by rewrite app_nil_r.
  - intros i b. rewrite lookup_map_seq_0. intros [-> _]%lookup_replicate. apply len_zeroed. lia.
  - intros rc. rewrite !lookup_empty. by split; intros [? ?].
  - intros rc. rewrite !lookup_empty. split; [by intros [? ?]|]. by intros (? & ? & H & _).
Qed.

Lemma accounted_reachable s :
  rtc (pooled_step outbound allowed) (pooled_initial pool_capacity buf_size scratch our boxes) s -> accounted s.
Proof.
  apply (rtc_ind_r (fun s => accounted s) (pooled_initial pool_capacity buf_size scratch our boxes));
    [exact accounted_initial|]. intros s1 s2 _ H12 H1. by eapply accounted_step.
Qed.

(** C23.  No buffer is lost or shared: in every reachable state of a shard
    with its pool, each of the pool's buffers is free or owned by exactly one
    task, the live readers own one read buffer each and the writers that have
    not exited one write buffer each, so that all buffers are free again once
    both tasks of every connection have ended; and a client is turned away
    only when fewer than two buffers are free.  The shard itself does what the
    machine of [Broker] does. *)
Theorem pool_conserved s :
  rtc (pooled_step outbound allowed) (pooled_initial pool_capacity buf_size scratch our boxes) s ->
  reaches (shard s) /\
  all_bufs (free_bufs s) (read_bufs s) (write_bufs s) ≡ₚ List.seq 0 (Z.to_nat pool_capacity) /\
  (forall rc, is_Some (read_bufs s !! rc) <-> is_Some (readers (shard s) !! rc)) /\
  (forall rc, is_Some (write_bufs s !! rc) <->
    exists pc buf, writers (shard s) !! rc = Some (pc, buf) /\ pc <> WExit) /\
  (readers (shard s) = ∅ -> (forall rc pc buf, writers (shard s) !! rc = Some (pc, buf) -> pc = WExit) ->
    size (free_bufs s) = Z.to_nat pool_capacity) /\
  ((size (read_bufs s) + size (write_bufs s) + 2 <= Z.to_nat pool_capacity)%nat ->
    exists read_buf p1 write_buf p2, acquire (pool s) = Some (read_buf, p1) /\ acquire p1 = Some (write_buf, p2)).
Proof.
  intros Hs. apply accounted_reachable in Hs as [Ha Hsz Hl Hr Hw _ Hre].
  pose proof (Permutation_length Ha) as Hlen. rewrite all_bufs_length, length_seq in Hlen.
  split_and!; try done.
  - intros Hrs Hws. assert (read_bufs s = ∅) as Hrb.
    { apply map_empty. intros rc. apply eq_None_not_Some. rewrite Hr, Hrs, lookup_empty. by intros [? ?]. }
    assert (write_bufs s = ∅) as Hwb.
    { apply map_empty. intros rc. apply eq_None_not_Some. rewrite Hw. intros (pc & buf & H & Hne).
      by apply Hne, (Hws rc pc buf). }
    rewrite Hrb, Hwb, !map_size_empty in Hlen. lia.
  - intros Hroom. destruct (acquire (pool s)) as [[[i b] p1]|] eqn:E1.
    2: { apply acquire_None in E1; [|intros; rewrite Hsz; eauto]. rewrite E1, map_size_empty in Hlen. lia. }
    destruct (acquire_Some _ _ _ _ E1) as (Hi & _ & Ef & Es).
    destruct (acquire p1) as [[buf p2]|] eqn:E2; [by eexists _, _, _, _|].
    apply acquire_None in E2.
    + rewrite Ef in E2. pose proof (f_equal size E2) as Hsize. rewrite map_size_empty, map_size_delete_Some in Hsize by (by eexists).
      lia.
    + intros j c. rewrite Ef, Es, Hsz. intros [_ H]%lookup_delete_Some. eauto.
Qed.
End Accounting.

(* ------------------------------------------------------------------ *)
(** * An instance *)

(** The free buffers themselves; [try_next] takes the first that fits. *)
#[local] Instance checkout : FixedBufPool := {|
  fixed_pool := gmap nat bytes;
  pool_of := fun bufs => map_seq 0 bufs;
  try_next := fun p cap =>
    match filter (fun e => len e.2 = cap) (map_to_list p) with
    | [] => None
    | (i, b) :: _ => Some ((i, b), delete i p)
    end;
  poll_next := fun p cap =>
    match filter (fun e => len e.2 = cap) (map_to_list p) with
    | [] => None
    | (i, b) :: _ => Some ((i, b), delete i p)
    end;
  give_back := fun p buf => <[buf.1 := buf.2]> p;
|}.

Lemma checkout_laws : FixedBufPoolLaws checkout.
Proof.
  assert (forall p cap i b p', try_next (FixedBufPool := checkout) p cap = Some ((i, b), p') ->
    p !! i = Some b /\ len b = cap /\ p' = delete i p) as Hsome.
  { cbn. intros p cap i b p'. destruct (filter _ _) as [|[i' b'] l] eqn:E; [done|]. intros [= -> -> <-].
    assert ((i, b) ∈ filter (fun e => len e.2 = cap) (map_to_list p)) as Hin by (rewrite E; by left).
    apply list_elem_of_filter in Hin as [Hl Hin]. split_and!; [by apply elem_of_map_to_list|done..]. }
  assert (forall p cap i b, try_next (FixedBufPool := checkout) p cap = None -> p !! i = Some b -> len b <> cap) as Hnone.
  { cbn. intros p cap i b. destruct (filter _ _) as [|[i' b'] l] eqn:E; [|done]. intros _ Hi Hl.
    assert ((i, b) ∈ filter (fun e => len e.2 = cap) (map_to_list p)) as Hin.
    { apply list_elem_of_filter. split; [done|]. by apply elem_of_map_to_list. }
    rewrite E in Hin. by apply not_elem_of_nil in Hin. }
  by refine (Build_FixedBufPoolLaws checkout (fun p : gmap nat bytes => p) _ Hsome Hnone Hsome Hnone _).
Defined.

(** One client connects to a shard with a pool of four buffers. *)
Definition one_client : Pooled permit_notify checkout :=
  mkPooled (mkShard Run.w1 {[0%nat := RGreet]} {[0%nat := (WWait, zeroed 64)]})
    (mkPool (delete 3%nat (delete 2%nat (map_seq 0 (replicate 4 (zeroed 64))))) 64 4)
    {[0%nat := 2%nat]} {[0%nat := 3%nat]}.

Lemma one_client_reached :
  rtc (pooled_step 256 Run.any) (pooled_initial 4 64 64 0 []) one_client.
Proof.
  apply rtc_once, pooled_own.
  by apply (pooled_accept 256 Run.any Run.w0 ∅ ∅ (new 4 64) ∅ ∅ 0 2 (zeroed 64)
    (mkPool (delete 2%nat (map_seq 0 (replicate 4 (zeroed 64)))) 64 4) 3 (zeroed 64)).
Qed.

Lemma pool_conserved_witness :
  rtc (step 256 64 Run.any) (initial 64 0 []) (shard one_client) /\
  all_bufs (inner (pool one_client)) (read_bufs one_client) (write_bufs one_client) ≡ₚ List.seq 0 4 /\
  (forall rc, is_Some (read_bufs one_client !! rc) <-> is_Some (readers (shard one_client) !! rc)) /\
  (forall rc, is_Some (write_bufs one_client !! rc) <->
    exists pc buf, writers (shard one_client) !! rc = Some (pc, buf) /\ pc <> WExit) /\
  (readers (shard one_client) = ∅ ->
    (forall rc pc buf, writers (shard one_client) !! rc = Some (pc, buf) -> pc = WExit) ->
    size (inner (pool one_client)) = 4%nat) /\
  ((size (read_bufs one_client) + size (write_bufs one_client) + 2 <= 4)%nat ->
    exists read_buf p1 write_buf p2, acquire (pool one_client) = Some (read_buf, p1) /\
      acquire p1 = Some (write_buf, p2)).
Proof.
  apply (pool_conserved (NL := permit_laws) (FL := checkout_laws) 256 64 4 64 0 [] Run.any);
    [done..|exact one_client_reached].
Defined.
