(* ===== verification/Server.v ===== *)
(** The whole server: the shards ([Broker]) side by side, sharing the inboxes
    and the eventfds that [main] creates.

    The shards run on different threads: their steps interleave in any order.
    A push or pop is one step here; [Threads] looks inside.  While a shard's
    drain task empties its inbox no other task of that shard runs, since
    [drain_task] does not [await] there. *)
From Stdlib Require Import ZArith Lia Strings.Byte.
From stdpp Require Import functions base gmap list strings relations.
From S2P Require Import Prelude Subject Trie TrieSpec ConnState ShardInbox EventFd Wire Parse Emit Worker Dispatch DispatchSpec Session SessionSpec Broker.

Section Server.
Context `{N : Notify}.
Variables (capacity buffer_size : Z).
Variable allowed : Subscriptions -> Frame.t -> Prop.

(** [inboxes] and [wakers] of [main]; [draining] tells whose drain task is
    between an eventfd read and the next. *)
Record Server : Type := mkServer {
  nodes : list (Shard N);
  boxes : list (ShardInbox PublishedFrame);
  events : list Z;
  draining : list bool;
}.

(** The shard as it finds the shared inboxes, with an empty log of kicks. *)
Definition attach (bx : list (ShardInbox PublishedFrame)) (s : Shard N) : Shard N :=
  mkShard (set_kicks (set_peer_inboxes (worker s) bx) []) (readers s) (writers s).

(** The eventfds after the [wake()]s of a step. *)
Definition wake_all (kicked : list nat) (evs : list Z) : list Z :=
  fold_left (fun evs i => alter wake_counter i evs) kicked evs.

Inductive server_step : Server -> Server -> Prop :=
| server_task ns bx evs dr i s s' :
    ns !! i = Some s -> dr !! i = Some false -> task capacity buffer_size allowed (attach bx s) s' ->
    server_step (mkServer ns bx evs dr)
      (mkServer (<[i := s']> ns) (peer_inboxes (worker s')) (wake_all (kicks (worker s')) evs) dr)
| server_wake ns bx evs dr i n :
    evs !! i = Some n -> 0 < n -> dr !! i = Some false ->
    server_step (mkServer ns bx evs dr) (mkServer ns bx (<[i := 0]> evs) (<[i := true]> dr))
| server_drain ns bx evs dr i s m m' f w' res :
    dr !! i = Some true -> ns !! i = Some s -> bx !! i = Some m -> pop m = Done (m', Some f) ->
    dispatch_local (ShardInbox.subject f) (ShardInbox.reply_to f) (ShardInbox.payload f)
      (worker (attach (<[i := m']> bx) s)) = Done (w', res) ->
    server_step (mkServer ns bx evs dr)
      (mkServer (<[i := mkShard w' (readers s) (writers s)]> ns) (<[i := m']> bx) evs dr)
| server_idle ns bx evs dr i m m' :
    dr !! i = Some true -> bx !! i = Some m -> pop m = Done (m', None) ->
    server_step (mkServer ns bx evs dr) (mkServer ns (<[i := m']> bx) evs (<[i := false]> dr)).

(** The server [main] starts for [n] shards: one inbox, one eventfd each. *)
Definition server_initial (scratch : Z) (box : ShardInbox PublishedFrame) (n : nat) : Server :=
  let bx := replicate n box in
  mkServer ((fun i => initial scratch (Z.of_nat i) bx) <$> List.seq 0 n) bx (replicate n 0) (replicate n false).

(* ------------------------------------------------------------------ *)
(** * What a step does to the links between shards *)

(** A publication whose subject the publishing shard has validated. *)
Definition frame_valid (f : PublishedFrame) : Prop :=
  slice_ok (ShardInbox.payload f) /\
  exists toks, parse_publisher_subject (ShardInbox.subject f) = Ok toks.

(** The inboxes from [qs] to [qs'], with the kicks [kk]: each queue is left
    alone or got one validated publication, with a kick if it was empty. *)
Definition queue_grows (kk : list nat) (i : nat) (q q' : list PublishedFrame) : Prop :=
  q' = q \/ exists f, frame_valid f /\ q' = q ++ [f] /\ (q = [] -> i ∈ kk).

Record linked (w w' : Worker N) (ks hs : nat -> Z) (qs : nat -> list PublishedFrame) : Prop := {
  ln_shard : shard_id w' = shard_id w;
  ln_wakers : peer_wakers w' = peer_wakers w;
  ln_boxes : length (peer_inboxes w') = length (peer_inboxes w);
  ln_queues : exists qs' kk, kicks w' = kicks w ++ kk /\ all_hold w' ks hs qs' /\
    (forall i, (i < peer_wakers w)%nat -> queue_grows kk i (qs i) (qs' i)) /\
    Forall (fun i => i < length (peer_inboxes w))%nat kk;
}.

Lemma linked_same w w' ks hs qs :
  all_hold w ks hs qs -> shard_id w' = shard_id w -> peer_wakers w' = peer_wakers w ->
  peer_inboxes w' = peer_inboxes w -> kicks w' = kicks w -> linked w w' ks hs qs.
Proof.
  intros Ha Hs Hw Hi Hk. constructor; [done|done|by rewrite Hi|]. exists qs, [].
  split_and!; [by rewrite app_nil_r| |by left|constructor]. unfold all_hold. by rewrite Hi.
Qed.

Lemma pub_linked weak w rc tb subject reply payload w' ks hs qs :
  good w -> is_Some (heap w !! rc) -> refines (table w) tb -> slice_ok payload ->
  all_hold w ks hs qs ->
  handle_pub subject reply payload weak rc w = Done (w', tt) -> linked w w' ks hs qs.
Proof.
  intros Hg Hc Hr Hsl Ha E. destruct (parse_publisher_subject subject) as [toks|e] eqn:Es.
  2: { rewrite (handle_pub_err subject reply payload weak w rc e Hg Hc Es) in E. injection E as <-.
       by apply linked_same. }
  destruct (handle_pub_ok subject reply payload Hsl weak w rc tb toks ks hs qs Hg Hc Hr Es Ha)
    as (w1 & plain & picks & w2 & _ & _ & Hpo & E' & Hone & Hmany & _ & Hk & _).
  rewrite E in E'. injection E' as <-. pose proof (po_io _ _ _ _ _ _ Hpo) as Hio.
  destruct (Z.le_gt_cases (shard_count w) 1) as [Hs|Hs].
  { rewrite (Hone Hs). by apply linked_same; destruct Hio. }
  destruct (Hmany ltac:(lia)) as (Hah & Hkk & _ & Hlen). destruct Hk.
  constructor; [done..|]. eexists _, _. split_and!; [exact Hkk|exact Hah| |].
  - intros i Hi. unfold offers, offer. case_bool_decide as Hp; [|by left].
    destruct (_ <? _); [|by left]. right. eexists. split_and!; [|done|].
    + split; [done|]. by exists toks.
    + intros Hq. apply list_elem_of_filter. naive_solver.
  - apply Forall_forall. intros i Hi. apply list_elem_of_filter in Hi as [_ Hi].
    unfold peers in Hi. apply elem_of_seq in Hi. lia.
Qed.

Lemma frame_linked weak f w rc st tb subs w' subs' ks hs qs :
  good w -> heap w !! rc = Some st -> refines (table w) tb ->
  total_subscriptions (table w) < usize_max -> frame_wf f -> all_hold w ks hs qs ->
  handle_frame weak f rc subs w = Done (w', subs') -> linked w w' ks hs qs.
Proof.
  intros Hg Hst Hr Ht Hf Ha E. destruct (is_pub f) eqn:Hp.
  - destruct f as [|subject reply payload| | | | | | | |]; try discriminate Hp. cbn [handle_frame] in E.
    destruct Hf as (_ & _ & Hsl). destruct (MAX_PAYLOAD_BYTES <? len payload).
    + erewrite M_bind_done in E; [|by apply emit_err_to_told]. injection E as <- _.
      by apply linked_same.
    + apply M_bind_inv in E as (w1 & [] & E1 & E2). injection E2 as <- _.
      eapply pub_linked; [done|by eexists|done..].
  - destruct (handle_frame_control weak f w rc st tb subs Hg Hst Hr Ht Hp) as (t' & E' & _).
    rewrite E in E'. injection E' as -> _.
    by apply linked_same; wsimpl; destruct (frame_reply f).
Qed.

Hypothesis Hcap : 0 <= capacity <= isize_max.
Hypothesis Hbuf : 64 <= buffer_size <= isize_max.
Context `{NL : !NotifyLaws N}.

Lemma task_linked s s' tb ks hs qs :
  inv s tb -> task capacity buffer_size allowed s s' -> all_hold (worker s) ks hs qs ->
  linked (worker s) (worker s') ks hs qs.
Proof.
  intros [Hb Ht _ _] Htask Ha. pose proof Hb as [Hg _ _ _ _ Hrd _ Hwr].
  destruct Htask as [w rs ws rc buf w' Hrc Hlt Hlen E|w rs ws rb wb rc w' Hlt E|w rs ws rc w' go Hrs E
    |w rs ws rc subs f weak w' subs' Hrs Hf Hal Htot E|w rs ws rc subs w' Hrs E
    |w rs ws rc subs order w' Hrs Hord E|w rs ws rc pc buf ok w' pc' buf' sent Hws E];
    cbn [worker readers writers] in *.
  - injection E as <-. by apply linked_same.
  - destruct rb, wb; cbn in E; try discriminate E; injection E as <-; by apply linked_same.
  - destruct (Hrd rc) as (st & Hst & _); [by eexists|].
    rewrite reader_greet_done in E by eauto. injection E as <- <-. by apply linked_same.
  - destruct (Hrd rc) as (st & Hst & _); [by eexists|]. by eapply frame_linked.
  - destruct (Hrd rc) as (st & Hst & _); [by eexists|].
    rewrite (mark_close_rc_done w rc st) in E by done. injection E as <-. by apply linked_same.
  - destruct (Hrd rc) as (st & Hst & _); [by eexists|].
    destruct (unsubscribe_all_done order (id st) w tb Ht) as (t' & Eu & _).
    unfold reader_cleanup in E. erewrite M_bind_done in E; [|unfold deref; rewrite Hst; reflexivity].
    erewrite M_bind_done in E; [|exact Eu]. erewrite M_bind_done in E; [|reflexivity].
    rewrite (mark_close_rc_done _ rc st) in E by done. injection E as <-. by apply linked_same.
  - destruct (Hwr rc pc buf Hws) as (Hbo & Hbl & st & Hst & Ho).
    destruct (writer_step_ok w rc st ok pc buf (good_heap w Hg rc st Hst) Hst Hbo Hbl Ho)
      as (st' & pc1 & buf1 & sent1 & w1 & E1 & Hw1 & _).
    rewrite E in E1. injection E1 as <- _ _ _. destruct Hw1 as [[-> _]| ->]; by apply linked_same.
Qed.

(* ------------------------------------------------------------------ *)
(** * Eventfds *)

Lemma wake_all_length kk evs : length (wake_all kk evs) = length evs.
Proof.
  revert evs. induction kk as [|i kk IH]; intros evs; [done|]. cbn. unfold wake_all in IH.
  by rewrite IH, length_alter.
Qed.
Lemma wake_counter_up n : 0 <= n -> 0 < wake_counter n /\ n <= wake_counter n.
Proof. intros H. unfold wake_counter, counter_max. zcase; lia. Qed.
Lemma wake_all_lookup kk evs i v :
  evs !! i = Some v -> 0 <= v ->
  exists v', wake_all kk evs !! i = Some v' /\ v <= v' /\ (i ∈ kk -> 0 < v').
Proof.
  revert evs v. induction kk as [|j kk IH]; intros evs v Hv H0.
  { exists v. split_and!; [done|lia|]. intros H. by apply not_elem_of_nil in H. }
  cbn. destruct (wake_counter_up v H0) as [Hup Hle]. destruct (decide (j = i)) as [->|Hn].
  - destruct (IH (alter wake_counter i evs) (wake_counter v)) as (v' & E & Hl & _); [|lia|].
    { by rewrite list_lookup_alter_eq, Hv. }
    exists v'. split_and!; [done|lia|]. intros _. lia.
  - destruct (IH (alter wake_counter j evs) v) as (v' & E & Hl & Hk); [|done|].
    { by rewrite list_lookup_alter_ne. }
    exists v'. split_and!; [done|lia|]. intros [?|?]%elem_of_cons; [congruence|auto].
Qed.

(* ------------------------------------------------------------------ *)
(** * The invariant *)

Variables (scratch : Z) (box : ShardInbox PublishedFrame) (n : nat) (kbox : Z).
Hypothesis Hscratch : 0 <= scratch <= isize_max.
Hypothesis Hn : Z.of_nat n <= 2 ^ 32.
Hypothesis Hbox : holds box kbox 0 [].

Abbreviation shard_reaches i s :=
  (rtc (step capacity buffer_size allowed) (initial scratch (Z.of_nat i) (replicate n box)) s).

(** Shard [i] of the server, as its own machine has it. *)
Record node_ok (i : nat) (s : Shard N) : Prop := {
  nd_id : shard_id (worker s) = Z.of_nat i;
  nd_wakers : peer_wakers (worker s) = n;
  nd_boxes : length (peer_inboxes (worker s)) = n;
  nd_reach : shard_reaches i s;
}.

Record server_inv (ks hs : nat -> Z) (qs : nat -> list PublishedFrame) (S : Server) : Prop := {
  si_nodes : length (nodes S) = n;
  si_boxes : length (boxes S) = n;
  si_events : length (events S) = n;
  si_draining : length (draining S) = n;
  si_node : forall i s, nodes S !! i = Some s -> node_ok i s;
  si_hold : forall i m, boxes S !! i = Some m -> holds m (ks i) (hs i) (qs i);
  si_valid : forall i, (i < n)%nat -> Forall frame_valid (qs i);
  si_wake : forall i, (i < n)%nat -> qs i <> [] -> draining S !! i = Some false ->
    exists v, events S !! i = Some v /\ 0 < v;
  si_counts : forall i v, events S !! i = Some v -> 0 <= v;
}.

Lemma boxes_ok ks hs qs S w :
  server_inv ks hs qs S -> all_hold (set_peer_inboxes w (boxes S)) ks hs qs /\
    inboxes_ok (set_peer_inboxes w (boxes S)).
Proof.
  intros HS. assert (all_hold (set_peer_inboxes w (boxes S)) ks hs qs) as Ha.
  { intros i m Hm. by apply (si_hold _ _ _ _ HS). }
  split; [done|]. by eapply all_hold_ok.
Qed.

(** A shard takes notice of the others' pushes. *)
Lemma node_attach ks hs qs S i s :
  server_inv ks hs qs S -> nodes S !! i = Some s ->
  shard_reaches i (attach (boxes S) s) /\ exists tb, inv (attach (boxes S) s) tb.
Proof.
  intros HS Hs. pose proof (si_node _ _ _ _ HS i s Hs) as [Hid Hw Hb Hr].
  apply lookup_lt_Some in Hs. rewrite (si_nodes _ _ _ _ HS) in Hs.
  assert (shard_reaches i (attach (boxes S) s)) as Hr'.
  { eapply rtc_r; [exact Hr|]. destruct s as [w rs ws]. apply step_exchange, exchange_peers; [by eapply boxes_ok|].
    cbn in *. by rewrite (si_boxes _ _ _ _ HS). }
  split; [done|]. edestruct (reachable_inv capacity buffer_size scratch (Z.of_nat i) (replicate n box)
    allowed Hcap Hbuf Hscratch) as (tb & Hi & _); [unfold u32_max; lia| |exact Hr'|by exists tb].
  apply Forall_replicate. eauto.
Qed.

Lemma server_inv_task ks hs qs ns bx evs dr i s s' :
  server_inv ks hs qs (mkServer ns bx evs dr) -> ns !! i = Some s ->
  task capacity buffer_size allowed (attach bx s) s' ->
  exists qs', server_inv ks hs qs'
    (mkServer (<[i := s']> ns) (peer_inboxes (worker s')) (wake_all (kicks (worker s')) evs) dr) /\
    forall j, (j < n)%nat -> exists kk, queue_grows kk j (qs j) (qs' j).
Proof.
  intros HS Hs Htask. destruct (node_attach _ _ _ _ _ _ HS Hs) as (Hr & tb & Hinv).
  pose proof HS as [Lns Lbx Lev Ldr Hnode Hhold Hval Hwk Hcnt]. cbn in *.
  destruct (Hnode i s Hs) as [Hid Hw Hb _].
  destruct (task_linked _ _ tb ks hs qs Hinv Htask) as [Ls Lw Lb (qs' & kk & Hk & Ha & Hq & Hkk)];
    [by intros j m Hm; apply Hhold|]. cbn in *. rewrite Hw in Hq.
  exists qs'. split; [|by intros j Hj; exists kk; apply Hq].
  constructor; cbn.
  - by rewrite length_insert.
  - by rewrite Lb.
  - by rewrite wake_all_length.
  - done.
  - intros j s0. destruct (decide (i = j)) as [<-|Hne].
    + rewrite list_lookup_insert_eq by (by eapply lookup_lt_Some). intros [= <-].
      constructor; [congruence|congruence|by rewrite Lb|]. eapply rtc_r; [exact Hr|by apply step_task].
    + rewrite list_lookup_insert_ne by done. apply Hnode.
  - exact Ha.
  - intros j Hj. destruct (Hq j Hj) as [->|(f & Hf & -> & _)]; [auto|].
    apply Forall_app. split; [auto|by apply Forall_singleton].
  - intros j Hj Hne Hd. rewrite Hk.
    destruct (lookup_lt_is_Some_2 evs j) as [v Hv]; [by rewrite Lev|].
    destruct (wake_all_lookup kk evs j v Hv (Hcnt j v Hv)) as (v' & Hv' & Hle & Hkick).
    exists v'. split; [done|]. destruct (decide (qs j = [])) as [Hq0|Hq0].
    + destruct (Hq j Hj) as [E|(f & _ & _ & Hin)]; [congruence|auto].
    + destruct (Hwk j Hj Hq0 Hd) as (v0 & Hv0 & Hpos). simplify_eq. lia.
  - intros j v' Hv'. rewrite Hk in Hv'.
    destruct (lookup_lt_is_Some_2 evs j) as [v Hv].
    { apply lookup_lt_Some in Hv'. by rewrite wake_all_length in Hv'. }
    destruct (wake_all_lookup kk evs j v Hv (Hcnt j v Hv)) as (v1 & Hv1 & Hle & _).
    simplify_eq. specialize (Hcnt j v Hv). lia.
Qed.

(** One frame leaves the inbox of shard [i] and is dispatched there. *)
Lemma server_inv_drain ks hs qs ns bx evs dr i s m m' f w' res :
  server_inv ks hs qs (mkServer ns bx evs dr) -> dr !! i = Some true ->
  ns !! i = Some s -> bx !! i = Some m -> pop m = Done (m', Some f) ->
  dispatch_local (ShardInbox.subject f) (ShardInbox.reply_to f) (ShardInbox.payload f)
    (worker (attach (<[i := m']> bx) s)) = Done (w', res) ->
  exists q, qs i = f :: q /\
  server_inv ks (<[i := hs i + 1]> hs) (<[i := q]> qs)
    (mkServer (<[i := mkShard w' (readers s) (writers s)]> ns) (<[i := m']> bx) evs dr).
Proof.
  intros HS Hd Hs Hm Hp E. destruct (node_attach _ _ _ _ _ _ HS Hs) as (Hr & tb & Hinv).
  pose proof HS as [Lns Lbx Lev Ldr Hnode Hhold Hval Hwk Hcnt]. cbn [nodes boxes events draining] in *.
  destruct (Hnode i s Hs) as [Hid Hw Hb _]. pose proof (Hhold i m Hm) as Hh.
  assert (i < n)%nat as Hi by (rewrite <- Lns; by eapply lookup_lt_Some).
  destruct (qs i) as [|f0 q] eqn:Hqs; [by rewrite (pop_empty m _ _ Hh) in Hp|].
  pose proof Hp as Hp'. rewrite (pop_spec m _ _ f0 q Hh) in Hp'. injection Hp' as Em <-. exists q. split; [done|].
  pose proof (Hval i Hi) as Hvi. rewrite Hqs in Hvi. apply Forall_cons_1 in Hvi as [[Hsl _] Hvq].
  destruct Hinv as [[Hg _ _ _ _ _ _ _] Ht _ _]. cbn [nodes boxes events draining] in *.
  destruct (dispatch_any (worker (attach (<[i := m']> bx) s)) tb (ShardInbox.subject f0)
    (ShardInbox.reply_to f0) (ShardInbox.payload f0)) as (w1 & r & E1 & Hg1 & Hio & _);
    [by destruct Hg|done..|]. rewrite E in E1. injection E1 as <- <-.
  destruct Hio as [Hi1 _ _ _ _ Hi2 Hi3 _]. cbn in Hi1, Hi2, Hi3.
  constructor; cbn; try done.
  - by rewrite length_insert.
  - by rewrite length_insert.
  - intros j s0. destruct (decide (i = j)) as [<-|Hne].
    + rewrite list_lookup_insert_eq by (by eapply lookup_lt_Some). intros [= <-].
      constructor; cbn; [congruence|congruence|by rewrite Hi2, length_insert|].
      eapply rtc_r; [exact Hr|]. eapply step_exchange, (exchange_drain _ _ _ f0 m (ks i) (hs i) q m' w' res);
        cbn; rewrite ?Hid, ?Nat2Z.id; done.
    + rewrite list_lookup_insert_ne by done. apply Hnode.
  - intros j m0. destruct (decide (i = j)) as [<-|Hne].
    + rewrite list_lookup_insert_eq by (by eapply lookup_lt_Some). intros [= <-].
      rewrite !fn_lookup_insert, <- Em. by eapply holds_popped.
    + rewrite list_lookup_insert_ne, !fn_lookup_insert_ne by done. apply Hhold.
  - intros j Hj. destruct (decide (i = j)) as [<-|Hne]; [by rewrite fn_lookup_insert|].
    rewrite fn_lookup_insert_ne by done. auto.
  - intros j Hj Hne' Hdj. destruct (decide (i = j)) as [<-|Hne]; [congruence|].
    rewrite fn_lookup_insert_ne in Hne' by done. auto.
Qed.

Lemma server_inv_idle ks hs qs ns bx evs dr i m m' :
  server_inv ks hs qs (mkServer ns bx evs dr) -> bx !! i = Some m -> pop m = Done (m', None) ->
  qs i = [] /\ m' = m /\ server_inv ks hs qs (mkServer ns (<[i := m']> bx) evs (<[i := false]> dr)).
Proof.
  intros HS Hm Hp. pose proof HS as [Lns Lbx Lev Ldr Hnode Hhold Hval Hwk Hcnt]. cbn [nodes boxes events draining] in *.
  pose proof (Hhold i m Hm) as Hh. destruct (qs i) as [|f0 q] eqn:Hqs;
    [|by rewrite (pop_spec m _ _ f0 q Hh) in Hp].
  rewrite (pop_empty m _ _ Hh) in Hp. injection Hp as <-. split_and!; [done..|].
  rewrite list_insert_id by done. constructor; cbn; try done; [by rewrite length_insert|].
  intros j Hj Hne Hd. destruct (decide (i = j)) as [<-|Hij]; [congruence|].
  rewrite list_lookup_insert_ne in Hd by done. auto.
Qed.

Lemma server_inv_wake ks hs qs ns bx evs dr i :
  server_inv ks hs qs (mkServer ns bx evs dr) ->
  server_inv ks hs qs (mkServer ns bx (<[i := 0]> evs) (<[i := true]> dr)).
Proof.
  intros [Lns Lbx Lev Ldr Hnode Hhold Hval Hwk Hcnt]. cbn in *.
  constructor; cbn; try done; try by rewrite length_insert.
  - intros j Hj Hne Hd. destruct (decide (i = j)) as [<-|Hij].
    + apply list_lookup_insert_Some in Hd as [(_ & ? & _)|[? _]]; done.
    + rewrite list_lookup_insert_ne in Hd by done. rewrite list_lookup_insert_ne by done. auto.
  - intros j v. destruct (decide (i = j)) as [<-|Hij].
    + intros [(_ & <- & _)|[? _]]%list_lookup_insert_Some; done.
    + rewrite list_lookup_insert_ne by done. apply Hcnt.
Qed.

Lemma server_inv_step ks hs qs S S' :
  server_inv ks hs qs S -> server_step S S' -> exists hs' qs', server_inv ks hs' qs' S'.
Proof.
  intros HS Hstep. destruct Hstep.
  - edestruct server_inv_task as (qs' & ? & _); eauto.
  - eauto using server_inv_wake.
  - edestruct server_inv_drain as (q & _ & ?); eauto.
  - edestruct server_inv_idle as (_ & _ & ?); eauto.
Qed.

Lemma server_inv_initial :
  server_inv (fun _ => kbox) (fun _ => 0) (fun _ => []) (server_initial scratch box n).
Proof.
  unfold server_initial. constructor; cbn; try by rewrite ?length_fmap, ?length_seq, ?length_replicate.
  - intros i s Hs. rewrite list_lookup_fmap in Hs. apply fmap_Some in Hs as (j & Hj & ->).
    apply lookup_seq in Hj as [-> Hj]. constructor; cbn; rewrite ?length_replicate; done.
  - intros i m Hm. apply lookup_replicate in Hm as [<- _]. done.
  - intros i v Hv. apply lookup_replicate in Hv as [<- _]. done.
Qed.

Lemma server_reachable S :
  rtc server_step (server_initial scratch box n) S -> exists hs qs, server_inv (fun _ => kbox) hs qs S.
Proof.
  intros Hs. assert (forall S0 hs qs, server_inv (fun _ => kbox) hs qs S0 -> rtc server_step S0 S ->
    exists hs' qs', server_inv (fun _ => kbox) hs' qs' S) as Hrun.
  { intros S0 hs qs H0 Hr. revert hs qs H0. induction Hr as [S0|S0 S1 S2 H01 _ IH]; intros hs qs H0; [eauto|].
    destruct (server_inv_step _ _ _ _ _ H0 H01) as (hs1 & qs1 & H1). eauto. }
  eapply Hrun; [exact server_inv_initial|done].
Qed.

(* ------------------------------------------------------------------ *)
(** * Emptying the inboxes *)

(** The frames [q], dispatched one after the other to the connections of the
    worker [w], whose trie stands for [tb]: each reaches its matches once and
    one member of each matching queue group of this shard. *)
Inductive served (w : Worker N) (tb : TrieSpec.table) :
    list PublishedFrame -> gmap Rc (ConnectionState N) -> gmap Rc (ConnectionState N) -> Prop :=
| served_nil h : served w tb [] h h
| served_cons f q h h1 h2 toks plain picks :
    parse_publisher_subject (ShardInbox.subject f) = Ok toks ->
    plain ≡ₚ plain_of (table_match toks tb) -> choice (table_match toks tb) picks ->
    (forall rc, h1 !! rc = (fun st => enqueue_all st (mail (ShardInbox.subject f) (ShardInbox.reply_to f)
      (ShardInbox.payload f) w rc (id st) (plain ++ picks.*2))) <$> h !! rc) ->
    served w tb q h1 h2 -> served w tb (f :: q) h h2.

(** What draining leaves of a shard as it was. *)
Record drained (s : Shard N) (q : list PublishedFrame) (s' : Shard N) : Prop := {
  dn_readers : readers s' = readers s;
  dn_writers : writers s' = writers s;
  dn_table : table (worker s') = table (worker s);
  dn_conns : connections (worker s') = connections (worker s);
  dn_scratch : len (emit_scratch (worker s')) = len (emit_scratch (worker s));
  dn_served : forall tb, refines (table (worker s)) tb ->
    served (worker s) tb q (heap (worker s)) (heap (worker s'));
}.

Lemma served_ext w w' tb q h h' :
  connections w' = connections w -> len (emit_scratch w') = len (emit_scratch w) ->
  served w' tb q h h' -> served w tb q h h'.
Proof.
  intros Hc Hl Hs. induction Hs as [h|f q h h1 h2 toks plain picks Hp Hpl Hpi Hh _ IH]; [constructor|].
  econstructor; [done..| |exact IH]. intros rc. rewrite Hh. unfold mail. by rewrite Hc, Hl.
Qed.
Lemma served_app w tb q1 q2 h h1 h2 :
  served w tb q1 h h1 -> served w tb q2 h1 h2 -> served w tb (q1 ++ q2) h h2.
Proof. intros H1 H2. induction H1; [done|]. cbn. econstructor; eauto. Qed.

Lemma drained_nil s : drained s [] s.
Proof. constructor; try done. intros tb _. constructor. Qed.
Lemma drained_app s q1 s1 q2 s2 : drained s q1 s1 -> drained s1 q2 s2 -> drained s (q1 ++ q2) s2.
Proof.
  intros [] []. constructor; try congruence. intros tb Ht. eapply served_app; [eauto|].
  eapply (served_ext _ (worker s1)); [done..|]. apply dn_served1. congruence.
Qed.

(** A dispatch on the shard is a frame served. *)
Lemma drained_dispatch s w w' f tb toks plain picks :
  refines (table w) tb -> parse_publisher_subject (ShardInbox.subject f) = Ok toks ->
  plain ≡ₚ plain_of (table_match toks tb) -> choice (table_match toks tb) picks -> keeps w w' ->
  delivered (ShardInbox.subject f) (ShardInbox.reply_to f) (ShardInbox.payload f) w w' (plain ++ picks.*2) ->
  (exists bx ks, w = set_kicks (set_peer_inboxes (worker s) bx) ks) ->
  drained s [f] (mkShard w' (readers s) (writers s)).
Proof.
  intros Ht Hp Hpl Hpi Hk Hde (bx & ks & ->). destruct Hk. constructor; try done. intros tb' Ht'.
  assert (table_match toks tb ≡ₚ table_match toks tb') as Hm
    by (by rewrite <- (refines_matches _ _ toks Ht), <- (refines_matches _ _ toks Ht')).
  eapply (served_cons _ _ f [] _ (heap w') _ toks plain picks); [done| | |exact Hde|constructor].
  - rewrite Hpl. unfold plain_of. by rewrite Hm.
  - by eapply choice_perm.
Qed.

(** Two server states that differ in shard [i] at most. *)
Record elsewhere (i : nat) (S S' : Server) : Prop := {
  el_node : forall j, j <> i -> nodes S' !! j = nodes S !! j;
  el_drain : forall j, j <> i -> draining S' !! j = draining S !! j;
}.

(** One frame: the pop and the dispatch both succeed, and the subject is one
    that the publishing shard accepted. *)
Lemma drain_frame ks hs qs S i s f q :
  server_inv ks hs qs S -> nodes S !! i = Some s -> draining S !! i = Some true -> qs i = f :: q ->
  exists S' s', server_step S S' /\ nodes S' !! i = Some s' /\ draining S' !! i = Some true /\
    drained s [f] s' /\ elsewhere i S S' /\ server_inv ks (<[i := hs i + 1]> hs) (<[i := q]> qs) S'.
Proof.
  intros HS Hs Hd Hq. destruct (node_attach _ _ _ _ _ _ HS Hs) as (_ & tb & Hinv).
  assert (i < n)%nat as Hi by (rewrite <- (si_nodes _ _ _ _ HS); by eapply lookup_lt_Some).
  destruct S as [ns bx evs dr]. cbn [nodes boxes events draining] in *.
  destruct (lookup_lt_is_Some_2 bx i) as [m Hm]; [by rewrite (si_boxes _ _ _ _ HS : length bx = n)|].
  pose proof (si_hold _ _ _ _ HS i m Hm) as Hh. rewrite Hq in Hh.
  pose proof (si_valid _ _ _ _ HS i Hi) as Hv. rewrite Hq in Hv.
  apply Forall_cons_1 in Hv as [[Hsl [toks Hp]] _]. pose proof (pop_spec m _ _ f q Hh) as Epop.
  destruct Hinv as [[Hg _ _ _ _ _ _ _] Ht _ _].
  set (bx' := <[i := popped m (ks i) (hs i)]> bx).
  destruct (dispatch_local_ok (ShardInbox.subject f) (ShardInbox.reply_to f) (ShardInbox.payload f) Hsl
    (worker (attach bx' s)) tb toks) as (w' & plain & picks & E & Hpl & Hpi & [_ Hio Hde]);
    [by destruct Hg|done..|].
  eexists _, _. split_and!; [by eapply server_drain|..].
  - cbn. apply list_lookup_insert_eq. by eapply lookup_lt_Some.
  - done.
  - eapply (drained_dispatch s (worker (attach bx' s))); [exact Ht|done..|by apply only_io_keeps|exact Hde|by eexists _, _].
  - split; cbn; intros j Hj; [by rewrite list_lookup_insert_ne|done].
  - destruct (server_inv_drain ks hs qs ns bx evs dr i s m _ f w' (Ok tt) HS Hd Hs Hm Epop E)
      as (q' & Hq' & HS'). rewrite Hq in Hq'. by injection Hq' as <-.
Qed.

(** [qs] with the queue of shard [i] emptied. *)
Definition emptied (i : nat) (qs qs' : nat -> list PublishedFrame) : Prop :=
  qs' i = [] /\ forall j, j <> i -> qs' j = qs j.

(** One wake-up of a drain task: the whole queue of shard [i], in order. *)
Lemma drain_loop ks hs qs S i s :
  server_inv ks hs qs S -> nodes S !! i = Some s -> draining S !! i = Some true ->
  exists S' s' hs' qs', rtc server_step S S' /\ nodes S' !! i = Some s' /\ draining S' !! i = Some false /\
    drained s (qs i) s' /\ elsewhere i S S' /\ emptied i qs qs' /\ server_inv ks hs' qs' S'.
Proof.
  remember (qs i) as q eqn:Hq. revert hs qs S s Hq. induction q as [|f q IH]; intros hs qs S s Hq HS Hs Hd.
  - assert (i < length (boxes S))%nat as Hi.
    { rewrite (si_boxes _ _ _ _ HS), <- (si_nodes _ _ _ _ HS). by eapply lookup_lt_Some. }
    destruct (lookup_lt_is_Some_2 _ _ Hi) as [m Hm].
    pose proof (si_hold _ _ _ _ HS i m Hm) as Hh. rewrite <- Hq in Hh.
    pose proof (pop_empty m _ _ Hh) as Ep. destruct S as [ns bx evs dr]. cbn [nodes boxes events draining] in *.
    destruct (server_inv_idle _ _ _ _ _ _ _ i m m HS Hm Ep) as (_ & _ & HS').
    eexists _, s, hs, qs. split_and!; [by eapply rtc_once, server_idle|done|..].
    + cbn. apply list_lookup_insert_eq. by eapply lookup_lt_Some.
    + apply drained_nil.
    + split; cbn; intros j Hj; [done|by rewrite list_lookup_insert_ne].
    + by split.
    + done.
  - destruct (drain_frame ks hs qs S i s f q) as (S1 & s1 & H1 & Hs1 & Hd1 & Hdr & He1 & HS1); [done..|].
    edestruct (IH _ _ _ s1 ltac:(by rewrite fn_lookup_insert) HS1) as (S2 & s2 & hs2 & qs2 & H2 & Hs2 & Hd2 & Hdr2 & He2 & [Hq2 Hq2'] & HS2);
      [done..|].
    exists S2, s2, hs2, qs2. split_and!; [by eapply rtc_l|done..| | | |done].
    + by eapply (drained_app s [f]).
    + destruct He1 as [E1 F1], He2 as [E2 F2]. split; intros j Hj; [rewrite E2|rewrite F2]; auto.
    + split; [done|]. intros j Hj. by rewrite Hq2', fn_lookup_insert_ne.
Qed.

(** A shard with a non-empty inbox wakes up, or is awake. *)
Lemma drain_shard ks hs qs S i s :
  server_inv ks hs qs S -> nodes S !! i = Some s ->
  exists S' s' hs' qs', rtc server_step S S' /\ nodes S' !! i = Some s' /\
    drained s (qs i) s' /\ elsewhere i S S' /\ emptied i qs qs' /\ server_inv ks hs' qs' S'.
Proof.
  intros HS Hs.
  assert (i < n)%nat as Hi by (rewrite <- (si_nodes _ _ _ _ HS); by eapply lookup_lt_Some).
  destruct (lookup_lt_is_Some_2 (draining S) i) as [[] Hd]; [by rewrite (si_draining _ _ _ _ HS)|..].
  { destruct (drain_loop _ _ _ _ _ _ HS Hs Hd) as (S' & s' & hs' & qs' & ? & ? & _ & ? & ? & ? & ?).
    by exists S', s', hs', qs'. }
  destruct (qs i) as [|f q] eqn:Hq.
  { exists S, s, hs, qs. split_and!; try done. apply drained_nil. }
  destruct (si_wake _ _ _ _ HS i Hi) as (v & Hv & Hpos); [by rewrite Hq|done|].
  destruct S as [ns bx evs dr]. cbn [nodes boxes events draining] in *.
  pose proof (server_inv_wake _ _ _ _ _ _ _ i HS) as HS1.
  edestruct (drain_loop _ _ _ _ i s HS1) as (S' & s' & hs' & qs' & Hr & ? & _ & Hdn & [E1 E2] & ? & ?);
    [done|cbn; apply list_lookup_insert_eq; by eapply lookup_lt_Some|].
  rewrite Hq in Hdn. exists S', s', hs', qs'. split_and!; try done.
  - eapply rtc_l; [by eapply server_wake|exact Hr].
  - split; cbn; intros j Hj; [by rewrite E1|]. rewrite E2 by done. cbn. by rewrite list_lookup_insert_ne.
Qed.

(** All shards, one after the other. *)
Lemma drain_all ks hs qs S k :
  server_inv ks hs qs S -> (k <= n)%nat ->
  exists S' hs' qs', rtc server_step S S' /\ server_inv ks hs' qs' S' /\
    (forall j, qs' j = if decide (j < k)%nat then [] else qs j) /\
    (forall j s, nodes S !! j = Some s -> exists s', nodes S' !! j = Some s' /\
      drained s (if decide (j < k)%nat then qs j else []) s').
Proof.
  intros HS. induction k as [|k IH]; intros Hk.
  { exists S, hs, qs. split_and!; [done|done|done|]. intros j s Hs. exists s. split; [done|]. apply drained_nil. }
  destruct (IH ltac:(lia)) as (S1 & hs1 & qs1 & Hr1 & HS1 & Hq1 & Hn1).
  destruct (lookup_lt_is_Some_2 (nodes S1) k) as [s1 Hs1]; [by rewrite (si_nodes _ _ _ _ HS1)|].
  destruct (drain_shard _ _ _ _ _ _ HS1 Hs1) as (S2 & s2 & hs2 & qs2 & Hr2 & Hs2 & Hd2 & [El _] & [Hq2 Hq2'] & HS2).
  pose proof (Hq1 k) as Hk1. rewrite decide_False in Hk1 by lia.
  exists S2, hs2, qs2. split_and!; [by etransitivity|done|..].
  - intros j. destruct (decide (j = k)) as [->|Hne]; [by rewrite decide_True by lia|].
    rewrite Hq2', Hq1 by done. by repeat case_decide; try lia.
  - intros j s Hs. destruct (Hn1 j s Hs) as (s' & Hs' & Hd). destruct (decide (j = k)) as [->|Hne].
    + rewrite Hs1 in Hs'. injection Hs' as <-. exists s2. split; [done|]. rewrite decide_True by lia.
      rewrite decide_False in Hd by lia. rewrite Hk1 in Hd2. by apply (drained_app s [] s1).
    + exists s'. rewrite El by done. split; [done|]. by repeat case_decide; try lia.
Qed.

(* ------------------------------------------------------------------ *)
(** * A publication, from the reader to every shard *)

(** What the task that handles a valid [PUB] does: its own subscribers get the
    message, and it is queued for every other shard, which are woken. *)
Lemma pub_task ks hs qs S i s rc subs subject reply payload toks weak :
  server_inv ks hs qs S -> nodes S !! i = Some s -> readers s !! rc = Some (RLoop subs) ->
  frame_wf (Frame.Pub subject reply payload) -> len payload <= MAX_PAYLOAD_BYTES ->
  parse_publisher_subject subject = Ok toks -> (forall j, (j < n)%nat -> j <> i -> len (qs j) < 2 ^ ks j) ->
  let f := mkPublished subject reply payload in
  exists w', handle_frame weak (Frame.Pub subject reply payload) rc subs (worker (attach (boxes S) s)) =
      Done (w', subs) /\
    drained s [f] (mkShard w' (readers s) (writers s)) /\
    all_hold w' ks hs (fun j => if decide (j = i) then qs j else qs j ++ [f]).
Proof.
  intros HS Hs Hrd Hf Hlen Hp Hroom f.
  destruct (node_attach _ _ _ _ _ _ HS Hs) as (_ & tb & [[Hg _ _ _ _ Hre _ _] Ht _ _]).
  assert (i < n)%nat as Hi by (rewrite <- (si_nodes _ _ _ _ HS); by eapply lookup_lt_Some).
  destruct (Hre rc) as (st & Hst & _); [by eexists|]. destruct Hf as (_ & _ & Hsl).
  destruct (si_node _ _ _ _ HS i s Hs) as [Hid _ _ _].
  destruct (handle_pub_ok subject reply payload Hsl weak _ rc tb toks ks hs qs Hg ltac:(by eexists) Ht Hp)
    as (w1 & plain & picks & w2 & Hpl & Hpi & [_ Hio Hde] & E & Hone & Hmany & _ & Hk & _);
    [intros j m Hm; by apply (si_hold _ _ _ _ HS)|].
  assert (shard_count (worker (attach (boxes S) s)) = Z.of_nat n) as Hc
    by (unfold shard_count, len; cbn; by rewrite (si_boxes _ _ _ _ HS)).
  assert (heap w2 = heap w1 /\
    all_hold w2 ks hs (fun j => if decide (j = i) then qs j else qs j ++ [f])) as [Hh2 Ha2].
  { destruct (Z.le_gt_cases (Z.of_nat n) 1) as [H1|H1].
    - rewrite (Hone ltac:(lia)). split; [done|]. intros j m. rewrite (oio_inboxes _ _ Hio). cbn. intros Hm.
      pose proof (lookup_lt_Some _ _ _ Hm) as Hj. rewrite (si_boxes _ _ _ _ HS) in Hj.
      rewrite decide_True by lia. by apply (si_hold _ _ _ _ HS).
    - destruct (Hmany ltac:(lia)) as (Ha & _ & Hh & Hl). split.
      + rewrite Hh. replace (refused _ _ _ _) with false; [done|]. symmetry.
        apply not_true_iff_false. intros (j & Hj & Hb)%existsb_exists. apply andb_true_iff in Hb as [Hb1 Hb2].
        apply negb_true_iff, Z.eqb_neq in Hb1. apply Z.leb_le in Hb2. apply list_elem_of_In in Hj.
        unfold peers in Hj. apply elem_of_seq in Hj. cbn in Hj, Hb1. rewrite (si_boxes _ _ _ _ HS) in Hj.
        specialize (Hroom j ltac:(lia) ltac:(lia)). lia.
      + intros j m Hm. pose proof (lookup_lt_Some _ _ _ Hm) as Hj. rewrite Hl in Hj. cbn in Hj.
        specialize (Ha j m Hm). unfold offers in Ha. rewrite (si_boxes _ _ _ _ HS) in Hj.
        case_bool_decide as Hb; cbn in Hb.
        * rewrite decide_False by (destruct Hb; lia). unfold offer in Ha.
          by rewrite (proj2 (Z.ltb_lt _ _)) in Ha by (apply Hroom; lia).
        * rewrite decide_True; [done|]. destruct (decide (j = i)) as [|Hne]; [done|]. destruct Hb.
          split; [|lia]. unfold peers. apply elem_of_seq. cbn. rewrite (si_boxes _ _ _ _ HS). lia. }
  exists w2. split_and!; [|by eapply drained_dispatch; [exact Ht|done..|by intros rc'; rewrite Hh2|by eexists _, _]|done].
  cbn [handle_frame]. rewrite (proj2 (Z.ltb_ge _ _)) by done. erewrite M_bind_done; [reflexivity|exact E].
Qed.

(** A ring holds one queue only. *)
Lemma holds_fun (m : ShardInbox PublishedFrame) k h h' q q' : holds m k h q -> holds m k h' q' -> q = q'.
Proof.
  revert m h h' q'. induction q as [|f q IH]; intros m h h' [|f' q'] H H'; [done|..].
  - pose proof (pop_empty _ _ _ H) as E. by rewrite (pop_spec _ _ _ _ _ H') in E.
  - pose proof (pop_empty _ _ _ H') as E. by rewrite (pop_spec _ _ _ _ _ H) in E.
  - pose proof (pop_spec _ _ _ _ _ H) as E. rewrite (pop_spec _ _ _ _ _ H') in E. assert (popped m k h' = popped m k h /\ f' = f) as [Em ->] by (split; congruence).
    apply holds_popped in H, H'. rewrite Em in H'. f_equal. by eapply IH.
Qed.

(* ------------------------------------------------------------------ *)
(** * Properties *)

(** The inbox of shard [i] holds [q]. *)
Definition inbox_holds (S : Server) (i : nat) (q : list PublishedFrame) : Prop :=
  exists m h, boxes S !! i = Some m /\ holds m kbox h q.


End Server.
