(* ===== verification/ServerRun.v ===== *)
(** Scripted runs of the whole server: an executable form of the steps of
    [Server], sound for them, and two shards driven through it from the bytes
    clients send to the bytes they are sent. *)
From Stdlib Require Import ZArith Lia Strings.Byte.
From stdpp Require Import base gmap list strings relations.
From S2P Require Import Prelude Subject Trie TrieSpec ConnState ShardInbox EventFd Wire Parse Emit Worker Dispatch DispatchSpec Session SessionSpec Broker Server.

Definition finished {A} (r : run A) : option A := match r with Done a => Some a | Panic => None end.

Section Script.
Context `{N : Notify}.
Variables (capacity buffer_size : Z).

(** What may happen on a shard: a client connects, is greeted, sends one
    frame; the drain task reads the eventfd, takes a frame, finds none. *)
Inductive event : Type :=
| Accept (rc : Rc)
| Greet (rc : Rc)
| Input (rc : Rc) (text : bytes)
| Wake
| Drain
| Idle.

Definition run_task (e : event) (s : Shard N) : option (Shard N) :=
  let w := worker s in
  match e with
  | Accept rc =>
      if bool_decide (heap w !! rc = None) && (next_conn_id w <? u32_max) && (0 <=? buffer_size) then
        r ← finished (accept capacity true true rc w);
        match r.2 with
        | Some rc' => if bool_decide (rc' = rc) then
            Some (mkShard r.1 (<[rc := RGreet]> (readers s)) (<[rc := (WWait, zeroed buffer_size)]> (writers s)))
            else None
        | None => None
        end
      else None
  | Greet rc =>
      match readers s !! rc with
      | Some RGreet =>
          r ← finished (reader_greet rc w);
          Some (mkShard r.1 (if r.2 : bool then <[rc := RLoop ∅]> (readers s) else delete rc (readers s)) (writers s))
      | _ => None
      end
  | Input rc text =>
      match readers s !! rc, parse_frame text with
      | Some (RLoop subs), Done (ParseOutcome.Frame f _) =>
          if (len text <=? isize_max) && (total_subscriptions (table w) <? usize_max) then
            r ← finished (handle_frame (fun _ => []) f rc subs w);
            Some (mkShard r.1 (<[rc := RLoop r.2]> (readers s)) (writers s))
          else None
      | _, _ => None
      end
  | _ => None
  end.

(** Tasks of one shard in a row. *)
Fixpoint run_tasks (s : Shard N) (script : list event) : option (Shard N) :=
  match script with
  | [] => Some s
  | e :: script => s' ← run_task e s; run_tasks s' script
  end.

Definition run_event (S : @Server N) (ie : nat * event) : option Server :=
  let i := ie.1 in
  s ← nodes S !! i;
  draining_i ← draining S !! i;
  m ← boxes S !! i;
  match ie.2, draining_i with
  | Wake, false =>
      n ← events S !! i;
      if 0 <? n then Some (mkServer (nodes S) (boxes S) (<[i := 0]> (events S)) (<[i := true]> (draining S)))
      else None
  | Drain, true =>
      p ← finished (pop m);
      match p.2 with
      | Some f =>
          r ← finished (dispatch_local (ShardInbox.subject f) (ShardInbox.reply_to f) (ShardInbox.payload f)
            (worker (attach (<[i := p.1]> (boxes S)) s)));
          Some (mkServer (<[i := mkShard r.1 (readers s) (writers s)]> (nodes S)) (<[i := p.1]> (boxes S))
            (events S) (draining S))
      | None => None
      end
  | Idle, true =>
      p ← finished (pop m);
      match p.2 with
      | Some _ => None
      | None => Some (mkServer (nodes S) (<[i := p.1]> (boxes S)) (events S) (<[i := false]> (draining S)))
      end
  | e, false =>
      s' ← run_task e (attach (boxes S) s);
      Some (mkServer (<[i := s']> (nodes S)) (peer_inboxes (worker s'))
        (wake_all (kicks (worker s')) (events S)) (draining S))
  | _, _ => None
  end.

Fixpoint run_script (S : Server) (script : list (nat * event)) : option Server :=
  match script with
  | [] => Some S
  | ie :: script => S' ← run_event S ie; run_script S' script
  end.

Lemma finished_Some {A} (r : run A) a : finished r = Some a -> r = Done a.
Proof. destruct r; [by intros [= ->]|done]. Qed.

Abbreviation any := (fun (_ : Subscriptions) (_ : Frame.t) => True).

Lemma run_task_sound_in (P : Subscriptions -> Frame.t -> Prop) e s s' :
  (forall rc text subs f c, e = Input rc text -> parse_frame text = Done (ParseOutcome.Frame f c) -> P subs f) ->
  run_task e s = Some s' -> task capacity buffer_size P s s'.
Proof.
  intros HP. destruct s as [w rs ws], e; cbn [run_task worker readers writers]; try discriminate.
  - case_bool_decide; [|done]. destruct (Z.ltb_spec (next_conn_id w) u32_max); [|done].
    destruct (Z.leb_spec 0 buffer_size); [|done]. cbn [andb].
    intros ([w' o] & Ea%finished_Some & E)%bind_Some. cbn in E. destruct o as [rc'|]; [|done].
    case_bool_decide; [|done]. subst. injection E as <-. apply task_accept; [done..| |done]. by apply len_zeroed.
  - destruct (rs !! rc) as [[|]|] eqn:Hr; try done.
    intros ([w' go] & Ea%finished_Some & [= <-])%bind_Some. by apply (task_greet _ _ _ w rs ws rc w' go).
  - destruct (rs !! rc) as [[|subs]|] eqn:Hr; try done. destruct (parse_frame text) as [[f c| |]|] eqn:Ep; try done.
    destruct (Z.leb_spec (len text) isize_max) as [Hl|]; [|done].
    destruct (Z.ltb_spec (total_subscriptions (table w)) usize_max); [|done]. cbn [andb].
    intros ([w' subs'] & Ea%finished_Some & [= <-])%bind_Some.
    eapply (task_frame _ _ _ w rs ws rc subs f _ w' subs'); [done| |by eapply HP|done..].
    by eapply parse_frame_inv.
Qed.
Lemma run_task_sound e s s' : run_task e s = Some s' -> task capacity buffer_size any s s'.
Proof. by apply run_task_sound_in. Qed.

Lemma run_tasks_sound s script s' :
  run_tasks s script = Some s' -> rtc (step capacity buffer_size any) s s'.
Proof.
  revert s. induction script as [|e script IH]; intros s; cbn; [by intros [= ->]|].
  intros (s1 & E1%run_task_sound & E2)%bind_Some. eapply rtc_l; [by apply step_task|auto].
Qed.

Lemma run_event_sound S ie S' : run_event S ie = Some S' -> server_step capacity buffer_size any S S'.
Proof.
  destruct S as [ns bx evs dr], ie as [i e]. unfold run_event. cbn [nodes boxes events draining fst snd].
  intros (s & Hs & E)%bind_Some. apply bind_Some in E as (d & Hd & E). apply bind_Some in E as (m & Hm & E).
  assert (forall e, (s' ← run_task e (attach bx s);
      Some (mkServer (<[i := s']> ns) (peer_inboxes (worker s')) (wake_all (kicks (worker s')) evs) dr)) = Some S' ->
    d = false -> server_step capacity buffer_size any (mkServer ns bx evs dr) S') as Htask.
  { intros e' (s' & Et%run_task_sound & [= <-])%bind_Some ->. by eapply server_task. }
  destruct e, d; try discriminate; try by eapply Htask.
  - apply bind_Some in E as (n & Hn & E). destruct (Z.ltb_spec 0 n); [|done]. injection E as <-.
    by eapply server_wake.
  - apply bind_Some in E as ([m' [f|]] & Hp%finished_Some & E); [|done].
    apply bind_Some in E as ([w' res] & Ed%finished_Some & [= <-]). by eapply server_drain.
  - apply bind_Some in E as ([m' [f|]] & Hp%finished_Some & E); [done|]. injection E as <-.
    by eapply server_idle.
Qed.

Lemma run_script_sound S script S' :
  run_script S script = Some S' -> rtc (server_step capacity buffer_size any) S S'.
Proof.
  revert S. induction script as [|ie script IH]; intros S; cbn; [by intros [= ->]|].
  intros (S1 & E1%run_event_sound & E2)%bind_Some. eapply rtc_l; eauto.
Qed.
End Script.

(* ------------------------------------------------------------------ *)
(** * Two shards *)

Module Two.
#[local] Existing Instance permit_notify.
Definition start : @Server permit_notify := server_initial 64 Ex.inbox 2.
Definition line (s : string) : bytes := bs s ++ CRLF.

(** One client connects to each shard and joins queue group [g] on [a]. *)
Definition joins : list (nat * event) :=
  [(0, Accept 0); (0, Greet 0); (1, Accept 0); (1, Greet 0);
   (0, Input 0 (line "SUB a g 7")); (1, Input 0 (line "SUB a g 8"))]%nat.
(** The first one publishes once and shard 1 drains its inbox. *)
Definition publishes : list (nat * event) :=
  [(0, Input 0 (line "PUB a 2" ++ line "hi")); (1, Wake); (1, Drain); (1, Idle)]%nat.

Definition or_start (r : option (@Server permit_notify)) : @Server permit_notify := default start r.
Definition joined := or_start (run_script 256 64 start joins).
Definition published := or_start (run_script 256 64 joined publishes).

(** What shard [i]'s client is yet to be sent. *)
Definition outbox (S : @Server permit_notify) (i : nat) : option bytes :=
  s ← nodes S !! i; st ← heap (worker s) !! 0%nat; Some (pending st).

Abbreviation reaches := (rtc (server_step 256 64 (fun _ _ => True))).

Lemma joined_reached : reaches start joined.
Proof. apply (run_script_sound 256 64 start joins). by vm_compute. Qed.
Lemma published_reached : reaches joined published.
Proof. apply (run_script_sound 256 64 joined publishes). by vm_compute. Qed.

Definition node (i : nat) : Shard permit_notify := default (initial 64 0 []) (nodes joined !! i).
Lemma node_at i : (i < 2)%nat -> nodes joined !! i = Some (node i).
Proof. intros H. by destruct i as [|[|i]]; [vm_compute..|lia]. Qed.
Lemma boxes_empty i : (i < 2)%nat -> inbox_holds 1 joined i [].
Proof.
  intros H. exists Ex.inbox, 0. split; [|exact Ex.inbox_holds].
  by destruct i as [|[|i]]; [vm_compute..|lia].
Qed.
End Two.



