(* ===== verification/EndToEnd.v ===== *)
(** From socket to socket: the bytes one client sends, through the reader, the
    parser, the trie and the outbound buffer, to the bytes the writer hands to
    another client's socket. *)
From Stdlib Require Import ZArith Lia Strings.Byte.
From stdpp Require Import base gmap list strings relations.
From S2P Require Import Prelude Subject Trie TrieSpec ConnState ShardInbox Wire Parse Emit Codec Worker Dispatch DispatchSpec Session SessionSpec Broker ServerRun.

Section EndToEnd.
Context `{N : Notify}.
Variable weak : nat -> list bool.

(** A read that is exactly one frame. *)
Lemma reader_round_one rc f subs subs' (w w' : Worker N) st :
  frame_wf f -> len (encode f) <= MAX_FRAME_SIZE ->
  handle_frame weak f rc subs w = Done (w', subs') -> heap w' !! rc = Some st ->
  reader_round weak rc (encode f) [] subs w =
    Done (w', ([], subs', bool_decide (close_with st = None))).
Proof.
  intros Hf Hl E Hst. assert (slice_ok (encode f)) as Hok.
  { unfold slice_ok. assert (MAX_FRAME_SIZE <= isize_max) by by vm_compute. lia. }
  pose proof (parse_encode [] f Hf Hok) as Hp. cbv beta zeta in Hp. rewrite app_nil_r in Hp.
  destruct (parse_frame_inv _ _ _ Hok Hp) as (_ & _ & _ & _ & _ & H2 & _).
  assert (frames_loop weak (S (length (encode f))) rc (encode f) 0 subs w = Done (w', (len (encode f), subs'))) as El.
  { eapply frames_loop_step; [by apply slice_from_done; lens|exact Hp|].
    exists w', subs', (len (encode f)), st. split_and!; [done| |done|].
    - rewrite uadd_ok; [done|]. unfold slice_ok, isize_max in Hok. unfold usize_max. lia.
    - destruct (close_with st); [done|]. destruct (length (encode f)) eqn:Hn; [unfold len in H2; lia|].
      eapply frames_loop_step; [apply slice_from_full|done|done]. }
  unfold reader_round. destruct (encode f) as [|c text] eqn:Et; [by rewrite len_nil in H2|]. cbn [app].
  rewrite (proj2 (Z.ltb_ge _ _)) by done. mstep ltac:(exact El).
  rewrite (proj2 (Z.ltb_lt _ _)) by lia. mstep ltac:(unfold lift; rewrite slice_from_full; reflexivity).
  by mstep ltac:(unfold deref; rewrite Hst; reflexivity).
Qed.

(** The heap after a [PUB]: the subscribers' messages, and for the publisher
    possibly a [-ERR]. *)
Lemma pub_delivers rc subs (w : Worker N) tb subject toks reply payload :
  good w -> inboxes_ok w -> refines (table w) tb -> is_Some (heap w !! rc) ->
  frame_wf (Frame.Pub subject reply payload) -> len payload <= MAX_PAYLOAD_BYTES ->
  parse_publisher_subject subject = Ok toks ->
  exists w' plain picks, handle_frame weak (Frame.Pub subject reply payload) rc subs w = Done (w', subs) /\
    plain ≡ₚ plain_of (table_match toks tb) /\ choice (table_match toks tb) picks /\ good w' /\
    is_Some (heap w' !! rc) /\
    (forall rc', rc' <> rc -> heap w' !! rc' =
      (fun st => enqueue_all st (mail subject reply payload w rc' (id st) (plain ++ picks.*2))) <$> heap w !! rc').
Proof.
  intros Hg Hi Ht Hrc Hf Hl Hp. destruct (inboxes_all_hold w Hi) as (ks & hs & qs & Ha).
  destruct Hf as (_ & _ & Hsl).
  destruct (handle_pub_ok subject reply payload Hsl weak w rc tb toks ks hs qs Hg Hrc Ht Hp Ha)
    as (w1 & plain & picks & w' & Hpl & Hpi & [_ _ Hd] & E & Hone & Hmany & Hg' & _ & Hgr).
  exists w', plain, picks. split_and!; try done.
  - cbn [handle_frame]. rewrite (proj2 (Z.ltb_ge _ _)) by done. by mstep ltac:(exact E).
  - specialize (Hgr rc). destruct Hrc as [st Hst]. rewrite Hst in Hgr. destruct Hgr as (st' & _ & Hst' & _). by eexists.
  - intros rc' Hne. rewrite <- (Hd rc'). destruct (Z.le_gt_cases (shard_count w) 1) as [Hs|Hs].
    + by rewrite (Hone Hs).
    + destruct (Hmany ltac:(lia)) as (_ & _ & -> & _). destruct (refused _ _ _ _); [|done].
      unfold told. wsimpl. by rewrite lookup_alter_ne.
Qed.

Variables (capacity buffer_size scratch shard : Z) (boxes : list (ShardInbox PublishedFrame)).
Variable allowed : Subscriptions -> Frame.t -> Prop.
Context `{NL : !NotifyLaws N}.
Hypothesis Hcap : 0 <= capacity <= isize_max.
Hypothesis Hbuf : 64 <= buffer_size <= isize_max.
Hypothesis Hscratch : 0 <= scratch <= isize_max.
Hypothesis Hshard : 0 <= shard <= u32_max.
Hypothesis Hboxes : Forall (fun m => exists k h q, holds m k h q) boxes.

(** C8.  From socket to socket: in every reachable state of a shard, when the
    bytes of a valid [PUB] arrive on one connection, the reader consumes exactly
    them, and for every other live connection with a matching ungrouped
    subscription that has room, its waiting writer is woken and sends what was
    pending followed by the messages for that connection, the subscription's
    [MSG] among them, until nothing is left. *)
Theorem socket_to_socket (s : Shard N) tb rc subs rc' st p i buf subject toks reply payload :
  rtc (step capacity buffer_size allowed) (initial scratch shard boxes) s ->
  refines (table (worker s)) tb -> readers s !! rc = Some (RLoop subs) ->
  frame_wf (Frame.Pub subject reply payload) -> len payload <= MAX_PAYLOAD_BYTES ->
  len (encode (Frame.Pub subject reply payload)) <= MAX_FRAME_SIZE ->
  parse_publisher_subject subject = Ok toks ->
  rc' <> rc -> is_Some (readers s !! rc') -> writers s !! rc' = Some (WWait, buf) ->
  heap (worker s) !! rc' = Some st -> close_with st = None ->
  (p, mkSub (id st) i None) ∈ tb -> pattern_matches p toks = true ->
  len (msg subject reply payload i) <= len (emit_scratch (worker s)) ->
  exists w' go D,
    reader_round weak rc (encode (Frame.Pub subject reply payload)) [] subs (worker s) = Done (w', ([], subs, go)) /\
    let L := mail subject reply payload (worker s) rc' (id st) D in
    msg subject reply payload i ∈ L /\
    (outbound_tail st + len (concat L) <= outbound_capacity st ->
      forall fuel, (length (pending st ++ concat L) < fuel)%nat ->
      exists st1 st2, writer_step rc' true WWait buf w' = Done (put_cell w' rc' st1, (WDrain, buf, [])) /\
        writer_round fuel rc' buf (put_cell w' rc' st1) =
          Done (put_cell w' rc' st2, (WWait, pending st ++ concat L)) /\
        pending st2 = []).
Proof.
  intros Hs Ht Hrd Hf Hlp Hlf Hp Hne Hrd' Hws Hst Hc Hin Hm Hl.
  destruct (reachable_inv capacity buffer_size scratch shard boxes allowed Hcap Hbuf Hscratch Hshard Hboxes s Hs)
    as (tb0 & [Hb _ _ _] & _). pose proof Hb as [Hg Hi _ _ _ Hre _ Hwr].
  destruct (Hre rc) as (stp & Hstp & _); [by eexists|].
  destruct (pub_delivers rc subs (worker s) tb subject toks reply payload)
    as (w' & plain & picks & E & Hpl & _ & Hg' & [stp' Hstp'] & Hh); [done|done|done|by eexists|done..|].
  exists w', (bool_decide (close_with stp' = None)), (plain ++ picks.*2).
  split; [by apply reader_round_one|].
  assert (msg subject reply payload i ∈ mail subject reply payload (worker s) rc' (id st) (plain ++ picks.*2))
    as Hmsg by by eapply live_in_mail.
  split; [done|]. intros Hroom fuel Hfuel.
  specialize (Hh rc' Hne). rewrite Hst in Hh. cbn [fmap option_fmap option_map] in Hh.
  set (L := mail _ _ _ _ _ _ _) in *. pose proof (good_heap _ Hg _ _ Hst) as Hwf.
  destruct (enqueue_all_room L st Hwf Hc Hroom) as [Hpe Hce].
  destruct (Hwr rc' WWait buf Hws) as (Hbo & Hbl & st0 & Hst0 & Hok). rewrite Hst in Hst0. injection Hst0 as <-.
  destruct (enqueue_all_ok L st Hwf) as (acc & [Hwf' _ _ _ _ Hwk]). specialize (Hwk NL Hok).
  destruct (wait_for_event (enqueue_all st L)) as [st1|] eqn:Ew.
  2: { exfalso. assert (woken (notify_ (enqueue_all st L)) = true) as Hwo.
       { apply Hwk. left. rewrite Hpe. intros [_ Hn]%app_eq_nil. apply concat_nil_Forall in Hn.
         rewrite Forall_forall in Hn. by specialize (Hn _ Hmsg). }
       unfold woken in Hwo. apply bool_decide_eq_true in Hwo as [n Hn]. unfold wait_for_event in Ew.
       by rewrite Hn in Ew. }
  assert (wf st1 /\ pending st1 = pending st ++ concat L /\ close_with st1 = None) as (Hwf1 & Hp1 & Hc1).
  { unfold wait_for_event in Ew. apply fmap_Some in Ew as (n & _ & ->). split_and!; [by destruct Hwf'|done..]. }
  destruct (writer_round_spec fuel (put_cell w' rc' st1) rc' st1 buf Hwf1) as (st2 & E2 & _ & _ & _ & Hp2 & _);
    [unfold put_cell; wsimpl; by rewrite lookup_insert_eq|done|done|by rewrite Hp1|].
  exists st1, st2. rewrite (writer_wait w' rc' _ true buf Hh), Ew, E2, put_cell_twice, Hp1, Hc1.
  cbn [farewell]. by rewrite decide_True, app_nil_r.
Qed.
End EndToEnd.

(* ------------------------------------------------------------------ *)
(** * Two clients on one shard *)

Module Pair.
#[local] Existing Instance permit_notify.
(** The first client subscribes to [a.*]; the second will publish. *)
Definition script : list event :=
  [Accept 0; Greet 0; Input 0 (bs "SUB a.* 7" ++ CRLF); Accept 1; Greet 1].
Definition s : Shard permit_notify := default (initial 256 0 []) (run_tasks 512 64 (initial 256 0 []) script).
Lemma reached : rtc (step 512 64 (fun _ _ => True)) (initial 256 0 []) s.
Proof. apply (run_tasks_sound 512 64 _ script). by vm_compute. Qed.

Definition subs : list op := [OpSub (bs "a.*") (mkSub (ConnectionId.new 0) (bs "7") None)].
Lemma routes : refines (table (worker s)) (table_ops [] subs).
Proof.
  destruct (run_ops_refines subs Trie.new []) as (t & E & H & _); [apply refines_new|by vm_compute|].
  vm_compute in E. injection E as <-. exact H.
Qed.
Definition st : ConnectionState permit_notify :=
  enqueue_state (ConnState.new (ConnectionId.new 0) 512) (encode (Frame.Info SERVER_INFO_JSON)).
End Pair.

Lemma socket_to_socket_witness :
  exists w' go D,
    reader_round (fun _ => []) 1 (encode (Frame.Pub (bs "a.b") None (bs "hi"))) [] ∅ (worker Pair.s) =
      Done (w', ([], ∅, go)) /\
    let L := mail (bs "a.b") None (bs "hi") (worker Pair.s) 0 (id Pair.st) D in
    msg (bs "a.b") None (bs "hi") (bs "7") ∈ L /\
    (outbound_tail Pair.st + len (concat L) <= outbound_capacity Pair.st ->
      forall fuel, (length (pending Pair.st ++ concat L) < fuel)%nat ->
      exists st1 st2, writer_step 0 true WWait (zeroed 64) w' = Done (put_cell w' 0 st1, (WDrain, zeroed 64, [])) /\
        writer_round fuel 0 (zeroed 64) (put_cell w' 0 st1) =
          Done (put_cell w' 0 st2, (WWait, pending Pair.st ++ concat L)) /\
        pending st2 = []).
Proof.
  apply (socket_to_socket (N := permit_notify) (NL := permit_laws) (fun _ => []) 512 64 256 0 [] (fun _ _ => True)
    ltac:(done) ltac:(done) ltac:(done) ltac:(done) (List.Forall_nil _) Pair.s (table_ops [] Pair.subs) 1 ∅ 0 Pair.st
    (nth 0 (table_ops [] Pair.subs).*1 []) (bs "7") (zeroed 64) (bs "a.b") [bs "a"; bs "b"] None (bs "hi") Pair.reached Pair.routes).
  - by vm_compute.
  - by apply (parse_frame_inv (encode (Frame.Pub (bs "a.b") None (bs "hi"))) _ 15); vm_compute.
  - by vm_compute.
  - by vm_compute.
  - by vm_compute.
  - done.
  - eexists. by vm_compute.
  - by vm_compute.
  - by vm_compute.
  - by vm_compute.
  - by vm_compute; left.
  - by vm_compute.
  - by vm_compute.
Defined.
