(* ===== verification/InboxConc.v ===== *)
(** The cross-shard inbox under concurrency: any number of producers in
    [push] and the one drain task in [pop], each advancing by one atomic
    access at a time ([push_step], [pop_step]) under an arbitrary schedule,
    with the eventfd that wakes the drain task.

    The first part interleaves the accesses (sequential consistency).  The
    module [Tso] gives every thread the store buffer that the orderings of the
    code ([Release] stores followed by [Acquire] loads) allow. *)
From Stdlib Require Import ZArith Lia Strings.Byte.
From stdpp Require Import base gmap list strings.
From S2P Require Import Prelude ShardInbox EventFd.

(** Closes a goal about the owner of a position, whichever of its two accesses
    is being made. *)
Ltac by_stage :=
  match goal with H : _ /\ _ /\ _ /\ _ \/ _ |- _ => destruct H as [(?&?&?&?)|(?&?&?&?)] end;
  simplify_eq/=; rewrite ?decide_True by done; done.

(** [drain_task]: waiting for the eventfd, or inside [inbox.pop()]. *)
Inductive drain_pc (T : Type) : Type :=
| DWait
| DPop (pc : pop_pc T).
Arguments DWait {T}.
Arguments DPop {T} pc.

Lemma prefix_of_lookup {A} (l l' : list A) :
  (forall n a, l !! n = Some a -> l' !! n = Some a) -> l `prefix_of` l'.
Proof.
  intros H. exists (drop (length l) l'). rewrite <- (take_drop (length l) l') at 1. f_equal.
  apply list_eq. intros n. destruct (l !! n) as [a|] eqn:E.
  - rewrite lookup_take_lt by by eapply lookup_lt_Some. auto.
  - apply lookup_ge_None in E. by rewrite lookup_take_ge.
Qed.

Section System.
Context {T : Type}.

(** The three logs are history: the values of the won compare-exchanges in
    order, of the pushes that returned [Ok], and of the pops that returned
    [Some]. *)
Record Sys : Type := mkSys {
  inbox : ShardInbox T;
  producers : gmap nat (T * push_pc T);
  consumer : drain_pc T;
  eventfd : Z;
  claimed : list T;
  accepted : list T;
  received : list T;
}.

Definition start (m : ShardInbox T) : Sys := mkSys m ∅ DWait 0 [] [] [].

(** Thread [i] calls [push v], thread [i] performs its next access, or the
    drain task performs its next one.  An action that is not enabled leaves
    the state as it is. *)
Inductive act : Type :=
| APush (i : nat) (v : T)
| AProducer (i : nat) (spurious : bool)
| AConsumer.

Definition won (pc pc' : push_pc T) (v : T) : list T :=
  match pc, pc' with PCas _, PWrite _ => [v] | _, _ => [] end.

(** [handle_pub] after [push] returns: wakes the peer if told to; a failed
    [wake()] is ignored. *)
Definition returned (s : Sys) (i : nat) (v : T) (r : result bool T) : Sys :=
  mkSys (inbox s) (delete i (producers s)) (consumer s)
    (match r with Ok true => wake_counter (eventfd s) | _ => eventfd s end)
    (claimed s) (match r with Ok _ => accepted s ++ [v] | Err _ => accepted s end) (received s).

Definition produced (s : Sys) (i : nat) (v : T) (pc : push_pc T) (x : ShardInbox T * push_pc T) : Sys :=
  mkSys x.1 (<[i := (v, x.2)]> (producers s)) (consumer s) (eventfd s)
    (claimed s ++ won pc x.2 v) (accepted s) (received s).

Definition consumed (s : Sys) (m : ShardInbox T) (c : drain_pc T) (vs : list T) : Sys :=
  mkSys m (producers s) c (eventfd s) (claimed s) (accepted s) (received s ++ vs).

Definition act_step (a : act) (s : Sys) : run Sys :=
  match a with
  | APush i v =>
      match producers s !! i with
      | Some _ => mret s
      | None => mret (produced s i v PLoadTail (inbox s, PLoadTail))
      end
  | AProducer i spurious =>
      match producers s !! i with
      | None => mret s
      | Some (v, PReturn r) => mret (returned s i v r)
      | Some (v, pc) => x ← push_step spurious v (inbox s) pc; mret (produced s i v pc x)
      end
  | AConsumer =>
      match consumer s with
      | DWait =>
          if 0 <? eventfd s
          then mret (mkSys (inbox s) (producers s) (DPop CLoadHead) 0 (claimed s) (accepted s) (received s))
          else mret s
      | DPop (CReturn None) => mret (consumed s (inbox s) DWait [])
      | DPop (CReturn (Some v)) => mret (consumed s (inbox s) (DPop CLoadHead) [v])
      | DPop pc => x ← pop_step (inbox s) pc; mret (consumed s x.1 (DPop x.2) [])
      end
  end.

Fixpoint exec (acts : list act) (s : Sys) : run Sys :=
  match acts with
  | [] => mret s
  | a :: acts => s' ← act_step a s; exec acts s'
  end.

(* ------------------------------------------------------------------ *)
(** * The invariant *)

(** How far the push that claimed a position has come, and by whom. *)
Inductive stage : Type :=
| Claimed (i : nat)
| Written (i : nat)
| Published.
Definition owner (st : stage) : option nat :=
  match st with Claimed i | Written i => Some i | Published => None end.
Abbreviation ghost := (list (T * stage)).

(** The values moved out of the ring: those received and the one in hand. *)
Definition in_hand (c : drain_pc T) : list T :=
  match c with
  | DPop (CStoreSeq _ v) | DPop (CStoreHead _ v) | DPop (CReturn (Some v)) => [v]
  | _ => []
  end.
Definition taken (s : Sys) : list T := received s ++ in_hand (consumer s).

(** Positions whose slot is free for the next lap, and the position [head]
    stands at. *)
Definition released (s : Sys) : nat :=
  match consumer s with
  | DPop (CStoreSeq _ _) => length (received s)
  | _ => length (taken s)
  end.
Definition head_at (s : Sys) : nat :=
  match consumer s with
  | DPop (CStoreSeq _ _) | DPop (CStoreHead _ _) => length (received s)
  | _ => length (taken s)
  end.

(** Values of the pushes that won a slot and have not returned. *)
Definition past_cas (x : T * push_pc T) : list T :=
  match x.2 with
  | PWrite _ | PStoreSeq _ | PLoadHead _ | PReturn (Ok _) => [x.1]
  | _ => []
  end.
Definition pending (p : gmap nat (T * push_pc T)) : list T :=
  mjoin ((fun x => past_cas x.2) <$> map_to_list p).

Section Invariant.
Variables (base k : Z).

(** The counter of logical position [n]. *)
Definition W (n : nat) : Z := wrap64 (base + Z.of_nat n).

Definition slot_of (g : ghost) (out n : nat) : Slot T :=
  match g !! n with
  | None | Some (_, Claimed _) => mkSlot (W n) None
  | Some (v, Written _) => mkSlot (W n) (Some v)
  | Some (v, Published) => mkSlot (W (S n)) (if decide (n < out)%nat then None else Some v)
  end.

Definition producer_ok (g : ghost) (free : nat) (i : nat) (v : T) (pc : push_pc T) : Prop :=
  match pc with
  | PLoadTail => True
  | PLoadSeq t => exists n, t = W n /\ (n <= length g)%nat
  | PCas t => exists n, t = W n /\ (n <= length g)%nat /\ Z.of_nat n < Z.of_nat free + 2 ^ k
  | PWrite t => exists n, t = W n /\ g !! n = Some (v, Claimed i)
  | PStoreSeq t => exists n, t = W n /\ g !! n = Some (v, Written i)
  | PLoadHead t => exists n, t = W n /\ g !! n = Some (v, Published)
  | PReturn (Ok _) => True
  | PReturn (Err v') => v' = v
  end.

Definition consumer_ok (g : ghost) (s : Sys) : Prop :=
  match consumer s with
  | DPop (CLoadSeq h) => h = W (length (received s))
  | DPop (CRead h) => h = W (length (received s)) /\ exists v, g !! length (received s) = Some (v, Published)
  | DPop (CStoreSeq h _) | DPop (CStoreHead h _) => h = W (length (received s))
  | _ => True
  end.

(** The drain task sleeps, or is about to. *)
Definition idle (c : drain_pc T) : Prop := c = DWait \/ c = DPop (CReturn None).

(** The wake-up owed to a sleeping drain task is on its way. *)
Definition wake_coming (s : Sys) : Prop :=
  0 < eventfd s \/
  exists i v, producers s !! i = Some (v, PLoadHead (W (length (received s)))) \/
              producers s !! i = Some (v, PReturn (Ok true)).

Record inv (g : ghost) (s : Sys) : Prop := {
  i_ring : ring (inbox s) k;
  i_claimed : claimed s = g.*1;
  i_tail : tail (inbox s) = W (length g);
  i_head : head (inbox s) = W (head_at s);
  i_room : Z.of_nat (length g) <= Z.of_nat (released s) + 2 ^ k;
  i_slots : forall n, Z.of_nat (released s) <= Z.of_nat n < Z.of_nat (released s) + 2 ^ k ->
    cells (inbox s) !! pos k (base + Z.of_nat n) = Some (slot_of g (length (taken s)) n);
  i_taken : forall n v, taken s !! n = Some v -> g !! n = Some (v, Published);
  i_claims : forall n v i, g !! n = Some (v, Claimed i) -> producers s !! i = Some (v, PWrite (W n));
  i_writes : forall n v i, g !! n = Some (v, Written i) -> producers s !! i = Some (v, PStoreSeq (W n));
  i_producers : forall i v pc, producers s !! i = Some (v, pc) -> producer_ok g (released s) i v pc;
  i_consumer : consumer_ok g s;
  i_accepted : accepted s ++ pending (producers s) ≡ₚ g.*1;
  i_eventfd : 0 <= eventfd s;
  i_wake : forall v, idle (consumer s) -> g !! length (received s) = Some (v, Published) -> wake_coming s;
}.

(* ------------------------------------------------------------------ *)
(** * Positions, slots and pending pushes *)

Lemma W_S n : wrapping_add (W n) 1 = W (S n).
Proof. unfold W. rewrite wrap64_add. f_equal. lia. Qed.
Lemma W_inj n m : Z.of_nat n < 2 ^ 62 -> Z.of_nat m < 2 ^ 62 -> W n = W m -> n = m.
Proof. intros Hn Hm E. apply wrap64_inj in E; lia. Qed.

Lemma pending_insert p i x : p !! i = None -> pending (<[i := x]> p) ≡ₚ past_cas x ++ pending p.
Proof. intros H. unfold pending. by rewrite map_to_list_insert by done. Qed.
Lemma pending_delete p i x : p !! i = Some x -> pending p ≡ₚ past_cas x ++ pending (delete i p).
Proof.
  intros H. rewrite <- (insert_delete_id p i x) at 1 by done.
  by rewrite pending_insert by apply lookup_delete_eq.
Qed.
Lemma pending_update p i x y :
  p !! i = Some x -> pending (<[i := y]> p) ++ past_cas x ≡ₚ pending p ++ past_cas y.
Proof.
  intros H. rewrite (pending_delete p i x H), <- (insert_delete_eq p i y).
  rewrite pending_insert by apply lookup_delete_eq. solve_Permutation.
Qed.

Lemma taken_length s : length (taken s) = (length (received s) + length (in_hand (consumer s)))%nat.
Proof. apply length_app. Qed.
Lemma released_bounds s : (length (received s) <= released s <= length (taken s))%nat.
Proof.
  unfold released. rewrite taken_length. destruct (consumer s) as [|[| | | | |[]]]; cbn; lia.
Qed.

Lemma producer_ok_free g f f' i v pc :
  (f <= f')%nat -> producer_ok g f i v pc -> producer_ok g f' i v pc.
Proof. intros H. destruct pc; cbn; try done. intros (n & -> & Hn & Hf). exists n. split_and!; [done..|lia]. Qed.

(** A thread's position is not disturbed by other threads' progress. *)
Lemma producer_ok_log g g' f i v pc :
  (length g <= length g')%nat ->
  (forall n w st, g !! n = Some (w, st) -> st = Published \/ st = Claimed i \/ st = Written i ->
     g' !! n = Some (w, st)) ->
  producer_ok g f i v pc -> producer_ok g' f i v pc.
Proof.
  intros Hl Hg. destruct pc; cbn; try done; intros (n & -> & Hn); exists n; split; auto with lia.
Qed.

Section Facts.
Variables (g : ghost) (s : Sys).
Hypothesis Hi : inv g s.

Lemma open_position n v st :
  g !! n = Some (v, st) -> st <> Published -> (length (taken s) <= n)%nat.
Proof.
  intros E Hst. apply Nat.le_ngt. intros Hlt.
  destruct (lookup_lt_is_Some_2 (taken s) n Hlt) as [w Hw].
  apply (i_taken g s Hi) in Hw. congruence.
Qed.
Lemma window_position n x :
  g !! n = Some x -> (length (taken s) <= n)%nat ->
  Z.of_nat (released s) <= Z.of_nat n < Z.of_nat (released s) + 2 ^ k.
Proof.
  intros E Hn. apply lookup_lt_Some in E. pose proof (i_room g s Hi).
  pose proof (released_bounds s). lia.
Qed.

(** A thread owns at most one position. *)
Lemma owner_unique n m v w st st' i :
  Z.of_nat (length g) < 2 ^ 61 -> g !! n = Some (v, st) -> g !! m = Some (w, st') ->
  owner st = Some i -> owner st' = Some i -> n = m.
Proof.
  intros Hl En Em Hn Hm.
  pose proof (lookup_lt_Some _ _ _ En). pose proof (lookup_lt_Some _ _ _ Em).
  destruct st, st'; try done; injection Hn as ->; injection Hm as ->;
    (apply (i_claims g s Hi) in En || apply (i_writes g s Hi) in En);
    (apply (i_claims g s Hi) in Em || apply (i_writes g s Hi) in Em);
    rewrite En in Em; try discriminate Em; injection Em as _ Et; apply W_inj in Et; lia.
Qed.

(** What a producer that holds position [n], current or stale, sees. *)
Lemma observed_slot n :
  (n <= length g)%nat -> Z.of_nat (length g) < 2 ^ 61 ->
  exists sl d, cells (inbox s) !! pos k (base + Z.of_nat n) = Some sl /\
    seq sl = wrap64 (base + Z.of_nat n + d) /\ - 2 ^ 63 <= d < 2 ^ 63 /\
    (d = 0 -> Z.of_nat n < Z.of_nat (released s) + 2 ^ k) /\
    (d < 0 -> Z.of_nat (length g) = Z.of_nat (released s) + 2 ^ k) /\
    (0 < d -> (n < length g)%nat).
Proof.
  intros Hn Hg. pose proof Hi as []. pose proof (pow_bounds k (ring_k _ _ i_ring0)) as Hk.
  set (r := Z.of_nat (released s)) in *. set (c := (Z.of_nat n - r) mod 2 ^ k).
  pose proof (Z.mod_pos_bound (Z.of_nat n - r) (2 ^ k) ltac:(lia)) as Hc. fold c in Hc.
  pose proof (Z.div_mod (Z.of_nat n - r) (2 ^ k) ltac:(lia)) as Hdiv. fold c in Hdiv.
  set (q := (Z.of_nat n - r) / 2 ^ k) in *.
  pose proof (i_slots0 (Z.to_nat (r + c)) ltac:(lia)) as Hs. rewrite Z2Nat.id in Hs by lia.
  replace (pos k (base + (r + c))) with (pos k (base + Z.of_nat n)) in Hs.
  2: { unfold pos. replace (base + Z.of_nat n) with (base + (r + c) + q * 2 ^ k) by lia.
       by rewrite Z.mod_add by lia. }
  assert (r + c <= r + 2 ^ k - 1) by lia.
  assert (r <= Z.of_nat (length g)) as Hr.
  { pose proof (released_bounds s). assert (length (taken s) <= length g)%nat; [|lia].
    destruct (le_lt_dec (length (taken s)) (length g)) as [|Hlt]; [done|].
    destruct (lookup_lt_is_Some_2 (taken s) (length g) Hlt) as [w Hw].
    apply i_taken0, lookup_lt_Some in Hw. lia. }
  assert (r <= Z.of_nat n < r + 2 ^ k /\ c = Z.of_nat n - r \/ Z.of_nat n = r + 2 ^ k /\ c = 0 \/ Z.of_nat n < r)
    as Hcases.
  { destruct (Z.lt_trichotomy q 0) as [Hq|[->|Hq]]; [right; right; nia|left; lia|].
    assert (2 ^ k <= 2 ^ k * q) by nia. right. left. lia. }
  assert (exists e, seq (slot_of g (length (taken s)) (Z.to_nat (r + c))) = wrap64 (base + (r + c) + e)
            /\ 0 <= e <= 1 /\ (e = 1 -> r + c < Z.of_nat (length g))) as (e & He & Hb & Hpub).
  { unfold slot_of, W. destruct (g !! Z.to_nat (r + c)) as [[w []]|] eqn:E;
      [exists 0|exists 0|exists 1|exists 0]; (split; [cbn; f_equal; lia|]); try lia.
    apply lookup_lt_Some in E. lia. }
  eexists _, (r + c + e - Z.of_nat n). split; [exact Hs|]. split; [rewrite He; f_equal; lia|].
  split; [lia|]. clear Hdiv. lia.
Qed.

(* ------------------------------------------------------------------ *)
(** * Producers *)

(** Thread [i] is at [pc]: what the invariant says of the others does not
    depend on it. *)
Lemma others_claims i x n v j :
  producers s !! i = Some x -> (forall t, x.2 <> PWrite t) ->
  g !! n = Some (v, Claimed j) -> forall y, <[i := y]> (producers s) !! j = Some (v, PWrite (W n)).
Proof.
  intros Hx Hpc E y. apply (i_claims g s Hi) in E. rewrite lookup_insert_ne; [done|].
  intros ->. rewrite E in Hx. injection Hx as <-. by eapply Hpc.
Qed.
Lemma others_writes i x n v j :
  producers s !! i = Some x -> (forall t, x.2 <> PStoreSeq t) ->
  g !! n = Some (v, Written j) -> forall y, <[i := y]> (producers s) !! j = Some (v, PStoreSeq (W n)).
Proof.
  intros Hx Hpc E y. apply (i_writes g s Hi) in E. rewrite lookup_insert_ne; [done|].
  intros ->. rewrite E in Hx. injection Hx as <-. by eapply Hpc.
Qed.
Lemma others_wake i x y :
  producers s !! i = Some x ->
  (x.2 = PLoadHead (W (length (received s))) -> y.2 = PReturn (Ok true)) ->
  (x.2 <> PReturn (Ok true)) ->
  wake_coming s ->
  0 < eventfd s \/ exists j v,
    <[i := y]> (producers s) !! j = Some (v, PLoadHead (W (length (received s)))) \/
    <[i := y]> (producers s) !! j = Some (v, PReturn (Ok true)).
Proof.
  intros Hx Hh Hr [?|(j & v & [E|E])]; [by left|right..].
  - destruct (decide (i = j)) as [<-|Hn].
    + rewrite E in Hx. injection Hx as <-. exists i, y.1. right. rewrite lookup_insert_eq.
      destruct y as [w pc]. cbn in *. by rewrite Hh.
    + exists j, v. left. by rewrite lookup_insert_ne.
  - destruct (decide (i = j)) as [<-|Hn].
    + rewrite E in Hx. injection Hx as <-. done.
    + exists j, v. right. by rewrite lookup_insert_ne.
Qed.
Lemma others_accepted i x y :
  producers s !! i = Some x -> past_cas y = past_cas x ->
  accepted s ++ pending (<[i := y]> (producers s)) ≡ₚ g.*1.
Proof.
  intros Hx Hp. rewrite <- (i_accepted g s Hi). f_equiv.
  apply (Permutation_app_inv_r (past_cas x)). by rewrite pending_update, Hp by done.
Qed.

(** An access that leaves the ring as it is. *)
Lemma inv_local i v pc pc' :
  producers s !! i = Some (v, pc) ->
  (forall t, pc <> PWrite t) -> (forall t, pc <> PStoreSeq t) -> pc <> PReturn (Ok true) ->
  won pc pc' v = [] -> past_cas (v, pc') = past_cas (v, pc) ->
  producer_ok g (released s) i v pc' ->
  (idle (consumer s) -> pc = PLoadHead (W (length (received s))) -> pc' = PReturn (Ok true)) ->
  inv g (produced s i v pc (inbox s, pc')).
Proof.
  intros Hx Hw Hs Hr Hwon Hp Hok Hwk. pose proof Hi as [].
  unfold produced. cbn [fst snd]. rewrite Hwon, app_nil_r.
  constructor; unfold consumer_ok, released, head_at, taken in *; cbn in *; try done.
  - intros n w j E. by eapply others_claims.
  - intros n w j E. by eapply others_writes.
  - intros j w pcj. destruct (decide (i = j)) as [<-|Hn].
    + rewrite lookup_insert_eq. by intros [= <- <-].
    + rewrite lookup_insert_ne by done. apply i_producers0.
  - by eapply others_accepted.
  - intros w Hid E. eapply others_wake; [done|naive_solver..|]. by eapply i_wake0.
Qed.

Lemma inv_push i v :
  producers s !! i = None -> inv g (produced s i v PLoadTail (inbox s, PLoadTail)).
Proof.
  intros Hx. pose proof Hi as [].
  assert (forall j y, producers s !! j = Some y -> <[i := (v, PLoadTail)]> (producers s) !! j = Some y) as Hj.
  { intros j y E. rewrite lookup_insert_ne; [done|congruence]. }
  unfold produced, won. cbn [fst snd]. rewrite app_nil_r.
  constructor; unfold consumer_ok, released, head_at, taken in *; cbn in *; eauto.
  - intros j w pcj. destruct (decide (i = j)) as [<-|Hn].
    + rewrite lookup_insert_eq. by intros [= <- <-].
    + rewrite lookup_insert_ne by done. apply i_producers0.
  - by rewrite pending_insert.
  - intros w Hid E. destruct (i_wake0 w Hid E) as [?|(j & u & [Ej|Ej])]; [by left|right; eauto..].
Qed.

Lemma inv_returned i v r :
  producers s !! i = Some (v, PReturn r) -> inv g (returned s i v r).
Proof.
  intros Hx. pose proof Hi as [].
  assert (0 <= eventfd s -> 0 < wake_counter (eventfd s)) as Hwake by (unfold wake_counter, counter_max; zcase; lia).
  assert (forall j y, producers s !! j = Some y -> y.2 <> PReturn r ->
            delete i (producers s) !! j = Some y) as Hj.
  { intros j y E Hn. rewrite lookup_delete_ne; [done|]. intros ->. rewrite E in Hx. by injection Hx as ->. }
  constructor; unfold consumer_ok, released, head_at, taken in *; cbn in *; try done.
  - intros n w j E. apply Hj; [|done]. eauto.
  - intros n w j E. apply Hj; [|done]. eauto.
  - intros j w pcj. rewrite lookup_delete_Some. intros [_ E]. eauto.
  - rewrite <- i_accepted0, (pending_delete (producers s) i _ Hx).
    destruct r; cbn; by rewrite <- ?app_assoc.
  - destruct r as [[]|]; auto with lia.
  - intros w Hid E. unfold wake_coming. cbn.
    destruct (i_wake0 w Hid E) as [?|(j & u & [Ej|Ej])].
    + left. destruct r as [[]|]; auto with lia.
    + right. exists j, u. left. by apply Hj.
    + destruct (decide (j = i)) as [->|Hn]; [rewrite Hx in Ej; injection Ej as <- ->; left; auto|].
      right. exists j, u. right. by rewrite lookup_delete_ne.
Qed.

(** The won compare-exchange claims the next position. *)
Lemma inv_claim i v :
  producers s !! i = Some (v, PCas (W (length g))) ->
  Z.of_nat (length g) < Z.of_nat (released s) + 2 ^ k ->
  inv (g ++ [(v, Claimed i)])
    (produced s i v (PCas (W (length g)))
       (set_tail (inbox s) (W (S (length g))), PWrite (W (length g)))).
Proof.
  intros Hx Hroom. pose proof Hi as []. pose proof (released_bounds s) as Hb.
  assert (forall n x, (g ++ [(v, Claimed i)]) !! n = Some x ->
            g !! n = Some x \/ n = length g /\ x = (v, Claimed i)) as Hg.
  { intros n x E. apply lookup_snoc_Some in E. naive_solver. }
  assert (forall n x, g !! n = Some x -> (g ++ [(v, Claimed i)]) !! n = Some x) as Hg'.
  { intros n x E. by apply lookup_app_l_Some. }
  constructor; unfold consumer_ok, released, head_at, taken in *; cbn in *; try done.
  - by destruct i_ring0.
  - by rewrite fmap_app, i_claimed0.
  - rewrite length_app. by rewrite Nat.add_1_r.
  - rewrite length_app. cbn. lia.
  - intros n Hn. rewrite i_slots0 by done. f_equal. unfold slot_of.
    destruct (g !! n) as [x|] eqn:E; [by rewrite (Hg' n x E)|].
    destruct ((g ++ _) !! n) as [x|] eqn:E'; [|done]. by destruct (Hg n x E') as [?|[-> ->]]; [congruence|].
  - intros n w E. by apply Hg', i_taken0.
  - intros n w j E. destruct (Hg n _ E) as [E'|[-> [= -> ->]]]; [by eapply others_claims|].
    by rewrite lookup_insert_eq.
  - intros n w j E. destruct (Hg n _ E) as [E'|[-> [=]]]. by eapply others_writes.
  - intros j w pcj. destruct (decide (i = j)) as [<-|Hn].
    + rewrite lookup_insert_eq. intros [= <- <-]. exists (length g). split; [done|].
      by apply lookup_snoc_Some; right.
    + rewrite lookup_insert_ne by done. intros E. specialize (i_producers0 j w pcj E).
      eapply producer_ok_log; [| |exact i_producers0]; [rewrite length_app; lia|eauto].
  - destruct (consumer s) as [|[]]; cbn in *; try done.
    destruct i_consumer0 as [-> [w Hw]]. eauto.
  - rewrite fmap_app, <- i_accepted0. cbn.
    pose proof (pending_update (producers s) i _ (v, PWrite (W (length g))) Hx) as Hp.
    cbn in Hp. rewrite app_nil_r in Hp. rewrite Hp. by rewrite app_assoc.
  - intros w Hid E. apply Hg in E as [E|[_ [=]]].
    eapply others_wake; [done..|]. by eapply i_wake0.
Qed.

(** Updating the slot of a position updates no other position's. *)
Lemma advance_slots n x y :
  g !! n = Some x -> (length (taken s) <= n)%nat ->
  forall m, Z.of_nat (released s) <= Z.of_nat m < Z.of_nat (released s) + 2 ^ k ->
  <[pos k (base + Z.of_nat n) := slot_of (<[n := y]> g) (length (taken s)) n]> (cells (inbox s))
    !! pos k (base + Z.of_nat m) = Some (slot_of (<[n := y]> g) (length (taken s)) m).
Proof.
  intros En Hopen m Hm. pose proof (window_position n _ En Hopen). pose proof (i_ring g s Hi) as Hr.
  destruct (decide (m = n)) as [->|Hn]; [by apply list_lookup_insert_eq, pos_lt|].
  pose proof (cells_set_slot_ne (inbox s) k (base + Z.of_nat m) (base + Z.of_nat n)) as Hc.
  cbn in Hc. destruct Hr. rewrite Hc, (i_slots g s Hi) by lia.
  unfold slot_of. by rewrite list_lookup_insert_ne.
Qed.

(** An access of the owner of position [n] to its slot. *)
Lemma inv_advance i v n st st' pc pc' sl :
  g !! n = Some (v, st) -> producers s !! i = Some (v, pc) ->
  st <> Published ->
  (st = Claimed i /\ pc = PWrite (W n) /\ st' = Written i /\ pc' = PStoreSeq (W n) \/
   st = Written i /\ pc = PStoreSeq (W n) /\ st' = Published /\ pc' = PLoadHead (W n)) ->
  sl = slot_of (<[n := (v, st')]> g) (length (taken s)) n ->
  Z.of_nat (length g) < 2 ^ 61 ->
  inv (<[n := (v, st')]> g)
    (produced s i v pc (set_slot (inbox s) k (base + Z.of_nat n) sl, pc')).
Proof.
  intros En Hx Hst Hpc Hsl Hlen. pose proof Hi as [].
  pose proof (open_position n v st En Hst) as Hopen.
  pose proof (window_position n _ En Hopen) as Hwin.
  pose proof (lookup_lt_Some _ _ _ En) as Hlt.
  assert (forall m x, m <> n -> <[n := (v, st')]> g !! m = Some x <-> g !! m = Some x) as Hne
    by (intros; by rewrite list_lookup_insert_ne).
  assert (forall m w st1, m <> n -> g !! m = Some (w, st1) -> owner st1 <> Some i) as Hown.
  { intros m w st1 Hm E Ho. apply Hm. eapply owner_unique; [done..|exact En|done|].
    by destruct Hpc as [(-> & _)|(-> & _)]. }
  assert (won pc pc' v = []) as Hwon by by_stage.
  unfold produced. cbn [fst snd]. rewrite Hwon, app_nil_r.
  constructor; unfold consumer_ok, released, head_at, taken in *; cbn in *; try done.
  - by apply ring_set_slot.
  - rewrite list_fmap_insert, i_claimed0. symmetry. apply list_insert_id.
    by rewrite list_lookup_fmap, En.
  - by rewrite length_insert.
  - by rewrite length_insert.
  - intros m Hm. subst sl. by eapply (advance_slots n).
  - intros m w E. destruct (decide (m = n)) as [->|Hn].
    + apply lookup_lt_Some in E. lia.
    + apply Hne; [done|]. by apply i_taken0.
  - intros m w j E. destruct (decide (m = n)) as [->|Hn].
    + rewrite list_lookup_insert_eq in E by done. rewrite lookup_insert. by_stage.
    + apply Hne in E; [|done]. rewrite lookup_insert_ne by (intros <-; by eapply Hown). auto.
  - intros m w j E. destruct (decide (m = n)) as [->|Hn].
    + rewrite list_lookup_insert_eq in E by done. rewrite lookup_insert. by_stage.
    + apply Hne in E; [|done]. rewrite lookup_insert_ne by (intros <-; by eapply Hown). auto.
  - intros j w pcj. destruct (decide (i = j)) as [<-|Hn].
    + rewrite lookup_insert_eq. intros [= <- <-].
      destruct Hpc as [(-> & -> & -> & ->)|(-> & -> & -> & ->)]; exists n;
        (split; [done|by apply list_lookup_insert_eq]).
    + rewrite lookup_insert_ne by done. intros E. specialize (i_producers0 j w pcj E).
      eapply (producer_ok_log g); [rewrite length_insert; done| |exact i_producers0].
      intros m u st0 Em Hst0. apply Hne; [|done]. intros ->. destruct Hst0 as [|[|]]; by_stage.
  - destruct (consumer s) as [|[]]; cbn in *; try done.
    destruct i_consumer0 as [-> [w Hw]]. split; [done|]. exists w. apply Hne; [|done].
    intros Hr. rewrite Hr in Hw. congruence.
  - rewrite list_fmap_insert. rewrite (list_insert_id g.*1) by by rewrite list_lookup_fmap, En.
    eapply others_accepted; [done|]. by_stage.
  - intros w Hid E. destruct (decide (length (received s) = n)) as [Hr|Hr].
    + right. exists i, v. left. cbn. rewrite lookup_insert_eq, Hr.
      rewrite Hr, list_lookup_insert_eq in E by done. by_stage.
    + apply Hne in E; [|done]. eapply others_wake; [done|by_stage..|]. by eapply i_wake0.
Qed.

(** Every access of a producer is defined and keeps the invariant. *)
Definition producer_advances (i : nat) (v : T) (pc : push_pc T) (b : bool) : Prop :=
  exists g' x, push_step b v (inbox s) pc = Done x /\ inv g' (produced s i v pc x) /\
    (length g' <= S (length g))%nat.

Lemma local_advances i v pc b pc' :
  producers s !! i = Some (v, pc) -> push_step b v (inbox s) pc = Done (inbox s, pc') ->
  (forall t, pc <> PWrite t) -> (forall t, pc <> PStoreSeq t) -> pc <> PReturn (Ok true) ->
  won pc pc' v = [] -> past_cas (v, pc') = past_cas (v, pc) ->
  producer_ok g (released s) i v pc' ->
  (idle (consumer s) -> pc = PLoadHead (W (length (received s))) -> pc' = PReturn (Ok true)) ->
  producer_advances i v pc b.
Proof.
  intros Hx E ???????. exists g, (inbox s, pc'). split; [done|]. split; [|lia]. by apply inv_local.
Qed.

Lemma load_seq_advances i v t b :
  producers s !! i = Some (v, PLoadSeq t) -> Z.of_nat (length g) < 2 ^ 61 ->
  producer_advances i v (PLoadSeq t) b.
Proof.
  intros Hx Hg. destruct (i_producers g s Hi i v _ Hx) as (n & -> & Hn).
  destruct (observed_slot n Hn Hg) as (sl & d & Hs & Hq & Hd & Hz & _).
  pose proof (push_load_seq b v (inbox s) k _ d sl (i_ring g s Hi) Hs Hq Hd) as E.
  destruct (Z.compare_spec d 0) as [H0|_|_].
  - eapply local_advances; [done|exact E|done..| |done]. exists n. auto.
  - eapply local_advances; [done|exact E|done..].
  - eapply local_advances; [done|exact E|done..].
Qed.

Lemma cas_advances i v t b :
  producers s !! i = Some (v, PCas t) -> Z.of_nat (length g) < 2 ^ 61 ->
  producer_advances i v (PCas t) b.
Proof.
  intros Hx Hg. destruct (i_producers g s Hi i v _ Hx) as (n & Et & Hn & Hroom).
  unfold producer_advances. cbn [push_step]. rewrite (i_tail g s Hi).
  destruct ((W (length g) =? t) && negb b) eqn:E.
  - apply andb_true_iff in E as [E _]. apply Z.eqb_eq in E. rewrite Et in E.
    apply W_inj in E; [|lia..]. subst n t. exists (g ++ [(v, Claimed i)]). eexists.
    split; [rewrite W_S; reflexivity|]. split; [by apply inv_claim|]. rewrite length_app. cbn. lia.
  - exists g. eexists. split; [done|]. split; [|lia]. apply inv_local; try done.
    by exists (length g).
Qed.

Lemma own_slot n v st :
  g !! n = Some (v, st) -> st <> Published ->
  cells (inbox s) !! pos k (base + Z.of_nat n) = Some (slot_of g (length (taken s)) n).
Proof.
  intros E Hst. apply (i_slots g s Hi). eapply window_position; [done|]. by eapply open_position.
Qed.

Lemma slot_advances i v pc b :
  producers s !! i = Some (v, pc) -> Z.of_nat (length g) < 2 ^ 61 ->
  (exists t, pc = PWrite t) \/ (exists t, pc = PStoreSeq t) -> producer_advances i v pc b.
Proof.
  intros Hx Hg Hpc. pose proof (i_producers g s Hi i v _ Hx) as Hok.
  destruct Hpc as [[t ->]|[t ->]]; destruct Hok as (n & -> & En).
  all: pose proof (own_slot n _ _ En) as Hs; pose proof (lookup_lt_Some _ _ _ En) as Hlt;
    pose proof (open_position n _ _ En) as Hopen.
  - exists (<[n := (v, Written i)]> g). eexists. split.
    { eapply push_write; [apply (i_ring g s Hi)|by apply Hs]. }
    split; [|rewrite length_insert; lia]. eapply inv_advance; try done; [by left|].
    unfold slot_of. by rewrite En, list_lookup_insert_eq.
  - exists (<[n := (v, Published)]> g). eexists. split.
    { eapply push_store_seq; [apply (i_ring g s Hi)|by apply Hs]. }
    split; [|rewrite length_insert; lia]. eapply inv_advance; try done; [by right|].
    unfold slot_of. rewrite En, list_lookup_insert_eq by done. rewrite decide_False.
    + unfold W. do 2 f_equal. lia.
    + specialize (Hopen ltac:(done)). lia.
Qed.

Lemma producer_step_advances i v pc b :
  producers s !! i = Some (v, pc) -> Z.of_nat (length g) < 2 ^ 61 ->
  (forall r, pc <> PReturn r) -> producer_advances i v pc b.
Proof.
  intros Hx Hg Hr. destruct pc as [|t|t|t|t|t|r].
  - eapply local_advances; [done|reflexivity|done..| |done].
    exists (length g). by rewrite (i_tail g s Hi).
  - by apply load_seq_advances.
  - by apply cas_advances.
  - apply slot_advances; eauto.
  - apply slot_advances; eauto.
  - eapply local_advances; [done|reflexivity|done..|].
    intros Hid [= ->]. do 2 f_equal. apply Z.eqb_eq. rewrite (i_head g s Hi). f_equal.
    unfold head_at, taken. destruct Hid as [-> | ->]; cbn; by rewrite app_nil_r.
  - by destruct (Hr r).
Qed.

(* ------------------------------------------------------------------ *)
(** * The drain task *)

(** Steps that neither touch the ring nor move a value. *)
Lemma inv_consumer_local c vs :
  let s' := consumed s (inbox s) c vs in
  taken s' = taken s -> released s' = released s -> head_at s' = head_at s ->
  consumer_ok g s' ->
  (forall v, idle c -> g !! length (received s') = Some (v, Published) -> wake_coming s') ->
  inv g s'.
Proof.
  intros s' Ht Hr Hh Hc Hw. pose proof Hi as [].
  constructor; rewrite ?Ht, ?Hr, ?Hh; done.
Qed.

Lemma inv_woken :
  consumer s = DWait ->
  inv g (mkSys (inbox s) (producers s) (DPop CLoadHead) 0 (claimed s) (accepted s) (received s)).
Proof.
  intros Hc. pose proof Hi as [].
  constructor; unfold consumer_ok, released, head_at, taken in *; rewrite Hc in *; cbn in *; try done.
  by intros v [|].
Qed.

Lemma load_seq_consumed h :
  consumer s = DPop (CLoadSeq h) ->
  exists pc, pop_step (inbox s) (CLoadSeq h) = Done (inbox s, pc) /\
    inv g (consumed s (inbox s) (DPop pc) []).
Proof.
  intros Hc. pose proof Hi as []. pose proof (pow_bounds k (ring_k _ _ i_ring0)).
  unfold consumer_ok, released, head_at, taken in *. rewrite Hc in *. cbn in *. subst h.
  rewrite app_nil_r in *. set (n := length (received s)) in *.
  pose proof (i_slots0 n ltac:(lia)) as Hs.
  assert (exists d, seq (slot_of g n n) = wrap64 (base + Z.of_nat n + 1 + d) /\ (d = 0 \/ d = -1) /\
            (d = 0 <-> exists v, g !! n = Some (v, Published))) as (d & Hq & Hd & Hpub).
  { unfold slot_of, W. destruct (g !! n) as [[w [j|j|]]|]; [exists (-1)|exists (-1)|exists 0|exists (-1)];
      (split; [cbn; f_equal; lia|]); (split; [lia|]); split; try lia; try (intros [u Hu]; done); eauto. }
  eexists. split; [by eapply pop_load_seq; [done..|lia]|].
  apply inv_consumer_local; unfold consumer_ok, released, head_at, taken; rewrite ?Hc; cbn;
    rewrite ?app_nil_r; destruct (Z.eqb_spec d 0) as [H0|H0]; cbn; rewrite ?app_nil_r; try done.
  - split; [done|]. by apply Hpub.
  - by intros v [|].
  - intros v _ E. destruct H0. apply Hpub. eauto.
Qed.

Lemma read_consumed h :
  consumer s = DPop (CRead h) ->
  exists x, pop_step (inbox s) (CRead h) = Done x /\ inv g (consumed s x.1 (DPop x.2) []).
Proof.
  intros Hc. pose proof Hi as []. pose proof (pow_bounds k (ring_k _ _ i_ring0)).
  unfold consumer_ok, released, head_at, taken in *. rewrite Hc in *. cbn in *.
  destruct i_consumer0 as [-> [v Hv]]. rewrite app_nil_r in *. set (n := length (received s)) in *.
  pose proof (i_slots0 n ltac:(lia)) as Hs.
  assert (slot_of g n n = mkSlot (W (S n)) (Some v)) as En.
  { unfold slot_of. by rewrite Hv, decide_False by lia. }
  rewrite En in Hs. eexists. split; [by eapply pop_read|].
  constructor; unfold consumer_ok, released, head_at, taken; cbn; rewrite ?app_nil_r; fold n; try done.
  - by apply ring_set_slot.
  - intros m Hm. rewrite length_app. fold n. cbn. destruct (decide (m = n)) as [->|Hn].
    + rewrite list_lookup_insert_eq by by apply pos_lt. unfold slot_of.
      by rewrite Hv, decide_True by lia.
    + pose proof (cells_set_slot_ne (inbox s) k (base + Z.of_nat m) (base + Z.of_nat n)) as Hne.
      cbn in Hne. destruct i_ring0. rewrite Hne, i_slots0 by lia. f_equal.
      unfold slot_of. destruct (g !! m) as [[w []]|]; try done. by rewrite !decide_False by lia.
  - intros m w E. apply lookup_snoc_Some in E as [[_ E]|[-> <-]]; auto.
  - by intros w [|].
Qed.

Lemma store_seq_consumed h v :
  consumer s = DPop (CStoreSeq h v) ->
  exists x, pop_step (inbox s) (CStoreSeq h v) = Done x /\ inv g (consumed s x.1 (DPop x.2) []).
Proof.
  intros Hc. pose proof Hi as []. pose proof (pow_bounds k (ring_k _ _ i_ring0)).
  unfold consumer_ok, released, head_at, taken in *. rewrite Hc in *. cbn in *. subst h.
  set (n := length (received s)) in *.
  pose proof (i_slots0 n ltac:(lia)) as Hs.
  assert (g !! n = Some (v, Published)) as Hv by (apply i_taken0; by apply lookup_snoc_Some; right).
  eexists. split; [by eapply pop_store_seq|].
  assert (length (received s ++ [v]) = S n) as Hl by (rewrite length_app; cbn; lia).
  constructor; unfold consumer_ok, released, head_at, taken; cbn; rewrite ?app_nil_r; fold n; try done.
  - by apply ring_set_slot.
  - rewrite Hl. lia.
  - rewrite Hl in *. intros m Hm. destruct (decide (Z.of_nat m = Z.of_nat n + 2 ^ k)) as [Em|Hn].
    + replace (pos k (base + Z.of_nat m)) with (pos k (base + Z.of_nat n)).
      2: { unfold pos. rewrite Em. replace (base + (Z.of_nat n + 2 ^ k)) with
             (base + Z.of_nat n + 1 * 2 ^ k) by lia. by rewrite Z.mod_add by lia. }
      rewrite list_lookup_insert_eq by by apply pos_lt. unfold slot_of.
      rewrite Hv, decide_True by lia. cbn. rewrite lookup_ge_None_2 by lia.
      unfold W. do 3 f_equal. lia.
    + pose proof (cells_set_slot_ne (inbox s) k (base + Z.of_nat m) (base + Z.of_nat n)) as Hne.
      cbn in Hne. destruct i_ring0. by rewrite Hne, i_slots0 by lia.
  - intros j w pcj E. eapply producer_ok_free; [|by eapply i_producers0]. lia.
  - by intros w [|].
Qed.

Lemma store_head_consumed h v :
  consumer s = DPop (CStoreHead h v) ->
  exists x, pop_step (inbox s) (CStoreHead h v) = Done x /\ inv g (consumed s x.1 (DPop x.2) []).
Proof.
  intros Hc. pose proof Hi as [].
  unfold consumer_ok, released, head_at, taken in *. rewrite Hc in *. cbn in *. subst h.
  eexists. split; [apply pop_store_head|].
  constructor; unfold consumer_ok, released, head_at, taken; cbn; rewrite ?app_nil_r; try done.
  - by destruct i_ring0.
  - unfold W. f_equal. rewrite length_app. cbn. lia.
  - by intros w [|].
Qed.

(** Every step of the drain task is defined and keeps the invariant. *)
Lemma consumer_step_advances :
  exists s', act_step AConsumer s = Done s' /\ inv g s'.
Proof.
  cbn [act_step]. destruct (consumer s) as [|[|h|h|h v|h v|[v|]]] eqn:Hc.
  - zcase; eexists; (split; [done|]); [|done]. by apply inv_woken.
  - eexists. split; [done|]. apply inv_consumer_local; unfold consumer_ok, released, head_at, taken;
      rewrite ?Hc; cbn; rewrite ?app_nil_r; try done; [|by intros v [|]].
    rewrite (i_head g s Hi). unfold head_at, taken. by rewrite Hc, app_nil_r.
  - destruct (load_seq_consumed h Hc) as (pc & E & H). rewrite E. by eexists.
  - destruct (read_consumed h Hc) as (x & E & H). rewrite E. by eexists.
  - destruct (store_seq_consumed h v Hc) as (x & E & H). rewrite E. by eexists.
  - destruct (store_head_consumed h v Hc) as (x & E & H). rewrite E. by eexists.
  - eexists. split; [done|]. apply inv_consumer_local; unfold consumer_ok, released, head_at, taken;
      rewrite ?Hc; cbn; rewrite ?app_nil_r; try done. by intros w [|].
  - eexists. split; [done|]. apply inv_consumer_local; unfold consumer_ok, released, head_at, taken;
      rewrite ?Hc; cbn; rewrite ?app_nil_r; try done.
    intros v _ E. pose proof (i_wake g s Hi v) as Hw. rewrite Hc in Hw.
    destruct (Hw ltac:(by right) E) as [?|(j & w & Hj)]; [by left|right; exists j, w].
    cbn. by rewrite app_nil_r.
Qed.

Lemma act_step_advances a :
  Z.of_nat (length g) < 2 ^ 61 ->
  exists g' s', act_step a s = Done s' /\ inv g' s' /\ (length g' <= S (length g))%nat.
Proof.
  intros Hg. destruct a as [i v|i b|]; [cbn [act_step]..|].
  - destruct (producers s !! i) eqn:E; exists g; eexists; (split; [done|]); (split; [|lia]); [done|].
    by apply inv_push.
  - destruct (producers s !! i) as [[v pc]|] eqn:E; [|by exists g, s; auto].
    assert ((exists r, pc = PReturn r) \/ forall r, pc <> PReturn r) as [[r ->]|Hn]
      by (destruct pc; (by right) || (left; eauto)).
    { exists g. eexists. split; [done|]. split; [|lia]. by apply inv_returned. }
    destruct (producer_step_advances i v pc b E Hg) as (g' & x & Ex & Hx & Hl); [done|].
    exists g', (produced s i v pc x). split; [|done].
    destruct pc; try by rewrite Ex. by edestruct Hn.
  - destruct consumer_step_advances as (s' & E & H). exists g, s'. auto.
Qed.
End Facts.

Lemma exec_advances acts g s :
  inv g s -> Z.of_nat (length g + length acts) < 2 ^ 61 ->
  exists g' s', exec acts s = Done s' /\ inv g' s' /\ (length g' <= length g + length acts)%nat.
Proof.
  revert g s. induction acts as [|a acts IH]; intros g s Hi Hl; cbn [exec length] in *.
  - exists g, s. split_and!; [done..|lia].
  - destruct (act_step_advances g s Hi a) as (g1 & s1 & E1 & H1 & L1); [lia|].
    destruct (IH g1 s1 H1) as (g2 & s2 & E2 & H2 & L2); [lia|].
    exists g2, s2. rewrite E1, bind_ret. split_and!; [done..|lia].
Qed.

Lemma inv_start m : holds m k base [] -> inv [] (start m).
Proof.
  intros Hm. pose proof (holds_ring _ _ _ _ Hm) as Hr.
  destruct Hm as [_ _ _ _ Hhead Htail _ Hslots].
  assert (forall z, wrap64 (z + 0) = wrap64 z) as Hz by (intros; f_equal; lia).
  constructor; unfold consumer_ok, released, head_at, taken, W; cbn; rewrite ?Hz; try done.
  - rewrite Htail. f_equal. lens.
  - pose proof (pow_bounds k (ring_k _ _ Hr)). lia.
  - intros n Hn. unfold pos. rewrite Hslots by lia. by rewrite slot_for_free by lens.
Qed.

(** The state every schedule of fewer than 2^61 actions leads to. *)
Lemma exec_start m acts :
  holds m k base [] -> Z.of_nat (length acts) < 2 ^ 61 ->
  exists g s, exec acts (start m) = Done s /\ inv g s /\ Z.of_nat (length g) < 2 ^ 61.
Proof.
  intros Hm Hl. destruct (exec_advances acts [] (start m)) as (g & s & E & Hs & Hg);
    [by apply inv_start|done|]. exists g, s. split_and!; [done..|cbn in Hg; lia].
Qed.

Lemma inv_prefix g s : inv g s -> taken s `prefix_of` claimed s.
Proof.
  intros Hi. rewrite (i_claimed g s Hi). apply prefix_of_lookup. intros n v E.
  by rewrite list_lookup_fmap, (i_taken g s Hi n v E).
Qed.
Lemma inv_quiescent g s :
  inv g s -> producers s = ∅ -> consumer s = DWait -> eventfd s = 0 ->
  received s = claimed s /\ accepted s ≡ₚ claimed s.
Proof.
  intros Hi Hp Hc He. pose proof (i_accepted g s Hi) as Ha. pose proof (inv_prefix g s Hi) as Hpre.
  rewrite Hp, app_nil_r, <- (i_claimed g s Hi) in Ha. split; [|done].
  unfold taken in Hpre. rewrite Hc, app_nil_r in Hpre. apply prefix_length_eq; [done|].
  rewrite (i_claimed g s Hi), length_fmap. apply Nat.le_ngt. intros Hlt.
  destruct (lookup_lt_is_Some_2 g _ Hlt) as [[v [i|i|]] E].
  - apply (i_claims g s Hi) in E. by rewrite Hp in E.
  - apply (i_writes g s Hi) in E. by rewrite Hp in E.
  - destruct (i_wake g s Hi v) as [?|(i & w & [Ei|Ei])]; [by left|done|lia|..]; by rewrite Hp in Ei.
Qed.

(* ------------------------------------------------------------------ *)
(** * Progress *)

(** How many accesses a producer that runs alone is from its return. *)
Definition rank (s : Sys) (pc : push_pc T) : nat :=
  match pc with
  | PReturn _ => 0
  | PLoadHead _ => 1
  | PStoreSeq _ => 2
  | PWrite _ => 3
  | PCas t => if t =? tail (inbox s) then 4 else 6
  | PLoadTail => 6
  | PLoadSeq t => if t =? tail (inbox s) then 5 else 7
  end.

Lemma load_seq_rank g s i v t x :
  inv g s -> Z.of_nat (length g) < 2 ^ 61 -> producers s !! i = Some (v, PLoadSeq t) ->
  push_step false v (inbox s) (PLoadSeq t) = Done x ->
  (rank (produced s i v (PLoadSeq t) x) x.2 < rank s (PLoadSeq t))%nat.
Proof.
  intros Hi Hg Hx E. destruct (i_producers g s Hi i v _ Hx) as (n & -> & Hn).
  destruct (observed_slot g s Hi n Hn Hg) as (sl & d & Hs & Hq & Hd & _ & _ & Hpos).
  pose proof (push_load_seq false v (inbox s) k _ d sl (i_ring g s Hi) Hs Hq Hd) as E'.
  unfold W in E. rewrite E' in E. injection E as <-. fold (W n).
  destruct (Z.compare_spec d 0) as [|_|Hlt]; cbn [rank inbox produced fst snd]; [zcase; lia..|].
  rewrite (i_tail g s Hi).
  destruct (Z.eqb_spec (W n) (W (length g))) as [Hw|]; [|lia].
  apply W_inj in Hw; [|lia..]. specialize (Hpos Hlt). lia.
Qed.

Lemma producer_rank g s i v pc x :
  inv g s -> Z.of_nat (length g) < 2 ^ 61 -> producers s !! i = Some (v, pc) ->
  (forall r, pc <> PReturn r) -> push_step false v (inbox s) pc = Done x ->
  (rank (produced s i v pc x) x.2 < rank s pc)%nat.
Proof.
  intros Hi Hg Hx Hr E. destruct pc as [|t|t|t|t|t|r]; [| |cbn [push_step] in E..].
  - cbn in E. injection E as <-. cbn. rewrite Z.eqb_refl. lia.
  - by eapply load_seq_rank.
  - cbn [rank]. rewrite (Z.eqb_sym t). destruct (tail (inbox s) =? t); cbn in E; injection E as <-; cbn; [lia|].
    rewrite Z.eqb_refl. lia.
  - simplify_run. cbn. lia.
  - simplify_run. cbn. lia.
  - injection E as <-. cbn. lia.
  - by destruct (Hr r).
Qed.

(** A producer that runs alone returns. *)
Lemma producer_returns fuel g s i v pc :
  inv g s -> Z.of_nat (length g + fuel) < 2 ^ 61 ->
  producers s !! i = Some (v, pc) -> (rank s pc < fuel)%nat ->
  exists n g' s', exec (repeat (AProducer i false) n) s = Done s' /\ inv g' s' /\
    producers s' = delete i (producers s) /\ (length g' <= length g + fuel)%nat.
Proof.
  revert g s pc. induction fuel as [|fuel IH]; intros g s pc Hi Hg Hx Hf; [lia|].
  assert ((exists r, pc = PReturn r) \/ forall r, pc <> PReturn r) as [[r ->]|Hn]
    by (destruct pc; (by right) || (left; eauto)).
  { exists 1%nat, g, (returned s i v r). cbn. rewrite Hx.
    split_and!; [done|by apply inv_returned|done|lia]. }
  destruct (producer_step_advances g s Hi i v pc false Hx) as (g1 & x & E & H1 & L1); [lia|done|].
  pose proof (producer_rank g s i v pc x Hi ltac:(lia) Hx Hn E) as Hlt.
  destruct (IH g1 (produced s i v pc x) x.2) as (n & g' & s' & E' & H' & Hp & L'); [done|lia| |lia|].
  { cbn. by rewrite lookup_insert_eq. }
  exists (S n), g', s'. cbn [repeat exec act_step]. rewrite Hx.
  split_and!; [|done| |lia].
  - destruct pc; try (rewrite E; exact E'). by edestruct Hn.
  - rewrite Hp. cbn. apply delete_insert_eq.
Qed.

Definition no_push (a : act) : Prop := match a with APush _ _ => False | _ => True end.

Lemma exec_app l l' s : exec (l ++ l') s = (s' ← exec l s; exec l' s').
Proof.
  revert s. induction l as [|a l IH]; intros s; [done|]. cbn. destruct (act_step a s); [apply IH|done].
Qed.

(** As many pushes are under way as have been started, at most. *)
Lemma exec_producers l s s' :
  exec l s = Done s' -> (size (producers s') <= size (producers s) + length l)%nat.
Proof.
  revert s. induction l as [|a l IH]; intros s E; cbn in E; [injection E as <-; lia|].
  destruct (act_step a s) as [s1|] eqn:E1; [|done]. apply IH in E. cbn [length].
  assert (size (producers s1) <= S (size (producers s)))%nat; [|lia]. clear E.
  destruct a as [i v|i b|]; cbn [act_step] in E1.
  - destruct (producers s !! i) eqn:Ei; injection E1 as <-; cbn; [lia|]. by rewrite map_size_insert_None.
  - destruct (producers s !! i) as [[v pc]|] eqn:Ei; [|injection E1 as <-; lia].
    destruct pc; simplify_run; cbn; rewrite ?map_size_insert_Some by (by eexists); try lia.
    rewrite map_size_delete. destruct (producers s !! i); cbn; lia.
  - destruct (consumer s) as [|[| | | | |[]]]; simplify_run; cbn; try lia.
    destruct (0 <? eventfd s); injection E1 as <-; cbn; lia.
Qed.

(** Every push returns if its thread is scheduled. *)
Lemma producers_return n g s :
  inv g s -> size (producers s) = n -> Z.of_nat (length g + 8 * n) < 2 ^ 61 ->
  exists acts g' s', Forall no_push acts /\ exec acts s = Done s' /\ inv g' s' /\ producers s' = ∅ /\
    (length g' <= length g + 8 * n)%nat.
Proof.
  revert g s. induction n as [|n IH]; intros g s Hi Hn Hg.
  - exists [], g, s. apply map_size_empty_inv in Hn. split_and!; [constructor|done..|lia].
  - destruct (map_choose (producers s)) as (i & [v pc] & Hx).
    { intros E. rewrite E, map_size_empty in Hn. done. }
    destruct (producer_returns 8 g s i v pc Hi ltac:(lia) Hx) as (m & g1 & s1 & E1 & H1 & Hp & L1).
    { destruct pc; cbn; repeat zcase; lia. }
    destruct (IH g1 s1) as (l & g2 & s2 & Hl & E2 & H2 & Hp2 & L2); [done| |lia|].
    { rewrite Hp, map_size_delete_Some; [lia|by eexists]. }
    exists (repeat (AProducer i false) m ++ l), g2, s2. rewrite exec_app, E1. split_and!; try done; [|lia].
    apply Forall_app. split; [|done]. by clear; induction m; cbn; constructor.
Qed.

(** A bound on the accesses the drain task, running alone, is from sleeping. *)
Definition drain_rank (c : drain_pc T) : Z :=
  match c with
  | DWait => 0
  | DPop (CReturn None) => 1
  | DPop (CReturn (Some _)) => 3
  | DPop (CStoreHead _ _) => 4
  | DPop (CStoreSeq _ _) => 5
  | DPop (CRead _) => 6
  | DPop (CLoadSeq _) => 7
  | DPop CLoadHead => 8
  end.
Definition drain_measure (s : Sys) : Z :=
  10 * (len (claimed s) - len (received s)) + drain_rank (consumer s) +
  (if 0 <? eventfd s then 20 else 0).

Lemma drain_decreases s s' :
  act_step AConsumer s = Done s' -> consumer s <> DWait \/ 0 < eventfd s ->
  drain_measure s' < drain_measure s /\ producers s' = producers s.
Proof.
  intros E Hc. unfold drain_measure. cbn [act_step] in E.
  destruct (consumer s) as [|[|h|h|h v|h v|[v|]]] eqn:Ec; cbn [pop_step] in E.
  1: { destruct (Z.ltb_spec 0 (eventfd s)); [|by destruct Hc; [|lia]]. injection E as <-. cbn. split; [lia|done]. }
  all: simplify_run; cbn; rewrite ?app_nil_r; try (split; [lia|done]).
  - destruct (_ =? _); injection E0 as <-; cbn; split; (lia || done).
  - split; [lens|done].
Qed.

(** The drain task falls asleep if no producer runs. *)
Lemma drain_sleeps n g s :
  inv g s -> drain_measure s < Z.of_nat n ->
  exists acts s', Forall no_push acts /\ exec acts s = Done s' /\ inv g s' /\
    producers s' = producers s /\ consumer s' = DWait /\ eventfd s' = 0.
Proof.
  revert s. induction n as [|n IH]; intros s Hi Hn.
  - pose proof (inv_prefix g s Hi) as Hp. apply prefix_length in Hp.
    rewrite taken_length in Hp. unfold drain_measure, len in Hn.
    assert (0 <= drain_rank (consumer s)) by (destruct (consumer s) as [|[| | | | |[]]]; cbn; lia).
    destruct (0 <? eventfd s); lia.
  - assert (consumer s = DWait /\ eventfd s = 0 \/ (consumer s <> DWait \/ 0 < eventfd s)) as [[Hc He]|Hc].
    { pose proof (i_eventfd g s Hi). destruct (consumer s); [|by right; left].
      destruct (Z.eq_dec (eventfd s) 0); [by left|right; right; lia]. }
    { exists [], s. split_and!; [constructor|done..]. }
    destruct (consumer_step_advances g s Hi) as (s1 & E1 & H1).
    destruct (drain_decreases s s1 E1 Hc) as [Hlt Hp1].
    destruct (IH s1 H1 ltac:(lia)) as (l & s2 & Hl & E2 & H2 & Hp2 & Hc2).
    exists (AConsumer :: l), s2. cbn [exec]. rewrite E1, bind_ret, Hp2, Hp1.
    split_and!; [by constructor|done..|apply Hc2|apply Hc2].
Qed.

(** Distinct positions inside the ring have distinct slots. *)
Lemma slot_index_apart g s n m :
  inv g s ->
  Z.of_nat (released s) <= Z.of_nat n < Z.of_nat (released s) + 2 ^ k ->
  Z.of_nat (released s) <= Z.of_nat m < Z.of_nat (released s) + 2 ^ k ->
  n <> m -> slot_index (inbox s) (W n) <> slot_index (inbox s) (W m).
Proof.
  intros Hi Hn Hm Hne. pose proof (i_ring g s Hi) as Hr. unfold W.
  rewrite !(slot_index_wrap (inbox s) k) by done. intros E. apply Hne.
  apply mod_inj_window in E; [lia| |lia]. apply Z.pow_pos_nonneg; destruct Hr; lia.
Qed.
End Invariant.

(** The slot a thread accesses next without synchronisation, if any. *)
Definition producer_touches (x : T * push_pc T) : option Z :=
  match x.2 with PWrite t => Some t | _ => None end.
Definition consumer_touches (c : drain_pc T) : option Z :=
  match c with DPop (CRead h) => Some h | _ => None end.

(* ------------------------------------------------------------------ *)
(** * Properties *)


(** C12.  The unsynchronised accesses to a cell are exclusive: no schedule
    leads two threads to the same slot's value at once, be it two producers
    about to write or a producer about to write while the drain task is about
    to read; and a producer only ever writes to a cell that holds no value. *)
Theorem concurrent_race_free m k h acts :
  holds m k h [] -> Z.of_nat (length acts) < 2 ^ 61 ->
  exists s, exec acts (start m) = Done s /\
    (forall i x t, producers s !! i = Some x -> producer_touches x = Some t ->
       slot_at (inbox s) t = Done (mkSlot t None) /\
       (forall j y u, i <> j -> producers s !! j = Some y -> producer_touches y = Some u ->
          slot_index (inbox s) t <> slot_index (inbox s) u) /\
       (forall u, consumer_touches (consumer s) = Some u ->
          slot_index (inbox s) t <> slot_index (inbox s) u)).
Proof.
  intros Hm Hl. destruct (exec_start h k m acts Hm Hl) as (g & s & E & Hs & Hg). exists s.
  split; [done|]. intros i [v pc] t Hx Ht. destruct pc; try done. injection Ht as ->.
  destruct (i_producers _ _ _ _ Hs i v _ Hx) as (n & -> & En).
  pose proof (open_position _ _ _ _ Hs n _ _ En ltac:(done)) as Hopen.
  pose proof (window_position _ _ _ _ Hs n _ En Hopen) as Hwin. split_and!.
  - eapply slot_at_wrap; [apply (i_ring _ _ _ _ Hs)|]. rewrite (i_slots _ _ _ _ Hs n Hwin).
    unfold slot_of. by rewrite En.
  - intros j [w pcj] u Hij Hy Hu. destruct pcj; try done. injection Hu as ->.
    destruct (i_producers _ _ _ _ Hs j w _ Hy) as (p & -> & Ep).
    pose proof (open_position _ _ _ _ Hs p _ _ Ep ltac:(done)) as Hopen'.
    eapply slot_index_apart; [done..|by eapply window_position|congruence].
  - intros u Hu. pose proof (i_consumer _ _ _ _ Hs) as Hc. unfold consumer_ok in Hc.
    destruct (consumer s) as [|[]] eqn:Ec; try done. injection Hu as ->.
    destruct Hc as [-> [w Hw]]. eapply slot_index_apart; [done..| |congruence].
    eapply window_position; [done..|]. unfold taken. by rewrite Ec, app_nil_r.
Qed.

(** The inbox always comes to rest: after any schedule of fewer than
    2^56 actions, letting the threads finish (no new push is started) leads
    to a state where every push has returned, the drain task sleeps, no
    wake-up is pending, and everything accepted has been received once, in
    claim order. *)
Theorem concurrent_quiesces m k h acts :
  holds m k h [] -> Z.of_nat (length acts) < 2 ^ 56 ->
  exists more s, Forall no_push more /\ exec (acts ++ more) (start m) = Done s /\
    producers s = ∅ /\ consumer s = DWait /\ eventfd s = 0 /\
    received s = claimed s /\ accepted s ≡ₚ claimed s.
Proof.
  intros Hm Hl. destruct (exec_advances h k acts [] (start m)) as (g & s & E & Hs & Hg);
    [by apply inv_start|cbn; lia|]. pose proof (exec_producers acts (start m) s E) as Hsz.
  change (size (producers (start m))) with 0%nat in Hsz. cbn in Hg.
  destruct (producers_return h k _ g s Hs eq_refl) as (l1 & g1 & s1 & N1 & E1 & H1 & P1 & _); [lia|].
  destruct (drain_sleeps h k (S (Z.to_nat (drain_measure s1))) g1 s1 H1)
    as (l2 & s2 & N2 & E2 & H2 & P2 & C2 & F2); [lia|].
  destruct (inv_quiescent h k g1 s2 H2) as [Hr Ha]; [congruence|done..|].
  exists (l1 ++ l2), s2. rewrite exec_app, E, bind_ret, exec_app, E1, bind_ret.
  split_and!; try done; [by apply Forall_app|congruence].
Qed.

(** A push is refused only when the ring is full, also under
    contention and with a stale [tail]: at the access that decides it, every
    one of the [capacity] slots belongs to a claimed position the drain task
    has not released, and the value handed back is the caller's. *)
Theorem concurrent_full_is_full m k h acts :
  holds m k h [] -> Z.of_nat (length acts) < 2 ^ 61 ->
  exists s, exec acts (start m) = Done s /\
    (forall i v t b x r, producers s !! i = Some (v, PLoadSeq t) ->
       push_step b v (inbox s) (PLoadSeq t) = Done (x, PReturn r) ->
       r = Err v /\ len (claimed s) = Z.of_nat (released s) + capacity m).
Proof.
  intros Hm Hl. destruct (exec_start h k m acts Hm Hl) as (g & s & E & Hs & Hg). exists s.
  split; [done|]. intros i v t b x r Hx Hr.
  destruct (i_producers _ _ _ _ Hs i v _ Hx) as (n & -> & Hn).
  destruct (observed_slot _ _ _ _ Hs n Hn Hg) as (sl & d & Hsl & Hq & Hd & _ & Hneg & _).
  pose proof (push_load_seq b v (inbox s) k _ d sl (i_ring _ _ _ _ Hs) Hsl Hq Hd) as Hp.
  unfold W in Hr. rewrite Hp in Hr.
  destruct (Z.compare_spec d 0) as [|Hlt|]; simplify_eq. split; [done|].
  unfold capacity. rewrite (h_len _ _ _ _ Hm). unfold len.
  by rewrite (i_claimed _ _ _ _ Hs), length_fmap, Hneg.
Qed.
End System.
Arguments Sys T : clear implicits.
Arguments act T : clear implicits.

(* ------------------------------------------------------------------ *)
(** * Store buffers *)

(** Total store order: a store of a thread waits in the thread's buffer, where
    only the thread itself sees it, until it is flushed to memory in order; a
    compare-exchange first drains the buffer.  This is what x86 does with the
    [Release] stores and [Acquire] loads of the code, and C11 allows it. *)
Module Tso.
Section Tso.
Context {T : Type}.

Inductive store : Type :=
| SSeq (c s : Z)
| SVal (c : Z) (v : T)
| STake (c : Z)
| SHead (h : Z).

Definition apply_store (m : ShardInbox T) (st : store) : run (ShardInbox T) :=
  match st with
  | SSeq c s => store_seq m c s
  | SVal c v => slot_write m c v
  | STake c => x ← slot_read m c; mret x.1
  | SHead h => mret (set_head m h)
  end.
(** Memory as a thread with buffer [buf] sees it. *)
Fixpoint view (m : ShardInbox T) (buf : list store) : run (ShardInbox T) :=
  match buf with
  | [] => mret m
  | st :: buf => m' ← apply_store m st; view m' buf
  end.

(** The stores of an access. *)
Definition push_stores (v : T) (pc : push_pc T) : list store :=
  match pc with
  | PWrite t => [SVal t v]
  | PStoreSeq t => [SSeq t (wrapping_add t 1)]
  | _ => []
  end.
Definition pop_stores (m : ShardInbox T) (pc : pop_pc T) : list store :=
  match pc with
  | CRead h => [STake h]
  | CStoreSeq h _ => [SSeq h (wrapping_add h (mask m + 1))]
  | CStoreHead h _ => [SHead (wrapping_add h 1)]
  | _ => []
  end.

(** The system of the first part, with the producers' and the drain task's
    buffers; [inbox base] is the memory. *)
Record Sys : Type := mkTso {
  base : InboxConc.Sys T;
  buffers : gmap nat (list store);
  drain_buffer : list store;
}.
Definition start (m : ShardInbox T) : Sys := mkTso (InboxConc.start m) ∅ [].

Definition buffer (s : Sys) (i : nat) : list store := default [] (buffers s !! i).
Definition set_memory (s : InboxConc.Sys T) (m : ShardInbox T) : InboxConc.Sys T :=
  mkSys m (producers s) (consumer s) (eventfd s) (claimed s) (accepted s) (received s).

Inductive act : Type :=
| TRun (a : InboxConc.act T)
| TFlush (i : nat)
| TDrainFlush.

(** One access: computed on the thread's view, its stores buffered; a
    compare-exchange with an empty buffer goes to memory. *)
Definition run_access (a : InboxConc.act T) (s : Sys) : run Sys :=
  let b := base s in
  match a with
  | APush _ _ => b' ← act_step a b; mret (mkTso b' (buffers s) (drain_buffer s))
  | AProducer i _ =>
      match producers b !! i with
      | None => mret s
      | Some (_, PCas _) =>
          match buffer s i with
          | [] => b' ← act_step a b; mret (mkTso b' (buffers s) (drain_buffer s))
          | _ => mret s
          end
      | Some (v, pc) =>
          m ← view (inbox b) (buffer s i);
          b' ← act_step a (set_memory b m);
          mret (mkTso (set_memory b' (inbox b))
                  (<[i := buffer s i ++ push_stores v pc]> (buffers s)) (drain_buffer s))
      end
  | AConsumer =>
      let stores := match consumer b with DPop pc => pop_stores (inbox b) pc | DWait => [] end in
      m ← view (inbox b) (drain_buffer s);
      b' ← act_step a (set_memory b m);
      mret (mkTso (set_memory b' (inbox b)) (buffers s) (drain_buffer s ++ stores))
  end.

Definition act_step (a : act) (s : Sys) : run Sys :=
  match a with
  | TRun a => run_access a s
  | TFlush i =>
      match buffer s i with
      | [] => mret s
      | st :: buf =>
          m ← apply_store (inbox (base s)) st;
          mret (mkTso (set_memory (base s) m) (<[i := buf]> (buffers s)) (drain_buffer s))
      end
  | TDrainFlush =>
      match drain_buffer s with
      | [] => mret s
      | st :: buf =>
          m ← apply_store (inbox (base s)) st;
          mret (mkTso (set_memory (base s) m) (buffers s) buf)
      end
  end.
Fixpoint exec (acts : list act) (s : Sys) : run Sys :=
  match acts with
  | [] => mret s
  | a :: acts => s' ← act_step a s; exec acts s'
  end.

(** Flushed at once, the stores of an access are its effect on memory. *)
Lemma push_stores_sound b v m pc m' pc' :
  (forall t, pc <> PCas t) -> push_step b v m pc = Done (m', pc') -> view m (push_stores v pc) = Done m'.
Proof.
  intros Hc E. destruct pc; cbn in E |- *; try (by destruct (Hc tail)); simplify_run; try done;
    try (by rewrite E0). by destruct (_ ?= _); simplify_run.
Qed.
Lemma pop_stores_sound m pc m' pc' :
  0 <= mask m < usize_max ->
  pop_step m pc = Done (m', pc') -> view m (pop_stores m pc) = Done m'.
Proof.
  intros Hm E. destruct pc; cbn in E |- *; rewrite ?uadd_ok, ?bind_ret in E by lia; simplify_run; try done;
    try (by rewrite E0). by destruct (_ =? _); simplify_run.
Qed.

(** Thread [i] pushes [v] and performs every access up to its return; its
    stores are flushed before it looks at [head], or not. *)
Definition whole_push (i : nat) (v : T) (flush : bool) : list act :=
  TRun (APush i v) :: repeat (TRun (AProducer i false)) 5 ++
  (if flush then [TFlush i; TFlush i] else []) ++ repeat (TRun (AProducer i false)) 2.
(** Thread 0 pushes [a] and wakes the drain task; while the drain task pops
    [a], thread 1 pushes [b]; then every buffer is flushed. *)
Definition crossing (a b : T) : list act :=
  whole_push 0 a true ++
  repeat (TRun AConsumer) 8 ++
  whole_push 1 b false ++
  repeat (TRun AConsumer) 2 ++
  [TFlush 1; TFlush 1; TDrainFlush; TDrainFlush; TDrainFlush].

(** Pushes to a queue that is not empty never ask for a wake-up. *)
Lemma queue_never_kicks cap q (l : list (T * list bool)) :
  q <> [] ->
  Forall (fun r => r <> Pushed true)
    (queue_serve_all cap q ((fun x => Push x.1 x.2) <$> l)).2.
Proof.
  revert q. induction l as [|[v weak] l IH]; intros q Hq; cbn; [constructor|].
  destruct (len q <? cap); cbn; constructor; try done.
  - by rewrite bool_decide_eq_false_2.
  - apply IH. by destruct q.
  - by apply IH.
Qed.
End Tso.

(** C20.  The wake-up can be lost: the [Acquire] load of [head] does not
    order it after the [Release] store of [seq].  With store buffers there is
    a run on a fresh inbox in which both pushes return [Ok], all buffers are
    flushed, the drain task sleeps with no wake-up pending, and the second
    value is still in the ring; and from then on no push, whatever its value,
    reports [was_empty], so no producer ever wakes the drain task again. *)
Theorem store_buffering_loses_wakeup {T : Type} (a b : T) :
  exists m s, with_capacity 2 = Done m /\ exec (crossing a b) (start m) = Done s /\
    producers (base s) = ∅ /\ accepted (base s) = [a; b] /\
    Forall (fun x => x.2 = []) (map_to_list (buffers s)) /\ drain_buffer s = [] /\
    consumer (base s) = DWait /\ eventfd (base s) = 0 /\ received (base s) = [a] /\
    forall l : list (T * list bool), exists m' replies,
      serve_all (inbox (base s)) ((fun x => Push x.1 x.2) <$> l) = Done (m', replies) /\
      Forall (fun r => r <> Pushed true) replies.
Proof.
  eexists _, _. split; [reflexivity|]. split; [vm_compute; reflexivity|].
  split_and!; try reflexivity.
  - vm_compute. repeat constructor.
  - intros l. match goal with |- context [serve_all ?x] => assert (holds x 1 1 [b]) as Hm end.
    { constructor; try done. intros j Hj. assert (j = 1 \/ j = 2) as [-> | ->] by lia; reflexivity. }
    destruct (serve_all_refines ((fun x => Push x.1 x.2) <$> l) _ 1 1 [b] Hm) as (m' & h' & E & _).
    eexists _, _. split; [exact E|]. by apply queue_never_kicks.
Qed.
End Tso.

(* ------------------------------------------------------------------ *)
(** * Witnesses *)

(** Two threads race for the slot just before the counters wrap, thread 0
    losing a compare-exchange; the drain task is woken and takes both. *)
Definition ex_race : list (act bytes) :=
  [APush 0 (bs "a"); APush 1 (bs "b")] ++
  repeat (AProducer 0 false) 2 ++ repeat (AProducer 1 false) 3 ++
  repeat (AProducer 0 false) 6 ++ repeat (AProducer 1 false) 4 ++ [AProducer 0 false] ++
  repeat AConsumer 18.
(** Three threads, stopped where one is about to write and another reads the
    sequence number of an occupied slot. *)
Definition ex_contended : list (act bytes) :=
  [APush 0 (bs "a"); APush 1 (bs "b"); APush 2 (bs "c")] ++
  repeat (AProducer 0 false) 3 ++ repeat (AProducer 1 false) 3 ++ [AProducer 2 false].

(** What a run shows of a state. *)
Definition summary (r : run (Sys bytes)) :
    option (list bytes * list bytes * list (nat * (bytes * push_pc bytes)) * Z) :=
  match r with
  | Done s => Some (claimed s, received s, map_to_list (producers s), eventfd s)
  | Panic => None
  end.


Lemma concurrent_quiesces_witness :
  exists more s, Forall no_push more /\ exec (ex_contended ++ more) (start ex_wrapping) = Done s /\
    producers s = ∅ /\ consumer s = DWait /\ eventfd s = 0 /\
    received s = claimed s /\ accepted s ≡ₚ claimed s.
Proof.
  apply (concurrent_quiesces ex_wrapping 1 (2 ^ 64 - 1) ex_contended); [exact ex_wrapping_holds|done].
Defined.

Lemma concurrent_race_free_witness :
  summary (exec ex_contended (start ex_wrapping)) =
    Some ([bs "a"; bs "b"], [],
      [(2%nat, (bs "c", PLoadSeq 1)); (1%nat, (bs "b", PWrite 0)); (0%nat, (bs "a", PWrite (2 ^ 64 - 1)))], 0) /\
  exists s, exec ex_contended (start ex_wrapping) = Done s /\
    (forall i x t, producers s !! i = Some x -> producer_touches x = Some t ->
       slot_at (inbox s) t = Done (mkSlot t None) /\
       (forall j y u, i <> j -> producers s !! j = Some y -> producer_touches y = Some u ->
          slot_index (inbox s) t <> slot_index (inbox s) u) /\
       (forall u, consumer_touches (consumer s) = Some u ->
          slot_index (inbox s) t <> slot_index (inbox s) u)).
Proof.
  split; [vm_compute; reflexivity|].
  apply (concurrent_race_free ex_wrapping 1 (2 ^ 64 - 1) ex_contended); [exact ex_wrapping_holds|done].
Defined.

Lemma concurrent_full_is_full_witness :
  exists s, exec ex_contended (start ex_wrapping) = Done s /\
    (forall i v t b x r, producers s !! i = Some (v, PLoadSeq t) ->
       push_step b v (inbox s) (PLoadSeq t) = Done (x, PReturn r) ->
       r = Err v /\ len (claimed s) = Z.of_nat (released s) + capacity ex_wrapping).
Proof.
  apply (concurrent_full_is_full ex_wrapping 1 (2 ^ 64 - 1) ex_contended); [exact ex_wrapping_holds|done].
Defined.
