(* ===== verification/Topology.v ===== *)
(** Topology discovery ([aulon-core/src/topology.rs]) and the start-up of
    the server ([main] in [aulon-server/src/main.rs]): from sysfs text to the
    shards, and from the shards to the worker threads.

    A [&str] is its UTF-8 bytes.  The file system is an argument: the result
    of every directory listing and file read. *)
From Stdlib Require Import ZArith Lia Strings.Byte Sorting.Sorted.
From stdpp Require Import base gmap list sorting strings.
From S2P Require Import Prelude Wire Parse Emit Codec.

(* ------------------------------------------------------------------ *)
(** * Strings *)

(** The UTF-8 encodings of the Unicode white space characters. *)
Definition white_space : list bytes :=
  [[x09]; [x0a]; [x0b]; [x0c]; [x0d]; [x20]; [xc2; x85]; [xc2; xa0]; [xe1; x9a; x80];
   [xe2; x80; x80]; [xe2; x80; x81]; [xe2; x80; x82]; [xe2; x80; x83]; [xe2; x80; x84];
   [xe2; x80; x85]; [xe2; x80; x86]; [xe2; x80; x87]; [xe2; x80; x88]; [xe2; x80; x89];
   [xe2; x80; x8a]; [xe2; x80; xa8]; [xe2; x80; xa9]; [xe2; x80; xaf]; [xe2; x81; x9f];
   [xe3; x80; x80]].

(** [s.strip_prefix(p)]. *)
Fixpoint strip_prefix (p s : bytes) : option bytes :=
  match p, s with
  | [], _ => Some s
  | a :: p, b :: s => if bool_decide (a = b) then strip_prefix p s else None
  | _ :: _, [] => None
  end.
Definition strip_any (ps : list bytes) (s : bytes) : option bytes :=
  foldr (fun p r => match strip_prefix p s with Some t => Some t | None => r end) None ps.
(** Strips one of [ps] as long as one is a prefix; every one of them is not
    empty, so [length s] rounds are enough. *)
Fixpoint trim_rounds (fuel : nat) (ps : list bytes) (s : bytes) : bytes :=
  match fuel with
  | O => s
  | S fuel => match strip_any ps s with Some t => trim_rounds fuel ps t | None => s end
  end.
Definition trim_start (s : bytes) : bytes := trim_rounds (length s) white_space s.
Definition trim_end (s : bytes) : bytes :=
  rev (trim_rounds (length s) (map (@rev byte) white_space) (rev s)).
Definition trim (s : bytes) : bytes := trim_end (trim_start s).

(** [s.split(c)]. *)
Fixpoint split (c : byte) (s : bytes) : list bytes :=
  match s with
  | [] => [[]]
  | b :: s =>
      if bool_decide (b = c) then [] :: split c s
      else match split c s with
           | part :: parts => (b :: part) :: parts
           | [] => [[b]]
           end
  end.
(** [s.split_once(c)]. *)
Fixpoint split_once (c : byte) (s : bytes) : option (bytes * bytes) :=
  match s with
  | [] => None
  | b :: s =>
      if bool_decide (b = c) then Some ([], s)
      else match split_once c s with Some (x, y) => Some (b :: x, y) | None => None end
  end.

(** [str::parse::<u32>]: an optional [+], then digits, without overflow. *)
Fixpoint u32_digits (n : Z) (s : bytes) : option Z :=
  match s with
  | [] => Some n
  | b :: s =>
      if is_ascii_digit b then
        m ← checked_mul u32_max n 10;
        n ← checked_add u32_max m (byte_val b - 48);
        u32_digits n s
      else None
  end.
Definition parse_u32 (s : bytes) : option Z :=
  match s with
  | [] => None
  | b :: s' =>
      if bool_decide (b = x2b) then match s' with [] => None | _ => u32_digits 0 s' end
      else u32_digits 0 s
  end.

(* ------------------------------------------------------------------ *)
(** * The parsers *)

Definition parse_cpu_dir_name (name : bytes) : option Z :=
  rest ← strip_prefix (bs "cpu") name;
  if bool_decide (rest = []) || negb (forallb is_ascii_digit rest) then None else parse_u32 rest.

(** [lo..=hi]. *)
Definition range_inclusive (lo hi : Z) : list Z :=
  (fun i => lo + Z.of_nat i) <$> List.seq 0 (Z.to_nat (hi - lo + 1)).

Definition parse_part (part : bytes) : list Z :=
  let part := trim part in
  if bool_decide (part = []) then [] else
  match split_once x2d part with
  | Some (lo, hi) =>
      match parse_u32 lo, parse_u32 hi with
      | Some lo, Some hi => range_inclusive lo hi
      | _, _ => []
      end
  | None => match parse_u32 part with Some v => [v] | None => [] end
  end.
Definition parse_cpu_list (s : bytes) : list Z := split x2c s ≫= parse_part.

(* ------------------------------------------------------------------ *)
(** * sysfs *)

(** A directory entry under [cpuN/cache] ([None] fields: the name is not
    UTF-8, the read failed). *)
Record CacheEntry : Type := mkCacheEntry {
  cache_name : option bytes;
  level : option bytes;
  shared_cpu_list : option bytes;
}.
(** A directory entry of the root; [cache] is the listing of [cpuN/cache]. *)
Record CpuEntry : Type := mkCpuEntry {
  cpu_name : option bytes;
  cache : option (list (option CacheEntry));
}.

Record Shard : Type := mkShard { shard_id : Z; cpus : list Z }.
Record Topology : Type := mkTopology { shards : list Shard }.

(** The [for] loop of [read_l3_shared_list]. *)
Fixpoint l3_loop (entries : list (option CacheEntry)) : option (list Z) :=
  match entries with
  | [] => None
  | entry :: entries =>
      entry ← entry;
      name ← cache_name entry;
      match strip_prefix (bs "index") name with
      | None => l3_loop entries
      | Some _ =>
          match level entry with
          | None => l3_loop entries
          | Some level_str =>
              if negb (bool_decide (trim level_str = bs "3")) then l3_loop entries else
              shared_str ← shared_cpu_list entry;
              Some (parse_cpu_list (trim shared_str))
          end
      end
  end.
Definition read_l3_shared_list (cache_root : option (list (option CacheEntry))) : option (list Z) :=
  entries ← cache_root; l3_loop entries.

(** [shared.iter().min()]. *)
Definition list_min (l : list Z) : option Z :=
  match l with [] => None | a :: l => Some (foldr Z.min a l) end.

(** [by_canonical.entry(canonical).or_default()] and the push: the
    [BTreeMap] is the list of its entries in key order. *)
Definition bucket_push (bucket : list Z) (cpu_id : Z) : list Z :=
  if bool_decide (cpu_id ∈ bucket) then bucket else bucket ++ [cpu_id].
Fixpoint entry_push (canonical cpu_id : Z) (by_canonical : list (Z * list Z)) : list (Z * list Z) :=
  match by_canonical with
  | [] => [(canonical, bucket_push [] cpu_id)]
  | (k, bucket) :: rest =>
      if canonical <? k then (canonical, bucket_push [] cpu_id) :: by_canonical
      else if canonical =? k then (k, bucket_push bucket cpu_id) :: rest
      else (k, bucket) :: entry_push canonical cpu_id rest
  end.

(** The [for] loop of [detect_in]. *)
Fixpoint detect_loop (entries : list (option CpuEntry)) (by_canonical : list (Z * list Z)) :
    option (list (Z * list Z)) :=
  match entries with
  | [] => Some by_canonical
  | entry :: entries =>
      entry ← entry;
      name ← cpu_name entry;
      match parse_cpu_dir_name name with
      | None => detect_loop entries by_canonical
      | Some cpu_id =>
          match read_l3_shared_list (cache entry) with
          | None => detect_loop entries by_canonical
          | Some shared =>
              match list_min shared with
              | None => detect_loop entries by_canonical
              | Some canonical => detect_loop entries (entry_push canonical cpu_id by_canonical)
              end
          end
      end
  end.

(** [u32::try_from(i).unwrap_or(u32::MAX)]. *)
Definition to_u32 (i : nat) : Z := if Z.of_nat i <=? u32_max then Z.of_nat i else u32_max.

Definition number_shards (by_canonical : list (Z * list Z)) : list Shard :=
  imap (fun idx x => mkShard (to_u32 idx) (merge_sort Z.le x.2)) by_canonical.

Definition detect_in (is_dir : bool) (cpu_root : option (list (option CpuEntry))) : option Topology :=
  if negb is_dir then None else
  entries ← cpu_root;
  by_canonical ← detect_loop entries [];
  if bool_decide (by_canonical = []) then None
  else Some (mkTopology (number_shards by_canonical)).

(** [available_parallelism] is the answer of the platform, a [NonZeroUsize]. *)
Definition single (available_parallelism : option positive) : Topology :=
  let n := Pos.to_nat (default 1%positive available_parallelism) in
  mkTopology [mkShard 0 (to_u32 <$> List.seq 0 n)].
Definition detect (is_dir : bool) (cpu_root : option (list (option CpuEntry)))
    (available_parallelism : option positive) : Topology :=
  default (single available_parallelism) (detect_in is_dir cpu_root).

(* ------------------------------------------------------------------ *)
(** * Start-up *)

Definition synthetic_topology (n : Z) : Topology :=
  mkTopology ((fun i => mkShard (Z.of_nat i) [Z.of_nat i]) <$> List.seq 0 (Z.to_nat n)).

(** The topology [main] uses; [force] is the variable [AULON_FORCE_SHARDS]. *)
Definition main_topology (force : option bytes) (detected : Topology) : Topology :=
  match force ≫= parse_u32 with
  | Some n => if 0 <? n then synthetic_topology n else detected
  | None => detected
  end.

(** [readers[i].take().expect(..)]. *)
Definition take_reader (readers : list bool) (i : Z) : run (list bool) :=
  r ← index readers i;
  _ ← assert_ r;
  index_set readers i false.

(** The arguments [(shard_id, cpu_id)] of the [worker_main] calls of [main];
    a [true] of [readers] is a reader not yet taken. *)
Fixpoint spawn_all (shards : list Shard) (readers : list bool) : run (list (Z * option Z)) :=
  match shards with
  | [] => mret []
  | shard :: shards =>
      readers ← take_reader readers (shard_id shard);
      rest ← spawn_all shards readers;
      mret ((shard_id shard, head (cpus shard)) :: rest)
  end.
Definition launch (t : Topology) : run (list (Z * option Z)) :=
  let readers := repeat true (length (shards t)) in
  match shards t with
  | [shard] =>
      _ ← take_reader readers 0;
      mret [(shard_id shard, head (cpus shard))]
  | shards => spawn_all shards readers
  end.

(* ------------------------------------------------------------------ *)
(** * Decimal numbers *)

Lemma parse_usize_loop_ge n s m : 0 <= n -> parse_usize_loop n s = Some m -> n <= m.
Proof.
  revert n. induction s as [|b s IH]; intros n Hn E; cbn in *; [injection E; lia|].
  destruct (is_ascii_digit b) eqn:Hb; cbn in *; [|done]. apply is_ascii_digit_val in Hb.
  destruct (checked_mul usize_max n 10) as [n10|] eqn:E1; cbn in *; [|done].
  destruct (checked_add usize_max n10 (byte_val b - 48)) as [n'|] eqn:E2; cbn in *; [|done].
  apply checked_mul_Some in E1 as [-> _]. apply checked_add_Some in E2 as [-> _].
  apply IH in E; lia.
Qed.

Lemma u32_digits_usize n s m :
  0 <= n -> parse_usize_loop n s = Some m -> m <= u32_max -> u32_digits n s = Some m.
Proof.
  revert n. induction s as [|b s IH]; intros n Hn E Hm; cbn in *; [done|].
  destruct (is_ascii_digit b) eqn:Hb; cbn in *; [|done]. apply is_ascii_digit_val in Hb.
  destruct (checked_mul usize_max n 10) as [n10|] eqn:E1; cbn in *; [|done].
  destruct (checked_add usize_max n10 (byte_val b - 48)) as [n'|] eqn:E2; cbn in *; [|done].
  apply checked_mul_Some in E1 as [-> _]. apply checked_add_Some in E2 as [-> _].
  assert (n * 10 + (byte_val b - 48) <= m) by (eapply parse_usize_loop_ge; [|exact E]; lia).
  rewrite checked_mul_ok by lia. cbn. rewrite checked_add_ok by lia. cbn. apply IH; [lia|done..].
Qed.

Lemma decimal_digits n : 0 <= n -> decimal n <> [] /\ Forall (fun c => is_ascii_digit c = true) (decimal n).
Proof.
  intros Hn. split; [apply decimal_field; lia|]. unfold decimal. zcase; [repeat constructor|].
  apply Forall_rev, rev_digits_digits.
Qed.

Lemma parse_u32_decimal n : 0 <= n <= u32_max -> parse_u32 (decimal n) = Some n.
Proof.
  intros Hn. destruct (decimal_digits n) as [Hne Hd]; [lia|].
  pose proof (parse_usize_decimal n) as E. unfold u32_max, u64_max in *. specialize (E ltac:(lia)).
  destruct (decimal n) as [|c l]; [done|]. unfold parse_u32. rewrite bool_decide_eq_false_2.
  - apply u32_digits_usize; [lia|exact E|unfold u32_max; lia].
  - intros ->. by apply Forall_cons_1 in Hd as [? _].
Qed.

(* ------------------------------------------------------------------ *)
(** * CPU lists *)

(** Not a white space character, nor the start or end of one. *)
Definition solid (c : byte) : Prop :=
  forall s, strip_any white_space (c :: s) = None /\ strip_any (map (@rev byte) white_space) (c :: s) = None.

Lemma digit_solid c : is_ascii_digit c = true -> solid c.
Proof. intros H s. destruct c; try discriminate H; split; reflexivity. Qed.

Lemma trim_rounds_solid fuel ps c s : strip_any ps (c :: s) = None -> trim_rounds fuel ps (c :: s) = c :: s.
Proof. intros H. destruct fuel; cbn [trim_rounds]; [done|]. by rewrite H. Qed.

Lemma trim_solid s t c d : s = c :: t -> last s = Some d -> solid c -> solid d -> trim s = s.
Proof.
  intros -> Hl Hc Hd. unfold trim, trim_start. rewrite trim_rounds_solid by apply Hc.
  unfold trim_end. apply last_Some in Hl as [l' Hl]. rewrite Hl, rev_app_distr. cbn [rev app].
  rewrite trim_rounds_solid by apply Hd. cbn. by rewrite rev_involutive.
Qed.
(** The line a file of sysfs holds. *)
Lemma trim_line s t c d :
  s = c :: t -> last s = Some d -> solid c -> solid d -> trim (s ++ [LF]) = s.
Proof.
  intros -> Hl Hc Hd. unfold trim, trim_start. cbn [app]. rewrite trim_rounds_solid by apply Hc.
  unfold trim_end. rewrite app_comm_cons, rev_app_distr. cbn [rev app length trim_rounds].
  change (strip_any _ (LF :: ?x)) with (Some x). cbv iota beta.
  apply last_Some in Hl as [l' Hl]. assert (rev (c :: t) = d :: rev l') as Hr.
  { by rewrite Hl, rev_app_distr. }
  cbn [rev] in Hr. rewrite Hr, trim_rounds_solid by apply Hd. rewrite <- Hr.
  change (rev t ++ [c]) with (rev (c :: t)). by rewrite rev_involutive.
Qed.

Lemma split_app c s t : c ∉ s -> split c (s ++ c :: t) = s :: split c t.
Proof.
  induction s as [|b s IH]; intros H; cbn; [by rewrite bool_decide_eq_true_2|].
  apply not_elem_of_cons in H as [Hb H]. rewrite bool_decide_eq_false_2 by congruence.
  by rewrite IH.
Qed.
Lemma split_none c s : c ∉ s -> split c s = [s].
Proof.
  induction s as [|b s IH]; intros H; cbn; [done|].
  apply not_elem_of_cons in H as [Hb H]. rewrite bool_decide_eq_false_2 by congruence.
  by rewrite IH.
Qed.
Lemma split_once_app c s t : c ∉ s -> split_once c (s ++ c :: t) = Some (s, t).
Proof.
  induction s as [|b s IH]; intros H; cbn; [by rewrite bool_decide_eq_true_2|].
  apply not_elem_of_cons in H as [Hb H]. rewrite bool_decide_eq_false_2 by congruence.
  by rewrite IH.
Qed.
Lemma split_once_none c s : c ∉ s -> split_once c s = None.
Proof.
  induction s as [|b s IH]; intros H; cbn; [done|].
  apply not_elem_of_cons in H as [Hb H]. rewrite bool_decide_eq_false_2 by congruence.
  by rewrite IH.
Qed.

(** The kernel's text for a set of CPUs, as ranges. *)
Definition range_text (r : Z * Z) : bytes :=
  if r.1 =? r.2 then decimal r.1 else decimal r.1 ++ [x2d] ++ decimal r.2.
Fixpoint cpu_list_text (ranges : list (Z * Z)) : bytes :=
  match ranges with
  | [] => []
  | [r] => range_text r
  | r :: ranges => range_text r ++ [x2c] ++ cpu_list_text ranges
  end.
Definition range_ok (r : Z * Z) : Prop := 0 <= r.1 <= r.2 /\ r.2 <= u32_max.

Lemma decimal_no n c : 0 <= n -> is_ascii_digit c = false -> c ∉ decimal n.
Proof.
  intros Hn Hc Hin. destruct (decimal_digits n Hn) as [_ Hd].
  rewrite Forall_forall in Hd. by rewrite (Hd c Hin) in Hc.
Qed.

(** First and last characters are digits. *)
Definition digit_ends (s : bytes) : Prop :=
  exists c t d, s = c :: t /\ last s = Some d /\ is_ascii_digit c = true /\ is_ascii_digit d = true.

Lemma decimal_ends n : 0 <= n -> digit_ends (decimal n).
Proof.
  intros Hn. destruct (decimal_digits n Hn) as [Hne Hd]. destruct (decimal n) as [|c t] eqn:E; [done|].
  destruct (last (c :: t)) as [d|] eqn:El; [|by apply last_None in El].
  exists c, t, d. split_and!; [done..|by apply Forall_cons_1 in Hd as [? _]|].
  rewrite Forall_forall in Hd. apply Hd. apply last_Some in El as [l ->]. set_solver.
Qed.
Lemma ends_app s t u : digit_ends s -> digit_ends u -> digit_ends (s ++ t ++ u).
Proof.
  intros (c & s' & _ & -> & _ & Hc & _) (c' & u' & d & -> & Hl & _ & Hd).
  exists c, (s' ++ t ++ c' :: u'), d. split_and!; [done| |done..].
  rewrite !last_app. by rewrite Hl.
Qed.
Lemma ends_trim s : digit_ends s -> trim s = s.
Proof. intros (c & t & d & E & Hl & Hc & Hd). eapply trim_solid; eauto using digit_solid. Qed.

Lemma range_text_ends r : range_ok r -> digit_ends (range_text r).
Proof.
  intros [??]. unfold range_text. zcase; [apply decimal_ends; lia|].
  apply ends_app; apply decimal_ends; lia.
Qed.
Lemma range_text_no_comma r : range_ok r -> x2c ∉ range_text r.
Proof.
  intros [??]. unfold range_text. zcase; [by apply decimal_no; [lia|]|].
  rewrite !elem_of_app, list_elem_of_singleton.
  intros [H'|[H'|H']]; [|done|]; revert H'; by apply decimal_no; [lia|].
Qed.
Lemma parse_part_range r : range_ok r -> parse_part (range_text r) = range_inclusive r.1 r.2.
Proof.
  intros Hr. pose proof (range_text_ends r Hr) as He. unfold parse_part. rewrite ends_trim by done.
  rewrite bool_decide_eq_false_2 by (destruct He as (c & t & d & -> & _); done).
  destruct Hr as [??]. unfold range_text. destruct (Z.eqb_spec r.1 r.2) as [E|E].
  - rewrite split_once_none by by apply decimal_no; [lia|].
    rewrite parse_u32_decimal by lia. unfold range_inclusive. rewrite <- E.
    replace (Z.to_nat _) with 1%nat by lia. cbn. f_equal. lia.
  - cbn [app]. rewrite split_once_app by by apply decimal_no; [lia|]. by rewrite !parse_u32_decimal by lia.
Qed.
Lemma cpu_list_text_ends r ranges : Forall range_ok (r :: ranges) -> digit_ends (cpu_list_text (r :: ranges)).
Proof.
  revert r. induction ranges as [|r' ranges IH]; intros r [Hr Hs]%Forall_cons_1; [by apply range_text_ends|].
  cbn [cpu_list_text]. apply ends_app; [by apply range_text_ends|by apply IH].
Qed.
Lemma parse_cpu_list_text ranges :
  Forall range_ok ranges -> parse_cpu_list (cpu_list_text ranges) = ranges ≫= (fun r => range_inclusive r.1 r.2).
Proof.
  unfold parse_cpu_list. induction 1 as [|r ranges Hr Hs IH]; [done|].
  destruct ranges as [|r' ranges].
  - cbn [cpu_list_text]. rewrite split_none by by apply range_text_no_comma.
    cbn. by rewrite !app_nil_r, parse_part_range.
  - change (cpu_list_text (r :: r' :: ranges)) with (range_text r ++ x2c :: cpu_list_text (r' :: ranges)).
    rewrite split_app by by apply range_text_no_comma. rewrite bind_cons, IH, parse_part_range by done. done.
Qed.

(** [parse_cpu_list] reads back what the kernel prints: for every list
    of ranges of CPU numbers, the line of [shared_cpu_list] (with its newline,
    trimmed as [read_l3_shared_list] does) is parsed to exactly the numbers of
    the ranges, in order. *)
Theorem cpu_list_roundtrip ranges :
  Forall range_ok ranges ->
  parse_cpu_list (trim (cpu_list_text ranges ++ [LF])) = ranges ≫= (fun r => range_inclusive r.1 r.2).
Proof.
  intros H. rewrite <- parse_cpu_list_text by done. f_equal. destruct ranges as [|r ranges]; [done|].
  destruct (cpu_list_text_ends r ranges H) as (c & t & d & E & Hl & Hc & Hd).
  eapply trim_line; eauto using digit_solid.
Qed.
Example parse_cpu_list_example : parse_cpu_list (bs "0-1, 4,6-7,x,9-8") = [0; 1; 4; 6; 7].
Proof. reflexivity. Qed.

(* ------------------------------------------------------------------ *)
(** * Grouping by L3 domain *)

(** The CPU of a directory entry and the representative (least CPU) of its
    L3 domain, when the entry names a CPU with an L3 cache. *)
Definition l3_domain (e : CpuEntry) : option (Z * Z) :=
  name ← cpu_name e;
  cpu ← parse_cpu_dir_name name;
  shared ← read_l3_shared_list (cache e);
  canonical ← list_min shared;
  Some (cpu, canonical).
Definition l3_pairs (entries : list (option CpuEntry)) : list (Z * Z) :=
  omap (fun e => e ≫= l3_domain) entries.
Definition readable (entries : list (option CpuEntry)) : Prop :=
  Forall (fun e => is_Some (e ≫= cpu_name)) entries.

Lemma l3_pairs_cons e entries :
  l3_pairs (e :: entries) =
  match e ≫= l3_domain with Some p => p :: l3_pairs entries | None => l3_pairs entries end.
Proof. reflexivity. Qed.

Lemma detect_loop_pairs entries acc :
  readable entries ->
  detect_loop entries acc = Some (fold_left (fun m p => entry_push p.2 p.1 m) (l3_pairs entries) acc).
Proof.
  intros H. revert acc. induction H as [|e entries [n Hn] _ IH]; intros acc; [done|].
  destruct e as [e|]; [|done]. cbn [mbind option_bind] in Hn. rewrite l3_pairs_cons. unfold l3_domain.
  cbn [detect_loop mbind option_bind]. rewrite Hn. cbn [mbind option_bind].
  destruct (parse_cpu_dir_name n) as [cpu|]; cbn [mbind option_bind]; [|by rewrite IH].
  destruct (read_l3_shared_list (cache e)) as [shared|]; cbn [mbind option_bind]; [|by rewrite IH].
  destruct (list_min shared) as [canonical|]; cbn [mbind option_bind]; by rewrite IH.
Qed.
Lemma detect_loop_unreadable entries acc : ~ readable entries -> detect_loop entries acc = None.
Proof.
  revert acc. induction entries as [|e entries IH]; intros acc H; [by destruct H; constructor|].
  cbn [detect_loop]. destruct e as [e|]; cbn [mbind option_bind]; [|done].
  destruct (cpu_name e) as [n|] eqn:Hn; cbn [mbind option_bind]; [|done].
  assert (~ readable entries) as H'.
  { intros Hr. apply H. constructor; [|done]. cbn. by rewrite Hn. }
  destruct (parse_cpu_dir_name n); [|by apply IH].
  destruct (read_l3_shared_list (cache e)) as [shared|]; [|by apply IH].
  destruct (list_min shared); by apply IH.
Qed.

Fixpoint bucket_of (key : Z) (m : list (Z * list Z)) : list Z :=
  match m with
  | [] => []
  | (k, b) :: m => if key =? k then b else bucket_of key m
  end.
Abbreviation keys_sorted m := (StronglySorted Z.lt (fst <$> m)).

Lemma bucket_of_below key m : Forall (Z.lt key) m.*1 -> bucket_of key m = [].
Proof.
  induction m as [|[k b] m IH]; [done|]. cbn. intros [Hk Hm]%Forall_cons_1. cbn in *. zb. auto.
Qed.
Lemma keys_of_push x c m k : k ∈ (entry_push x c m).*1 <-> k = x \/ k ∈ m.*1.
Proof.
  induction m as [|[y b] m IH]; cbn; [set_solver|]. repeat zcase; cbn; set_solver by lia.
Qed.
Lemma keys_sorted_push x c m : keys_sorted m -> keys_sorted (entry_push x c m).
Proof.
  induction m as [|[y b] m IH]; cbn; intros H; [by repeat constructor|].
  apply StronglySorted_inv in H as [Hs Hy]. zcase; [|zcase]; cbn.
  - constructor; [by constructor|]. constructor; [done|]. eapply Forall_impl; [exact Hy|]. cbn. lia.
  - by constructor.
  - constructor; [by apply IH|]. apply Forall_forall. intros k Hk. apply keys_of_push in Hk as [->|Hk]; [lia|].
    rewrite Forall_forall in Hy. auto.
Qed.
Lemma bucket_of_push x c m k :
  keys_sorted m ->
  bucket_of k (entry_push x c m) = if k =? x then bucket_push (bucket_of x m) c else bucket_of k m.
Proof.
  induction m as [|[y b] m IH]; cbn; intros H; [by repeat zcase|].
  apply StronglySorted_inv in H as [Hs Hy]. destruct (Z.ltb_spec x y) as [Hxy|Hxy]; cbn.
  - destruct (Z.eqb_spec k x) as [E|Hk]; [|done]. zb. rewrite bucket_of_below; [done|].
    eapply Forall_impl; [exact Hy|]. cbn. lia.
  - destruct (Z.eqb_spec x y) as [E|Hne]; cbn; [rewrite E; by destruct (Z.eqb_spec k y)|].
    rewrite IH by done. destruct (Z.eqb_spec k y) as [E|]; [by rewrite (proj2 (Z.eqb_neq k x)) by lia|done].
Qed.

(** The map built from the pairs. *)
Record grouped (pairs : list (Z * Z)) (m : list (Z * list Z)) : Prop := {
  g_sorted : keys_sorted m;
  g_keys : forall k, k ∈ m.*1 <-> exists c, (c, k) ∈ pairs;
  g_bucket : forall k, NoDup (bucket_of k m) /\ forall c, c ∈ bucket_of k m <-> (c, k) ∈ pairs;
}.

Lemma bucket_push_spec b c :
  NoDup b -> NoDup (bucket_push b c) /\ forall x, x ∈ bucket_push b c <-> x = c \/ x ∈ b.
Proof.
  intros Hb. unfold bucket_push. case_bool_decide; [split; [done|set_solver]|].
  split; [|set_solver]. apply NoDup_app. split_and!; [done|set_solver|apply NoDup_singleton].
Qed.
Lemma grouped_push pairs m c k :
  grouped pairs m -> grouped (pairs ++ [(c, k)]) (entry_push k c m).
Proof.
  intros [Hs Hk Hb]. constructor; [by apply keys_sorted_push|..].
  - intros x. rewrite keys_of_push, Hk. split.
    + intros [->|[c' Hc]]; [exists c|exists c']; set_solver.
    + intros [c' Hc]. apply elem_of_app in Hc as [Hc|Hc]; [by right; exists c'|left].
      apply list_elem_of_singleton in Hc. congruence.
  - intros x. rewrite bucket_of_push by done. destruct (Hb x) as [Hn He].
    destruct (Z.eqb_spec x k) as [->|Hne].
    + destruct (bucket_push_spec (bucket_of k m) c Hn) as [Hn' He']. split; [done|].
      intros y. rewrite He', He, elem_of_app, list_elem_of_singleton. naive_solver.
    + split; [done|]. intros y. rewrite He, elem_of_app, list_elem_of_singleton. naive_solver.
Qed.
Lemma grouped_all pairs pairs' m :
  grouped pairs m ->
  grouped (pairs ++ pairs') (fold_left (fun m p => entry_push p.2 p.1 m) pairs' m).
Proof.
  revert pairs m. induction pairs' as [|[c k] pairs' IH]; intros pairs m H; cbn; [by rewrite app_nil_r|].
  change ((c, k) :: pairs') with ([(c, k)] ++ pairs'). rewrite app_assoc. by apply IH, grouped_push.
Qed.
Lemma grouped_pairs pairs : grouped pairs (fold_left (fun m p => entry_push p.2 p.1 m) pairs []).
Proof.
  apply (grouped_all [] pairs []). constructor; [constructor|set_solver|].
  intros k. cbn. split; [apply NoDup_nil_2|]. set_solver.
Qed.

Lemma bucket_of_lookup m i k b : keys_sorted m -> m !! i = Some (k, b) -> bucket_of k m = b.
Proof.
  revert i. induction m as [|[y b'] m IH]; intros i Hs E; [done|]. cbn in *.
  apply StronglySorted_inv in Hs as [Hs Hy]. destruct i as [|i]; cbn in *.
  - injection E as -> ->. by rewrite Z.eqb_refl.
  - rewrite Forall_forall in Hy. assert (y < k) by (apply Hy, list_elem_of_fmap; exists (k, b);
      split; [done|by eapply list_elem_of_lookup_2]). zb. by eapply IH.
Qed.

Lemma strictly_sorted l : StronglySorted Z.le l -> NoDup l -> StronglySorted Z.lt l.
Proof.
  induction 1 as [|a l Hs IH Ha]; intros Hn; [constructor|]. apply NoDup_cons in Hn as [Hin Hn].
  constructor; [by apply IH|]. apply Forall_forall. intros x Hx. rewrite Forall_forall in Ha.
  specialize (Ha x Hx). assert (x <> a) by congruence. lia.
Qed.
#[local] Instance Zle_total : Total Z.le.
Proof. intros x y. lia. Qed.
#[local] Instance Zle_trans : Transitive Z.le.
Proof. intros x y z. lia. Qed.

(** What discovery promises of the shards, one per L3 domain: dense
    identifiers, each with the CPUs of its domain and no others, in order. *)
Definition partitioned (pairs : list (Z * Z)) (l : list Shard) : Prop :=
  exists ks, length ks = length l /\ StronglySorted Z.lt ks /\
    (forall k, k ∈ ks <-> exists c, (c, k) ∈ pairs) /\
    forall i sh, l !! i = Some sh ->
      shard_id sh = to_u32 i /\ StronglySorted Z.lt (cpus sh) /\ cpus sh <> [] /\
      exists k, ks !! i = Some k /\ forall c, c ∈ cpus sh <-> (c, k) ∈ pairs.

Lemma number_shards_partitioned pairs m : grouped pairs m -> partitioned pairs (number_shards m).
Proof.
  intros [Hs Hk Hb]. exists m.*1. unfold number_shards. rewrite length_imap, length_fmap.
  split_and!; [done..|]. intros i sh E. rewrite list_lookup_imap in E.
  destruct (m !! i) as [[k b]|] eqn:Em; [|done]. injection E as <-. cbn.
  assert (k ∈ m.*1) as Hin by (apply list_elem_of_fmap; exists (k, b); split; [done|by eapply list_elem_of_lookup_2]).
  apply Hk in Hin as [c Hc]. destruct (Hb k) as [Hn He].
  rewrite (bucket_of_lookup m i k b Hs Em) in Hn, He.
  pose proof (merge_sort_Permutation Z.le b) as Hp.
  assert (forall c, c ∈ merge_sort Z.le b <-> (c, k) ∈ pairs) as He' by (intros; by rewrite Hp).
  split_and!; [done| | |].
  - apply strictly_sorted; [apply StronglySorted_merge_sort; apply _|by rewrite Hp].
  - intros Hnil. apply He' in Hc. rewrite Hnil in Hc. by apply elem_of_nil in Hc.
  - exists k. split; [by rewrite list_lookup_fmap, Em|done].
Qed.

(** What [detect_in] answers, on every branch. *)
Definition discovered (is_dir : bool) (cpu_root : option (list (option CpuEntry))) (r : option Topology) : Prop :=
  match r with
  | Some t => is_dir = true /\ exists entries, cpu_root = Some entries /\ readable entries /\
      shards t <> [] /\ partitioned (l3_pairs entries) (shards t)
  | None => is_dir = false \/ cpu_root = None \/
      exists entries, cpu_root = Some entries /\ (~ readable entries \/ l3_pairs entries = [])
  end.
Lemma detect_in_discovered is_dir cpu_root : discovered is_dir cpu_root (detect_in is_dir cpu_root).
Proof.
  unfold discovered, detect_in. destruct is_dir; cbn; [|by left]. destruct cpu_root as [entries|]; cbn; [|by right; left].
  assert (readable entries \/ ~ readable entries) as [Hr|Hr].
  { destruct (decide (readable entries)); auto. }
  - rewrite detect_loop_pairs by done. cbn. pose proof (grouped_pairs (l3_pairs entries)) as Hg.
    case_bool_decide as Hnil.
    + right. right. exists entries. split; [done|right]. destruct (l3_pairs entries) as [|[c k] l] eqn:E; [done|].
      assert (k ∈ ([] : list (Z * list Z)).*1) as Hin.
      { rewrite <- Hnil. apply (g_keys _ _ Hg). exists c. set_solver. }
      by apply elem_of_nil in Hin.
    + split; [done|]. exists entries. split_and!; [done..| |by apply number_shards_partitioned].
      cbn. intros E. apply Hnil. unfold number_shards in E.
      apply (f_equal length) in E. rewrite length_imap in E. by apply nil_length_inv.
  - rewrite detect_loop_unreadable by done. right. right. exists entries. auto.
Qed.

(** C30.  [detect_in] is exact on every branch: it answers [None] exactly
    when the root is not a directory, cannot be listed, has an unreadable
    entry, or shows no CPU with an L3 cache; otherwise the shards partition
    the CPUs that have one by L3 domain, one non-empty shard per domain in
    the order of their least CPU, with identifiers 0, 1, 2... and the CPUs of
    a shard strictly ascending. *)
Theorem detect_in_groups is_dir cpu_root : discovered is_dir cpu_root (detect_in is_dir cpu_root).
Proof. apply detect_in_discovered. Qed.

(* ------------------------------------------------------------------ *)
(** * Start-up *)

Definition dense (l : list Shard) : Prop :=
  forall i sh, l !! i = Some sh -> shard_id sh = Z.of_nat i /\ cpus sh <> [].

Lemma take_reader_next j n :
  take_reader (repeat false j ++ repeat true (S n)) (Z.of_nat j) =
    Done (repeat false (S j) ++ repeat true n).
Proof.
  unfold take_reader, index, index_set. zb. rewrite Nat2Z.id.
  rewrite lookup_app_r by by rewrite repeat_length. rewrite repeat_length, Nat.sub_diag. cbn.
  rewrite (proj2 (Z.ltb_lt _ _)) by (unfold len; rewrite length_app; cbn; rewrite !repeat_length; lia).
  f_equal. rewrite insert_app_r_alt by by rewrite repeat_length.
  rewrite repeat_length, Nat.sub_diag. cbn.
  rewrite app_comm_cons, repeat_cons, <- app_assoc. done.
Qed.
Lemma spawn_all_dense l j :
  (forall i sh, l !! i = Some sh -> shard_id sh = Z.of_nat (j + i)) ->
  spawn_all l (repeat false j ++ repeat true (length l)) =
    Done ((fun sh => (shard_id sh, head (cpus sh))) <$> l).
Proof.
  revert j. induction l as [|sh l IH]; intros j H; [done|]. cbn [spawn_all length].
  rewrite (H 0%nat sh eq_refl), Nat.add_0_r, take_reader_next, bind_ret.
  rewrite IH.
  - rewrite bind_ret. cbn. by rewrite (H 0%nat sh eq_refl), Nat.add_0_r.
  - intros i sh' E. rewrite (H (S i) sh' E). lia.
Qed.
Lemma launch_dense t : dense (shards t) ->
  launch t = Done ((fun sh => (shard_id sh, head (cpus sh))) <$> shards t).
Proof.
  intros H. unfold launch. pose proof (spawn_all_dense (shards t) 0) as Hs.
  destruct (shards t) as [|a [|b l]]; [done|done|]. apply Hs. intros i sh E. by apply H.
Qed.

Lemma single_dense par : dense (shards (single par)).
Proof.
  intros [|i] sh E; cbn in E; [|done]. injection E as <-. split; [done|].
  cbn. by destruct (Pos.to_nat (default 1%positive par)) eqn:E; [lia|].
Qed.
Lemma synthetic_dense n : dense (shards (synthetic_topology n)).
Proof.
  intros i sh E. cbn in E. rewrite list_lookup_fmap in E.
  apply fmap_Some in E as (j & Hj & ->). apply lookup_seq in Hj as [-> _]. done.
Qed.
Lemma partitioned_dense pairs l : partitioned pairs l -> len l <= 2 ^ 32 -> dense l.
Proof.
  intros (ks & _ & _ & _ & H) Hl i sh E. destruct (H i sh E) as (Hid & _ & Hne & _). split; [|done].
  apply lookup_lt_Some in E. rewrite Hid. unfold to_u32, u32_max, len in *.
  by rewrite (proj2 (Z.leb_le _ _)) by lia.
Qed.

Lemma main_topology_dense force is_dir cpu_root par :
  let t := main_topology force (detect is_dir cpu_root par) in
  len (shards t) <= 2 ^ 32 -> shards t <> [] /\ dense (shards t).
Proof.
  intros t. assert (len (shards (detect is_dir cpu_root par)) <= 2 ^ 32 ->
    shards (detect is_dir cpu_root par) <> [] /\ dense (shards (detect is_dir cpu_root par))) as Hdet.
  { unfold detect. pose proof (detect_in_discovered is_dir cpu_root) as Hg.
    destruct (detect_in is_dir cpu_root) as [t'|]; cbn [default]; [|intros _; split; [done|apply single_dense]].
    destruct Hg as (_ & entries & _ & _ & Hne & Hp). intros. split; [done|]. by eapply partitioned_dense. }
  subst t. unfold main_topology. destruct (force ≫= parse_u32) as [n|]; [|apply Hdet].
  destruct (Z.ltb_spec 0 n); [|apply Hdet]. intros _. split; [|apply synthetic_dense].
  cbn. destruct (Z.to_nat n) eqn:E; [lia|done].
Qed.


(* ------------------------------------------------------------------ *)
(** * Witnesses *)

(** The fixture of the repository's test: four CPUs in two L3 domains, and
    a directory that names no CPU. *)
Definition ex_cpu (name shared : bytes) : option CpuEntry :=
  Some (mkCpuEntry (Some name)
    (Some [Some (mkCacheEntry (Some (bs "index0")) (Some (bs "1")) None);
           Some (mkCacheEntry (Some (bs "index3")) (Some (bs "3" ++ [LF])) (Some (shared ++ [LF])))])).
Definition ex_sysfs : list (option CpuEntry) :=
  [ex_cpu (bs "cpu3") (bs "2-3"); ex_cpu (bs "cpu0") (bs "0-1"); Some (mkCpuEntry (Some (bs "cpufreq")) None);
   ex_cpu (bs "cpu2") (bs "2-3"); ex_cpu (bs "cpu1") (bs "0-1")].

Lemma cpu_list_roundtrip_witness :
  Forall range_ok [(0, 3); (8, 8); (12, 15)] /\
  cpu_list_text [(0, 3); (8, 8); (12, 15)] = bs "0-3,8,12-15" /\
  parse_cpu_list (trim (cpu_list_text [(0, 3); (8, 8); (12, 15)] ++ [LF])) =
    [0; 1; 2; 3; 8; 12; 13; 14; 15].
Proof.
  assert (Forall range_ok [(0, 3); (8, 8); (12, 15)]) as H.
  { repeat (apply Forall_cons_2; [unfold range_ok, u32_max; cbn; lia|]). apply Forall_nil_2. }
  split; [exact H|]. split; [vm_compute; reflexivity|].
  exact (cpu_list_roundtrip [(0, 3); (8, 8); (12, 15)] H).
Defined.

