(* ===== verification/Startup.v ===== *)
(** Start-up and failure of the server: the eventfds and inboxes [main] makes,
    the listener every shard binds, how shards stop, and what a shard that has
    stopped does to the others.

    What the platform does is given by functions: the answer to every socket
    call, whether the buffers register, what the accepts return. *)
From Stdlib Require Import ZArith Lia Strings.Byte.
From stdpp Require Import functions base gmap list strings relations.
From S2P Require Import Prelude Topology Subject Trie TrieSpec ConnState ShardInbox EventFd Wire Parse Emit Worker Dispatch DispatchSpec Session SessionSpec Broker Server ServerRun.

(* ------------------------------------------------------------------ *)
(** * The listener *)

Inductive SocketAddr : Type := V4 (text : bytes) | V6 (text : bytes).
Inductive Domain : Type := IPV4 | IPV6.

(** The calls on a socket. *)
Inductive call : Type :=
| NewStream (domain : Domain)
| SetReuseAddress (on : bool)
| SetReusePort (on : bool)
| SetNonblocking (on : bool)
| BindTo (addr : SocketAddr)
| Listen (backlog : Z).

Section Listener.
(** The platform's answer to a call after those made so far. *)
Variable os : list call -> call -> result unit Z.

Definition issue (log : list call) (c : call) : result (list call) Z :=
  (_ <-? os log c; Ok (log ++ [c]))%result.

(** The listener is the calls that made it. *)
Definition bind_so_reuseport (addr : SocketAddr) : result (list call) Z :=
  let domain := match addr with V4 _ => IPV4 | V6 _ => IPV6 end in
  (socket <-? issue [] (NewStream domain);
   socket <-? issue socket (SetReuseAddress true);
   socket <-? issue socket (SetReusePort true);
   socket <-? issue socket (SetNonblocking true);
   socket <-? issue socket (BindTo addr);
   issue socket (Listen 1024))%result.
End Listener.

(* ------------------------------------------------------------------ *)
(** * A shard's thread *)

(** [worker_main] has returned an error, or it is in its accept loop with so
    many streams accepted, with or without a drain task. *)
Inductive shard_state : Type :=
| Stopped (e : Z)
| Serving (accepted : nat) (drain_task : bool).

Record platform : Type := mkPlatform {
  set_affinity : Z -> bool;
  sockets : list call -> call -> result unit Z;
  register_buffers : result unit Z;
  accepts : list (result unit Z);
}.

Definition LISTEN_ADDR : SocketAddr := V4 (bs "0.0.0.0:4222").

(** [listener.accept().await?] in a loop. *)
Fixpoint accept_loop (drain : bool) (accepted : nat) (l : list (result unit Z)) : shard_state :=
  match l with
  | [] => Serving accepted drain
  | Ok _ :: l => accept_loop drain (S accepted) l
  | Err e :: _ => Stopped e
  end.

(** The warnings logged, and the state of the shard. *)
Definition worker_main (p : platform) (shard_count : Z) (cpu_id : option Z) : list Z * shard_state :=
  let warnings := match cpu_id with
    | Some cpu => if set_affinity p cpu then [] else [cpu]
    | None => [] end in
  (warnings,
   match bind_so_reuseport (sockets p) LISTEN_ADDR with
   | Err e => Stopped e
   | Ok _ =>
       match register_buffers p with
       | Err e => Stopped e
       | Ok _ => accept_loop (1 <? shard_count) 0 (accepts p)
       end
   end).

(* ------------------------------------------------------------------ *)
(** * main *)

(** [main] returns, or its shards are running. *)
Inductive main_state : Type :=
| Returned (r : result unit Z)
| Running (shards : list shard_state).

Definition is_stopped (s : shard_state) : bool := match s with Stopped _ => true | Serving _ _ => false end.

Section Main.
Context {K : Type} `{Kernel K}.

(** Dropping descriptors: those of the pairs, and the reader of a shard that
    has stopped or, with a single shard, has no drain task. *)
Definition close_all (fds : list Z) (k : K) : K := fold_left (fun k f => sys_close f k) fds k.
Definition pair_fds (pairs : list (EventfdReader * EventfdWaker)) : list Z :=
  (file ∘ fst <$> pairs) ++ (waker_fd ∘ snd <$> pairs).
Definition given_up (pairs : list (EventfdReader * EventfdWaker)) (x : Z * option Z) (s : shard_state) : list Z :=
  match s with
  | Serving _ true => []
  | _ => from_option (fun rw => [file rw.1]) [] (pairs !! Z.to_nat x.1)
  end.

(** One eventfd pair per shard; [?] drops those made before. *)
Fixpoint make_pairs (n : nat) (acc : list (EventfdReader * EventfdWaker)) (k : K) :
    K * result (list (EventfdReader * EventfdWaker)) Z :=
  match n with
  | O => (k, Ok acc)
  | S n =>
      let '(k, r) := eventfd_pair k in
      match r with
      | Err e => (close_all (pair_fds acc) k, Err e)
      | Ok rw => make_pairs n (acc ++ [rw]) k
      end
  end.

(** [force] is [AULON_FORCE_SHARDS], [detected] what [detect] returns, and
    [plat i] the platform as shard [i] finds it. *)
Definition main (force : option bytes) (detected : Topology.Topology) (plat : Z -> platform) (k : K) : run (K * main_state) :=
  let topology := main_topology force detected in
  let shard_count := length (shards topology) in
  let '(k, r) := make_pairs shard_count [] k in
  match r with
  | Err e => Done (k, Returned (Err e))
  | Ok pairs =>
      workers ← launch topology;
      let started := (fun x => (worker_main (plat x.1) (Z.of_nat shard_count) x.2).2) <$> workers in
      Done match started with
           | [Stopped e] => (close_all (pair_fds pairs) k, Returned (Err e))
           | _ => if forallb is_stopped started then (close_all (pair_fds pairs) k, Returned (Ok tt))
                  else (close_all (concat (zip_with (given_up pairs) workers started)) k, Running started)
           end
  end.
End Main.

(* ------------------------------------------------------------------ *)
(** * The listener: what is set, and when *)

Definition listener_calls (addr : SocketAddr) : list call :=
  [NewStream match addr with V4 _ => IPV4 | V6 _ => IPV6 end; SetReuseAddress true; SetReusePort true;
   SetNonblocking true; BindTo addr; Listen 1024].

(** Calls in a row, up to the first that is refused. *)
Fixpoint issue_all (os : list call -> call -> result unit Z) (log : list call) (cs : list call) : result (list call) Z :=
  match cs with
  | [] => Ok log
  | c :: cs => (log <-? issue os log c; issue_all os log cs)%result
  end.
Lemma bind_issues os addr : bind_so_reuseport os addr = issue_all os [] (listener_calls addr).
Proof.
  unfold bind_so_reuseport, listener_calls. cbn [issue_all]. unfold issue, and_then.
  repeat (destruct (os _ _); [|done]). done.
Qed.

Lemma issue_all_spec os log cs :
  match issue_all os log cs with
  | Ok log' => log' = log ++ cs /\ forall i c, cs !! i = Some c -> os (log ++ take i cs) c = Ok tt
  | Err e => exists i c, cs !! i = Some c /\ os (log ++ take i cs) c = Err e
  end.
Proof.
  revert log. induction cs as [|c cs IH]; intros log; cbn [issue_all]; [by rewrite app_nil_r|].
  unfold issue. destruct (os log c) as [[]|e] eqn:Ec; cbn [and_then].
  2: { exists 0%nat, c. cbn. by rewrite app_nil_r. }
  specialize (IH (log ++ [c])). destruct (issue_all os (log ++ [c]) cs) as [log'|e].
  - destruct IH as [-> Hi]. rewrite <- app_assoc. split; [done|]. intros [|i] c' Hc; cbn in *.
    + injection Hc as <-. by rewrite app_nil_r.
    + specialize (Hi i c' Hc). by rewrite <- app_assoc in Hi.
  - destruct IH as (i & c' & Hc & Ho). exists (S i), c'. cbn. by rewrite <- app_assoc in Ho.
Qed.

(* ------------------------------------------------------------------ *)
(** * The eventfds *)

Section Pairs.
Context {K : Type} `{KernelLaws K}.

Lemma close_all_ok fds (k : K) f :
  descriptors (close_all fds k) !! f = if decide (f ∈ fds) then None else descriptors k !! f.
Proof.
  unfold close_all. revert k. induction fds as [|g fds IH]; intros k; cbn; [done|]. rewrite IH, close_ok.
  destruct (decide (f = g)) as [->|Hne].
  - rewrite lookup_delete_eq. by repeat case_decide; set_solver.
  - rewrite lookup_delete_ne by done. by repeat case_decide; set_solver.
Qed.

(** The pairs made so far: new and different descriptors, each pair on one
    eventfd, all else as before. *)
Record pairs_open (k0 k : K) (acc : list (EventfdReader * EventfdWaker)) : Prop := {
  po_new : forall f, f ∈ pair_fds acc -> descriptors k0 !! f = None;
  po_rest : forall f, f ∉ pair_fds acc -> descriptors k !! f = descriptors k0 !! f;
  po_pair : forall r w, (r, w) ∈ acc -> exists o,
    descriptors k !! file r = Some o /\ descriptors k !! waker_fd w = Some o;
  po_nodup : NoDup (pair_fds acc);
}.

Lemma elem_of_pair_fds f acc : f ∈ pair_fds acc <-> exists r w, (r, w) ∈ acc /\ (f = file r \/ f = waker_fd w).
Proof.
  unfold pair_fds. rewrite elem_of_app, !list_elem_of_fmap. split.
  - intros [([r w] & -> & Hin)|([r w] & -> & Hin)]; exists r, w; cbn; auto.
  - intros (r & w & Hin & [->| ->]); [left|right]; by exists (r, w).
Qed.
Lemma pair_fds_snoc acc r w : pair_fds (acc ++ [(r, w)]) ≡ₚ file r :: waker_fd w :: pair_fds acc.
Proof. unfold pair_fds. rewrite !fmap_app. cbn. solve_Permutation. Qed.

Lemma pairs_closed k0 k k' acc :
  pairs_open k0 k acc -> descriptors k' = descriptors k -> descriptors (close_all (pair_fds acc) k') = descriptors k0.
Proof.
  intros [Hnew Hrest _ _] E. apply map_eq. intros f. rewrite close_all_ok, E.
  case_decide; [by rewrite Hnew|by apply Hrest].
Qed.

Lemma pairs_open_snoc k0 k k' acc r w :
  pairs_open k0 k acc -> eventfd_pair k = (k', Ok (r, w)) -> pairs_open k0 k' (acc ++ [(r, w)]).
Proof.
  intros [Hnew Hrest Hpair Hnd] E. pose proof (eventfd_pair_open k) as Ho. rewrite E in Ho.
  destruct Ho as (o & Hr & Hw & _ & Hne & Hr0 & Hw0 & Hsame).
  assert (forall f, f ∈ pair_fds acc -> is_Some (descriptors k !! f)) as Hopen.
  { intros f (r' & w' & Hin & Hf)%elem_of_pair_fds. destruct (Hpair r' w' Hin) as (o' & H1 & H2).
    destruct Hf as [->| ->]; eauto. }
  assert (forall f, descriptors k !! f = None -> f ∉ pair_fds acc) as Hout.
  { intros f Hf Hin%Hopen. rewrite Hf in Hin. by destruct Hin. }
  constructor.
  - intros f. rewrite pair_fds_snoc, !elem_of_cons. intros [->|[->|Hf]]; [| |auto]; rewrite <- Hrest; auto.
  - intros f. rewrite pair_fds_snoc, !not_elem_of_cons. intros (Hf1 & Hf2 & Hf). by rewrite Hsame, Hrest.
  - intros r' w' [Hin|[= -> ->]%list_elem_of_singleton]%elem_of_app; [|by exists o].
    destruct (Hpair r' w' Hin) as (o' & H1 & H2). exists o'. split; rewrite Hsame; congruence.
  - rewrite pair_fds_snoc. rewrite !NoDup_cons, not_elem_of_cons. auto.
Qed.

Lemma make_pairs_open n k0 k acc :
  pairs_open k0 k acc ->
  match make_pairs n acc k with
  | (k', Err _) => descriptors k' = descriptors k0
  | (k', Ok acc') => pairs_open k0 k' acc' /\ length acc' = (length acc + n)%nat
  end.
Proof.
  revert k acc. induction n as [|n IH]; intros k acc Ho; cbn [make_pairs]; [split; [done|lia]|].
  destruct (eventfd_pair k) as [k1 [[r w]|e]] eqn:E.
  - specialize (IH k1 (acc ++ [(r, w)]) (pairs_open_snoc _ _ _ _ _ _ Ho E)). rewrite length_app in IH.
    destruct (make_pairs n (acc ++ [(r, w)]) k1) as [k' [acc'|]]; [|done].
    cbn [length] in IH. destruct IH. split; [done|lia].
  - pose proof (eventfd_pair_open k) as Hc. rewrite E in Hc. by eapply pairs_closed.
Qed.

(** With dense identifiers, the readers given up are those of the shards
    without a drain task. *)
Lemma given_up_readers pairs (workers : list (Z * option Z)) started f :
  length pairs = length workers -> length started = length workers ->
  (forall i x, workers !! i = Some x -> x.1 = Z.of_nat i) ->
  f ∈ concat (zip_with (given_up pairs) workers started) <->
  exists i rw s, pairs !! i = Some rw /\ started !! i = Some s /\ f = file rw.1 /\ forall n, s <> Serving n true.
Proof.
  intros Hlp Hls Hid. rewrite list_elem_of_In, in_concat. setoid_rewrite <- list_elem_of_In. split.
  - intros (l & Hl & Hf). apply list_elem_of_lookup in Hl as [i Hi].
    apply lookup_zip_with_Some in Hi as (x & s & -> & Hx & Hs). unfold given_up in Hf.
    rewrite (Hid i x Hx), Nat2Z.id in Hf.
    destruct (lookup_lt_is_Some_2 pairs i) as [rw Hrw]; [rewrite Hlp; by eapply lookup_lt_Some|].
    rewrite Hrw in Hf. exists i, rw, s. destruct s as [e|n []]; cbn in Hf; [set_solver|by apply not_elem_of_nil in Hf|set_solver].
  - intros (i & rw & s & Hrw & Hs & -> & Hne).
    destruct (lookup_lt_is_Some_2 workers i) as [x Hx]; [rewrite <- Hlp; by eapply lookup_lt_Some|].
    exists (given_up pairs x s). split.
    + apply list_elem_of_lookup. exists i. apply lookup_zip_with_Some. eauto.
    + unfold given_up. rewrite (Hid i x Hx), Nat2Z.id, Hrw. destruct s as [e|n []]; cbn; [set_solver|by destruct (Hne n)|set_solver].
Qed.

Lemma pairs_running k0 k pairs (workers : list (Z * option Z)) started :
  pairs_open k0 k pairs -> length pairs = length workers -> length started = length workers ->
  (forall i x, workers !! i = Some x -> x.1 = Z.of_nat i) ->
  let k' := close_all (concat (zip_with (given_up pairs) workers started)) k in
  (forall f, f ∉ pair_fds pairs -> descriptors k' !! f = descriptors k0 !! f) /\
  forall i r w, pairs !! i = Some (r, w) -> exists o, descriptors k' !! waker_fd w = Some o /\
    descriptors k' !! file r = match started !! i with Some (Serving _ true) => Some o | _ => None end.
Proof.
  intros [_ Hrest Hpair Hnd] Hlp Hls Hid k'.
  pose proof (fun f => given_up_readers pairs workers started f Hlp Hls Hid) as Hg.
  unfold pair_fds in Hnd. apply NoDup_app in Hnd as (Hnd & Hdis & _). split.
  - intros f Hf. unfold k'. rewrite close_all_ok, decide_False; [by apply Hrest|].
    intros (i & rw & s & Hrw & _ & -> & _)%Hg. apply Hf, elem_of_app. left.
    apply list_elem_of_fmap. exists rw. split; [done|by eapply list_elem_of_lookup_2].
  - intros i r w Hi. destruct (Hpair r w) as (o & Hr & Hw); [by eapply list_elem_of_lookup_2|].
    exists o. unfold k'. rewrite !close_all_ok. split.
    + rewrite decide_False; [done|]. intros (j & rw & s & Hrw & _ & E & _)%Hg.
      apply (Hdis (waker_fd w)); [rewrite E|]; apply list_elem_of_fmap; [exists rw|exists (r, w)];
        (split; [done|by eapply list_elem_of_lookup_2]).
    + destruct (lookup_lt_is_Some_2 started i) as [s Hs]; [rewrite Hls, <- Hlp; by eapply lookup_lt_Some|].
      rewrite Hs. case_decide as Hin.
      * apply Hg in Hin as (j & rw & s' & Hrw & Hs' & E & Hne).
        assert (i = j) as <-.
        { eapply (NoDup_lookup (file ∘ fst <$> pairs)); [done|by rewrite list_lookup_fmap, Hi|].
          rewrite list_lookup_fmap, Hrw. cbn. by rewrite E. }
        rewrite Hs in Hs'. injection Hs' as <-. destruct s as [|n []]; [done|by destruct (Hne n)|done].
      * rewrite Hr. destruct s as [|n []] eqn:Es; [|done|]; destruct Hin; apply Hg; exists i, (r, w), s; rewrite Es; by eauto.
Qed.
End Pairs.

(* ------------------------------------------------------------------ *)
(** * How the server starts and stops *)

(** Why a shard stops: a socket call, the registration or an accept failed. *)
Inductive cause (p : platform) (e : Z) : Prop :=
| cause_socket i c : listener_calls LISTEN_ADDR !! i = Some c ->
    sockets p (take i (listener_calls LISTEN_ADDR)) c = Err e -> cause p e
| cause_register : register_buffers p = Err e -> cause p e
| cause_accept : Err e ∈ accepts p -> cause p e.

Lemma accept_loop_stops drain n l e : accept_loop drain n l = Stopped e -> Err e ∈ l.
Proof.
  revert n. induction l as [|[u|e'] l IH]; intros n; cbn; [done| |].
  - intros H%IH. by right.
  - intros [= ->]. by left.
Qed.
Lemma worker_main_stops p n cpu e : (worker_main p n cpu).2 = Stopped e -> cause p e.
Proof.
  unfold worker_main. cbn [snd]. rewrite bind_issues.
  pose proof (issue_all_spec (sockets p) [] (listener_calls LISTEN_ADDR)) as Hb.
  destruct (issue_all _ _ _) as [log|e'].
  - destruct (register_buffers p) as [u|e'] eqn:Er; [|intros [= ->]; by constructor 2].
    intros H%accept_loop_stops. by constructor 3.
  - destruct Hb as (i & c & Hc & Ho). intros [= ->]. by econstructor 1.
Qed.

Lemma forallb_stopped l : forallb is_stopped l = true <-> Forall (fun s => exists e, s = Stopped e) l.
Proof.
  rewrite forallb_forall, Forall_forall. setoid_rewrite list_elem_of_In. split; intros H s Hs; specialize (H s Hs).
  - destruct s; [by eexists|done].
  - by destruct H as [e ->].
Qed.

Lemma all_stopped {A} (state : A -> shard_state) l :
  forallb is_stopped (state <$> l) = true -> forall x, x ∈ l -> exists e, state x = Stopped e.
Proof. rewrite forallb_stopped, Forall_fmap, Forall_forall. done. Qed.
Lemma only_stopped {A} (l : list shard_state) (f : Z -> A) (b : A) :
  (exists e, l = [Stopped e] /\ match l with [Stopped e] => f e | _ => b end = f e) \/
  (forall e, l <> [Stopped e]) /\ match l with [Stopped e] => f e | _ => b end = b.
Proof. destruct l as [|[e|] [|]]; [right|left; by exists e|right..]; done. Qed.
Lemma some_serving {A} (state : A -> shard_state) l :
  forallb is_stopped (state <$> l) = false -> exists x n drain, x ∈ l /\ state x = Serving n drain.
Proof.
  induction l as [|x l IH]; cbn; [done|]. destruct (state x) as [e|n d] eqn:Ex; cbn.
  - intros (y & n & d & Hy & E)%IH. exists y, n, d. split; [by right|done].
  - intros _. exists x, n, d. split; [by left|done].
Qed.


(* ------------------------------------------------------------------ *)
(** * When one shard has stopped *)

Section Dead.
Context `{N : Notify}.
Variables (capacity buffer_size : Z).
Variable allowed : Subscriptions -> Frame.t -> Prop.

(** The steps of [server_step] by shards other than [d]. *)
Inductive surviving (d : nat) : @Server N -> @Server N -> Prop :=
| surviving_task ns bx evs dr i s s' :
    i <> d -> ns !! i = Some s -> dr !! i = Some false -> task capacity buffer_size allowed (attach bx s) s' ->
    surviving d (mkServer ns bx evs dr)
      (mkServer (<[i := s']> ns) (peer_inboxes (worker s')) (wake_all (kicks (worker s')) evs) dr)
| surviving_wake ns bx evs dr i n :
    i <> d -> evs !! i = Some n -> 0 < n -> dr !! i = Some false ->
    surviving d (mkServer ns bx evs dr) (mkServer ns bx (<[i := 0]> evs) (<[i := true]> dr))
| surviving_drain ns bx evs dr i s m m' f w' res :
    i <> d -> dr !! i = Some true -> ns !! i = Some s -> bx !! i = Some m -> pop m = Done (m', Some f) ->
    dispatch_local (ShardInbox.subject f) (ShardInbox.reply_to f) (ShardInbox.payload f)
      (worker (attach (<[i := m']> bx) s)) = Done (w', res) ->
    surviving d (mkServer ns bx evs dr)
      (mkServer (<[i := mkShard w' (readers s) (writers s)]> ns) (<[i := m']> bx) evs dr)
| surviving_idle ns bx evs dr i m m' :
    i <> d -> dr !! i = Some true -> bx !! i = Some m -> pop m = Done (m', None) ->
    surviving d (mkServer ns bx evs dr) (mkServer ns (<[i := m']> bx) evs (<[i := false]> dr)).

Lemma surviving_is_step d S S' : surviving d S S' -> server_step capacity buffer_size allowed S S'.
Proof.
  intros Hs. destruct Hs.
  - by eapply server_task.
  - by eapply server_wake.
  - by eapply server_drain.
  - by eapply server_idle.
Qed.

Hypothesis Hcap : 0 <= capacity <= isize_max.
Hypothesis Hbuf : 64 <= buffer_size <= isize_max.
Context `{NL : !NotifyLaws N}.
Variables (scratch : Z) (box : ShardInbox PublishedFrame) (n : nat) (kbox : Z).
Hypothesis Hscratch : 0 <= scratch <= isize_max.
Hypothesis Hn : Z.of_nat n <= 2 ^ 32.
Hypothesis Hbox : holds box kbox 0 [].

Abbreviation sinv := (server_inv capacity buffer_size allowed scratch box n (fun _ => kbox)).

(** A full inbox that nobody drains stays as it is. *)
Lemma surviving_full d S S' hs qs :
  (d < n)%nat -> sinv hs qs S -> len (qs d) = 2 ^ kbox -> surviving d S S' ->
  exists hs' qs', sinv hs' qs' S' /\ qs' d = qs d.
Proof.
  intros Hd HS Hfull Hstep.
  destruct Hstep as [ns bx evs dr i s s' Hne Hs Hdr Ht|ns bx evs dr i v Hne Hv Hpos Hdr
    |ns bx evs dr i s m m' f w' res Hne Hdr Hs Hm Hp E|ns bx evs dr i m m' Hne Hdr Hm Hp].
  - destruct (server_inv_task capacity buffer_size allowed Hcap Hbuf scratch box n kbox Hscratch Hn Hbox (fun _ => kbox)
      hs qs ns bx evs dr i s s' HS Hs Ht) as (qs' & HS' & Hq). exists hs, qs'. split; [done|].
    destruct (Hq d Hd) as (kk & [?|(f & _ & Hf & _)]); [done|]. exfalso.
    destruct (lookup_lt_is_Some_2 (peer_inboxes (worker s')) d) as [m Hm];
      [by rewrite (si_boxes _ _ _ _ _ _ _ _ _ _ HS' : length (peer_inboxes (worker s')) = n)|].
    pose proof (h_room _ _ _ _ (si_hold _ _ _ _ _ _ _ _ _ _ HS' d m Hm)) as Hr. rewrite Hf, len_app, len_cons, len_nil in Hr. lia.
  - exists hs, qs. split; [by apply server_inv_wake|done].
  - destruct (server_inv_drain capacity buffer_size allowed Hcap Hbuf scratch box n kbox Hscratch Hn Hbox (fun _ => kbox)
      hs qs ns bx evs dr i s m m' f w' res HS Hdr Hs Hm Hp E) as (q & _ & HS').
    eexists _, _. split; [exact HS'|]. by rewrite fn_lookup_insert_ne.
  - destruct (server_inv_idle capacity buffer_size allowed scratch box n (fun _ => kbox)
      hs qs ns bx evs dr i m m' HS Hm Hp) as (_ & -> & HS'). by exists hs, qs.
Qed.

Lemma surviving_full_run d S S' hs qs :
  (d < n)%nat -> sinv hs qs S -> len (qs d) = 2 ^ kbox -> rtc (surviving d) S S' ->
  exists hs' qs', sinv hs' qs' S' /\ qs' d = qs d.
Proof.
  intros Hd HS Hfull Hr. revert hs qs HS Hfull. induction Hr as [S|S S1 S2 Hs _ IH]; intros hs qs HS Hfull; [eauto|].
  destruct (surviving_full d S S1 hs qs Hd HS Hfull Hs) as (hs1 & qs1 & HS1 & Hq1).
  destruct (IH hs1 qs1 HS1) as (hs2 & qs2 & HS2 & Hq2); [by rewrite Hq1|]. exists hs2, qs2. split; [done|congruence].
Qed.

(** What an inbox holds, read off by emptying a copy of it. *)
Lemma inbox_contents S i m m' q :
  rtc (server_step capacity buffer_size allowed) (server_initial scratch box n) S -> boxes S !! i = Some m ->
  drop_inbox (Datatypes.S (Z.to_nat (2 ^ kbox))) m = Done (m', q) -> inbox_holds kbox S i q.
Proof.
  intros Hr Hm E.
  destruct (server_reachable capacity buffer_size allowed Hcap Hbuf scratch box n kbox Hscratch Hn Hbox S Hr) as (hs & qs & HS).
  pose proof (si_hold _ _ _ _ _ _ _ _ _ _ HS i m Hm) as Hh. pose proof (h_room _ _ _ _ Hh) as Hroom.
  destruct (drop_inbox_spec (qs i) m kbox (hs i) (Datatypes.S (Z.to_nat (2 ^ kbox))) Hh) as (m1 & E1 & _).
  { unfold len in Hroom. lia. }
  rewrite E in E1. injection E1 as <- ->. by exists m, (hs i).
Qed.

End Dead.

(* ------------------------------------------------------------------ *)
(** * Runs *)

(** Two shards; the second stops, the first publishes twice. *)
Module Down.
#[local] Existing Instance permit_notify.
Definition published_twice : list (nat * event) :=
  Two.joins ++ [(0, Input 0 (Two.line "PUB a 2" ++ Two.line "hi")); (0, Input 0 (Two.line "PUB a 2" ++ Two.line "hi"))]%nat.
Definition full : @Server permit_notify := Two.or_start (run_script 256 64 Two.start published_twice).
Lemma full_reached : Two.reaches Two.start full.
Proof. apply (run_script_sound 256 64 Two.start published_twice). by vm_compute. Qed.
Definition f : PublishedFrame := mkPublished (bs "a") None (bs "hi").
Definition node0 : Shard permit_notify := default (initial 64 0 []) (nodes full !! 0%nat).
Lemma full_inbox : inbox_holds 1 full 1 [f; f].
Proof.
  apply (inbox_contents 256 64 (fun _ _ => True) ltac:(done) ltac:(done) (NL := permit_laws) 64 Ex.inbox 2 1
    ltac:(done) ltac:(done) Ex.inbox_holds full 1 (default Ex.inbox (boxes full !! 1%nat))
    (match drop_inbox 3 (default Ex.inbox (boxes full !! 1%nat)) with Done r => r.1 | Panic => Ex.inbox end));
    [exact full_reached|by vm_compute..].
Qed.

(** No socket can be bound. *)
Definition in_use : platform := mkPlatform (fun _ => true)
  (fun _ c => match c with BindTo _ => Err 98 | _ => Ok tt end) (Ok tt) [].
End Down.


