(* ===== verification/Bench.v ===== *)
(** The ping-pong benchmark ([aulon-bench/src/main.rs]) and what it shares with
    the fan-out benchmark: configuration from the environment.

    The network is an argument: a list of what the reads of the stream return.
    A list that runs out stands for a read that does not complete. *)
From Stdlib Require Import ZArith Lia Strings.Byte.
From stdpp Require Import base gmap list strings.
From S2P Require Import Prelude Subject Trie TrieSpec ConnState ShardInbox Wire Parse Emit Worker Dispatch DispatchSpec Session SessionSpec.

(* ------------------------------------------------------------------ *)
(** * Configuration *)

(** [std::env::var]: [None] for a variable that is absent or not Unicode. *)
Abbreviation Env := (bytes -> option bytes).

(** [s.parse::<u64>()]. *)
Definition u64_from_str (s : bytes) : option Z :=
  match s with
  | c :: digits => if bool_decide (c = x2b) then parse_u64 digits else parse_u64 s
  | [] => None
  end.

(** The messages [from_env] can fail with. *)
Module ConfigError.
Inductive t : Type :=
| Addr (value : bytes)
| NotANumber (key value : bytes)
| OutOfRange (key : bytes)
| FanoutZero
| PayloadTooSmall.

#[global] Instance t_eq_dec : EqDecision t.
Proof. solve_decision. Defined.
End ConfigError.

Definition parse_env_u64 (env : Env) (key : bytes) (default : Z) : result Z ConfigError.t :=
  match env key with
  | Some s => match u64_from_str s with
              | Some n => Ok n
              | None => Err (ConfigError.NotANumber key s)
              end
  | None => Ok default
  end.

(** [usize::try_from(n)] for a [u64]. *)
Definition usize_try_from (key : bytes) (n : Z) : result Z ConfigError.t :=
  if n <=? usize_max then Ok n else Err (ConfigError.OutOfRange key).

Section Addr.
(** [SocketAddr] and its [FromStr]. *)
Context {Addr : Type} (parse_addr : bytes -> option Addr).

Definition addr_from_env (env : Env) : result Addr ConfigError.t :=
  let addr_str := default (bs "127.0.0.1:4222") (env (bs "AULON_ADDR")) in
  match parse_addr addr_str with
  | Some addr => Ok addr
  | None => Err (ConfigError.Addr addr_str)
  end.
End Addr.

Lemma u64_from_str_range s n : u64_from_str s = Some n -> 0 <= n <= u64_max.
Proof.
  unfold u64_from_str. destruct s as [|c s]; [done|].
  case_bool_decide; apply parse_u64_range.
Qed.
Lemma parse_env_u64_range env key d n :
  0 <= d <= u64_max -> parse_env_u64 env key d = Ok n -> 0 <= n <= u64_max.
Proof.
  intros Hd. unfold parse_env_u64. destruct (env key) as [s|]; [|by intros [= <-]].
  destruct (u64_from_str s) as [m|] eqn:E; [|done]. intros [= <-]. by eapply u64_from_str_range.
Qed.
(** On a 64-bit target the conversion to [usize] does not fail. *)
Lemma usize_try_from_ok key n : 0 <= n <= u64_max -> usize_try_from key n = Ok n.
Proof. intros H. unfold usize_try_from, usize_max. unfold u64_max in H. by zb. Qed.

(* ------------------------------------------------------------------ *)
(** * The ping-pong client *)

Module PingPong.
Section Config.
Context {Addr : Type} (parse_addr : bytes -> option Addr).

Record Config : Type := mkConfig {
  addr : Addr;
  payload_bytes : Z;
  iterations : Z;
  warmup : Z;
}.

Definition from_env (env : Env) : result Config ConfigError.t :=
  (addr <-? addr_from_env parse_addr env;
   p <-? parse_env_u64 env (bs "AULON_PAYLOAD_BYTES") 256;
   payload_bytes <-? usize_try_from (bs "AULON_PAYLOAD_BYTES") p;
   iterations <-? parse_env_u64 env (bs "AULON_ITERATIONS") 100000;
   warmup <-? parse_env_u64 env (bs "AULON_WARMUP") 1000;
   Ok (mkConfig addr payload_bytes iterations warmup))%result.
End Config.

(** How a task on the stream ends: it returns, fails, or waits for a read. *)
Inductive outcome (A : Type) : Type :=
| Returns (a : A)
| Fails
| Waits.
Arguments Returns {A} a.
Arguments Fails {A}.
Arguments Waits {A}.

(** What a read returns: an error, or that many bytes (zero: end of file). *)
Abbreviation read := (option Z).

(** The [while total < expected] loop: the bytes read and the reads left. *)
Fixpoint receive (expected total : Z) (reads : list read) : run (outcome (Z * list read)) :=
  if total <? expected then
    match reads with
    | [] => Done Waits
    | None :: _ => Done Fails
    | Some n :: reads =>
        if n =? 0 then Done Fails
        else total ← (total +! n)%usize; receive expected total reads
    end
  else Done (Returns (total, reads)).

(** [write] is the result of [write_fixed_all]. *)
Definition ping_pong (write : bool) (expected : Z) (reads : list read) : run (outcome (Z * list read)) :=
  if write then receive expected 0 reads else Done Fails.

(** [n] round trips, the warm-up of [main]; [write n] is the result of the
    write when [n] more are to follow. *)
Fixpoint round_trips (write : nat -> bool) (n : nat) (expected : Z) (reads : list read) : run (outcome (list read)) :=
  match n with
  | O => Done (Returns reads)
  | S n =>
      r ← ping_pong (write n) expected reads;
      match r with
      | Returns (_, reads) => round_trips write n expected reads
      | Fails => Done Fails
      | Waits => Done Waits
      end
  end.
End PingPong.

(* ------------------------------------------------------------------ *)
(** * Properties *)

Fixpoint bytes_read (reads : list PingPong.read) : Z :=
  match reads with [] => 0 | r :: reads => default 0 r + bytes_read reads end.
Definition arrives (r : PingPong.read) : Prop := exists n, r = Some n /\ 0 < n.

Lemma bytes_read_nonneg reads : Forall arrives reads -> 0 <= bytes_read reads.
Proof. induction 1 as [|r reads (n & -> & Hn) _ IH]; cbn in *; lia. Qed.

Section Receive.
Import PingPong.

(** Reading on until the payload is complete. *)
Lemma receive_complete expected total reads more :
  Forall arrives reads -> 0 <= total <= expected -> expected <= usize_max ->
  total + bytes_read reads = expected ->
  receive expected total (reads ++ more) = Done (Returns (expected, more)).
Proof.
  intros Hr. revert total. induction Hr as [|r reads (n & -> & Hn) Hr IH]; intros total Ht He Hs; cbn in Hs.
  - cbn [app]. destruct more; cbn; zb; by replace total with expected by lia.
  - pose proof (bytes_read_nonneg reads Hr). cbn. zb. rewrite uadd_ok by lia. apply IH; lia.
Qed.

(** Fewer bytes than the payload leave the client waiting. *)
Lemma receive_waits expected total reads :
  Forall arrives reads -> 0 <= total -> expected <= usize_max ->
  total + bytes_read reads < expected -> receive expected total reads = Done Waits.
Proof.
  intros Hr. revert total. induction Hr as [|r reads (n & -> & Hn) Hr IH]; intros total Ht He Hs; cbn in Hs.
  - cbn. by zb.
  - pose proof (bytes_read_nonneg reads Hr). cbn. zb. rewrite uadd_ok by lia. apply IH; lia.
Qed.

(** Against an echo server the round trips complete: when every payload
    comes back, in any pieces, each round trip reads exactly its own payload,
    and nothing of what follows. *)
Lemma round_trips_complete (write : nat -> bool) (expected : Z) (rounds : list (list read)) more :
  (forall n, write n = true) -> 0 <= expected <= usize_max ->
  Forall (fun reads => Forall arrives reads /\ bytes_read reads = expected) rounds ->
  round_trips write (length rounds) expected (concat rounds ++ more) = Done (Returns more).
Proof.
  intros Hw He. induction 1 as [|reads rounds [Hr Hs] _ IH]; [done|]. cbn [length concat round_trips].
  unfold ping_pong. rewrite Hw, <- app_assoc, receive_complete by (done || lia). exact IH.
Qed.
End Receive.

Lemma parse_frame_no_line buf : no_crlf buf -> parse_frame buf = Done ParseOutcome.NeedMore.
Proof. unfold no_crlf, parse_frame. by intros ->. Qed.
Lemma no_crlf_replicate c k : c <> CR -> no_crlf (replicate k c).
Proof. intros Hc. induction k as [|k IH]; [done|]. cbn. apply no_crlf_cons. by split; [|intros [? _]]. Qed.

(** A read without a line end is only kept. *)
Lemma reader_round_keeps `{N : Notify} weak rc read subs (w : Worker N) st :
  heap w !! rc = Some st -> close_with st = None -> read <> [] -> no_crlf read ->
  len read <= MAX_FRAME_SIZE ->
  reader_round weak rc read [] subs w = Done (w, (read, subs, true)).
Proof.
  intros Hst Hc Hne Hn Hl. unfold reader_round. destruct read as [|c read]; [done|]. cbn [app].
  rewrite (proj2 (Z.ltb_ge _ _)) by done.
  assert (frames_loop weak (S (length (c :: read))) rc (c :: read) 0 subs w = Done (w, (0, subs))) as E.
  { cbn [frames_loop]. mstep ltac:(unfold lift; rewrite slice_from_done by lens; reflexivity).
    mstep ltac:(unfold lift; rewrite parse_frame_no_line by done; reflexivity). done. }
  mstep ltac:(exact E). mstep ltac:(reflexivity). mstep ltac:(unfold deref; rewrite Hst; reflexivity).
  unfold close_reason. by rewrite Hc.
Qed.

(** C39.  The ping-pong benchmark stalls against the broker itself: for a
    payload longer than the greeting, the broker keeps the payload as an
    unfinished line and sends nothing, and the client, having read no more than
    the greeting, in whatever pieces, waits for the rest. *)
Theorem ping_pong_stalls_on_the_broker `{N : Notify} weak rc subs (w : Worker N) st expected reads :
  heap w !! rc = Some st -> close_with st = None ->
  len (encode (Frame.Info SERVER_INFO_JSON)) < Z.of_nat expected <= MAX_FRAME_SIZE ->
  Forall arrives reads -> bytes_read reads <= len (encode (Frame.Info SERVER_INFO_JSON)) ->
  let payload := replicate expected x61 in
  reader_round weak rc payload [] subs w = Done (w, (payload, subs, true)) /\
  PingPong.ping_pong true (len payload) reads = Done PingPong.Waits.
Proof.
  intros Hst Hc He Hr Hs payload. assert (len payload = Z.of_nat expected) as Hl
    by (unfold payload, len; by rewrite length_replicate).
  split.
  - eapply reader_round_keeps; [done..| |by apply no_crlf_replicate|lia].
    intros E. rewrite E in Hl. pose proof (len_nonneg (encode (Frame.Info SERVER_INFO_JSON))). rewrite len_nil in Hl. lia.
  - unfold PingPong.ping_pong. apply receive_waits; [done|lia| |lia].
    rewrite Hl. assert (MAX_FRAME_SIZE <= usize_max) by by vm_compute. lia.
Qed.

Lemma ping_pong_stalls_on_the_broker_witness :
  let payload := replicate 256 x61 in
  reader_round (fun _ => []) 0%nat payload [] ∅ (Ex.worker 0) = Done (Ex.worker 0, (payload, ∅, true)) /\
  PingPong.ping_pong true (len payload) [Some 5; Some 100] = Done PingPong.Waits.
Proof.
  apply (ping_pong_stalls_on_the_broker (fun _ => []) 0%nat ∅ (Ex.worker 0) (ConnState.new Ex.c1 128) 256);
    [by vm_compute|by vm_compute|by vm_compute| |by vm_compute].
  repeat constructor; (eexists; split; [reflexivity|done]).
Defined.
