(* ===== verification/Fanout.v ===== *)
(** The fan-out benchmark ([aulon-bench/src/fanout.rs]): one publisher that
    stamps its messages with the time, subscribers that read the time stamps
    back from the broker's [MSG] stream, and the window that paces the
    publisher.

    What the reads of a stream return is a list, as in [Bench]; the clock is a
    function; the histogram of the [hdrhistogram] crate is the class
    [Histogram]. *)
From Stdlib Require Import ZArith Lia Strings.Byte.
From stdpp Require Import base gmap list strings relations.
From S2P Require Import Prelude Wire Parse Emit Codec Bench.

Definition SUBJECT : bytes := bs "foo".
Definition SID : bytes := bs "1".
Definition READ_CHUNK : Z := 16 * 1024.

(* ------------------------------------------------------------------ *)
(** * Configuration *)

Section Config.
Context {Addr : Type} (parse_addr : bytes -> option Addr).

Record Config : Type := mkConfig {
  addr : Addr;
  fanout : Z;
  payload_bytes : Z;
  iterations : Z;
  warmup : Z;
  pace_window : Z;
}.

Definition from_env (env : Env) : result Config ConfigError.t :=
  (addr <-? addr_from_env parse_addr env;
   f <-? parse_env_u64 env (bs "AULON_FANOUT") 8;
   fanout <-? usize_try_from (bs "AULON_FANOUT") f;
   if fanout =? 0 then Err ConfigError.FanoutZero else
   p <-? parse_env_u64 env (bs "AULON_PAYLOAD_BYTES") 256;
   payload_bytes <-? usize_try_from (bs "AULON_PAYLOAD_BYTES") p;
   if payload_bytes <? 8 then Err ConfigError.PayloadTooSmall else
   iterations <-? parse_env_u64 env (bs "AULON_ITERATIONS") 50000;
   warmup <-? parse_env_u64 env (bs "AULON_WARMUP") 1000;
   pace_window <-? parse_env_u64 env (bs "AULON_PACE_WINDOW") 2;
   Ok (mkConfig addr fanout payload_bytes iterations warmup pace_window))%result.
End Config.

(* ------------------------------------------------------------------ *)
(** * Bytes *)

(** [u64::to_be_bytes] and [u64::from_be_bytes]. *)
Definition byte_of (n : Z) : byte := default x00 (byte_of_val (n mod 256)).
Definition to_be_bytes (n : Z) : bytes :=
  (fun i => byte_of (Z.shiftr n (8 * i))) <$> [7; 6; 5; 4; 3; 2; 1; 0].
Definition from_be_bytes (l : bytes) : Z := fold_left (fun n b => Z.shiftl n 8 + byte_val b) l 0.

(** [Vec::resize] and [slice::starts_with]. *)
Definition resize (v : bytes) (new_len : Z) (value : byte) : bytes :=
  take (Z.to_nat new_len) v ++ replicate (Z.to_nat new_len - length v) value.
Definition starts_with (s prefix : bytes) : bool := bool_decide (take (length prefix) s = prefix).

Fixpoint find_crlf_loop (fuel : nat) (b : bytes) (i : Z) : run (option Z) :=
  match fuel with
  | O => Panic
  | S fuel =>
      i1 ← (i +! 1)%usize;
      if i1 <? len b then
        c0 ← index b i;
        if bool_decide (c0 = CR) then
          c1 ← index b i1;
          if bool_decide (c1 = LF) then Done (Some i) else find_crlf_loop fuel b i1
        else find_crlf_loop fuel b i1
      else Done None
  end.
Definition find_crlf (b : bytes) : run (option Z) := find_crlf_loop (S (length b)) b 0.

(* ------------------------------------------------------------------ *)
(** * The subscriber *)

(** The loop of [try_take_msg]: the accumulator left, and the time stamp and
    length of the message taken. *)
Fixpoint try_take_msg_loop (fuel : nat) (accum : bytes) (payload_bytes : Z) : run (bytes * option (Z * Z)) :=
  match fuel with
  | O => Panic
  | S fuel =>
      e ← find_crlf accum;
      match e with
      | None => Done (accum, None)
      | Some header_end =>
          header ← slice_to accum header_end;
          payload_start ← (header_end +! 2)%usize;
          if starts_with header (bs "MSG ") then
            payload_end ← (payload_start +! payload_bytes)%usize;
            frame_total ← (payload_end +! 2)%usize;
            if len accum <? frame_total then Done (accum, None) else
            ts_end ← (payload_start +! 8)%usize;
            ts_bytes ← slice accum payload_start ts_end;
            accum' ← slice_from accum frame_total;
            Done (accum', Some (from_be_bytes ts_bytes, frame_total))
          else
            accum' ← slice_from accum payload_start;
            try_take_msg_loop fuel accum' payload_bytes
      end
  end.
Definition try_take_msg (accum : bytes) (payload_bytes : Z) : run (bytes * option (Z * Z)) :=
  try_take_msg_loop (S (length accum)) accum payload_bytes.

(** What a read of the stream returns: an error, or bytes (none: end of
    file). *)
Abbreviation read := (option bytes).

Fixpoint drain_one_line (reads : list read) (accum : bytes) :
    run (PingPong.outcome (bytes * list read)) :=
  e ← find_crlf accum;
  match e with
  | Some end_ =>
      n ← (end_ +! 2)%usize;
      accum' ← slice_from accum n;
      Done (PingPong.Returns (accum', reads))
  | None =>
      match reads with
      | [] => Done PingPong.Waits
      | None :: _ | Some [] :: _ => Done PingPong.Fails
      | Some b :: reads => drain_one_line reads (accum ++ b)
      end
  end.

(** [hdrhistogram::Histogram<u64>], as created here: [record] refuses a value
    above the upper bound. *)
Class Histogram : Type := {
  hist : Type;
  new_with_bounds : Z -> Z -> Z -> option hist;
  record : hist -> Z -> option hist;
}.

Section Subscriber.
Context {H : Histogram}.
(** [baseline.elapsed().as_nanos()] when the subscriber has received so many
    messages. *)
Variable now_ns : Z -> Z.
Variables (expected_msgs payload_bytes : Z).

(** [while received < expected_msgs].  The task shares [received_counter] and
    [hist] with [main]: they are as it leaves them however it ends. *)
Fixpoint subscriber_loop (fuel : nat) (reads : list read) (accum : bytes) (received : Z) (h : hist) :
    run (PingPong.outcome unit * (Z * hist)) :=
  match fuel with
  | O => Panic
  | S fuel =>
      if received <? expected_msgs then
        r ← try_take_msg accum payload_bytes;
        match r.2 with
        | Some (ts, _) =>
            h' ← (if ts <=? now_ns received then expect (record h (now_ns received - ts)) else Done h);
            subscriber_loop fuel reads r.1 (received + 1) h'
        | None =>
            match reads with
            | [] => Done (PingPong.Waits, (received, h))
            | None :: _ | Some [] :: _ => Done (PingPong.Fails, (received, h))
            | Some b :: reads => subscriber_loop fuel reads (r.1 ++ b) received h
            end
        end
      else Done (PingPong.Returns tt, (received, h))
  end.

Definition build_connect_sub : bytes :=
  bs "CONNECT {}" ++ CRLF ++ bs "SUB " ++ SUBJECT ++ bs " " ++ SID ++ CRLF.

(** [write] is the result of writing [build_connect_sub]. *)
Definition subscriber_task (fuel : nat) (write : bool) (reads : list read) (h : hist) :
    run (PingPong.outcome unit * (Z * hist)) :=
  if write then
    g ← drain_one_line reads [];
    match g with
    | PingPong.Returns (accum, reads) => subscriber_loop fuel reads accum 0 h
    | PingPong.Fails => Done (PingPong.Fails, (0, h))
    | PingPong.Waits => Done (PingPong.Waits, (0, h))
    end
  else Done (PingPong.Fails, (0, h)).
End Subscriber.

(* ------------------------------------------------------------------ *)
(** * The publisher *)

(** The frame [publisher_drive] writes at time [ts_ns]. *)
Definition publisher_frame (payload_bytes ts_ns : Z) : bytes :=
  let header := bs "PUB " ++ SUBJECT ++ bs " " ++ decimal payload_bytes ++ CRLF in
  let frame := header ++ to_be_bytes ts_ns in
  let frame := resize frame (len header + payload_bytes) x61 in
  frame ++ CRLF.

Definition min_received (sub_received : list Z) : Z :=
  match sub_received with
  | [] => u64_max
  | c :: cs => fold_left Z.min cs c
  end.

(** The condition on which the publisher goes on: the negation of that of the
    inner [while], or no pacing at all. *)
Definition may_publish (pace_window sent : Z) (sub_received : list Z) : bool :=
  if 0 <? pace_window then negb (pace_window <=? Z.max 0 (sent - min_received sub_received)) else true.

(** The benchmark at work: [sent] messages written by the publisher, and the
    [received_counter] of every subscriber. *)
Record progress : Type := mkProgress { sent : Z; sub_received : list Z }.

Inductive pace_step (pace_window total : Z) : progress -> progress -> Prop :=
| pace_publish n rs :
    n < total -> may_publish pace_window n rs = true ->
    pace_step pace_window total (mkProgress n rs) (mkProgress (n + 1) rs)
| pace_receive n rs i r :
    rs !! i = Some r -> r < n ->
    pace_step pace_window total (mkProgress n rs) (mkProgress n (<[i := r + 1]> rs)).

(* ------------------------------------------------------------------ *)
(** * Lemmas on bytes *)

Lemma find_crlf_loop_done fuel p q :
  (length q < fuel)%nat -> slice_ok (p ++ q) ->
  find_crlf_loop fuel (p ++ q) (len p) = Done (find_crlf_from (len p) q).
Proof.
  unfold slice_ok. revert p q. induction fuel as [|fuel IH]; intros p q Hf Hok; [lia|]. cbn [find_crlf_loop].
  rewrite uadd_ok by (unfold usize_max, isize_max in *; lens). rewrite bind_ret.
  destruct q as [|c0 [|c1 q]].
  - by zb.
  - by zb.
  - zb. unfold index. zb. rewrite to_nat_len.
    assert ((p ++ c0 :: c1 :: q) !! length p = Some c0) as -> by (by apply list_lookup_middle).
    cbn [expect]. rewrite bind_ret.
    assert (Z.to_nat (len p + 1) = S (length p)) as -> by (unfold len; lia).
    assert ((p ++ c0 :: c1 :: q) !! S (length p) = Some c1) as ->.
    { rewrite lookup_app_r by lia. by replace (S (length p) - length p)%nat with 1%nat by lia. }
    cbn [expect find_crlf_from]. rewrite bind_ret.
    assert (find_crlf_loop fuel (p ++ c0 :: c1 :: q) (len p + 1) = Done (find_crlf_from (len p + 1) (c1 :: q))) as E.
    { replace (p ++ c0 :: c1 :: q) with ((p ++ [c0]) ++ c1 :: q) by (by rewrite <- app_assoc).
      replace (len p + 1) with (len (p ++ [c0])) by lens. apply IH; [cbn in *; lia|].
      by rewrite <- app_assoc. }
    destruct (bool_decide (c0 = CR)); [|done]. by destruct (bool_decide (c1 = LF)).
Qed.
(** The benchmark's scan is the parser's. *)
Lemma find_crlf_done b : slice_ok b -> find_crlf b = Done (Parse.find_crlf b).
Proof. intros H. apply (find_crlf_loop_done (S (length b)) [] b); [lia|done]. Qed.

Lemma byte_of_val_of n : byte_val (byte_of n) = n mod 256.
Proof.
  unfold byte_of. destruct (byte_of_val_Some (n mod 256)) as (b & -> & Hb); [by apply Z.mod_pos_bound|].
  done.
Qed.

Lemma be_bytes_roundtrip n : 0 <= n < 2 ^ 64 -> from_be_bytes (to_be_bytes n) = n.
Proof.
  intros Hn. unfold to_be_bytes, from_be_bytes. cbn [fmap list_fmap fold_left].
  rewrite !byte_of_val_of, !Z.shiftl_mul_pow2, !Z.shiftr_div_pow2 by lia.
  change (8 * 0) with 0. change (8 * 1) with 8. change (8 * 2) with (8 + 8). change (8 * 3) with (8 + 8 + 8).
  change (8 * 4) with (8 + 8 + 8 + 8). change (8 * 5) with (8 + 8 + 8 + 8 + 8).
  change (8 * 6) with (8 + 8 + 8 + 8 + 8 + 8). change (8 * 7) with (8 + 8 + 8 + 8 + 8 + 8 + 8).
  rewrite !Z.pow_add_r by lia. rewrite <- !Z.div_div by lia. change (2 ^ 8) with 256. change (2 ^ 0) with 1.
  rewrite Z.div_1_r. Z.to_euclidean_division_equations. lia.
Qed.
Lemma len_to_be_bytes n : len (to_be_bytes n) = 8.
Proof. done. Qed.

(** The payload of a message stamped [ts]. *)
Definition stamped (payload_bytes ts : Z) : bytes :=
  to_be_bytes ts ++ replicate (Z.to_nat payload_bytes - 8) x61.
Lemma len_stamped payload_bytes ts : 8 <= payload_bytes -> len (stamped payload_bytes ts) = payload_bytes.
Proof.
  intros Hp. unfold stamped. rewrite len_app, len_to_be_bytes. unfold len. rewrite length_replicate. lia.
Qed.

Lemma publisher_frame_pub payload_bytes ts :
  8 <= payload_bytes ->
  publisher_frame payload_bytes ts = encode (Frame.Pub SUBJECT None (stamped payload_bytes ts)).
Proof.
  intros Hp. unfold publisher_frame. cbn [encode]. rewrite len_stamped by done.
  set (header := bs "PUB " ++ _). unfold resize.
  assert (length (to_be_bytes ts) = 8)%nat as H8 by done.
  rewrite take_ge by (rewrite length_app; unfold len; lia).
  replace (Z.to_nat (len header + payload_bytes) - length (header ++ to_be_bytes ts))%nat
    with (Z.to_nat payload_bytes - 8)%nat by (rewrite length_app; unfold len; lia).
  unfold header, stamped. cbn [opt_text]. app_norm. reflexivity.
Qed.

(* ------------------------------------------------------------------ *)
(** * Reading a stream in pieces *)

(** A line is found in a piece of the stream exactly if the piece covers it. *)
Lemma find_crlf_prefix accum fut l rest :
  no_crlf l -> accum ++ fut = l ++ CRLF ++ rest ->
  (exists accum', accum = l ++ CRLF ++ accum' /\ rest = accum' ++ fut /\ Parse.find_crlf accum = Some (len l)) \/
  Parse.find_crlf accum = None /\ len accum < len l + 2.
Proof.
  intros Hl E. rewrite app_assoc in E. destruct (app_eq_inv _ _ _ _ E) as [(k & -> & ->)|(k & Ek & ->)].
  { left. exists k. rewrite <- !app_assoc. split_and!; [done..|]. by apply find_crlf_line. }
  destruct k as [|b k].
  { left. exists []. rewrite app_nil_r in Ek. subst accum. rewrite app_nil_r.
    split_and!; [done..|]. rewrite <- (app_nil_r CRLF). by apply find_crlf_line. }
  right. assert (len accum < len l + 2) as Hlen.
  { pose proof (f_equal len Ek) as Hk. lens. }
  split; [|done]. destruct (Parse.find_crlf accum) as [i|] eqn:Ef; [|done].
  destruct (find_crlf_Some _ _ Ef) as (line & tl & -> & <- & Hn).
  pose proof (find_crlf_line l [] Hl) as E1. rewrite app_nil_r, Ek, <- !app_assoc in E1.
  rewrite find_crlf_line in E1 by done. injection E1 as E1. lens.
Qed.

(** What the broker sends a subscriber: control lines and stamped messages. *)
Inductive item : Type :=
| Line (l : bytes)
| Stamp (ts : Z).

Section Stream.
Variable payload_bytes : Z.
Hypothesis Hpayload : 8 <= payload_bytes <= 2 ^ 62.

Definition text (i : item) : bytes :=
  match i with
  | Line l => l ++ CRLF
  | Stamp ts => encode (Frame.Msg SUBJECT SID None (stamped payload_bytes ts))
  end.
Definition item_ok (i : item) : Prop :=
  match i with
  | Line l => no_crlf l /\ starts_with l (bs "MSG ") = false
  | Stamp ts => 0 <= ts < 2 ^ 64
  end.
Definition stream (items : list item) : bytes := concat (text <$> items).
Definition stamps (items : list item) : list Z :=
  omap (fun i => match i with Stamp ts => Some ts | Line _ => None end) items.

Definition msg_header : bytes := bs "MSG foo 1 " ++ decimal payload_bytes.
Lemma msg_header_line : no_crlf msg_header.
Proof.
  destruct (decimal_field payload_bytes) as [_ Hd]; [lia|]. unfold msg_header.
  cbn [String.list_byte_of_string]. apply (no_crlf_sep (bs "MSG foo 1") SP); done.
Qed.
Lemma msg_header_starts : starts_with msg_header (bs "MSG ") = true.
Proof. done. Qed.
Lemma text_stamp ts : text (Stamp ts) = msg_header ++ CRLF ++ stamped payload_bytes ts ++ CRLF.
Proof.
  cbn [text encode]. rewrite len_stamped by lia. unfold msg_header. cbn [opt_text]. app_norm. reflexivity.
Qed.

Lemma stream_cons i items : stream (i :: items) = text i ++ stream items.
Proof. done. Qed.

(** The outcome of [try_take_msg] on a piece [accum] of the stream. *)
Definition taken (items : list item) (fut : bytes) (res : bytes * option (Z * Z)) : Prop :=
  match res.2 with
  | Some (ts, _) => exists items', stamps items = ts :: stamps items' /\ Forall item_ok items' /\
      res.1 ++ fut = stream items'
  | None => exists items', stamps items = stamps items' /\ Forall item_ok items' /\
      res.1 ++ fut = stream items' /\ (fut = [] -> stamps items = [])
  end.

Lemma taken_none items fut accum :
  Forall item_ok items -> accum ++ fut = stream items -> (fut = [] -> stamps items = []) ->
  taken items fut (accum, None).
Proof. intros. by exists items. Qed.

Lemma take_complete k fut ts items :
  payload_bytes + 2 <= len k -> stamped payload_bytes ts ++ CRLF ++ stream items = k ++ fut ->
  exists k', k = stamped payload_bytes ts ++ CRLF ++ k' /\ stream items = k' ++ fut.
Proof.
  intros Hl E. rewrite app_assoc in E. pose proof (len_stamped payload_bytes ts ltac:(lia)) as Hs.
  destruct (app_eq_inv _ _ _ _ E) as [(k' & Ek & ->)|(k' & -> & ->)]; [|exists k'; by rewrite <- app_assoc].
  assert (k' = []) as -> by (apply len_zero; pose proof (f_equal len Ek); lens).
  exists []. rewrite app_nil_r in Ek. by rewrite <- Ek, !app_nil_r.
Qed.

(** A complete message at the front is taken. *)
Lemma try_take_whole fuel ts rest :
  0 <= ts < 2 ^ 64 -> slice_ok (text (Stamp ts) ++ rest) ->
  try_take_msg_loop (S fuel) (text (Stamp ts) ++ rest) payload_bytes =
    Done (rest, Some (ts, len (text (Stamp ts)))).
Proof.
  intros Hts Hok. pose proof (len_stamped payload_bytes ts ltac:(lia)) as Hs.
  assert (len (text (Stamp ts)) = len msg_header + 2 + payload_bytes + 2) as Hlen by (rewrite text_stamp; lens).
  cbn [try_take_msg_loop]. rewrite find_crlf_done, bind_ret by done. rewrite text_stamp in *.
  unfold slice_ok, isize_max in Hok. rewrite <- !app_assoc in *.
  rewrite find_crlf_line by apply msg_header_line. rewrite slice_to_app, bind_ret by done.
  rewrite uadd_ok, bind_ret, msg_header_starts by (unfold usize_max; lens).
  repeat rewrite ?uadd_ok, ?bind_ret by (unfold usize_max; lens).
  rewrite (proj2 (Z.ltb_ge _ _)) by lens.
  assert (slice (msg_header ++ CRLF ++ stamped payload_bytes ts ++ CRLF ++ rest) (len msg_header + 2)
    (len msg_header + 2 + 8) = Done (to_be_bytes ts)) as ->.
  { unfold stamped. rewrite <- (app_assoc (to_be_bytes ts)), (app_assoc msg_header).
    apply slice_app; rewrite ?len_to_be_bytes; lens. }
  assert (slice_from (msg_header ++ CRLF ++ stamped payload_bytes ts ++ CRLF ++ rest)
    (len msg_header + 2 + payload_bytes + 2) = Done rest) as ->.
  { rewrite (app_assoc (stamped _ _)), (app_assoc CRLF), (app_assoc msg_header). apply slice_from_app. lens. }
  rewrite !bind_ret, be_bytes_roundtrip by done. by rewrite Hlen.
Qed.

Lemma try_take_stamp fuel accum fut ts items :
  slice_ok accum -> item_ok (Stamp ts) -> Forall item_ok items ->
  accum ++ fut = stream (Stamp ts :: items) ->
  exists res, try_take_msg_loop (S fuel) accum payload_bytes = Done res /\
    taken (Stamp ts :: items) fut res /\ (length res.1 <= length accum)%nat.
Proof.
  intros Hok Hts Hi E0. pose proof E0 as E. rewrite stream_cons, text_stamp, <- !app_assoc in E.
  pose proof (len_stamped payload_bytes ts ltac:(lia)) as Hs.
  destruct (Z.lt_ge_cases (len accum) (len msg_header + 2 + payload_bytes + 2)) as [Hl|Hl].
  - exists (accum, None). assert (taken (Stamp ts :: items) fut (accum, None)) as Ht.
    { apply taken_none; [by constructor|done|]. intros ->. rewrite app_nil_r in E. subst accum. lens. }
    split_and!; [|done..]. cbn [try_take_msg_loop]. rewrite find_crlf_done, bind_ret by done.
    destruct (find_crlf_prefix accum fut msg_header _ msg_header_line E) as [(k & -> & Ek & ->)|[-> _]]; [|done].
    unfold slice_ok, isize_max in Hok. rewrite slice_to_app, bind_ret by done.
    rewrite uadd_ok, bind_ret, msg_header_starts by (unfold usize_max; lens).
    repeat rewrite ?uadd_ok, ?bind_ret by (unfold usize_max; lens). by rewrite (proj2 (Z.ltb_lt _ _)).
  - destruct (find_crlf_prefix accum fut msg_header _ msg_header_line E) as [(k & -> & Ek & _)|[_ ?]]; [|lens].
    destruct (take_complete k fut ts items) as (k' & -> & Es); [lens|done|].
    exists (k', Some (ts, len (text (Stamp ts)))). split_and!.
    + pose proof (try_take_whole fuel ts k') as Hw. rewrite text_stamp, <- !app_assoc in Hw.
      rewrite text_stamp. auto.
    + unfold taken. by exists items.
    + cbn [fst]. rewrite !length_app. lia.
Qed.

Lemma try_take_taken fuel accum fut items :
  slice_ok accum -> (length accum < fuel)%nat -> Forall item_ok items -> accum ++ fut = stream items ->
  exists res, try_take_msg_loop fuel accum payload_bytes = Done res /\ taken items fut res /\
    (length res.1 <= length accum)%nat.
Proof.
  intros Hok Hf Hi. revert fuel accum Hok Hf. induction Hi as [|i items Hii Hi IH]; intros [|fuel] accum Hok Hf E; try lia.
  - destruct accum; [|done]. exists ([], None). split_and!; [done| |done]. by apply taken_none.
  - destruct i as [l|ts]; [|by apply try_take_stamp]. destruct Hii as [Hl Hm]. cbn [try_take_msg_loop].
    rewrite find_crlf_done, bind_ret by done. pose proof E as E'. rewrite stream_cons in E'. cbn [text] in E'.
    rewrite <- app_assoc in E'. unfold slice_ok, isize_max in Hok.
    destruct (find_crlf_prefix accum fut l _ Hl E') as [(k & -> & Ek & ->)|[-> Hlt]].
    + rewrite slice_to_app, bind_ret by done. rewrite uadd_ok, bind_ret, Hm by (unfold usize_max; lens).
      rewrite app_assoc, slice_from_app, bind_ret by lens.
      destruct (IH fuel k) as (res & Er & Ht & Hle); [unfold slice_ok, isize_max; lens| |done|].
      { rewrite !length_app in Hf. change (length CRLF) with 2%nat in Hf. lia. }
      exists res. split_and!; [done|exact Ht|]. rewrite !length_app. lia.
    + exists (accum, None). split_and!; [done| |done]. apply taken_none; [by constructor|done|].
      intros ->. rewrite app_nil_r in E'. subst accum. lens.
Qed.

Lemma try_take_msg_done accum fut items :
  slice_ok accum -> Forall item_ok items -> accum ++ fut = stream items ->
  exists res, try_take_msg accum payload_bytes = Done res /\ taken items fut res /\
    (length res.1 <= length accum)%nat.
Proof. intros Hok Hi E. apply (try_take_taken _ accum fut items); [done|lia|done..]. Qed.

(* ------------------------------------------------------------------ *)
(** * The subscriber's loop *)

Context {H : Histogram}.
Variable now_ns : Z -> Z.

(** The histogram after the messages stamped [tss], the first of which is
    message number [k]. *)
Fixpoint record_all (h : hist) (k : Z) (tss : list Z) : option hist :=
  match tss with
  | [] => Some h
  | ts :: tss =>
      h' ← (if ts <=? now_ns k then record h (now_ns k - ts) else Some h);
      record_all h' (k + 1) tss
  end.

Lemma subscriber_loop_done fuel pieces accum received h h' items expected :
  Forall (fun b => b <> []) pieces -> Forall item_ok items -> slice_ok (accum ++ concat pieces) ->
  accum ++ concat pieces = stream items -> 0 <= received ->
  len (stamps items) = expected - received -> record_all h received (stamps items) = Some h' ->
  (length (stamps items) + length pieces < fuel)%nat ->
  subscriber_loop now_ns expected payload_bytes fuel (Some <$> pieces) accum received h =
    Done (PingPong.Returns tt, (expected, h')).
Proof.
  revert pieces accum received h items. induction fuel as [|fuel IH];
    intros pieces accum received h items Hp Hi Hok E H0 Hn Hrec Hf; [lia|].
  cbn [subscriber_loop]. destruct (Z.ltb_spec received expected) as [Hlt|Hge].
  2: { assert (stamps items = []) as Hs by (apply len_zero; lens). rewrite Hs in Hn, Hrec.
       cbn in Hrec. injection Hrec as ->. do 3 f_equal. rewrite len_nil in Hn. lia. }
  destruct (try_take_msg_done accum (concat pieces) items) as ([accum' r] & -> & Ht & Hle); [|done..|].
  { unfold slice_ok in *. lens. }
  rewrite bind_ret. cbn [fst snd]. unfold taken in Ht. cbn [fst snd] in Ht, Hle.
  destruct r as [[ts n]|].
  - destruct Ht as (items' & Hs & Hi' & E'). rewrite Hs in Hn, Hrec, Hf. cbn [record_all] in Hrec.
    apply bind_Some in Hrec as (h1 & Hh1 & Hrec).
    replace (if _ <=? _ then _ else _) with (Done h1) by (destruct (ts <=? _); [rewrite Hh1|injection Hh1 as ->]; done).
    rewrite bind_ret. apply (IH pieces accum' (received + 1) h1 items'); try done; [|lia|lens|cbn in Hf; lia].
    unfold slice_ok, len in *. rewrite length_app in *. lia.
  - destruct Ht as (items' & Hs & Hi' & E' & Hend). destruct Hp as [|b pieces Hb Hp].
    { rewrite (Hend eq_refl) in Hn. rewrite len_nil in Hn. lia. }
    cbn [fmap list_fmap]. destruct b as [|c b]; [done|]. rewrite Hs in Hn, Hrec, Hf.
    apply (IH pieces (accum' ++ c :: b) received h items'); try done.
    + cbn [concat] in Hok. unfold slice_ok, len in *. rewrite !length_app in *. lia.
    + cbn [concat] in E'. by rewrite <- app_assoc.
    + cbn in Hf. lia.
Qed.

Lemma drain_one_line_done pieces accum l rest :
  Forall (fun b => b <> []) pieces -> no_crlf l -> slice_ok (accum ++ concat pieces) ->
  accum ++ concat pieces = l ++ CRLF ++ rest ->
  exists accum' pieces', drain_one_line (Some <$> pieces) accum =
      Done (PingPong.Returns (accum', Some <$> pieces')) /\
    accum' ++ concat pieces' = rest /\ Forall (fun b => b <> []) pieces' /\ (length pieces' <= length pieces)%nat.
Proof.
  intros Hp Hl. revert accum. induction Hp as [|b pieces Hb Hp IH]; intros accum Hok E.
  all: assert (slice_ok accum) as Hacc by (unfold slice_ok, len in *; rewrite length_app in Hok; lia).
  all: destruct (find_crlf_prefix accum _ l rest Hl E) as [(k & -> & -> & Ef)|[Ef Hlt]].
  - exists k, []. cbn [fmap list_fmap drain_one_line]. rewrite find_crlf_done, Ef, bind_ret by done.
    rewrite uadd_ok, bind_ret by (unfold slice_ok, isize_max, usize_max in *; lens).
    by rewrite app_assoc, slice_from_app by lens.
  - cbn in E. rewrite app_nil_r in E. subst accum. lens.
  - exists k, (b :: pieces). cbn [fmap list_fmap drain_one_line]. rewrite find_crlf_done, Ef, bind_ret by done.
    rewrite uadd_ok, bind_ret by (unfold slice_ok, isize_max, usize_max in *; lens).
    rewrite app_assoc, slice_from_app by lens. split_and!; [done..|by constructor|done].
  - cbn [concat] in *. rewrite (app_assoc accum) in Hok, E.
    destruct (IH (accum ++ b) Hok E) as (accum' & pieces' & Ed & ? & ? & ?). exists accum', pieces'.
    split_and!; [|done..|cbn; lia]. cbn [fmap list_fmap drain_one_line].
    rewrite find_crlf_done, Ef, bind_ret by done. by destruct b as [|c b].
Qed.
End Stream.

(* ------------------------------------------------------------------ *)
(** * Pacing *)

Lemma fold_min_le cs c : fold_left Z.min cs c <= c /\ (forall x, x ∈ cs -> fold_left Z.min cs c <= x) /\
  (fold_left Z.min cs c = c \/ fold_left Z.min cs c ∈ cs).
Proof.
  revert c. induction cs as [|d cs IH]; intros c; cbn [fold_left].
  { split_and!; [lia|intros x Hx; by apply not_elem_of_nil in Hx|by left]. }
  destruct (IH (Z.min c d)) as (H1 & H2 & H3). split_and!; [lia| |].
  - intros x [->|Hx]%elem_of_cons; [lia|auto].
  - destruct H3 as [->|H3]; [|right; by right].
    destruct (Z.min_spec c d) as [[_ ->]|[_ ->]]; [by left|right; by left].
Qed.
(** The slowest of at least one subscriber. *)
Lemma min_received_spec rs : rs <> [] -> min_received rs ∈ rs /\ forall r, r ∈ rs -> min_received rs <= r.
Proof.
  destruct rs as [|c cs]; [done|]. intros _. cbn [min_received].
  destruct (fold_min_le cs c) as (H1 & H2 & H3). split.
  - destruct H3 as [->|H3]; [by left|by right].
  - intros r [->|Hr]%elem_of_cons; [done|auto].
Qed.

Section Pace.
Variables (pace_window total : Z) (fanout : nat).
Hypothesis Htotal : 0 <= total <= u64_max.
Hypothesis Hwindow : 0 <= pace_window.

Definition start : progress := mkProgress 0 (replicate fanout 0).

(** Nobody has more than was sent, and the publisher keeps to the window. *)
Record paced (p : progress) : Prop := {
  pc_len : length (sub_received p) = fanout;
  pc_sent : 0 <= sent p <= total;
  pc_recv : Forall (fun r => 0 <= r <= sent p) (sub_received p);
  pc_window : 0 < pace_window -> Forall (fun r => sent p - r <= pace_window) (sub_received p);
}.

Lemma may_publish_window n rs :
  0 < pace_window -> may_publish pace_window n rs = true -> Forall (fun r => n + 1 - r <= pace_window) rs.
Proof.
  intros Hw. unfold may_publish. zb. rewrite negb_true_iff, Z.leb_gt. intros Hp.
  destruct (decide (rs = [])) as [->|Hne]; [constructor|]. apply Forall_forall. intros r Hr.
  apply (proj2 (min_received_spec rs Hne)) in Hr. lia.
Qed.

Lemma paced_step p p' : paced p -> pace_step pace_window total p p' -> paced p'.
Proof.
  intros [Hl Hs Hr Hw] Hstep. destruct Hstep as [n rs Hn Hp|n rs i r Hi Hlt]; cbn in *.
  - constructor; cbn; [done|lia| |intros Hw'; by apply may_publish_window].
    eapply Forall_impl; [exact Hr|]. cbn. lia.
  - pose proof (Forall_lookup_1 _ _ _ _ Hr Hi) as Hri. cbn in Hri.
    constructor; cbn; [by rewrite length_insert|done|by apply Forall_insert; [|lia]|].
    intros Hw'. specialize (Hw Hw'). pose proof (Forall_lookup_1 _ _ _ _ Hw Hi) as Hwi. cbn in Hwi.
    apply Forall_insert; [done|lia].
Qed.
Lemma paced_start : paced start.
Proof.
  constructor; cbn; [apply length_replicate|lia|apply Forall_replicate; lia|].
  intros Hw. apply Forall_replicate. lia.
Qed.

(** What is left to do: messages to send, each to be received by everybody. *)
Fixpoint missing (n : Z) (rs : list Z) : Z :=
  match rs with [] => 0 | r :: rs => n - r + missing n rs end.
Definition left_to_do (p : progress) : Z :=
  (Z.of_nat fanout + 1) * (total - sent p) + missing (sent p) (sub_received p).

Lemma missing_nonneg n rs : Forall (fun r => 0 <= r <= n) rs -> 0 <= missing n rs.
Proof. induction 1 as [|r rs Hr _ IH]; cbn; lia. Qed.
Lemma missing_sent n rs : missing (n + 1) rs = missing n rs + Z.of_nat (length rs).
Proof. induction rs as [|r rs IH]; cbn; lia. Qed.
Lemma missing_recv n rs i r : rs !! i = Some r -> missing n (<[i := r + 1]> rs) = missing n rs - 1.
Proof.
  revert i. induction rs as [|r0 rs IH]; intros [|i] Hi; [done..| |].
  - injection Hi as ->. cbn. lia.
  - change (<[S i := r + 1]> (r0 :: rs)) with (r0 :: <[i := r + 1]> rs). cbn [missing]. rewrite (IH i Hi). lia.
Qed.

Lemma step_decreases p p' :
  paced p -> pace_step pace_window total p p' -> left_to_do p' = left_to_do p - 1.
Proof.
  intros [Hl _ _ _] Hstep. unfold left_to_do. destruct Hstep as [n rs Hn Hp|n rs i r Hi Hlt]; cbn in *.
  - rewrite missing_sent, Hl. ring.
  - erewrite missing_recv by done. ring.
Qed.
Lemma left_to_do_nonneg p : paced p -> 0 <= left_to_do p.
Proof.
  intros [Hl Hs Hr _]. unfold left_to_do. pose proof (missing_nonneg _ _ Hr). nia.
Qed.

(** A state from which nobody can go on. *)
Lemma stuck_complete p :
  paced p -> (forall p', ~ pace_step pace_window total p p') ->
  sent p = total /\ Forall (fun r => r = total) (sub_received p).
Proof.
  intros [Hl Hs Hr Hw] Hstuck. destruct p as [n rs]. cbn in *.
  assert (Forall (fun r => r = n) rs) as Hall.
  { apply Forall_lookup. intros i r Hi. pose proof (Forall_lookup_1 _ _ _ _ Hr Hi) as Hri. cbn in Hri.
    destruct (Z.lt_ge_cases r n) as [Hlt|]; [|lia]. destruct (Hstuck _ (pace_receive _ _ _ _ _ _ Hi Hlt)). }
  assert (n = total) as ->; [|done]. destruct (Z.lt_ge_cases n total) as [Hlt|]; [|lia].
  destruct (Hstuck (mkProgress (n + 1) rs)). apply pace_publish; [done|]. unfold may_publish.
  destruct (Z.ltb_spec 0 pace_window); [|done]. apply negb_true_iff, Z.leb_gt.
  destruct (decide (rs = [])) as [->|Hne]; [cbn [min_received]; lia|].
  destruct (min_received_spec rs Hne) as [Hin _]. rewrite Forall_forall in Hall. rewrite (Hall _ Hin). lia.
Qed.

Lemma run_length k p0 p :
  nsteps (pace_step pace_window total) k p0 p -> paced p0 ->
  paced p /\ left_to_do p = left_to_do p0 - Z.of_nat k.
Proof.
  induction 1 as [p|k p0 p1 p2 H01 _ IH]; intros H0; [split; [done|lia]|].
  destruct IH as [H2 E]; [by eapply paced_step|]. split; [done|].
  rewrite E, (step_decreases p0 p1 H0 H01). lia.
Qed.
Lemma left_start : left_to_do start = (Z.of_nat fanout + 1) * total.
Proof.
  unfold left_to_do, start. cbn [sent sub_received].
  assert (missing 0 (replicate fanout 0) = 0) as -> by (clear; induction fanout; cbn; lia).
  ring.
Qed.

End Pace.


(* ------------------------------------------------------------------ *)
(** * Properties of the streams *)

(** A time stamp survives the trip: the broker parses what the publisher
    writes as a [PUB] of exactly [payload_bytes] bytes, and from the [MSG] the
    broker makes of it the subscriber takes the publisher's time stamp and
    exactly that message, whatever follows.  The broker also parses the
    subscriber's opening bytes as its [CONNECT] and [SUB]. *)
Theorem timestamp_end_to_end payload_bytes ts tail :
  8 <= payload_bytes <= 2 ^ 62 -> 0 <= ts < 2 ^ 64 -> len tail <= 2 ^ 61 ->
  exists payload, len payload = payload_bytes /\
    parse_frame (publisher_frame payload_bytes ts ++ tail) =
      Done (ParseOutcome.Frame (Frame.Pub SUBJECT None payload) (len (publisher_frame payload_bytes ts))) /\
    (let text := encode (Frame.Msg SUBJECT SID None payload) in
     try_take_msg (text ++ tail) payload_bytes = Done (tail, Some (ts, len text))) /\
    parse_frame build_connect_sub = Done (ParseOutcome.Frame (Frame.Connect (bs "{}")) 12) /\
    parse_frame (drop 12 build_connect_sub) = Done (ParseOutcome.Frame (Frame.Sub SUBJECT None SID) 11).
Proof.
  intros Hp Ht Hl. exists (stamped payload_bytes ts). pose proof (len_stamped payload_bytes ts ltac:(lia)) as Hs.
  split_and!; [done| | |by vm_compute|by vm_compute].
  - rewrite publisher_frame_pub by lia. apply parse_encode.
    + split_and!; [by repeat constructor|done|]. unfold slice_ok, isize_max. lia.
    + unfold slice_ok, isize_max. cbn [encode opt_text]. pose proof (decimal_len (len (stamped payload_bytes ts))).
      rewrite !len_app, Hs in *. change (len (String.list_byte_of_string "PUB ")) with 4.
      change (len SUBJECT) with 3. lens.
  - unfold try_take_msg. apply (try_take_whole payload_bytes Hp); [done|].
    unfold slice_ok, isize_max. rewrite text_stamp by lia. unfold msg_header.
    pose proof (decimal_len payload_bytes). rewrite !len_app, Hs, len_CRLF.
    change (len (String.list_byte_of_string "MSG foo 1 ")) with 10. lia.
Qed.

Lemma timestamp_end_to_end_witness :
  exists payload, len payload = 256 /\
    parse_frame (publisher_frame 256 123456789 ++ bs "PUB") =
      Done (ParseOutcome.Frame (Frame.Pub SUBJECT None payload) (len (publisher_frame 256 123456789))) /\
    (let text := encode (Frame.Msg SUBJECT SID None payload) in
     try_take_msg (text ++ bs "PUB") 256 = Done (bs "PUB", Some (123456789, len text))) /\
    parse_frame build_connect_sub = Done (ParseOutcome.Frame (Frame.Connect (bs "{}")) 12) /\
    parse_frame (drop 12 build_connect_sub) = Done (ParseOutcome.Frame (Frame.Sub SUBJECT None SID) 11).
Proof. apply (timestamp_end_to_end 256 123456789 (bs "PUB")); by vm_compute. Defined.

Lemma subscriber_task_done {H : Histogram} now_ns payload_bytes pieces info items h h' fuel :
  8 <= payload_bytes <= 2 ^ 62 -> Forall (fun b => b <> []) pieces -> no_crlf info ->
  Forall item_ok items -> concat pieces = info ++ CRLF ++ stream payload_bytes items ->
  slice_ok (concat pieces) -> record_all now_ns h 0 (stamps items) = Some h' ->
  (length (stamps items) + length pieces < fuel)%nat ->
  subscriber_task now_ns (len (stamps items)) payload_bytes fuel true (Some <$> pieces) h =
    Done (PingPong.Returns tt, (len (stamps items), h')).
Proof.
  intros Hp Hpc Hinfo Hi E Hok Hrec Hf. unfold subscriber_task.
  destruct (drain_one_line_done pieces [] info (stream payload_bytes items) Hpc Hinfo Hok E)
    as (accum & pieces' & -> & E' & Hpc' & Hle).
  rewrite bind_ret. apply (subscriber_loop_done payload_bytes Hp now_ns fuel pieces' accum 0 h h' items);
    try done; [|lia|lia].
  rewrite E'. unfold slice_ok in *. rewrite E in Hok. lens.
Qed.

(** A subscriber reads every time stamp: whatever pieces the stream
    arrives in, and whatever control lines the broker sends in between, once
    the greeting and the expected messages have arrived the task returns, having
    recorded the latency of every message, in order and once. *)
Theorem subscriber_reads_every_stamp {H : Histogram} now_ns payload_bytes pieces info items h h' :
  8 <= payload_bytes <= 2 ^ 62 -> Forall (fun b => b <> []) pieces -> no_crlf info ->
  Forall item_ok items -> concat pieces = info ++ CRLF ++ stream payload_bytes items ->
  slice_ok (concat pieces) -> record_all now_ns h 0 (stamps items) = Some h' ->
  forall fuel, (length (stamps items) + length pieces < fuel)%nat ->
  subscriber_task now_ns (len (stamps items)) payload_bytes fuel true (Some <$> pieces) h =
    Done (PingPong.Returns tt, (len (stamps items), h')).
Proof. intros. by eapply subscriber_task_done. Qed.

(** A histogram that keeps its samples. *)
#[local] Instance sample_list : Histogram := {|
  hist := list Z;
  new_with_bounds := fun _ _ _ => Some [];
  record := fun h v => if v <=? 60000000000 then Some (h ++ [v]) else None;
|}.

Definition two_stamps : list item := [Line (bs "+OK"); Stamp 400; Stamp 3338].
Definition four_pieces : list bytes :=
  [bs "INFO {"; bs "}" ++ CRLF ++ bs "+OK"; CRLF ++ text 8 (Stamp 400) ++ bs "MS"; drop 2 (text 8 (Stamp 3338))].

(** The second message is stamped after it is received: no sample. *)
Lemma subscriber_reads_every_stamp_witness :
  stamps two_stamps = [400; 3338] /\
  subscriber_task (H := sample_list) (fun k => 1000 * (k + 1)) (len (stamps two_stamps)) 8 9 true
    (Some <$> four_pieces) [] = Done (PingPong.Returns tt, (len (stamps two_stamps), [600])).
Proof.
  split; [done|].
  apply (subscriber_reads_every_stamp (H := sample_list) (fun k => 1000 * (k + 1)) 8 four_pieces
    (bs "INFO {}") two_stamps [] [600]).
  - lia.
  - repeat constructor; done.
  - by vm_compute.
  - repeat constructor; by vm_compute.
  - by vm_compute.
  - by vm_compute.
  - by vm_compute.
  - cbn. lia.
Defined.

(** The configuration [from_env] accepts is one the benchmark can run on:
    at least one subscriber, payloads with room for the time stamp, numbers that
    fit their types; and when it refuses, it names a variable that is at fault. *)
Theorem from_env_sound {Addr} (parse_addr : bytes -> option Addr) env :
  match from_env parse_addr env with
  | Ok c => 1 <= fanout c <= usize_max /\ 8 <= payload_bytes c <= usize_max /\
      0 <= iterations c <= u64_max /\ 0 <= warmup c <= u64_max /\ 0 <= pace_window c <= u64_max
  | Err (ConfigError.OutOfRange _) => False
  | Err ConfigError.FanoutZero => exists s, env (bs "AULON_FANOUT") = Some s /\ u64_from_str s = Some 0
  | Err ConfigError.PayloadTooSmall => exists s n, env (bs "AULON_PAYLOAD_BYTES") = Some s /\
      u64_from_str s = Some n /\ n < 8
  | Err (ConfigError.NotANumber key s) => env key = Some s /\ u64_from_str s = None
  | Err (ConfigError.Addr s) => s = default (bs "127.0.0.1:4222") (env (bs "AULON_ADDR")) /\ parse_addr s = None
  end.
Proof.
  unfold from_env, addr_from_env. destruct (parse_addr _) as [a|] eqn:Ea; cbn [and_then]; [|by split].
  assert (forall key d, 0 <= d <= u64_max ->
    (exists n, parse_env_u64 env key d = Ok n /\ 0 <= n <= u64_max /\
      (n = d \/ exists s, env key = Some s /\ u64_from_str s = Some n)) \/
    exists s, parse_env_u64 env key d = Err (ConfigError.NotANumber key s) /\ env key = Some s /\
      u64_from_str s = None) as Hparse.
  { intros key d Hd. unfold parse_env_u64. destruct (env key) as [s|] eqn:Ek; [|left; eauto].
    destruct (u64_from_str s) as [n|] eqn:Es; [|right; eauto].
    left. exists n. split_and!; [done|by eapply u64_from_str_range..|eauto]. }
  assert (0 <= 8 <= u64_max /\ 0 <= 256 <= u64_max /\ 0 <= 50000 <= u64_max /\ 0 <= 1000 <= u64_max /\
    0 <= 2 <= u64_max) as (H8 & H256 & Hi & Hw & H2) by (unfold u64_max; lia).
  destruct (Hparse (bs "AULON_FANOUT") 8 H8) as [(f & -> & Hf & Hfs)|(s & -> & ?)]; cbn [and_then]; [|done].
  rewrite usize_try_from_ok by done. cbn [and_then].
  destruct (Z.eqb_spec f 0) as [->|Hf0].
  { destruct Hfs as [?|?]; [lia|done]. }
  destruct (Hparse (bs "AULON_PAYLOAD_BYTES") 256 H256) as [(p & -> & Hp & Hps)|(s & -> & ?)]; cbn [and_then]; [|done].
  rewrite usize_try_from_ok by done. cbn [and_then].
  destruct (Z.ltb_spec p 8) as [Hp8|Hp8].
  { destruct Hps as [?|(s & ? & ?)]; [lia|eauto]. }
  destruct (Hparse (bs "AULON_ITERATIONS") 50000 Hi) as [(i & -> & ? & _)|(s & -> & ?)]; cbn [and_then]; [|done].
  destruct (Hparse (bs "AULON_WARMUP") 1000 Hw) as [(w & -> & ? & _)|(s & -> & ?)]; cbn [and_then]; [|done].
  destruct (Hparse (bs "AULON_PACE_WINDOW") 2 H2) as [(q & -> & ? & _)|(s & -> & ?)]; cbn [and_then]; [|done].
  cbn. unfold usize_max. unfold u64_max in *. lia.
Qed.

Lemma from_env_range {Addr} (parse_addr : bytes -> option Addr) env c :
  from_env parse_addr env = Ok c ->
  1 <= fanout c <= usize_max /\ 8 <= payload_bytes c <= usize_max /\
  0 <= iterations c <= u64_max /\ 0 <= warmup c <= u64_max /\ 0 <= pace_window c <= u64_max.
Proof. intros E. pose proof (from_env_sound parse_addr env) as H. by rewrite E in H. Qed.
