(* ===== verification/BenchMain.v ===== *)
(** The [main] functions of the two benchmarks: exit codes, what is connected
    and spawned, the publisher's loop, and the histograms that are reported.

    What the environment does is given by functions: the results of connecting
    and writing, the clock, what reads return, and the counters the publisher
    sees each time it polls them.  A task that waits for ever makes [main]
    hang.  A panic ends the process ([panic = abort] in the release
    profile); that of a subscriber is seen here when the task is awaited. *)
From Stdlib Require Import ZArith Lia Strings.Byte.
From stdpp Require Import base gmap list strings relations.
From S2P Require Import Prelude Wire Parse Emit Codec Pool Bench Fanout.

(** The rest of [hdrhistogram::Histogram] that is used, and what its
    documentation says: a histogram tracks values up to its upper bound, and
    adding one of the same bounds adds up the counts. *)
Class HistogramOps (H : Histogram) : Type := {
  hist_len : hist -> Z;
  hist_add : hist -> hist -> option hist;
}.
Class HistogramLaws (H : Histogram) {HO : HistogramOps H} : Type := {
  tracks : hist -> Z -> Prop;
  new_with_bounds_ok low high digits : 1 <= low -> 2 * low <= high -> 0 <= digits <= 5 ->
    exists h, new_with_bounds low high digits = Some h /\ tracks h high /\ hist_len h = 0;
  record_ok h high v : tracks h high -> 0 <= v <= high ->
    exists h', record h v = Some h' /\ tracks h' high /\ hist_len h' = hist_len h + 1;
  hist_add_ok h h' high : tracks h high -> tracks h' high ->
    exists h2, hist_add h h' = Some h2 /\ tracks h2 high /\ hist_len h2 = hist_len h + hist_len h';
}.

(** [Histogram::new_with_bounds(1, 60_000_000_000, 3)]. *)
Definition HIGH : Z := 60000000000.
Definition new_histogram `{H : Histogram} : run hist := expect (new_with_bounds 1 HIGH 3).

(** How a benchmark ends: with an exit code and, if it got so far, what it
    reports; or not at all. *)
Inductive ending (R : Type) : Type :=
| Exits (code : Z) (report : option R)
| Hangs.
Arguments Exits {R} code report.
Arguments Hangs {R}.

(* ------------------------------------------------------------------ *)
(** * Ping-pong *)

Module PingPongMain.
Section Main.
Context {Addr : Type} (parse_addr : bytes -> option Addr).
Context {F : FixedBufPool} {H : Histogram}.
Import PingPong.

(** The measured loop; [elapsed n] is the time of the round trip after which
    [n] are to follow. *)
Fixpoint measure (write : nat -> bool) (elapsed : nat -> Z) (n : nat) (expected : Z) (reads : list read) (h : hist) :
    run (outcome hist) :=
  match n with
  | O => Done (Returns h)
  | S n =>
      r ← ping_pong (write n) expected reads;
      match r with
      | Returns (_, reads) => h' ← expect (record h (elapsed n)); measure write elapsed n expected reads h'
      | Fails => Done Fails
      | Waits => Done Waits
      end
  end.

(** What the outside does: whether registering the buffers and connecting
    succeed, the results of the writes of the two loops, the reads, the
    times. *)
Record outside : Type := mkOutside {
  registers : bool;
  connects : bool;
  warmup_write : nat -> bool;
  measure_write : nat -> bool;
  reads : list read;
  elapsed : nat -> Z;
}.

Definition main (env : Env) (o : outside) : run (ending hist) :=
  match from_env parse_addr env with
  | Err _ => Done (Exits 2 None)
  | Ok config =>
      let pool := pool_of (replicate 2 (replicate (Z.to_nat (payload_bytes config)) x61)) in
      if negb (registers o) then Done (Exits 1 None) else
      if negb (connects o) then Done (Exits 1 None) else
      s ← expect (try_next pool (payload_bytes config));
      r ← expect (try_next s.2 (payload_bytes config));
      w ← round_trips (warmup_write o) (Z.to_nat (warmup config)) (payload_bytes config) (reads o);
      match w with
      | Fails => Done (Exits 1 None)
      | Waits => Done Hangs
      | Returns reads =>
          h ← new_histogram;
          m ← measure (measure_write o) (elapsed o) (Z.to_nat (iterations config)) (payload_bytes config) reads h;
          match m with
          | Fails => Done (Exits 1 None)
          | Waits => Done Hangs
          | Returns h => Done (Exits 0 (Some h))
          end
      end
  end.
End Main.
End PingPongMain.

(* ------------------------------------------------------------------ *)
(** * Fan-out *)

Section Publisher.
Variables (pace_window payload_bytes : Z).
(** The clock when the publisher stamps message [sent], and the result of
    writing it. *)
Variable now_ns : Z -> Z.
Variable write : Z -> bool.

(** The inner [while]: the counters seen by each poll until the publisher may
    go on, or [None] if it never may. *)
Fixpoint pace (sent : Z) (polls : list (list Z)) : option (list (list Z)) :=
  if 0 <? pace_window then
    match polls with
    | [] => None
    | rs :: polls => if may_publish pace_window sent rs then Some polls else pace sent polls
    end
  else Some polls.

(** [n] more messages from number [sent] on: how the loop ends and the frames
    written. *)
Fixpoint publish_loop (n : nat) (sent : Z) (polls : list (list Z)) : PingPong.outcome unit * list bytes :=
  match n with
  | O => (PingPong.Returns tt, [])
  | S n =>
      match pace sent polls with
      | None => (PingPong.Waits, [])
      | Some polls =>
          if write sent then
            let r := publish_loop n (sent + 1) polls in
            (r.1, publisher_frame payload_bytes (now_ns sent) :: r.2)
          else (PingPong.Fails, [])
      end
  end.
End Publisher.

Section Main.
Context {Addr : Type} (parse_addr : bytes -> option Addr).
Context {H : Histogram} {HO : HistogramOps H}.

Definition publisher_drive (config : @Config Addr) (now_ns : Z -> Z) (connect_write : bool) (write : Z -> bool)
    (reads : list read) (polls : list (list Z)) : run (PingPong.outcome unit * list bytes) :=
  if negb connect_write then Done (PingPong.Fails, []) else
  g ← drain_one_line reads [];
  match g with
  | PingPong.Fails => Done (PingPong.Fails, [])
  | PingPong.Waits => Done (PingPong.Waits, [])
  | PingPong.Returns _ =>
      total ← (warmup config +! iterations config)%usize;
      Done (publish_loop (pace_window config) (payload_bytes config) now_ns write (Z.to_nat total) 0 polls)
  end.

(** What the outside does: [connects k] for the [k]-th connection (the last is
    the publisher's), the publisher's clock, writes, reads and polls, and the
    subscribers' tasks, given how many messages they expect and their
    histogram. *)
Record outside : Type := mkOutside {
  connects : nat -> bool;
  pub_clock : Z -> Z;
  pub_connect_write : bool;
  pub_write : Z -> bool;
  pub_reads : list read;
  polls : list (list Z);
  subscriber : nat -> Z -> hist -> run (PingPong.outcome unit * (Z * hist));
}.

(** The [for sub_idx in 0..fanout] loop: the histograms, or [None] when a
    connection fails. *)
Fixpoint spawn_all (connects : nat -> bool) (idx n : nat) : run (option (list hist)) :=
  match n with
  | O => Done (Some [])
  | S n =>
      h ← new_histogram;
      if connects idx then
        r ← spawn_all connects (S idx) n;
        Done (option_map (cons h) r)
      else Done None
  end.

(** Awaiting the subscribers: their histograms as they left them, whether or
    not they failed, or [None] if one does not end. *)
Fixpoint join_all (subscriber : nat -> hist -> run (PingPong.outcome unit * (Z * hist))) (idx : nat) (hs : list hist) :
    run (option (list hist)) :=
  match hs with
  | [] => Done (Some [])
  | h :: hs =>
      r ← subscriber idx h;
      match r.1 with
      | PingPong.Waits => Done None
      | _ => t ← join_all subscriber (S idx) hs; Done (option_map (cons r.2.2) t)
      end
  end.

(** [merged] and [samples_per_sub]. *)
Fixpoint merge_all (merged : hist) (hs : list hist) : run (hist * list Z) :=
  match hs with
  | [] => Done (merged, [])
  | h :: hs =>
      merged' ← expect (hist_add merged h);
      r ← merge_all merged' hs;
      Done (r.1, hist_len h :: r.2)
  end.

Definition main (env : Env) (o : outside) : run (ending (hist * list Z)) :=
  match Fanout.from_env parse_addr env with
  | Err _ => Done (Exits 2 None)
  | Ok config =>
      total_msgs ← (iterations config +! warmup config)%usize;
      let n := Z.to_nat (fanout config) in
      spawned ← spawn_all (connects o) 0 n;
      match spawned with
      | None => Done (Exits 1 None)
      | Some hs =>
          if negb (connects o n) then Done (Exits 1 None) else
          p ← publisher_drive config (pub_clock o) (pub_connect_write o) (pub_write o) (pub_reads o) (polls o);
          match p.1 with
          | PingPong.Fails => Done (Exits 1 None)
          | PingPong.Waits => Done Hangs
          | PingPong.Returns _ =>
              joined ← join_all (fun idx => subscriber o idx total_msgs) 0 hs;
              match joined with
              | None => Done Hangs
              | Some hs =>
                  merged ← new_histogram;
                  report ← merge_all merged hs;
                  Done (Exits 0 (Some report))
              end
          end
      end
  end.
End Main.

(* ------------------------------------------------------------------ *)
(** * Ping-pong: what is reported *)

Section PingPongReport.
Context {F : FixedBufPool} {FL : FixedBufPoolLaws F} {H : Histogram} {HO : HistogramOps H} {HL : HistogramLaws H}.
Import PingPong.

Lemma new_histogram_ok : exists h, new_histogram = Done h /\ tracks h HIGH /\ hist_len h = 0.
Proof.
  destruct (new_with_bounds_ok 1 HIGH 3) as (h & E & Ht & Hl); [unfold HIGH; lia..|].
  exists h. unfold new_histogram. by rewrite E.
Qed.

Lemma measure_complete write elapsed expected (rounds : list (list read)) more h :
  (forall n, write n = true) -> (forall n, 0 <= elapsed n <= HIGH) -> 0 <= expected <= usize_max ->
  Forall (fun reads => Forall arrives reads /\ bytes_read reads = expected) rounds -> tracks h HIGH ->
  exists h', PingPongMain.measure write elapsed (length rounds) expected (concat rounds ++ more) h = Done (Returns h') /\
    hist_len h' = hist_len h + len rounds.
Proof.
  intros Hw Hel He Hr. revert h. induction Hr as [|reads rounds [Hr Hs] _ IH]; intros h Ht.
  { exists h. split; [done|]. rewrite len_nil. lia. }
  cbn [length concat PingPongMain.measure]. unfold ping_pong.
  rewrite Hw, <- app_assoc, receive_complete, bind_ret by (done || lia).
  destruct (record_ok h HIGH (elapsed (length rounds)) Ht (Hel _)) as (h1 & -> & Ht1 & Hl1). cbn [expect].
  rewrite bind_ret. destruct (IH h1 Ht1) as (h' & -> & Hl). exists h'. split; [done|]. rewrite len_cons. lia.
Qed.

(** The ping-pong benchmark against an echo server: when the
    configuration is valid and every payload comes back, in any pieces, it
    exits with 0 and reports a histogram of exactly [iterations] samples, the
    round trips of the warm-up not among them. *)
Theorem ping_pong_main_reports {Addr} (parse_addr : bytes -> option Addr) env config o warm measured :
  from_env parse_addr env = Ok config ->
  PingPongMain.registers o = true -> PingPongMain.connects o = true ->
  (forall n, PingPongMain.warmup_write o n = true) -> (forall n, PingPongMain.measure_write o n = true) ->
  (forall n, 0 <= PingPongMain.elapsed o n <= HIGH) ->
  PingPongMain.reads o = concat warm ++ concat measured ->
  len warm = warmup config -> len measured = iterations config ->
  Forall (fun reads => Forall arrives reads /\ bytes_read reads = payload_bytes config) (warm ++ measured) ->
  exists h, PingPongMain.main parse_addr env o = Done (Exits 0 (Some h)) /\ hist_len h = iterations config.
Proof.
  intros Hc Hr Hcn Hw Hm Hel Hrd Hlw Hlm [Hfw Hfm]%Forall_app.
  assert (0 <= payload_bytes config <= usize_max) as Hp.
  { unfold from_env, addr_from_env in Hc. apply and_then_ok in Hc as (a & _ & Hc).
    apply and_then_ok in Hc as (p & Ep & Hc). apply and_then_ok in Hc as (p' & Ep' & Hc).
    apply and_then_ok in Hc as (i & _ & Hc). apply and_then_ok in Hc as (w & _ & [= <-]). cbn.
    apply parse_env_u64_range in Ep; [|unfold u64_max; lia]. unfold usize_try_from in Ep'.
    destruct (p <=? usize_max) eqn:El; [|done]. injection Ep' as <-. apply Z.leb_le in El. lia. }
  unfold PingPongMain.main. rewrite Hc, Hr, Hcn. cbn [negb].
  set (b := replicate (Z.to_nat (payload_bytes config)) x61).
  assert (payload_bytes config = len b) as Hb by (unfold b, len; rewrite length_replicate; lia).
  destruct (two_buffers b) as (i & j & p1 & p2 & E1 & E2 & _).
  change (replicate 2 b) with [b; b]. rewrite Hb, E1 by done. cbn [expect].
  rewrite bind_ret. cbn [snd]. rewrite E2, <- Hb. cbn [expect]. rewrite bind_ret, Hrd, <- Hlw, <- Hlm, !to_nat_len.
  rewrite round_trips_complete, bind_ret by done.
  destruct new_histogram_ok as (h & -> & Ht & Hl). rewrite bind_ret.
  destruct (measure_complete (PingPongMain.measure_write o) (PingPongMain.elapsed o) (payload_bytes config) measured [] h)
    as (h' & E & Hl'); [done..|]. rewrite app_nil_r in E. rewrite E, bind_ret. exists h'. split; [done|lia].
Qed.
End PingPongReport.

(* ------------------------------------------------------------------ *)
(** * Fan-out: what is reported *)

Section FanoutReport.
Context {H : Histogram} {HO : HistogramOps H} {HL : HistogramLaws H}.

Abbreviation fresh h := (tracks h HIGH /\ hist_len h = 0).

Lemma spawn_all_ok connects idx n :
  (forall k, (idx <= k < idx + n)%nat -> connects k = true) ->
  exists hs, spawn_all connects idx n = Done (Some hs) /\ length hs = n /\ Forall (fun h => fresh h) hs.
Proof.
  revert idx. induction n as [|n IH]; intros idx Hc; [by exists []|]. cbn [spawn_all].
  destruct new_histogram_ok as (h & -> & Hf). rewrite bind_ret, Hc by lia.
  destruct (IH (S idx)) as (hs & -> & Hl & Hfs); [intros k Hk; apply Hc; lia|]. rewrite bind_ret.
  exists (h :: hs). split_and!; [done|cbn; by rewrite Hl|by constructor].
Qed.
(** A connection that fails ends the benchmark. *)
Lemma spawn_all_fails connects idx n k :
  (idx <= k < idx + n)%nat -> connects k = false -> spawn_all connects idx n = Done None.
Proof.
  revert idx. induction n as [|n IH]; intros idx Hk Hc; [lia|]. cbn [spawn_all].
  destruct new_histogram_ok as (h & -> & _). rewrite bind_ret. destruct (connects idx) eqn:E; [|done].
  rewrite IH; [done| |done]. destruct (decide (k = idx)) as [->|]; [congruence|lia].
Qed.

Lemma merge_all_ok merged hs :
  tracks merged HIGH -> Forall (fun h => tracks h HIGH) hs ->
  exists merged', merge_all merged hs = Done (merged', hist_len <$> hs) /\
    hist_len merged' = hist_len merged + foldr Z.add 0 (hist_len <$> hs).
Proof.
  intros Ht Hs. revert merged Ht. induction Hs as [|h hs Hh Hs IH]; intros merged Ht; cbn.
  { exists merged. split; [done|lia]. }
  destruct (hist_add_ok merged h HIGH Ht Hh) as (m1 & -> & Ht1 & Hl1). cbn [expect]. rewrite bind_ret.
  destruct (IH m1 Ht1) as (m2 & -> & Hl2). rewrite bind_ret. exists m2. split; [done|cbn; lia].
Qed.

Lemma sum_replicate n c : foldr Z.add 0 (replicate n c) = Z.of_nat n * c.
Proof. induction n as [|n IH]; [done|]. cbn [replicate foldr]. rewrite IH. lia. Qed.

(** The clock of a subscriber runs ahead of every stamp by at most a minute. *)
Fixpoint in_time (clock : Z -> Z) (k : Z) (tss : list Z) : Prop :=
  match tss with [] => True | ts :: tss => ts <= clock k <= ts + HIGH /\ in_time clock (k + 1) tss end.

Lemma record_all_ok clock tss h k :
  tracks h HIGH -> in_time clock k tss ->
  exists h', record_all clock h k tss = Some h' /\ tracks h' HIGH /\ hist_len h' = hist_len h + len tss.
Proof.
  revert h k. induction tss as [|ts tss IH]; intros h k Ht Hin; cbn.
  { exists h. split_and!; [done..|rewrite len_nil; lia]. }
  destruct Hin as [Hb Hin]. zb. destruct (record_ok h HIGH (clock k - ts) Ht) as (h1 & -> & Ht1 & Hl1); [lia|]. cbn.
  destruct (IH h1 (k + 1) Ht1 Hin) as (h' & -> & Ht' & Hl'). exists h'. split_and!; [done..|]. rewrite len_cons. lia.
Qed.

(** A subscriber that is sent the greeting and then, among control lines, as
    many stamped messages as it expects, in any pieces. *)
Definition served_well (payload total : Z) (sub : Z -> hist -> run (PingPong.outcome unit * (Z * hist))) : Prop :=
  exists clock pieces info items fuel,
    (forall h, sub total h = subscriber_task clock total payload fuel true (Some <$> pieces) h) /\
    Forall (fun b => b <> []) pieces /\ no_crlf info /\ Forall item_ok items /\
    concat pieces = info ++ CRLF ++ stream payload items /\ slice_ok (concat pieces) /\
    len (stamps items) = total /\ in_time clock 0 (stamps items) /\
    (length (stamps items) + length pieces < fuel)%nat.

Lemma served_well_returns payload total sub h :
  8 <= payload <= 2 ^ 62 -> served_well payload total sub -> fresh h ->
  exists h', sub total h = Done (PingPong.Returns tt, (total, h')) /\ tracks h' HIGH /\ hist_len h' = total.
Proof.
  intros Hp (clock & pieces & info & items & fuel & E & Hpc & Hi & Hit & Hs & Hok & Hl & Hin & Hf) [Ht H0].
  destruct (record_all_ok clock (stamps items) h 0 Ht Hin) as (h' & Hr & Ht' & Hl').
  exists h'. rewrite E, <- Hl. split_and!; [|done|lia].
  by eapply (subscriber_task_done _ _ _ info).
Qed.

Lemma join_all_ok payload total sub idx hs :
  8 <= payload <= 2 ^ 62 -> (forall k, (idx <= k < idx + length hs)%nat -> served_well payload total (sub k)) ->
  Forall (fun h => fresh h) hs ->
  exists hs', join_all (fun k => sub k total) idx hs = Done (Some hs') /\ length hs' = length hs /\
    Forall (fun h => tracks h HIGH) hs' /\ hist_len <$> hs' = replicate (length hs) total.
Proof.
  intros Hp Hk Hs. revert idx Hk. induction Hs as [|h hs Hh Hs IH]; intros idx Hk; [by exists []|]. cbn [join_all].
  destruct (served_well_returns payload total (sub idx) h Hp) as (h' & -> & Ht & Hl); [apply Hk; cbn; lia|done|].
  rewrite bind_ret. cbn [fst snd]. destruct (IH (S idx)) as (hs' & -> & Hlen & Hts & Hls); [intros k Hk'; apply Hk; cbn; lia|].
  rewrite bind_ret. exists (h' :: hs'). split_and!; [done|cbn; by rewrite Hlen|by constructor|cbn; by rewrite Hl, Hls].
Qed.

(** The publisher: all messages in order, each within the window. *)
Lemma publish_loop_frames window payload clock write n sent polls fs :
  publish_loop window payload clock write n sent polls = (PingPong.Returns tt, fs) ->
  fs = (fun k => publisher_frame payload (clock (sent + Z.of_nat k))) <$> List.seq 0 n.
Proof.
  revert sent polls fs. induction n as [|n IH]; intros sent polls fs; cbn [publish_loop]; [by intros [= <-]|].
  destruct (pace _ _ _) as [polls'|]; [|done]. destruct (write sent); [|done].
  destruct (publish_loop _ _ _ _ n _ _) as [r fs'] eqn:E. cbn [fst snd]. intros [= -> <-].
  apply IH in E as ->. cbn [List.seq fmap list_fmap]. rewrite Z.add_0_r. f_equal.
  rewrite <- seq_shift, <- list_fmap_compose. apply list_fmap_ext. intros i k _. cbn. do 2 f_equal. lia.
Qed.

(** A counter that stays at [r] or below keeps the publisher within the window
    of [r]. *)
Definition stuck_at (i : nat) (r : Z) (polls : list (list Z)) : Prop :=
  Forall (fun rs => exists c, rs !! i = Some c /\ c <= r) polls.

Lemma pace_stuck window sent polls i r polls' :
  0 < window -> stuck_at i r polls -> pace window sent polls = Some polls' ->
  stuck_at i r polls' /\ sent + 1 - r <= window.
Proof.
  intros Hw Hs. unfold stuck_at in *. induction Hs as [|rs polls (c & Hc & Hle) Hs IH]; cbn; zb; [done|].
  destruct (may_publish window sent rs) eqn:E; [|done]. intros [= <-]. split; [done|].
  pose proof (may_publish_window window sent rs Hw E) as Hf.
  apply (Forall_lookup_1 _ _ _ _ Hf) in Hc. lia.
Qed.

Lemma publish_loop_stuck window payload clock write n sent polls i r :
  0 < window -> (forall k, write k = true) -> stuck_at i r polls -> r + window < sent + Z.of_nat n ->
  sent <= r + window ->
  exists fs, publish_loop window payload clock write n sent polls = (PingPong.Waits, fs) /\
    sent + len fs <= r + window.
Proof.
  intros Hw Hwr. revert sent polls. induction n as [|n IH]; intros sent polls Hs Hn Hle; [lia|].
  cbn [publish_loop]. destruct (pace window sent polls) as [polls'|] eqn:Ep.
  2: { exists []. split; [done|]. rewrite len_nil. lia. }
  destruct (pace_stuck _ _ _ _ _ _ Hw Hs Ep) as [Hs' Hwin]. rewrite Hwr.
  destruct (IH (sent + 1) polls' Hs') as (fs & -> & Hl); [lia|lia|]. eexists. split; [done|]. cbn [snd].
  rewrite len_cons. lia.
Qed.
End FanoutReport.

(* ------------------------------------------------------------------ *)
(** * Properties *)

Section Properties.
Context {H : Histogram} {HO : HistogramOps H} {HL : HistogramLaws H}.
Context {Addr : Type} (parse_addr : bytes -> option Addr).

(** C32.  The fan-out benchmark reports every message: when the configuration
    is valid, everything connects, the publisher finishes and every subscriber
    is served its messages within a minute each, [main] exits with 0 and each
    histogram and the merged one count the warm-up as well as the iterations:
    [iterations + warmup] samples per subscriber. *)
Theorem fanout_main_reports env config o frames :
  Fanout.from_env parse_addr env = Ok config -> iterations config + warmup config <= u64_max ->
  payload_bytes config <= 2 ^ 62 ->
  (forall k, (k <= Z.to_nat (fanout config))%nat -> connects o k = true) ->
  publisher_drive config (pub_clock o) (pub_connect_write o) (pub_write o) (pub_reads o) (polls o) =
    Done (PingPong.Returns tt, frames) ->
  (forall k, (k < Z.to_nat (fanout config))%nat ->
    served_well (payload_bytes config) (iterations config + warmup config) (subscriber o k)) ->
  frames = (fun k => publisher_frame (payload_bytes config) (pub_clock o (Z.of_nat k))) <$>
    List.seq 0 (Z.to_nat (iterations config + warmup config)) /\
  exists merged, main parse_addr env o = Done (Exits 0 (Some (merged,
      replicate (Z.to_nat (fanout config)) (iterations config + warmup config)))) /\
    hist_len merged = fanout config * (iterations config + warmup config).
Proof.
  intros Hc Htot Hp62 Hcon Hpub Hsub.
  pose proof (from_env_range parse_addr env config Hc) as (Hf & Hp & Hi & Hw & _).
  assert ((iterations config +! warmup config)%usize = Done (iterations config + warmup config)) as Hadd
    by (apply uadd_ok; unfold usize_max, u64_max in *; lia).
  split.
  { unfold publisher_drive in Hpub. destruct (pub_connect_write o); [|done]. cbn [negb] in Hpub.
    destruct (drain_one_line (pub_reads o) []) as [[]|]; try done. rewrite bind_ret in Hpub.
    rewrite uadd_ok, bind_ret in Hpub by (unfold usize_max, u64_max in *; lia). injection Hpub as Hpub.
    rewrite (Z.add_comm (warmup config)) in Hpub. by apply publish_loop_frames in Hpub as ->. }
  unfold main. rewrite Hc, Hadd, bind_ret.
  destruct (spawn_all_ok (connects o) 0 (Z.to_nat (fanout config))) as (hs & -> & Hl & Hfr); [intros k Hk; apply Hcon; lia|].
  rewrite bind_ret, Hcon by lia. cbn [negb]. rewrite Hpub, bind_ret. cbn [fst].
  destruct (join_all_ok (payload_bytes config) (iterations config + warmup config) (subscriber o) 0 hs)
    as (hs' & -> & Hl' & Hts & Hls); [lia|intros k Hk; apply Hsub; lia|done|]. rewrite bind_ret.
  destruct new_histogram_ok as (m & -> & Hm & Hm0). rewrite bind_ret.
  destruct (merge_all_ok m hs' Hm Hts) as (merged & -> & Hlm). rewrite bind_ret, Hls, Hl. exists merged.
  split; [done|]. rewrite Hlm, Hls, Hl, Hm0, sum_replicate. lia.
Qed.

(** C33.  One dead subscriber hangs the fan-out benchmark: when a subscriber's
    task has ended early (evicted as a slow consumer, say) its counter stays at
    some [r], and with pacing on and more than [r + pace_window] messages to
    send, the publisher stops within the window of [r] and polls for ever, so
    that [main] neither reports nor exits. *)
Theorem dead_subscriber_hangs_the_benchmark env config o i r rest :
  Fanout.from_env parse_addr env = Ok config -> iterations config + warmup config <= u64_max ->
  (forall k, (k <= Z.to_nat (fanout config))%nat -> connects o k = true) ->
  pub_connect_write o = true -> drain_one_line (pub_reads o) [] = Done (PingPong.Returns rest) ->
  (forall k, pub_write o k = true) ->
  0 < pace_window config -> 0 <= r -> r + pace_window config < iterations config + warmup config ->
  stuck_at i r (polls o) ->
  main parse_addr env o = Done Hangs /\
  exists frames, publisher_drive config (pub_clock o) true (pub_write o) (pub_reads o) (polls o) =
      Done (PingPong.Waits, frames) /\ len frames <= r + pace_window config.
Proof.
  intros Hc Htot Hcon Hcw Hd Hw Hpw Hr Hlt Hst.
  pose proof (from_env_range parse_addr env config Hc) as (Hf & Hp & Hi & Hwu & _).
  assert (exists frames, publisher_drive config (pub_clock o) true (pub_write o) (pub_reads o) (polls o) =
      Done (PingPong.Waits, frames) /\ len frames <= r + pace_window config) as (frames & E & Hl).
  { unfold publisher_drive. cbn [negb]. rewrite Hd, bind_ret, uadd_ok, bind_ret by (unfold usize_max, u64_max in *; lia).
    destruct (publish_loop_stuck (pace_window config) (payload_bytes config) (pub_clock o) (pub_write o)
      (Z.to_nat (warmup config + iterations config)) 0 (polls o) i r) as (fs & -> & Hle); [lia|done|done|lia|lia|].
    exists fs. split; [done|lia]. }
  split; [|eauto]. unfold main. rewrite Hc, uadd_ok, bind_ret by (unfold usize_max, u64_max in *; lia).
  destruct (spawn_all_ok (connects o) 0 (Z.to_nat (fanout config))) as (hs & -> & _ & _); [intros k Hk; apply Hcon; lia|].
  rewrite bind_ret, Hcon by lia. cbn [negb]. by rewrite Hcw, E.
Qed.
End Properties.

(* ------------------------------------------------------------------ *)
(** * Runs *)

(** A histogram that keeps its samples and its upper bound. *)
Module Samples.
#[local] Instance samples : Histogram := {|
  hist := Z * list Z;
  new_with_bounds := fun low high digits =>
    if (1 <=? low) && (2 * low <=? high) && (digits <=? 5) then Some (high, []) else None;
  record := fun h v => if v <=? h.1 then Some (h.1, h.2 ++ [v]) else None;
|}.
#[local] Instance samples_ops : HistogramOps samples := {|
  hist_len := fun h => len h.2;
  hist_add := fun h h' => if forallb (fun v => v <=? h.1) h'.2 then Some (h.1, h.2 ++ h'.2) else None;
|}.
Lemma samples_laws : HistogramLaws samples.
Proof.
  refine (Build_HistogramLaws samples samples_ops
    (fun h high => h.1 = high /\ Forall (fun v => v <= high) h.2) _ _ _); cbn.
  - intros low high digits Hl Hh Hd. zb. by exists (high, []).
  - intros h high v [<- Hf] Hv. zb. eexists. split_and!; [done..| |cbn; by rewrite len_app].
    cbn. apply Forall_app. split; [done|]. repeat constructor. lia.
  - intros h h' high [<- Hf] [_ Hf']. assert (forallb (fun v => v <=? h.1) h'.2 = true) as ->.
    { apply forallb_forall. intros v Hv. apply Z.leb_le. rewrite Forall_forall in Hf'. by apply Hf', list_elem_of_In. }
    eexists. split_and!; [done..| |cbn; by rewrite len_app]. cbn. by apply Forall_app.
Defined.

(** One subscriber, one warm-up message and one measured, 8 bytes each. *)
Definition env (key : bytes) : option bytes :=
  if bool_decide (key = bs "AULON_FANOUT") then Some (bs "1") else
  if bool_decide (key = bs "AULON_PAYLOAD_BYTES") then Some (bs "8") else
  if bool_decide (key = bs "AULON_ITERATIONS") then Some (bs "1") else
  if bool_decide (key = bs "AULON_WARMUP") then Some (bs "1") else None.
Definition config : @Config bytes := mkConfig (bs "127.0.0.1:4222") 1 8 1 1 2.
Definition items : list item := [Stamp 400; Stamp 900].
Definition pieces : list bytes := [bs "INFO {}" ++ CRLF ++ text 8 (Stamp 400) ++ bs "MS"; drop 2 (text 8 (Stamp 900))].
Definition clock (k : Z) : Z := 1000 * (k + 1).
Definition well : outside :=
  mkOutside (fun _ => true) (fun k => 400 + 500 * k) true (fun _ => true) [Some (bs "INFO {}" ++ CRLF)] [[0]; [1]]
    (fun _ total h => subscriber_task clock total 8 9 true (Some <$> pieces) h).
Lemma well_served : served_well 8 2 (subscriber well 0).
Proof.
  exists clock, pieces, (bs "INFO {}"), items, 9%nat.
  split_and!; [done|by repeat constructor|by vm_compute|repeat constructor; by vm_compute|by vm_compute..| |cbn; lia].
  cbn. unfold clock, HIGH. lia.
Qed.

(** Ten messages to send, and a subscriber that ends after one. *)
Definition env10 (key : bytes) : option bytes :=
  if bool_decide (key = bs "AULON_ITERATIONS") then Some (bs "9") else env key.
Definition config10 : @Config bytes := mkConfig (bs "127.0.0.1:4222") 1 8 9 1 2.
Definition dead : outside :=
  mkOutside (fun _ => true) (fun k => 400 + 500 * k) true (fun _ => true) [Some (bs "INFO {}" ++ CRLF)]
    ([0] :: [1] :: [1] :: replicate 1000 [1])
    (fun _ total h => subscriber_task clock total 8 9 true [Some (bs "INFO {}" ++ CRLF ++ text 8 (Stamp 400)); Some []] h).
End Samples.

Lemma fanout_main_reports_witness :
  exists merged, main (HO := Samples.samples_ops) Some Samples.env Samples.well = Done (Exits 0 (Some (merged, [2]))) /\
    hist_len (HistogramOps := Samples.samples_ops) merged = 1 * (1 + 1).
Proof.
  apply (fanout_main_reports (HL := Samples.samples_laws) Some Samples.env Samples.config Samples.well
    [publisher_frame 8 400; publisher_frame 8 900]).
  - by vm_compute.
  - by vm_compute.
  - by vm_compute.
  - done.
  - by vm_compute.
  - intros k Hk. replace k with 0%nat by (cbn in Hk; lia). exact Samples.well_served.
Defined.

Lemma dead_subscriber_hangs_the_benchmark_witness :
  main (HO := Samples.samples_ops) Some Samples.env10 Samples.dead = Done Hangs.
Proof.
  apply (dead_subscriber_hangs_the_benchmark (HL := Samples.samples_laws) Some Samples.env10 Samples.config10 Samples.dead
    0 1 ([], [])).
  - by vm_compute.
  - by vm_compute.
  - done.
  - done.
  - by vm_compute.
  - done.
  - by vm_compute.
  - done.
  - by vm_compute.
  - constructor; [|constructor; [|constructor]]; [eexists; split; [reflexivity|done]..|].
    apply Forall_replicate. eexists. split; [reflexivity|done].
Defined.

Lemma ping_pong_main_reports_witness :
  exists h, PingPongMain.main (F := checkout) Some Samples.env
      (PingPongMain.mkOutside true true (fun _ => true) (fun _ => true) [Some 3; Some 5; Some 8] (fun _ => 7)) =
    Done (Exits 0 (Some h)) /\ hist_len (HistogramOps := Samples.samples_ops) h = 1.
Proof.
  apply (ping_pong_main_reports (FL := checkout_laws) (HL := Samples.samples_laws) Some Samples.env
    (PingPong.mkConfig (bs "127.0.0.1:4222") 8 1 1)
    (PingPongMain.mkOutside true true (fun _ => true) (fun _ => true) [Some 3; Some 5; Some 8] (fun _ => 7))
    [[Some 3; Some 5]] [[Some 8]]); try done; try by vm_compute.
  repeat constructor; (eexists; split; [reflexivity|done]).
Defined.
