(* ===== verification/TrieBench.v ===== *)
(** The criterion benchmark of the subscription trie
    ([aulon-core/benches/trie.rs]): the trie it builds and what each of its
    five measurements matches. *)
From Stdlib Require Import ZArith Lia Strings.Byte.
From stdpp Require Import base gmap list strings.
From S2P Require Import Prelude Subject Trie Emit.

Definition TOTAL : Z := 10000.
Definition EXACT_COUNT : Z := 7000.
Definition STAR_COUNT : Z := 2500.

(** [for i in 0..n { t.subscribe(subject(i), Sub { conn_id: first + i, .. }).expect(..) }]. *)
Fixpoint subscribe_range (subject : Z -> bytes) (first : Z) (n : nat) (i : Z) (t : SubscriptionTrie) : run SubscriptionTrie :=
  match n with
  | O => Done t
  | S n =>
      r ← subscribe t (subject i) (mkSub (ConnectionId.new (first + i)) (bs "1") None);
      match r.2 with
      | Ok _ => subscribe_range subject first n (i + 1) r.1
      | Err _ => Panic
      end
  end.

Definition exact_subject (i : Z) : bytes := bs "app." ++ decimal (i mod 10) ++ bs ".svc." ++ decimal i.
Definition star_subject (i : Z) : bytes := bs "app." ++ decimal (i mod 25) ++ bs ".metric.*".
Definition greater_subject (i : Z) : bytes := bs "tenant." ++ decimal (i mod 50) ++ bs ".>".

Definition build_trie : run SubscriptionTrie :=
  t ← subscribe_range exact_subject 0 (Z.to_nat EXACT_COUNT) 0 Trie.new;
  t ← subscribe_range star_subject EXACT_COUNT (Z.to_nat STAR_COUNT) 0 t;
  greater_count ← (TOTAL - EXACT_COUNT -! STAR_COUNT)%usize;
  subscribe_range greater_subject (EXACT_COUNT + STAR_COUNT) (Z.to_nat greater_count) 0 t.

(** One iteration of a measurement: the matches counted. *)
Definition count_matches (t : SubscriptionTrie) (subject : bytes) : result Z SubjectError.t :=
  for_each_match (fun count _ => count + 1) t subject 0.

Definition bench_match : run (list (result Z SubjectError.t)) :=
  trie ← build_trie;
  _ ← assert_ (total_subscriptions trie =? TOTAL);
  Done (count_matches trie <$>
    [bs "app.0"; bs "app.0.metric.cpu"; bs "app.0.svc.42"; bs "tenant.0.foo.bar.baz"; bs "tenant.0.a.b.c.d.e"]).

(** What the trie benchmark measures: the trie has 10,000 subscriptions,
    and the five measurements match 0, 100, 0, 10 and 10 of them.  The third,
    meant to hit an exact subscription, hits none: subscription 42 is
    [app.2.svc.42], which does match once. *)
Theorem trie_bench_matches :
  bench_match = Done [Ok 0; Ok 100; Ok 0; Ok 10; Ok 10] /\
  exact_subject 42 = bs "app.2.svc.42" /\
  (trie ← build_trie; Done (count_matches trie (exact_subject 42))) = Done (Ok 1).
Proof. split_and!; vm_compute; reflexivity. Qed.
