(* ===== verification/MicroBench.v ===== *)
(** The criterion benchmarks of the parser ([aulon-proto/benches/parse.rs]) and
    of the buffer pool ([aulon-core/benches/buffer_pool.rs]): what one iteration
    of each measurement does. *)
From Stdlib Require Import ZArith Lia Strings.Byte.
From stdpp Require Import base gmap list strings.
From S2P Require Import Prelude Wire Parse Emit Codec Worker Pool.

(* ------------------------------------------------------------------ *)
(** * Parsing *)

Definition xs (payload_len : nat) : bytes := replicate payload_len x78.
Definition build_pub (payload_len : nat) : bytes :=
  bs "PUB foo " ++ decimal (Z.of_nat payload_len) ++ CRLF ++ xs payload_len ++ CRLF.
Definition build_msg (payload_len : nat) : bytes :=
  bs "MSG foo 7 " ++ decimal (Z.of_nat payload_len) ++ CRLF ++ xs payload_len ++ CRLF.

(** The ten measurements, in order. *)
Definition bench_inputs : list bytes :=
  [bs "PING" ++ CRLF; bs "SUB foo.bar 7" ++ CRLF; bs "SUB foo.bar workers 7" ++ CRLF; bs "UNSUB 7 12" ++ CRLF] ++
  (build_pub <$> [16; 256; 4096]%nat) ++ (build_msg <$> [16; 256; 4096]%nat).
Definition bench_parse : list (run ParseOutcome.t) := parse_frame <$> bench_inputs.

(** What the parser reads in each. *)
Definition bench_frames : list Frame.t :=
  [Frame.Ping; Frame.Sub (bs "foo.bar") None (bs "7"); Frame.Sub (bs "foo.bar") (Some (bs "workers")) (bs "7");
   Frame.Unsub (bs "7") (Some 12)] ++
  ((fun n => Frame.Pub (bs "foo") None (xs n)) <$> [16; 256; 4096]%nat) ++
  ((fun n => Frame.Msg (bs "foo") (bs "7") None (xs n)) <$> [16; 256; 4096]%nat).

Lemma len_xs n : len (xs n) = Z.of_nat n.
Proof. unfold len, xs. by rewrite length_replicate. Qed.
Lemma build_pub_encode n : build_pub n = encode (Frame.Pub (bs "foo") None (xs n)).
Proof. unfold build_pub. cbn [encode opt_text]. by rewrite len_xs. Qed.
Lemma build_msg_encode n : build_msg n = encode (Frame.Msg (bs "foo") (bs "7") None (xs n)).
Proof. unfold build_msg. cbn [encode opt_text]. by rewrite len_xs. Qed.

(** The parser benchmark measures the successful parse of one whole frame: every
    input, and a [PUB] or [MSG] built for any payload length, is the frame it is
    named after and is consumed to its last byte. *)
Theorem parse_bench_inputs_are_frames :
  bench_parse = zip_with (fun f b => Done (ParseOutcome.Frame f (len b))) bench_frames bench_inputs /\
  (forall n, slice_ok (build_pub n) -> parse_frame (build_pub n) =
    Done (ParseOutcome.Frame (Frame.Pub (bs "foo") None (xs n)) (len (build_pub n)))) /\
  (forall n, slice_ok (build_msg n) -> parse_frame (build_msg n) =
    Done (ParseOutcome.Frame (Frame.Msg (bs "foo") (bs "7") None (xs n)) (len (build_msg n)))).
Proof.
  assert (field (bs "foo") /\ field (bs "7")) as [Hf H7].
  { by destruct (parse_frame_inv (bs "SUB foo 7" ++ CRLF) (Frame.Sub (bs "foo") None (bs "7")) 11 ltac:(done)
      ltac:(by vm_compute)) as ((? & _ & ?) & _). }
  split_and!; [by vm_compute|..]; intros n; rewrite ?build_pub_encode, ?build_msg_encode; intros Hok.
  - assert (slice_ok (xs n)) as Hx by (unfold slice_ok in *; cbn [encode] in Hok; lens).
    pose proof (parse_encode [] (Frame.Pub (bs "foo") None (xs n)) ltac:(done) Hok) as E. cbv beta zeta in E. by rewrite app_nil_r in E.
  - assert (slice_ok (xs n)) as Hx by (unfold slice_ok in *; cbn [encode] in Hok; lens).
    pose proof (parse_encode [] (Frame.Msg (bs "foo") (bs "7") None (xs n)) ltac:(done) Hok) as E. cbv beta zeta in E. by rewrite app_nil_r in E.
Qed.

(* ------------------------------------------------------------------ *)
(** * Acquiring and dropping a buffer *)

Section PoolBench.
Context {F : FixedBufPool} {FL : FixedBufPoolLaws F}.

(** [let buf = pool.acquire().expect("pool not exhausted"); black_box(&buf);],
    after which [buf] is dropped. *)
Definition acquire_drop (pool : BufferPool) : run BufferPool :=
  match acquire pool with
  | Some (buf, pool') => mret (release pool' buf)
  | None => Panic
  end.
Fixpoint iterate (iterations : nat) (pool : BufferPool) : run BufferPool :=
  match iterations with
  | O => mret pool
  | S n => pool' ← acquire_drop pool; iterate n pool'
  end.

(** The pool benchmark never runs dry: in a pool with at least one buffer every
    number of iterations succeeds and leaves the free buffers as they were, so
    that both pools of the benchmark can be measured for as long as criterion
    likes. *)
Theorem pool_bench_never_exhausted capacity buffer_size iterations :
  1 <= capacity -> 0 <= buffer_size ->
  exists pool', iterate iterations (Pool.new capacity buffer_size) = Done pool' /\
    free (inner pool') = free (inner (Pool.new (F := F) capacity buffer_size)).
Proof.
  intros Hc Hb. set (p0 := Pool.new capacity buffer_size).
  assert (forall p, free (inner p) = free (inner p0) -> Pool.buffer_size p = buffer_size ->
    exists p', iterate iterations p = Done p' /\ free (inner p') = free (inner p0)) as Hrun; [|by apply Hrun].
  assert (forall i b, free (inner p0) !! i = Some b -> len b = buffer_size) as Hlen.
  { intros i b. unfold p0, Pool.new. cbn. rewrite free_pool_of.
    intros (_ & [-> _]%lookup_replicate)%lookup_map_seq_Some. by apply len_zeroed. }
  assert (free (inner p0) <> ∅) as Hne.
  { unfold p0, Pool.new. cbn. rewrite free_pool_of. intros E. apply (f_equal (fun m => m !! 0%nat)) in E.
    rewrite lookup_map_seq_0, lookup_empty, lookup_replicate_2 in E by lia. done. }
  induction iterations as [|n IH]; intros p Hf Hs; [by exists p|]. cbn. unfold acquire_drop.
  destruct (acquire p) as [[[i b] p1]|] eqn:E.
  - apply acquire_Some in E as (Hi & _ & Hf1 & Hs1). apply IH; cbn; [|congruence].
    by rewrite free_give_back, Hf1, insert_delete_id.
  - apply acquire_None in E; [by rewrite Hf in E|]. rewrite Hf, Hs. exact Hlen.
Qed.
End PoolBench.

Lemma pool_bench_never_exhausted_witness iterations :
  (exists pool', iterate (F := checkout) iterations (Pool.new 256 4096) = Done pool') /\
  (exists pool', iterate (F := checkout) iterations (Pool.new 64 256) = Done pool').
Proof.
  split.
  - destruct (pool_bench_never_exhausted (F := checkout) (FL := checkout_laws) 256 4096 iterations) as (p & E & _);
      [done..|by exists p].
  - destruct (pool_bench_never_exhausted (F := checkout) (FL := checkout_laws) 64 256 iterations) as (p & E & _);
      [done..|by exists p].
Defined.
