(* ===== verification/Connection.v ===== *)
(** The typestate connection ([aulon-core/src/connection.rs]): a stream with
    the registered buffer it rents out to each read and write while [Active],
    and hands back on the way to [Closing].

    The stream and the buffers of [tokio_uring] are the class [FixedIo]; its
    operations return the state of the stream after the completion, the result
    and the buffer. *)
From Stdlib Require Import ZArith Lia Strings.Byte.
From stdpp Require Import base list.
From S2P Require Import Prelude.

Class FixedIo : Type := {
  TcpStream : Type;
  FixedBuf : Type;
  io_error : Type;
  buf_index : FixedBuf -> nat;
  bytes_total : FixedBuf -> Z;
  (** The first [n] bytes of the buffer are written. *)
  write_fixed_all : TcpStream -> FixedBuf -> Z -> TcpStream * result unit io_error * FixedBuf;
  read_fixed : TcpStream -> FixedBuf -> TcpStream * result Z io_error * FixedBuf;
}.

(** The buffer that comes back is the one that was lent, whatever the result,
    and a read fits it. *)
Class FixedIoLaws (F : FixedIo) : Prop := {
  read_fixed_buf s b s' r b' : read_fixed s b = (s', r, b') ->
    buf_index b' = buf_index b /\ bytes_total b' = bytes_total b /\
    (forall n, r = Ok n -> 0 <= n <= bytes_total b);
  write_fixed_buf s b n s' r b' : write_fixed_all s b n = (s', r, b') ->
    buf_index b' = buf_index b /\ bytes_total b' = bytes_total b;
}.

(** The lifecycle states. *)
Inductive State : Type := Active | Closing.

Module ReadOutcome.
Inductive t : Type :=
| Bytes (n : Z)
| PeerClosed.
End ReadOutcome.

Section Connection.
Context {F : FixedIo}.

Record Connection (S : State) : Type := mkConnection {
  stream : TcpStream;
  buffer : option FixedBuf;
}.
Arguments mkConnection {S} stream buffer.
Arguments stream {S} _.
Arguments buffer {S} _.

Definition new (stream : TcpStream) (buffer : FixedBuf) : Connection Active :=
  mkConnection stream (Some buffer).

Definition read (self : Connection Active) :
    run (Connection Active * result ReadOutcome.t io_error) :=
  buf ← expect (buffer self);
  let '(stream', result, returned) := read_fixed (stream self) buf in
  let self := mkConnection stream' (Some returned) in
  match result with
  | Ok n => if n =? 0 then Done (self, Ok ReadOutcome.PeerClosed) else Done (self, Ok (ReadOutcome.Bytes n))
  | Err e => Done (self, Err e)
  end.

(** [buf.slice(..len)] panics beyond the end of the buffer. *)
Definition write_all (self : Connection Active) (len : Z) : run (Connection Active * result unit io_error) :=
  buf ← expect (buffer self);
  _ ← assert_ (len <=? bytes_total buf);
  let '(stream', result, slice) := write_fixed_all (stream self) buf len in
  Done (mkConnection stream' (Some slice), result).

Definition shutdown (self : Connection Active) : run (Connection Closing * FixedBuf) :=
  buffer ← expect (buffer self);
  Done (mkConnection (stream self) None, buffer).

(** What a user of an active connection may do with it. *)
Inductive io : Type := Read | WriteAll (len : Z).

Definition run_io (self : Connection Active) (op : io) : run (Connection Active) :=
  match op with
  | Read => r ← read self; Done r.1
  | WriteAll len => r ← write_all self len; Done r.1
  end.
Fixpoint run_ios (self : Connection Active) (ops : list io) : run (Connection Active) :=
  match ops with
  | [] => Done self
  | op :: ops => self ← run_io self op; run_ios self ops
  end.

Context {FL : FixedIoLaws F}.

(** The connection holds the buffer it was given. *)
Definition rents (self : Connection Active) (i : nat) (total : Z) : Prop :=
  exists buf, buffer self = Some buf /\ buf_index buf = i /\ bytes_total buf = total.

Lemma read_rents self i total :
  rents self i total -> exists self' r, read self = Done (self', r) /\ rents self' i total /\
    match r with
    | Ok (ReadOutcome.Bytes n) => 0 < n <= total
    | Ok ReadOutcome.PeerClosed | Err _ => True
    end.
Proof.
  intros (buf & Hb & <- & <-). unfold read. rewrite Hb. cbn.
  destruct (read_fixed (stream self) buf) as [[s' r] b'] eqn:E.
  destruct (read_fixed_buf _ _ _ _ _ E) as (Hi & Ht & Hn).
  destruct r as [n|e]; [|by eexists _, _; split_and!; [|exists b'|]].
  specialize (Hn n eq_refl). destruct (Z.eqb_spec n 0); eexists _, _; (split_and!; [done|by exists b'|by cbn; try lia]).
Qed.
Lemma write_rents self i total len :
  rents self i total -> len <= total -> exists self' r, write_all self len = Done (self', r) /\ rents self' i total.
Proof.
  intros (buf & Hb & <- & <-) Hl. unfold write_all. rewrite Hb. cbn. zb. cbn.
  destruct (write_fixed_all (stream self) buf len) as [[s' r] b'] eqn:E.
  destruct (write_fixed_buf _ _ _ _ _ _ E) as (Hi & Ht). eexists _, _. split; [done|]. by exists b'.
Qed.

(** Whether an operation stays within a buffer of [total] bytes. *)
Definition fits (total : Z) (op : io) : Prop :=
  match op with Read => True | WriteAll len => len <= total end.

Lemma run_ios_rents ops self i total :
  rents self i total -> Forall (fits total) ops ->
  exists self', run_ios self ops = Done self' /\ rents self' i total.
Proof.
  intros Hr Hops. revert self Hr. induction Hops as [|op ops Hop _ IH]; intros self Hr; [by exists self|].
  cbn [run_ios]. destruct op as [|len]; cbn [run_io].
  - destruct (read_rents self i total Hr) as (self' & r & -> & Hr' & _). by apply IH.
  - destruct (write_rents self i total len Hr Hop) as (self' & r & -> & Hr'). by apply IH.
Qed.

(** C34.  The buffer of a connection is never lost: whatever reads and writes
    are made and however they end, an [Active] connection holds its buffer
    between calls, so none of its operations panics, and [shutdown] hands the
    caller the very buffer the connection was made with, leaving none in the
    [Closing] connection. *)
Theorem connection_returns_its_buffer s buf ops :
  Forall (fits (bytes_total buf)) ops ->
  exists self, run_ios (new s buf) ops = Done self /\
    (exists self' r, read self = Done (self', r)) /\
    exists closing buf', shutdown self = Done (closing, buf') /\ buffer closing = None /\
      stream closing = stream self /\ buf_index buf' = buf_index buf /\ bytes_total buf' = bytes_total buf.
Proof.
  intros Hops. destruct (run_ios_rents ops (new s buf) (buf_index buf) (bytes_total buf)) as (self & E & Hr);
    [by exists buf|done|]. exists self. split_and!; [done| |].
  - destruct (read_rents _ _ _ Hr) as (self' & r & -> & _). eauto.
  - destruct Hr as (buf' & Hb & Hi & Ht). unfold shutdown. rewrite Hb. cbn. eexists _, _. split; [done|]. done.
Qed.
End Connection.

(** A peer that sends so many bytes, one per read, and takes everything. *)
#[local] Instance one_byte : FixedIo := {|
  TcpStream := nat;
  FixedBuf := nat * positive;
  io_error := unit;
  buf_index := fst;
  bytes_total := fun b => Z.pos b.2;
  write_fixed_all := fun s b n => (s, Ok tt, b);
  read_fixed := fun s b => match s with O => (O, Ok 0, b) | S s => (s, Ok 1, b) end;
|}.
Lemma one_byte_laws : FixedIoLaws one_byte.
Proof.
  constructor; cbn.
  - intros [|s] b s' r b'; intros [= <- <- <-]; split_and!; [done..| |done|done|]; intros n [= <-]; lia.
  - by intros s b n s' r b' [= <- <- <-].
Defined.

Lemma connection_returns_its_buffer_witness :
  exists self, run_ios (F := one_byte) (new 1%nat (7%nat, 64%positive)) [Read; WriteAll 64; Read] = Done self /\
    (exists self' r, read self = Done (self', r)) /\
    exists closing buf', shutdown self = Done (closing, buf') /\ buffer _ closing = None /\
      stream _ closing = stream _ self /\ buf'.1 = 7%nat /\ Z.pos buf'.2 = 64.
Proof.
  apply (connection_returns_its_buffer (FL := one_byte_laws) 1%nat (7%nat, 64%positive) [Read; WriteAll 64; Read]).
  repeat constructor. done.
Defined.
