(* ===== verification/UnitTests.v ===== *)
(** The unit tests of the repository (the [mod tests] of each source file),
    translated and run on the model: every assertion that holds of the program
    holds of the definitions that stand for it.

    A test is a computation: a failed [assert!], [unwrap] or [expect] is a
    [Panic].  The tests of [eventfd.rs] and [buffer_pool.rs] exercise code
    outside the repository; they pass for every kernel and every buffer pool
    with the documented laws. *)
From Stdlib Require Import ZArith Lia Strings.Byte.
From stdpp Require Import base gmap list strings.
From S2P Require Import Prelude Wire Parse Emit Subject Trie ConnState ShardInbox EventFd Topology Worker Session Pool.

Definition assert_eq {A} `{EqDecision A} (a b : A) : run unit := assert_ (bool_decide (a = b)).
Definition unwrap {A E} (r : result A E) : run A := match r with Ok a => Done a | Err _ => Panic end.
Definition all (tests : list (run unit)) : run unit := foldr (fun t k => _ ← t; k) (Done tt) tests.

(** A JSON member of one field. *)
Definition quoted (s : bytes) : bytes := [x22] ++ s ++ [x22].
Definition json (key value : bytes) : bytes := bs "{" ++ quoted key ++ bs ":" ++ value ++ bs "}".
Definition line (s : bytes) : bytes := s ++ CRLF.

(* ------------------------------------------------------------------ *)
(** * parse.rs *)

Module ParseTests.
Definition parse_complete (input : bytes) : run Frame.t :=
  o ← parse_frame input;
  match o with
  | ParseOutcome.Frame frame consumed => _ ← assert_eq consumed (len input); Done frame
  | _ => Panic
  end.
Definition parses_to (input : bytes) (f : Frame.t) : run unit := g ← parse_complete input; assert_eq g f.
Definition outcome_is (input : bytes) (o : ParseOutcome.t) : run unit := p ← parse_frame input; assert_eq p o.

Definition ping_pong_ok : run unit := all
  [parses_to (line (bs "PING")) Frame.Ping; parses_to (line (bs "PONG")) Frame.Pong;
   parses_to (line (bs "+OK")) Frame.Ok].
Definition err_carries_message : run unit :=
  parses_to (line (bs "-ERR slow consumer")) (Frame.Err (bs "slow consumer")).
Definition connect_carries_options_bytes : run unit :=
  f ← parse_complete (line (bs "CONNECT " ++ json (bs "verbose") (bs "false")));
  match f with Frame.Connect options => assert_eq options (json (bs "verbose") (bs "false")) | _ => Panic end.
Definition info_carries_options_bytes : run unit :=
  f ← parse_complete (line (bs "INFO " ++ json (bs "server_id") (quoted (bs "x"))));
  match f with Frame.Info options => assert_eq options (json (bs "server_id") (quoted (bs "x"))) | _ => Panic end.
Definition sub_without_queue : run unit :=
  parses_to (line (bs "SUB foo.bar 7")) (Frame.Sub (bs "foo.bar") None (bs "7")).
Definition sub_with_queue : run unit :=
  parses_to (line (bs "SUB foo.bar workers 7")) (Frame.Sub (bs "foo.bar") (Some (bs "workers")) (bs "7")).
Definition unsub_without_max_msgs : run unit := parses_to (line (bs "UNSUB 7")) (Frame.Unsub (bs "7") None).
Definition unsub_with_max_msgs : run unit := parses_to (line (bs "UNSUB 7 12")) (Frame.Unsub (bs "7") (Some 12)).
Definition pub_without_reply : run unit :=
  parses_to (line (bs "PUB foo 5") ++ line (bs "hello")) (Frame.Pub (bs "foo") None (bs "hello")).
Definition pub_with_reply : run unit :=
  parses_to (line (bs "PUB foo INBOX.42 5") ++ line (bs "hello"))
    (Frame.Pub (bs "foo") (Some (bs "INBOX.42")) (bs "hello")).
Definition msg_without_reply : run unit :=
  parses_to (line (bs "MSG foo 7 5") ++ line (bs "hello")) (Frame.Msg (bs "foo") (bs "7") None (bs "hello")).
Definition msg_with_reply : run unit :=
  parses_to (line (bs "MSG foo 7 INBOX.42 5") ++ line (bs "hello"))
    (Frame.Msg (bs "foo") (bs "7") (Some (bs "INBOX.42")) (bs "hello")).
Definition empty_payload_is_legal : run unit :=
  parses_to (line (bs "PUB foo 0") ++ CRLF) (Frame.Pub (bs "foo") None []).
Definition need_more_when_header_truncated : run unit := all
  [outcome_is (bs "PIN") ParseOutcome.NeedMore; outcome_is (line (bs "PUB foo 5") ++ bs "hel") ParseOutcome.NeedMore;
   outcome_is (line (bs "PUB foo 5") ++ bs "hello") ParseOutcome.NeedMore].
Definition unknown_verb_fails : run unit :=
  outcome_is (line (bs "WAT")) (ParseOutcome.Err ParseError.UnknownVerb).
Definition missing_trailing_crlf_after_full_payload : run unit :=
  outcome_is (line (bs "PUB foo 5") ++ bs "helloXY") (ParseOutcome.Err ParseError.MissingTrailingCrlf).
Definition ping_with_extra_bytes_is_bad_header : run unit :=
  outcome_is (line (bs "PING junk")) (ParseOutcome.Err ParseError.BadHeader).
Definition parses_back_to_back_frames : run unit :=
  let buf := line (bs "PING") ++ line (bs "PONG") in
  o ← parse_frame buf;
  match o with
  | ParseOutcome.Frame frame consumed =>
      _ ← assert_eq frame Frame.Ping;
      _ ← assert_eq consumed 6;
      rest ← slice_from buf consumed;
      o ← parse_frame rest;
      match o with
      | ParseOutcome.Frame frame consumed => _ ← assert_eq frame Frame.Pong; assert_eq consumed 6
      | _ => Panic
      end
  | _ => Panic
  end.
Definition invalid_payload_length_rejected : run unit :=
  outcome_is (line (bs "PUB foo abc")) (ParseOutcome.Err ParseError.PayloadLengthInvalid).
Definition invalid_max_msgs_rejected : run unit :=
  outcome_is (line (bs "UNSUB 7 abc")) (ParseOutcome.Err ParseError.MaxMsgsInvalid).

Definition suite : list (run unit) :=
  [ping_pong_ok; err_carries_message; connect_carries_options_bytes; info_carries_options_bytes; sub_without_queue;
   sub_with_queue; unsub_without_max_msgs; unsub_with_max_msgs; pub_without_reply; pub_with_reply; msg_without_reply;
   msg_with_reply; empty_payload_is_legal; need_more_when_header_truncated; unknown_verb_fails;
   missing_trailing_crlf_after_full_payload; ping_with_extra_bytes_is_bad_header; parses_back_to_back_frames;
   invalid_payload_length_rejected; invalid_max_msgs_rejected].
End ParseTests.

(* ------------------------------------------------------------------ *)
(** * emit.rs *)

Module EmitTests.
Definition round_trip (frame : Frame.t) : run unit :=
  e ← emit_frame frame (zeroed 8192);
  n ← unwrap e.2;
  text ← slice_to e.1 n;
  o ← parse_frame text;
  match o with
  | ParseOutcome.Frame parsed consumed => _ ← assert_eq consumed n; assert_eq parsed frame
  | _ => Panic
  end.

Definition round_trip_ping_pong_ok : run unit := all
  [round_trip Frame.Ping; round_trip Frame.Pong; round_trip Frame.Ok].
Definition round_trip_err : run unit := round_trip (Frame.Err (bs "slow consumer")).
Definition round_trip_connect_info : run unit := all
  [round_trip (Frame.Connect (json (bs "verbose") (bs "false")));
   round_trip (Frame.Info (json (bs "server_id") (quoted (bs "x"))))].
Definition round_trip_sub_with_and_without_queue : run unit := all
  [round_trip (Frame.Sub (bs "foo.bar") None (bs "7"));
   round_trip (Frame.Sub (bs "foo.bar") (Some (bs "workers")) (bs "7"))].
Definition round_trip_unsub : run unit := all
  [round_trip (Frame.Unsub (bs "7") None); round_trip (Frame.Unsub (bs "7") (Some 12))].
Definition round_trip_pub : run unit := all
  [round_trip (Frame.Pub (bs "foo") None (bs "hello"));
   round_trip (Frame.Pub (bs "foo") (Some (bs "INBOX.42")) (bs "hello"));
   round_trip (Frame.Pub (bs "foo") None [])].
Definition round_trip_msg : run unit := all
  [round_trip (Frame.Msg (bs "foo") (bs "7") None (bs "hello"));
   round_trip (Frame.Msg (bs "foo") (bs "7") (Some (bs "INBOX.42")) (bs "hello"))].
Definition buffer_too_small_returns_error : run unit :=
  e ← emit_ping (zeroed 4);
  match e.2 with Err (EmitError.BufferTooSmall _ _) => Done tt | Ok _ => Panic end.
Definition writes_decimal (value : Z) (text : bytes) : run unit :=
  e ← write_decimal_u64 0 value (zeroed 32);
  n ← unwrap e.2;
  written ← slice_to e.1 n;
  assert_eq written text.
Definition decimal_writer_handles_zero_and_max : run unit := all
  [writes_decimal 0 (bs "0"); writes_decimal u64_max (bs "18446744073709551615")].

Definition suite : list (run unit) :=
  [round_trip_ping_pong_ok; round_trip_err; round_trip_connect_info; round_trip_sub_with_and_without_queue;
   round_trip_unsub; round_trip_pub; round_trip_msg; buffer_too_small_returns_error;
   decimal_writer_handles_zero_and_max].
End EmitTests.

(* ------------------------------------------------------------------ *)
(** * subscription.rs *)

Module TrieTests.
Definition sub (conn : Z) (sid : bytes) : Sub := mkSub (ConnectionId.new conn) sid None.
Definition sub_qg (conn : Z) (sid qg : bytes) : Sub := mkSub (ConnectionId.new conn) sid (Some qg).
Definition collect (t : SubscriptionTrie) (subject : bytes) : run (list Sub) :=
  unwrap (for_each_match (fun out s => out ++ [s]) t subject []).

(** [t.subscribe(..).unwrap()], and a trie with these subscriptions. *)
Definition subscribed (t : SubscriptionTrie) (subject : bytes) (s : Sub) : run SubscriptionTrie :=
  r ← Trie.subscribe t subject s; _ ← unwrap r.2; Done r.1.
Fixpoint with_subs (t : SubscriptionTrie) (l : list (bytes * Sub)) : run SubscriptionTrie :=
  match l with [] => Done t | (subject, s) :: l => t ← subscribed t subject s; with_subs t l end.
Definition trie_of (l : list (bytes * Sub)) : run SubscriptionTrie := with_subs Trie.new l.
(** [assert_eq!(collect(..).len(), n)]. *)
Definition finds (t : SubscriptionTrie) (subject : bytes) (n : Z) : run unit :=
  m ← collect t subject; assert_eq (len m) n.

Definition empty_trie_matches_nothing : run unit :=
  _ ← finds Trie.new (bs "foo") 0; assert_eq (total_subscriptions Trie.new) 0.
Definition exact_match_one_token : run unit :=
  t ← trie_of [(bs "foo", sub 1 (bs "7"))];
  m ← collect t (bs "foo");
  _ ← assert_eq (len m) 1;
  s ← index m 0;
  assert_eq (conn_id s) (ConnectionId.new 1).
Definition exact_match_multi_token : run unit :=
  t ← trie_of [(bs "foo.bar.baz", sub 1 (bs "7"))];
  all [finds t (bs "foo.bar.baz") 1; finds t (bs "foo.bar") 0; finds t (bs "foo.bar.baz.qux") 0].
Definition star_matches_one_token : run unit :=
  t ← trie_of [(bs "foo.*", sub 1 (bs "7"))];
  all [finds t (bs "foo.bar") 1; finds t (bs "foo.baz") 1; finds t (bs "foo") 0; finds t (bs "foo.bar.baz") 0].
Definition star_in_middle : run unit :=
  t ← trie_of [(bs "foo.*.baz", sub 1 (bs "7"))];
  all [finds t (bs "foo.bar.baz") 1; finds t (bs "foo.qux.baz") 1; finds t (bs "foo.bar.qux") 0; finds t (bs "foo.bar") 0].
Definition greater_matches_remainder : run unit :=
  t ← trie_of [(bs "foo.>", sub 1 (bs "7"))];
  all [finds t (bs "foo.bar") 1; finds t (bs "foo.bar.baz") 1; finds t (bs "foo.bar.baz.qux") 1; finds t (bs "foo") 0].
Definition greater_at_root_matches_anything : run unit :=
  t ← trie_of [(bs ">", sub 1 (bs "7"))];
  all [finds t (bs "foo") 1; finds t (bs "foo.bar.baz") 1; finds t (bs "a.b.c.d.e.f.g") 1].
Definition star_alone_matches_one_token_only : run unit :=
  t ← trie_of [(bs "*", sub 1 (bs "7"))];
  all [finds t (bs "foo") 1; finds t (bs "bar") 1; finds t (bs "foo.bar") 0].
Definition literal_and_star_both_match_disjoint_subscribers : run unit :=
  t ← trie_of [(bs "foo.bar", sub 1 (bs "7")); (bs "foo.*", sub 2 (bs "8"))];
  m ← collect t (bs "foo.bar");
  let conns := (fun s => ConnectionId.get (conn_id s)) <$> m in
  all [assert_eq (len m) 2; assert_ (bool_decide (1 ∈ conns)); assert_ (bool_decide (2 ∈ conns))].
Definition star_does_not_double_match_with_literal : run unit :=
  t ← trie_of [(bs "foo.*", sub 1 (bs "7"))]; finds t (bs "foo.bar") 1.
Definition greater_and_star_compose : run unit :=
  t ← trie_of [(bs "foo.*.>", sub 1 (bs "7"))];
  all [finds t (bs "foo.bar") 0; finds t (bs "foo.bar.baz") 1; finds t (bs "foo.bar.baz.qux") 1].
Definition unsubscribe_specific : run unit :=
  t ← trie_of [(bs "foo.bar", sub 1 (bs "7")); (bs "foo.bar", sub 1 (bs "8")); (bs "foo.bar", sub 2 (bs "7"))];
  r ← Trie.unsubscribe t (bs "foo.bar") (ConnectionId.new 1) (bs "7");
  m ← collect r.1 (bs "foo.bar");
  all [assert_ r.2; assert_eq (len m) 2;
       assert_ (forallb (fun s => negb (bool_decide (conn_id s = ConnectionId.new 1) && bool_decide (sid s = bs "7"))) m);
       assert_eq (total_subscriptions r.1) 2].
(** Subscribing once and unsubscribing again. *)
Definition removed_again (subject : bytes) : run SubscriptionTrie :=
  t ← trie_of [(subject, sub 1 (bs "7"))];
  r ← Trie.unsubscribe t subject (ConnectionId.new 1) (bs "7");
  _ ← assert_ r.2;
  Done r.1.
Definition unsubscribe_prunes_empty_branches : run unit :=
  t ← removed_again (bs "foo.bar.baz");
  all [assert_ (node.is_empty (root t)); assert_eq (total_subscriptions t) 0].
Definition unsubscribe_does_not_prune_shared_branches : run unit :=
  t ← trie_of [(bs "foo.bar.baz", sub 1 (bs "7")); (bs "foo.bar.qux", sub 2 (bs "8"))];
  r ← Trie.unsubscribe t (bs "foo.bar.baz") (ConnectionId.new 1) (bs "7");
  all [assert_ r.2; finds r.1 (bs "foo.bar.qux") 1; assert_eq (total_subscriptions r.1) 1].
Definition unsubscribe_greater : run unit :=
  t ← removed_again (bs "foo.>"); all [finds t (bs "foo.bar") 0; assert_ (node.is_empty (root t))].
Definition unsubscribe_star : run unit :=
  t ← removed_again (bs "foo.*"); all [finds t (bs "foo.bar") 0; assert_ (node.is_empty (root t))].
Definition refuses_sub (subject : bytes) (e : SubjectError.t) : run unit :=
  r ← Trie.subscribe Trie.new subject (sub 1 (bs "7")); assert_eq r.2 (Err e).
Definition invalid_subscriber_subjects_rejected : run unit := all
  [refuses_sub [] SubjectError.Empty; refuses_sub (bs ".foo") SubjectError.EmptyToken;
   refuses_sub (bs "foo.") SubjectError.EmptyToken; refuses_sub (bs "foo..bar") SubjectError.EmptyToken;
   refuses_sub (bs "foo.>.bar") SubjectError.InvalidGreaterPosition].
Definition refuses_pub (subject : bytes) (e : SubjectError.t) : run unit :=
  assert_eq (for_each_match (fun (u : unit) _ => u) Trie.new subject tt) (Err e).
Definition invalid_publisher_subjects_rejected : run unit := all
  [refuses_pub [] SubjectError.Empty; refuses_pub (bs "foo..bar") SubjectError.EmptyToken;
   refuses_pub (bs "foo.*") SubjectError.WildcardInPublish; refuses_pub (bs "foo.>") SubjectError.WildcardInPublish].
Definition star_and_greater_only_when_token_is_exactly_them : run unit :=
  t ← trie_of [(bs "f*", sub 1 (bs "7"))];
  _ ← finds t (bs "foo") 0;
  _ ← finds t (bs "f*") 1;
  t ← subscribed t (bs "f>") (sub 2 (bs "8"));
  finds t (bs "f>") 1.
Definition queue_group_is_carried_through_to_callback : run unit :=
  t ← trie_of [(bs "foo", sub_qg 1 (bs "7") (bs "workers")); (bs "foo", sub 2 (bs "8"))];
  grouped ← unwrap (for_each_match (fun l s => l ++ [queue_group s]) t (bs "foo") []);
  all [assert_eq (len grouped) 2; assert_ (bool_decide (Some (bs "workers") ∈ grouped));
       assert_ (bool_decide (None ∈ grouped))].
Definition many_subscribers_overflow_inline_smallvec : run unit :=
  t ← trie_of ((fun i => (bs "foo.bar", sub (Z.of_nat i) (bs "7"))) <$> List.seq 0 32);
  _ ← finds t (bs "foo.bar") 32;
  assert_eq (total_subscriptions t) 32.

Definition suite : list (run unit) :=
  [empty_trie_matches_nothing; exact_match_one_token; exact_match_multi_token; star_matches_one_token; star_in_middle;
   greater_matches_remainder; greater_at_root_matches_anything; star_alone_matches_one_token_only;
   literal_and_star_both_match_disjoint_subscribers; star_does_not_double_match_with_literal; greater_and_star_compose;
   unsubscribe_specific; unsubscribe_prunes_empty_branches; unsubscribe_does_not_prune_shared_branches;
   unsubscribe_greater; unsubscribe_star; invalid_subscriber_subjects_rejected; invalid_publisher_subjects_rejected;
   star_and_greater_only_when_token_is_exactly_them; queue_group_is_carried_through_to_callback;
   many_subscribers_overflow_inline_smallvec].
End TrieTests.

(* ------------------------------------------------------------------ *)
(** * connection_state.rs *)

Module ConnTests.
Section ConnTests.
Context `{N : Notify}.
Definition cs (cap : Z) : ConnectionState N := ConnState.new (ConnectionId.new 1) cap.
(** [assert_eq!(s.enqueue(b), o)] and [assert_eq!(s.pending_bytes(), n)]. *)
Definition enqueues (s : ConnectionState N) (b : bytes) (o : EnqueueOutcome.t) : run (ConnectionState N) :=
  r ← enqueue s b; _ ← assert_eq r.2 o; Done r.1.
Definition has_pending (s : ConnectionState N) (n : Z) : run unit := p ← pending_bytes s; assert_eq p n.
(** A drain into [dst] that yields exactly [b]. *)
Definition drains (s : ConnectionState N) (dst b : bytes) : run (ConnectionState N) :=
  '(s', dst', n) ← drain_into s dst;
  _ ← assert_eq n (len b);
  out ← slice_to dst' n;
  _ ← assert_eq out b;
  Done s'.

Definition fresh_state_is_empty : run unit :=
  all [has_pending (cs 64) 0; assert_eq (outbound_capacity (cs 64)) 64;
       assert_ (bool_decide (close_reason (cs 64) = None))].
Definition enqueue_then_drain_round_trips_bytes : run unit :=
  s ← enqueues (cs 64) (bs "hello") EnqueueOutcome.Ok;
  _ ← has_pending s 5;
  s ← drains s (zeroed 16) (bs "hello");
  has_pending s 0.
Definition drain_resets_cursors_to_zero_on_full_drain : run unit :=
  '(s, _) ← enqueue (cs 8) (bs "abcd");
  '(s, buf, _) ← drain_into s (zeroed 8);
  s ← enqueues s (bs "12345678") EnqueueOutcome.Ok;
  _ ← drains s buf (bs "12345678");
  Done tt.
Definition partial_drain_keeps_remainder : run unit :=
  '(s, _) ← enqueue (cs 64) (bs "abcdefgh");
  s ← drains s (zeroed 4) (bs "abcd");
  _ ← has_pending s 4;
  s ← drains s (bs "abcd") (bs "efgh");
  has_pending s 0.
Definition enqueue_overflow_marks_slow_consumer : run unit :=
  s ← enqueues (cs 8) (bs "abcd") EnqueueOutcome.Ok;
  s ← enqueues s (bs "efghij") EnqueueOutcome.SlowConsumerClosed;
  _ ← assert_eq (close_reason s) (Some CloseReason.SlowConsumer);
  _ ← enqueues s (bs "more") EnqueueOutcome.AlreadyClosing;
  Done tt.
Definition mark_close_is_idempotent : run unit :=
  let s := mark_close (mark_close (cs 8) CloseReason.ProtocolError) CloseReason.SlowConsumer in
  assert_eq (close_reason s) (Some CloseReason.ProtocolError).
Definition close_reason_text_is_stable : run unit := all
  [assert_eq (CloseReason.err_text CloseReason.SlowConsumer) (Some (bs "slow consumer"));
   assert_eq (CloseReason.err_text CloseReason.ProtocolError) (Some (bs "protocol error"));
   assert_eq (CloseReason.err_text CloseReason.PeerClosed) None].

Definition suite : list (run unit) :=
  [fresh_state_is_empty; enqueue_then_drain_round_trips_bytes; drain_resets_cursors_to_zero_on_full_drain;
   partial_drain_keeps_remainder; enqueue_overflow_marks_slow_consumer; mark_close_is_idempotent;
   close_reason_text_is_stable].
End ConnTests.
End ConnTests.

(* ------------------------------------------------------------------ *)
(** * shard_inbox.rs *)

Module InboxTests.
(** [assert_eq!(q.pop(), o)] and a push with its expected result. *)
Definition pops {T} `{EqDecision T} (q : ShardInbox T) (o : option T) : run (ShardInbox T) :=
  r ← pop q; _ ← assert_eq r.2 o; Done r.1.
Definition pushes {T} `{EqDecision T} (q : ShardInbox T) (v : T) (ok : result bool T -> bool) : run (ShardInbox T) :=
  r ← push [] q v; _ ← assert_ (ok r.2); Done r.1.
Definition is_ok {A E} (r : result A E) : bool := match r with Ok _ => true | Err _ => false end.
Definition is_err {A E} (r : result A E) : bool := negb (is_ok r).
Definition was_empty {E} (b : bool) (r : result bool E) : bool :=
  match r with Ok b' => Bool.eqb b b' | Err _ => false end.

Definition has_capacity (requested cap : Z) : run unit :=
  q ← with_capacity (T := Z) requested; assert_eq (ShardInbox.capacity q) cap.
Definition capacity_rounds_up_to_power_of_two : run unit := all
  [has_capacity 1 2; has_capacity 3 4; has_capacity 64 64; has_capacity 65 128].
Definition push_pop_single_thread_fifo : run unit :=
  q ← with_capacity (T := Z) 4;
  q ← pushes q 0 is_ok; q ← pushes q 1 is_ok; q ← pushes q 2 is_ok; q ← pushes q 3 is_ok;
  q ← pushes q 99 (fun r => bool_decide (r = Err 99));
  q ← pops q (Some 0); q ← pops q (Some 1); q ← pops q (Some 2); q ← pops q (Some 3);
  q ← pops q None;
  e ← is_empty q;
  assert_ e.
Definition push_returns_was_empty_flag : run unit :=
  q ← with_capacity (T := Z) 4;
  q ← pushes q 1 (was_empty true);
  q ← pushes q 2 (was_empty false);
  q ← pops q (Some 1);
  q ← pushes q 3 (was_empty false);
  q ← pops q (Some 2);
  q ← pops q (Some 3);
  _ ← pushes q 4 (was_empty true);
  Done tt.
Definition full_then_drain_then_refill : run unit :=
  q ← with_capacity (T := Z) 2;
  q ← pushes q 1 is_ok;
  q ← pushes q 2 is_ok;
  q ← pushes q 3 is_err;
  q ← pops q (Some 1);
  q ← pushes q 3 is_ok;
  q ← pops q (Some 2);
  q ← pops q (Some 3);
  _ ← pops q None;
  Done tt.
(** [Arc::strong_count]: the handle of the test and the clones in the ring. *)
Definition strong_count {T} (q : ShardInbox T) : Z :=
  1 + len (filter (fun s => is_Some (val s)) (cells q)).
Definition drop_drains_remaining_elements : run unit :=
  let payload := mkPublished (bs "x") None (bs "y") in
  q ← with_capacity 4;
  r ← push [] q payload; _ ← unwrap r.2;
  r ← push [] r.1 payload; _ ← unwrap r.2;
  r ← push [] r.1 payload; _ ← unwrap r.2;
  _ ← assert_eq (strong_count r.1) 4;
  d ← drop_inbox 5 r.1;
  assert_eq (strong_count d.1) 1.

Definition suite : list (run unit) :=
  [capacity_rounds_up_to_power_of_two; push_pop_single_thread_fifo; push_returns_was_empty_flag;
   full_then_drain_then_refill; drop_drains_remaining_elements].
End InboxTests.

(* ------------------------------------------------------------------ *)
(** * topology.rs *)

Module TopologyTests.
Definition parse_cpu_list_simple : run unit := all
  [assert_eq (parse_cpu_list (bs "0")) [0]; assert_eq (parse_cpu_list (bs "0-3")) [0; 1; 2; 3];
   assert_eq (parse_cpu_list (bs "0-1,4,6-7")) [0; 1; 4; 6; 7]; assert_eq (parse_cpu_list []) []].
Definition parse_cpu_dir_recognises_only_cpu_n : run unit := all
  [assert_eq (parse_cpu_dir_name (bs "cpu0")) (Some 0); assert_eq (parse_cpu_dir_name (bs "cpu42")) (Some 42);
   assert_eq (parse_cpu_dir_name (bs "cpufreq")) None; assert_eq (parse_cpu_dir_name (bs "cpuidle")) None;
   assert_eq (parse_cpu_dir_name (bs "cpu")) None; assert_eq (parse_cpu_dir_name (bs "not_a_cpu")) None].
Definition detect_falls_back_to_single_when_root_missing : run unit :=
  match detect_in false None with None => Done tt | Some _ => Panic end.
Definition single_topology_has_one_shard_with_some_cpus (available_parallelism : option positive) : run unit :=
  let t := single available_parallelism in
  _ ← assert_eq (len (shards t)) 1;
  s ← index (shards t) 0;
  assert_ (negb (bool_decide (cpus s = []))).

(** The scratch directory the test fills. *)
Definition cache_index (idx level : bytes) (shared : option bytes) : option CacheEntry :=
  Some (mkCacheEntry (Some (bs "index" ++ idx)) (Some level) shared).
Definition cpu_entry (name l3_share : bytes) : option CpuEntry :=
  Some (mkCpuEntry (Some name) (Some [cache_index (bs "0") (bs "1") None; cache_index (bs "1") (bs "2") None;
    cache_index (bs "3") (bs "3") (Some l3_share)])).
Definition fixture : list (option CpuEntry) :=
  [cpu_entry (bs "cpu0") (bs "0-1"); cpu_entry (bs "cpu1") (bs "0-1"); cpu_entry (bs "cpu2") (bs "2-3");
   cpu_entry (bs "cpu3") (bs "2-3"); Some (mkCpuEntry (Some (bs "cpufreq")) None);
   Some (mkCpuEntry (Some (bs "cpuidle")) None)].
(** [entries] is the order in which the directory is listed. *)
Definition detect_in_groups_two_l3_domains (entries : list (option CpuEntry)) : run unit :=
  t ← expect (detect_in true (Some entries));
  s0 ← index (shards t) 0;
  s1 ← index (shards t) 1;
  all [assert_eq (len (shards t)) 2; assert_eq (cpus s0) [0; 1]; assert_eq (cpus s1) [2; 3];
       assert_eq (Topology.shard_id s0) 0; assert_eq (Topology.shard_id s1) 1].

Definition suite : list (run unit) :=
  [parse_cpu_list_simple; parse_cpu_dir_recognises_only_cpu_n; detect_falls_back_to_single_when_root_missing].
End TopologyTests.

(* ------------------------------------------------------------------ *)
(** * eventfd.rs and buffer_pool.rs *)

Module EventfdTests.
Section EventfdTests.
Context {K : Type} `{Kernel K}.
Definition pair_round_trips_a_wake (k : K) : run unit :=
  let '(k, r) := eventfd_pair k in
  '(reader, waker) ← unwrap r;
  let '(k, w) := wake waker k in
  _ ← unwrap w;
  let '(k, w) := wake waker k in
  _ ← unwrap w;
  let '(k, n) := sys_read (file reader) k in
  count ← unwrap n;
  assert_eq count 2.
Definition empty_eventfd_read_returns_eagain (k : K) : run unit :=
  let '(k, r) := eventfd_pair k in
  '(reader, _) ← unwrap r;
  let '(k, n) := sys_read (file reader) k in
  match n with Err _ => Done tt | Ok _ => Panic end.
Definition suite (k : K) : list (run unit) := [pair_round_trips_a_wake k; empty_eventfd_read_returns_eagain k].
End EventfdTests.
End EventfdTests.

Module PoolTests.
Section PoolTests.
Context {F : FixedBufPool}.
Definition capacity_and_buffer_size_are_recorded : run unit :=
  let pool := Pool.new 8 256 in
  all [assert_eq (Pool.capacity pool) 8; assert_eq (Pool.buffer_size pool) 256].
Definition acquire_before_registration_succeeds : run unit :=
  let pool := Pool.new 2 64 in
  '(a, pool) ← expect (acquire pool);
  '(b, pool) ← expect (acquire pool);
  _ ← match acquire pool with None => Done tt | Some _ => Panic end;
  let pool := release pool a in
  _ ← expect (acquire pool);
  Done tt.
Definition suite : list (run unit) := [capacity_and_buffer_size_are_recorded; acquire_before_registration_succeeds].
End PoolTests.
End PoolTests.

(* ------------------------------------------------------------------ *)
(** * They all pass *)

Definition passes (t : run unit) : Prop := t = Done tt.
Definition passed (t : run unit) : bool := match t with Done _ => true | Panic => false end.
Lemma passed_passes ts : forallb passed ts = true -> Forall passes ts.
Proof.
  rewrite forallb_forall. intros H. apply Forall_forall. intros t Ht. apply list_elem_of_In, H in Ht.
  by destruct t as [[]|].
Qed.

Lemma conn_tests_pass (N : Notify) : Forall passes (ConnTests.suite (N := N)).
Proof. apply passed_passes. by vm_compute. Qed.

Lemma detect_any_order entries :
  entries ≡ₚ TopologyTests.fixture -> passes (TopologyTests.detect_in_groups_two_l3_domains entries).
Proof.
  intros Hp. symmetry in Hp. apply permutations_Permutation in Hp.
  assert (Forall (fun l => passes (TopologyTests.detect_in_groups_two_l3_domains l)) (permutations TopologyTests.fixture)) as H.
  { apply (Forall_fmap TopologyTests.detect_in_groups_two_l3_domains passes), passed_passes. by vm_compute. }
  rewrite Forall_forall in H. by apply H.
Qed.

Lemma single_any p : passes (TopologyTests.single_topology_has_one_shard_with_some_cpus p).
Proof.
  unfold TopologyTests.single_topology_has_one_shard_with_some_cpus, single. cbn [shards].
  destruct (Pos.to_nat (default 1%positive p)) as [|n] eqn:E; [lia|]. done.
Qed.

Lemma eventfd_tests_pass {K} `{KernelLaws K} (k : K) :
  is_Some (match (eventfd_pair k).2 with Ok p => Some p | Err _ => None end) -> Forall passes (EventfdTests.suite k).
Proof.
  unfold EventfdTests.suite, EventfdTests.pair_round_trips_a_wake, EventfdTests.empty_eventfd_read_returns_eagain.
  pose proof (eventfd_pair_open k) as Ho. destruct (eventfd_pair k) as [k1 [[r w]|e]]; [|by intros [? ?]].
  intros _. destruct Ho as (o & Hr & Hw & Hc & _). cbn [unwrap]. rewrite !bind_ret.
  assert (passes (let '(_, n) := sys_read (file r) k1 in match n with Err _ => Done tt | Ok _ => Panic end)) as Hempty.
  { destruct (read_ok (file r) o k1 Hr) as (_ & _ & Hgot). rewrite Hc in Hgot. destruct Hgot as [e He].
    destruct (sys_read (file r) k1). cbn in He. by rewrite He. }
  destruct (wake_counts w o k1 Hw) as (Hd1 & Hc1 & Hok1). destruct (wake w k1) as [k2 r1]. cbn [fst snd] in *.
  rewrite Hc in Hc1, Hok1. rewrite (proj2 Hok1) by done. cbn [unwrap]. rewrite bind_ret.
  destruct (wake_counts w o k2) as (Hd2 & Hc2 & Hok2); [by rewrite Hd1|].
  destruct (wake w k2) as [k3 r2]. cbn [fst snd] in *. rewrite Hc1 in Hc2, Hok2. rewrite (proj2 Hok2) by done.
  cbn [unwrap]. rewrite bind_ret. destruct (read_ok (file r) o k3) as (_ & _ & Hgot); [by rewrite Hd2, Hd1|].
  rewrite Hc2 in Hgot. destruct (sys_read (file r) k3) as [k4 n]. cbn in Hgot. rewrite Hgot.
  by repeat constructor.
Qed.

Lemma pool_tests_pass (F : FixedBufPool) {FL : FixedBufPoolLaws F} : Forall passes (PoolTests.suite (F := F)).
Proof.
  constructor; [done|]. constructor; [|done]. unfold PoolTests.acquire_before_registration_succeeds.
  destruct (two_buffers (zeroed 64)) as (i & j & p1 & p2 & E1 & E2 & _ & E3 & [[buf p3] E4]).
  change (len (zeroed 64)) with 64 in *. unfold acquire, release, Pool.new. cbn [inner Pool.buffer_size Pool.capacity].
  change (replicate (Z.to_nat 2) (zeroed 64)) with [zeroed 64; zeroed 64].
  rewrite E1. cbn [expect]. rewrite bind_ret. cbn [inner Pool.buffer_size]. rewrite E2. cbn [expect].
  rewrite bind_ret. cbn [inner Pool.buffer_size]. rewrite E3, bind_ret. cbn [inner Pool.buffer_size]. by rewrite E4.
Qed.

