(* ===== verification/PropTests.v ===== *)
(** The property tests and the fuzz target of the codec
    ([aulon-proto/tests/proptest_roundtrip.rs], [fuzz/fuzz_targets/parse_frame.rs]):
    the generators as predicates, and the tests shown to pass on everything
    the generators can produce. *)
From Stdlib Require Import ZArith Lia Strings.Byte.
From stdpp Require Import base gmap list strings.
From S2P Require Import Prelude Wire Parse Emit Codec Worker UnitTests.

(* ------------------------------------------------------------------ *)
(** * Generators *)

Definition between (lo hi : Z) (n : Z) : bool := (lo <=? n) && (n <=? hi).

(** The class [A-Za-z0-9._\-*>]. *)
Definition token_char (c : byte) : bool :=
  between 65 90 (byte_val c) || between 97 122 (byte_val c) || between 48 57 (byte_val c) ||
  bool_decide (c ∈ bs "._-*>").
Definition token_bytes (l : bytes) : bool := between 1 64 (len l) && forallb token_char l.
Definition opt_token_bytes (o : option bytes) : bool := from_option token_bytes true o.
Definition payload_bytes (l : bytes) : bool := len l <=? 512.
(** The class [\x20-\x7E] less CR and LF. *)
Definition printable (c : byte) : bool := between 32 126 (byte_val c) && negb (bool_decide (c = CR)) && negb (bool_decide (c = LF)).
Definition json_body (l : bytes) : bool := between 1 128 (len l) && forallb printable l.
Definition err_message (l : bytes) : bool := between 1 128 (len l) && forallb printable l.
Definition any_u64 (o : option Z) : bool := from_option (between 0 u64_max) true o.

(* ------------------------------------------------------------------ *)
(** * Tests *)

Definition SCRATCH : Z := 8192.

Definition roundtrip_eq (frame : Frame.t) : run unit :=
  e ← emit_frame frame (zeroed SCRATCH);
  n ← unwrap e.2;
  text ← slice_to e.1 n;
  o ← parse_frame text;
  match o with
  | ParseOutcome.Frame parsed consumed => _ ← assert_eq consumed n; assert_eq parsed frame
  | _ => Panic
  end.

Definition ping_roundtrips : run unit := roundtrip_eq Frame.Ping.
Definition pong_roundtrips : run unit := roundtrip_eq Frame.Pong.
Definition ok_roundtrips : run unit := roundtrip_eq Frame.Ok.
Definition err_roundtrips (message : bytes) : run unit := roundtrip_eq (Frame.Err message).
Definition connect_roundtrips (options : bytes) : run unit := roundtrip_eq (Frame.Connect options).
Definition info_roundtrips (options : bytes) : run unit := roundtrip_eq (Frame.Info options).
Definition sub_roundtrips (subject : bytes) (queue : option bytes) (sid : bytes) : run unit :=
  roundtrip_eq (Frame.Sub subject queue sid).
Definition unsub_roundtrips (sid : bytes) (max : option Z) : run unit := roundtrip_eq (Frame.Unsub sid max).
Definition pub_roundtrips (subject : bytes) (reply : option bytes) (payload : bytes) : run unit :=
  roundtrip_eq (Frame.Pub subject reply payload).
Definition msg_roundtrips (subject sid : bytes) (reply : option bytes) (payload : bytes) : run unit :=
  roundtrip_eq (Frame.Msg subject sid reply payload).

Definition parser_does_not_panic_on_arbitrary_bytes (input : bytes) : run unit := _ ← parse_frame input; Done tt.
(** The body of [fuzz_target!]. *)
Definition fuzz_target (data : bytes) : run unit := _ ← parse_frame data; Done tt.

(** Each emitter goes on in the buffer the one before has left. *)
Definition emit_short_buffer_returns_err_not_panic (message : bytes) : run unit :=
  e ← emit_err message (zeroed 2);
  e ← emit_info message e.1;
  e ← emit_connect message e.1;
  e ← emit_sub message None (bs "7") e.1;
  e ← emit_unsub (bs "7") (Some 12) e.1;
  e ← emit_pub (bs "foo") None message e.1;
  _ ← emit_msg (bs "foo") (bs "7") None message e.1;
  Done tt.

(* ------------------------------------------------------------------ *)
(** * What the generators produce *)

Lemma between_spec lo hi n : between lo hi n = true <-> lo <= n <= hi.
Proof. unfold between. rewrite andb_true_iff, !Z.leb_le. done. Qed.

Lemma no_crlf_no_cr l : Forall (fun c => c <> CR) l -> no_crlf l.
Proof. induction 1; [apply no_crlf_nil|by apply no_crlf_cons_ok]. Qed.

(** [P] holds of all bytes of a class, byte by byte. *)
Lemma class_sound (f : byte -> bool) (P : byte -> Prop) l :
  (forall c, f c = true -> P c) -> forallb f l = true -> Forall P l.
Proof. intros Hf Hl. apply Forall_forall. rewrite forallb_forall in Hl. setoid_rewrite <- list_elem_of_In in Hl. auto. Qed.
Lemma token_char_ok c : token_char c = true -> is_blank c = false /\ c <> CR.
Proof. destruct c; done. Qed.
Lemma printable_ok c : printable c = true -> c <> CR.
Proof. destruct c; done. Qed.

Lemma token_bytes_field l : token_bytes l = true -> field l /\ len l <= 64.
Proof.
  unfold token_bytes. rewrite andb_true_iff, between_spec. intros [[Hlo Hhi] Hc].
  apply (class_sound _ _ _ token_char_ok) in Hc. split; [|done]. split.
  - split; [by destruct l|]. eapply Forall_impl; [exact Hc|]. by intros c [? _].
  - apply no_crlf_no_cr. eapply Forall_impl; [exact Hc|]. by intros c [_ ?].
Qed.
Lemma opt_token_field o : opt_token_bytes o = true -> opt_field o /\ len (opt_text o) <= 65.
Proof.
  destruct o as [l|]; cbn; [|rewrite len_nil; by auto with lia]. intros [Hf Hl]%token_bytes_field. split; [done|]. lens; lia.
Qed.
Lemma json_body_ok l : json_body l = true -> l <> [] /\ no_crlf l /\ len l <= 128.
Proof.
  unfold json_body. rewrite andb_true_iff, between_spec. intros [[Hlo Hhi] Hc].
  apply (class_sound _ _ _ printable_ok) in Hc. split_and!; [by destruct l|by apply no_crlf_no_cr|done].
Qed.

(** A well-formed frame that fits the scratch buffer makes the round trip. *)
Lemma roundtrip_passes f : frame_wf f -> len (encode f) <= SCRATCH -> passes (roundtrip_eq f).
Proof.
  intros Hf Hl. assert (slice_ok (zeroed SCRATCH)) as Hok by (vm_compute; discriminate).
  unfold roundtrip_eq. destruct (emit_frame_done (zeroed SCRATCH) f Hok (frame_wf_nums_ok f Hf)) as [[_ E]|[Hlt _]].
  2: { change (len (zeroed SCRATCH)) with SCRATCH in Hlt. lia. }
  pose proof (emit_parse_back _ _ [] f _ Hf Hok E) as Hp. rewrite E, bind_ret. cbn [snd fst unwrap]. rewrite bind_ret.
  rewrite app_nil_r, to_nat_len, take_app_length in Hp. rewrite slice_to_app by done. rewrite bind_ret, Hp, bind_ret. unfold assert_eq. by rewrite !bool_decide_true.
Qed.

(** No emitter panics on a buffer of two bytes, and it leaves two bytes. *)
Lemma emit_two_bytes f out : len out = 2 -> frame_nums_ok f ->
  exists e, emit_frame f out = Done e /\ len e.1 = 2.
Proof.
  intros Hl Hf. assert (slice_ok out) as Hok by (unfold slice_ok; rewrite Hl; done).
  destruct (emit_frame_done out f Hok Hf) as [[Hle E]|(_ & out' & n & E & _ & Hl')]; rewrite E; eexists; (split; [done|]); cbn.
  - unfold len in *. rewrite length_app, length_drop. lia.
  - lia.
Qed.

Lemma short_buffer_passes message : slice_ok message -> passes (emit_short_buffer_returns_err_not_panic message).
Proof.
  intros Hm. unfold passes, emit_short_buffer_returns_err_not_panic.
  pose proof (fun f out Hl Hf => emit_two_bytes f out Hl Hf) as T.
  destruct (T (Frame.Err message) (zeroed 2)) as (e1 & E1 & L1); [done..|]. cbn [emit_frame] in E1. rewrite E1, bind_ret.
  destruct (T (Frame.Info message) e1.1) as (e2 & E2 & L2); [done..|]. cbn [emit_frame] in E2. rewrite E2, bind_ret.
  destruct (T (Frame.Connect message) e2.1) as (e3 & E3 & L3); [done..|]. cbn [emit_frame] in E3. rewrite E3, bind_ret.
  destruct (T (Frame.Sub message None (bs "7")) e3.1) as (e4 & E4 & L4); [done..|]. cbn [emit_frame] in E4. rewrite E4, bind_ret.
  destruct (T (Frame.Unsub (bs "7") (Some 12)) e4.1) as (e5 & E5 & L5); [done..|]. cbn [emit_frame] in E5. rewrite E5, bind_ret.
  destruct (T (Frame.Pub (bs "foo") None message) e5.1) as (e6 & E6 & L6); [done..|]. cbn [emit_frame] in E6. rewrite E6, bind_ret.
  destruct (T (Frame.Msg (bs "foo") (bs "7") None message) e6.1) as (e7 & E7 & _); [done..|]. cbn [emit_frame] in E7.
  by rewrite E7.
Qed.

(** The fields of a generated frame, and the length of its text. *)
Ltac fields := cbn; unfold slice_ok, isize_max, any_u64 in *;
  repeat match goal with
  | o : option Z |- _ => destruct o as [m|]; cbn in *
  | H : between _ _ _ = true |- _ => apply between_spec in H
  end; repeat match goal with |- _ /\ _ => split end; (done || lia).
Ltac text_length := cbn [encode]; unfold SCRATCH;
  repeat match goal with
  | |- context [match ?o with Some _ => _ | None => _ end] => destruct o
  | |- context [decimal ?n] => lazymatch goal with _ : len (decimal n) <= 20 |- _ => fail | _ => pose proof (decimal_len n) end
  end;
  rewrite ?len_app;
  repeat match goal with
  | |- context [len (String.list_byte_of_string ?s)] =>
      let n := eval vm_compute in (len (String.list_byte_of_string s)) in
      change (len (String.list_byte_of_string s)) with n
  end;
  change (len CRLF) with 2; change (len [SP]) with 1; change (len (@nil byte)) with 0; lia.

(** The property tests and the fuzz target pass on every input, not only
    on the sampled ones: each frame the generators can make is parsed back from
    what the emitter wrote in 8 KiB, the parser panics on no input a slice can
    hold, and no emitter panics on a buffer of two bytes. *)
Theorem property_tests_pass :
  (passes ping_roundtrips /\ passes pong_roundtrips /\ passes ok_roundtrips) /\
  (forall message, err_message message = true -> passes (err_roundtrips message)) /\
  (forall options, json_body options = true -> passes (connect_roundtrips options) /\ passes (info_roundtrips options)) /\
  (forall subject queue sid, token_bytes subject = true -> opt_token_bytes queue = true -> token_bytes sid = true ->
    passes (sub_roundtrips subject queue sid)) /\
  (forall sid max, token_bytes sid = true -> any_u64 max = true -> passes (unsub_roundtrips sid max)) /\
  (forall subject reply payload, token_bytes subject = true -> opt_token_bytes reply = true ->
    payload_bytes payload = true -> passes (pub_roundtrips subject reply payload)) /\
  (forall subject sid reply payload, token_bytes subject = true -> token_bytes sid = true ->
    opt_token_bytes reply = true -> payload_bytes payload = true -> passes (msg_roundtrips subject sid reply payload)) /\
  (forall data, slice_ok data -> passes (parser_does_not_panic_on_arbitrary_bytes data) /\ passes (fuzz_target data)) /\
  forall message, slice_ok message -> passes (emit_short_buffer_returns_err_not_panic message).
Proof.
  split_and!; intros;
    repeat match goal with
    | H : token_bytes _ = true |- _ => apply token_bytes_field in H as [? ?]
    | H : opt_token_bytes _ = true |- _ => apply opt_token_field in H as [? ?]
    | H : json_body _ = true |- _ => apply json_body_ok in H as (? & ? & ?)
    | H : err_message _ = true |- _ => apply json_body_ok in H as (? & ? & ?)
    | H : payload_bytes _ = true |- _ => apply Z.leb_le in H
    | |- passes (emit_short_buffer_returns_err_not_panic _) => by apply short_buffer_passes
    | |- _ /\ _ => split
    | H : slice_ok ?d |- passes (_ ?d) => by destruct (parse_frame_done d H) as [o E]; unfold passes, parser_does_not_panic_on_arbitrary_bytes, fuzz_target; rewrite E
    end;
    (apply roundtrip_passes; [fields|text_length]).
Qed.
