(* ===== verification/Fair.v ===== *)
(** Executions of the whole server and what fair scheduling guarantees.

    [Server] says what may happen; here a schedule is given: an infinite
    sequence of moves, each by a writer, a drain task or another task.  Under
    two assumptions on the runtime -- a drain task whose eventfd is readable and
    a writer that has something to do are run again at some time -- every
    publication queued for a shard is dispatched there, and every byte accepted
    for a connection is handed to its socket or its write fails. *)
From Stdlib Require Import ZArith Lia Strings.Byte.
From stdpp Require Import functions base gmap list strings relations.
From S2P Require Import Prelude Subject Trie TrieSpec ConnState ShardInbox EventFd Wire Parse Emit Worker Dispatch DispatchSpec Session SessionSpec Broker Server ServerRun.

(* ------------------------------------------------------------------ *)
(** * Progress under fairness *)

(** Whenever [ready], a [turn] comes, unless it ceases to be ready first. *)
Definition fair (ready turn : nat -> Prop) : Prop :=
  forall t, ready t -> exists t', (t <= t')%nat /\ (turn t' \/ ~ ready t').

(** A measure that no step increases and that every turn decreases, and that
    is zero unless ready, reaches zero. *)
Lemma fair_progress (ready turn : nat -> Prop) (left_ : nat -> nat -> Prop) :
  fair ready turn ->
  (forall k t, left_ (S k) t -> ready t) ->
  (forall k t, left_ (S k) t -> exists k', (k' <= S k)%nat /\ left_ k' (S t) /\ (turn t -> (k' < S k)%nat)) ->
  forall k t, left_ k t -> exists t', (t <= t')%nat /\ left_ 0%nat t'.
Proof.
  intros Hfair Hready Hstep k. induction k as [k IH] using lt_wf_ind. intros t Hk.
  destruct k as [|k]; [by exists t|].
  assert (forall d t, left_ (S k) t -> (exists t1 k1, (t <= t1)%nat /\ (k1 < S k)%nat /\ left_ k1 t1) \/
    (forall j, (j < d)%nat -> left_ (S k) (t + j)%nat /\ ~ turn (t + j)%nat) /\ left_ (S k) (t + d)%nat) as Hwalk.
  { induction d as [|d IHd]; intros t0 H0; [right; split; [intros; exfalso; lia|by rewrite Nat.add_0_r]|].
    destruct (IHd t0 H0) as [?|[Hj Hd]]; [by left|].
    destruct (Hstep k _ Hd) as (k' & Hle & Hk' & Hturn). destruct (decide (k' < S k)%nat) as [Hlt|Hge].
    { left. exists (S (t0 + d)), k'. split_and!; [lia|done..]. }
    right. assert (k' = S k) as -> by lia. rewrite Nat.add_succ_r. split; [|done].
    intros j Hj'. destruct (decide (j = d)) as [->|]; [|apply Hj; lia]. split; [done|]. intros H%Hturn. lia. }
  destruct (Hfair t (Hready _ _ Hk)) as (t' & Ht & Hturn).
  destruct (Hwalk (S (t' - t)) t Hk) as [(t1 & k1 & Ht1 & Hk1 & H1)|[Hj _]].
  - destruct (IH k1 Hk1 t1 H1) as (t2 & ? & ?). exists t2. split; [lia|done].
  - destruct (Hj (t' - t)%nat ltac:(lia)) as [Hl Hn]. replace (t + (t' - t))%nat with t' in * by lia.
    destruct Hturn as [|Hnr]; [done|]. destruct Hnr. by eapply Hready.
Qed.

Section Fair.
Context `{N : Notify}.
Variables (capacity buffer_size : Z).
Variable allowed : Subscriptions -> Frame.t -> Prop.

(* ------------------------------------------------------------------ *)
(** * Moves *)

(** Who moves: a writer, with the result of its write and what it hands to the
    socket; a drain task, with the frame it dispatches; or another task. *)
Inductive mover : Type :=
| Writer (i : nat) (rc : Rc) (ok : bool) (sent : bytes)
| Drainer (i : nat) (f : option PublishedFrame)
| Other.

(** [move] is [server_step] with its mover.  A task that is not a writer runs
    the same with no writers at all, and may add one. *)
Inductive move : mover -> @Server N -> @Server N -> Prop :=
| move_write ns bx evs dr i s rc pc buf ok w' pc' buf' sent :
    ns !! i = Some s -> dr !! i = Some false -> writers s !! rc = Some (pc, buf) ->
    writer_step rc ok pc buf (worker (attach bx s)) = Done (w', (pc', buf', sent)) ->
    move (Writer i rc ok sent) (mkServer ns bx evs dr)
      (mkServer (<[i := mkShard w' (readers s) (<[rc := (pc', buf')]> (writers s))]> ns)
        (peer_inboxes w') (wake_all (kicks w') evs) dr)
| move_wake ns bx evs dr i n :
    evs !! i = Some n -> 0 < n -> dr !! i = Some false ->
    move (Drainer i None) (mkServer ns bx evs dr) (mkServer ns bx (<[i := 0]> evs) (<[i := true]> dr))
| move_drain ns bx evs dr i s m m' f w' res :
    dr !! i = Some true -> ns !! i = Some s -> bx !! i = Some m -> pop m = Done (m', Some f) ->
    dispatch_local (ShardInbox.subject f) (ShardInbox.reply_to f) (ShardInbox.payload f)
      (worker (attach (<[i := m']> bx) s)) = Done (w', res) ->
    move (Drainer i (Some f)) (mkServer ns bx evs dr)
      (mkServer (<[i := mkShard w' (readers s) (writers s)]> ns) (<[i := m']> bx) evs dr)
| move_idle ns bx evs dr i m m' :
    dr !! i = Some true -> bx !! i = Some m -> pop m = Done (m', None) ->
    move (Drainer i None) (mkServer ns bx evs dr) (mkServer ns (<[i := m']> bx) evs (<[i := false]> dr))
| move_task ns bx evs dr i s w' rs' new :
    ns !! i = Some s -> dr !! i = Some false ->
    task capacity buffer_size allowed (mkShard (worker (attach bx s)) (readers s) ∅) (mkShard w' rs' new) ->
    move Other (mkServer ns bx evs dr)
      (mkServer (<[i := mkShard w' rs' (new ∪ writers s)]> ns) (peer_inboxes w') (wake_all (kicks w') evs) dr)
| move_rest S : move Other S S.

(** A task that is not a writer, with and without the writers. *)
Lemma task_frame_writers w rs w' rs' new ws :
  task capacity buffer_size allowed (mkShard w rs ∅) (mkShard w' rs' new) ->
  task capacity buffer_size allowed (mkShard w rs ws) (mkShard w' rs' (new ∪ ws)).
Proof.
  remember (mkShard w rs ∅) as s eqn:Es. remember (mkShard w' rs' new) as s' eqn:Es'.
  intros Ht. destruct Ht; injection Es as <- <- ->; injection Es' as <- <- <-; rewrite ?(left_id_L ∅ (∪)).
  - rewrite <- insert_union_l, (left_id_L ∅ (∪)). by apply task_accept.
  - by eapply task_refuse.
  - by eapply task_greet.
  - by eapply task_frame.
  - by eapply task_close.
  - by eapply task_exit.
  - by rewrite lookup_empty in *.
Qed.

Lemma task_cases s s' :
  task capacity buffer_size allowed s s' ->
  (exists rc pc buf ok w' pc' buf' sent, writers s !! rc = Some (pc, buf) /\
    writer_step rc ok pc buf (worker s) = Done (w', (pc', buf', sent)) /\
    s' = mkShard w' (readers s) (<[rc := (pc', buf')]> (writers s))) \/
  (exists new, task capacity buffer_size allowed (mkShard (worker s) (readers s) ∅)
    (mkShard (worker s') (readers s') new) /\ writers s' = new ∪ writers s).
Proof.
  intros Ht. destruct Ht; cbn [worker readers writers].
  1: { right. eexists. split; [by eapply task_accept|]. by rewrite <- insert_union_l, (left_id_L ∅ (∪)). }
  6: { left. by repeat eexists. }
  all: right; exists ∅; split; [|by rewrite (left_id_L ∅ (∪))].
  - by eapply task_refuse.
  - by eapply task_greet.
  - by eapply task_frame.
  - by eapply task_close.
  - by eapply task_exit.
Qed.

Lemma move_sound a S S' : move a S S' -> server_step capacity buffer_size allowed S S' \/ S' = S.
Proof.
  intros Hm. destruct Hm as [ns bx evs dr i s rc pc buf ok w' pc' buf' sent Hs Hd Hw E| | | |
    ns bx evs dr i s w' rs' new Hs Hd Ht|]; [left..|by right].
  - change (mkServer ?ns ?bx ?e ?d) with (mkServer ns bx e d).
    eapply (server_task _ _ _ ns bx evs dr i s (mkShard w' _ _) Hs Hd). by eapply task_write.
  - by eapply server_wake.
  - by eapply server_drain.
  - by eapply server_idle.
  - eapply (server_task _ _ _ ns bx evs dr i s (mkShard w' _ _) Hs Hd). by apply task_frame_writers.
Qed.

Lemma move_complete S S' : server_step capacity buffer_size allowed S S' -> exists a, move a S S'.
Proof.
  intros Hs. destruct Hs as [ns bx evs dr i s s' Hs Hd Ht| | |].
  - destruct (task_cases _ _ Ht) as [(rc & pc & buf & ok & w' & pc' & buf' & sent & Hw & E & ->)|(new & Ht' & Hw)].
    + eexists. exact (move_write ns bx evs dr i s rc pc buf ok w' pc' buf' sent Hs Hd Hw E).
    + destruct s' as [w' rs' ws']. cbn [worker readers writers] in *. subst ws'. eexists. exact (move_task ns bx evs dr i s w' rs' new Hs Hd Ht').
  - eexists. by eapply move_wake.
  - eexists. by eapply move_drain.
  - eexists. by eapply move_idle.
Qed.

(* ------------------------------------------------------------------ *)
(** * Executions *)

Record execution : Type := mkExec { at_time : nat -> @Server N; by_time : nat -> mover }.

Definition execution_of (start : @Server N) (e : execution) : Prop :=
  at_time e 0%nat = start /\ forall t, move (by_time e t) (at_time e t) (at_time e (S t)).

(** The drain task of shard [i] is in its loop, or its eventfd is readable. *)
Definition drain_ready (i : nat) (S : @Server N) : Prop :=
  draining S !! i = Some true \/ exists v, events S !! i = Some v /\ 0 < v.

(** Connection [rc] of shard [i], its cell and its writer; the writer is ready
    when it is not parked and has not returned. *)
Definition conn_at (S : @Server N) (i : nat) (rc : Rc) (st : ConnectionState N) (pc : writer_pc) : Prop :=
  exists s buf, nodes S !! i = Some s /\ heap (worker s) !! rc = Some st /\ writers s !! rc = Some (pc, buf).
Definition writer_ready (i : nat) (rc : Rc) (S : @Server N) : Prop :=
  exists st pc, conn_at S i rc st pc /\ pc <> WExit /\ (pc = WWait -> woken (notify_ st) = true).

Definition drain_fair (e : execution) (i : nat) : Prop :=
  fair (fun t => drain_ready i (at_time e t)) (fun t => exists o, by_time e t = Drainer i o).
Definition writer_fair (e : execution) (i : nat) (rc : Rc) : Prop :=
  fair (fun t => writer_ready i rc (at_time e t)) (fun t => exists ok sent, by_time e t = Writer i rc ok sent).

(** What the writer of [rc] hands to its socket in one move, and from time [t]
    on for [d] moves. *)
Definition sent_by (a : mover) (i : nat) (rc : Rc) : bytes :=
  match a with
  | Writer i' rc' _ sent => if bool_decide (i' = i /\ rc' = rc) then sent else []
  | _ => []
  end.
Definition sent_during (e : execution) (i : nat) (rc : Rc) (t d : nat) : bytes :=
  concat ((fun k => sent_by (by_time e k) i rc) <$> List.seq t d).

(** A write of [rc] failed between [t] and [t + d]. *)
Definition write_failed (e : execution) (i : nat) (rc : Rc) (t d : nat) : Prop :=
  exists k sent, (t <= k < t + d)%nat /\ by_time e k = Writer i rc false sent.

Lemma sent_during_S e i rc t d :
  sent_during e i rc t (S d) = sent_during e i rc t d ++ sent_by (by_time e (t + d)%nat) i rc.
Proof.
  unfold sent_during. rewrite seq_S, fmap_app, concat_app. cbn. by rewrite app_nil_r.
Qed.

(* ------------------------------------------------------------------ *)
(** * What a move leaves of a queue and of a connection *)

Hypothesis Hcap : 0 <= capacity <= isize_max.
Hypothesis Hbuf : 64 <= buffer_size <= isize_max.
Context `{NL : !NotifyLaws N}.
Variables (scratch : Z) (box : ShardInbox PublishedFrame) (n : nat) (kbox : Z).
Hypothesis Hscratch : 0 <= scratch <= isize_max.
Hypothesis Hn : Z.of_nat n <= 2 ^ 32.
Hypothesis Hbox : holds box kbox 0 [].

Abbreviation sinv := (server_inv capacity buffer_size allowed scratch box n (fun _ => kbox)).

Lemma execution_inv e t : execution_of (server_initial scratch box n) e -> exists hs qs, sinv hs qs (at_time e t).
Proof.
  intros [H0 Hm]. eapply server_reachable; try done. induction t as [|t IH]; [by rewrite H0|].
  destruct (move_sound _ _ _ (Hm t)) as [Hs| ->]; [|done]. by eapply rtc_r.
Qed.

(** The queue of shard [i]: its drain task takes the head, or has nothing to
    take, or wakes up; everyone else appends at most. *)
Lemma move_queue a S S' hs qs i :
  sinv hs qs S -> move a S S' -> (i < n)%nat ->
  exists hs' qs', sinv hs' qs' S' /\
    match a with
    | Drainer j (Some f) => if decide (j = i) then qs i = f :: qs' i /\
        draining S !! i = Some true /\ draining S' !! i = Some true
        else qs' i = qs i /\ draining S' !! i = draining S !! i
    | Drainer j None => qs' i = qs i /\ (j <> i -> draining S' !! i = draining S !! i) /\
        (j = i -> qs i <> [] -> draining S !! i = Some false /\ draining S' !! i = Some true)
    | _ => (exists x, qs' i = qs i ++ x) /\ draining S' !! i = draining S !! i
    end.
Proof.
  intros HS Hm Hi.
  assert (forall kk q q', queue_grows kk i q q' -> exists x, q' = q ++ x) as Hgrow.
  { intros kk q q' [->|(f & _ & -> & _)]; [exists []; by rewrite app_nil_r|by exists [f]]. }
  destruct Hm as [ns bx evs dr j s rc pc buf ok w' pc' buf' sent Hs Hd Hw E|ns bx evs dr j v Hv Hpos Hd
    |ns bx evs dr j s m m' f w' res Hd Hs Hm Hp E|ns bx evs dr j m m' Hd Hm Hp
    |ns bx evs dr j s w' rs' new Hs Hd Ht|S].
  - destruct (server_inv_task capacity buffer_size allowed Hcap Hbuf scratch box n kbox Hscratch Hn Hbox (fun _ => kbox)
      hs qs ns bx evs dr j s (mkShard w' (readers s) (<[rc := (pc', buf')]> (writers s))) HS Hs) as (qs' & HS' & Hq);
      [by eapply task_write|].
    exists hs, qs'. split_and!; [done| |done]. destruct (Hq i Hi) as (kk & Hkk). by eapply Hgrow.
  - exists hs, qs. pose proof (server_inv_wake _ _ _ _ _ _ _ _ _ _ _ _ _ j HS) as HS'. split_and!; [done..| |].
    + intros Hne. cbn. by rewrite list_lookup_insert_ne.
    + intros -> _. cbn. split; [done|]. apply list_lookup_insert_eq. by eapply lookup_lt_Some.
  - destruct (server_inv_drain capacity buffer_size allowed Hcap Hbuf scratch box n kbox Hscratch Hn Hbox (fun _ => kbox)
      hs qs ns bx evs dr j s m m' f w' res HS Hd Hs Hm Hp E) as (q & Hq & HS').
    eexists _, _. split; [exact HS'|]. destruct (decide (j = i)) as [->|Hne].
    + by rewrite fn_lookup_insert.
    + by rewrite fn_lookup_insert_ne.
  - destruct (server_inv_idle capacity buffer_size allowed scratch box n (fun _ => kbox)
      hs qs ns bx evs dr j m m' HS Hm Hp) as (Hq & -> & HS').
    exists hs, qs. split_and!; [done..| |].
    + intros Hne. cbn. by rewrite list_lookup_insert_ne.
    + intros -> Hne. congruence.
  - destruct (server_inv_task capacity buffer_size allowed Hcap Hbuf scratch box n kbox Hscratch Hn Hbox (fun _ => kbox)
      hs qs ns bx evs dr j s (mkShard w' rs' (new ∪ writers s)) HS Hs) as (qs' & HS' & Hq);
      [by apply task_frame_writers|].
    exists hs, qs'. split_and!; [done| |done]. destruct (Hq i Hi) as (kk & Hkk). by eapply Hgrow.
  - exists hs, qs. split_and!; [done| |done]. exists []. by rewrite app_nil_r.
Qed.

(** A cell of the heap that others have only appended to. *)
Definition cell_grows (w w' : Worker N) (rc : Rc) : Prop :=
  forall st, heap w !! rc = Some st -> exists st' acc, heap w' !! rc = Some st' /\ acts_ok st st' acc [].

Lemma grows_cell_grows w w' rc : grows w w' -> cell_grows w w' rc.
Proof. intros H st Hst. specialize (H rc). by rewrite Hst in H. Qed.
Lemma cell_grows_same w w' rc : good w -> heap w' !! rc = heap w !! rc -> cell_grows w w' rc.
Proof. intros Hg E st Hst. exists st, []. split; [congruence|]. by apply acts_ok_refl, (good_heap w Hg rc). Qed.

(** The tasks other than the writers. *)
Lemma task_cells w rs w' rs' new tb rc :
  inv (mkShard w rs ∅) tb -> task capacity buffer_size allowed (mkShard w rs ∅) (mkShard w' rs' new) ->
  is_Some (heap w !! rc) -> new !! rc = None /\ cell_grows w w' rc.
Proof.
  intros Hinv Ht Hrc. pose proof Hinv as [[Hg Hi _ _ _ Hrd _ _] Htb _ _].
  remember (mkShard w rs ∅) as s eqn:Es. remember (mkShard w' rs' new) as s' eqn:Es'.
  destruct Ht as [w0 rs0 ws rc0 buf w1 Hrc0 Hlt Hlen E|w0 rs0 ws rb wb rc0 w1 Hlt E|w0 rs0 ws rc0 w1 go Hrs E
    |w0 rs0 ws rc0 subs f weak w1 subs' Hrs Hf Hal Htot E|w0 rs0 ws rc0 subs w1 Hrs E
    |w0 rs0 ws rc0 subs order w1 Hrs Hord E|w0 rs0 ws rc0 pc buf ok w1 pc' buf' sent Hws E];
    injection Es as -> -> ->; injection Es' as <- <- <-; cbn [worker readers writers] in *.
  7: by rewrite lookup_empty in Hws.
  all: try (destruct (Hrd rc0) as (st & Hst & _); [by eexists|]).
  - injection E as <-. assert (rc0 <> rc) by (intros ->; rewrite Hrc0 in Hrc; by destruct Hrc).
    rewrite lookup_insert_ne by done. split; [done|]. apply cell_grows_same; [done|]. wsimpl. by rewrite lookup_insert_ne.
  - split; [done|]. apply cell_grows_same; [done|]. destruct rb, wb; cbn in E; try discriminate E; by injection E as <-.
  - split; [done|]. rewrite reader_greet_done in E by eauto. injection E as <- <-.
    by apply grows_cell_grows, told_grows.
  - split; [done|]. destruct (handle_frame_ready weak f w rc0 st tb subs)
      as (w2 & E1 & _ & Hgr & _); try done. rewrite E in E1. injection E1 as <- _. by apply grows_cell_grows.
  - split; [done|]. rewrite (mark_close_rc_done w rc0 st) in E by done. injection E as <-.
    destruct (mark_close_ready w rc0 st tb CloseReason.ProtocolError) as (_ & Hgr & _); [done..|]. by apply grows_cell_grows.
  - split; [done|]. destruct (base_exit w rs ∅ rc0 subs order w1 tb (i_base _ _ Hinv) Htb Hrs E)
      as (st' & _ & _ & _ & _ & _ & _ & Hgr). by apply grows_cell_grows.
Qed.

(** A connection of a node satisfies the invariant of its shard. *)
Lemma conn_node hs qs S i rc st pc :
  sinv hs qs S -> conn_at S i rc st pc ->
  exists s buf tb, nodes S !! i = Some s /\ inv (attach (boxes S) s) tb /\ writers s !! rc = Some (pc, buf) /\
    heap (worker s) !! rc = Some st /\ wf st /\ slice_ok buf /\ 64 <= len buf /\ writer_ok pc st.
Proof.
  intros HS (s & buf & Hs & Hst & Hw).
  destruct (node_attach capacity buffer_size allowed Hcap Hbuf scratch box n kbox Hscratch Hn Hbox
    (fun _ => kbox) hs qs S i s HS Hs) as (_ & tb & Hinv).
  pose proof Hinv as [[Hg _ _ _ _ _ _ Hwr] _ _ _].
  destruct (Hwr rc pc buf Hw) as (? & ? & st0 & Hst0 & Ho). cbn in Hst0. rewrite Hst in Hst0. injection Hst0 as <-.
  exists s, buf, tb. split_and!; try done. by apply (good_heap _ Hg rc).
Qed.

(** What a move of its writer does to a connection with bytes pending. *)
Definition wrote (st : ConnectionState N) (pc : writer_pc) (ok : bool) (sent : bytes)
    (st' : ConnectionState N) (pc' : writer_pc) : Prop :=
  match pc with
  | WWait => pc' = WDrain /\ sent = [] /\ pending st' = pending st
  | WDrain => pc' = (if ok then WDrain else WExit) /\ sent <> [] /\ pending st = sent ++ pending st'
  | WExit => pc' = WExit
  end.

Lemma writer_step_wrote w rc st pc buf ok w' pc' buf' sent :
  heap w !! rc = Some st -> wf st -> slice_ok buf -> 64 <= len buf -> writer_ok pc st -> pending st <> [] ->
  writer_step rc ok pc buf w = Done (w', (pc', buf', sent)) ->
  exists st', heap w' !! rc = Some st' /\ wrote st pc ok sent st' pc'.
Proof.
  intros Hst Hwf Hb Hl Ho Hp E. destruct pc.
  - rewrite (writer_wait w rc st ok buf Hst) in E. unfold wait_for_event in E.
    assert (woken (notify_ st) = true) as Hwo by (apply Ho; by left).
    apply bool_decide_eq_true in Hwo as [k Hk]. rewrite Hk in E. injection E as <- <- <- <-.
    eexists. split; [unfold put_cell; wsimpl; by rewrite lookup_insert_eq|done].
  - destruct (writer_drain_some w rc st ok buf Hwf Hst Hb ltac:(by intros ->) Hp)
      as (st' & buf1 & sent1 & E1 & _ & _ & _ & _ & Hs & Hp' & _).
    rewrite E in E1. injection E1 as -> -> -> ->. exists st'.
    split; [unfold put_cell; wsimpl; by rewrite lookup_insert_eq|done].
  - injection E as <- <- _ _. by exists st.
Qed.

(** The writer of another connection leaves this one alone. *)
Lemma writer_step_other w rc rc' st pc buf ok w' x :
  heap w !! rc = Some st -> wf st -> slice_ok buf -> 64 <= len buf -> writer_ok pc st -> rc <> rc' ->
  writer_step rc ok pc buf w = Done (w', x) -> heap w' !! rc' = heap w !! rc'.
Proof.
  intros Hst Hwf Hb Hl Ho Hne E.
  destruct (writer_step_ok w rc st ok pc buf Hwf Hst Hb Hl Ho) as (st' & pc1 & buf1 & sent1 & w1 & E1 & Hw1 & _).
  rewrite E in E1. injection E1 as <- _. destruct Hw1 as [[-> _]| ->]; [done|]. unfold put_cell. wsimpl.
  by rewrite lookup_insert_ne.
Qed.

(** Another shard's move, or one that leaves the node as it was. *)
Lemma conn_elsewhere S S' i rc st pc :
  nodes S' !! i = nodes S !! i -> conn_at S i rc st pc -> conn_at S' i rc st pc.
Proof. intros E (s & buf & Hs & H). exists s, buf. by rewrite E. Qed.
Lemma conn_moved (S S' : @Server N) i rc s' st' pc buf :
  is_Some (nodes S !! i) -> nodes S' = <[i := s']> (nodes S) -> heap (worker s') !! rc = Some st' ->
  writers s' !! rc = Some (pc, buf) -> conn_at S' i rc st' pc.
Proof.
  intros [s Hs] E Hh Hw. exists s', buf. rewrite E, list_lookup_insert_eq by (by eapply lookup_lt_Some). done.
Qed.

(** The drain task. *)
Lemma drain_cells hs qs ns bx evs dr i s m m' f w' res rc :
  sinv hs qs (mkServer ns bx evs dr) -> dr !! i = Some true -> ns !! i = Some s -> bx !! i = Some m ->
  pop m = Done (m', Some f) ->
  dispatch_local (ShardInbox.subject f) (ShardInbox.reply_to f) (ShardInbox.payload f)
    (worker (attach (<[i := m']> bx) s)) = Done (w', res) -> cell_grows (worker s) w' rc.
Proof.
  intros HS Hd Hs Hm Hp E.
  destruct (node_attach capacity buffer_size allowed Hcap Hbuf scratch box n kbox Hscratch Hn Hbox
    (fun _ => kbox) hs qs _ i s HS Hs) as (_ & tb & [[Hg _ _ _ _ _ _ _] Htb _ _]).
  destruct (server_inv_drain capacity buffer_size allowed Hcap Hbuf scratch box n kbox Hscratch Hn Hbox (fun _ => kbox)
    hs qs ns bx evs dr i s m m' f w' res HS Hd Hs Hm Hp E) as (q & Hq & _).
  pose proof (si_valid _ _ _ _ _ _ _ _ _ _ HS i) as Hv. rewrite Hq in Hv.
  destruct (Forall_cons_1 _ _ _ (Hv ltac:(rewrite <- (si_nodes _ _ _ _ _ _ _ _ _ _ HS); by eapply lookup_lt_Some)))
    as [[Hsl _] _].
  destruct (dispatch_any (worker (attach (<[i := m']> bx) s)) tb (ShardInbox.subject f)
    (ShardInbox.reply_to f) (ShardInbox.payload f)) as (w1 & r & E1 & _ & _ & Hgr); [by destruct Hg|done..|].
  rewrite E in E1. injection E1 as <- _. exact (grows_cell_grows _ _ rc Hgr).
Qed.

(** A connection under any move: its own writer takes what is pending, all
    others at most append to it. *)
Definition conn_step (a : mover) (i : nat) (rc : Rc) (st st' : ConnectionState N) (pc pc' : writer_pc) : Prop :=
  (exists ok sent, a = Writer i rc ok sent /\ wrote st pc ok sent st' pc') \/
  (pc' = pc /\ (forall ok sent, a <> Writer i rc ok sent) /\ exists acc, pending st' = pending st ++ acc).

Lemma conn_step_same a i rc st pc : (forall ok sent, a <> Writer i rc ok sent) -> conn_step a i rc st st pc pc.
Proof. intros H. right. split_and!; [done..|]. exists []. by rewrite app_nil_r. Qed.

Lemma move_conn a S S' hs qs i rc st pc :
  sinv hs qs S -> move a S S' -> conn_at S i rc st pc -> pending st <> [] ->
  exists st' pc', conn_at S' i rc st' pc' /\ conn_step a i rc st st' pc pc'.
Proof.
  intros HS Hm Hc Hpend. pose proof Hc as Hc0.
  destruct (conn_node _ _ _ _ _ _ _ HS Hc0) as (s & buf & tb & Hs & Hinv & Hw & Hst & Hwf & Hb & Hl & Ho).
  pose proof (b_good _ (i_base _ _ Hinv)) as Hg.
  assert (forall j s', j <> i -> (forall ok sent, a <> Writer i rc ok sent) -> nodes S' = <[j := s']> (nodes S) ->
    exists st' pc', conn_at S' i rc st' pc' /\ conn_step a i rc st st' pc pc') as Haway.
  { intros j s' Hne Ha E. exists st, pc. split; [|by apply conn_step_same].
    eapply conn_elsewhere; [|exact Hc]. by rewrite E, list_lookup_insert_ne. }
  assert (forall w' rs' ws', nodes S' = <[i := mkShard w' rs' ws']> (nodes S) -> cell_grows (worker s) w' rc ->
    ws' !! rc = Some (pc, buf) -> (forall ok sent, a <> Writer i rc ok sent) ->
    exists st' pc', conn_at S' i rc st' pc' /\ conn_step a i rc st st' pc pc') as Hgrow.
  { intros w' rs' ws' EN Hgr Hws Ha. destruct (Hgr st Hst) as (st' & acc & E & []). exists st', pc.
    split; [by eapply conn_moved|]. right. split_and!; [done..|]. by exists acc. }
  destruct Hm as [ns bx evs dr j s1 rc1 pc1 buf1 ok w' pc' buf' sent Hs1 Hd Hw1 E|ns bx evs dr j v Hv Hpos Hd
    |ns bx evs dr j s1 m m' f w' res Hd Hs1 Hm Hp E|ns bx evs dr j m m' Hd Hm Hp
    |ns bx evs dr j s1 w' rs' new Hs1 Hd Ht|S]; cbn [nodes boxes] in *.
  2,4,6: exists st, pc; split; [by eapply conn_elsewhere; [|exact Hc]|by apply conn_step_same].
  all: destruct (decide (j = i)) as [->|Hne]; [rewrite Hs in Hs1; injection Hs1 as <-|eapply Haway; [done|by intros ? ? [=]|reflexivity]].
  - destruct (decide (rc1 = rc)) as [->|Hne].
    + rewrite Hw in Hw1. injection Hw1 as <- <-.
      destruct (writer_step_wrote (worker (attach bx s)) _ _ _ _ _ _ _ _ _ Hst Hwf Hb Hl Ho Hpend E) as (st' & Hst' & Hwr).
      exists st', pc'. split; [|left; by eexists _, _]. eapply (conn_moved (mkServer ns bx evs dr)); [by eexists|reflexivity|done|by apply lookup_insert_eq].
    + destruct (b_writers _ (i_base _ _ Hinv) rc1 pc1 buf1 Hw1) as (Hb1 & Hl1 & st1 & Hst1 & Ho1).
      eapply Hgrow; [reflexivity| |by rewrite lookup_insert_ne|by intros ? ? [=]].
      apply (cell_grows_same (worker (attach bx s))); [done|].
      by eapply (writer_step_other _ rc1 rc st1); [exact Hst1|apply (good_heap _ Hg rc1)|..].
  - by eapply Hgrow; [reflexivity|eapply drain_cells|..].
  - destruct (task_cells (worker (attach bx s)) (readers s) w' rs' new tb rc) as [Hnew Hgr]; [|done|by eexists|].
    { destruct Hinv as [[] ? ? ?]. by constructor; [constructor|..]. }
    eapply Hgrow; [reflexivity|done| |done]. by rewrite lookup_union_r.
Qed.

(* ------------------------------------------------------------------ *)
(** * Every queued publication is dispatched *)

Abbreviation runs := (execution_of (server_initial scratch box n)).
Abbreviation holds_at e t i q := (inbox_holds kbox (at_time e t) i q).

Lemma inbox_is hs qs S i q : sinv hs qs S -> inbox_holds kbox S i q -> qs i = q.
Proof.
  intros HS (m & h & Hm & Hh). pose proof (si_hold _ _ _ _ _ _ _ _ _ _ HS i m Hm) as Hh0. by eapply holds_fun.
Qed.
Lemma inbox_at hs qs S i : sinv hs qs S -> (i < n)%nat -> inbox_holds kbox S i (qs i).
Proof.
  intros HS Hi. destruct (lookup_lt_is_Some_2 (boxes S) i) as [m Hm]; [by rewrite (si_boxes _ _ _ _ _ _ _ _ _ _ HS)|].
  exists m, (hs i). split; [done|]. by apply (si_hold _ _ _ _ _ _ _ _ _ _ HS).
Qed.

(** Frames and wake-ups still ahead of [f] in the inbox of shard [i]. *)
Definition frames_ahead (e : execution) (i : nat) (f : PublishedFrame) (t k u : nat) : Prop :=
  (t <= u)%nat /\
  (k = 0%nat /\ (exists t', (t <= t')%nat /\ by_time e t' = Drainer i (Some f)) \/
   exists q1 q2 d, k = (2 * length q1 + if d : bool then 1 else 2)%nat /\
     draining (at_time e u) !! i = Some d /\ holds_at e u i (q1 ++ f :: q2)).

Lemma frames_ahead_step e i f t k u :
  runs e -> (i < n)%nat -> frames_ahead e i f t (S k) u ->
  exists k', (k' <= S k)%nat /\ frames_ahead e i f t k' (S u) /\
    ((exists o, by_time e u = Drainer i o) -> (k' < S k)%nat).
Proof.
  intros He Hi [Ht [[? _]|(q1 & q2 & d & Hk & Hd & Hq)]]; [done|].
  destruct (execution_inv e u He) as (hs & qs & HS). pose proof (inbox_is _ _ _ _ _ HS Hq) as Hqs.
  destruct (move_queue _ _ _ _ _ i HS (proj2 He u) Hi) as (hs' & qs' & HS' & Hmv).
  pose proof (inbox_at _ _ _ i HS' Hi) as Hq'.
  destruct (by_time e u) as [j rc ok sent|j [f'|]|] eqn:Hby.
  2: destruct (decide (j = i)) as [->|Hne].
  2: { destruct Hmv as (Hpop & Hd1 & Hd'). rewrite Hd in Hd1. injection Hd1 as ->. rewrite Hqs in Hpop.
       destruct q1 as [|f1 q1]; cbn in Hpop; injection Hpop as <- Hrest.
       - exists 0%nat. split_and!; [lia| |lia]. split; [lia|]. left. split; [done|]. by exists u.
       - exists (2 * length q1 + 1)%nat. cbn in Hk. split_and!; [lia| |lia]. split; [lia|]. right.
         exists q1, q2, true. rewrite Hrest. by split_and!. }
  3: { destruct Hmv as (Hqq & Haway & Hwake). rewrite Hqq, Hqs in Hq'. destruct (decide (j = i)) as [->|Hne].
       - destruct (Hwake eq_refl) as [Hd0 Hd1]; [rewrite Hqs; by destruct q1|]. rewrite Hd in Hd0. injection Hd0 as ->.
         exists (2 * length q1 + 1)%nat. split_and!; [lia| |lia]. split; [lia|]. right. by exists q1, q2, true.
       - exists (S k). split_and!; [done| |by intros [o [= ->]]]. split; [lia|]. right. exists q1, q2, d.
         rewrite Haway by done. by split_and!. }
  all: exists (S k); split_and!; [done| |by intros [o [= ]]]; split; [lia|]; right.
  - destruct Hmv as ([x Hx] & Hdd). exists q1, (q2 ++ x), d. rewrite Hdd. split_and!; [done..|].
    by rewrite Hx, Hqs, <- app_assoc in Hq'.
  - destruct Hmv as (Hqq & Hdd). exists q1, q2, d. rewrite Hdd, <- Hqs, <- Hqq. by split_and!.
  - destruct Hmv as ([x Hx] & Hdd). exists q1, (q2 ++ x), d. rewrite Hdd. split_and!; [done..|].
    by rewrite Hx, Hqs, <- app_assoc in Hq'.
Qed.

Lemma queued_dispatched e t i q1 f q2 :
  runs e -> (i < n)%nat -> drain_fair e i -> holds_at e t i (q1 ++ f :: q2) ->
  exists t', (t <= t')%nat /\ by_time e t' = Drainer i (Some f).
Proof.
  intros He Hi Hf Hq.
  destruct (lookup_lt_is_Some_2 (draining (at_time e t)) i) as [d Hd].
  { destruct (execution_inv e t He) as (hs & qs & HS). by rewrite (si_draining _ _ _ _ _ _ _ _ _ _ HS). }
  edestruct (fair_progress _ _ (frames_ahead e i f t) Hf) as (u & _ & _ & Hu).
  - intros k u [_ [[? _]|(q & q' & d' & _ & Hd' & Hq')]]; [done|].
    destruct (execution_inv e u He) as (hs & qs & HS). pose proof (inbox_is _ _ _ _ _ HS Hq') as Hqs.
    destruct d'; [by left|]. right. apply (si_wake _ _ _ _ _ _ _ _ _ _ HS i Hi); [rewrite Hqs; by destruct q|done].
  - intros k u. by apply frames_ahead_step.
  - split; [reflexivity|]. right. exists q1, q2, d. by split_and!.
  - destruct Hu as [(_ & ?)|(q & q' & d' & Hk & _)]; [done|]. destruct d'; lia.
Qed.

(* ------------------------------------------------------------------ *)
(** * Every accepted byte is sent *)

(** By [d] moves after [t], [p] is on the socket or a write has failed. *)
Definition flushed (e : execution) (i : nat) (rc : Rc) (t : nat) (p : bytes) (d : nat) : Prop :=
  p `prefix_of` sent_during e i rc t d \/ write_failed e i rc t d.

(** Bytes and wake-ups still ahead of the end of [p]. *)
Definition bytes_ahead (e : execution) (i : nat) (rc : Rc) (t : nat) (p : bytes) (k u : nat) : Prop :=
  exists d, u = (t + d)%nat /\
  (k = 0%nat /\ flushed e i rc t p d \/
   exists st pc rest more, conn_at (at_time e u) i rc st pc /\ pc <> WExit /\
     sent_during e i rc t d ++ rest = p /\ rest <> [] /\ pending st = rest ++ more /\
     k = (2 * length rest + match pc with WWait => 1 | _ => 0 end)%nat).

Lemma sent_by_other a i rc : (forall ok sent, a <> Writer i rc ok sent) -> sent_by a i rc = [].
Proof.
  intros H. destruct a as [j rc' ok sent| |]; [|done..]. cbn. rewrite bool_decide_eq_false_2; [done|].
  intros [-> ->]. by eapply H.
Qed.

Lemma bytes_ahead_step e i rc t p k u :
  runs e -> bytes_ahead e i rc t p (S k) u ->
  exists k', (k' <= S k)%nat /\ bytes_ahead e i rc t p k' (S u) /\
    ((exists ok sent, by_time e u = Writer i rc ok sent) -> (k' < S k)%nat).
Proof.
  intros He (d & -> & [[? _]|(st & pc & rest & more & Hc & Hpc & Hlog & Hrest & Hpend & Hk)]); [done|].
  destruct (execution_inv e (t + d) He) as (hs & qs & HS).
  destruct (move_conn _ _ _ _ _ _ _ _ _ HS (proj2 He (t + d)%nat) Hc) as (st' & pc' & Hc' & Hstep).
  { rewrite Hpend. by destruct rest. }
  assert (sent_during e i rc t (S d) = sent_during e i rc t d ++ sent_by (by_time e (t + d)%nat) i rc) as Hlog'
    by apply sent_during_S.
  destruct Hstep as [(ok & sent & Hby & Hwr)|(-> & Hby & acc & Hacc)].
  2: { exists (S k). split_and!; [done| |by intros (ok & sent & E); destruct (Hby ok sent)].
       exists (S d). split; [lia|]. right. exists st', pc, rest, (more ++ acc).
       rewrite Hlog', sent_by_other, app_nil_r by done. split_and!; try done. by rewrite Hacc, Hpend, <- app_assoc. }
  assert (sent_by (by_time e (t + d)%nat) i rc = sent) as Hs by (rewrite Hby; cbn; by rewrite bool_decide_eq_true_2).
  rewrite Hs in Hlog'. destruct pc; [| |done]; cbn in Hwr.
  - destruct Hwr as (-> & -> & Hp'). exists k. split_and!; [lia| |lia]. exists (S d). split; [lia|]. right.
    exists st', WDrain, rest, more. rewrite Hlog', app_nil_r, Hp'. split_and!; try done. lia.
  - destruct Hwr as (-> & Hne & Hp'). destruct ok.
    2: { exists 0%nat. split_and!; [lia| |lia]. exists (S d). split; [lia|]. left. split; [done|]. right.
         exists (t + d)%nat, sent. split; [lia|done]. }
    rewrite Hpend in Hp'. apply app_eq_inv in Hp' as [(rest' & -> & Hp')|(more' & -> & ->)].
    + destruct (decide (rest' = [])) as [->|Hr].
      * exists 0%nat. split_and!; [lia| |lia]. exists (S d). split; [lia|]. left. split; [done|]. left.
        rewrite Hlog', <- Hlog, app_nil_r. done.
      * exists (2 * length rest')%nat. assert (0 < length sent)%nat by (destruct sent; [done|cbn; lia]).
        rewrite length_app in Hk. split_and!; [lia| |lia]. exists (S d). split; [lia|]. right.
        exists st', WDrain, rest', more. rewrite Hlog', <- app_assoc. split_and!; try done; lia.
    + exists 0%nat. split_and!; [lia| |lia]. exists (S d). split; [lia|]. left. split; [done|]. left.
      rewrite Hlog', <- Hlog, app_assoc. by eexists.
Qed.

Lemma pending_flushed e t i rc st pc :
  runs e -> writer_fair e i rc -> conn_at (at_time e t) i rc st pc -> pc <> WExit ->
  exists d, flushed e i rc t (pending st) d.
Proof.
  intros He Hf Hc Hpc. destruct (decide (pending st = [])) as [Hp|Hp].
  { exists 0%nat. left. rewrite Hp. apply prefix_nil. }
  edestruct (fair_progress _ _ (bytes_ahead e i rc t (pending st)) Hf) as (u & _ & d & -> & Hu).
  - intros k u (d & -> & [[? _]|(st' & pc' & rest & more & Hc' & Hpc' & _ & Hrest & Hpend & _)]); [done|].
    exists st', pc'. split_and!; [done..|]. intros ->.
    destruct (execution_inv e (t + d) He) as (hs & qs & HS).
    destruct (conn_node _ _ _ _ _ _ _ HS Hc') as (_ & _ & _ & _ & _ & _ & _ & _ & _ & _ & Ho). apply Ho.
    left. rewrite Hpend. by destruct rest.
  - intros k u. by apply bytes_ahead_step.
  - exists 0%nat. split; [by rewrite Nat.add_0_r|]. right. exists st, pc, (pending st), [].
    rewrite app_nil_r. by split_and!.
  - destruct Hu as [[_ ?]|(st' & pc' & rest & more & _ & _ & _ & Hr & _ & Hk)]; [by exists d|].
    destruct rest; [done|]. cbn in Hk. lia.
Qed.

(* ------------------------------------------------------------------ *)
(** * Delivery *)

(** The dispatch of [f] at time [t] on shard [i]: it lists every matching
    ungrouped subscription and one member of each matching queue group; every
    live connection with a listed subscription has the message among those
    appended for it, and if there is room for them they all are sent, after
    what was pending, unless a write fails. *)
Definition delivers (e : execution) (i : nat) (f : PublishedFrame) (t : nat) : Prop :=
  exists s toks plain picks, by_time e t = Drainer i (Some f) /\ nodes (at_time e t) !! i = Some s /\
  parse_publisher_subject (ShardInbox.subject f) = Ok toks /\
  (forall tb, refines (table (worker s)) tb ->
    plain ≡ₚ plain_of (table_match toks tb) /\ choice (table_match toks tb) picks) /\
  forall rc st pc buf sid,
    is_Some (readers s !! rc) -> heap (worker s) !! rc = Some st -> writers s !! rc = Some (pc, buf) -> pc <> WExit ->
    (id st, sid) ∈ plain ++ picks.*2 ->
    let text := msg (ShardInbox.subject f) (ShardInbox.reply_to f) (ShardInbox.payload f) sid in
    len text <= len (emit_scratch (worker s)) ->
    let L := mail (ShardInbox.subject f) (ShardInbox.reply_to f) (ShardInbox.payload f) (worker s) rc (id st)
      (plain ++ picks.*2) in
    text ∈ L /\
    (close_with st = None -> outbound_tail st + len (concat L) <= outbound_capacity st ->
      exists d, flushed e i rc (S t) (pending st ++ concat L) d).

Lemma dispatch_delivers e i f t :
  runs e -> (forall rc, writer_fair e i rc) -> by_time e t = Drainer i (Some f) -> delivers e i f t.
Proof.
  intros He Hw Hby. destruct (execution_inv e t He) as (hs & qs & HS). pose proof (proj2 He t) as Hm.
  rewrite Hby in Hm. remember (at_time e t) as S0 eqn:E0. remember (at_time e (S t)) as S1 eqn:E1.
  remember (Drainer i (Some f)) as a eqn:Ea.
  destruct Hm as [|?|ns bx evs dr i' s m m' f' w' res Hd Hs Hm Hp E| | |]; try done. injection Ea as -> ->.
  destruct (server_inv_drain capacity buffer_size allowed Hcap Hbuf scratch box n kbox Hscratch Hn Hbox (fun _ => kbox)
    hs qs ns bx evs dr i s m m' f w' res HS Hd Hs Hm Hp E) as (q & Hq & _).
  pose proof (si_valid _ _ _ _ _ _ _ _ _ _ HS i) as Hv. rewrite Hq in Hv.
  destruct (Forall_cons_1 _ _ _ (Hv ltac:(rewrite <- (si_nodes _ _ _ _ _ _ _ _ _ _ HS); by eapply lookup_lt_Some)))
    as [[Hsl [toks Htoks]] _].
  destruct (node_attach capacity buffer_size allowed Hcap Hbuf scratch box n kbox Hscratch Hn Hbox
    (fun _ => kbox) hs qs _ i s HS Hs) as (_ & tb0 & [Hb Htb _ _]). pose proof (b_good _ Hb) as Hg.
  destruct (dispatch_local_ok (ShardInbox.subject f) (ShardInbox.reply_to f) (ShardInbox.payload f) Hsl
    (worker (attach (<[i := m']> bx) s)) tb0 toks) as (w1 & plain & picks & Ed & Hpl & Hpi & [_ _ Hde]);
    [by destruct Hg|done..|]. rewrite E in Ed. injection Ed as <- ->.
  exists s, toks, plain, picks. rewrite <- E0. split_and!; [done..| |].
  { intros tb Ht. assert (table_match toks tb0 ≡ₚ table_match toks tb) as Hmt
      by (by rewrite <- (refines_matches _ _ toks Htb), <- (refines_matches _ _ toks Ht)).
    split; [rewrite Hpl; unfold plain_of; by rewrite Hmt|by eapply choice_perm]. }
  intros rc st pc buf sid Hrd Hst Hws Hpc Hin text Hfit L. split.
  - by apply (listed_in_mail (attach bx s)).
  - intros Hc Hroom. pose proof (good_heap _ Hg rc st Hst) as Hwf.
    destruct (enqueue_all_room L st Hwf Hc Hroom) as [Hpe _]. rewrite <- Hpe.
    apply (pending_flushed e (S t) i rc _ pc He (Hw rc)); [|done]. rewrite <- E1.
    eapply (conn_moved (mkServer ns bx evs dr)); [by eexists|reflexivity| |exact Hws]. cbn.
    rewrite Hde. cbn. by rewrite Hst.
Qed.

(* ------------------------------------------------------------------ *)
(** * Properties *)

(** Fair writers flush: in every execution of the server in which the
    writer of a connection is run again whenever it has something to do, the
    bytes pending for the connection at any time are handed to its socket, in
    order and before anything accepted later, or a write to the socket fails.
    Slow consumers, closing connections and connections whose reader has
    already gone are no exception. *)
Theorem fair_writers_flush e t i rc st pc :
  runs e -> writer_fair e i rc -> conn_at (at_time e t) i rc st pc -> pc <> WExit ->
  exists d, pending st `prefix_of` sent_during e i rc t d \/ write_failed e i rc t d.
Proof. apply pending_flushed. Qed.

End Fair.

(* ------------------------------------------------------------------ *)
(** * Executions from scripts *)

(** A finite sequence of moves after which nothing happens any more. *)
Section Script.
Context `{N : Notify}.
Variables (capacity buffer_size : Z).
Abbreviation any := (fun (_ : Subscriptions) (_ : Frame.t) => True).
Abbreviation moves := (list (mover * @Server N)).

Fixpoint state_at (S0 : @Server N) (l : moves) (k : nat) : @Server N :=
  match k, l with S k, (_, S1) :: l => state_at S1 l k | _, _ => S0 end.
Fixpoint mover_at (l : moves) (k : nat) : mover :=
  match l, k with [], _ => Other | (a, _) :: _, O => a | _ :: l, S k => mover_at l k end.
Definition scripted (S0 : @Server N) (l : moves) : execution := mkExec (state_at S0 l) (mover_at l).

(** One move of a task, a drain task or (on the right) a writer. *)
Definition run_move (S : @Server N) (i : nat) (x : event + Rc) : option (mover * @Server N) :=
  s ← nodes S !! i;
  draining_i ← draining S !! i;
  m ← boxes S !! i;
  match x, draining_i with
  | inr rc, false =>
      pb ← writers s !! rc;
      r ← finished (writer_step rc true pb.1 pb.2 (worker (attach (boxes S) s)));
      let '(w', (pc', buf', sent)) := r in
      Some (Writer i rc true sent,
        mkServer (<[i := mkShard w' (readers s) (<[rc := (pc', buf')]> (writers s))]> (nodes S))
          (peer_inboxes w') (wake_all (kicks w') (events S)) (draining S))
  | inl Wake, false =>
      v ← events S !! i;
      if 0 <? v then Some (Drainer i None,
        mkServer (nodes S) (boxes S) (<[i := 0]> (events S)) (<[i := true]> (draining S))) else None
  | inl Drain, true =>
      p ← finished (pop m);
      f ← p.2;
      r ← finished (dispatch_local (ShardInbox.subject f) (ShardInbox.reply_to f) (ShardInbox.payload f)
            (worker (attach (<[i := p.1]> (boxes S)) s)));
      Some (Drainer i (Some f), mkServer (<[i := mkShard r.1 (readers s) (writers s)]> (nodes S))
        (<[i := p.1]> (boxes S)) (events S) (draining S))
  | inl Idle, true =>
      p ← finished (pop m);
      match p.2 with
      | Some _ => None
      | None => Some (Drainer i None,
          mkServer (nodes S) (<[i := p.1]> (boxes S)) (events S) (<[i := false]> (draining S)))
      end
  | inl e, false =>
      s' ← run_task capacity buffer_size e (mkShard (worker (attach (boxes S) s)) (readers s) ∅);
      Some (Other, mkServer (<[i := mkShard (worker s') (readers s') (writers s' ∪ writers s)]> (nodes S))
        (peer_inboxes (worker s')) (wake_all (kicks (worker s')) (events S)) (draining S))
  | _, _ => None
  end.

Fixpoint run_moves (S : @Server N) (script : list (nat * (event + Rc))) : option moves :=
  match script with
  | [] => Some []
  | (i, x) :: script => r ← run_move S i x; l ← run_moves r.2 script; Some (r :: l)
  end.

Lemma run_move_sound S i x a S' : run_move S i x = Some (a, S') -> move capacity buffer_size any a S S'.
Proof.
  destruct S as [ns bx evs dr]. unfold run_move. cbn [nodes boxes events draining].
  intros (s & Hs & E)%bind_Some. apply bind_Some in E as (d & Hd & E). apply bind_Some in E as (m & Hm & E).
  assert (forall e, (s' ← run_task capacity buffer_size e (mkShard (worker (attach bx s)) (readers s) ∅);
      Some (Other, mkServer (<[i := mkShard (worker s') (readers s') (writers s' ∪ writers s)]> ns)
        (peer_inboxes (worker s')) (wake_all (kicks (worker s')) evs) dr)) = Some (a, S') ->
    d = false -> move capacity buffer_size any a (mkServer ns bx evs dr) S') as Htask.
  { intros e (s' & Et%run_task_sound & [= <- <-])%bind_Some ->. destruct s'. by eapply move_task. }
  destruct x as [[]|rc], d; try discriminate; try by eapply Htask.
  - apply bind_Some in E as (v & Hv & E). destruct (Z.ltb_spec 0 v); [|done]. injection E as <- <-. by eapply move_wake.
  - apply bind_Some in E as ([m' o] & Hp%finished_Some & E). apply bind_Some in E as (f & Hf & E). cbn in Hf. subst o.
    apply bind_Some in E as ([w' res] & Ed%finished_Some & [= <- <-]). by eapply move_drain.
  - apply bind_Some in E as ([m' [f|]] & Hp%finished_Some & E); [done|]. injection E as <- <-. by eapply move_idle.
  - apply bind_Some in E as ([pc buf] & Hw & E). apply bind_Some in E as ([w' [[pc' buf'] sent]] & Ew%finished_Some & E).
    injection E as <- <-. by eapply move_write.
Qed.

Lemma run_moves_sound script S l :
  run_moves S script = Some l -> execution_of capacity buffer_size any S (scripted S l).
Proof.
  intros H. split; [by destruct l as [|[]]|]. intros t. cbn. revert S l t H.
  induction script as [|[i x] script IH]; intros S l t; cbn.
  { intros [= <-]. by destruct t; apply move_rest. }
  intros ([a S1] & Hm%run_move_sound & E)%bind_Some. apply bind_Some in E as (l' & El & [= <-]).
  destruct t as [|t]; cbn; [by destruct l' as [|[]]|]. exact (IH S1 l' t El).
Qed.

(** The moves of a script that runs to its end. *)
Definition moves_of (S : @Server N) (script : list (nat * (event + Rc))) : moves := default [] (run_moves S script).
Lemma moves_of_sound S script :
  bool_decide (is_Some (run_moves S script)) = true ->
  execution_of capacity buffer_size any S (scripted S (moves_of S script)).
Proof.
  intros [l Hl]%bool_decide_eq_true. unfold moves_of. rewrite Hl. by apply run_moves_sound in Hl.
Qed.

(** The state at the end, and that nothing is ready there. *)
Lemma scripted_end S l k : state_at S l (length l + k) = state_at S l (length l).
Proof. revert S. induction l as [|[a S1] l IH]; intros S; cbn; [by destruct k|apply IH]. Qed.

Definition parked (s : Shard N) : bool :=
  forallb (fun x => match x with
    | (rc, (WWait, _)) => match heap (worker s) !! rc with Some st => negb (woken (notify_ st)) | None => true end
    | (_, (WDrain, _)) => false
    | (_, (WExit, _)) => true end) (map_to_list (writers s)).
Definition quiet (S : @Server N) : bool :=
  forallb parked (nodes S) && forallb (fun v => v <=? 0) (events S) && forallb negb (draining S).

Lemma quiet_writers S i rc : quiet S = true -> ~ writer_ready i rc S.
Proof.
  unfold quiet. rewrite !andb_true_iff. intros [[Hp _] _] (st & pc & (s & buf & Hs & Hst & Hw) & Hpc & Hwo).
  rewrite forallb_forall in Hp. specialize (Hp s (proj1 (list_elem_of_In _ _) (list_elem_of_lookup_2 _ _ _ Hs))).
  unfold parked in Hp. rewrite forallb_forall in Hp.
  specialize (Hp (rc, (pc, buf)) (proj1 (list_elem_of_In _ _) (proj2 (elem_of_map_to_list _ _ _) Hw))). cbn in Hp.
  destruct pc; [|done..]. rewrite Hst, Hwo in Hp by done. done.
Qed.
Lemma quiet_drains S i : quiet S = true -> ~ drain_ready i S.
Proof.
  unfold quiet. rewrite !andb_true_iff. intros [[_ He] Hd] [H|(v & Hv & Hpos)]; rewrite forallb_forall in He, Hd.
  - by specialize (Hd true (proj1 (list_elem_of_In _ _) (list_elem_of_lookup_2 _ _ _ H))).
  - specialize (He v (proj1 (list_elem_of_In _ _) (list_elem_of_lookup_2 _ _ _ Hv))). apply Z.leb_le in He. lia.
Qed.

Lemma quiet_fair (ready : @Server N -> Prop) turn S l :
  ~ ready (state_at S l (length l)) -> fair (fun t => ready (at_time (scripted S l) t)) turn.
Proof.
  intros H t _. exists (length l + t)%nat. split; [lia|]. right. cbn. by rewrite scripted_end.
Qed.
End Script.

(* ------------------------------------------------------------------ *)
(** * A publication across two shards, to the socket *)

Module Across.
#[local] Existing Instance permit_notify.
Definition writes (i k : nat) : list (nat * (event + Rc)) := replicate k (i, inr 0%nat).
Definition script : list (nat * (event + Rc)) :=
  [(0, inl (Accept 0)); (0, inl (Greet 0)); (1, inl (Accept 0)); (1, inl (Greet 0));
   (1, inl (Input 0 (Two.line "SUB a 8"))); (0, inl (Input 0 (Two.line "PUB a 2" ++ Two.line "hi")));
   (1, inl Wake); (1, inl Drain); (1, inl Idle)]%nat ++ writes 0 5 ++ writes 1 5.
Definition moved : list (mover * @Server permit_notify) := moves_of 256 64 Two.start script.
Definition e : execution := scripted Two.start moved.

Lemma e_runs : execution_of 256 64 (fun _ _ => True) Two.start e.
Proof. apply moves_of_sound. by vm_compute. Qed.
Lemma e_quiet : quiet (state_at Two.start moved (length moved)) = true.
Proof. by vm_compute. Qed.
Lemma e_writers i rc : writer_fair e i rc.
Proof. apply (quiet_fair (writer_ready i rc)). by apply quiet_writers, e_quiet. Qed.
Lemma e_drains i : drain_fair e i.
Proof. apply (quiet_fair (drain_ready i)). by apply quiet_drains, e_quiet. Qed.

Definition node (i t : nat) : Shard permit_notify := default (initial 64 0 []) (nodes (at_time e t) !! i).
Definition cell (i t : nat) : ConnectionState permit_notify :=
  default (ConnState.new (ConnectionId.new 0) 0) (heap (worker (node i t)) !! 0%nat).
Definition w5 : Worker permit_notify :=
  worker (attach (boxes (at_time e 5)) (node 0 5)).
Definition w6 : Worker permit_notify :=
  Run.result_of w5 (handle_frame (fun _ => []) (Frame.Pub (bs "a") None (bs "hi")) 0 ∅ w5).
Lemma empty_boxes i : (i < 2)%nat -> inbox_holds 1 (at_time e 5) i [].
Proof. intros H. exists Ex.inbox, 0. split; [|exact Ex.inbox_holds]. by destruct i as [|[|i]]; [vm_compute..|lia]. Qed.
End Across.

Lemma fair_writers_flush_witness :
  exists d, pending (Across.cell 1 8) `prefix_of` sent_during Across.e 1 0 8 d \/
    write_failed Across.e 1 0 8 d.
Proof.
  apply (fair_writers_flush (N := permit_notify) (NL := permit_laws) 256 64 (fun _ _ => True)
    ltac:(done) ltac:(done) 64 Ex.inbox 2 1 ltac:(done) ltac:(done) Ex.inbox_holds Across.e 8 1 0
    (Across.cell 1 8) WWait Across.e_runs (Across.e_writers 1 0)); [|done].
  exists (Across.node 1 8), (zeroed 64). split_and!; by vm_compute.
Defined.

