(* ===== verification/Threads.v ===== *)
(** The server at the granularity of single atomic accesses: the shards'
    threads, each inside [handle_pub]'s loop over the peers, inside a [push],
    inside [drain_task]'s loop or at an [await], interleaved access by access.

    [Server] takes a whole [PUB], pushes included, as one step, and a [pop] as
    another; here the accesses of [InboxConc] are the steps, so that a drain
    task can run between two accesses of a push, a push can lose its slot to
    another, and a [pop] can find the head claimed but not yet published.  The
    shards are still those of [Broker]: a thread stutters while it pushes. *)
From Stdlib Require Import ZArith Lia Strings.Byte.
From stdpp Require Import functions base gmap list strings relations.
From S2P Require Import Prelude EventFd ShardInbox InboxConc Subject Trie TrieSpec ConnState Wire Parse Emit Worker Dispatch DispatchSpec Session SessionSpec Broker Server ServerRun.

(* ------------------------------------------------------------------ *)
(** * [handle_pub], cut at the pushes *)

Section Phases.
Context `{N : Notify}.
Variables (subject : bytes) (reply_to : option bytes) (payload : bytes).

(** Up to the loop over the peers; [None] when there is none. *)
Definition begin_pub (state : Rc) : M (option PublishedFrame) :=
  r ← dispatch_local subject reply_to payload;
  match r with
  | Err e => _ ← emit_err_to state (subject_error_text e); mret None
  | Ok _ =>
      count ← gets shard_count;
      mret (if 1 <? count then Some (mkPublished subject reply_to payload) else None)
  end.
(** The arm of [handle_frame], up to the same point. *)
Definition begin_frame (state : Rc) : M (option PublishedFrame) :=
  if MAX_PAYLOAD_BYTES <? len payload then
    _ ← emit_err_to state (bs "maximum payload exceeded"); mret None
  else begin_pub state.
(** After the loop. *)
Definition end_pub (state : Rc) (back_pressure_seen : bool) : M unit :=
  if back_pressure_seen then emit_err_to state (bs "shard back-pressure") else mret tt.

(** Nothing is lost in the cut. *)
Lemma handle_frame_phases weak state subs w :
  handle_frame weak (Frame.Pub subject reply_to payload) state subs w =
  (o ← begin_frame state;
   match o with
   | None => mret subs
   | Some frame =>
       count ← gets shard_count;
       back_pressure_seen ← push_peers weak frame (List.seq 0 (Z.to_nat count)) false;
       _ ← end_pub state back_pressure_seen;
       mret subs
   end) w.
Proof.
  cbn [handle_frame]. unfold begin_frame, begin_pub, handle_pub, end_pub, mbind, M_bind, mret, M_ret, gets.
  destruct (MAX_PAYLOAD_BYTES <? len payload).
  { by destruct (emit_err_to _ _ w) as [[]|]. }
  destruct (dispatch_local _ _ _ w) as [[w1 [u|e]]|]; [| |done].
  - destruct (1 <? shard_count w1); [|done].
    destruct (push_peers _ _ _ _ w1) as [[w2 []]|]; [|done..]. by destruct (emit_err_to _ _ w2) as [[]|].
  - by destruct (emit_err_to _ _ w1) as [[]|].
Qed.
End Phases.

(* ------------------------------------------------------------------ *)
(** * What does not look at the inboxes *)

Section Boxless.
Context `{N : Notify}.

(** The worker with other inboxes and kicks. *)
Definition rebox (bx : list (ShardInbox PublishedFrame)) (ks : list nat) (w : Worker N) : Worker N :=
  set_kicks (set_peer_inboxes w bx) ks.

Definition boxless {A} (m : M A) : Prop := forall bx ks w,
  m (rebox bx ks w) = match m w with Done (w', a) => Done (rebox bx ks w', a) | Panic => Panic end.

Lemma boxless_ret {A} (a : A) : boxless (mret a).
Proof. done. Qed.
Lemma boxless_bind {A B} (m : M A) (f : A -> M B) :
  boxless m -> (forall a, boxless (f a)) -> boxless (a ← m; f a).
Proof.
  intros Hm Hf bx ks w. unfold mbind, M_bind. rewrite Hm. destruct (m w) as [[w' a]|]; [|done]. apply Hf.
Qed.
Lemma boxless_gets {A} (f : Worker N -> A) : (forall bx ks w, f (rebox bx ks w) = f w) -> boxless (gets f).
Proof. intros H bx ks w. unfold gets. by rewrite H. Qed.
Lemma boxless_modify f : (forall bx ks w, f (rebox bx ks w) = rebox bx ks (f w)) -> boxless (modify f).
Proof. intros H bx ks w. unfold modify. by rewrite H. Qed.
Lemma boxless_lift {A} (r : run A) : boxless (lift r).
Proof. intros bx ks w. unfold lift. by destruct r. Qed.
Lemma boxless_deref rc : boxless (deref rc).
Proof. intros bx ks w. unfold deref. cbn. by destruct (heap w !! rc). Qed.
Lemma boxless_assign rc st : boxless (assign rc st).
Proof. by apply boxless_modify. Qed.
Lemma boxless_enqueue rc b : boxless (enqueue_rc rc b).
Proof.
  apply boxless_bind; [apply boxless_deref|]. intros st. apply boxless_bind; [apply boxless_lift|]. intros [st' o].
  apply boxless_bind; [apply boxless_assign|]. intros _. apply boxless_ret.
Qed.
Lemma boxless_emit rc n e : boxless (emit_to rc n e).
Proof.
  apply boxless_bind; [apply boxless_lift|]. intros [buf [k|]]; [|apply boxless_ret].
  apply boxless_bind; [apply boxless_lift|]. intros b.
  apply boxless_bind; [apply boxless_enqueue|]. intros _. apply boxless_ret.
Qed.
End Boxless.

Create HintDb boxless.
#[export] Hint Resolve boxless_ret boxless_lift boxless_deref boxless_assign boxless_enqueue boxless_emit : boxless.

(** Follows the commands of a sequence. *)
Ltac boxless := repeat first
  [ progress intros | apply boxless_bind | solve [eauto with boxless] | apply boxless_gets; done
  | apply boxless_modify; done | case_match ].

Section Dispatching.
Context `{N : Notify}.

Lemma boxless_deliver s r p to : boxless (N := N) (deliver s r p to).
Proof. unfold deliver, lookup_conn. boxless. Qed.
Lemma boxless_plain s r p l : boxless (N := N) (deliver_plain s r p l).
Proof. induction l as [|to l IH]; cbn [deliver_plain]; boxless; auto using boxless_deliver. Qed.
Lemma boxless_groups s r p l : boxless (N := N) (deliver_groups s r p l).
Proof.
  induction l as [|[g ms] l IH]; cbn [deliver_groups]; unfold pick_index; boxless; auto using boxless_deliver.
Qed.
Lemma boxless_dispatch s r p : boxless (N := N) (dispatch_local s r p).
Proof. unfold dispatch_local. boxless; auto using boxless_plain, boxless_groups. Qed.
Lemma boxless_end rc bp : boxless (N := N) (end_pub rc bp).
Proof. unfold end_pub, emit_err_to. boxless. Qed.
End Dispatching.

(* ------------------------------------------------------------------ *)
(** * Threads *)

(** Where the thread of a shard is: at an [await] of one of its tasks; in the
    loop of [handle_pub], before the next peer or inside the push to peer [i];
    in the loop of [drain_task]. *)
Inductive thread : Type :=
| Running
| Publishing (state : Rc) (frame : PublishedFrame) (peers : list nat) (back_pressure_seen : bool)
| InPush (state : Rc) (frame : PublishedFrame) (i : nat) (peers : list nat) (back_pressure_seen : bool)
| Draining.

Section Machine.
Context `{N : Notify}.
Variables (capacity buffer_size : Z).
Variable allowed : Subscriptions -> Frame.t -> Prop.

(** [rings] are the inboxes with the pushes and the [pop] under way on them
    and their eventfds; the producer of a push is named after its shard. *)
Record Machine : Type := mkMachine {
  cores : list (Shard N);
  threads : list thread;
  rings : list (Sys PublishedFrame);
}.

Definition no_pub (subs : Subscriptions) (f : Frame.t) : Prop := allowed subs f /\ is_pub f = false.
Definition refuses (r : result bool PublishedFrame) : bool := match r with Err _ => true | Ok _ => false end.

(** A step of the thread of shard [j]. *)
Inductive thread_step (j : nat) : Machine -> Machine -> Prop :=
(** A task that publishes nothing, from one [await] to the next. *)
| thread_task cs ths rs s s' :
    cs !! j = Some s -> ths !! j = Some Running -> task capacity buffer_size no_pub s s' ->
    thread_step j (mkMachine cs ths rs) (mkMachine (<[j := s']> cs) ths rs)
(** A [PUB]: local delivery. *)
| thread_publish cs ths rs s rc subs subject reply_to payload w' o :
    cs !! j = Some s -> ths !! j = Some Running -> readers s !! rc = Some (RLoop subs) ->
    frame_wf (Frame.Pub subject reply_to payload) -> allowed subs (Frame.Pub subject reply_to payload) ->
    total_subscriptions (table (worker s)) < usize_max ->
    begin_frame subject reply_to payload rc (worker s) = Done (w', o) ->
    thread_step j (mkMachine cs ths rs)
      (mkMachine (<[j := mkShard w' (readers s) (writers s)]> cs)
        (<[j := match o with
                | Some f => Publishing rc f (List.seq 0 (length (peer_inboxes w'))) false
                | None => Running end]> ths) rs)
(** [if i == our_idx { continue; }] *)
| thread_skip cs ths rs rc f ps bp :
    ths !! j = Some (Publishing rc f (j :: ps) bp) ->
    thread_step j (mkMachine cs ths rs) (mkMachine cs (<[j := Publishing rc f ps bp]> ths) rs)
(** [inbox.push(frame)]: the call, its accesses, and its return with the
    [wake()] it asks for. *)
| thread_call cs ths rs rc f i ps bp r r' :
    ths !! j = Some (Publishing rc f (i :: ps) bp) -> i <> j ->
    rs !! i = Some r -> act_step (APush j f) r = Done r' ->
    thread_step j (mkMachine cs ths rs) (mkMachine cs (<[j := InPush rc f i ps bp]> ths) (<[i := r']> rs))
| thread_access cs ths rs rc f i ps bp r pc spurious r' :
    ths !! j = Some (InPush rc f i ps bp) -> rs !! i = Some r ->
    producers r !! j = Some (f, pc) -> (forall o, pc <> PReturn o) ->
    act_step (AProducer j spurious) r = Done r' ->
    thread_step j (mkMachine cs ths rs) (mkMachine cs ths (<[i := r']> rs))
| thread_return cs ths rs rc f i ps bp r o spurious r' :
    ths !! j = Some (InPush rc f i ps bp) -> rs !! i = Some r ->
    producers r !! j = Some (f, PReturn o) -> act_step (AProducer j spurious) r = Done r' ->
    thread_step j (mkMachine cs ths rs)
      (mkMachine cs (<[j := Publishing rc f ps (bp || refuses o)]> ths) (<[i := r']> rs))
(** After the loop. *)
| thread_end cs ths rs s rc f bp w' :
    cs !! j = Some s -> ths !! j = Some (Publishing rc f [] bp) -> end_pub rc bp (worker s) = Done (w', tt) ->
    thread_step j (mkMachine cs ths rs)
      (mkMachine (<[j := mkShard w' (readers s) (writers s)]> cs) (<[j := Running]> ths) rs)
(** [drain_task]: the eventfd read returns; the accesses of [pop]; a frame is
    dispatched; the inbox looks empty. *)
| thread_wake cs ths rs r r' :
    ths !! j = Some Running -> rs !! j = Some r -> consumer r = DWait -> 0 < eventfd r ->
    act_step AConsumer r = Done r' ->
    thread_step j (mkMachine cs ths rs) (mkMachine cs (<[j := Draining]> ths) (<[j := r']> rs))
| thread_pop cs ths rs r pc r' :
    ths !! j = Some Draining -> rs !! j = Some r -> consumer r = DPop pc -> (forall o, pc <> CReturn o) ->
    act_step AConsumer r = Done r' ->
    thread_step j (mkMachine cs ths rs) (mkMachine cs ths (<[j := r']> rs))
| thread_dispatch cs ths rs s r f r' w' res :
    cs !! j = Some s -> ths !! j = Some Draining -> rs !! j = Some r -> consumer r = DPop (CReturn (Some f)) ->
    act_step AConsumer r = Done r' ->
    dispatch_local (ShardInbox.subject f) (ShardInbox.reply_to f) (ShardInbox.payload f) (worker s) = Done (w', res) ->
    thread_step j (mkMachine cs ths rs) (mkMachine (<[j := mkShard w' (readers s) (writers s)]> cs) ths (<[j := r']> rs))
| thread_sleep cs ths rs r r' :
    ths !! j = Some Draining -> rs !! j = Some r -> consumer r = DPop (CReturn None) ->
    act_step AConsumer r = Done r' ->
    thread_step j (mkMachine cs ths rs) (mkMachine cs (<[j := Running]> ths) (<[j := r']> rs)).

Definition machine_step (S S' : Machine) : Prop := exists j, thread_step j S S'.

Definition machine_initial (scratch : Z) (box : ShardInbox PublishedFrame) (n : nat) : Machine :=
  mkMachine ((fun i => initial scratch (Z.of_nat i) (replicate n box)) <$> List.seq 0 n)
    (replicate n Running) (replicate n (start box)).
End Machine.
Arguments Machine N : clear implicits.

(* ------------------------------------------------------------------ *)
(** * A thread's shard is a shard of [Broker] *)

Section Shards.
Context `{N : Notify}.

Lemma rebox_self (w : Worker N) : rebox (peer_inboxes w) (kicks w) w = w.
Proof. by destruct w. Qed.
Lemma rebox_rebox bx ks bx' ks' (w : Worker N) : rebox bx ks (rebox bx' ks' w) = rebox bx ks w.
Proof. done. Qed.
Lemma boxless_keeps {A} (m : M (N := N) A) w w' a :
  boxless m -> m w = Done (w', a) -> peer_inboxes w' = peer_inboxes w /\ kicks w' = kicks w.
Proof.
  intros Hm E. specialize (Hm (peer_inboxes w) (kicks w) w). rewrite rebox_self, E in Hm.
  injection Hm as Hw. rewrite Hw. done.
Qed.
Lemma boxless_rebox {A} (m : M (N := N) A) bx ks w w' a :
  boxless m -> m w = Done (w', a) -> m (rebox bx ks w) = Done (rebox bx ks w', a).
Proof. intros Hm E. by rewrite Hm, E. Qed.

(** [begin_frame] only asks how many inboxes there are. *)
Lemma begin_frame_rebox subject reply_to payload rc bx ks (w w' : Worker N) o :
  length bx = length (peer_inboxes w) -> begin_frame subject reply_to payload rc w = Done (w', o) ->
  begin_frame subject reply_to payload rc (rebox bx ks w) = Done (rebox bx ks w', o) /\
  peer_inboxes w' = peer_inboxes w /\ kicks w' = kicks w.
Proof.
  intros Hl. unfold begin_frame. destruct (MAX_PAYLOAD_BYTES <? len payload).
  { intros E. split; [by apply boxless_rebox; [unfold emit_err_to; boxless|]|].
    eapply boxless_keeps; [|exact E]. unfold emit_err_to; boxless. }
  unfold begin_pub, mbind, M_bind. destruct (dispatch_local subject reply_to payload w) as [[w1 r]|] eqn:Ed; [|done].
  rewrite (boxless_rebox _ bx ks w w1 r (boxless_dispatch _ _ _) Ed).
  destruct (boxless_keeps _ w w1 r (boxless_dispatch _ _ _) Ed) as [Hb Hk].
  destruct r as [u|e].
  - unfold gets, shard_count. cbn. intros [= <- <-]. rewrite Hb. unfold len. by rewrite Hl.
  - destruct (emit_err_to rc (subject_error_text e) w1) as [[w2 v]|] eqn:Ee; [|done]. intros [= <- <-].
    assert (boxless (N := N) (emit_err_to rc (subject_error_text e))) as He by (unfold emit_err_to; boxless).
    rewrite (boxless_rebox _ bx ks w1 w2 v He Ee).
    destruct (boxless_keeps _ w1 w2 v He Ee) as [Hb2 Hk2]. by rewrite Hb2, Hk2.
Qed.

(** A publication goes on to the peers only if its subject is valid. *)
Lemma begin_frame_some subject reply_to payload rc (w w' : Worker N) f :
  slice_ok payload -> begin_frame subject reply_to payload rc w = Done (w', Some f) ->
  f = mkPublished subject reply_to payload /\ frame_valid f /\ 1 < len (peer_inboxes w).
Proof.
  intros Hsl. unfold begin_frame. destruct (MAX_PAYLOAD_BYTES <? len payload).
  { unfold mbind, M_bind. by destruct (emit_err_to _ _ w) as [[]|]. }
  unfold begin_pub, mbind, M_bind. destruct (dispatch_local subject reply_to payload w) as [[w1 r]|] eqn:Ed; [|done].
  destruct (boxless_keeps _ w w1 r (boxless_dispatch _ _ _) Ed) as [Hb _].
  destruct r as [u|e]; [|by destruct (emit_err_to _ _ w1) as [[]|]].
  unfold gets, shard_count. rewrite Hb. cbn. destruct (Z.ltb_spec 1 (len (peer_inboxes w))); [|done].
  intros [= <- <-]. split_and!; [done| |done]. split; [done|].
  destruct (parse_publisher_subject subject) as [toks|e] eqn:Ep; [by exists toks|].
  by rewrite (dispatch_local_err subject reply_to payload w e Ep) in Ed.
Qed.

Variables (capacity buffer_size : Z).
Variable allowed : Subscriptions -> Frame.t -> Prop.
Hypothesis Hcap : 0 <= capacity <= isize_max.
Hypothesis Hbuf : 64 <= buffer_size <= isize_max.
Context `{NL : !NotifyLaws N}.
Variables (scratch : Z) (box : ShardInbox PublishedFrame) (n : nat) (kbox : Z).
Hypothesis Hscratch : 0 <= scratch <= isize_max.
Hypothesis Hn : Z.of_nat n <= 2 ^ 32.
Hypothesis Hbox : holds box kbox 0 [].

Abbreviation reaches i s :=
  (rtc (step capacity buffer_size allowed) (initial scratch (Z.of_nat i) (replicate n box)) s).

Lemma task_mono (P Q : Subscriptions -> Frame.t -> Prop) (s s' : Shard N) :
  (forall subs f, P subs f -> Q subs f) -> task capacity buffer_size P s s' -> task capacity buffer_size Q s s'.
Proof.
  intros H Ht. destruct Ht; [eapply task_accept|eapply task_refuse|eapply task_greet|eapply task_frame
    |eapply task_close|eapply task_exit|eapply task_write]; eauto.
Qed.

Lemma reaches_inv i s : (i < n)%nat -> reaches i s -> exists tb, inv s tb.
Proof.
  intros Hi Hr. edestruct (reachable_inv capacity buffer_size scratch (Z.of_nat i) (replicate n box)
    allowed Hcap Hbuf Hscratch) as (tb & Ht & _); [unfold u32_max; lia| |exact Hr|by exists tb].
  apply Forall_replicate. eauto.
Qed.
(** A shard keeps its identifier and the number of its peers. *)
Lemma reaches_static i s : (i < n)%nat -> reaches i s ->
  shard_id (worker s) = Z.of_nat i /\ length (peer_inboxes (worker s)) = n.
Proof.
  intros Hi. revert s. apply rtc_ind_r; [cbn; by rewrite length_replicate|]. intros s1 s2 Hr Hs [I1 I2].
  destruct (reaches_inv i s1 Hi Hr) as [tb Hv]. destruct Hs as [s1 s2 Ht|s1 s2 He].
  - destruct (inboxes_all_hold (worker s1)) as (ks & hs & qs & Ha); [apply Hv|].
    destruct (task_linked capacity buffer_size allowed s1 s2 tb ks hs qs Hv Ht Ha) as [L1 _ L2 _]. split; congruence.
  - destruct He as [w rs ws bx ks Hb Hl|w rs ws f m k h q m' w' res Hm Hh Hp Hsl E]; cbn in *.
    + split; congruence.
    + destruct Hv as [[Hg _ _ _ _ _ _ _] Ht _ _]. cbn in *.
      edestruct (dispatch_any (set_peer_inboxes w (<[Z.to_nat (shard_id w) := m']> (peer_inboxes w))) tb)
        as (w1 & r & E1 & _ & Hio & _); [by destruct Hg|exact Ht|exact Hsl|]. rewrite E in E1. injection E1 as <- _.
      rewrite (oio_shard _ _ Hio), (oio_inboxes _ _ Hio). cbn. by rewrite length_insert.
Qed.

(** Other inboxes, as long as they are rings. *)
Lemma reaches_rebox i s bx ks :
  (i < n)%nat -> reaches i s -> length bx = n -> Forall (fun m => exists k h q, holds m k h q) bx ->
  reaches i (mkShard (rebox bx ks (worker s)) (readers s) (writers s)).
Proof.
  intros Hi Hr Hl Hb. destruct (reaches_static i s Hi Hr) as [_ Hs]. destruct s as [w rs ws].
  eapply rtc_r; [exact Hr|]. apply step_exchange, exchange_peers; [exact Hb|]. cbn in *. congruence.
Qed.

(** A ring that is full. *)
Lemma full_ring : exists (m : ShardInbox PublishedFrame) q, holds m 1 0 q /\ len q = 2.
Proof.
  set (f := mkPublished [] None []).
  pose proof (holds_pushed _ _ _ _ f Ex.inbox_holds ltac:(done)) as H1.
  pose proof (holds_pushed _ _ _ _ f H1 ltac:(done)) as H2. by eexists _, _.
Qed.

(** Inboxes that answer the pushes of a publication with [bp]. *)
Lemma answering_boxes bp : exists (m : ShardInbox PublishedFrame) k q, holds m k 0 q /\ (2 ^ k <=? len q) = bp.
Proof.
  destruct bp.
  - destruct full_ring as (m & q & Hm & Hq). exists m, 1, q. split; [done|]. by rewrite Hq.
  - exists box, kbox, []. split; [done|]. pose proof (pow_bounds _ (h_k _ _ _ _ Hbox)).
    change (len []) with 0. apply Z.leb_gt. lia.
Qed.

(** A whole publication, however long its pushes took and whatever they
    returned, is one step of the shard. *)
Lemma publication_reaches i s rc subs subject reply_to payload w f bp w' :
  (i < n)%nat -> reaches i s -> readers s !! rc = Some (RLoop subs) ->
  frame_wf (Frame.Pub subject reply_to payload) -> allowed subs (Frame.Pub subject reply_to payload) ->
  total_subscriptions (table (worker s)) < usize_max ->
  begin_frame subject reply_to payload rc (worker s) = Done (w, Some f) -> end_pub rc bp w = Done (w', tt) ->
  reaches i (mkShard w' (readers s) (writers s)).
Proof.
  intros Hi Hr Hrd Hf Hal Htot Eb Ee. destruct (reaches_static i s Hi Hr) as [Hid Hlen].
  pose proof (begin_frame_some _ _ _ _ _ _ _ ltac:(by destruct Hf as (_ & _ & ?)) Eb) as (_ & _ & Hmany).
  destruct (answering_boxes bp) as (m & k & q & Hm & Hq). set (bx := replicate n m).
  assert (length bx = n) as Hbl by apply length_replicate.
  destruct (begin_frame_rebox subject reply_to payload rc bx [] (worker s) w (Some f)) as (Eb' & Hb & Hk); [congruence|done|].
  destruct (boxless_keeps _ _ _ _ (boxless_end rc bp) Ee) as [Hb' Hk'].
  destruct (push_peers_spec (fun _ => []) f (List.seq 0 n) false (rebox bx [] w) (fun _ => k) (fun _ => 0) (fun _ => q))
    as (w2 & Ep & (bx2 & ks2 & -> & _) & _).
  { apply NoDup_ListNoDup, List.seq_NoDup. }
  { apply Forall_forall. intros j Hj. apply elem_of_seq in Hj. cbn. lia. }
  { intros j m' Hj. apply lookup_replicate in Hj as [<- _]. done. }
  assert (refused (shard_id (rebox bx [] w)) (fun _ => k) (fun _ => q) (List.seq 0 n) = bp) as Hbp.
  { unfold refused. rewrite Hq. destruct bp.
    - apply existsb_exists. exists (if decide (shard_id w = 0%Z) then 1 else 0)%nat. split.
      + apply in_seq. unfold len in Hmany. case_decide; lia.
      + rewrite andb_true_r. apply negb_true_iff, Z.eqb_neq. cbn. case_decide; lia.
    - apply not_true_iff_false. intros (j & _ & Hj)%existsb_exists. by rewrite andb_false_r in Hj. }
  rewrite Hbp in Ep. cbn [orb] in Ep.
  assert (handle_frame (fun _ => []) (Frame.Pub subject reply_to payload) rc subs (rebox bx [] (worker s)) =
    Done (rebox bx2 ks2 w', subs)) as E.
  { rewrite handle_frame_phases. erewrite M_bind_done by exact Eb'. cbn beta iota.
    erewrite M_bind_done by reflexivity. unfold shard_count. cbn [peer_inboxes rebox set_kicks set_peer_inboxes].
    rewrite to_nat_len, Hbl. erewrite M_bind_done by exact Ep.
    erewrite M_bind_done by (apply (boxless_rebox _ bx2 ks2 w w' tt (boxless_end rc bp) Ee)). done. }
  assert (reaches i (mkShard (rebox bx2 ks2 w') (readers s) (writers s))) as Hr2.
  { eapply rtc_r; [apply (reaches_rebox i s bx []); [done..|]|].
    - apply Forall_replicate. eauto.
    - apply step_task.
      pose proof (task_frame capacity buffer_size allowed (rebox bx [] (worker s)) (readers s) (writers s) rc subs _
        _ _ _ Hrd Hf Hal Htot E) as Ht. by rewrite insert_id in Ht. }
  pose proof (reaches_rebox i _ (peer_inboxes w') (kicks w') Hi Hr2) as Hr3. cbn [worker readers writers] in Hr3.
  rewrite rebox_rebox, rebox_self in Hr3. destruct (reaches_inv i s Hi Hr) as [tb Hv].
  apply Hr3; rewrite Hb', Hb; [done|apply Hv].
Qed.

(** A [PUB] that is not passed on. *)
Lemma rejected_reaches i s rc subs subject reply_to payload w' :
  reaches i s -> readers s !! rc = Some (RLoop subs) ->
  frame_wf (Frame.Pub subject reply_to payload) -> allowed subs (Frame.Pub subject reply_to payload) ->
  total_subscriptions (table (worker s)) < usize_max ->
  begin_frame subject reply_to payload rc (worker s) = Done (w', None) ->
  reaches i (mkShard w' (readers s) (writers s)).
Proof.
  intros Hr Hrd Hf Hal Htot Eb. eapply rtc_r; [exact Hr|]. apply step_task. destruct s as [w rs ws]. cbn [worker readers writers] in *.
  assert (handle_frame (fun _ => []) (Frame.Pub subject reply_to payload) rc subs w = Done (w', subs)) as E
    by (rewrite handle_frame_phases; by erewrite M_bind_done by exact Eb).
  pose proof (task_frame capacity buffer_size allowed w rs ws rc subs _ _ _ _ Hrd Hf Hal Htot E) as Ht.
  by rewrite insert_id in Ht.
Qed.

(** A frame the drain task took from the inbox, whatever else the inbox
    held. *)
Lemma dispatch_reaches i s f w' res :
  (i < n)%nat -> reaches i s -> frame_valid f ->
  dispatch_local (ShardInbox.subject f) (ShardInbox.reply_to f) (ShardInbox.payload f) (worker s) = Done (w', res) ->
  reaches i (mkShard w' (readers s) (writers s)).
Proof.
  intros Hi Hr [Hsl _] E. destruct (reaches_static i s Hi Hr) as [Hid Hlen].
  pose proof (pow_bounds _ (h_k _ _ _ _ Hbox)) as Hk.
  pose proof (holds_pushed _ _ _ _ f Hbox ltac:(change (len []) with 0; lia)) as Hm. cbn [app] in Hm.
  set (m := pushed box kbox 0 [] f) in *. pose proof (pop_spec m kbox 0 f [] Hm) as Hp.
  set (bx := <[i := m]> (replicate n box)). set (bx' := <[i := popped m kbox 0]> bx).
  assert (forall x, (exists k h q, holds x k h q) -> Forall (fun m => exists k h q, holds m k h q) (<[i := x]> (replicate n box))) as Hall.
  { intros x Hx. apply Forall_insert; [|done]. apply Forall_replicate. eauto. }
  assert (reaches i (mkShard (rebox bx' [] w') (readers s) (writers s))) as Hr2.
  { eapply rtc_r; [apply (reaches_rebox i s bx []); [done..| |]|].
    - unfold bx. by rewrite length_insert, length_replicate.
    - apply Hall. eauto.
    - apply step_exchange. apply (exchange_drain _ _ _ f m kbox 0 [] (popped m kbox 0) _ res); [|done..|].
      + cbn. rewrite Hid, Nat2Z.id. apply list_lookup_insert_eq. by rewrite length_replicate.
      + cbn [shard_id rebox set_kicks set_peer_inboxes peer_inboxes]. rewrite Hid, Nat2Z.id.
        exact (boxless_rebox _ bx' [] _ _ _ (boxless_dispatch _ _ _) E). }
  destruct (boxless_keeps _ _ _ _ (boxless_dispatch _ _ _) E) as [Hb _].
  pose proof (reaches_rebox i _ (peer_inboxes w') (kicks w') Hi Hr2) as Hr3. cbn [worker readers writers] in Hr3.
  rewrite rebox_rebox, rebox_self in Hr3. destruct (reaches_inv i s Hi Hr) as [tb Hv].
  apply Hr3; rewrite Hb; [done|apply Hv].
Qed.

(* ------------------------------------------------------------------ *)
(** * The invariant *)

(** A shard whose thread is in the loop over the peers: it was in a state of
    its own machine when the publication began, and has been still since. *)
Inductive publishing (j : nat) (s : Shard N) (rc : Rc) (f : PublishedFrame) : Prop :=
| mk_publishing s0 subs :
    reaches j s0 -> readers s0 !! rc = Some (RLoop subs) ->
    frame_wf (Frame.Pub (ShardInbox.subject f) (ShardInbox.reply_to f) (ShardInbox.payload f)) ->
    allowed subs (Frame.Pub (ShardInbox.subject f) (ShardInbox.reply_to f) (ShardInbox.payload f)) ->
    total_subscriptions (table (worker s0)) < usize_max ->
    begin_frame (ShardInbox.subject f) (ShardInbox.reply_to f) (ShardInbox.payload f) rc (worker s0) =
      Done (worker s, Some f) ->
    readers s = readers s0 -> writers s = writers s0 -> publishing j s rc f.

Definition core_ok (j : nat) (s : Shard N) (th : thread) : Prop :=
  match th with
  | Running | Draining => reaches j s
  | Publishing rc f ps _ => publishing j s rc f /\ Forall (fun i => i < n)%nat ps /\ (length ps <= n)%nat
  | InPush rc f i ps _ => publishing j s rc f /\ Forall (fun i => i < n)%nat (i :: ps) /\ (S (length ps) <= n)%nat
  end.

Record ring_ok (a : nat) (r : Sys PublishedFrame) : Prop := {
  ro_reached : exists acts, exec acts (start box) = Done r;
  ro_inv : exists g, InboxConc.inv 0 kbox g r;
  ro_valid : Forall frame_valid (claimed r);
  ro_few : (length (claimed r) <= a)%nat;
}.

(** [a] bounds the slots claimed in a ring. *)
Record machine_inv (a : nat) (S : Machine N) : Prop := {
  mi_cores : length (cores S) = n;
  mi_threads : length (threads S) = n;
  mi_rings : length (rings S) = n;
  mi_core : forall j s th, cores S !! j = Some s -> threads S !! j = Some th -> core_ok j s th;
  mi_ring : forall i r, rings S !! i = Some r -> ring_ok a r;
  mi_push : forall j rc f i ps bp, threads S !! j = Some (InPush rc f i ps bp) ->
    exists r pc, rings S !! i = Some r /\ producers r !! j = Some (f, pc);
  mi_prod : forall i r j v pc, rings S !! i = Some r -> producers r !! j = Some (v, pc) ->
    exists rc ps bp, threads S !! j = Some (InPush rc v i ps bp);
  mi_drain : forall i r, rings S !! i = Some r -> consumer r = DWait <-> threads S !! i <> Some Draining;
}.

Lemma publishing_valid j s rc f : publishing j s rc f -> frame_valid f.
Proof.
  intros [s0 subs Hr _ (_ & _ & Hsl) _ _ Hb _ _]. by eapply begin_frame_some in Hb as (_ & Hv & _).
Qed.
Lemma core_valid j s th rc f i ps bp : core_ok j s th -> th = InPush rc f i ps bp -> frame_valid f.
Proof. intros H ->. destruct H as [H _]. by eapply publishing_valid. Qed.

Lemma ring_ok_mono a b r : (a <= b)%nat -> ring_ok a r -> ring_ok b r.
Proof. intros H [Hr Hi Hv Hc]. constructor; [done..|lia]. Qed.
Lemma machine_inv_mono a b S : (a <= b)%nat -> machine_inv a S -> machine_inv b S.
Proof. intros H []. constructor; try done. intros i r Hr. by eapply (ring_ok_mono a); [|eauto]. Qed.

(** What an access adds to the claims is a value some thread is pushing. *)
Lemma act_claims b (r r' : Sys PublishedFrame) :
  act_step b r = Done r' ->
  claimed r' = claimed r \/ exists i v pc, producers r !! i = Some (v, pc) /\ claimed r' = claimed r ++ [v].
Proof.
  destruct b as [i v|i sp|]; cbn [act_step].
  - destruct (producers r !! i); intros [= <-]; left; [done|]. cbn. apply app_nil_r.
  - destruct (producers r !! i) as [[v pc]|] eqn:Ei; [|intros [= <-]; by left].
    assert (forall x, claimed (produced r i v pc x) = claimed r \/
      exists i0 v0 pc0, producers r !! i0 = Some (v0, pc0) /\ claimed (produced r i v pc x) = claimed r ++ [v0]) as Hx.
    { intros x. cbn. unfold won. destruct pc, x.2; try (left; apply app_nil_r). right. by eauto. }
    destruct pc; intros E; simplify_run; try (by left); apply Hx.
  - destruct (consumer r) as [|[| | | | |[]]]; intros E; simplify_run; try (by left).
    destruct (0 <? eventfd r); injection E as <-; by left.
Qed.

Lemma act_consumer (r r' : Sys PublishedFrame) : act_step AConsumer r = Done r' -> producers r' = producers r /\ claimed r' = claimed r.
Proof.
  cbn [act_step]. destruct (consumer r) as [|[| | | | |[]]]; intros E; simplify_run; try done.
  destruct (0 <? eventfd r); injection E as <-; done.
Qed.
Lemma act_producer j sp (r r' : Sys PublishedFrame) :
  act_step (AProducer j sp) r = Done r' ->
  consumer r' = consumer r /\ received r' = received r /\ forall k, k <> j -> producers r' !! k = producers r !! k.
Proof.
  cbn [act_step]. destruct (producers r !! j) as [[v pc]|]; [|by intros [= <-]].
  destruct pc; intros E; simplify_run; split_and!; try done; intros k Hk; cbn;
    by rewrite ?lookup_insert_ne, ?lookup_delete_ne by done.
Qed.

Lemma ring_ok_act a b r r' :
  ring_ok a r -> Z.of_nat a < 2 ^ 61 -> act_step b r = Done r' ->
  (forall i v pc, producers r !! i = Some (v, pc) -> frame_valid v) -> ring_ok (S a) r'.
Proof.
  intros [(acts & E) [g Hi] Hv Hc] Ha Ea Hp. constructor.
  - exists (acts ++ [b]). rewrite exec_app, E, bind_ret. cbn. by rewrite Ea.
  - destruct (act_step_advances 0 kbox g r Hi b) as (g' & r1 & E1 & Hi' & _).
    { rewrite (InboxConc.i_claimed _ _ _ _ Hi), length_fmap in Hc. lia. }
    rewrite Ea in E1. injection E1 as <-. by exists g'.
  - destruct (act_claims b r r' Ea) as [-> |(i & v & pc & Hx & ->)]; [done|].
    apply Forall_app. split; [done|]. apply Forall_singleton. by eapply Hp.
  - destruct (act_claims b r r' Ea) as [-> |(i & v & pc & Hx & ->)]; [|rewrite length_app; cbn]; lia.
Qed.

(** The drain task claims nothing. *)
Lemma ring_ok_consumer a r r' : ring_ok a r -> act_step AConsumer r = Done r' -> ring_ok a r'.
Proof.
  intros [(acts & E) [g Hi] Hv Hc] Ea. destruct (act_consumer _ _ Ea) as [_ Hcl]. constructor; [| |by rewrite Hcl..].
  - exists (acts ++ [AConsumer]). rewrite exec_app, E, bind_ret. cbn [exec]. by rewrite Ea.
  - destruct (consumer_step_advances 0 kbox g r Hi) as (r1 & E1 & Hi'). rewrite Ea in E1. injection E1 as <-. by exists g.
Qed.

(** The step of thread [j] to [th'], which changes its own shard and ring [i]
    at most. *)
Lemma inv_update a b cs ths rs j cs' th th' i r r' :
  machine_inv a (mkMachine cs ths rs) -> (a <= b)%nat -> ths !! j = Some th -> rs !! i = Some r -> ring_ok b r' ->
  length cs' = n -> (forall k, k <> j -> cs' !! k = cs !! k) -> (forall s, cs' !! j = Some s -> core_ok j s th') ->
  (forall k, k <> j -> producers r' !! k = producers r !! k) ->
  match th' with InPush _ f i' _ _ => i' = i /\ exists pc, producers r' !! j = Some (f, pc) | _ => producers r' !! j = None end ->
  (forall rc f i0 ps bp, th = InPush rc f i0 ps bp -> i0 = i) ->
  (i = j -> consumer r' = DWait <-> th' <> Draining) ->
  (i <> j -> consumer r' = consumer r /\ (th = Draining <-> th' = Draining)) ->
  machine_inv b (mkMachine cs' (<[j := th']> ths) (<[i := r']> rs)).
Proof.
  intros [Lc Lt Lr Hcore Hring Hpush Hprod Hdrain] Hab Hth Hr Hr' Lc' Hcs Hcj Hpk Hpj Hin Hown Hoth.
  cbn [cores threads rings] in *.
  pose proof (lookup_lt_Some _ _ _ Hth) as Hj. pose proof (lookup_lt_Some _ _ _ Hr) as Hi.
  assert (forall k r0, <[i := r']> rs !! k = Some r0 -> k = i /\ r0 = r' \/ k <> i /\ rs !! k = Some r0) as Hlk.
  { intros k r0 [(-> & -> & _)|?]%list_lookup_insert_Some; naive_solver. }
  constructor; cbn [cores threads rings]; try by rewrite ?length_insert.
  - intros k s th0 Hs [(-> & -> & _)|[Hne Ht]]%list_lookup_insert_Some; [auto|].
    rewrite Hcs in Hs by done. eauto.
  - intros k r0 [[-> ->]|[_ Hk]]%Hlk; [done|]. eapply (ring_ok_mono a); [done|eauto].
  - intros k rc f i' ps bp [(-> & -> & _)|[Hne Ht]]%list_lookup_insert_Some.
    + destruct Hpj as [-> [pc Hpc]]. exists r', pc. split; [by apply list_lookup_insert_eq|done].
    + destruct (Hpush _ _ _ _ _ _ Ht) as (r0 & pc & Hr0 & Hpc). destruct (decide (i' = i)) as [->|Hii].
      * rewrite Hr in Hr0. injection Hr0 as <-. exists r', pc. split; [by apply list_lookup_insert_eq|].
        by rewrite Hpk.
      * exists r0, pc. by rewrite list_lookup_insert_ne.
  - intros k r0 j0 v pc Hk Hpc. destruct (decide (j0 = j)) as [->|Hne].
    + destruct (Hlk k r0 Hk) as [[-> ->]|[Hki Hr0]].
      * rewrite list_lookup_insert_eq by done. destruct th'; try congruence. destruct Hpj as [-> [pc' Hpc']].
        rewrite Hpc in Hpc'. injection Hpc' as -> ->. by eauto.
      * destruct (Hprod _ _ _ _ _ Hr0 Hpc) as (rc & ps & bp & Ht). rewrite Hth in Ht. injection Ht as ->.
        by destruct Hki; eapply Hin.
    + rewrite list_lookup_insert_ne by done. destruct (Hlk k r0 Hk) as [[-> ->]|[_ Hr0]]; [|eauto].
      rewrite Hpk in Hpc by done. eauto.
  - intros k r0 Hk. destruct (decide (k = j)) as [->|Hkj].
    + rewrite list_lookup_insert_eq by done. destruct (Hlk j r0 Hk) as [[Hji ->]|[Hne Hr0]].
      * rewrite Hown by done. naive_solver.
      * rewrite (Hdrain _ _ Hr0), Hth. destruct Hoth as [_ Hd]; [done|]. naive_solver.
    + rewrite list_lookup_insert_ne by done. destruct (Hlk k r0 Hk) as [[-> ->]|[_ Hr0]]; [|by apply Hdrain].
      destruct Hoth as [-> _]; [congruence|]. by apply Hdrain.
Qed.

Definition in_push (th : thread) : bool := match th with InPush _ _ _ _ _ => true | _ => false end.

(** No push of thread [j] is under way unless it says so. *)
Lemma no_producer a cs ths rs j th i r :
  machine_inv a (mkMachine cs ths rs) -> ths !! j = Some th -> in_push th = false -> rs !! i = Some r -> producers r !! j = None.
Proof.
  intros HS Hth Hnp Hr. destruct (producers r !! j) as [[v pc]|] eqn:E; [|done].
  destruct (mi_prod _ _ HS i r j v pc Hr E) as (rc & ps & bp & Ht). cbn in Ht. rewrite Hth in Ht. by injection Ht as ->.
Qed.
Lemma not_push_ring th i : in_push th = false -> forall rc f i0 ps bp, th = InPush rc f i0 ps bp -> i0 = i.
Proof. by intros H rc f i0 ps bp ->. Qed.

Lemma pushed_valid a cs ths rs i r k v pc :
  machine_inv a (mkMachine cs ths rs) -> rs !! i = Some r -> producers r !! k = Some (v, pc) -> frame_valid v.
Proof.
  intros HS Hr Hk. destruct (mi_prod _ _ HS i r k v pc Hr Hk) as (rc & ps & bp & Ht).
  destruct (lookup_lt_is_Some_2 cs k) as [s Hs].
  { rewrite (mi_cores _ _ HS : length cs = n), <- (mi_threads _ _ HS : length ths = n). by eapply lookup_lt_Some. }
  eapply core_valid; [by eapply (mi_core _ _ HS)|done].
Qed.

(** A step that leaves the rings alone. *)
Lemma inv_local_step a cs ths rs j cs' th th' :
  machine_inv a (mkMachine cs ths rs) -> ths !! j = Some th -> in_push th = false -> in_push th' = false ->
  (th = Draining <-> th' = Draining) ->
  length cs' = n -> (forall k, k <> j -> cs' !! k = cs !! k) -> (forall s, cs' !! j = Some s -> core_ok j s th') ->
  machine_inv a (mkMachine cs' (<[j := th']> ths) rs).
Proof.
  intros HS Hth Hnp Hnp' Hd Hl Hcs Hcj.
  destruct (lookup_lt_is_Some_2 rs j) as [r Hr].
  { rewrite (mi_rings _ _ HS : length rs = n), <- (mi_threads _ _ HS : length ths = n). by eapply lookup_lt_Some. }
  rewrite <- (list_insert_id rs j r) by done.
  eapply (inv_update a a cs ths rs j cs' th th' j r r); try done.
  - by apply (mi_ring _ _ HS j).
  - pose proof (no_producer _ _ _ _ _ _ _ _ HS Hth Hnp Hr). by destruct th'.
  - apply not_push_ring. done.
  - intros _. rewrite (mi_drain _ _ HS j r Hr). cbn. rewrite Hth. naive_solver.
Qed.

(** A step of the drain task of shard [j]. *)
Lemma inv_consumer_step a cs ths rs j cs' th th' r r' :
  machine_inv a (mkMachine cs ths rs) ->
  ths !! j = Some th -> in_push th = false -> in_push th' = false -> rs !! j = Some r -> act_step AConsumer r = Done r' ->
  (consumer r' = DWait <-> th' <> Draining) ->
  length cs' = n -> (forall k, k <> j -> cs' !! k = cs !! k) -> (forall s, cs' !! j = Some s -> core_ok j s th') ->
  machine_inv a (mkMachine cs' (<[j := th']> ths) (<[j := r']> rs)).
Proof.
  intros HS Hth Hnp Hnp' Hr E Hd Hl Hcs Hcj. destruct (act_consumer _ _ E) as [Hp Hc].
  eapply (inv_update a a cs ths rs j cs' th th' j r r'); try done.
  - eapply ring_ok_consumer; [by apply (mi_ring _ _ HS j)|done].
  - by rewrite Hp.
  - rewrite Hp. pose proof (no_producer _ _ _ _ _ _ _ _ HS Hth Hnp Hr). by destruct th'.
  - apply not_push_ring. done.
Qed.

(** A step of a push of thread [j] to ring [i]. *)
Lemma inv_producer_step a cs ths rs j th th' i r r' b :
  machine_inv a (mkMachine cs ths rs) -> Z.of_nat a < 2 ^ 61 ->
  ths !! j = Some th -> th <> Draining -> th' <> Draining -> rs !! i = Some r -> act_step b r = Done r' ->
  (forall s, core_ok j s th -> core_ok j s th') ->
  match b with APush j' _ | AProducer j' _ => j' = j | AConsumer => False end ->
  (forall rc f i0 ps bp, th = InPush rc f i0 ps bp -> i0 = i) ->
  match th' with InPush _ f i' _ _ => i' = i /\ exists pc, producers r' !! j = Some (f, pc) | _ => producers r' !! j = None end ->
  machine_inv (S a) (mkMachine cs (<[j := th']> ths) (<[i := r']> rs)).
Proof.
  intros HS Ha Hth Hd Hd' Hr E Hcj Hb Hin Hpj.
  assert (consumer r' = consumer r /\ forall k, k <> j -> producers r' !! k = producers r !! k) as [Hc Hp].
  { destruct b as [j' v|j' sp|]; [subst j'..|done]; [|by apply act_producer in E as (? & _ & ?)].
    cbn in E. destruct (producers r !! j); injection E as <-; [done|]. split; [done|]. intros k Hk. cbn.
    by rewrite lookup_insert_ne. }
  eapply (inv_update a (S a) cs ths rs j cs th th' i r r'); try done; [lia|..].
  - eapply ring_ok_act; [by apply (mi_ring _ _ HS i)|done..|]. intros k v pc Hk. by eapply pushed_valid.
  - apply (mi_cores _ _ HS).
  - intros s Hs. apply Hcj. by eapply (mi_core _ _ HS).
  - intros ->. rewrite Hc, (mi_drain _ _ HS j r Hr). cbn. rewrite Hth. naive_solver.
Qed.

(** A step in which only shard [j] changes. *)
Lemma core_inserted a cs ths rs j s th s' th' :
  machine_inv a (mkMachine cs ths rs) -> cs !! j = Some s -> ths !! j = Some th ->
  (core_ok j s th -> (j < n)%nat -> core_ok j s' th') ->
  length (<[j := s']> cs) = n /\ (forall k, k <> j -> <[j := s']> cs !! k = cs !! k) /\
  (forall s0, <[j := s']> cs !! j = Some s0 -> core_ok j s0 th').
Proof.
  intros HS Hs Hth Hc. pose proof (lookup_lt_Some _ _ _ Hs) as Hl. pose proof (mi_cores _ _ HS) as Hln. cbn in Hln.
  split_and!; [by rewrite length_insert|intros k Hk; by rewrite list_lookup_insert_ne|].
  intros s0. rewrite list_lookup_insert_eq by done. intros [= <-]. apply Hc; [|lia].
  by apply (mi_core _ _ HS).
Qed.

Lemma publish_ok j s rc subs subject reply_to payload w' o :
  (j < n)%nat -> reaches j s -> readers s !! rc = Some (RLoop subs) ->
  frame_wf (Frame.Pub subject reply_to payload) -> allowed subs (Frame.Pub subject reply_to payload) ->
  total_subscriptions (table (worker s)) < usize_max ->
  begin_frame subject reply_to payload rc (worker s) = Done (w', o) ->
  core_ok j (mkShard w' (readers s) (writers s))
    (match o with Some f => Publishing rc f (List.seq 0 (length (peer_inboxes w'))) false | None => Running end).
Proof.
  intros Hj Hr Hrd Hf Hal Htot E. destruct o as [f|]; [|by eapply rejected_reaches].
  pose proof (begin_frame_some _ _ _ _ _ _ _ ltac:(by destruct Hf as (_ & _ & ?)) E) as (-> & _ & _).
  split; [by eapply mk_publishing|].
  destruct (begin_frame_rebox subject reply_to payload rc (peer_inboxes (worker s)) [] _ _ _ eq_refl E) as (_ & -> & _).
  destruct (reaches_static j s Hj Hr) as [_ ->]. rewrite length_seq. split; [|done].
  apply Forall_forall. intros i Hi%elem_of_seq. lia.
Qed.

Lemma ended_ok j s rc f bp w' :
  (j < n)%nat -> publishing j s rc f -> end_pub rc bp (worker s) = Done (w', tt) ->
  reaches j (mkShard w' (readers s) (writers s)).
Proof.
  intros Hj [s0 subs Hr Hrd Hf Hal Htot Eb -> ->] E. by eapply publication_reaches.
Qed.

(** The frame a [pop] returns was claimed by some push. *)
Lemma popped_valid a r f : ring_ok a r -> consumer r = DPop (CReturn (Some f)) -> frame_valid f.
Proof.
  intros [_ [g Hi] Hv _] Hc. rewrite Forall_forall in Hv. apply Hv.
  eapply (elem_of_prefix (taken r)); [|by eapply inv_prefix]. unfold taken. rewrite Hc. set_solver.
Qed.

(** A step of the drain task that dispatches nothing. *)
Lemma inv_drain_local a cs ths rs j th th' r r' :
  machine_inv a (mkMachine cs ths rs) -> ths !! j = Some th -> th = Running \/ th = Draining ->
  th' = Running \/ th' = Draining -> rs !! j = Some r -> act_step AConsumer r = Done r' ->
  (consumer r' = DWait <-> th' <> Draining) -> machine_inv a (mkMachine cs (<[j := th']> ths) (<[j := r']> rs)).
Proof.
  intros HS Hth Ht Ht' Hr E Hd. eapply inv_consumer_step; try done; [by destruct Ht as [-> | ->]|by destruct Ht' as [-> | ->]
    |apply (mi_cores _ _ HS)|].
  intros s Hs. pose proof (mi_core _ _ HS j s _ Hs Hth) as Hc. by destruct Ht as [-> | ->], Ht' as [-> | ->].
Qed.

Definition pushing (th : thread) : bool :=
  match th with Publishing _ _ _ _ | InPush _ _ _ _ _ => true | _ => false end.

Lemma machine_inv_step a j S S' th :
  machine_inv a S -> Z.of_nat a < 2 ^ 61 -> threads S !! j = Some th ->
  thread_step capacity buffer_size allowed j S S' -> machine_inv (if pushing th then Datatypes.S a else a) S'.
Proof.
  intros HS Ha Hj Hst.
  destruct Hst as [cs ths rs s s' Hs Hth Ht|cs ths rs s rc subs su re pa w' o Hs Hth Hrd Hf Hal Htot E|cs ths rs rc f ps bp Hth
    |cs ths rs rc f i ps bp r r' Hth Hij Hr E|cs ths rs rc f i ps bp r pc sp r' Hth Hr Hpc Hpn E
    |cs ths rs rc f i ps bp r o sp r' Hth Hr Hpc E|cs ths rs s rc f bp w' Hs Hth E|cs ths rs r r' Hth Hr Hc He E
    |cs ths rs r pc r' Hth Hr Hc Hpn E|cs ths rs s r f r' w' res Hs Hth Hr Hc E Ed|cs ths rs r r' Hth Hr Hc E];
    cbn [threads] in Hj; rewrite Hth in Hj; injection Hj as <-; cbn [pushing].
  - rewrite <- (list_insert_id ths j Running) by done.
    destruct (core_inserted a cs ths rs j s Running s' Running HS Hs Hth) as (? & ? & ?).
    { intros Hr _. eapply rtc_r; [exact Hr|]. apply step_task. by eapply task_mono; [|exact Ht]; intros ? ? []. }
    by eapply inv_local_step.
  - edestruct (core_inserted a cs ths rs j s Running (mkShard w' (readers s) (writers s))) as (? & ? & ?); [done..| |].
    { intros Hr Hj. by eapply publish_ok. }
    eapply inv_local_step; try done; by destruct o.
  - apply (machine_inv_mono a); [lia|]. eapply inv_local_step; try done. { apply (mi_cores _ _ HS). }
    intros s Hs. destruct (mi_core _ _ HS j s _ Hs Hth) as (Hp & Hps & Hl). split; [done|].
    cbn in Hl. split; [by inversion Hps|lia].
  - eapply inv_producer_step; try done.
    pose proof (no_producer _ _ _ _ j _ i r HS Hth ltac:(done) Hr) as Hnp.
    cbn in E. rewrite Hnp in E. injection E as <-. cbn. rewrite lookup_insert_eq. by eauto.
  - rewrite <- (list_insert_id ths j _ Hth). eapply inv_producer_step; try done; [by intros ? ? ? ? ? [= _ _ ? _ _]|].
    split; [done|]. cbn [act_step] in E. rewrite Hpc in E.
    destruct pc; simplify_run; cbn; rewrite ?lookup_insert_eq; [by eauto..|]. by edestruct Hpn.
  - eapply inv_producer_step; try done; [|by intros ? ? ? ? ? [= _ _ ? _ _]|].
    { intros s (Hp & Hps & Hl). split; [done|]. split; [by inversion Hps|lia]. }
    cbn [act_step] in E. rewrite Hpc in E. injection E as <-. cbn. apply lookup_delete_eq.
  - apply (machine_inv_mono a); [lia|].
    destruct (core_inserted a cs ths rs j s (Publishing rc f [] bp) (mkShard w' (readers s) (writers s)) Running HS Hs Hth)
      as (? & ? & ?). { intros [Hp _] Hj. by eapply ended_ok. }
    by eapply inv_local_step.
  - eapply inv_drain_local; try done; [by left|by right|]. cbn in E. rewrite Hc, (proj2 (Z.ltb_lt _ _) He) in E.
    injection E as <-. cbn. naive_solver.
  - rewrite <- (list_insert_id ths j _ Hth). eapply inv_drain_local; try done; [by right|by right|].
    cbn in E. rewrite Hc in E. destruct pc as [| | | | |[]]; simplify_run; cbn; naive_solver.
  - rewrite <- (list_insert_id ths j _ Hth).
    destruct (core_inserted a cs ths rs j s Draining (mkShard w' (readers s) (writers s)) Draining HS Hs Hth) as (? & ? & ?).
    { intros Hrs Hj. eapply dispatch_reaches; [done..| |exact Ed]. eapply popped_valid; [by apply (mi_ring _ _ HS j)|done]. }
    eapply inv_consumer_step; try done. cbn in E. rewrite Hc in E. injection E as <-. cbn. naive_solver.
  - eapply inv_drain_local; try done; [by right|by left|]. cbn in E. rewrite Hc in E. injection E as <-. cbn. naive_solver.
Qed.

Abbreviation tstep := (thread_step capacity buffer_size allowed).
Abbreviation mstep := (machine_step capacity buffer_size allowed).

Lemma step_thread j S S' : tstep j S S' -> exists th, threads S !! j = Some th.
Proof. intros []; by eexists. Qed.

Lemma machine_inv_initial : machine_inv 0 (machine_initial scratch box n).
Proof.
  constructor; cbn [machine_initial cores threads rings].
  - by rewrite length_fmap, length_seq.
  - apply length_replicate.
  - apply length_replicate.
  - intros j s th Hs [-> _]%lookup_replicate. rewrite list_lookup_fmap in Hs. apply fmap_Some in Hs as (i & Hi & ->).
    apply lookup_seq in Hi as [-> _]. apply rtc_refl.
  - intros i r [-> _]%lookup_replicate. constructor; [by exists []| |by constructor|done].
    exists []. by apply inv_start.
  - by intros j rc f i ps bp [[=] _]%lookup_replicate.
  - by intros i r j v pc [-> _]%lookup_replicate.
  - intros i r [-> Hi]%lookup_replicate. rewrite lookup_replicate_2 by done. naive_solver.
Qed.

Lemma machine_inv_run t a S S' :
  machine_inv a S -> Z.of_nat (a + t) <= 2 ^ 61 -> nsteps mstep t S S' -> machine_inv (a + t) S'.
Proof.
  intros HS Hl Hst. revert a HS Hl. induction Hst as [S|t S S1 S' [j Hj] _ IH]; intros a HS Hl.
  { by rewrite Nat.add_0_r. }
  destruct (step_thread _ _ _ Hj) as [th Hth]. rewrite <- Nat.add_succ_comm. apply IH; [|lia].
  eapply machine_inv_mono; [|eapply machine_inv_step; [exact HS|lia|done..]]. destruct (pushing th); lia.
Qed.

(** No publication panics on its way in, on its way out, or when it is taken
    from the inbox. *)
Lemma dispatch_total j s f : (j < n)%nat -> reaches j s -> frame_valid f -> exists w',
  dispatch_local (ShardInbox.subject f) (ShardInbox.reply_to f) (ShardInbox.payload f) (worker s) = Done (w', Ok tt) /\
  drained s [f] (mkShard w' (readers s) (writers s)).
Proof.
  intros Hj Hr [Hsl [toks Hp]]. destruct (reaches_inv j s Hj Hr) as [tb [[Hg _ _ _ _ _ _ _] Ht _ _]].
  destruct (dispatch_local_ok (ShardInbox.subject f) (ShardInbox.reply_to f) (ShardInbox.payload f) Hsl
    (worker s) tb toks Hg Ht Hp) as (w' & plain & picks & E & Hpl & Hpi & [_ Hio Hde]).
  exists w'. split; [done|]. eapply (drained_dispatch s (worker s)); [exact Ht|done..|by apply only_io_keeps|exact Hde|].
  exists (peer_inboxes (worker s)), (kicks (worker s)). symmetry. apply rebox_self.
Qed.
Lemma begin_total j s rc subs subject reply_to payload :
  (j < n)%nat -> reaches j s -> readers s !! rc = Some (RLoop subs) -> slice_ok payload ->
  exists w' o, begin_frame subject reply_to payload rc (worker s) = Done (w', o) /\
    good w' /\ is_Some (heap w' !! rc).
Proof.
  intros Hj Hr Hrd Hsl. destruct (reaches_inv j s Hj Hr) as [tb [[Hg _ _ _ _ Hre _ _] Ht _ _]].
  destruct (Hre rc) as (st & Hst & _); [by eexists|].
  unfold begin_frame. destruct (MAX_PAYLOAD_BYTES <? len payload).
  { eexists _, None. erewrite M_bind_done by (apply emit_err_to_told; [done|by eexists|done]).
    split_and!; [done|by apply told_good|]. unfold told. wsimpl. rewrite lookup_alter_eq, Hst. by eexists. }
  destruct (dispatch_any (worker s) tb subject reply_to payload Hg Ht Hsl) as (w1 & res & E & Hg1 & _ & Hgr).
  assert (is_Some (heap w1 !! rc)) as [st1 Hst1].
  { specialize (Hgr rc). rewrite Hst in Hgr. destruct Hgr as (st' & _ & Hst' & _). by eexists. }
  unfold begin_pub. erewrite M_bind_done by exact E. destruct res as [u|e].
  - eexists _, _. split; [done|]. split; [done|by eexists].
  - eexists _, None. erewrite M_bind_done by (apply emit_err_to_told; [done|by eexists|apply subject_error_short]).
    split_and!; [done|by apply told_good|]. unfold told. wsimpl. rewrite lookup_alter_eq, Hst1. by eexists.
Qed.
Lemma end_total j s rc f bp :
  (j < n)%nat -> publishing j s rc f -> exists w', end_pub rc bp (worker s) = Done (w', tt).
Proof.
  intros Hj [s0 subs Hr Hrd (_ & _ & Hsl) _ _ Eb _ _].
  destruct (begin_total j s0 rc subs (ShardInbox.subject f) (ShardInbox.reply_to f) _ Hj Hr Hrd Hsl)
    as (w1 & o & E & Hg & Hh). rewrite Eb in E. injection E as <- _.
  unfold end_pub. destruct bp; eexists; [|done]. by apply emit_err_to_told.
Qed.

(* ------------------------------------------------------------------ *)
(** * Coming to rest *)

(** How many steps thread [j], running alone, is from the end of its
    publication: nine for each peer at most. *)
Definition work (j : nat) (S : Machine N) : nat :=
  match threads S !! j with
  | Some (Publishing _ _ ps _) => 10 * length ps + 1
  | Some (InPush _ _ i ps _) =>
      10 * length ps + 2 +
      match r ← rings S !! i; x ← producers r !! j; Some (rank r x.2) with Some k => k | None => 0 end
  | _ => 0
  end.

Lemma ring_at a S i : machine_inv a S -> (i < n)%nat -> exists r, rings S !! i = Some r /\ ring_ok a r.
Proof.
  intros HS Hi. destruct (lookup_lt_is_Some_2 (rings S) i) as [r Hr]; [by rewrite (mi_rings _ _ HS)|].
  exists r. split; [done|]. by apply (mi_ring _ _ HS i).
Qed.
Lemma core_at a S j th : machine_inv a S -> threads S !! j = Some th -> (j < n)%nat /\ exists s, cores S !! j = Some s /\ core_ok j s th.
Proof.
  intros HS Hth. assert (j < n)%nat as Hj by (rewrite <- (mi_threads _ _ HS); by eapply lookup_lt_Some).
  split; [done|]. destruct (lookup_lt_is_Some_2 (cores S) j) as [s Hs]; [by rewrite (mi_cores _ _ HS)|].
  exists s. split; [done|]. by apply (mi_core _ _ HS).
Qed.

Definition pub_rc (th : thread) : option Rc :=
  match th with Publishing rc _ _ _ | InPush rc _ _ _ _ => Some rc | _ => None end.

(** The shard once the publication under way, if any, has ended. *)
Definition after_publication (th : thread) (s s' : Shard N) : Prop :=
  match pub_rc th with
  | Some rc => exists bp w', end_pub rc bp (worker s) = Done (w', tt) /\ s' = mkShard w' (readers s) (writers s)
  | None => s' = s
  end.

(** Pushes only add to what is claimed. *)
Definition rings_grow (rs rs' : list (Sys PublishedFrame)) : Prop :=
  forall i r, rs !! i = Some r -> exists r', rs' !! i = Some r' /\
    received r' = received r /\ claimed r `prefix_of` claimed r'.
Lemma rings_grow_refl rs : rings_grow rs rs.
Proof. intros i r Hr. by exists r. Qed.
Lemma rings_grow_trans rs1 rs2 rs3 : rings_grow rs1 rs2 -> rings_grow rs2 rs3 -> rings_grow rs1 rs3.
Proof.
  intros H1 H2 i r (r2 & (r3 & Hr3 & E3 & P3)%H2 & E2 & P2)%H1. exists r3.
  split_and!; [done|congruence|by etrans].
Qed.
Lemma rings_grow_act rs i r b r' :
  rs !! i = Some r -> act_step b r = Done r' -> b <> AConsumer -> rings_grow rs (<[i := r']> rs).
Proof.
  intros Hr E Hb k r0 Hk. destruct (decide (k = i)) as [->|Hne].
  - rewrite Hr in Hk. injection Hk as <-. exists r'. rewrite list_lookup_insert_eq by by eapply lookup_lt_Some.
    split_and!; [done| |].
    + destruct b as [j v|j sp|]; [|by apply act_producer in E as (_ & ? & _)|done].
      cbn in E. by destruct (producers r !! j); injection E as <-.
    + destruct (act_claims _ _ _ E) as [-> |(? & v & ? & _ & ->)]; [done|by apply prefix_app_r].
  - exists r0. by rewrite list_lookup_insert_ne.
Qed.

(** A step of thread [j] towards the end of its publication. *)
Definition nearer (j : nat) (th : thread) (s : Shard N) (S S' : Machine N) : Prop :=
  tstep j S S' /\ rings_grow (rings S) (rings S') /\ (work j S' < work j S)%nat /\
  exists th' s', threads S' = <[j := th']> (threads S) /\ cores S' = <[j := s']> (cores S) /\
    (pub_rc th' = pub_rc th /\ s' = s \/ th' = Running /\ after_publication th s s').

(** The next access of a push, and its return. *)
Lemma push_access a S j rc f i ps bp s :
  machine_inv a S -> Z.of_nat a < 2 ^ 61 -> threads S !! j = Some (InPush rc f i ps bp) -> cores S !! j = Some s ->
  exists S', nearer j (InPush rc f i ps bp) s S S'.
Proof.
  intros HS Ha Hth Hs. destruct (mi_push _ _ HS _ _ _ _ _ _ Hth) as (r & pc & Hr & Hpc).
  destruct (mi_ring _ _ HS i r Hr) as [_ [g Hi] _ Hfew].
  rewrite (InboxConc.i_claimed _ _ _ _ Hi), length_fmap in Hfew.
  destruct S as [cs ths rs]. cbn [threads rings cores] in *.
  pose proof (lookup_lt_Some _ _ _ Hth) as Hj. pose proof (lookup_lt_Some _ _ _ Hr) as Hir.
  assert ((exists o, pc = PReturn o) \/ forall o, pc <> PReturn o) as [[o ->]|Hno]
    by (destruct pc; (by right) || (left; eauto)).
  - assert (act_step (AProducer j false) r = Done (returned r j f o)) as E by (cbn [act_step]; by rewrite Hpc).
    eexists. split_and!; [by eapply thread_return|by eapply rings_grow_act| |].
    + unfold work. cbn [threads rings]. rewrite list_lookup_insert_eq, Hth by done. lia.
    + eexists _, s. split_and!; [done|cbn; by rewrite list_insert_id|by left].
  - destruct (producer_step_advances 0 kbox g r Hi j f pc false Hpc ltac:(lia) Hno) as (g' & x & E & _).
    assert (act_step (AProducer j false) r = Done (produced r j f pc x)) as Ea.
    { cbn [act_step]. rewrite Hpc. destruct pc; try by rewrite E. by edestruct Hno. }
    eexists. split_and!; [by eapply thread_access|by eapply rings_grow_act| |].
    + unfold work. cbn [threads rings]. rewrite Hth, list_lookup_insert_eq, Hr by done. cbn [mbind option_bind].
      rewrite Hpc. cbn [mbind option_bind produced producers]. rewrite lookup_insert_eq. cbn [mbind option_bind snd].
      pose proof (producer_rank 0 kbox g r j f pc x Hi ltac:(lia) Hpc Hno E) as Hlt. lia.
    + exists (InPush rc f i ps bp), s. split_and!; [cbn; by rewrite list_insert_id..|by left].
Qed.

(** A thread that is publishing is never stuck, and gets nearer to the end. *)
Lemma publisher_step a S j th s :
  machine_inv a S -> Z.of_nat a < 2 ^ 61 -> threads S !! j = Some th -> cores S !! j = Some s -> pushing th = true ->
  exists S', nearer j th s S S'.
Proof.
  intros HS Ha Hth Hs Hp. destruct th as [|rc f ps bp|rc f i ps bp|]; try done; [|by eapply push_access].
  destruct (core_at _ _ _ _ HS Hth) as (Hj & s0 & Hs0 & Hpub & Hps & _).
  rewrite Hs in Hs0. injection Hs0 as <-.
  pose proof (lookup_lt_Some _ _ _ Hth) as Hjt.
  assert (forall th' cs rs, work j (mkMachine cs (<[j := th']> (threads S)) rs) =
    match th' with
    | Publishing _ _ ps _ => 10 * length ps + 1
    | InPush _ _ i ps _ => 10 * length ps + 2 +
        match r ← rs !! i; x ← producers r !! j; Some (rank r x.2) with Some k => k | None => 0 end
    | _ => 0 end)%nat as Hw by (intros; unfold work; cbn [threads]; by rewrite list_lookup_insert_eq).
  assert (work j S = 10 * length ps + 1)%nat as Hw0 by (unfold work; by rewrite Hth).
  destruct S as [cs ths rs]. cbn [threads rings cores] in *. destruct ps as [|i ps].
  - destruct (end_total j s rc f bp Hj Hpub) as [w' E]. eexists. split_and!; [by eapply thread_end|apply rings_grow_refl|..].
    + rewrite Hw. lia.
    + eexists _, _. split_and!; [done..|]. right. split; [done|]. by exists bp, w'.
  - destruct (decide (i = j)) as [->|Hij].
    { eexists. split_and!; [by eapply thread_skip|apply rings_grow_refl|rewrite Hw; cbn in Hw0; lia|].
      eexists _, s. split_and!; [done|cbn; by rewrite list_insert_id|by left]. }
    destruct (ring_at _ _ i HS) as (r & Hr & _); [by inversion Hps|]. cbn in Hr.
    pose proof (no_producer _ _ _ _ j _ i r HS Hth eq_refl Hr) as Hnp.
    assert (act_step (APush j f) r = Done (produced r j f PLoadTail (inbox r, PLoadTail))) as Ea by (cbn; by rewrite Hnp).
    eexists. split_and!; [by eapply thread_call|by eapply rings_grow_act| |eexists _, s; split_and!; [done|cbn; by rewrite list_insert_id|by left]].
    rewrite Hw, list_lookup_insert_eq by by eapply lookup_lt_Some. cbn [mbind option_bind produced producers].
    rewrite lookup_insert_eq. cbn [mbind option_bind snd rank]. cbn in Hw0. lia.
Qed.

(** A step that finishes what is under way: of a thread that is publishing or
    draining, or the return of an eventfd read.  No task runs otherwise. *)
Definition finishing (S S' : Machine N) : Prop :=
  exists j, tstep j S S' /\ (threads S !! j = Some Running -> threads S' !! j = Some Draining).

Lemma work_bound a S j : machine_inv a S -> (work j S <= 10 * n + 1)%nat.
Proof.
  intros HS. unfold work. destruct (threads S !! j) as [th|] eqn:Hth; [|lia].
  destruct (core_at _ _ _ _ HS Hth) as (_ & s & _ & Hc). destruct th as [|rc f ps bp|rc f i ps bp|]; try lia.
  - destruct Hc as (_ & _ & Hl). lia.
  - destruct Hc as (_ & _ & Hl). destruct (rings S !! i) as [r|]; cbn; [|lia].
    destruct (producers r !! j) as [[v pc]|]; cbn; [|lia]. destruct pc; cbn; repeat zcase; lia.
Qed.

Lemma after_trans th th' s s' s'' :
  pub_rc th' = pub_rc th -> s' = s -> after_publication th' s' s'' -> after_publication th s s''.
Proof. intros E ->. unfold after_publication. by rewrite E. Qed.
Lemma pushing_pub_rc th th' : pub_rc th' = pub_rc th -> pushing th' = pushing th.
Proof. by destruct th, th'. Qed.
Lemma work_pushing S j th : threads S !! j = Some th -> pushing th = true -> (0 < work j S)%nat.
Proof. intros Hth Hp. unfold work. rewrite Hth. destruct th; try done; lia. Qed.

(** Thread [j] ends its publication; the others wait. *)
Lemma publisher_settles k a S j th s :
  machine_inv a S -> Z.of_nat (a + k) < 2 ^ 61 -> threads S !! j = Some th -> cores S !! j = Some s -> (work j S <= k)%nat ->
  exists S' th' s', rtc finishing S S' /\ machine_inv (a + k) S' /\ rings_grow (rings S) (rings S') /\
    threads S' = <[j := th']> (threads S) /\ cores S' = <[j := s']> (cores S) /\
    th' = (if pushing th then Running else th) /\ after_publication th s s'.
Proof.
  revert a S th s. induction k as [|k IH]; intros a S th s HS Ha Hth Hs Hw.
  all: destruct (pushing th) eqn:Hp; [pose proof (work_pushing S j th Hth Hp)|].
  1: lia.
  1,3: exists S, th, s; split_and!; [apply rtc_refl|eapply machine_inv_mono; [|done]; lia|apply rings_grow_refl
    |by rewrite list_insert_id..|done|]; unfold after_publication; by destruct th.
  destruct (publisher_step a S j th s HS ltac:(lia) Hth Hs Hp) as (S1 & Hst & Hg & Hlt & th1 & s1 & Et & Ec & Hcase).
  pose proof (lookup_lt_Some _ _ _ Hth) as Hjt. pose proof (lookup_lt_Some _ _ _ Hs) as Hjc.
  pose proof (machine_inv_step a j S S1 th HS ltac:(lia) Hth Hst) as H1. rewrite Hp in H1.
  destruct (IH (Datatypes.S a) S1 th1 s1 H1) as (S' & th' & s' & Hr & H' & Hg' & Et' & Ec' & -> & Haf);
    [lia|by rewrite Et, list_lookup_insert_eq|by rewrite Ec, list_lookup_insert_eq|lia|].
  exists S', Running, s'. split_and!; try done.
  - eapply rtc_l; [|exact Hr]. exists j. split; [done|]. rewrite Hth. intros [= ->]. done.
  - by rewrite <- Nat.add_succ_comm.
  - by eapply rings_grow_trans.
  - rewrite Et', Et, list_insert_insert_eq. destruct Hcase as [[E _]|[-> _]]; [|done].
    by rewrite (pushing_pub_rc _ _ E), Hp.
  - by rewrite Ec', Ec, list_insert_insert_eq.
  - destruct Hcase as [[E ->]|[-> Haf1]]; [by eapply after_trans|]. by rewrite Haf.
Qed.

(** The first [k] threads end their publications. *)
Lemma publishers_settle k a S :
  (k <= n)%nat -> machine_inv a S -> Z.of_nat (a + k * (10 * n + 1)) < 2 ^ 61 ->
  exists S', rtc finishing S S' /\ machine_inv (a + k * (10 * n + 1)) S' /\ rings_grow (rings S) (rings S') /\
    forall j th s, threads S !! j = Some th -> cores S !! j = Some s -> exists s',
      cores S' !! j = Some s' /\
      threads S' !! j = Some (if bool_decide (j < k)%nat && pushing th then Running else th) /\
      (if bool_decide (j < k)%nat then after_publication th s s' else s' = s).
Proof.
  intros Hk HS. induction k as [|k IH]; intros Ha.
  { exists S. rewrite Nat.add_0_r. split_and!; [apply rtc_refl|done|apply rings_grow_refl|].
    intros j th s Hth Hs. exists s. by rewrite bool_decide_false by lia. }
  destruct IH as (S1 & Hr1 & H1 & Hg1 & Hall); [lia|lia|].
  destruct (lookup_lt_is_Some_2 (threads S) k) as [th Hth]; [rewrite (mi_threads _ _ HS); lia|].
  destruct (lookup_lt_is_Some_2 (cores S) k) as [s Hs]; [rewrite (mi_cores _ _ HS); lia|].
  destruct (Hall k th s Hth Hs) as (s1 & Hs1 & Hth1 & E1). rewrite bool_decide_false in Hth1, E1 by lia. subst s1.
  destruct (publisher_settles (10 * n + 1) _ S1 k th s H1) as (S' & th' & s' & Hr' & H' & Hg' & Et & Ec & -> & Haf);
    [lia|done..|by eapply work_bound|].
  exists S'. split_and!; [by etrans| |by eapply rings_grow_trans|].
  { eapply machine_inv_mono; [|exact H']. lia. }
  intros j thj sj Hj Hsj. destruct (Hall j thj sj Hj Hsj) as (sj1 & Hsj1 & Hthj1 & Hcase).
  rewrite Et, Ec. destruct (decide (j = k)) as [->|Hne].
  - rewrite Hth in Hj. injection Hj as <-. rewrite Hs in Hsj. injection Hsj as <-.
    rewrite !list_lookup_insert_eq by by eapply lookup_lt_Some. rewrite !bool_decide_true by lia. by eexists.
  - rewrite !list_lookup_insert_ne by done. exists sj1.
    rewrite (bool_decide_ext (j < Datatypes.S k)%nat (j < k)%nat) by lia. done.
Qed.

(** A step of the drain task of shard [j]. *)
Definition drains (j : nat) (s : Shard N) (r : Sys PublishedFrame) (S S' : Machine N) : Prop :=
  tstep j S S' /\ (threads S !! j = Some Running -> threads S' !! j = Some Draining) /\
  exists th' s' r' q, pushing th' = false /\ threads S' = <[j := th']> (threads S) /\ cores S' = <[j := s']> (cores S) /\
    rings S' = <[j := r']> (rings S) /\ act_step AConsumer r = Done r' /\ received r' = received r ++ q /\ drained s q s'.

Lemma drainer_step a S j th s r :
  machine_inv a S -> threads S !! j = Some th -> pushing th = false -> cores S !! j = Some s ->
  rings S !! j = Some r -> consumer r <> DWait \/ 0 < eventfd r -> exists S', drains j s r S S'.
Proof.
  intros HS Hth Hp Hs Hr Hc. pose proof (mi_drain _ _ HS j r Hr) as Hd. rewrite Hth in Hd.
  pose proof (mi_ring _ _ HS j r Hr) as Hro. pose proof Hro as [_ [g Hi] _ _].
  destruct (core_at _ _ _ _ HS Hth) as (Hj & s0 & Hs0 & Hok). rewrite Hs in Hs0. injection Hs0 as <-.
  destruct (consumer_step_advances 0 kbox g r Hi) as (r' & E & _).
  destruct S as [cs ths rs]. cbn [threads rings cores] in *. pose proof (lookup_lt_Some _ _ _ Hth) as Hjt.
  destruct (consumer r) as [|pc] eqn:Ec.
  { assert (0 < eventfd r) as He by (by destruct Hc). assert (th = Running) as -> by (destruct th; naive_solver).
    eexists. split_and!; [by eapply thread_wake|intros _; by apply list_lookup_insert_eq|].
    exists Draining, s, r', []. split_and!; [done|done|cbn; by rewrite list_insert_id|done|done| |apply drained_nil].
    cbn in E. rewrite Ec, (proj2 (Z.ltb_lt _ _) He) in E. injection E as <-. by rewrite app_nil_r. }
  assert (th = Draining) as -> by (destruct th; naive_solver).
  assert ((exists o, pc = CReturn o) \/ forall o, pc <> CReturn o) as [[[f|] ->]|Hno]
    by (destruct pc; (by right) || (left; eauto)).
  - destruct (dispatch_total j s f Hj Hok) as (w' & Ed & Hdr); [by eapply popped_valid|].
    eexists. split_and!; [by eapply thread_dispatch|cbn [threads]; by rewrite Hth|].
    eexists Draining, _, r', [f]. split_and!; [done|cbn; by rewrite list_insert_id|done..| |exact Hdr].
    cbn in E. rewrite Ec in E. by injection E as <-.
  - eexists. split_and!; [by eapply thread_sleep|cbn [threads]; by rewrite Hth|].
    exists Running, s, r', []. split_and!; [done|done|cbn; by rewrite list_insert_id|done|done| |apply drained_nil].
    cbn in E. rewrite Ec in E. by injection E as <-.
  - eexists. split_and!; [by eapply thread_pop|cbn [threads]; by rewrite Hth|].
    exists Draining, s, r', []. split_and!; [done|cbn; by rewrite list_insert_id|cbn; by rewrite list_insert_id|done|done| |apply drained_nil].
    cbn in E. rewrite Ec in E. destruct pc; simplify_run; try done. by edestruct Hno.
Qed.

Definition asleep (r : Sys PublishedFrame) : Prop := consumer r = DWait /\ eventfd r = 0.

(** The drain task of shard [j] empties its inbox; the others wait. *)
Lemma drainer_settles k a S j th s r :
  machine_inv a S -> Z.of_nat a < 2 ^ 61 -> threads S !! j = Some th -> pushing th = false -> cores S !! j = Some s ->
  rings S !! j = Some r -> drain_measure r < Z.of_nat k ->
  exists S' s' r' q, rtc finishing S S' /\ machine_inv a S' /\ threads S' = <[j := Running]> (threads S) /\
    cores S' = <[j := s']> (cores S) /\ rings S' = <[j := r']> (rings S) /\ asleep r' /\
    claimed r' = claimed r /\ received r' = received r ++ q /\ drained s q s'.
Proof.
  revert S th s r. induction k as [|k IH]; intros S th s r HS Ha Hth Hp Hs Hr Hm;
    pose proof (mi_ring _ _ HS j r Hr) as [_ [g Hi] _ _]; pose proof (i_eventfd _ _ _ _ Hi) as He0.
  { pose proof (inv_prefix _ _ _ _ Hi) as Hpre%prefix_length. rewrite taken_length in Hpre.
    assert (0 <= drain_rank (consumer r)) by (destruct (consumer r) as [|[| | | | |[]]]; cbn; lia).
    unfold drain_measure, len in Hm. destruct (0 <? eventfd r); lia. }
  assert (asleep r \/ (consumer r <> DWait \/ 0 < eventfd r)) as [Has|Hc].
  { unfold asleep. destruct (consumer r); [|by right; left]. destruct (Z.eq_dec (eventfd r) 0); [by left|right; right; lia]. }
  { exists S, s, r, []. pose proof (mi_drain _ _ HS j r Hr) as Hd. rewrite Hth in Hd.
    assert (th = Running) as -> by (destruct Has; destruct th; naive_solver).
    split_and!; [apply rtc_refl|done|by rewrite list_insert_id|by rewrite list_insert_id|by rewrite list_insert_id|done|done|by rewrite app_nil_r|apply drained_nil]. }
  destruct (drainer_step a S j th s r HS Hth Hp Hs Hr Hc) as (S1 & Hst & Hf & th1 & s1 & r1 & q1 & Hp1 & Et & Ec & Er & E & Hq1 & Hd1).
  destruct (drain_decreases _ _ E Hc) as [Hlt _]. destruct (act_consumer _ _ E) as [_ Hcl].
  pose proof (lookup_lt_Some _ _ _ Hth) as Hjt. pose proof (lookup_lt_Some _ _ _ Hs) as Hjc. pose proof (lookup_lt_Some _ _ _ Hr) as Hjr.
  pose proof (machine_inv_step a j S S1 th HS Ha Hth Hst) as H1. rewrite Hp in H1.
  destruct (IH S1 th1 s1 r1) as (S' & s' & r' & q & Hr' & H' & Et' & Ec' & Er' & Has & Hcl' & Hq & Hd); try done.
  { by rewrite Et, list_lookup_insert_eq. }
  { by rewrite Ec, list_lookup_insert_eq. }
  { by rewrite Er, list_lookup_insert_eq. }
  { lia. }
  exists S', s', r', (q1 ++ q). split_and!; [eapply rtc_l; [by exists j|done]|done|..|exact Has|congruence| |].
  - by rewrite Et', Et, list_insert_insert_eq.
  - by rewrite Ec', Ec, list_insert_insert_eq.
  - by rewrite Er', Er, list_insert_insert_eq.
  - by rewrite Hq, Hq1, app_assoc.
  - by eapply drained_app.
Qed.

Lemma no_producers a S j r :
  machine_inv a S -> (forall k th, threads S !! k = Some th -> in_push th = false) -> rings S !! j = Some r -> producers r = ∅.
Proof.
  intros HS Hno Hr. apply map_eq. intros k. rewrite lookup_empty. destruct (producers r !! k) as [[v pc]|] eqn:Hk; [|done].
  destruct (mi_prod _ _ HS j r k v pc Hr Hk) as (rc & ps & bp & Hth). by apply Hno in Hth.
Qed.

(** The drain tasks of the first [k] shards, when nobody publishes. *)
Lemma drainers_settle k a S :
  (k <= n)%nat -> machine_inv a S -> Z.of_nat a < 2 ^ 61 ->
  (forall j th, threads S !! j = Some th -> pushing th = false) ->
  exists S', rtc finishing S S' /\ machine_inv a S' /\
    forall j th s r, threads S !! j = Some th -> cores S !! j = Some s -> rings S !! j = Some r ->
      exists th' s' r' q, threads S' !! j = Some th' /\ cores S' !! j = Some s' /\ rings S' !! j = Some r' /\
        claimed r' = claimed r /\ received r' = received r ++ q /\ drained s q s' /\
        (if bool_decide (j < k)%nat then th' = Running /\ asleep r' else th' = th /\ s' = s /\ r' = r).
Proof.
  intros Hk HS Ha Hno. induction k as [|k IH].
  { exists S. split_and!; [apply rtc_refl|done|]. intros j th s r Hth Hs Hr. exists th, s, r, [].
    rewrite bool_decide_false by lia. split_and!; try done; [by rewrite app_nil_r|apply drained_nil]. }
  destruct IH as (S1 & Hr1 & H1 & Hall); [lia|].
  destruct (lookup_lt_is_Some_2 (threads S) k) as [th Hth]; [rewrite (mi_threads _ _ HS); lia|].
  destruct (lookup_lt_is_Some_2 (cores S) k) as [s Hs]; [rewrite (mi_cores _ _ HS); lia|].
  destruct (lookup_lt_is_Some_2 (rings S) k) as [r Hr]; [rewrite (mi_rings _ _ HS); lia|].
  destruct (Hall k th s r Hth Hs Hr) as (th1 & s1 & r1 & q1 & Hth1 & Hs1 & Hrk & _ & _ & _ & E1).
  rewrite bool_decide_false in E1 by lia. destruct E1 as (-> & -> & ->).
  destruct (drainer_settles (Datatypes.S (Z.to_nat (drain_measure r))) a S1 k th s r H1 Ha Hth1)
    as (S' & s' & r' & q & Hr' & H' & Et & Ec & Er & Has & Hcl & Hq & Hd); [by eapply Hno|done|done|lia|].
  exists S'. split_and!; [by etrans|done|].
  intros j thj sj rj Hj Hsj Hrj. rewrite Et, Ec, Er. destruct (decide (j = k)) as [->|Hne].
  - rewrite Hs in Hsj. injection Hsj as <-. rewrite Hr in Hrj. injection Hrj as <-.
    rewrite !list_lookup_insert_eq by by eapply lookup_lt_Some. rewrite bool_decide_true by lia.
    by eexists _, _, _, q.
  - rewrite !list_lookup_insert_ne by done.
    rewrite (bool_decide_ext (j < Datatypes.S k)%nat (j < k)%nat) by lia. by apply Hall.
Qed.

Abbreviation threads_reach t S := (nsteps mstep t (machine_initial scratch box n) S).

(** C2.  The server, access by access, is safe: after fewer than 2^61 steps of
    the shards' threads in any interleaving (a drain task may run between two
    accesses of a push, pushes may race for a slot, a [pop] may find its slot
    claimed but not yet published) every shard is a state of its own machine as
    soon as the publication it is in the middle of, if any, has ended, and that
    end does not panic; every inbox is a state of the inbox under concurrent
    pushes, holds validated publications only, and hands them to the drain task
    in the order in which the pushes won their slots; and no thread is ever
    stuck: in a publication, in a push or in the drain loop it can take its
    next step, and a drain task whose eventfd is set wakes up. *)
Theorem threads_refine_shards t S :
  threads_reach t S -> Z.of_nat t < 2 ^ 61 ->
  (forall j th s, threads S !! j = Some th -> cores S !! j = Some s ->
    (exists s', after_publication th s s') /\ (forall s', after_publication th s s' -> reaches j s')) /\
  (forall i r, rings S !! i = Some r ->
    (exists acts, exec acts (start box) = Done r) /\ Forall frame_valid (claimed r) /\
    received r `prefix_of` taken r /\ taken r `prefix_of` claimed r) /\
  (forall j th, threads S !! j = Some th -> th <> Running -> exists S', tstep j S S') /\
  (forall j r, threads S !! j = Some Running -> rings S !! j = Some r -> 0 < eventfd r ->
    exists S', tstep j S S' /\ threads S' !! j = Some Draining).
Proof.
  intros Hst Ht. pose proof (machine_inv_run t 0 _ S machine_inv_initial ltac:(lia) Hst) as HS. cbn [Nat.add] in HS.
  split_and!.
  - intros j th s Hth Hs. destruct (core_at _ _ _ _ HS Hth) as (Hj & s0 & Hs0 & Hok).
    rewrite Hs in Hs0. injection Hs0 as <-. unfold after_publication.
    assert (forall rc f, publishing j s rc f -> (exists s' bp w', end_pub rc bp (worker s) = Done (w', tt) /\
        s' = mkShard w' (readers s) (writers s)) /\
      forall s', (exists bp w', end_pub rc bp (worker s) = Done (w', tt) /\ s' = mkShard w' (readers s) (writers s)) ->
        reaches j s') as Hpub.
    { intros rc f Hp. split.
      - destruct (end_total j s rc f false Hj Hp) as [w' E]. by eexists _, false, w'.
      - intros s' (bp & w' & E & ->). by eapply ended_ok. }
    destruct th; cbn [pub_rc]; try (by destruct Hok; eapply Hpub); (split; [by exists s|by intros s' ->]).
  - intros i r Hr. destruct (mi_ring _ _ HS i r Hr) as [Hro [g Hi] Hv _].
    split_and!; [done|done|by exists (in_hand (consumer r))|by eapply inv_prefix].
  - intros j th Hth Hne. destruct (core_at _ _ _ _ HS Hth) as (Hj & s & Hs & _). destruct (pushing th) eqn:Hp.
    + destruct (publisher_step _ S j th s HS Ht Hth Hs Hp) as (S' & Hst' & _). by exists S'.
    + destruct (ring_at _ _ j HS Hj) as (r & Hr & _). destruct (drainer_step _ S j th s r HS Hth Hp Hs Hr) as (S' & Hst' & _); [|by exists S'].
      left. rewrite (mi_drain _ _ HS j r Hr), Hth. intros H. by apply H; destruct th.
  - intros j r Hth Hr He. destruct (core_at _ _ _ _ HS Hth) as (Hj & s & Hs & _).
    destruct (drainer_step _ S j Running s r HS Hth eq_refl Hs Hr) as (S' & Hst' & Hd & _); [by right|].
    exists S'. split; [done|by apply Hd].
Qed.

End Shards.

(* ------------------------------------------------------------------ *)
(** * Runs *)

#[export] Instance PublishedFrame_eq_dec : EqDecision PublishedFrame.
Proof. solve_decision. Defined.

Section Runs.
Context `{N : Notify}.
Variables (capacity buffer_size : Z).

(** What a thread is told to do: run a task, read a [PUB] from a connection,
    or go on with what it is doing. *)
Inductive order : Type :=
| OTask (e : event)
| OPublish (rc : Rc) (text : bytes)
| ONext (spurious : bool).

Definition publishes (text : bytes) : bool :=
  match parse_frame text with Done (ParseOutcome.Frame f _) => is_pub f | _ => false end.

Definition run_publish (j : nat) (rc : Rc) (text : bytes) (S : Machine N) : option (Machine N) :=
  s ← cores S !! j;
  th ← threads S !! j;
  match th, readers s !! rc, parse_frame text with
  | Running, Some (RLoop _), Done (ParseOutcome.Frame (Frame.Pub subject reply_to payload) _) =>
      if (len text <=? isize_max) && (total_subscriptions (table (worker s)) <? usize_max) then
        r ← finished (begin_frame subject reply_to payload rc (worker s));
        Some (mkMachine (<[j := mkShard r.1 (readers s) (writers s)]> (cores S))
          (<[j := match r.2 with
                  | Some f => Publishing rc f (List.seq 0 (length (peer_inboxes r.1))) false
                  | None => Running end]> (threads S)) (rings S))
      else None
  | _, _, _ => None
  end.

Definition run_push (j : nat) (spurious : bool) rc f i ps bp (S : Machine N) : option (Machine N) :=
  r ← rings S !! i;
  x ← producers r !! j;
  r' ← finished (act_step (AProducer j spurious) r);
  if bool_decide (x.1 = f) then
    Some (mkMachine (cores S)
      (match x.2 with PReturn o => <[j := Publishing rc f ps (bp || refuses o)]> (threads S) | _ => threads S end)
      (<[i := r']> (rings S)))
  else None.

Definition run_drain (j : nat) (S : Machine N) : option (Machine N) :=
  s ← cores S !! j;
  r ← rings S !! j;
  r' ← finished (act_step AConsumer r);
  match consumer r with
  | DWait => None
  | DPop (CReturn None) => Some (mkMachine (cores S) (<[j := Running]> (threads S)) (<[j := r']> (rings S)))
  | DPop (CReturn (Some f)) =>
      d ← finished (dispatch_local (ShardInbox.subject f) (ShardInbox.reply_to f) (ShardInbox.payload f) (worker s));
      Some (mkMachine (<[j := mkShard d.1 (readers s) (writers s)]> (cores S)) (threads S) (<[j := r']> (rings S)))
  | DPop _ => Some (mkMachine (cores S) (threads S) (<[j := r']> (rings S)))
  end.

Definition run_next (j : nat) (spurious : bool) (S : Machine N) : option (Machine N) :=
  th ← threads S !! j;
  match th with
  | Publishing rc f [] bp =>
      s ← cores S !! j;
      r ← finished (end_pub rc bp (worker s));
      Some (mkMachine (<[j := mkShard r.1 (readers s) (writers s)]> (cores S)) (<[j := Running]> (threads S)) (rings S))
  | Publishing rc f (i :: ps) bp =>
      if bool_decide (i = j) then Some (mkMachine (cores S) (<[j := Publishing rc f ps bp]> (threads S)) (rings S))
      else
        r ← rings S !! i;
        r' ← finished (act_step (APush j f) r);
        Some (mkMachine (cores S) (<[j := InPush rc f i ps bp]> (threads S)) (<[i := r']> (rings S)))
  | InPush rc f i ps bp => run_push j spurious rc f i ps bp S
  | Draining => run_drain j S
  | Running =>
      r ← rings S !! j;
      r' ← finished (act_step AConsumer r);
      match consumer r with
      | DWait =>
          if 0 <? eventfd r
          then Some (mkMachine (cores S) (<[j := Draining]> (threads S)) (<[j := r']> (rings S))) else None
      | _ => None
      end
  end.

Definition run_order (S : Machine N) (o : nat * order) : option (Machine N) :=
  let j := o.1 in
  match o.2 with
  | OTask e =>
      s ← cores S !! j;
      th ← threads S !! j;
      match th, (match e with Input _ text => publishes text | _ => false end) with
      | Running, false => s' ← run_task capacity buffer_size e s; Some (mkMachine (<[j := s']> (cores S)) (threads S) (rings S))
      | _, _ => None
      end
  | OPublish rc text => run_publish j rc text S
  | ONext spurious => run_next j spurious S
  end.

Fixpoint run_orders (S : Machine N) (os : list (nat * order)) : option (Machine N) :=
  match os with
  | [] => Some S
  | o :: os => S' ← run_order S o; run_orders S' os
  end.

Abbreviation any := (fun (_ : Subscriptions) (_ : Frame.t) => True).
Abbreviation tstep := (thread_step capacity buffer_size any).

Lemma run_publish_sound j rc text S S' : run_publish j rc text S = Some S' -> tstep j S S'.
Proof.
  destruct S as [cs ths rs]. unfold run_publish. cbn [cores threads rings].
  intros (s & Hs & E)%bind_Some. apply bind_Some in E as (th & Hth & E).
  destruct th; try done. destruct (readers s !! rc) as [[|subs]|] eqn:Hr; try done.
  destruct (parse_frame text) as [[f c| |]|] eqn:Ep; try done. destruct f as [|su re pa| | | | | | | |]; try done.
  destruct (Z.leb_spec (len text) isize_max); [|done].
  destruct (Z.ltb_spec (total_subscriptions (table (worker s))) usize_max); [|done]. cbn [andb] in E.
  apply bind_Some in E as ([w' o] & Eb%finished_Some & [= <-]). eapply thread_publish; try done. by eapply parse_frame_inv.
Qed.
Lemma run_push_sound j sp rc f i ps bp S S' :
  threads S !! j = Some (InPush rc f i ps bp) -> run_push j sp rc f i ps bp S = Some S' -> tstep j S S'.
Proof.
  destruct S as [cs ths rs]. unfold run_push. cbn [cores threads rings]. intros Hth E.
  apply bind_Some in E as (r & Hr & E). apply bind_Some in E as ([v pc] & Hx & E).
  apply bind_Some in E as (r' & Ea%finished_Some & E). cbn in E. case_bool_decide; [|done]. subst.
  destruct pc; injection E as <-; try (by eapply thread_access). by eapply thread_return.
Qed.
Lemma run_drain_sound j S S' : threads S !! j = Some Draining -> run_drain j S = Some S' -> tstep j S S'.
Proof.
  destruct S as [cs ths rs]. unfold run_drain. cbn [cores threads rings]. intros Hth E.
  apply bind_Some in E as (s & Hs & E). apply bind_Some in E as (r & Hr & E).
  apply bind_Some in E as (r' & Ea%finished_Some & E).
  destruct (consumer r) as [|[| | | | |[f|]]] eqn:Hc; try done; try (injection E as <-; by eapply thread_pop).
  - apply bind_Some in E as ([w' res] & Ed%finished_Some & [= <-]). by eapply thread_dispatch.
  - injection E as <-. by eapply thread_sleep.
Qed.
Lemma run_next_sound j sp S S' : run_next j sp S = Some S' -> tstep j S S'.
Proof.
  unfold run_next. intros (th & Hth & E)%bind_Some.
  destruct th as [|rc f [|i ps] bp|rc f i ps bp|]; [..|by eapply run_push_sound|by eapply run_drain_sound];
    destruct S as [cs ths rs]; cbn [cores threads rings] in *.
  - apply bind_Some in E as (r & Hr & E). apply bind_Some in E as (r' & Ea%finished_Some & E).
    destruct (consumer r) eqn:Hc; [|done]. destruct (Z.ltb_spec 0 (eventfd r)); [|done].
    injection E as <-. by eapply thread_wake.
  - apply bind_Some in E as (s & Hs & E). apply bind_Some in E as ([w' []] & Ea%finished_Some & [= <-]). by eapply thread_end.
  - case_bool_decide; [subst; injection E as <-; by eapply thread_skip|].
    apply bind_Some in E as (r & Hr & E). apply bind_Some in E as (r' & Ea%finished_Some & [= <-]). by eapply thread_call.
Qed.
Lemma run_order_sound S o S' : run_order S o = Some S' -> machine_step capacity buffer_size any S S'.
Proof.
  destruct o as [j [e|rc text|sp]]; cbn; intros E; exists j; [|by eapply run_publish_sound|by eapply run_next_sound].
  destruct S as [cs ths rs]; cbn [cores threads rings] in *.
  apply bind_Some in E as (s & Hs & E). apply bind_Some in E as (th & Hth & E). destruct th; try done.
  destruct (match e with Input _ text => publishes text | _ => false end) eqn:Hp; [done|].
  apply bind_Some in E as (s' & Ht & [= <-]). eapply thread_task; [done..|].
  eapply run_task_sound_in; [|done]. intros rc text subs f c -> Ep. split; [done|].
  unfold publishes in Hp. by rewrite Ep in Hp.
Qed.
Lemma run_orders_sound S os S' :
  run_orders S os = Some S' -> nsteps (machine_step capacity buffer_size any) (length os) S S'.
Proof.
  revert S. induction os as [|o os IH]; intros S; cbn; [intros [= ->]; constructor|].
  intros (S1 & E1%run_order_sound & E2)%bind_Some. econstructor; eauto.
Qed.
End Runs.

(** Three shards with a client each; those of shards 0 and 1 publish at once. *)
Module Racing.
#[local] Existing Instance permit_notify.
Definition begun : Machine permit_notify := machine_initial 64 Ex.inbox 3.
Definition line (s : string) : bytes := bs s ++ CRLF.
Definition joins (j : nat) : list (nat * order) :=
  [(j, OTask (Accept 0)); (j, OTask (Greet 0)); (j, OTask (Input 0 (line "SUB a 7")))].
Definition go (j k : nat) : list (nat * order) := repeat (j, ONext false) k.

(** Thread 0 pushes to shard 1 and reads the tail of inbox 2; thread 1 pushes to
    shard 0 and reads the same tail; thread 0 wins the slot and stops before
    writing it; thread 1 loses, retries and completes its publication; its drain
    task wakes up and starts a [pop]. *)
Definition schedule : list (nat * order) :=
  joins 0 ++ joins 1 ++ joins 2 ++
  [(0, OPublish 0 (line "PUB a 2" ++ line "hi")); (1, OPublish 0 (line "PUB a 2" ++ line "yo"))]%nat ++
  go 0 (1 + 8 + 3) ++ go 1 (8 + 1 + 3) ++ go 0 1 ++ go 1 8 ++ go 1 3.
Definition raced : Machine permit_notify := default begun (run_orders 256 64 begun schedule).
End Racing.

Abbreviation any_frame := (fun (_ : Subscriptions) (_ : Frame.t) => True).

Lemma raced_reached :
  nsteps (machine_step 256 64 any_frame) (length Racing.schedule) (machine_initial 64 Ex.inbox 3) Racing.raced.
Proof. apply (run_orders_sound (N := permit_notify) 256 64 Racing.begun Racing.schedule). by vm_compute. Qed.

Lemma threads_refine_shards_witness :
  (exists rc f, threads Racing.raced !! 0%nat = Some (InPush rc f 2 [] false)) /\
  (exists S', thread_step 256 64 any_frame 0 Racing.raced S') /\
  (forall i r, rings Racing.raced !! i = Some r ->
    (exists acts, exec acts (start Ex.inbox) = Done r) /\ Forall frame_valid (claimed r) /\
    received r `prefix_of` taken r /\ taken r `prefix_of` claimed r).
Proof.
  destruct (threads_refine_shards (N := permit_notify) (NL := permit_laws) 256 64 any_frame ltac:(done) ltac:(done) 64
    Ex.inbox 3 1 ltac:(done) ltac:(done) Ex.inbox_holds (length Racing.schedule) Racing.raced raced_reached ltac:(by vm_compute))
    as (_ & Hrings & Hgo & _).
  split_and!; [eexists _, _; by vm_compute| |exact Hrings].
  eapply (Hgo 0%nat); [by vm_compute|done].
Defined.

