(* ===== verification/Loom.v ===== *)
(** The loom tests of the inbox ([aulon-core/tests/loom_inbox.rs]), for every
    schedule: loom runs the two tests under the interleavings it can enumerate;
    here the harness they share (threads that push, a main thread that pops a
    few times, joins them, drains and checks what it saw) is shown never to
    panic for any number of threads, of pushes and of early pops. *)
From Stdlib Require Import ZArith Lia.
From stdpp Require Import base gmap list.
From S2P Require Import Prelude ShardInbox InboxConc.

(** A spawned thread: the pushes it has left, the first of them possibly under
    way. *)
Definition pusher : Type := list Z * option (push_pc Z).

(** The main thread: the [for] loop with [n] pops to go, blocked in [join]
    at its end; [while let Some(v) = inbox.pop()]; the assertions; done. *)
Inductive main_pc : Type :=
| Pops (n : nat) (pc : option (pop_pc Z))
| Drain (pc : pop_pc Z)
| Asserts
| Passed.

Record Test : Type := mkTest {
  shared : ShardInbox Z;
  pushers : list pusher;
  main : main_pc;
  seen : list Z;
}.

(** One access of a spawned thread; [push(v).expect("inbox capacity")]. *)
Definition pusher_step (spurious : bool) (m : ShardInbox Z) (p : pusher) : run (ShardInbox Z * pusher) :=
  match p with
  | ([], _) => mret (m, p)
  | (v :: vs, None) => mret (m, (v :: vs, Some PLoadTail))
  | (v :: vs, Some (PReturn r)) => match r with Ok _ => mret (m, (vs, None)) | Err _ => Panic end
  | (v :: vs, Some pc) => x ← push_step spurious v m pc; mret (x.1, (v :: vs, Some x.2))
  end.

(** [assert!(seen.insert(v))]. *)
Definition insert_seen (v : Z) (seen : list Z) : run (list Z) :=
  if bool_decide (v ∈ seen) then Panic else mret (seen ++ [v]).

(** [join] on every handle, once the thread has finished. *)
Definition finished_ (p : pusher) : bool := match p with ([], _) => true | _ => false end.

Section Harness.
(** The values [seen] is checked against. *)
Variable expected : list Z.

Definition main_step (t : Test) : run Test :=
  match main t with
  | Pops n None =>
      if bool_decide (n = O) then
        mret (if forallb finished_ (pushers t)
              then mkTest (shared t) (pushers t) (Drain CLoadHead) (seen t) else t)
      else mret (mkTest (shared t) (pushers t) (Pops n (Some CLoadHead)) (seen t))
  | Pops n (Some (CReturn None)) => mret (mkTest (shared t) (pushers t) (Pops (pred n) None) (seen t))
  | Pops n (Some (CReturn (Some v))) =>
      s ← insert_seen v (seen t);
      mret (mkTest (shared t) (pushers t) (Pops (pred n) None) s)
  | Pops n (Some pc) =>
      x ← pop_step (shared t) pc;
      mret (mkTest x.1 (pushers t) (Pops n (Some x.2)) (seen t))
  | Drain (CReturn None) => mret (mkTest (shared t) (pushers t) Asserts (seen t))
  | Drain (CReturn (Some v)) =>
      s ← insert_seen v (seen t);
      mret (mkTest (shared t) (pushers t) (Drain CLoadHead) s)
  | Drain pc =>
      x ← pop_step (shared t) pc;
      mret (mkTest x.1 (pushers t) (Drain x.2) (seen t))
  | Asserts =>
      _ ← assert_ (len (seen t) =? len expected);
      _ ← assert_ (forallb (fun v => bool_decide (v ∈ seen t)) expected);
      mret (mkTest (shared t) (pushers t) Passed (seen t))
  | Passed => mret t
  end.

(** The scheduler picks spawned thread [i] or the main thread; one that is
    blocked or has finished stays where it is. *)
Inductive turn : Type :=
| TPusher (i : nat) (spurious : bool)
| TMain.

Definition take_turn (a : turn) (t : Test) : run Test :=
  match a with
  | TPusher i spurious =>
      match pushers t !! i with
      | None => mret t
      | Some p =>
          x ← pusher_step spurious (shared t) p;
          mret (mkTest x.1 (<[i := x.2]> (pushers t)) (main t) (seen t))
      end
  | TMain => main_step t
  end.

Fixpoint schedule (turns : list turn) (t : Test) : run Test :=
  match turns with
  | [] => mret t
  | a :: turns => t' ← take_turn a t; schedule turns t'
  end.
End Harness.

(** The two tests: the threads' pushes and the number of early pops. *)
Definition spawn (requested_capacity : Z) (scripts : list (list Z)) (pops : nat) : run Test :=
  inbox ← with_capacity requested_capacity;
  mret (mkTest inbox ((fun vs => (vs, None)) <$> scripts) (Pops pops None) []).
Definition producer_producer_race (turns : list turn) : run Test :=
  t ← spawn 4 [[10]; [20]] 0; schedule [10; 20] turns t.
Definition producer_consumer_race (turns : list turn) : run Test :=
  t ← spawn 4 [[1; 2]] 3; schedule [1; 2] turns t.

(* ------------------------------------------------------------------ *)
(** * The harness follows the inbox of [InboxConc] *)

(** What a thread has yet to win a slot for. *)
Definition unclaimed (p : pusher) : list Z :=
  match p with
  | (v :: vs, Some pc) => match past_cas (v, pc) with [] => v :: vs | _ => vs end
  | (vs, _) => vs
  end.
Definition under_way (p : pusher) : option (Z * push_pc Z) :=
  match p with (v :: _, Some pc) => Some (v, pc) | _ => None end.
(** Between two pops, and after the last, the main thread stands where the next
    would start. *)
Definition popping (m : main_pc) : drain_pc Z :=
  match m with Pops _ (Some pc) | Drain pc => DPop pc | _ => DPop CLoadHead end.
Definition joined (m : main_pc) : bool := match m with Pops _ _ => false | _ => true end.
(** The last pop has found the inbox empty. *)
Definition emptied (m : main_pc) : bool :=
  match m with Drain (CReturn None) | Asserts | Passed => true | _ => false end.

Section Harnessed.
Variables (k : Z) (expected : list Z).

Record follows (t : Test) (g : list (Z * stage)) (s : Sys Z) : Prop := {
  f_inv : InboxConc.inv 0 k g s;
  f_inbox : inbox s = shared t;
  f_pushers : forall i, producers s !! i = pushers t !! i ≫= under_way;
  f_main : consumer s = popping (main t);
  f_seen : received s = seen t;
  f_claims : claimed s ++ concat (unclaimed <$> pushers t) ≡ₚ expected;
  f_joined : joined (main t) = true -> forall p, p ∈ pushers t -> p.1 = [];
  f_emptied : emptied (main t) = true -> received s = claimed s;
  f_accepted : forall v vs pc e, (v :: vs, Some pc) ∈ pushers t -> pc <> PReturn (Err e);
}.

Hypothesis Hnodup : NoDup expected.
Hypothesis Hroom : len expected < 2 ^ k.
Hypothesis Hsmall : len expected < 2 ^ 61.

Lemma concat_insert {A B} (f : A -> list B) (l : list A) i x y :
  l !! i = Some x -> concat (f <$> l) ++ f y ≡ₚ concat (f <$> <[i := y]> l) ++ f x.
Proof.
  intros H. rewrite insert_take_drop by by eapply lookup_lt_Some.
  rewrite <- (take_drop_middle l i x H) at 1. rewrite !fmap_app, !fmap_cons, !concat_app. cbn [concat]. solve_Permutation.
Qed.

Lemma claims_bound t g s : follows t g s -> len (claimed s) <= len expected /\ length g = length (claimed s).
Proof.
  intros H. pose proof (f_claims _ _ _ H) as Hc%Permutation_length. rewrite length_app in Hc.
  rewrite (InboxConc.i_claimed _ _ _ _ (f_inv _ _ _ H)) at 2. rewrite length_fmap. unfold len. lia.
Qed.

Lemma emptied_joined m : emptied m = true -> joined m = true.
Proof. by destruct m. Qed.

(** A step of thread [i], which has something left to push. *)
Lemma follows_pusher t g s i p p' m' g' s' :
  follows t g s -> pushers t !! i = Some p -> p.1 <> [] ->
  InboxConc.inv 0 k g' s' -> inbox s' = m' -> consumer s' = consumer s -> received s' = received s ->
  (forall j, j <> i -> producers s' !! j = producers s !! j) -> producers s' !! i = under_way p' ->
  claimed s' ++ unclaimed p' ≡ₚ claimed s ++ unclaimed p ->
  (forall v vs pc e, p' = (v :: vs, Some pc) -> pc <> PReturn (Err e)) ->
  follows (mkTest m' (<[i := p']> (pushers t)) (main t) (seen t)) g' s'.
Proof.
  intros H Hp Hne Hinv Hm Hc Hr Hj Hi Hcl Hok. pose proof H as [].
  pose proof (lookup_lt_Some _ _ _ Hp) as Hlt.
  assert (joined (main t) = true -> False) as Hnj.
  { intros Hjo. by eapply Hne, (f_joined0 Hjo), list_elem_of_lookup_2. }
  constructor; cbn [shared pushers main seen]; try congruence.
  - intros j. destruct (decide (j = i)) as [->|Hn].
    + by rewrite list_lookup_insert_eq.
    + by rewrite list_lookup_insert_ne, Hj by done.
  - pose proof (concat_insert unclaimed (pushers t) i p p' Hp) as Hcc.
    apply (Permutation_app_inv_r (unclaimed p)). rewrite <- f_claims0, <- app_assoc, <- Hcc.
    rewrite (Permutation_app_comm (concat _) (unclaimed p')), app_assoc, Hcl. solve_Permutation.
  - intros He. destruct Hnj. by apply emptied_joined.
  - intros v vs pc e [j Hin]%list_elem_of_lookup_1. apply list_lookup_insert_Some in Hin as [(_ & Hx & _)|[_ Hx]].
    + by eapply Hok.
    + eapply f_accepted0, list_elem_of_lookup_2, Hx.
Qed.

(** No push is refused: the values are fewer than the slots. *)
Lemma never_refused t g s i v b x r :
  follows t g s -> producers s !! i = Some (v, x) -> (forall r, x <> PReturn r) ->
  push_step b v (inbox s) x = Done r -> forall e, r.2 <> PReturn (Err e).
Proof.
  intros H Hx Hn E e He. destruct (claims_bound _ _ _ H) as [Hb Hg]. unfold len in Hb.
  pose proof (f_inv _ _ _ H) as Hi. destruct x as [|y|y|y|y|y|q]; cbn [push_step] in E.
  - by injection E as <-.
  - destruct (InboxConc.i_producers _ _ _ _ Hi i v _ Hx) as (n & -> & Hle).
    destruct (observed_slot _ _ _ _ Hi n Hle) as (sl & d & Hsl & Hq & Hd & _ & Hneg & _); [unfold len in Hsmall; lia|].
    pose proof (push_load_seq b v (inbox s) k _ d sl (InboxConc.i_ring _ _ _ _ Hi) Hsl Hq Hd) as Hp.
    unfold W in E. cbn [push_step] in Hp. rewrite Hp in E. injection E as <-. cbn in He.
    destruct (Z.compare_spec d 0) as [|Hlt|]; try done. specialize (Hneg Hlt). unfold len in Hroom. lia.
  - destruct (_ && _); by injection E as <-.
  - by simplify_run.
  - by simplify_run.
  - by injection E as <-.
  - by destruct (Hn q).
Qed.

(** A push wins its slot at the compare-exchange and nowhere else. *)
Lemma won_unclaimed b v vs m pc x :
  push_step b v m pc = Done x -> (forall r, pc <> PReturn r) ->
  won pc x.2 v ++ unclaimed (v :: vs, Some x.2) = unclaimed (v :: vs, Some pc).
Proof.
  intros E Hn. destruct pc as [|y|y|y|y|y|r]; cbn [push_step] in E.
  - by injection E as <-.
  - simplify_run. destruct (_ ?= _); injection E as <-; done.
  - destruct (_ && _); by injection E as <-.
  - by simplify_run.
  - by simplify_run.
  - by injection E as <-.
  - by destruct (Hn r).
Qed.

(** How far a thread that runs alone is from its end. *)
Definition chores (s : Sys Z) (p : pusher) : nat :=
  match p.2 with
  | None => 10 * length p.1
  | Some pc => 10 * pred (length p.1) + 1 + rank s pc
  end.

Lemma pusher_turn t g s i p b :
  follows t g s -> pushers t !! i = Some p ->
  exists x g' s', pusher_step b (shared t) p = Done x /\
    follows (mkTest x.1 (<[i := x.2]> (pushers t)) (main t) (seen t)) g' s' /\
    (p.1 <> [] -> b = false -> (chores s' x.2 < chores s p)%nat).
Proof.
  intros H Hp. pose proof (f_pushers _ _ _ H i) as Hu. rewrite Hp in Hu. cbn in Hu.
  pose proof (f_inv _ _ _ H) as Hi. destruct (claims_bound _ _ _ H) as [Hb Hg]. unfold len in Hb, Hsmall.
  destruct p as [[|v vs] o].
  { exists (shared t, ([], o)), g, s. split; [done|]. cbn. rewrite list_insert_id by done. split; [by destruct t|done]. }
  destruct o as [pc|]; cbn [under_way] in Hu.
  2: { exists (shared t, (v :: vs, Some PLoadTail)), g, (produced s i v PLoadTail (inbox s, PLoadTail)). split; [done|].
       split; [|intros _ _; cbn; lia]. eapply follows_pusher; try done; [by apply inv_push|by rewrite <- (f_inbox _ _ _ H)|..].
       - intros j Hj. cbn. by rewrite lookup_insert_ne.
       - cbn. by rewrite lookup_insert_eq.
       - cbn. by rewrite app_nil_r.
       - by intros ? ? ? ? [= <- <- <-]. }
  assert ((exists r, pc = PReturn r) \/ forall r, pc <> PReturn r) as [[r ->]|Hn]
    by (destruct pc; (by right) || (left; eauto)).
  { destruct r as [kick|e].
    2: { exfalso. eapply (f_accepted _ _ _ H v vs); [by eapply list_elem_of_lookup_2|done]. }
    exists (shared t, (vs, None)), g, (returned s i v (Ok kick)). split; [done|].
    split; [|intros _ _; cbn; lia]. eapply follows_pusher; try done; [by apply inv_returned|by rewrite <- (f_inbox _ _ _ H)|..].
    - intros j Hj. cbn. by rewrite lookup_delete_ne.
    - cbn. rewrite lookup_delete_eq. by destruct vs.
    - cbn. by destruct vs. }
  destruct (producer_step_advances 0 k g s Hi i v pc b Hu ltac:(lia) Hn) as (g' & x & E & Hi' & _).
  rewrite (f_inbox _ _ _ H) in E.
  exists (x.1, (v :: vs, Some x.2)), g', (produced s i v pc x). split_and!.
  { cbn [pusher_step]. destruct pc; try by rewrite E. by edestruct Hn. }
  2: { intros _ ->. rewrite <- (f_inbox _ _ _ H) in E.
       pose proof (producer_rank 0 k g s i v pc x Hi ltac:(lia) Hu Hn E). cbn. lia. }
  assert (forall e, x.2 <> PReturn (Err e)) as Hok.
  { eapply never_refused; [done..|]. by rewrite (f_inbox _ _ _ H). }
  eapply follows_pusher; try done.
  - intros j Hj. cbn. by rewrite lookup_insert_ne.
  - cbn. by rewrite lookup_insert_eq.
  - cbn [produced claimed]. by rewrite <- app_assoc, (won_unclaimed b v vs (shared t)).
  - by intros v' vs' pc' e [= <- <- <-].
Qed.

Lemma follows_main t g s t' s' :
  follows t g s -> InboxConc.inv 0 k g s' -> inbox s' = shared t' -> producers s' = producers s ->
  consumer s' = popping (main t') -> received s' = seen t' -> claimed s' = claimed s -> pushers t' = pushers t ->
  (joined (main t') = true -> joined (main t) = true \/ forallb finished_ (pushers t) = true) ->
  (emptied (main t') = true -> received s' = claimed s') -> follows t' g s'.
Proof.
  intros [] Hinv Hm Hp Hc Hr Hcl Ht Hj He. constructor; try done; rewrite ?Ht, ?Hp, ?Hcl; try done.
  intros [Hjo|Hf]%Hj; [auto|]. intros p Hin. rewrite forallb_forall in Hf.
  specialize (Hf p ltac:(by apply list_elem_of_In)). by destruct p as [[] ?].
Qed.

(** A pop that finds nothing once no push is under way leaves nothing. *)
Lemma none_left g (s : Sys Z) h m :
  InboxConc.inv 0 k g s -> consumer s = DPop (CLoadSeq h) -> producers s = ∅ ->
  pop_step (inbox s) (CLoadSeq h) = Done (m, CReturn None) -> received s = claimed s.
Proof.
  intros Hi Hc Hp E. pose proof (inv_prefix _ _ _ _ Hi) as Hpre.
  unfold taken in Hpre. rewrite Hc, app_nil_r in Hpre. apply prefix_length_eq; [done|].
  rewrite (InboxConc.i_claimed _ _ _ _ Hi), length_fmap. apply Nat.le_ngt. intros Hlt.
  destruct (lookup_lt_is_Some_2 g _ Hlt) as [[v [i|i|]] Eg].
  - apply (InboxConc.i_claims _ _ _ _ Hi) in Eg. by rewrite Hp in Eg.
  - apply (InboxConc.i_writes _ _ _ _ Hi) in Eg. by rewrite Hp in Eg.
  - pose proof Hi as []. pose proof (pow_bounds k (ring_k _ _ i_ring)) as Hk.
    unfold consumer_ok, released, taken in *. rewrite Hc in *. cbn in i_consumer, i_slots, i_room. subst h.
    rewrite app_nil_r in *. set (n := length (received s)) in *.
    pose proof (i_slots n ltac:(lia)) as Hs. unfold slot_of in Hs. rewrite Eg, decide_False in Hs by lia.
    unfold W in E. rewrite (pop_load_seq (inbox s) k _ 0 _ i_ring Hs) in E; [done|unfold W; cbn; f_equal; lia|done].
Qed.

(** An access of [pop]. *)
Lemma pop_turn g (s : Sys Z) pc :
  InboxConc.inv 0 k g s -> consumer s = DPop pc -> (forall o, pc <> CReturn o) ->
  exists x, pop_step (inbox s) pc = Done x /\ InboxConc.inv 0 k g (consumed s x.1 (DPop x.2) []) /\
    drain_rank (DPop x.2) < drain_rank (DPop pc).
Proof.
  intros Hi Hc Hn. destruct (consumer_step_advances 0 k g s Hi) as (s' & E & Hi').
  destruct (drain_decreases s s' E) as [Hlt _]; [by rewrite Hc; left|].
  cbn [act_step] in E. rewrite Hc in E. unfold drain_measure in Hlt. rewrite Hc in Hlt.
  assert ((x ← pop_step (inbox s) pc; Done (consumed s x.1 (DPop x.2) [])) = Done s') as E'
    by (destruct pc as [| | | | |o]; [exact E..|by destruct (Hn o)]). clear E.
  destruct (pop_step (inbox s) pc) as [x|]; [|done]. injection E' as <-. exists x.
  split_and!; [done..|]. cbn in Hlt |- *. rewrite app_nil_r in Hlt. lia.
Qed.
Lemma pop_again g (s : Sys Z) :
  InboxConc.inv 0 k g s -> consumer s = DPop (CReturn None) -> InboxConc.inv 0 k g (consumed s (inbox s) (DPop CLoadHead) []).
Proof.
  intros Hi Hc. apply inv_consumer_local; [done|..]; unfold consumer_ok, released, head_at, taken; rewrite ?Hc; cbn;
    rewrite ?app_nil_r; try done. by intros v [|].
Qed.

(** A value comes out once. *)
Lemma fresh_value t g s v :
  follows t g s -> consumer s = DPop (CReturn (Some v)) -> insert_seen v (seen t) = Done (seen t ++ [v]).
Proof.
  intros H Hc. unfold insert_seen. rewrite bool_decide_false; [done|]. intros Hin.
  pose proof (inv_prefix _ _ _ _ (f_inv _ _ _ H)) as [l Hl]. unfold taken in Hl. rewrite Hc in Hl. cbn in Hl.
  pose proof Hnodup as Hnd. rewrite <- (f_claims _ _ _ H), Hl, <- !app_assoc in Hnd.
  apply NoDup_app in Hnd as (_ & Hnd & _). rewrite (f_seen _ _ _ H) in Hnd. by apply (Hnd v Hin); set_solver.
Qed.

(** How far the main thread is from the end of the test. *)
Definition to_go (t : Test) : Z :=
  let more := 10 * (len expected - len (seen t)) in
  match main t with
  | Pops n None => more + 20 * Z.of_nat n + 21
  | Pops n (Some pc) => more + 20 * Z.of_nat (pred n) + 30 + drain_rank (DPop pc)
  | Drain pc => more + 2 + drain_rank (DPop pc)
  | Asserts => 1
  | Passed => 0
  end.

Lemma no_push_left t g s : follows t g s -> joined (main t) = true -> producers s = ∅.
Proof.
  intros H Hj. apply map_eq. intros i. rewrite lookup_empty, (f_pushers _ _ _ H).
  destruct (pushers t !! i) as [p|] eqn:Hp; [|done].
  pose proof (f_joined _ _ _ H Hj p ltac:(by eapply list_elem_of_lookup_2)) as E. by destruct p as [[] []].
Qed.
Lemma seen_bound t g s : follows t g s -> len (seen t) <= len expected.
Proof.
  intros H. destruct (claims_bound _ _ _ H) as [Hb _]. pose proof (inv_prefix _ _ _ _ (f_inv _ _ _ H)) as Hp%prefix_length.
  rewrite taken_length, (f_seen _ _ _ H) in Hp. unfold len in *. lia.
Qed.
(** The assertions at the end hold. *)
Lemma all_seen t g s :
  follows t g s -> emptied (main t) = true -> seen t ≡ₚ expected.
Proof.
  intros H He. rewrite <- (f_claims _ _ _ H), <- (f_emptied _ _ _ H He), (f_seen _ _ _ H).
  rewrite (proj2 (concat_nil_Forall _)), app_nil_r; [done|]. apply Forall_fmap, Forall_forall. intros p Hin.
  pose proof (f_joined _ _ _ H ltac:(by apply emptied_joined) p Hin) as E. by destruct p as [[] []].
Qed.

Lemma pops_turn t g s n pc :
  follows t g s -> main t = Pops n (Some pc) ->
  exists t' s', main_step expected t = Done t' /\ follows t' g s' /\ pushers t' = pushers t /\ to_go t' < to_go t.
Proof.
  intros H Hm. pose proof (f_inv _ _ _ H) as Hi. pose proof (f_main _ _ _ H) as Hc. rewrite Hm in Hc. cbn in Hc.
  unfold main_step, to_go. rewrite Hm.
  assert ((exists o, pc = CReturn o) \/ forall o, pc <> CReturn o) as [[[v|] ->]|Hn]
    by (destruct pc; (by right) || (left; eauto)).
  - rewrite (fresh_value t g s v H Hc). destruct (consumer_step_advances 0 k g s Hi) as (s' & E & Hi').
    cbn in E. rewrite Hc in E. injection E as <-. eexists _, _. split; [reflexivity|]. cbn [pushers main seen]. split_and!; [|done|].
    + eapply follows_main; try done; cbn; [by rewrite (f_inbox _ _ _ H)|by rewrite (f_seen _ _ _ H)].
    + cbn [drain_rank]. lens.
  - eexists _, _. split; [reflexivity|]. cbn [pushers main seen]. split_and!; [|done|cbn [drain_rank]; lia].
    eapply follows_main; [done|by apply pop_again|..]; try done; cbn; [by rewrite (f_inbox _ _ _ H)|by rewrite app_nil_r, (f_seen _ _ _ H)].
  - destruct (pop_turn g s pc Hi Hc Hn) as (x & E & Hi' & Hlt). rewrite (f_inbox _ _ _ H) in E.
    eexists (mkTest x.1 (pushers t) (Pops n (Some x.2)) (seen t)), _. split_and!.
    + destruct pc as [| | | | |o]; [by rewrite E..|by destruct (Hn o)].
    + eapply follows_main; try done; cbn; by rewrite app_nil_r, (f_seen _ _ _ H).
    + done.
    + cbn [main seen]. lia.
Qed.
Lemma drain_turn t g s pc :
  follows t g s -> main t = Drain pc ->
  exists t' s', main_step expected t = Done t' /\ follows t' g s' /\ pushers t' = pushers t /\ to_go t' < to_go t.
Proof.
  intros H Hm. pose proof (f_inv _ _ _ H) as Hi. pose proof (f_main _ _ _ H) as Hc. rewrite Hm in Hc. cbn in Hc.
  pose proof (no_push_left t g s H ltac:(by rewrite Hm)) as Hp.
  pose proof (seen_bound _ _ _ H) as Hsb. unfold main_step, to_go. rewrite Hm.
  assert ((exists o, pc = CReturn o) \/ forall o, pc <> CReturn o) as [[[v|] ->]|Hn]
    by (destruct pc; (by right) || (left; eauto)).
  - rewrite (fresh_value t g s v H Hc). destruct (consumer_step_advances 0 k g s Hi) as (s' & E & Hi').
    cbn in E. rewrite Hc in E. injection E as <-. eexists _, _. split; [reflexivity|]. cbn [pushers main seen]. split_and!; [|done|].
    + eapply follows_main; try done; cbn; [by rewrite (f_inbox _ _ _ H)|by rewrite (f_seen _ _ _ H)|rewrite Hm; by left].
    + cbn [drain_rank]. lens.
  - eexists _, _. split; [reflexivity|]. cbn [pushers main seen]. split_and!; [|done|cbn [drain_rank]; lia].
    eapply follows_main; [done|by apply pop_again|..]; try done; cbn; [by rewrite (f_inbox _ _ _ H)|by rewrite app_nil_r, (f_seen _ _ _ H)|rewrite Hm; by left|].
    intros _. rewrite app_nil_r. apply (f_emptied _ _ _ H). by rewrite Hm.
  - destruct (pop_turn g s pc Hi Hc Hn) as (x & E & Hi' & Hlt). pose proof E as E0. rewrite (f_inbox _ _ _ H) in E.
    eexists (mkTest x.1 (pushers t) (Drain x.2) (seen t)), _. split_and!.
    + destruct pc as [| | | | |o]; [by rewrite E..|by destruct (Hn o)].
    + eapply follows_main; try done; cbn; [by rewrite app_nil_r, (f_seen _ _ _ H)|rewrite Hm; by left|].
      intros He. rewrite app_nil_r. destruct x as [m [| | | | |[|]]]; try done.
      destruct pc as [|h|h|h v|h v|o]; [|by eapply none_left|..]; cbn [pop_step] in E0; by simplify_run.
    + done.
    + cbn [main seen]. lia.
Qed.

Lemma main_turn t g s :
  follows t g s ->
  exists t' s', main_step expected t = Done t' /\ follows t' g s' /\ pushers t' = pushers t /\
    (main t <> Passed -> forallb finished_ (pushers t) = true -> to_go t' < to_go t).
Proof.
  intros H. pose proof (f_inv _ _ _ H) as Hi. pose proof (f_main _ _ _ H) as Hc.
  destruct (main t) as [n [pc|]|pc| |] eqn:Hm.
  - destruct (pops_turn t g s n pc H Hm) as (t' & s' & ?). exists t', s'. naive_solver.
  - unfold main_step, to_go. rewrite Hm. case_bool_decide as Hn.
    + destruct (forallb finished_ (pushers t)) eqn:Hf.
      * eexists _, s. split; [done|]. split_and!; [|done|intros _ _; cbn; lia].
        eapply follows_main; try done; [apply (f_inbox _ _ _ H)|apply (f_seen _ _ _ H)|by right].
      * by exists t, s.
    + eexists _, s. split; [done|]. split_and!; [|done|intros _ _; cbn; lia].
      eapply follows_main; try done; [apply (f_inbox _ _ _ H)|apply (f_seen _ _ _ H)].
  - destruct (drain_turn t g s pc H Hm) as (t' & s' & ?). exists t', s'. naive_solver.
  - pose proof (all_seen t g s H ltac:(by rewrite Hm)) as Ha. unfold main_step, to_go. rewrite Hm.
    assert (len (seen t) = len expected) as -> by (unfold len; by rewrite Ha). rewrite Z.eqb_refl. cbn [assert_].
    replace (forallb _ expected) with true.
    2: { symmetry. apply forallb_forall. intros v Hv. apply bool_decide_eq_true. rewrite Ha. by apply list_elem_of_In. }
    eexists _, s. split; [done|]. split_and!; [|done|done].
    eapply follows_main; try done; [apply (f_inbox _ _ _ H)|apply (f_seen _ _ _ H)|rewrite Hm; by left|].
    intros _. apply (f_emptied _ _ _ H). by rewrite Hm.
  - exists t, s. unfold main_step. rewrite Hm. done.
Qed.

(** No turn panics. *)
Lemma take_turn_follows a t g s :
  follows t g s -> exists t' g' s', take_turn expected a t = Done t' /\ follows t' g' s'.
Proof.
  intros H. destruct a as [i b|]; cbn [take_turn].
  - destruct (pushers t !! i) as [p|] eqn:Hp; [|by exists t, g, s].
    destruct (pusher_turn t g s i p b H Hp) as (x & g' & s' & -> & H' & _). by eexists _, g', s'.
  - destruct (main_turn t g s H) as (t' & s' & ? & ? & _). by exists t', g, s'.
Qed.
Lemma schedule_follows turns t g s :
  follows t g s -> exists t' g' s', schedule expected turns t = Done t' /\ follows t' g' s'.
Proof.
  revert t g s. induction turns as [|a turns IH]; intros t g s H; cbn; [by exists t, g, s|].
  destruct (take_turn_follows a t g s H) as (t1 & g1 & s1 & -> & H1). by eapply IH.
Qed.

Lemma schedule_app l l' t : schedule expected (l ++ l') t = (t' ← schedule expected l t; schedule expected l' t').
Proof.
  revert t. induction l as [|a l IH]; intros t; [done|]. cbn. destruct (take_turn expected a t); [apply IH|done].
Qed.

(** Every thread, scheduled alone, finishes. *)
Lemma pusher_finishes fuel t g s i p :
  follows t g s -> pushers t !! i = Some p -> (chores s p < fuel)%nat ->
  exists turns t' g' s' p', schedule expected turns t = Done t' /\ follows t' g' s' /\
    pushers t' = <[i := p']> (pushers t) /\ p'.1 = [].
Proof.
  revert t g s p. induction fuel as [|fuel IH]; intros t g s p H Hp Hf; [lia|].
  destruct (decide (p.1 = [])) as [Hnil|Hne].
  { exists [], t, g, s, p. by rewrite list_insert_id. }
  destruct (pusher_turn t g s i p false H Hp) as (x & g1 & s1 & E & H1 & Hlt). specialize (Hlt Hne eq_refl).
  destruct (IH _ g1 s1 x.2 H1) as (turns & t' & g' & s' & p' & E' & H' & Hpu & Hend); [|lia|].
  { cbn. apply list_lookup_insert_eq. by eapply lookup_lt_Some. }
  exists (TPusher i false :: turns), t', g', s', p'. split_and!; try done.
  - cbn [schedule take_turn]. by rewrite Hp, E.
  - rewrite Hpu. cbn. by rewrite list_insert_insert_eq.
Qed.
Lemma pushers_finish n t g s :
  follows t g s -> (n <= length (pushers t))%nat ->
  exists turns t' g' s', schedule expected turns t = Done t' /\ follows t' g' s' /\
    length (pushers t') = length (pushers t) /\
    (forall i p, (i < n)%nat -> pushers t' !! i = Some p -> p.1 = []).
Proof.
  intros H. induction n as [|n IH]; intros Hn; [exists [], t, g, s; split_and!; try done; lia|].
  destruct IH as (l1 & t1 & g1 & s1 & E1 & H1 & L1 & F1); [lia|].
  destruct (lookup_lt_is_Some_2 (pushers t1) n) as [p Hp]; [lia|].
  destruct (pusher_finishes (S (chores s1 p)) t1 g1 s1 n p H1 Hp) as (l2 & t2 & g2 & s2 & p' & E2 & H2 & P2 & F2); [lia|].
  exists (l1 ++ l2), t2, g2, s2. rewrite schedule_app, E1, bind_ret, P2, length_insert. split_and!; try done.
  intros i q Hi Hq. apply list_lookup_insert_Some in Hq as [(_ & <- & _)|[Hne Hq]]; [done|]. eapply F1; [|done]. lia.
Qed.
(** Then the main thread does. *)
Lemma main_finishes fuel t g s :
  follows t g s -> forallb finished_ (pushers t) = true -> to_go t < Z.of_nat fuel ->
  exists turns t' s', schedule expected turns t = Done t' /\ follows t' g s' /\ main t' = Passed.
Proof.
  revert t s. induction fuel as [|fuel IH]; intros t s H Hf Hgo.
  { pose proof (seen_bound _ _ _ H). unfold to_go in Hgo.
    assert (forall pc, 0 <= drain_rank (DPop (T := Z) pc)) as Hr by (intros [| | | | |[]]; cbn; lia).
    destruct (main t) as [n [pc|]|pc| |]; try specialize (Hr pc); lia. }
  destruct (main_turn t g s H) as (t1 & s1 & E & H1 & Hp & Hlt).
  destruct (main t) as [| | |] eqn:Hm; [..|by exists [], t, s].
  all: destruct (IH t1 s1 H1) as (l & t' & s' & E' & H' & Hend); [by rewrite Hp|specialize (Hlt ltac:(done) Hf); lia|];
    exists (TMain :: l), t', s'; cbn [schedule take_turn]; by rewrite E.
Qed.
End Harnessed.

(** A test passes: no schedule panics, and every schedule can be carried on to
    the end, where exactly [expected] has been seen. *)
Definition passes (expected : list Z) (test : list turn -> run Test) : Prop :=
  forall turns, exists t, test turns = Done t /\ (main t = Passed -> seen t ≡ₚ expected) /\
    exists more t', test (turns ++ more) = Done t' /\ main t' = Passed /\ seen t' ≡ₚ expected.

Lemma follows_start k m scripts pops :
  holds m k 0 [] ->
  exists s, follows k (concat scripts) (mkTest m ((fun vs => (vs, None)) <$> scripts) (Pops pops None) []) [] s.
Proof.
  intros Hm. eexists (mkSys m ∅ (DPop CLoadHead) 0 [] [] []). constructor; cbn [shared pushers main seen]; try done.
  - apply (inv_woken 0 k [] (start m)); [by apply inv_start|done].
  - intros i. cbn. rewrite lookup_empty, list_lookup_fmap. destruct (scripts !! i) as [[]|]; done.
  - cbn. clear Hm. induction scripts as [|[|v vs] l IH]; cbn in *; [done..|]. by rewrite IH.
  - by intros v vs pc e (? & [=] & _)%list_elem_of_fmap.
Qed.


